(* ===== verification/_CoqProject ===== *)
-Q . S2P
Prelude.v
Utf8.v
Crc.v
Wire.v
Control.v
Registry.v
Layout.v
Ring.v
RingRead.v
Loss.v
Consumer.v
Epoch.v
Capture.v
Memory.v
Concurrent.v
ConcurrentWriter.v
ConcurrentSolo.v
ConcurrentRead.v
ConcurrentSystem.v
Shared.v
SharedRead.v
Text.v
Conformance.v
ConformanceReport.v
DefModel.v
DefSchema.v
DefHash.v
DefResolver.v
DefProducer.v
Document.v
Vectors.v
VectorFiles.v
HarnessArgs.v
Harness.v
HarnessCheck.v
HarnessStream.v
HarnessRun.v
HarnessLive.v
