(* ===== verification/Prelude.v ===== *)
(** * OpenOT: a verification library for its Rust crates

    The program logs operational-technology events. A producer encodes records
    into a byte ring that overwrites its oldest records; consumers read the
    ring back, account for what was overwritten, find the epoch (the definition
    file) each record was written under, and turn its slots into named values.
    A conformance crate judges runs of the whole, and a live harness runs a
    producer and a consumer process against each other. This library models the
    crates [carriage], [open-ot-shm], [conformance], [definition], [document] and
    [live-harness] of src/crates and proves that each part does what it promises,
    and that the parts fit.

    ** The parts and where they are modelled

    - [Crc] (carriage/src/crc.rs): the CRC-32C of a record, bit by bit.
    - [Wire] (wire.rs): records, slots, [encode], [validate_record], [decode].
    - [Control] (control.rs): the 88-byte control block and its seqlock checks.
    - [Registry] (registry.rs): events, fields, types, units, enums, lookups.
    - [Ring] (ring.rs): the single-buffer ring: writing with eviction, pending
      loss ranges; [RingRead]: its two readers. [Layout] is the specification
      both rings share: the records a walk over a byte pool meets.
    - [Loss] (loss.rs): the tracker of delivered and lost sequence numbers.
    - [Consumer] (consumer.rs): the two polling consumers, as instances of one
      class, which the end-to-end theorems are proved against.
    - [Epoch] (epoch.rs): the producer that numbers records per source and runs
      epoch transitions, and the resolver from offsets to epochs.
    - [Capture] (capture.rs): the two fixed scenarios of that producer and the
      validation of an image another implementation captured for one of them.
    - [Memory], [Concurrent], [ConcurrentWriter], [ConcurrentRead],
      [ConcurrentSolo], [ConcurrentSystem] (concurrent.rs): the lock-free store
      shared by one producer and one consumer, as programs of atomic accesses
      over a release/acquire memory; its proofs for the writer, for a reader
      beside a running writer, for a reader alone, and for both together.
    - [Shared] (open-ot-shm/src/lib.rs): the same store in a mapped file, with
      the seqlock around its control block; [SharedRead]: creation, snapshots
      beside a running writer, and what reopening a ring does.
    - [Conformance] (conformance/src/lib.rs): the oracles that judge what a
      consumer delivered; [ConformanceReport]: the report of a run, its text and
      the checks on it. [Text] is what they use of the standard library's text
      functions.
    - [DefModel] (definition/src/model.rs): the definition file and the built-in
      schemas; [DefSchema] (schema.rs): validation of definitions and records;
      [DefHash] (hash.rs): the definition hash and the guarded JSON reader;
      [DefResolver] (resolver.rs): resolution of a record into named fields.
    - [Document] (document/src/lib.rs): the projection of resolutions and loss
      intervals to documents.
    - [Vectors] (vectors.rs): the records, images and text forms of the
      conformance vectors; [VectorFiles]: the manifests and the whole set.
    - [DefProducer]: the records of [Epoch] and [Loss] against [DefSchema] and
      [DefResolver].
    - [HarnessArgs], [Harness] (live-harness/src/main.rs): the command lines; the
      producer and the consumer process as programs of the shared store's
      accesses, the parent's checks and what it prints. [HarnessCheck] has the
      parent's decision, [HarnessStream] what the producer writes, [HarnessRun]
      the consumer beside any producer and its report, [HarnessLive] both
      processes as one transition system and its runs.
    - [Utf8] is [String::from_utf8] of the standard library. [Prelude] (this
      file) has the integers, the outcomes, the loops, little-endian encodings,
      byte-string updates, checks, and sorting.

    A struct is a Record whose fields carry a prefix of their own, an enum an
    Inductive, an operation a function of the same name (with a prefix where
    two files share one) that returns the new state. Fallible code returns
    [res]: [Ok] or [Err], [Panic] where Rust panics (an index out of range, an
    [expect], an overflow in a build with overflow checks), [Diverge] where a
    loop has used up its fuel. Whether arithmetic overflow panics or wraps is
    the class [BuildProfile]; the theorems hold for both unless they name one.
    Where the code leaves a changed object behind an error ([Epoch]), the error
    carries that object.

    The trait [ConcurrentStore] is a class with the store's operations. What the
    producer and the consumer need of a store is three classes of laws:
    [ConcurrentWriter.StoreLaws] (each operation is the access it says, bracketed
    by the lock if there is one), [ConcurrentSolo.QuietSnapshot] and
    [ConcurrentRead.SnapshotLaws] (what a snapshot shows, alone and beside a
    writer). The theorems about the system are proved from them; the owned store
    satisfies them under both memory models, the shared store under sequential
    consistency.

    ** What the theorems show

    - Wire format: encoding and decoding are inverse on well-formed records
      ([Wire.decode_encode], [Wire.encode_decode]); decoding any bytes returns
      ([Wire.decode_returns]); a burst of four corrupted bytes is refused
      ([Wire.decode_rejects_burst], from [Crc.crc32c_burst_detected]).
    - Ring: a write refines the append to an abstract log
      ([Ring.write_record_refines]), nothing written is unaccounted
      ([Ring.ring_conservation]), the two readers agree
      ([RingRead.raw_equals_indexed]), and the raw walk is sound and total on
      any bytes ([RingRead.read_raw_window_sound], [RingRead.captured_read_total]).
    - Loss: [Loss.no_silent_loss], [Loss.reconciliation_exact] and the interval
      union [Loss.insert_loss_event_union]; polled end to end,
      [Consumer.poll_exactly_once] and [Consumer.end_to_end_reconciliation]:
      delivered and lost reach what was written, and add up to it unless a
      [RecordsDropped] record came in ([Consumer.dropped_after_delivery]).
    - Control block: decoding accepts exactly the stable images
      ([Control.control_decode_iff]).
    - Epochs, in a ring with room for each record and without data under the
      system's source id: the producer never panics and numbers without gaps
      ([Epoch.epoch_sequences]), follows its automaton ([Epoch.protocol_exact])
      and writes a fixed series of records at a transition, without the first
      sequence numbers its comments speak of ([Epoch.transition_writes]); the
      resolver recovers the epoch of every record ([Epoch.resolver_exact]).
    - Captures: validation accepts exactly the image the producer generates,
      which the stored fixture is ([Capture.validate_capture_exact]).
    - Concurrent store, for every interleaving: what is delivered was written,
      in order, at most once ([ConcurrentSystem.concurrent_delivery]); under
      sequential consistency a batch that is not lapped is complete
      ([ConcurrentSystem.batch_complete]); the producer implements the
      single-buffer ring ([ConcurrentSystem.producer_refines_ring]); alone, a
      poll terminates with everything there is
      ([ConcurrentSystem.quiescent_poll]).
    - Shared store: a created file is an empty ring ([SharedRead.shared_create]);
      under sequential consistency a snapshot is one moment between two appends
      ([SharedRead.shared_snapshot_moment]) and delivery is that of the owned
      store ([SharedRead.shared_delivery]); under release/acquire the seqlock
      lets a record be skipped ([SharedRead.shared_weak_skip]); a reopened ring
      starts over ([SharedRead.reopened_publisher_rewinds]).
    - Conformance: the sidecar oracle predicts where the ring puts each record
      and accepts exactly the keys and offsets of sublists of the log
      ([Conformance.observer_exact]), so a concurrent run raises no false alarm
      ([Conformance.concurrent_run_clean]); the embedded oracle is exact
      ([Conformance.embedded_exact]); a report is read back from its text
      exactly when its labels are words
      ([ConformanceReport.report_roundtrip]); the check of a fenced run decides
      what it says ([ConformanceReport.fenced_check_exact]).
    - Definitions: validation decides a declarative well-formedness
      ([DefSchema.validate_definition_exact], [DefSchema.validate_record_exact]);
      the built-in schemas are well formed ([DefSchema.canonical_definition_ok]);
      the hash is a function of the content alone
      ([DefHash.content_hash_binding]); resolution never panics, succeeds exactly
      when it should ([DefResolver.resolve_record_exact]) and gives each slot's
      value ([DefResolver.resolved_fields_exact]).
    - Documents: two resolutions have the same document exactly when they are
      the same, up to floats that are not finite ([Document.documents_faithful]);
      a record rebuilt from a placeholder document resolves like the original
      ([Document.placeholder_replays]).
    - Vectors: for any record vectors, their files hold the encodings and the
      measures their manifests show ([VectorFiles.record_files_exact]); the run
      over the vectors of the repository is computed
      ([VectorFiles.generated_vectors]).
    - Across components: the library's own records are valid against its
      built-in schemas ([DefProducer.library_records_conform]), and after an
      epoch transition the published snapshot leads the resolver to the right
      definition for each record of it ([DefProducer.transition_resolves]).

    - Live runs, under sequential consistency: the producer process writes the
      planned stream ([HarnessStream.producer_writes_stream]); if the ring has
      room for the high-water records of all sources, then whatever the
      interleaving, the report of a fenced run reconciles source by source and
      the parent accepts it exactly when the asked progress was made
      ([HarnessLive.fenced_run_reconciles]), and every run can be finished
      ([HarnessLive.fenced_run_finishes]); the consumer of that system is
      [Harness.consumer_run] ([HarnessLive.consume_rest]). The parent's check
      decides what it says ([HarnessCheck.assert_run_result_exact]), and the
      command lines it builds mean its own ([HarnessArgs.children_agree]).

    ** Bounds and fuel

    Two loops walk a pool from an offset to the head ([Ring.raw_loop],
    [Concurrent.store_loop]); every turn moves the offset forward by at least
    one, so the fuel is the distance between the two at the start, and the
    theorems prove that [Diverge] is not reached. All other loops are
    structural; the consumer's polling loop has no bound of its own and is a
    transition system ([HarnessLive.consume]), or takes one turn for each
    [Moment] it is given ([Harness.consumer_loop]). Offsets and sequence numbers are [u64]; the theorems about
    histories assume that the log is short enough for them not to wrap (2^63 or
    2^64 bytes written), which each statement spells out ([fits_ops],
    [schedule_ok] and the like). [usize] is [nat].

    ** The memory model

    One thread writes, so memory is one list of messages and a view is a prefix
    of it. A release store or a release fence before a relaxed store publishes
    a prefix; an acquire load or fence takes it over; a relaxed load may return
    any message not older than what its thread knows. Under [strong] every load
    returns the latest message (sequential consistency). A move of the system
    is one atomic access of one thread. A byte of the shared control block that
    belongs to a wider word is read as that byte of a message to the word.

    ** Third-party code

    [serde_jcs], the lexer of [serde_json] and SHA-256 are the fields of
    [DefHash.HashLibraries]; the only law assumed of them is that a digest has
    32 bytes ([DefHash.HashLaws]). The JSON values inside documents are those of
    [Document.JsonLibrary]; [Document.JsonLaws] says that conversions keep what
    they are given, that [get] finds the entries of an object, and that a float
    that is not finite becomes null. Opening, sizing and mapping files are the
    fields of [Shared.FileSystem]; the only law is that a file just created and
    extended reads as zeros ([SharedRead.FileSystemLaws]). The positions [serde_json] adds to error
    messages are left out.

    ** Not modelled, and why

    - [to_json] of document: code derived by serde over serde_json.
    - write_vectors and dump_vectors: they write the generated files to disk.
    - Of live-harness: starting, pinning and waiting for processes
      ([command_for], [can_use_taskset], [main]), removing and renaming files
      ([write_done_atomic]), sleeping and the clock. What a run finds of them is
      an argument: [Harness.Moment], [Harness.ChildRun], the process id, the text
      of a [{:?}] list ([HarnessArgs.DebugText]). Between writing and reading the
      report, its file keeps its content. The properties of live runs are about
      sequential consistency and the fence on; the unfenced runs are modelled,
      but they are there to show that anything may happen.
    - src/st: Structured Text for the controller, not Rust.
    - Derived code (serde, Clone, Debug), [Display] texts other than the one the
      resolver stores, and the tests. *)
From Stdlib Require Export ZArith Lia.
From stdpp Require Export base numbers gmap sorting list.

(** ** Scope of the development's own notations *)
Declare Scope oot_scope.
Delimit Scope oot_scope with oot.
#[global] Open Scope oot_scope.
#[global] Open Scope Z_scope.

(** ** Rust integer types

    Every fixed-width Rust integer is a [Z] in its range; [usize] is [nat]
    (a [usize] here is always the length of, or an index into, an object in
    memory, so it never reaches [usize::MAX]). *)
Abbreviation u8 := Z (only parsing).
Abbreviation u16 := Z (only parsing).
Abbreviation u32 := Z (only parsing).
Abbreviation u64 := Z (only parsing).
Abbreviation usize := nat (only parsing).
Abbreviation bytes := (list Z) (only parsing).

Definition U8_MAX : Z := 255.
Definition U16_MAX : Z := 65535.
Definition U32_MAX : Z := 4294967295.
Definition U64_MAX : Z := 18446744073709551615.

(** [fits w v]: [v] is a value of the unsigned [w]-bit type. *)
Definition fits (w : Z) (v : Z) : Prop := 0 ≤ v < 2 ^ w.
Abbreviation is_u8 := (fits 8).
Abbreviation is_u16 := (fits 16).
Abbreviation is_u32 := (fits 32).
Abbreviation is_u64 := (fits 64).

#[global] Instance fits_dec w v : Decision (fits w v).
Proof. unfold fits. apply _. Defined.

(** A byte string: every element is a [u8]. *)
Definition bytes_ok (bs : bytes) : Prop := Forall is_u8 bs.

#[global] Instance bytes_ok_dec bs : Decision (bytes_ok bs).
Proof. unfold bytes_ok. apply _. Defined.

(** ** Outcomes of Rust code

    [Ok]/[Err] are the two sides of [Result]; [Panic] is a panic (an index
    out of range, an arithmetic overflow under overflow checks, a failed
    [assert!]); [Diverge] is a loop that used up its fuel. *)
Inductive res (E A : Type) : Type :=
| Ok (a : A)
| Err (e : E)
| Panic
| Diverge.
Arguments Ok {E A} _.
Arguments Err {E A} _.
Arguments Panic {E A}.
Arguments Diverge {E A}.

#[global] Instance res_ret E : MRet (res E) := λ A, Ok.
#[global] Instance res_bind E : MBind (res E) := λ A B f m,
  match m with
  | Ok a => f a
  | Err e => Err e
  | Panic => Panic
  | Diverge => Diverge
  end.

#[global] Instance res_eq_dec `{EqDecision E, EqDecision A} : EqDecision (res E A).
Proof. solve_decision. Defined.

(** [map_err] and the [From] conversions of [?]. *)
Definition map_err {E F A} (f : E → F) (m : res E A) : res F A :=
  match m with
  | Ok a => Ok a
  | Err e => Err (f e)
  | Panic => Panic
  | Diverge => Diverge
  end.

(** The code returned: it neither panicked nor ran out of fuel. *)
Definition returns {E A} (m : res E A) : Prop :=
  match m with Ok _ | Err _ => True | _ => False end.

(** A [for] loop over a list with a state and an early return. *)
Fixpoint for_each {E A S} (body : A → S → res E S) (l : list A) (s : S) : res E S :=
  match l with
  | [] => Ok s
  | x :: l => s ← body x s; for_each body l s
  end.

(** ** Machine arithmetic

    A build profile says whether [+] and [-] on fixed-width integers are
    checked ([dev]: overflow panics) or wrap ([release]). *)
Class BuildProfile := overflow_checks : bool.
Definition dev_profile : BuildProfile := true.
Definition release_profile : BuildProfile := false.

Section arith.
Context {BP : BuildProfile} {E : Type}.

Definition add_w (w a b : Z) : res E Z :=
  if bool_decide (a + b < 2 ^ w) then Ok (a + b)
  else if overflow_checks then Panic else Ok ((a + b) mod 2 ^ w).

Definition sub_w (w a b : Z) : res E Z :=
  if bool_decide (b ≤ a) then Ok (a - b)
  else if overflow_checks then Panic else Ok ((a - b) mod 2 ^ w).

(** [debug_assert!]: the dev profile has debug assertions on, release has not. *)
Definition debug_assert (b : bool) : res E unit :=
  if overflow_checks && negb b then Panic else Ok tt.

End arith.
Abbreviation add64 := (add_w 64).
Abbreviation sub64 := (sub_w 64).

Definition saturating_sub64 (a b : Z) : Z := Z.max 0 (a - b).
Definition saturating_add64 (a b : Z) : Z := Z.min U64_MAX (a + b).

(** ** Byte strings *)
Fixpoint to_le_bytes (n : nat) (v : Z) : bytes :=
  match n with
  | O => []
  | S n => v mod 256 :: to_le_bytes n (v / 256)
  end.

Fixpoint from_le_bytes (bs : bytes) : Z :=
  match bs with
  | [] => 0
  | b :: bs => b + 256 * from_le_bytes bs
  end.

(** [bs[i]]: panics out of range. *)
Definition index {E A} (bs : list A) (i : usize) : res E A :=
  match bs !! i with Some b => Ok b | None => Panic end.

(** [bs[i..j]]: panics when the range is not inside [bs]. *)
Definition slice {E A} (bs : list A) (i j : usize) : res E (list A) :=
  if bool_decide (i ≤ j ∧ j ≤ length bs)%nat then Ok (take (j - i) (drop i bs)) else Panic.

(** [bs[i] = v]: panics out of range. *)
Definition store {E A} (bs : list A) (i : usize) (v : A) : res E (list A) :=
  if bool_decide (i < length bs)%nat then Ok (<[i := v]> bs) else Panic.

(** [bs[i..i + src.len()].copy_from_slice(src)]. *)
Definition splice {A} (bs : list A) (i : usize) (src : list A) : list A :=
  take i bs ++ src ++ drop (i + length src) bs.
Definition copy_from_slice {E A} (bs : list A) (i : usize) (src : list A) : res E (list A) :=
  if bool_decide (i + length src ≤ length bs)%nat then Ok (splice bs i src) else Panic.

(** [bs[o..o+n]] without the bounds check, the specification of the readers. *)
Definition seg {A} (bs : list A) (o n : nat) : list A := take n (drop o bs).

(** [by_compute] closes a decidable goal on concrete data. *)
Ltac by_compute := apply (bool_decide_unpack _); vm_compute; exact I.

(** ** Lemmas on outcomes *)
Section res_lemmas.
Context {E : Type}.

Lemma bind_Ok {A B} (m : res E A) (f : A → res E B) b :
  (m ≫= f) = Ok b ↔ ∃ a, m = Ok a ∧ f a = Ok b.
Proof. destruct m; simpl; naive_solver. Qed.

Lemma ok_bind {A B} (a : A) (f : A → res E B) : (Ok a ≫= f) = f a.
Proof. done. Qed.

Lemma err_bind {A B} (e : E) (f : A → res E B) : (Err e ≫= f) = Err e.
Proof. done. Qed.

Lemma bind_Err {A B} (m : res E A) (f : A → res E B) e :
  (m ≫= f) = Err e ↔ m = Err e ∨ ∃ a, m = Ok a ∧ f a = Err e.
Proof. destruct m; simpl; naive_solver. Qed.

Lemma returns_bind {A B} (m : res E A) (f : A → res E B) :
  returns m → (∀ a, m = Ok a → returns (f a)) → returns (m ≫= f).
Proof. destruct m; simpl; naive_solver. Qed.

Lemma map_err_Ok {F A} (f : E → F) (m : res E A) a : map_err f m = Ok a ↔ m = Ok a.
Proof. destruct m; simpl; naive_solver. Qed.

Lemma returns_map_err {F A} (f : E → F) (m : res E A) : returns (map_err f m) ↔ returns m.
Proof. by destruct m. Qed.

Lemma for_each_app {A S} (body : A → S → res E S) l1 l2 s :
  for_each body (l1 ++ l2) s = (for_each body l1 s ≫= for_each body l2).
Proof.
  revert s. induction l1 as [|x l1 IH]; intros s; simpl; [done|].
  destruct (body x s); simpl; auto.
Qed.

(** Hoare rule of the [for] loop: [P] indexed by what is left of the list. *)
Lemma for_each_inv {A S} (P : list A → S → Prop) (body : A → S → res E S) l s :
  P l s →
  (∀ x l' s, P (x :: l') s → ∃ s', body x s = Ok s' ∧ P l' s') →
  ∃ s', for_each body l s = Ok s' ∧ P [] s'.
Proof.
  intros H0 Hstep. revert s H0. induction l as [|x l IH]; intros s HP; simpl; [eauto|].
  destruct (Hstep _ _ _ HP) as (s' & -> & HP'). simpl. by apply IH.
Qed.

Lemma for_each_returns {A S} (body : A → S → res E S) l s :
  (∀ x s, returns (body x s)) → returns (for_each body l s).
Proof.
  intros Hb. revert s. induction l as [|x l IH]; intros s; simpl; [done|].
  apply returns_bind; auto.
Qed.
End res_lemmas.

(** ** Checks

    A check decides a property: it succeeds exactly when it holds and never
    panics. *)
Definition checks {E A} (m : res E A) (P : Prop) : Prop :=
  match m with Ok _ => P | Err _ => ¬ P | _ => False end.

Section checks_lemmas.
Context {E : Type}.

Lemma checks_iff {A} (m : res E A) P Q : (P ↔ Q) → checks m P → checks m Q.
Proof. destruct m; cbn; tauto. Qed.

Lemma checks_ok {A} (a : A) (P : Prop) : P → checks (Ok (E:=E) a) P.
Proof. done. Qed.

Lemma checks_if {A} (P : Prop) `{Decision P} (e : E) (a : A) : checks (if decide P then Err e else Ok a) (¬ P).
Proof. case_decide; cbn; tauto. Qed.

Lemma checks_bind {A B} (m : res E A) (f : A → res E B) P Q :
  checks m P → (∀ a, m = Ok a → checks (f a) Q) → checks (m ≫= f) (P ∧ Q).
Proof.
  intros Hm Hf. destruct m as [a|e| |]; cbn in *; try done; [|tauto].
  specialize (Hf a eq_refl). destruct (f a); cbn in *; tauto.
Qed.

Lemma checks_for_each {A} (c : A → res E unit) (P : A → Prop) l :
  (∀ x, x ∈ l → checks (c x) (P x)) → checks (for_each (λ x _, c x) l tt) (Forall P l).
Proof.
  induction l as [|x l IH]; intros Hc; cbn [for_each]; [by apply checks_ok, Forall_nil|].
  eapply checks_iff; [symmetry; apply Forall_cons|]. apply checks_bind; [apply Hc; by left|].
  intros [] _. apply IH. intros y Hy. apply Hc. by right.
Qed.

Lemma checks_Ok {A} (m : res E A) P a : checks m P → m = Ok a → P.
Proof. by intros H ->. Qed.
Lemma checks_true {A} (m : res E A) (P : Prop) : checks m P → P → ∃ a, m = Ok a.
Proof. destruct m; cbn; intros H HP; try done; by eexists. Qed.
Lemma checks_false {A} (m : res E A) (P : Prop) : checks m P → ¬ P → ∃ e, m = Err e.
Proof. destruct m; cbn; intros H HP; try done; by eexists. Qed.

(** Every error of [m] satisfies [Q]. *)
Definition raises {A} (Q : E → Prop) (m : res E A) : Prop := ∀ e, m = Err e → Q e.

Lemma raises_bind {A B} (Q : E → Prop) (m : res E A) (f : A → res E B) :
  raises Q m → (∀ a, raises Q (f a)) → raises Q (m ≫= f).
Proof. intros Hm Hf e. destruct m; cbn; [apply Hf|intros [= ->]; by apply Hm|done..]. Qed.

Lemma raises_for_each {A S} (Q : E → Prop) (body : A → S → res E S) l s :
  (∀ x s, raises Q (body x s)) → raises Q (for_each body l s).
Proof. intros Hb. revert s. induction l as [|x l IH]; intros s; cbn; [by intros e|]. apply raises_bind; auto. Qed.
End checks_lemmas.

(** For the body of a check: every [Err] in sight satisfies [Q]. *)
Ltac raises_tac := intros ?; repeat case_match; intros; simplify_eq/=; try done.

Section arith_lemmas.
Context {BP : BuildProfile} {E : Type}.

Lemma add_w_ok w a b : a + b < 2 ^ w → add_w (E:=E) w a b = Ok (a + b).
Proof. intros. unfold add_w. by rewrite bool_decide_true. Qed.

Lemma sub_w_ok w a b : b ≤ a → sub_w (E:=E) w a b = Ok (a - b).
Proof. intros. unfold sub_w. by rewrite bool_decide_true. Qed.

Lemma debug_assert_ok b : b = true → debug_assert (E:=E) b = Ok tt.
Proof. intros ->. unfold debug_assert. by rewrite andb_false_r. Qed.
End arith_lemmas.

(** ** Lemmas on little-endian encodings *)
Lemma length_to_le_bytes n v : length (to_le_bytes n v) = n.
Proof. revert v. induction n; simpl; auto. Qed.

Lemma to_le_bytes_ok n v : bytes_ok (to_le_bytes n v).
Proof.
  revert v. induction n as [|n IH]; intros v; simpl; [by constructor|].
  constructor; [|apply IH]. unfold fits. pose proof (Z.mod_pos_bound v 256). lia.
Qed.

Lemma pow_256_S n : 2 ^ (8 * Z.of_nat (S n)) = 256 * 2 ^ (8 * Z.of_nat n).
Proof.
  replace (8 * Z.of_nat (S n)) with (8 + 8 * Z.of_nat n) by lia.
  rewrite Z.pow_add_r by lia. done.
Qed.

Lemma from_to_le_bytes n v :
  fits (8 * Z.of_nat n) v → from_le_bytes (to_le_bytes n v) = v.
Proof.
  revert v. induction n as [|n IH]; intros v; unfold fits.
  { simpl. intros. assert (2 ^ (8 * Z.of_nat 0) = 1) by done. lia. }
  rewrite pow_256_S. intros Hv. simpl. rewrite IH.
  - pose proof (Z.div_mod v 256). lia.
  - split; [apply Z.div_pos; lia|]. apply Z.div_lt_upper_bound; lia.
Qed.

Lemma from_le_bytes_fits bs :
  bytes_ok bs → fits (8 * Z.of_nat (length bs)) (from_le_bytes bs).
Proof.
  induction 1 as [|b bs Hb Hbs IH]; simpl length.
  { unfold fits. simpl. lia. }
  unfold fits in *. rewrite pow_256_S. simpl. assert (2 ^ 8 = 256) by done. lia.
Qed.

Lemma to_from_le_bytes bs :
  bytes_ok bs → to_le_bytes (length bs) (from_le_bytes bs) = bs.
Proof.
  induction 1 as [|b bs Hb Hbs IH]; simpl; [done|].
  assert (0 ≤ b < 256) by (unfold fits in Hb; lia).
  f_equal.
  - rewrite Z.mul_comm, Z.mod_add by lia. by apply Z.mod_small.
  - rewrite Z.mul_comm, Z.div_add by lia. by rewrite Z.div_small, Z.add_0_l by lia.
Qed.

Lemma to_le_bytes_inj n v w :
  fits (8 * Z.of_nat n) v → fits (8 * Z.of_nat n) w →
  to_le_bytes n v = to_le_bytes n w → v = w.
Proof. intros Hv Hw Heq. by rewrite <-(from_to_le_bytes n v), Heq, from_to_le_bytes. Qed.

(** ** Lemmas on segments and stores *)
Section seg_lemmas.
Context {A : Type}.
Implicit Types bs src : list A.

Lemma length_seg bs o n : (o + n ≤ length bs)%nat → length (seg bs o n) = n.
Proof. intros. unfold seg. rewrite length_take, length_drop. lia. Qed.

Lemma seg_app_l bs1 bs2 o n :
  (o + n ≤ length bs1)%nat → seg (bs1 ++ bs2) o n = seg bs1 o n.
Proof.
  intros. unfold seg. rewrite drop_app_le by lia.
  rewrite take_app_le; [done|]. rewrite length_drop. lia.
Qed.

Lemma seg_app_r bs1 bs2 o n :
  (length bs1 ≤ o)%nat → seg (bs1 ++ bs2) o n = seg bs2 (o - length bs1) n.
Proof. intros. unfold seg. by rewrite drop_app_ge. Qed.

Lemma seg_all bs n : n = length bs → seg bs 0 n = bs.
Proof. intros ->. unfold seg. by rewrite drop_0, take_ge. Qed.

Lemma seg_prefix bs1 bs2 n : n = length bs1 → seg (bs1 ++ bs2) 0 n = bs1.
Proof. intros ->. rewrite seg_app_l by lia. by apply seg_all. Qed.

Lemma seg_seg bs o n o' n' :
  (o' + n' ≤ n)%nat → seg (seg bs o n) o' n' = seg bs (o + o') n'.
Proof.
  intros. unfold seg. rewrite take_drop_commute, take_take, Nat.min_l by lia.
  by rewrite <-take_drop_commute, drop_drop.
Qed.

Lemma lookup_seg bs o n i : (i < n)%nat → seg bs o n !! i = bs !! (o + i)%nat.
Proof. intros. unfold seg. rewrite lookup_take_lt by done. apply lookup_drop. Qed.

Lemma seg_S bs o n b :
  bs !! o = Some b → seg bs o (S n) = b :: seg bs (S o) n.
Proof. intros H. unfold seg. by rewrite (drop_S _ _ _ H). Qed.

Lemma seg_split bs o n m : seg bs o (n + m) = seg bs o n ++ seg bs (o + n) m.
Proof. unfold seg. rewrite <-drop_drop. symmetry. apply take_take_drop. Qed.

Lemma slice_ok {E} bs i j :
  (i ≤ j)%nat → (j ≤ length bs)%nat → slice (E:=E) bs i j = Ok (seg bs i (j - i)).
Proof. intros. unfold slice. by rewrite bool_decide_true by lia. Qed.

Lemma index_ok {E} bs i b : bs !! i = Some b → index (E:=E) bs i = Ok b.
Proof. intros H. unfold index. by rewrite H. Qed.

Lemma index_lt {E} bs i : (i < length bs)%nat → ∃ b, bs !! i = Some b ∧ index (E:=E) bs i = Ok b.
Proof. intros [b Hb]%lookup_lt_is_Some. eauto using index_ok. Qed.

Lemma length_splice bs i src :
  (i + length src ≤ length bs)%nat → length (splice bs i src) = length bs.
Proof. intros. unfold splice. rewrite !length_app, length_take, length_drop. lia. Qed.

Lemma lookup_splice bs i src j :
  (i + length src ≤ length bs)%nat →
  splice bs i src !! j =
    if bool_decide (i ≤ j < i + length src)%nat then src !! (j - i)%nat else bs !! j.
Proof.
  intros Hlen. unfold splice. case_bool_decide as Hj.
  - rewrite lookup_app_r by (rewrite length_take; lia).
    rewrite length_take, Nat.min_l by lia. by rewrite lookup_app_l by lia.
  - destruct (decide (j < i)%nat).
    + rewrite lookup_app_l by (rewrite length_take; lia). by rewrite lookup_take_lt.
    + rewrite !lookup_app_r by (rewrite ?length_take; lia).
      rewrite lookup_drop, length_take. f_equal. lia.
Qed.

Lemma seg_ext bs1 bs2 o n :
  length bs1 = length bs2 →
  (∀ i, (o ≤ i < o + n)%nat → bs1 !! i = bs2 !! i) → seg bs1 o n = seg bs2 o n.
Proof.
  intros Hlen H. apply list_eq. intros i. destruct (decide (i < n)%nat).
  - rewrite !lookup_seg by done. apply H. lia.
  - unfold seg. by rewrite !lookup_take_ge by lia.
Qed.

Lemma seg_splice_same bs i src :
  (i + length src ≤ length bs)%nat → seg (splice bs i src) i (length src) = src.
Proof.
  intros. apply list_eq. intros j. destruct (decide (j < length src)%nat).
  - rewrite lookup_seg, lookup_splice by lia.
    rewrite bool_decide_true by lia. f_equal. lia.
  - unfold seg. rewrite lookup_take_ge by lia. by rewrite lookup_ge_None_2 by lia.
Qed.

Lemma seg_splice_disjoint bs i src o n :
  (i + length src ≤ length bs)%nat → (o + n ≤ i ∨ i + length src ≤ o)%nat →
  seg (splice bs i src) o n = seg bs o n.
Proof.
  intros. apply seg_ext; [by apply length_splice|]. intros j Hj.
  rewrite lookup_splice by done. by rewrite bool_decide_false by lia.
Qed.

Lemma copy_from_slice_ok {E} bs i src :
  (i + length src ≤ length bs)%nat → copy_from_slice (E:=E) bs i src = Ok (splice bs i src).
Proof. intros. unfold copy_from_slice. by rewrite bool_decide_true. Qed.

Lemma store_ok {E} bs i v : (i < length bs)%nat → store (E:=E) bs i v = Ok (<[i := v]> bs).
Proof. intros. unfold store. by rewrite bool_decide_true. Qed.
End seg_lemmas.

(** ** Byte strings and fields *)
Lemma bytes_ok_seg bs o n : bytes_ok bs → bytes_ok (seg bs o n).
Proof. intros. by apply Forall_take, Forall_drop. Qed.

Lemma bytes_ok_app bs1 bs2 : bytes_ok (bs1 ++ bs2) ↔ bytes_ok bs1 ∧ bytes_ok bs2.
Proof. apply Forall_app. Qed.

Lemma le_fields bs o m :
  bytes_ok bs → (o + m ≤ length bs)%nat →
  fits (8 * Z.of_nat m) (from_le_bytes (seg bs o m))
  ∧ to_le_bytes m (from_le_bytes (seg bs o m)) = seg bs o m.
Proof.
  intros Hok Hm. pose proof (bytes_ok_seg bs o m Hok) as Hsok. pose proof (length_seg bs o m Hm) as Hl.
  split; [rewrite <-Hl at 1; by apply from_le_bytes_fits|rewrite <-Hl at 1; by apply to_from_le_bytes].
Qed.

(** [seg_step] walks one field into a right-nested append. *)
Ltac seg_step :=
  first
  [ rewrite seg_prefix by (rewrite ?length_to_le_bytes; reflexivity)
  | rewrite seg_app_r by (rewrite ?length_to_le_bytes; simpl; lia);
    rewrite ?length_to_le_bytes; cbn [length Nat.sub] ].

(** ** Filters *)
Section filter_lemmas.
Context {A B : Type}.

Lemma filter_fmap_list (P : B → Prop) `{!∀ x, Decision (P x)} (f : A → B) (l : list A) :
  filter P (f <$> l) = f <$> filter (λ x, P (f x)) l.
Proof. induction l as [|x l IH]; [done|]. rewrite fmap_cons, !filter_cons. case_decide; [|done]. rewrite fmap_cons. by f_equal. Qed.

Lemma filter_none (P : A → Prop) `{!∀ x, Decision (P x)} (l : list A) :
  Forall (λ x, ¬ P x) l → filter P l = [].
Proof. induction 1; [done|]. by rewrite filter_cons, decide_False. Qed.

Lemma filter_all (P : A → Prop) `{!∀ x, Decision (P x)} (l : list A) :
  Forall P l → filter P l = l.
Proof. induction 1; [done|]. rewrite filter_cons, decide_True by done. by f_equal. Qed.
End filter_lemmas.

(** ** Stable sorting

    [sort_by_key]: insertion from the right, so equal keys keep their order. *)
Section sort.
Context {A : Type} (le : A → A → bool).

Fixpoint insert_by (x : A) (l : list A) : list A :=
  match l with
  | [] => [x]
  | y :: l => if le x y then x :: y :: l else y :: insert_by x l
  end.
Definition sort_by (l : list A) : list A := foldr insert_by [] l.

Lemma insert_by_perm x l : insert_by x l ≡ₚ x :: l.
Proof. induction l as [|y l IH]; simpl; [done|]. destruct (le x y); [done|]. rewrite IH. constructor. Qed.

Lemma sort_by_perm l : sort_by l ≡ₚ l.
Proof. induction l as [|x l IH]; simpl; [done|]. by rewrite insert_by_perm, IH. Qed.

Lemma insert_by_sorted x l :
  (∀ y z, le y z = false → le z y) → (∀ x y z, le x y → le y z → le x z) →
  StronglySorted le l → StronglySorted le (insert_by x l).
Proof.
  intros Htot Htr. induction 1 as [|y l Hs IH Hy]; simpl; [by repeat constructor|].
  destruct (le x y) eqn:Hxy.
  - constructor; [by constructor|]. constructor; [by rewrite Hxy|].
    eapply Forall_impl; [exact Hy|]. simpl. intros z. apply Htr. by rewrite Hxy.
  - constructor; [done|]. rewrite insert_by_perm. constructor; [by apply Htot|done].
Qed.

Lemma sort_by_sorted l :
  (∀ y z, le y z = false → le z y) → (∀ x y z, le x y → le y z → le x z) →
  StronglySorted le (sort_by l).
Proof. intros ??. induction l; simpl; [constructor|]. by apply insert_by_sorted. Qed.
End sort.

Definition sort_by_key {A} (key : A → Z) : list A → list A :=
  sort_by (λ x y, bool_decide (key x ≤ key y)).

Lemma sort_by_key_perm {A} (key : A → Z) l : sort_by_key key l ≡ₚ l.
Proof. apply sort_by_perm. Qed.

Lemma sort_by_key_sorted {A} (key : A → Z) l :
  StronglySorted (λ x y, key x ≤ key y) (sort_by_key key l).
Proof.
  assert (H : StronglySorted (λ x y, bool_decide (key x ≤ key y)) (sort_by_key key l)).
  { apply sort_by_sorted; [intros y z Hf; apply bool_decide_eq_false in Hf|intros x y z ? ?];
      rewrite ?bool_decide_spec in *; lia. }
  induction H as [|x l' _ IH Hx]; constructor; [done|]. eapply Forall_impl; [exact Hx|].
  intros y. by rewrite bool_decide_spec.
Qed.

Lemma sort_by_key_id {A} (key : A → Z) l :
  StronglySorted (λ x y, key x ≤ key y) l → sort_by_key key l = l.
Proof.
  induction 1 as [|x l _ IH Hx]; [done|]. unfold sort_by_key in *. cbn [sort_by foldr].
  fold (sort_by (λ x y, bool_decide (key x ≤ key y)) l). rewrite IH.
  destruct Hx as [|y l Hy _]; [done|]. cbn [insert_by]. by rewrite bool_decide_true.
Qed.

(** Lexicographic order of tuples of integers. *)
Fixpoint lex_le (a b : list Z) : bool :=
  match a, b with
  | x :: a, y :: b => if decide (x = y) then lex_le a b else bool_decide (x < y)
  | [], _ => true
  | _ :: _, [] => false
  end.

(** *** Sorted lists *)
Lemma StronglySorted_snoc {A} (R : A → A → Prop) l x :
  StronglySorted R l → Forall (λ y, R y x) l → StronglySorted R (l ++ [x]).
Proof.
  induction 1 as [|y l _ IH Hy]; intros Hx; simpl; [by repeat constructor|].
  apply Forall_cons_1 in Hx as [? ?]. constructor; [by apply IH|]. apply Forall_app. split; [done|]. by constructor.
Qed.
