(* ===== verification/Utf8.v ===== *)
(** * UTF-8 strings

    [String::from_utf8] of the Rust standard library: the check by byte ranges,
    and that it accepts exactly the encodings of sequences of scalar values. *)
From stdpp Require Import strings.
From S2P Require Import Prelude.
#[local] Open Scope Z_scope.

Definition in_range (lo hi b : Z) : bool := bool_decide (lo ≤ b ≤ hi).
Definition continuation : Z → bool := in_range 0x80 0xBF.

Fixpoint utf8_valid (bs : bytes) : bool :=
  match bs with
  | [] => true
  | b0 :: bs =>
      if in_range 0 0x7F b0 then utf8_valid bs else
      match bs with
      | [] => false
      | b1 :: bs =>
          if in_range 0xC2 0xDF b0 then continuation b1 && utf8_valid bs else
          match bs with
          | [] => false
          | b2 :: bs =>
              if in_range 0xE0 0xEF b0 then
                in_range (if decide (b0 = 0xE0) then 0xA0 else 0x80) (if decide (b0 = 0xED) then 0x9F else 0xBF) b1
                && continuation b2 && utf8_valid bs
              else
              match bs with
              | [] => false
              | b3 :: bs =>
                  in_range 0xF0 0xF4 b0
                  && in_range (if decide (b0 = 0xF0) then 0x90 else 0x80) (if decide (b0 = 0xF4) then 0x8F else 0xBF) b1
                  && continuation b2 && continuation b3 && utf8_valid bs
              end
          end
      end
  end.

(** A string of the model is its bytes. *)
Fixpoint string_of_bytes (bs : bytes) : string :=
  match bs with
  | [] => EmptyString
  | b :: bs => String (Ascii.ascii_of_N (Z.to_N b)) (string_of_bytes bs)
  end.
Fixpoint string_bytes (s : string) : bytes :=
  match s with
  | EmptyString => []
  | String a s => Z.of_N (Ascii.N_of_ascii a) :: string_bytes s
  end.

Definition from_utf8 (bs : bytes) : option string :=
  if utf8_valid bs then Some (string_of_bytes bs) else None.

Lemma string_bytes_of bs : bytes_ok bs → string_bytes (string_of_bytes bs) = bs.
Proof.
  induction 1 as [|b bs Hb _ IH]; [done|]. cbn. unfold fits in Hb.
  rewrite IH, Ascii.N_ascii_embedding by lia. f_equal. lia.
Qed.

Lemma string_of_string_bytes s : string_of_bytes (string_bytes s) = s.
Proof. induction s as [|a s IH]; [done|]. cbn. rewrite IH, N2Z.id. by rewrite Ascii.ascii_N_embedding. Qed.

(** ** The specification *)
Definition scalar (c : Z) : Prop := 0 ≤ c < 0xD800 ∨ 0xE000 ≤ c ≤ 0x10FFFF.

Definition encode_scalar (c : Z) : bytes :=
  if decide (c < 0x80) then [c] else
  if decide (c < 0x800) then [0xC0 + c / 64; 0x80 + c mod 64] else
  if decide (c < 0x10000) then [0xE0 + c / 4096; 0x80 + c / 64 mod 64; 0x80 + c mod 64] else
  [0xF0 + c / 262144; 0x80 + c / 4096 mod 64; 0x80 + c / 64 mod 64; 0x80 + c mod 64].

Definition utf8_encode (cs : list Z) : bytes := cs ≫= encode_scalar.

Lemma in_range_true lo hi b : lo ≤ b ≤ hi → in_range lo hi b = true.
Proof. intros H. by apply bool_decide_eq_true. Qed.
Lemma in_range_false lo hi b : ¬ (lo ≤ b ≤ hi) → in_range lo hi b = false.
Proof. intros H. by apply bool_decide_eq_false. Qed.

Ltac ranges := repeat first [rewrite in_range_true by (zify; Z.to_euclidean_division_equations; lia)
                            |rewrite in_range_false by (zify; Z.to_euclidean_division_equations; lia)].

Lemma utf8_valid_scalar c bs : scalar c → utf8_valid (encode_scalar c ++ bs) = utf8_valid bs.
Proof.
  intros Hc. unfold scalar in Hc. unfold encode_scalar, continuation.
  repeat case_decide; cbn [app utf8_valid]; unfold continuation; ranges; [done..| |];
    repeat case_decide; ranges; done.
Qed.

Lemma utf8_encode_valid cs : Forall scalar cs → utf8_valid (utf8_encode cs) = true.
Proof.
  induction 1 as [|c cs Hc _ IH]; [done|]. unfold utf8_encode. cbn [mbind list_bind].
  by rewrite utf8_valid_scalar.
Qed.

Ltac unrange := repeat match goal with
  | H : _ && _ = true |- _ => apply andb_true_iff in H as [??]
  | H : in_range _ _ _ = true |- _ => apply bool_decide_eq_true in H
  | H : in_range _ _ _ = false |- _ => apply bool_decide_eq_false in H
  end.

Lemma utf8_first b bs :
  utf8_valid (b :: bs) = true →
  ∃ c rest, scalar c ∧ b :: bs = encode_scalar c ++ rest ∧ utf8_valid rest = true.
Proof.
  cbn [utf8_valid]. unfold continuation. destruct (in_range 0 0x7F b) eqn:H1.
  { intros Hv. unrange. exists b, bs. split_and!; [left; lia| |done]. unfold encode_scalar. by rewrite decide_True by lia. }
  destruct bs as [|b1 bs]; [done|]. destruct (in_range 0xC2 0xDF b) eqn:H2.
  { intros Hv. unrange. exists ((b - 0xC0) * 64 + (b1 - 0x80)), bs. split_and!; [left; lia| |done].
    unfold encode_scalar. rewrite decide_False, decide_True by lia. cbn [app].
    repeat f_equal; Z.to_euclidean_division_equations; lia. }
  destruct bs as [|b2 bs]; [done|]. destruct (in_range 0xE0 0xEF b) eqn:H3.
  { intros Hv. unrange. exists ((b - 0xE0) * 4096 + (b1 - 0x80) * 64 + (b2 - 0x80)), bs.
    split_and!; [|unfold encode_scalar|done].
    - unfold scalar. repeat case_decide; lia.
    - assert (0x80 ≤ b1 ≤ 0xBF ∧ (b = 0xE0 → 0xA0 ≤ b1)) as [? ?] by (repeat case_decide; lia).
      rewrite !decide_False, decide_True by lia. cbn [app].
      repeat f_equal; Z.to_euclidean_division_equations; lia. }
  destruct bs as [|b3 bs]; [done|]. intros Hv. unrange.
  exists ((b - 0xF0) * 262144 + (b1 - 0x80) * 4096 + (b2 - 0x80) * 64 + (b3 - 0x80)), bs.
  assert (0x80 ≤ b1 ≤ 0xBF ∧ (b = 0xF0 → 0x90 ≤ b1) ∧ (b = 0xF4 → b1 ≤ 0x8F)) as (? & ? & ?) by (repeat case_decide; lia).
  split_and!; [unfold scalar; lia|unfold encode_scalar|done]. rewrite !decide_False by lia. cbn [app].
  repeat f_equal; Z.to_euclidean_division_equations; lia.
Qed.

Lemma utf8_valid_decode n bs : (length bs < n)%nat → utf8_valid bs = true → ∃ cs, Forall scalar cs ∧ bs = utf8_encode cs.
Proof.
  revert bs. induction n as [|n IH]; intros bs Hn Hv; [lia|]. destruct bs as [|b bs]; [by exists []|].
  destruct (utf8_first _ _ Hv) as (c & rest & Hc & Heq & Hr). destruct (IH rest) as (cs & Hcs & ->); [|done|].
  - apply (f_equal length) in Heq. rewrite length_app in Heq. cbn [length] in *.
    assert (0 < length (encode_scalar c))%nat; [|lia]. unfold encode_scalar. repeat case_decide; cbn; lia.
  - exists (c :: cs). split; [by constructor|]. by rewrite Heq.
Qed.

(** A byte string is accepted iff it encodes a sequence of scalar values. *)
Lemma utf8_valid_iff bs : utf8_valid bs = true ↔ ∃ cs, Forall scalar cs ∧ bs = utf8_encode cs.
Proof.
  split; [apply (utf8_valid_decode (S (length bs))); lia|]. intros (cs & Hcs & ->). by apply utf8_encode_valid.
Qed.
