(* ===== verification/Crc.v ===== *)
(** * CRC-32C (crates/carriage/src/crc.rs)

    The checksum of the record trailer, bit by bit as the source computes it,
    and the error-detection facts the wire format relies on: the checksum is
    a [u32], and a change confined to four consecutive bytes is always seen. *)
From S2P Require Import Prelude.

Definition REFLECTED_POLY : u32 := 0x82F63B78.

(** One turn of the inner [for _ in 0..8] loop. *)
Definition crc_bit (crc : u32) : u32 :=
  let mask := (0 - Z.land crc 1) mod 2 ^ 32 in
  Z.lxor (Z.shiftr crc 1) (Z.land REFLECTED_POLY mask).

(** One turn of the outer [for byte in bytes] loop. *)
Definition crc_byte (crc byte : u32) : u32 :=
  Nat.iter 8 crc_bit (Z.lxor crc byte).

Definition crc_update (crc : u32) (bs : bytes) : u32 := foldl crc_byte crc bs.

Definition crc32c (bs : bytes) : u32 :=
  Z.lxor (crc_update 0xFFFFFFFF bs) 0xFFFFFFFF.

Example crc32c_known_answer :
  crc32c [0x31; 0x32; 0x33; 0x34; 0x35; 0x36; 0x37; 0x38; 0x39] = 0xE3069283.
Proof. reflexivity. Qed.

(** ** The bit step is linear and injective on [u32] *)
Lemma fits_testbit w a : 0 ≤ w → fits w a → ∀ l, w ≤ l → Z.testbit a l = false.
Proof. intros Hw Ha. apply (Z.bounded_iff_bits_nonneg' w a); unfold fits in Ha; lia. Qed.

Lemma lxor_fits w a b : 0 ≤ w → fits w a → fits w b → fits w (Z.lxor a b).
Proof.
  intros Hw Ha Hb.
  assert (0 ≤ Z.lxor a b) by (apply Z.lxor_nonneg; unfold fits in *; lia).
  unfold fits. apply Z.bounded_iff_bits_nonneg'; [done..|]. intros l Hl.
  by rewrite Z.lxor_spec, (fits_testbit w a), (fits_testbit w b).
Qed.

Lemma odd_lxor a b : Z.odd (Z.lxor a b) = xorb (Z.odd a) (Z.odd b).
Proof. by rewrite <-!Z.bit0_odd, Z.lxor_spec. Qed.

Lemma lxor_cancel_r a b c : Z.lxor a c = Z.lxor b c → a = b.
Proof.
  intros H. apply (f_equal (λ x, Z.lxor x c)) in H.
  by rewrite !Z.lxor_assoc, Z.lxor_nilpotent, !Z.lxor_0_r in H.
Qed.

Lemma crc_bit_alt c :
  crc_bit c = Z.lxor (Z.shiftr c 1) (if Z.odd c then REFLECTED_POLY else 0).
Proof.
  unfold crc_bit. change 1 with (Z.ones 1) at 2. rewrite Z.land_ones by lia.
  change (2 ^ 1) with 2. rewrite Zmod_odd. by destruct (Z.odd c).
Qed.

Lemma crc_bit_linear a b : crc_bit (Z.lxor a b) = Z.lxor (crc_bit a) (crc_bit b).
Proof.
  rewrite !crc_bit_alt, Z.shiftr_lxor, odd_lxor.
  apply Z.bits_inj. intros n. rewrite !Z.lxor_spec.
  destruct (Z.odd a), (Z.odd b); simpl; rewrite ?Z.bits_0;
    destruct (Z.testbit (Z.shiftr a 1) n), (Z.testbit (Z.shiftr b 1) n),
      (Z.testbit REFLECTED_POLY n); done.
Qed.

Lemma shiftr1_fits c : is_u32 c → fits 31 (Z.shiftr c 1).
Proof.
  unfold fits. intros. rewrite Z.shiftr_div_pow2 by lia. change (2 ^ 1) with 2.
  split; [apply Z.div_pos; lia|apply Z.div_lt_upper_bound; lia].
Qed.

Lemma crc_bit_fits c : is_u32 c → is_u32 (crc_bit c).
Proof.
  intros Hc. rewrite crc_bit_alt. pose proof (shiftr1_fits _ Hc) as H.
  apply lxor_fits; [lia|..]; unfold fits in *; [lia|]. destruct (Z.odd c); [|lia].
  unfold REFLECTED_POLY. lia.
Qed.

(** The top bit of the polynomial is set, so only zero steps to zero. *)
Lemma crc_bit_kernel c : is_u32 c → crc_bit c = 0 → c = 0.
Proof.
  intros Hc. rewrite crc_bit_alt, Z.lxor_eq_0_iff. intros H.
  pose proof (shiftr1_fits _ Hc) as Hs. rewrite H in Hs. unfold fits in Hs.
  assert (Hd : c = 2 * Z.shiftr c 1 + Z.b2z (Z.odd c)).
  { rewrite Z.shiftr_div_pow2 by lia. change (2 ^ 1) with 2.
    pose proof (Z.div_mod c 2). rewrite Zmod_odd in *. destruct (Z.odd c); simpl; lia. }
  destruct (Z.odd c); simpl in Hd; [unfold REFLECTED_POLY in Hs; lia|lia].
Qed.

(** Iterated steps: linear, in range and injective. *)
Lemma crc_iter_linear n a b :
  Nat.iter n crc_bit (Z.lxor a b) = Z.lxor (Nat.iter n crc_bit a) (Nat.iter n crc_bit b).
Proof. induction n as [|n IH]; simpl; [done|]. by rewrite IH, crc_bit_linear. Qed.

Lemma crc_iter_fits n c : is_u32 c → is_u32 (Nat.iter n crc_bit c).
Proof. intros. induction n; simpl; auto using crc_bit_fits. Qed.

Lemma crc_iter_inj n a b :
  is_u32 a → is_u32 b → Nat.iter n crc_bit a = Nat.iter n crc_bit b → a = b.
Proof.
  intros Ha Hb H. apply Z.lxor_eq. apply Z.lxor_eq_0_iff in H. rewrite <-crc_iter_linear in H.
  pose proof (lxor_fits 32 _ _ ltac:(lia) Ha Hb) as Hx.
  induction n as [|n IH]; simpl in H; [done|].
  apply IH, crc_bit_kernel; auto using crc_iter_fits.
Qed.

Lemma u8_u32 b : is_u8 b → is_u32 b.
Proof. unfold fits. lia. Qed.

Lemma crc_byte_fits c b : is_u32 c → is_u8 b → is_u32 (crc_byte c b).
Proof. intros. apply crc_iter_fits, lxor_fits; [lia|done|by apply u8_u32]. Qed.

Lemma crc_update_app c bs1 bs2 : crc_update c (bs1 ++ bs2) = crc_update (crc_update c bs1) bs2.
Proof. apply foldl_app. Qed.

Lemma crc_update_fits c bs : is_u32 c → bytes_ok bs → is_u32 (crc_update c bs).
Proof.
  intros Hc Hbs. revert c Hc. induction Hbs; intros c Hc; simpl; auto using crc_byte_fits.
Qed.

Lemma crc_update_cons c b bs : crc_update c (b :: bs) = crc_update (crc_byte c b) bs.
Proof. reflexivity. Qed.

Lemma crc_byte_inj c c' b :
  is_u32 c → is_u32 c' → is_u8 b → crc_byte c b = crc_byte c' b → c = c'.
Proof.
  unfold crc_byte. intros Hc Hc' Hb H. apply (crc_iter_inj 8) in H.
  - by apply lxor_cancel_r in H.
  - apply lxor_fits; auto using u8_u32; lia.
  - apply lxor_fits; auto using u8_u32; lia.
Qed.

Lemma crc_update_inj bs c c' :
  bytes_ok bs → is_u32 c → is_u32 c' → crc_update c bs = crc_update c' bs → c = c'.
Proof.
  intros Hbs. revert c c'. induction Hbs as [|b bs Hb Hbs IH]; intros c c' Hc Hc' H; [done|].
  rewrite !crc_update_cons in H. apply IH in H; [|by apply crc_byte_fits..].
  by apply crc_byte_inj in H.
Qed.

(** ** Four bytes at once *)

(** Without feedback a step is a division by two. *)
Lemma crc_bit_double x : crc_bit (2 * x) = x.
Proof.
  rewrite crc_bit_alt, Z.odd_mul. simpl.
  rewrite Z.lxor_0_r, Z.shiftr_div_pow2 by lia. change (2 ^ 1) with 2.
  by rewrite Z.mul_comm, Z.div_mul by lia.
Qed.

Lemma crc_iter_shift n x : Nat.iter n crc_bit (2 ^ Z.of_nat n * x) = x.
Proof.
  induction n as [|n IH] in x |- *; [simpl; lia|].
  rewrite Nat.iter_succ_r. rewrite Nat2Z.inj_succ, Z.pow_succ_r, <-Z.mul_assoc by lia.
  by rewrite crc_bit_double, IH.
Qed.

Lemma lxor_byte_above b x : is_u8 b → 0 ≤ x → Z.lxor b (256 * x) = b + 256 * x.
Proof.
  intros Hb Hx. symmetry. apply Z.add_nocarry_lxor. apply Z.bits_inj'. intros n Hn.
  rewrite Z.land_spec, Z.bits_0. destruct (decide (8 ≤ n)).
  - by rewrite (fits_testbit 8 b).
  - replace (256 * x) with (x * 2 ^ 8) by lia. by rewrite Z.mul_pow2_bits_low, andb_false_r by lia.
Qed.

(** Up to four bytes enter the checksum as one little-endian word. *)
Lemma crc_update_word w c :
  bytes_ok w → (length w ≤ 4)%nat → is_u32 c →
  crc_update c w = Nat.iter (8 * length w) crc_bit (Z.lxor c (from_le_bytes w)).
Proof.
  intros Hw. revert c. induction Hw as [|b w Hb Hw IH]; intros c Hlen Hc.
  { simpl. by rewrite Z.lxor_0_r. }
  cbn [length from_le_bytes] in *. simpl crc_update.
  rewrite IH by (auto using crc_byte_fits; lia).
  replace (8 * S (length w))%nat with (8 * length w + 8)%nat by lia.
  rewrite Nat.iter_add. f_equal. unfold crc_byte.
  pose proof (from_le_bytes_fits w Hw) as Hfit. unfold fits in Hfit.
  rewrite <-(lxor_byte_above b) by (done || lia).
  rewrite <-Z.lxor_assoc, (crc_iter_linear 8 (Z.lxor c b)). f_equal.
  change 256 with (2 ^ Z.of_nat 8). by rewrite crc_iter_shift.
Qed.

Lemma crc32c_fits bs : bytes_ok bs → is_u32 (crc32c bs).
Proof.
  intros. apply lxor_fits; [lia| |unfold fits; lia].
  apply crc_update_fits; [unfold fits; lia|done].
Qed.

Lemma from_le_bytes_inj w w' :
  bytes_ok w → bytes_ok w' → length w = length w' → from_le_bytes w = from_le_bytes w' → w = w'.
Proof.
  intros Hw Hw' Hlen Heq. rewrite <-(to_from_le_bytes w), <-(to_from_le_bytes w') by done. congruence.
Qed.

(** The checksums of two strings that differ only in a window of at most
    four consecutive bytes are equal exactly when the windows are. *)
Lemma crc32c_window p s w w' :
  bytes_ok p → bytes_ok s → bytes_ok w → bytes_ok w' →
  length w = length w' → (length w ≤ 4)%nat →
  crc32c (p ++ w ++ s) = crc32c (p ++ w' ++ s) → w = w'.
Proof.
  intros Hp Hs Hw Hw' Hlen Hle H. apply lxor_cancel_r in H.
  rewrite !crc_update_app in H.
  assert (Hi : is_u32 (crc_update 0xFFFFFFFF p)) by (apply crc_update_fits; [unfold fits; lia|done]).
  apply (crc_update_inj s (crc_update (crc_update 0xFFFFFFFF p) w)
    (crc_update (crc_update 0xFFFFFFFF p) w')) in H; [|done|by apply crc_update_fits..].
  assert (Hword : ∀ v, bytes_ok v → (length v ≤ 4)%nat → is_u32 (from_le_bytes v)).
  { intros v Hv Hl. pose proof (from_le_bytes_fits v Hv) as Hf. unfold fits in *.
    assert (2 ^ (8 * Z.of_nat (length v)) ≤ 2 ^ 32) by (apply Z.pow_le_mono_r; lia). lia. }
  rewrite (crc_update_word w), (crc_update_word w'), <-Hlen in H by (done || lia).
  apply crc_iter_inj in H; [|apply lxor_fits; (lia || auto with lia)..].
  apply from_le_bytes_inj; [done..|].
  apply (lxor_cancel_r _ _ (crc_update 0xFFFFFFFF p)). by rewrite !(Z.lxor_comm _ (crc_update _ _)).
Qed.

(** A message followed by its own checksum always has the same checksum. *)
Definition CRC_RESIDUE : u32 := Z.lxor (Nat.iter 32 crc_bit 0xFFFFFFFF) 0xFFFFFFFF.

Lemma crc_update_trailer i k body :
  is_u32 i → is_u32 k → bytes_ok body →
  crc_update i (body ++ to_le_bytes 4 (Z.lxor (crc_update i body) k)) = Nat.iter 32 crc_bit k.
Proof.
  intros Hi Hk Hb. pose proof (crc_update_fits i body Hi Hb) as Hc.
  rewrite crc_update_app. generalize dependent (crc_update i body). intros c Hc.
  pose proof (lxor_fits 32 c k ltac:(lia) Hc Hk) as Hx.
  rewrite crc_update_word by (by rewrite ?length_to_le_bytes; auto using to_le_bytes_ok).
  rewrite length_to_le_bytes, from_to_le_bytes by exact Hx.
  rewrite <-Z.lxor_assoc, Z.lxor_nilpotent, Z.lxor_0_l. f_equal.
Qed.

Lemma crc32c_residue body :
  bytes_ok body → crc32c (body ++ to_le_bytes 4 (crc32c body)) = CRC_RESIDUE.
Proof.
  intros Hb. apply (f_equal (λ x, Z.lxor x 0xFFFFFFFF)).
  apply crc_update_trailer; [unfold fits; lia..|done].
Qed.

(** CRC-32C detects every burst: changing any window of one to four
    consecutive bytes of a message, the rest left alone, changes the checksum. *)
Theorem crc32c_burst_detected p s w w' :
  bytes_ok p → bytes_ok s → bytes_ok w → bytes_ok w' →
  length w = length w' → (length w ≤ 4)%nat → w ≠ w' →
  crc32c (p ++ w ++ s) ≠ crc32c (p ++ w' ++ s).
Proof. intros ?????? Hne H. by apply Hne, (crc32c_window p s). Qed.

Lemma crc32c_burst_detected_witness :
  crc32c ([1; 2] ++ [3; 4; 5; 6] ++ [7]) ≠ crc32c ([1; 2] ++ [3; 4; 0; 6] ++ [7]).
Proof. apply crc32c_burst_detected; by_compute. Defined.
