(* ===== verification/Wire.v ===== *)
(** * Binary wire record (crates/carriage/src/wire.rs)

    The 40-byte header, the TLV slots, the optional CRC trailer; [encode],
    [validate_record] and [decode] with every early return of the source and
    every indexing that could panic. *)
From S2P Require Import Prelude Crc.

Definition HEADER_LEN : usize := 40.
Definition CRC_LEN : usize := 4.
Definition SYNC : bytes := [0x4F; 0x4F; 0x54; 0x32].

Definition FLAG_TIME_UNSYNCED : u16 := Z.shiftl 1 0.
Definition FLAG_SYNTHETIC : u16 := Z.shiftl 1 1.
Definition FLAG_PARTIAL_PAYLOAD : u16 := Z.shiftl 1 2.
Definition FLAG_HAS_CRC : u16 := Z.shiftl 1 3.

(** ** Data *)
Record Slot := MkSlot {
  slot_key : u16;
  slot_ty : u8;
  slot_payload : bytes;
}.

#[global] Instance Slot_eq_dec : EqDecision Slot.
Proof. solve_decision. Defined.

(** The struct [Record] of the source. *)
Record WireRecord := MkRecord {
  rec_flags : u16;
  rec_source_time : u64;
  rec_run_id : u64;
  rec_seq : u64;
  rec_source_id : u32;
  rec_event_type_id : u32;
  rec_slots : list Slot;
}.

#[global] Instance WireRecord_eq_dec : EqDecision WireRecord.
Proof. solve_decision. Defined.

Record DecodedRecord := MkDecoded {
  dec_record : WireRecord;
  dec_consumed : usize;
}.

Inductive WireError :=
| CrcMismatch (expected actual : u32)
| InvalidLength (total_len available : usize)
| InvalidPadding (offset : usize)
| InvalidSlot (offset : usize)
| RecordTooLong (len : usize)
| SlotTooLong (key : u16) (len : usize)
| Truncated (needed available : usize)
| WrongSync.

#[global] Instance WireError_eq_dec : EqDecision WireError.
Proof. solve_decision. Defined.

Definition record_new (source_time run_id seq : u64) (source_id event_type_id : u32) : WireRecord :=
  {| rec_flags := 0; rec_source_time := source_time; rec_run_id := run_id; rec_seq := seq;
     rec_source_id := source_id; rec_event_type_id := event_type_id; rec_slots := [] |}.

Definition with_flags (r : WireRecord) (flags : u16) : WireRecord :=
  {| rec_flags := flags; rec_source_time := rec_source_time r; rec_run_id := rec_run_id r;
     rec_seq := rec_seq r; rec_source_id := rec_source_id r;
     rec_event_type_id := rec_event_type_id r; rec_slots := rec_slots r |}.

Definition with_slots (r : WireRecord) (slots : list Slot) : WireRecord :=
  {| rec_flags := rec_flags r; rec_source_time := rec_source_time r; rec_run_id := rec_run_id r;
     rec_seq := rec_seq r; rec_source_id := rec_source_id r;
     rec_event_type_id := rec_event_type_id r; rec_slots := slots |}.

(** ** Encoding *)
Definition padding_len (payload_len : usize) : usize :=
  ((4 - payload_len mod 4) mod 4)%nat.

Definition encoded_len (s : Slot) : res WireError usize :=
  if decide (Z.to_nat U8_MAX < length (slot_payload s))%nat
  then Err (SlotTooLong (slot_key s) (length (slot_payload s)))
  else Ok (4 + length (slot_payload s) + padding_len (length (slot_payload s)))%nat.

Definition encode_into (s : Slot) (out : bytes) : res WireError bytes :=
  if decide (length (slot_payload s) ≤ Z.to_nat U8_MAX)%nat then
    Ok (out ++ to_le_bytes 2 (slot_key s) ++ [slot_ty s; Z.of_nat (length (slot_payload s))]
          ++ slot_payload s ++ replicate (padding_len (length (slot_payload s))) 0)
  else Err (SlotTooLong (slot_key s) (length (slot_payload s))).

(** The closing [debug_assert_eq!] on the length holds of every result
    ([length_enc_record], [encode_eq]). *)
Definition encode (r : WireRecord) (with_crc : bool) : res WireError bytes :=
  slots_len ← for_each (λ s acc, n ← encoded_len s; Ok (acc + n)%nat) (rec_slots r) 0%nat;
  let total_len := (HEADER_LEN + slots_len + (if with_crc then CRC_LEN else 0))%nat in
  if decide (U16_MAX < Z.of_nat total_len) then Err (RecordTooLong total_len) else
  let flags := if with_crc then Z.lor (rec_flags r) FLAG_HAS_CRC
               else Z.land (rec_flags r) (Z.lxor U16_MAX FLAG_HAS_CRC) in
  let out := SYNC ++ to_le_bytes 2 (Z.of_nat total_len) ++ to_le_bytes 2 flags
               ++ to_le_bytes 8 (rec_source_time r) ++ to_le_bytes 8 (rec_run_id r)
               ++ to_le_bytes 8 (rec_seq r) ++ to_le_bytes 4 (rec_source_id r)
               ++ to_le_bytes 4 (rec_event_type_id r) in
  out ← for_each encode_into (rec_slots r) out;
  Ok (if with_crc then out ++ to_le_bytes 4 (crc32c out) else out).

(** ** Reading fields *)
Definition read_u16 {E} (bs : bytes) (o : usize) : res E u16 :=
  b0 ← index bs o; b1 ← index bs (o + 1)%nat; Ok (from_le_bytes [b0; b1]).

Definition read_u32 {E} (bs : bytes) (o : usize) : res E u32 :=
  b0 ← index bs o; b1 ← index bs (o + 1)%nat;
  b2 ← index bs (o + 2)%nat; b3 ← index bs (o + 3)%nat;
  Ok (from_le_bytes [b0; b1; b2; b3]).

Definition read_u64 {E} (bs : bytes) (o : usize) : res E u64 :=
  b0 ← index bs o; b1 ← index bs (o + 1)%nat;
  b2 ← index bs (o + 2)%nat; b3 ← index bs (o + 3)%nat;
  b4 ← index bs (o + 4)%nat; b5 ← index bs (o + 5)%nat;
  b6 ← index bs (o + 6)%nat; b7 ← index bs (o + 7)%nat;
  Ok (from_le_bytes [b0; b1; b2; b3; b4; b5; b6; b7]).

(** [flags & FLAG_HAS_CRC != 0] *)
Definition has_crc (flags : u16) : bool := negb (Z.land flags FLAG_HAS_CRC =? 0).

(** ** Validation *)

(** The [for (i, byte) in bytes[payload_end..next].iter().enumerate()] loop. *)
Fixpoint check_padding (offset : usize) (padding : bytes) : res WireError unit :=
  match padding with
  | [] => Ok tt
  | b :: padding =>
      if decide (b ≠ 0) then Err (InvalidPadding offset) else check_padding (S offset) padding
  end.

(** The [while offset < slots_end] loop of [validate_record]. *)
Fixpoint validate_slots (fuel : nat) (bs : bytes) (slots_end offset : usize) : res WireError unit :=
  if decide (offset < slots_end)%nat then
    match fuel with
    | O => Diverge
    | S fuel =>
        if decide (slots_end - offset < 4)%nat then Err (InvalidSlot offset) else
        len ← (b ← index bs (offset + 3)%nat; Ok (Z.to_nat b));
        let payload_start := (offset + 4)%nat in
        let payload_end := (payload_start + len)%nat in
        if decide (slots_end < payload_end)%nat then Err (InvalidSlot offset) else
        let next := (payload_end + padding_len len)%nat in
        if decide (slots_end < next)%nat then Err (InvalidSlot offset) else
        pad ← slice bs payload_end next;
        _ ← check_padding payload_end pad;
        validate_slots fuel bs slots_end next
    end
  else Ok tt.

Definition validate_record (bs : bytes) : res WireError usize :=
  if decide (length bs < HEADER_LEN)%nat then Err (Truncated HEADER_LEN (length bs)) else
  sync ← slice bs 0 4;
  if decide (sync ≠ SYNC) then Err WrongSync else
  total_len ← (t ← read_u16 bs 4; Ok (Z.to_nat t));
  if decide (total_len < HEADER_LEN)%nat then Err (InvalidLength total_len (length bs)) else
  if decide (length bs < total_len)%nat then Err (Truncated total_len (length bs)) else
  flags ← read_u16 bs 6;
  if has_crc flags && bool_decide (total_len < HEADER_LEN + CRC_LEN)%nat
  then Err (InvalidLength total_len (length bs)) else
  slots_end ← (if has_crc flags then
                 let trailer := (total_len - CRC_LEN)%nat in
                 expected ← read_u32 bs trailer;
                 actual ← (body ← slice bs 0 trailer; Ok (crc32c body));
                 if decide (expected ≠ actual) then Err (CrcMismatch expected actual) else Ok trailer
               else Ok total_len);
  _ ← validate_slots (length bs) bs slots_end HEADER_LEN;
  Ok total_len.

(** ** Decoding *)

(** The [while offset < slots_end] loop of [decode]. *)
Fixpoint decode_slots (fuel : nat) (bs : bytes) (slots_end offset : usize) (slots : list Slot)
  : res WireError (list Slot) :=
  if decide (offset < slots_end)%nat then
    match fuel with
    | O => Diverge
    | S fuel =>
        key ← read_u16 bs offset;
        ty ← index bs (offset + 2)%nat;
        len ← (b ← index bs (offset + 3)%nat; Ok (Z.to_nat b));
        let payload_start := (offset + 4)%nat in
        let payload_end := (payload_start + len)%nat in
        let next := (payload_end + padding_len len)%nat in
        payload ← slice bs payload_start payload_end;
        decode_slots fuel bs slots_end next
          (slots ++ [{| slot_key := key; slot_ty := ty; slot_payload := payload |}])
    end
  else Ok slots.

Definition decode (bs : bytes) : res WireError DecodedRecord :=
  total_len ← validate_record bs;
  flags ← read_u16 bs 6;
  let slots_end := if has_crc flags then (total_len - CRC_LEN)%nat else total_len in
  slots ← decode_slots (length bs) bs slots_end HEADER_LEN [];
  source_time ← read_u64 bs 8;
  run_id ← read_u64 bs 16;
  seq ← read_u64 bs 24;
  source_id ← read_u32 bs 32;
  event_type_id ← read_u32 bs 36;
  Ok {| dec_record := {| rec_flags := flags; rec_source_time := source_time; rec_run_id := run_id;
                         rec_seq := seq; rec_source_id := source_id;
                         rec_event_type_id := event_type_id; rec_slots := slots |};
        dec_consumed := total_len |}.

(** The byte vector of the [wire_state_transition_byte_vector] test. *)
Definition state_transition_record : WireRecord :=
  with_slots (record_new 0x0102030405060708 1 2 42 1)
    [{| slot_key := 1; slot_ty := 3; slot_payload := to_le_bytes 2 0x1234 |};
     {| slot_key := 2; slot_ty := 3; slot_payload := to_le_bytes 2 2 |}].

Example wire_state_transition_byte_vector :
  encode state_transition_record true =
  Ok [0x4F; 0x4F; 0x54; 0x32; 0x3C; 0x00; 0x08; 0x00; 0x08; 0x07; 0x06; 0x05; 0x04; 0x03;
      0x02; 0x01; 0x01; 0x00; 0x00; 0x00; 0x00; 0x00; 0x00; 0x00; 0x02; 0x00; 0x00; 0x00;
      0x00; 0x00; 0x00; 0x00; 0x2A; 0x00; 0x00; 0x00; 0x01; 0x00; 0x00; 0x00; 0x01; 0x00;
      0x03; 0x02; 0x34; 0x12; 0x00; 0x00; 0x02; 0x00; 0x03; 0x02; 0x02; 0x00; 0x00; 0x00;
      0xE1; 0x8E; 0xE0; 0x51].
Proof. vm_compute. reflexivity. Qed.
Example wire_decode_example :
  (bs ← encode state_transition_record true; decode bs) =
   Ok {| dec_record := with_flags state_transition_record 8; dec_consumed := 60 |}.
Proof. vm_compute. reflexivity. Qed.

(** ** Specification of the format *)

(** The bytes of one slot, and of a slot list. *)
Definition enc_slot (s : Slot) : bytes :=
  to_le_bytes 2 (slot_key s) ++ [slot_ty s; Z.of_nat (length (slot_payload s))]
    ++ slot_payload s ++ replicate (padding_len (length (slot_payload s))) 0.
Definition enc_slots (slots : list Slot) : bytes := concat (enc_slot <$> slots).

Definition crc_flags (flags : u16) (with_crc : bool) : u16 :=
  if with_crc then Z.lor flags FLAG_HAS_CRC else Z.land flags (Z.lxor U16_MAX FLAG_HAS_CRC).

Definition record_len (slots : list Slot) (with_crc : bool) : nat :=
  (HEADER_LEN + length (enc_slots slots) + (if with_crc then CRC_LEN else 0))%nat.

(** Everything after the flags field and before the trailer. *)
Definition enc_tail (r : WireRecord) : bytes :=
  to_le_bytes 8 (rec_source_time r) ++ to_le_bytes 8 (rec_run_id r) ++ to_le_bytes 8 (rec_seq r)
    ++ to_le_bytes 4 (rec_source_id r) ++ to_le_bytes 4 (rec_event_type_id r)
    ++ enc_slots (rec_slots r).

Definition enc_body (r : WireRecord) (total : nat) (flags : u16) : bytes :=
  SYNC ++ to_le_bytes 2 (Z.of_nat total) ++ to_le_bytes 2 flags ++ enc_tail r.

Definition with_trailer (with_crc : bool) (body : bytes) : bytes :=
  if with_crc then body ++ to_le_bytes 4 (crc32c body) else body.

Definition enc_record (r : WireRecord) (with_crc : bool) : bytes :=
  with_trailer with_crc
    (enc_body r (record_len (rec_slots r) with_crc) (crc_flags (rec_flags r) with_crc)).

Definition slot_wf (s : Slot) : Prop :=
  is_u16 (slot_key s) ∧ is_u8 (slot_ty s) ∧ bytes_ok (slot_payload s)
    ∧ (length (slot_payload s) ≤ 255)%nat.

Definition record_wf (r : WireRecord) : Prop :=
  is_u16 (rec_flags r) ∧ is_u64 (rec_source_time r) ∧ is_u64 (rec_run_id r) ∧ is_u64 (rec_seq r)
    ∧ is_u32 (rec_source_id r) ∧ is_u32 (rec_event_type_id r) ∧ Forall slot_wf (rec_slots r).

#[global] Instance slot_wf_dec s : Decision (slot_wf s).
Proof. unfold slot_wf. apply _. Defined.
#[global] Instance record_wf_dec r : Decision (record_wf r).
Proof. unfold record_wf. apply _. Defined.

(** The first slot whose payload does not fit its length byte. *)
Definition long_slot (slots : list Slot) : option Slot :=
  List.find (λ s, bool_decide (255 < length (slot_payload s))%nat) slots.

#[global] Arguments enc_slot : simpl never.
#[global] Arguments enc_slots : simpl never.
#[global] Arguments long_slot : simpl never.
#[global] Arguments padding_len : simpl never.
#[global] Arguments to_le_bytes : simpl never.

(** ** Lengths *)
Lemma padding_len_lt n : (padding_len n < 4)%nat.
Proof. unfold padding_len. apply Nat.mod_upper_bound. lia. Qed.

Lemma padding_len_aligned n : ((n + padding_len n) mod 4 = 0)%nat.
Proof.
  unfold padding_len. pose proof (Nat.div_mod_eq n 4). pose proof (Nat.mod_upper_bound n 4).
  destruct (decide (n mod 4 = 0)%nat) as [Hz|Hz].
  - rewrite Hz. simpl. by rewrite Nat.add_0_r.
  - rewrite (Nat.mod_small (4 - n mod 4)) by lia.
    replace (n + (4 - n mod 4))%nat with ((n / 4 + 1) * 4)%nat by lia. by apply Nat.Div0.mod_mul.
Qed.

Lemma length_enc_slot s :
  length (enc_slot s) = (4 + length (slot_payload s) + padding_len (length (slot_payload s)))%nat.
Proof.
  unfold enc_slot. rewrite !length_app, length_replicate, length_to_le_bytes. simpl. lia.
Qed.

Lemma enc_slots_cons s slots : enc_slots (s :: slots) = enc_slot s ++ enc_slots slots.
Proof. done. Qed.

Lemma length_enc_tail r : length (enc_tail r) = (32 + length (enc_slots (rec_slots r)))%nat.
Proof. unfold enc_tail. rewrite !length_app, !length_to_le_bytes. lia. Qed.

Lemma length_enc_body r t f : length (enc_body r t f) = (40 + length (enc_slots (rec_slots r)))%nat.
Proof.
  unfold enc_body. rewrite !length_app, !length_to_le_bytes, length_enc_tail. simpl. lia.
Qed.

Lemma length_enc_record r c : length (enc_record r c) = record_len (rec_slots r) c.
Proof.
  unfold enc_record, record_len, with_trailer, HEADER_LEN, CRC_LEN.
  destruct c; rewrite ?length_app, length_enc_body, ?length_to_le_bytes; lia.
Qed.

(** ** Encoding meets its specification *)
Lemma encoded_len_eq s :
  encoded_len s = if bool_decide (255 < length (slot_payload s))%nat
                  then Err (SlotTooLong (slot_key s) (length (slot_payload s)))
                  else Ok (length (enc_slot s)).
Proof.
  unfold encoded_len. change (Z.to_nat U8_MAX) with 255%nat. rewrite length_enc_slot.
  by case_decide; case_bool_decide.
Qed.

Lemma long_slot_cons s slots :
  long_slot (s :: slots) =
  if bool_decide (255 < length (slot_payload s))%nat then Some s else long_slot slots.
Proof. done. Qed.

Lemma slots_len_spec slots acc :
  for_each (λ s acc, n ← encoded_len s; Ok (acc + n)%nat) slots acc =
  match long_slot slots with
  | Some s => Err (SlotTooLong (slot_key s) (length (slot_payload s)))
  | None => Ok (acc + length (enc_slots slots))%nat
  end.
Proof.
  revert acc. induction slots as [|s slots IH]; intros acc; [simpl; f_equal; lia|].
  cbn [for_each]. rewrite (encoded_len_eq s), long_slot_cons. case_bool_decide; [done|].
  rewrite !ok_bind, IH, enc_slots_cons, length_app. destruct (long_slot slots); [done|]. f_equal. lia.
Qed.

Lemma encode_into_short s out :
  (length (slot_payload s) ≤ 255)%nat → encode_into s out = Ok (out ++ enc_slot s).
Proof. intros. unfold encode_into, enc_slot. by rewrite decide_True. Qed.

Lemma encode_into_spec slots out :
  long_slot slots = None → for_each encode_into slots out = Ok (out ++ enc_slots slots).
Proof.
  revert out. induction slots as [|s slots IH]; intros out.
  { simpl. by rewrite app_nil_r. }
  rewrite long_slot_cons. case_bool_decide; [done|]. intros Hl.
  cbn [for_each]. rewrite encode_into_short by lia.
  rewrite ok_bind, IH, enc_slots_cons by done. by rewrite <-!app_assoc.
Qed.

Lemma encode_eq r c :
  encode r c =
  match long_slot (rec_slots r) with
  | Some s => Err (SlotTooLong (slot_key s) (length (slot_payload s)))
  | None => if decide (U16_MAX < Z.of_nat (record_len (rec_slots r) c))
            then Err (RecordTooLong (record_len (rec_slots r) c)) else Ok (enc_record r c)
  end.
Proof.
  unfold encode. rewrite slots_len_spec. destruct (long_slot _) eqn:Hl; [done|].
  rewrite ok_bind, Nat.add_0_l. cbv zeta. fold (record_len (rec_slots r) c).
  case_decide; [done|]. rewrite encode_into_spec, ok_bind by done.
  unfold enc_record, with_trailer, enc_body, enc_tail, crc_flags. by rewrite <-!app_assoc.
Qed.

Lemma long_slot_wf slots : Forall slot_wf slots → long_slot slots = None.
Proof.
  induction 1 as [|s slots (_&_&_&Hs) _ IH]; [done|]. rewrite long_slot_cons.
  by rewrite bool_decide_false by lia.
Qed.

Lemma encode_Ok r c bs : encode r c = Ok bs → bs = enc_record r c ∧ Z.of_nat (record_len (rec_slots r) c) ≤ U16_MAX.
Proof.
  rewrite encode_eq. destruct (long_slot _); [done|]. case_decide; [done|].
  intros [= <-]. split; [done|lia].
Qed.

(** ** Field readers *)
Lemma read_u16_ok {E} bs o :
  (o + 2 ≤ length bs)%nat → read_u16 (E:=E) bs o = Ok (from_le_bytes (seg bs o 2)).
Proof.
  intros. unfold read_u16.
  destruct (index_lt (E:=E) bs o) as (b0 & H0 & ->); [lia|].
  destruct (index_lt (E:=E) bs (o + 1)) as (b1 & H1 & ->); [lia|].
  rewrite Nat.add_1_r in H1. by rewrite (seg_S _ _ _ _ H0), (seg_S _ _ _ _ H1).
Qed.

Lemma read_u32_ok {E} bs o :
  (o + 4 ≤ length bs)%nat → read_u32 (E:=E) bs o = Ok (from_le_bytes (seg bs o 4)).
Proof.
  intros. unfold read_u32.
  destruct (index_lt (E:=E) bs o) as (b0 & H0 & ->); [lia|].
  destruct (index_lt (E:=E) bs (o + 1)) as (b1 & H1 & ->); [lia|].
  destruct (index_lt (E:=E) bs (o + 2)) as (b2 & H2 & ->); [lia|].
  destruct (index_lt (E:=E) bs (o + 3)) as (b3 & H3 & ->); [lia|].
  replace (o + 1)%nat with (S o) in H1 by lia. replace (o + 2)%nat with (S (S o)) in H2 by lia.
  replace (o + 3)%nat with (S (S (S o))) in H3 by lia.
  by rewrite (seg_S _ _ _ _ H0), (seg_S _ _ _ _ H1), (seg_S _ _ _ _ H2), (seg_S _ _ _ _ H3).
Qed.

Lemma read_u64_ok {E} bs o :
  (o + 8 ≤ length bs)%nat → read_u64 (E:=E) bs o = Ok (from_le_bytes (seg bs o 8)).
Proof.
  intros. change 8%nat with (4 + 4)%nat. rewrite seg_split.
  pose proof (read_u32_ok (E:=E) bs o ltac:(lia)) as Ha.
  pose proof (read_u32_ok (E:=E) bs (o + 4) ltac:(lia)) as Hb.
  unfold read_u64. unfold read_u32 in Ha, Hb.
  replace (o + 4 + 1)%nat with (o + 5)%nat in Hb by lia.
  replace (o + 4 + 2)%nat with (o + 6)%nat in Hb by lia.
  replace (o + 4 + 3)%nat with (o + 7)%nat in Hb by lia.
  destruct (index (E:=E) bs o), (index (E:=E) bs (o + 1)), (index (E:=E) bs (o + 2)),
    (index (E:=E) bs (o + 3)); try done.
  destruct (index (E:=E) bs (o + 4)), (index (E:=E) bs (o + 5)), (index (E:=E) bs (o + 6)),
    (index (E:=E) bs (o + 7)); try done.
  cbn [mbind res_bind] in *. f_equal. injection Ha as Ha. injection Hb as Hb.
  assert (Happ : ∀ l1 l2, length l1 = 4%nat →
    from_le_bytes (l1 ++ l2) = from_le_bytes l1 + 256 * (256 * (256 * (256 * from_le_bytes l2)))).
  { intros [|x0 [|x1 [|x2 [|x3 [|]]]]] l2; try done. intros _. cbn [app from_le_bytes]. lia. }
  rewrite Happ by (apply length_seg; lia). rewrite <-Ha, <-Hb. cbn [from_le_bytes]. lia.
Qed.

(** ** The slot area *)
Lemma check_padding_Ok o pad :
  check_padding o pad = Ok tt ↔ pad = replicate (length pad) 0.
Proof.
  revert o. induction pad as [|b pad IH]; intros o; simpl; [done|].
  case_decide as Hb; [naive_solver|].
  rewrite IH. subst b. split; [intros; by f_equal|by intros [= H]].
Qed.

Lemma check_padding_returns o pad : returns (check_padding o pad).
Proof. revert o. induction pad; intros o; simpl; [done|]. by case_decide. Qed.

Lemma enc_slot_split s :
  enc_slot s = to_le_bytes 2 (slot_key s) ++ [slot_ty s; Z.of_nat (length (slot_payload s))]
    ++ slot_payload s ++ replicate (padding_len (length (slot_payload s))) 0.
Proof. done. Qed.

Lemma lookup_of_seg {A} (bs : list A) o n l i :
  seg bs o n = l → (i < n)%nat → bs !! (o + i)%nat = l !! i.
Proof. intros <- Hi. by rewrite lookup_seg. Qed.

(** The five reads of one loop turn, when the bytes of [s] are at [o]. *)
Lemma slot_reads {E} bs o s :
  slot_wf s → (o + length (enc_slot s) ≤ length bs)%nat →
  seg bs o (length (enc_slot s)) = enc_slot s →
  let len := length (slot_payload s) in
  read_u16 (E:=E) bs o = Ok (slot_key s)
  ∧ index (E:=E) bs (o + 2) = Ok (slot_ty s)
  ∧ index (E:=E) bs (o + 3) = Ok (Z.of_nat len)
  ∧ slice (E:=E) bs (o + 4) (o + 4 + len) = Ok (slot_payload s)
  ∧ slice (E:=E) bs (o + 4 + len) (o + 4 + len + padding_len len) = Ok (replicate (padding_len len) 0).
Proof.
  intros (Hk & Ht & Hp & Hl) Hlen Hseg len. pose proof (length_enc_slot s) as Hn.
  assert (Heq : length (slot_payload s) = len) by done. clearbody len.
  rewrite Heq in Hl, Hn.
  assert (Hsub : ∀ i m, (i + m ≤ length (enc_slot s))%nat → seg bs (o + i) m = seg (enc_slot s) i m).
  { intros i m Hi. by rewrite <-Hseg, seg_seg. }
  split_and!.
  - rewrite read_u16_ok by lia. rewrite <-(Nat.add_0_r o), Hsub, enc_slot_split by lia.
    rewrite seg_prefix by (by rewrite length_to_le_bytes). by rewrite from_to_le_bytes.
  - apply index_ok. by rewrite (lookup_of_seg bs o _ _ 2 Hseg) by lia.
  - apply index_ok. rewrite (lookup_of_seg bs o _ _ 3 Hseg) by lia. by rewrite <-Heq.
  - rewrite slice_ok by lia. replace (o + 4 + len - (o + 4))%nat with len by lia.
    rewrite Hsub, enc_slot_split by lia. rewrite !seg_app_r by (rewrite ?length_to_le_bytes; simpl; lia).
    rewrite length_to_le_bytes. by apply f_equal, seg_prefix.
  - rewrite slice_ok by lia.
    replace (o + 4 + len + padding_len len - (o + 4 + len))%nat with (padding_len len) by lia.
    rewrite <-Nat.add_assoc, Hsub, enc_slot_split by lia.
    rewrite !seg_app_r by (rewrite ?length_to_le_bytes; simpl; lia).
    rewrite length_to_le_bytes. f_equal. simpl length.
    replace (4 + len - 2 - 2 - length (slot_payload s))%nat with 0%nat by lia.
    rewrite Heq. by apply seg_all; rewrite length_replicate.
Qed.

(** Conversely, four header bytes, a payload and zero padding are a slot. *)
Lemma slot_of_bytes bs o len :
  bytes_ok bs → (len ≤ 255)%nat → (o + 4 + len + padding_len len ≤ length bs)%nat →
  bs !! (o + 3)%nat = Some (Z.of_nat len) →
  seg bs (o + 4 + len) (padding_len len) = replicate (padding_len len) 0 →
  ∃ s, slot_wf s ∧ length (slot_payload s) = len ∧ seg bs o (length (enc_slot s)) = enc_slot s.
Proof.
  intros Hok Hl Hlen Hb Hpad.
  destruct (lookup_lt_is_Some_2 bs (o + 2)%nat) as [ty Hty]; [lia|].
  exists {| slot_key := from_le_bytes (seg bs o 2); slot_ty := ty; slot_payload := seg bs (o + 4) len |}.
  assert (Hps : length (seg bs (o + 4) len) = len) by (apply length_seg; lia).
  assert (Hks : length (seg bs o 2) = 2%nat) by (apply length_seg; lia).
  split_and!; [|done|].
  - split_and!; simpl; [|by eapply Forall_lookup_1 in Hty|by apply bytes_ok_seg|lia].
    pose proof (from_le_bytes_fits (seg bs o 2) (bytes_ok_seg _ _ _ Hok)) as H. by rewrite Hks in H.
  - rewrite length_enc_slot, enc_slot_split. cbn [slot_key slot_ty slot_payload]. rewrite Hps.
    replace (4 + len + padding_len len)%nat with (2 + (1 + (1 + (len + padding_len len))))%nat by lia.
    pose proof (to_from_le_bytes (seg bs o 2) (bytes_ok_seg _ _ _ Hok)) as Hkey.
    rewrite Hks in Hkey. rewrite seg_split, Hkey. f_equal. simpl. rewrite (seg_S _ _ _ _ Hty).
    replace (S (o + 2))%nat with (o + 3)%nat by lia. rewrite (seg_S _ _ _ _ Hb).
    do 2 f_equal. replace (S (o + 3))%nat with (o + 4)%nat by lia. by rewrite seg_split, Hpad.
Qed.

(** Both loops accept a well-formed slot area and read it back. *)
Lemma slots_complete slots : ∀ fuel bs o e acc,
  Forall slot_wf slots → (o ≤ e)%nat → (e ≤ length bs)%nat → (e - o ≤ fuel)%nat →
  seg bs o (e - o) = enc_slots slots →
  validate_slots fuel bs e o = Ok tt ∧ decode_slots fuel bs e o acc = Ok (acc ++ slots).
Proof.
  induction slots as [|s slots IH]; intros fuel bs o e acc Hwf Hoe He Hfuel Hseg.
  { apply (f_equal length) in Hseg. rewrite length_seg in Hseg by lia. change (length (enc_slots [])) with 0%nat in Hseg.
    destruct fuel; cbn [validate_slots decode_slots]; rewrite !decide_False by lia;
      by rewrite app_nil_r. }
  apply Forall_cons_1 in Hwf as [Hs Hwf].
  rewrite enc_slots_cons in Hseg. pose proof (f_equal length Hseg) as Hlen.
  rewrite length_seg, length_app in Hlen by lia. pose proof (length_enc_slot s) as Hn.
  assert (Hseg1 : seg bs o (length (enc_slot s)) = enc_slot s).
  { rewrite <-(seg_prefix (enc_slot s) (enc_slots slots) _ eq_refl) at 2.
    rewrite <-Hseg, seg_seg by lia. by rewrite Nat.add_0_r. }
  assert (Hseg2 : seg bs (o + length (enc_slot s)) (e - (o + length (enc_slot s))) = enc_slots slots).
  { replace (e - o)%nat with (length (enc_slot s) + (e - (o + length (enc_slot s))))%nat in Hseg by lia.
    rewrite seg_split, Hseg1 in Hseg. by apply app_inv_head in Hseg. }
  destruct (slot_reads (E:=WireError) bs o s Hs ltac:(lia) Hseg1) as (R1 & R2 & R3 & R4 & R5).
  destruct fuel as [|fuel]; [lia|]. cbn [validate_slots decode_slots].
  destruct (decide (o < e)%nat); [|lia]. rewrite R1, R2, R3, !ok_bind. cbv zeta. rewrite Nat2Z.id.
  rewrite R4, R5, !ok_bind. rewrite !decide_False by lia.
  rewrite (proj2 (check_padding_Ok _ _)) by (by rewrite length_replicate). rewrite ok_bind.
  replace (o + 4 + length (slot_payload s) + padding_len (length (slot_payload s)))%nat
    with (o + length (enc_slot s))%nat by lia.
  assert (Hsurj : MkSlot (slot_key s) (slot_ty s) (slot_payload s) = s) by (by destruct s).
  rewrite Hsurj, (cons_middle s acc slots), app_assoc. by apply IH; [|lia..|].
Qed.

(** A slot area [validate_record] accepts is the encoding of a slot list. *)
Lemma slots_sound fuel : ∀ bs o e,
  bytes_ok bs → (o ≤ e)%nat → (e ≤ length bs)%nat →
  validate_slots fuel bs e o = Ok tt →
  ∃ slots, Forall slot_wf slots ∧ seg bs o (e - o) = enc_slots slots.
Proof.
  induction fuel as [|fuel IH]; intros bs o e Hok Hoe He; cbn [validate_slots]; case_decide; try done;
    try (intros _; exists []; split; [done|]; by replace (e - o)%nat with 0%nat by lia).
  case_decide; [done|].
  destruct (index_lt (E:=WireError) bs (o + 3)) as (b & Hb & ->); [lia|]. rewrite !ok_bind. cbv zeta.
  case_decide; [done|]. case_decide; [done|].
  pose proof (Forall_lookup_1 _ _ _ _ Hok Hb) as Hb8. unfold fits in Hb8.
  set (len := Z.to_nat b) in *.
  rewrite slice_ok by lia. rewrite ok_bind.
  destruct (check_padding _ _) as [[]| | |] eqn:Hpad; try done.
  apply check_padding_Ok in Hpad. rewrite length_seg in Hpad by lia.
  replace (o + 4 + len + padding_len len - (o + 4 + len))%nat with (padding_len len) in Hpad by lia.
  rewrite ok_bind. intros Hrest.
  destruct (slot_of_bytes bs o len) as (s & Hs & Hsl & Hseg); [done|lia|lia| |done|].
  { rewrite Hb. f_equal. lia. }
  apply IH in Hrest as (slots & Hslots & Hseg'); [|done|lia|lia].
  exists (s :: slots). split; [by constructor|].
  pose proof (length_enc_slot s) as Hn. rewrite Hsl in Hn.
  replace (e - o)%nat with (length (enc_slot s) + (e - (o + 4 + len + padding_len len)))%nat by lia.
  rewrite seg_split, Hseg, enc_slots_cons, <-Hseg'. f_equal. f_equal; lia.
Qed.

Lemma validate_slots_returns fuel : ∀ bs o e,
  (e ≤ length bs)%nat → (e - o ≤ fuel)%nat → returns (validate_slots fuel bs e o).
Proof.
  induction fuel as [|fuel IH]; intros bs o e He Hf; cbn [validate_slots]; case_decide; try done; [lia|].
  case_decide; [done|].
  destruct (index_lt (E:=WireError) bs (o + 3)) as (b & Hb & ->); [lia|]. rewrite !ok_bind. cbv zeta.
  case_decide; [done|]. case_decide; [done|]. rewrite slice_ok by lia. rewrite ok_bind.
  apply returns_bind; [apply check_padding_returns|]. intros _ _. apply IH; lia.
Qed.

(** ** The flag word *)
Lemma land_8 f : Z.land f 8 = if Z.testbit f 3 then 8 else 0.
Proof.
  apply Z.bits_inj'. intros n Hn. rewrite Z.land_spec. change 8 with (2 ^ 3).
  rewrite Z.pow2_bits_eqb by lia. destruct (Z.eqb_spec 3 n) as [<-|].
  - destruct (Z.testbit f 3); [by rewrite Z.pow2_bits_true|by rewrite Z.bits_0].
  - rewrite andb_false_r. destruct (Z.testbit f 3); [by rewrite Z.pow2_bits_false|by rewrite Z.bits_0].
Qed.

Lemma has_crc_testbit f : has_crc f = Z.testbit f 3.
Proof. unfold has_crc. change FLAG_HAS_CRC with 8. rewrite land_8. by destruct (Z.testbit f 3). Qed.

Lemma crc_flags_testbit f c n :
  is_u16 f → 0 ≤ n →
  Z.testbit (crc_flags f c) n = if bool_decide (n = 3) then c else Z.testbit f n.
Proof.
  intros Hf Hn. unfold crc_flags. change FLAG_HAS_CRC with (2 ^ 3).
  assert (H7 : ∀ m, 0 ≤ m < 16 → Z.testbit (Z.lxor U16_MAX (2 ^ 3)) m = negb (bool_decide (m = 3))).
  { intros m Hm. rewrite Z.lxor_spec. change U16_MAX with (Z.ones 16).
    rewrite Z.ones_spec_low, Z.pow2_bits_eqb by lia.
    destruct (Z.eqb_spec 3 m); case_bool_decide; congruence || done. }
  destruct c.
  - rewrite Z.lor_spec, Z.pow2_bits_eqb by lia.
    destruct (Z.eqb_spec 3 n); case_bool_decide; subst; try lia;
      rewrite ?orb_true_r, ?orb_false_r; done.
  - rewrite Z.land_spec. destruct (decide (n < 16)).
    + rewrite H7 by lia. case_bool_decide; [by rewrite andb_false_r|by rewrite andb_true_r].
    + rewrite (fits_testbit 16 f) by (done || lia). simpl. by rewrite bool_decide_false by lia.
Qed.

Lemma has_crc_flags f c : is_u16 f → has_crc (crc_flags f c) = c.
Proof. intros. by rewrite has_crc_testbit, crc_flags_testbit. Qed.

Lemma crc_flags_id f : is_u16 f → crc_flags f (has_crc f) = f.
Proof.
  intros. apply Z.bits_inj'. intros n Hn. rewrite crc_flags_testbit, has_crc_testbit by done.
  case_bool_decide; by subst.
Qed.

Lemma crc_flags_idemp f c : is_u16 f → crc_flags (crc_flags f c) c = crc_flags f c.
Proof.
  intros Hf. apply Z.bits_inj'. intros n Hn. unfold crc_flags at 1. destruct c.
  - rewrite Z.lor_spec. change FLAG_HAS_CRC with (2 ^ 3). rewrite Z.pow2_bits_eqb by lia.
    destruct (Z.eqb_spec 3 n) as [<-|]; [|by rewrite orb_false_r].
    by rewrite orb_true_r, crc_flags_testbit.
  - rewrite Z.land_spec. unfold crc_flags. by rewrite Z.land_spec, <-andb_assoc, andb_diag.
Qed.

Lemma crc_flags_u16 f c : is_u16 f → is_u16 (crc_flags f c).
Proof.
  intros Hf. assert (0 ≤ crc_flags f c).
  { unfold crc_flags. unfold fits in Hf. change FLAG_HAS_CRC with 8.
    destruct c; [apply Z.lor_nonneg|apply Z.land_nonneg]; lia. }
  unfold fits. apply Z.bounded_iff_bits_nonneg'; [done..|]. intros l Hl.
  rewrite crc_flags_testbit by (done || lia). rewrite bool_decide_false by lia.
  by apply (fits_testbit 16).
Qed.

(** ** Frames

    What [validate_record] checks, as a predicate: the first [n] bytes are a
    frame with a good trailer and a well-formed slot area. *)
Definition frame_flags (bs : bytes) : u16 := from_le_bytes (seg bs 6 2).
Definition slots_end_of (bs : bytes) (n : nat) : nat :=
  if has_crc (frame_flags bs) then (n - CRC_LEN)%nat else n.

Definition frame_head (bs : bytes) (n : nat) : Prop :=
  (HEADER_LEN ≤ n ∧ n ≤ length bs)%nat ∧ seg bs 0 4 = SYNC
  ∧ Z.to_nat (from_le_bytes (seg bs 4 2)) = n
  ∧ (has_crc (frame_flags bs) = true → (HEADER_LEN + CRC_LEN ≤ n)%nat).

Definition frame_crc_ok (bs : bytes) (n : nat) : Prop :=
  has_crc (frame_flags bs) = true →
  from_le_bytes (seg bs (n - CRC_LEN) 4) = crc32c (seg bs 0 (n - CRC_LEN)).

Definition frame (bs : bytes) (n : nat) : Prop :=
  frame_head bs n ∧ frame_crc_ok bs n
  ∧ validate_slots (length bs) bs (slots_end_of bs n) HEADER_LEN = Ok tt.

Lemma validate_head bs :
  (∃ e, validate_record bs = Err e ∧ ∀ n, ¬ frame_head bs n) ∨
  ∃ n, frame_head bs n ∧
    validate_record bs =
      if has_crc (frame_flags bs) && bool_decide (from_le_bytes (seg bs (n - CRC_LEN) 4)
                                                    ≠ crc32c (seg bs 0 (n - CRC_LEN)))
      then Err (CrcMismatch (from_le_bytes (seg bs (n - CRC_LEN) 4)) (crc32c (seg bs 0 (n - CRC_LEN))))
      else _ ← validate_slots (length bs) bs (slots_end_of bs n) HEADER_LEN; Ok n.
Proof.
  unfold validate_record, frame_head, HEADER_LEN, CRC_LEN.
  case_decide; [left; eexists; split; [done|naive_solver lia]|].
  rewrite slice_ok by lia. rewrite ok_bind. change (4 - 0)%nat with 4%nat.
  case_decide; [left; eexists; split; [done|naive_solver]|].
  rewrite !read_u16_ok, !ok_bind by lia. fold (frame_flags bs).
  set (n := Z.to_nat (from_le_bytes (seg bs 4 2))).
  case_decide; [left; eexists; split; [done|naive_solver lia]|].
  case_decide; [left; eexists; split; [done|naive_solver lia]|].
  unfold slots_end_of, CRC_LEN. destruct (has_crc (frame_flags bs)) eqn:Hcrc; cbn [andb].
  - case_bool_decide; [left; eexists; split; [done|naive_solver lia]|].
    right. exists n. split; [split_and!; try done; lia|].
    rewrite read_u32_ok, slice_ok, !ok_bind, Nat.sub_0_r by lia.
    case_decide; [by rewrite bool_decide_true|]. by rewrite bool_decide_false, ok_bind by (by intros []).
  - right. exists n. split; [split_and!; try done; lia|]. done.
Qed.

Lemma frame_head_unique bs n m : frame_head bs n → frame_head bs m → n = m.
Proof. intros (_ & _ & H & _) (_ & _ & H' & _). congruence. Qed.

Lemma slots_end_bounds bs n :
  frame_head bs n → (HEADER_LEN ≤ slots_end_of bs n ≤ length bs)%nat.
Proof.
  unfold frame_head, slots_end_of, HEADER_LEN, CRC_LEN. intros ([? ?] & _ & _ & Hc).
  destruct (has_crc _); [specialize (Hc eq_refl)|]; lia.
Qed.

Lemma validate_Ok bs n : validate_record bs = Ok n ↔ frame bs n.
Proof.
  unfold frame, frame_crc_ok. destruct (validate_head bs) as [(e & -> & Hno)|(m & Hm & ->)].
  { split; [done|]. intros (Hh & _). by apply Hno in Hh. }
  assert (Hmn : frame_head bs n → m = n) by (intros; by eapply frame_head_unique).
  split.
  - destruct (has_crc (frame_flags bs)) eqn:Hc; cbn [andb].
    + case_bool_decide as Hcrc; [done|].
      destruct (validate_slots _ _ _ _) as [[]| | |] eqn:Hs; try done.
      intros [= <-]. by split_and!.
    + destruct (validate_slots _ _ _ _) as [[]| | |] eqn:Hs; try done.
      intros [= <-]. by split_and!.
  - intros (Hh & Hcrc & Hs). rewrite (Hmn Hh) in *. rewrite Hs.
    destruct (has_crc (frame_flags bs)); cbn [andb]; [|done].
    by rewrite bool_decide_false by (intros Hne; apply Hne, Hcrc; done).
Qed.

Lemma validate_returns bs : returns (validate_record bs).
Proof.
  destruct (validate_head bs) as [(e & -> & _)|(m & Hm & ->)]; [done|].
  case_match; [done|]. apply returns_bind; [|done].
  apply validate_slots_returns; pose proof (slots_end_bounds _ _ Hm); lia.
Qed.

(** ** Fields of an encoded body *)

Lemma body_fields r t f rest :
  let bs := enc_body r t f ++ rest in
  seg bs 0 4 = SYNC ∧ seg bs 4 2 = to_le_bytes 2 (Z.of_nat t) ∧ seg bs 6 2 = to_le_bytes 2 f
  ∧ seg bs 8 8 = to_le_bytes 8 (rec_source_time r) ∧ seg bs 16 8 = to_le_bytes 8 (rec_run_id r)
  ∧ seg bs 24 8 = to_le_bytes 8 (rec_seq r) ∧ seg bs 32 4 = to_le_bytes 4 (rec_source_id r)
  ∧ seg bs 36 4 = to_le_bytes 4 (rec_event_type_id r)
  ∧ seg bs 40 (length (enc_slots (rec_slots r))) = enc_slots (rec_slots r).
Proof.
  cbv zeta. unfold enc_body, enc_tail. rewrite <-!app_assoc. split_and!; unfold SYNC; repeat seg_step; done.
Qed.

Lemma SYNC_ok : bytes_ok SYNC.
Proof. by_compute. Qed.

Lemma enc_slots_ok slots : Forall slot_wf slots → bytes_ok (enc_slots slots).
Proof.
  induction 1 as [|s slots (Hk & Ht & Hp & Hl) _ IH]; [by constructor|].
  rewrite enc_slots_cons, enc_slot_split, !bytes_ok_app. split_and!; auto using to_le_bytes_ok.
  - repeat constructor; [unfold fits in *; lia..|]. unfold fits. lia.
  - apply Forall_replicate. unfold fits. lia.
Qed.

Lemma enc_body_ok r t f : record_wf r → bytes_ok (enc_body r t f).
Proof.
  intros (_&_&_&_&_&_&Hs). unfold enc_body, enc_tail. rewrite !bytes_ok_app.
  split_and!; auto using to_le_bytes_ok, SYNC_ok, enc_slots_ok.
Qed.

Lemma enc_record_ok r c : record_wf r → bytes_ok (enc_record r c).
Proof.
  intros Hr. unfold enc_record, with_trailer.
  destruct c; rewrite ?bytes_ok_app; auto using enc_body_ok, to_le_bytes_ok.
Qed.

(** ** Decoding a frame *)
Lemma decode_frame bs n slots :
  frame bs n → decode_slots (length bs) bs (slots_end_of bs n) HEADER_LEN [] = Ok slots →
  decode bs = Ok
    {| dec_record :=
         {| rec_flags := frame_flags bs; rec_source_time := from_le_bytes (seg bs 8 8);
            rec_run_id := from_le_bytes (seg bs 16 8); rec_seq := from_le_bytes (seg bs 24 8);
            rec_source_id := from_le_bytes (seg bs 32 4);
            rec_event_type_id := from_le_bytes (seg bs 36 4); rec_slots := slots |};
       dec_consumed := n |}.
Proof.
  intros Hf Hs. pose proof Hf as (([Hh Hn] & _) & _). unfold HEADER_LEN in Hh.
  unfold decode. rewrite (proj2 (validate_Ok _ _) Hf), ok_bind.
  rewrite read_u16_ok, ok_bind by lia. fold (frame_flags bs). cbv zeta.
  fold (slots_end_of bs n). rewrite Hs, ok_bind.
  by rewrite !read_u64_ok, !read_u32_ok, !ok_bind by lia.
Qed.

(** Every frame has a slot list that [decode] reads. *)
Lemma frame_slots bs n :
  bytes_ok bs → frame bs n →
  ∃ slots, Forall slot_wf slots
    ∧ seg bs HEADER_LEN (slots_end_of bs n - HEADER_LEN) = enc_slots slots
    ∧ decode_slots (length bs) bs (slots_end_of bs n) HEADER_LEN [] = Ok slots.
Proof.
  intros Hok (Hh & Hc & Hv). pose proof (slots_end_bounds _ _ Hh).
  destruct (slots_sound _ bs HEADER_LEN (slots_end_of bs n) Hok ltac:(lia) ltac:(lia) Hv) as (slots & Hwf & Hseg).
  exists slots. split_and!; [done..|].
  by apply (slots_complete slots (length bs) bs HEADER_LEN); [|lia..|].
Qed.

Lemma frame_encoded r c rest :
  record_wf r → Z.of_nat (record_len (rec_slots r) c) ≤ U16_MAX →
  let bs := enc_record r c ++ rest in
  let n := record_len (rec_slots r) c in
  frame bs n ∧ frame_flags bs = crc_flags (rec_flags r) c
  ∧ decode_slots (length bs) bs (slots_end_of bs n) HEADER_LEN [] = Ok (rec_slots r).
Proof.
  intros Hr Hmax bs n. pose proof Hr as (Hfl & _ & _ & _ & _ & _ & Hslots).
  assert (Hlen : length bs = (n + length rest)%nat).
  { unfold bs. by rewrite length_app, length_enc_record. }
  assert (Hn : n = (40 + length (enc_slots (rec_slots r)) + (if c then 4 else 0))%nat) by done.
  set (body := enc_body r n (crc_flags (rec_flags r) c)) in *.
  assert (Hbs : ∃ rest', bs = body ++ rest'
    ∧ (c = true → seg bs (n - 4) 4 = to_le_bytes 4 (crc32c body) ∧ seg bs 0 (n - 4) = body)).
  { pose proof (length_enc_body r n (crc_flags (rec_flags r) c)) as Hb. fold body in Hb.
    unfold bs, enc_record, with_trailer. fold n body. destruct c; [|by exists rest].
    eexists. rewrite <-app_assoc. split; [done|]. intros _. split.
    - rewrite seg_app_r by lia. replace (n - 4 - length body)%nat with 0%nat by lia.
      apply seg_prefix. by rewrite length_to_le_bytes.
    - apply seg_prefix. lia. }
  destruct Hbs as (rest' & Hbs & Htrail).
  pose proof (body_fields r n (crc_flags (rec_flags r) c) rest') as F. cbv zeta in F.
  fold body in F. rewrite <-Hbs in F. destruct F as (F0 & F4 & F6 & _ & _ & _ & _ & _ & F40).
  assert (Hflags : frame_flags bs = crc_flags (rec_flags r) c).
  { unfold frame_flags. rewrite F6. apply from_to_le_bytes. by apply crc_flags_u16. }
  assert (Hhas : has_crc (frame_flags bs) = c) by (by rewrite Hflags, has_crc_flags).
  assert (Hend : slots_end_of bs n = (40 + length (enc_slots (rec_slots r)))%nat).
  { unfold slots_end_of. rewrite Hhas. unfold CRC_LEN. destruct c; lia. }
  destruct (slots_complete (rec_slots r) (length bs) bs HEADER_LEN (slots_end_of bs n) [])
    as [Hv Hd]; [done|rewrite Hend; unfold HEADER_LEN; lia|lia|lia| |].
  { rewrite Hend. unfold HEADER_LEN. by rewrite Nat.add_comm, Nat.add_sub. }
  split; [|done]. split; [|split; [|done]].
  - split_and!; [unfold HEADER_LEN; lia|lia|done| |].
    + rewrite F4, from_to_le_bytes by (unfold fits, U16_MAX in *; lia). lia.
    + rewrite Hhas. unfold HEADER_LEN, CRC_LEN. intros ->. lia.
  - unfold frame_crc_ok, CRC_LEN. rewrite Hhas. intros Hc. destruct (Htrail Hc) as [-> ->].
    by rewrite from_to_le_bytes by (apply crc32c_fits, enc_body_ok, Hr).
Qed.

(** ** Properties of the codec *)

(** [encode] fails with [SlotTooLong] on the first slot whose payload is
    longer than 255 bytes, else with [RecordTooLong] when the whole record is
    longer than a [u16], and otherwise returns header, slots and trailer as the
    format lays them out, of exactly the length its header declares. *)
Theorem encode_spec r c :
  encode r c =
    match long_slot (rec_slots r) with
    | Some s => Err (SlotTooLong (slot_key s) (length (slot_payload s)))
    | None => if decide (U16_MAX < Z.of_nat (record_len (rec_slots r) c))
              then Err (RecordTooLong (record_len (rec_slots r) c)) else Ok (enc_record r c)
    end
  ∧ length (enc_record r c) = record_len (rec_slots r) c.
Proof. split; [apply encode_eq|apply length_enc_record]. Qed.

Lemma decode_total bs : bytes_ok bs → returns (decode bs).
Proof.
  intros Hok. unfold decode. pose proof (validate_returns bs) as Hr.
  destruct (validate_record bs) as [n|e| |] eqn:Hv; try done.
  apply validate_Ok in Hv. destruct (frame_slots _ _ Hok Hv) as (slots & _ & _ & Hs).
  pose proof (decode_frame _ _ _ Hv Hs) as Hd. unfold decode in Hd.
  rewrite (proj2 (validate_Ok _ _) Hv) in Hd. by rewrite Hd.
Qed.

(** C40: [decode] is total on byte strings: whatever the input, it returns a
    record or an error; no index is out of range and both loops end. *)
Theorem decode_returns bs : bytes_ok bs → returns (decode bs).
Proof. apply decode_total. Qed.

Lemma decode_returns_witness : returns (decode (0x4F :: replicate 43 0)).
Proof. apply decode_returns. by_compute. Defined.

(** [decode] reads back what [enc_record] lays out. *)
Lemma decode_enc_record r c rest :
  record_wf r → Z.of_nat (record_len (rec_slots r) c) ≤ U16_MAX →
  decode (enc_record r c ++ rest) =
    Ok {| dec_record := with_flags r (crc_flags (rec_flags r) c);
          dec_consumed := length (enc_record r c) |}.
Proof.
  intros Hr Hmax. destruct (frame_encoded r c rest Hr Hmax) as (Hf & Hfl & Hs).
  rewrite (decode_frame _ _ _ Hf Hs), Hfl, length_enc_record. f_equal. f_equal.
  destruct (body_fields r (record_len (rec_slots r) c) (crc_flags (rec_flags r) c)
    ((if c then to_le_bytes 4 (crc32c (enc_body r (record_len (rec_slots r) c)
       (crc_flags (rec_flags r) c))) else []) ++ rest)) as (_ & _ & _ & F8 & F16 & F24 & F32 & F36 & _).
  assert (Heq : enc_record r c ++ rest = enc_body r (record_len (rec_slots r) c) (crc_flags (rec_flags r) c)
    ++ (if c then to_le_bytes 4 (crc32c (enc_body r (record_len (rec_slots r) c)
       (crc_flags (rec_flags r) c))) else []) ++ rest).
  { unfold enc_record, with_trailer. destruct c; by rewrite <-?app_assoc. }
  rewrite Heq, F8, F16, F24, F32, F36. destruct Hr as (?&?&?&?&?&?&?).
  unfold with_flags. by rewrite !from_to_le_bytes.
Qed.

(** C37: round trip: a well-formed record that [encode] accepts is decoded back
    from its bytes, whatever follows them, with the CRC flag set or cleared as
    asked and exactly the encoded bytes consumed. *)
Theorem decode_encode r c bs rest :
  record_wf r → encode r c = Ok bs →
  decode (bs ++ rest) =
    Ok {| dec_record := with_flags r (crc_flags (rec_flags r) c); dec_consumed := length bs |}.
Proof. intros Hr [-> Hmax]%encode_Ok. by apply decode_enc_record. Qed.

Lemma decode_encode_witness :
  decode (enc_record state_transition_record true ++ [1; 2; 3]) =
    Ok {| dec_record := with_flags state_transition_record (crc_flags 0 true);
          dec_consumed := length (enc_record state_transition_record true) |}.
Proof.
  apply (decode_encode state_transition_record true (enc_record state_transition_record true) [1; 2; 3]);
    [by_compute|]. vm_compute. reflexivity.
Defined.

(** The record [decode] builds from a frame. *)
Definition record_at (bs : bytes) (slots : list Slot) : WireRecord :=
  {| rec_flags := frame_flags bs; rec_source_time := from_le_bytes (seg bs 8 8);
     rec_run_id := from_le_bytes (seg bs 16 8); rec_seq := from_le_bytes (seg bs 24 8);
     rec_source_id := from_le_bytes (seg bs 32 4);
     rec_event_type_id := from_le_bytes (seg bs 36 4); rec_slots := slots |}.

Lemma record_at_wf bs slots :
  bytes_ok bs → (40 ≤ length bs)%nat → Forall slot_wf slots → record_wf (record_at bs slots).
Proof.
  intros Hok Hlen Hs.
  pose proof (λ o m H, proj1 (le_fields bs o m Hok H)) as Hf.
  split_and!; [apply (Hf 6%nat 2%nat)|apply (Hf 8%nat 8%nat)|apply (Hf 16%nat 8%nat)
    |apply (Hf 24%nat 8%nat)|apply (Hf 32%nat 4%nat)|apply (Hf 36%nat 4%nat)|done]; lia.
Qed.

(** Re-encoding the fields of a frame writes the frame's bytes. *)
Lemma record_at_body bs slots e :
  bytes_ok bs → (40 ≤ e ≤ length bs)%nat → seg bs 40 (e - 40) = enc_slots slots →
  seg bs 0 4 = SYNC →
  enc_body (record_at bs slots) (Z.to_nat (from_le_bytes (seg bs 4 2))) (frame_flags bs) = seg bs 0 e.
Proof.
  intros Hok [He1 He2] Hseg Hsync.
  pose proof (λ o m H, proj2 (le_fields bs o m Hok H)) as Hf.
  destruct (le_fields bs 4 2 Hok ltac:(lia)) as [[Ht _] Ht'].
  unfold enc_body, enc_tail, record_at, frame_flags.
  cbn [rec_source_time rec_run_id rec_seq rec_source_id rec_event_type_id rec_slots].
  rewrite Z2Nat.id, Ht', <-Hseg, <-Hsync by done.
  rewrite (Hf 6%nat 2%nat), (Hf 8%nat 8%nat), (Hf 16%nat 8%nat), (Hf 24%nat 8%nat),
    (Hf 32%nat 4%nat), (Hf 36%nat 4%nat) by lia.
  trans (seg bs 0 (4 + (2 + (2 + (8 + (8 + (8 + (4 + (4 + (e - 40)))))))))%nat);
    [by rewrite !seg_split|f_equal; lia].
Qed.

(** A frame is the encoding of the record it decodes to. *)
Lemma frame_canonical bs n slots :
  bytes_ok bs → frame bs n → Forall slot_wf slots →
  seg bs HEADER_LEN (slots_end_of bs n - HEADER_LEN) = enc_slots slots →
  record_len slots (has_crc (frame_flags bs)) = n
  ∧ enc_record (record_at bs slots) (has_crc (frame_flags bs)) = take n bs.
Proof.
  intros Hok (Hh & Hc & _) Hwf Hseg. pose proof (slots_end_bounds _ _ Hh) as Hb.
  pose proof Hh as ([Hh1 Hh2] & Hsync & Hlen & Hcl). unfold HEADER_LEN in *.
  assert (Hslen : length (enc_slots slots) = (slots_end_of bs n - 40)%nat).
  { rewrite <-Hseg. apply length_seg. lia. }
  assert (Hn : record_len slots (has_crc (frame_flags bs)) = n).
  { unfold record_len, slots_end_of, HEADER_LEN, CRC_LEN in *.
    destruct (has_crc _); [specialize (Hcl eq_refl)|]; lia. }
  split; [done|]. unfold enc_record. change (rec_slots (record_at bs slots)) with slots.
  change (rec_flags (record_at bs slots)) with (frame_flags bs).
  rewrite Hn, crc_flags_id by (apply (le_fields bs 6 2); [done|lia]).
  rewrite <-Hlen at 1. rewrite (record_at_body bs slots (slots_end_of bs n)) by done.
  change (take n bs) with (seg bs 0 n). unfold with_trailer, frame_crc_ok, slots_end_of, CRC_LEN in *.
  destruct (has_crc _); [|done]. specialize (Hcl eq_refl). rewrite <-Hc by done.
  rewrite (proj2 (le_fields bs (n - 4) 4 Hok ltac:(lia))).
  trans (seg bs 0 ((n - 4) + 4)%nat); [by rewrite seg_split|f_equal; lia].
Qed.

Lemma decode_canonical bs d :
  bytes_ok bs → decode bs = Ok d →
  record_wf (dec_record d) ∧
  encode (dec_record d) (has_crc (rec_flags (dec_record d))) = Ok (take (dec_consumed d) bs).
Proof.
  intros Hok Hd. destruct (validate_record bs) as [n| | |] eqn:Hv;
    try (unfold decode in Hd; by rewrite Hv in Hd).
  apply validate_Ok in Hv. destruct (frame_slots _ _ Hok Hv) as (slots & Hwf & Hseg & Hs).
  rewrite (decode_frame _ _ _ Hv Hs) in Hd. injection Hd as <-. cbn [dec_record dec_consumed rec_flags].
  destruct (frame_canonical bs n slots Hok Hv Hwf Hseg) as [Hn Henc].
  pose proof Hv as (([Hh1 Hh2] & _ & Hlen & _) & _). unfold HEADER_LEN in Hh1.
  split; [apply (record_at_wf bs slots); [done|lia|done]|].
  rewrite encode_eq. cbn [rec_slots]. rewrite long_slot_wf, Hn by done.
  destruct (le_fields bs 4 2 Hok ltac:(lia)) as [Ht _]. unfold fits in Ht.
  rewrite decide_False by (unfold U16_MAX; lia). by rewrite <-Henc.
Qed.

(** C38: the encoding is canonical: bytes that [decode] accepts are exactly the
    bytes [encode] writes for the record it returned, so decoding then encoding
    gives back the consumed prefix. *)
Theorem encode_decode bs d :
  bytes_ok bs → decode bs = Ok d →
  record_wf (dec_record d) ∧
  encode (dec_record d) (has_crc (rec_flags (dec_record d))) = Ok (take (dec_consumed d) bs).
Proof. apply decode_canonical. Qed.

Lemma encode_decode_witness :
  let bs := enc_record state_transition_record true ++ [9] in
  let d := {| dec_record := with_flags state_transition_record 8; dec_consumed := 60%nat |} in
  record_wf (dec_record d) ∧
  encode (dec_record d) (has_crc (rec_flags (dec_record d))) = Ok (take (dec_consumed d) bs).
Proof. intros bs d. apply encode_decode; [by_compute|vm_compute; reflexivity]. Defined.

(** A message whose last four bytes are its checksum has the fixed residue. *)
Lemma trailer_residue bs n :
  bytes_ok bs → length bs = n → (4 ≤ n)%nat →
  from_le_bytes (seg bs (n - 4) 4) = crc32c (seg bs 0 (n - 4)) → crc32c bs = CRC_RESIDUE.
Proof.
  intros Hok Hl Hn Heq. rewrite <-(crc32c_residue (seg bs 0 (n - 4))) by (by apply bytes_ok_seg).
  rewrite <-Heq, (proj2 (le_fields bs (n - 4) 4 Hok ltac:(lia))), <-seg_split. f_equal.
  symmetry. apply seg_all. lia.
Qed.

(** C39: a burst of up to four corrupted bytes anywhere after the flags field of
    an encoded record with a CRC, in the header, a slot or the trailer itself,
    makes [decode] fail with [CrcMismatch]. *)
Theorem decode_rejects_burst r p w w' s :
  record_wf r → encode r true = Ok (p ++ w ++ s) →
  (8 ≤ length p)%nat → bytes_ok w' → length w' = length w → (length w ≤ 4)%nat → w' ≠ w →
  ∃ expected actual, decode (p ++ w' ++ s) = Err (CrcMismatch expected actual).
Proof.
  intros Hr [Henc Hmax]%encode_Ok Hp Hw' Hlen Hle Hne.
  destruct (frame_encoded r true [] Hr Hmax) as (Hf & Hfl & _). rewrite app_nil_r, <-Henc in Hf, Hfl.
  pose proof (enc_record_ok r true Hr) as Hok. rewrite <-Henc in Hok.
  set (n := record_len (rec_slots r) true) in *. set (bs := p ++ w ++ s) in *.
  pose proof (length_enc_record r true) as Hn. rewrite <-Henc in Hn. fold n in Hn.
  set (bs' := p ++ w' ++ s).
  assert (Hok' : bytes_ok bs').
  { unfold bs, bs' in *. rewrite !bytes_ok_app in *. naive_solver. }
  assert (Hlen' : length bs' = length bs) by (unfold bs, bs'; rewrite !length_app; lia).
  assert (Hpre : ∀ o m, (o + m ≤ 8)%nat → seg bs' o m = seg bs o m).
  { intros o m Hom. unfold bs, bs'. by rewrite !(seg_app_l p) by lia. }
  destruct Hf as ((Hb & Hsync & Htot & Hcl) & Hcrc & _).
  assert (Hflags : frame_flags bs' = frame_flags bs) by (unfold frame_flags; by rewrite Hpre by lia).
  assert (Hhas : has_crc (frame_flags bs) = true) by (rewrite Hfl; apply has_crc_flags, Hr).
  destruct (validate_head bs') as [(e & _ & Hno)|(m & Hm & Hv)].
  { exfalso. apply (Hno n). unfold frame_head. by rewrite Hflags, Hlen', !Hpre by lia. }
  assert (m = n) as -> by (destruct Hm as (_ & _ & Hm & _); rewrite Hpre in Hm by lia; congruence).
  rewrite Hflags, Hhas in Hv. cbn [andb] in Hv.
  destruct (decide (from_le_bytes (seg bs' (n - CRC_LEN) 4) = crc32c (seg bs' 0 (n - CRC_LEN)))) as [Heq|Heq].
  - exfalso. specialize (Hcl Hhas). unfold HEADER_LEN, CRC_LEN in *.
    pose proof (trailer_residue bs n Hok ltac:(lia) ltac:(lia) (Hcrc Hhas)) as R.
    pose proof (trailer_residue bs' n Hok' ltac:(lia) ltac:(lia) Heq) as R'.
    unfold bs, bs' in *. rewrite !bytes_ok_app in *. destruct Hok as (?&?&?), Hok' as (?&?&?).
    apply Hne, (crc32c_window p s); [done..|lia|congruence].
  - rewrite bool_decide_true in Hv by done. unfold decode. rewrite Hv. do 2 eexists. done.
Qed.

Lemma decode_rejects_burst_witness :
  let bs := enc_record state_transition_record true in
  ∃ expected actual, decode (take 54 bs ++ [7; 7; 7] ++ drop 57 bs) = Err (CrcMismatch expected actual).
Proof.
  apply (decode_rejects_burst state_transition_record _ (seg (enc_record state_transition_record true) 54 3));
    [by_compute|vm_compute; reflexivity|by_compute|by_compute|vm_compute; reflexivity|by_compute|].
  vm_compute. discriminate.
Defined.
