(* ===== verification/Control.v ===== *)
(** * Shared-memory control block (crates/carriage/src/control.rs)

    The 88-byte little-endian image of the producer's published state and the
    seqlock checks a consumer applies before it trusts a snapshot. *)
From S2P Require Import Prelude.

Definition CONTROL_BLOCK_LEN : usize := 88.
Definition CONTROL_BLOCK_SYNC : bytes := [0x4F; 0x4F; 0x54; 0x32].

Definition OFF_SYNC : usize := 0.
Definition OFF_VERSION : usize := 4.
Definition OFF_CAPS : usize := 5.
Definition OFF_RESERVED : usize := 6.
Definition OFF_BUFFER_ID : usize := 8.
Definition OFF_BUFFER_BYTES : usize := 12.
Definition OFF_SEQ_LOCK : usize := 16.
Definition OFF_RESERVED2 : usize := 20.
Definition OFF_HEAD_ABS : usize := 24.
Definition OFF_OLDEST_ABS : usize := 32.
Definition OFF_LOST_COUNT : usize := 40.
Definition OFF_RUN_ID : usize := 48.
Definition OFF_EPOCH_ID : usize := 56.
Definition OFF_EPOCH_FIRST_ABS : usize := 64.
Definition OFF_DEFINITION_HASH : usize := 72.
Definition OFF_PREV_DEFINITION_HASH : usize := 80.

(** The two hashes are [[u8; 8]] arrays. *)
Record ControlBlockSnapshot := MkSnapshot {
  cb_version : u8;
  cb_caps : u8;
  cb_buffer_id : u32;
  cb_buffer_bytes : u32;
  cb_head_abs : u64;
  cb_oldest_abs : u64;
  cb_lost_count : u64;
  cb_run_id : u64;
  cb_epoch_id : u64;
  cb_epoch_first_abs : u64;
  cb_definition_hash : bytes;
  cb_prev_definition_hash : bytes;
}.

#[global] Instance ControlBlockSnapshot_eq_dec : EqDecision ControlBlockSnapshot.
Proof. solve_decision. Defined.

Inductive ControlBlockError :=
| CbTruncated (needed available : usize)
| CbWrongSync
| CbUpdating (seq_lock : u32)
| CbStaleSnapshot (first second : u32)
| CbReservedNonZero.

#[global] Instance ControlBlockError_eq_dec : EqDecision ControlBlockError.
Proof. solve_decision. Defined.

(** [write_u32], [write_u64]: [copy_from_slice] of the little-endian bytes. *)
Definition write_u32 {E} (bs : bytes) (o : usize) (v : u32) : res E bytes :=
  copy_from_slice bs o (to_le_bytes 4 v).
Definition write_u64 {E} (bs : bytes) (o : usize) (v : u64) : res E bytes :=
  copy_from_slice bs o (to_le_bytes 8 v).

(** [read_u32], [read_u64]: a slice of the right width, so [try_into] is infallible. *)
Definition cb_read_u32 {E} (bs : bytes) (o : usize) : res E u32 :=
  s ← slice bs o (o + 4)%nat; Ok (from_le_bytes s).
Definition cb_read_u64 {E} (bs : bytes) (o : usize) : res E u64 :=
  s ← slice bs o (o + 8)%nat; Ok (from_le_bytes s).

(** [ControlBlockSnapshot::encode]; the [assert!] on the lock is a panic. *)
Definition cb_encode (s : ControlBlockSnapshot) (seq_lock : u32) : res ControlBlockError bytes :=
  if negb (Z.even seq_lock) then Panic else
  b ← copy_from_slice (replicate CONTROL_BLOCK_LEN 0) OFF_SYNC CONTROL_BLOCK_SYNC;
  b ← store b OFF_VERSION (cb_version s);
  b ← store b OFF_CAPS (cb_caps s);
  b ← write_u32 b OFF_BUFFER_ID (cb_buffer_id s);
  b ← write_u32 b OFF_BUFFER_BYTES (cb_buffer_bytes s);
  b ← write_u32 b OFF_SEQ_LOCK seq_lock;
  b ← write_u64 b OFF_HEAD_ABS (cb_head_abs s);
  b ← write_u64 b OFF_OLDEST_ABS (cb_oldest_abs s);
  b ← write_u64 b OFF_LOST_COUNT (cb_lost_count s);
  b ← write_u64 b OFF_RUN_ID (cb_run_id s);
  b ← write_u64 b OFF_EPOCH_ID (cb_epoch_id s);
  b ← write_u64 b OFF_EPOCH_FIRST_ABS (cb_epoch_first_abs s);
  b ← copy_from_slice b OFF_DEFINITION_HASH (cb_definition_hash s);
  copy_from_slice b OFF_PREV_DEFINITION_HASH (cb_prev_definition_hash s).

Definition decode_with_locks (bs : bytes) (first second : u32)
  : res ControlBlockError ControlBlockSnapshot :=
  if decide (length bs < CONTROL_BLOCK_LEN)%nat
  then Err (CbTruncated CONTROL_BLOCK_LEN (length bs)) else
  sync ← slice bs OFF_SYNC (OFF_SYNC + 4)%nat;
  if decide (sync ≠ CONTROL_BLOCK_SYNC) then Err CbWrongSync else
  if negb (Z.even first) then Err (CbUpdating first) else
  if decide (first ≠ second) then Err (CbStaleSnapshot first second) else
  lock ← cb_read_u32 bs OFF_SEQ_LOCK;
  if decide (lock ≠ first) then Err (CbStaleSnapshot first lock) else
  r1 ← slice bs OFF_RESERVED (OFF_RESERVED + 2)%nat;
  r2 ← slice bs OFF_RESERVED2 (OFF_RESERVED2 + 4)%nat;
  if decide (r1 ≠ [0; 0]) then Err CbReservedNonZero else
  if decide (r2 ≠ [0; 0; 0; 0]) then Err CbReservedNonZero else
  dh ← slice bs OFF_DEFINITION_HASH (OFF_DEFINITION_HASH + 8)%nat;
  ph ← slice bs OFF_PREV_DEFINITION_HASH (OFF_PREV_DEFINITION_HASH + 8)%nat;
  version ← index bs OFF_VERSION;
  caps ← index bs OFF_CAPS;
  buffer_id ← cb_read_u32 bs OFF_BUFFER_ID;
  buffer_bytes ← cb_read_u32 bs OFF_BUFFER_BYTES;
  head_abs ← cb_read_u64 bs OFF_HEAD_ABS;
  oldest_abs ← cb_read_u64 bs OFF_OLDEST_ABS;
  lost_count ← cb_read_u64 bs OFF_LOST_COUNT;
  run_id ← cb_read_u64 bs OFF_RUN_ID;
  epoch_id ← cb_read_u64 bs OFF_EPOCH_ID;
  epoch_first_abs ← cb_read_u64 bs OFF_EPOCH_FIRST_ABS;
  Ok {| cb_version := version; cb_caps := caps; cb_buffer_id := buffer_id;
        cb_buffer_bytes := buffer_bytes; cb_head_abs := head_abs; cb_oldest_abs := oldest_abs;
        cb_lost_count := lost_count; cb_run_id := run_id; cb_epoch_id := epoch_id;
        cb_epoch_first_abs := epoch_first_abs; cb_definition_hash := dh;
        cb_prev_definition_hash := ph |}.

Definition overwrote_record_at (s : ControlBlockSnapshot) (record_abs : u64) : bool :=
  bool_decide (record_abs < cb_oldest_abs s).

(** ** Specification *)
Definition hash_wf (h : bytes) : Prop := bytes_ok h ∧ length h = 8%nat.

Definition snapshot_wf (s : ControlBlockSnapshot) : Prop :=
  is_u8 (cb_version s) ∧ is_u8 (cb_caps s) ∧ is_u32 (cb_buffer_id s) ∧ is_u32 (cb_buffer_bytes s)
  ∧ is_u64 (cb_head_abs s) ∧ is_u64 (cb_oldest_abs s) ∧ is_u64 (cb_lost_count s)
  ∧ is_u64 (cb_run_id s) ∧ is_u64 (cb_epoch_id s) ∧ is_u64 (cb_epoch_first_abs s)
  ∧ hash_wf (cb_definition_hash s) ∧ hash_wf (cb_prev_definition_hash s).

#[global] Instance snapshot_wf_dec s : Decision (snapshot_wf s).
Proof. unfold snapshot_wf, hash_wf. apply _. Defined.

(** The image, field by field at the documented offsets. *)
Definition cb_image (s : ControlBlockSnapshot) (seq_lock : u32) : bytes :=
  CONTROL_BLOCK_SYNC ++ [cb_version s] ++ [cb_caps s] ++ [0; 0]
    ++ to_le_bytes 4 (cb_buffer_id s) ++ to_le_bytes 4 (cb_buffer_bytes s)
    ++ to_le_bytes 4 seq_lock ++ [0; 0; 0; 0]
    ++ to_le_bytes 8 (cb_head_abs s) ++ to_le_bytes 8 (cb_oldest_abs s)
    ++ to_le_bytes 8 (cb_lost_count s) ++ to_le_bytes 8 (cb_run_id s)
    ++ to_le_bytes 8 (cb_epoch_id s) ++ to_le_bytes 8 (cb_epoch_first_abs s)
    ++ cb_definition_hash s ++ cb_prev_definition_hash s.

Lemma cb_encode_image s l :
  length (cb_definition_hash s) = 8%nat → length (cb_prev_definition_hash s) = 8%nat →
  Z.even l = true → cb_encode s l = Ok (cb_image s l).
Proof.
  intros H1 H2 Hl. unfold cb_encode. rewrite Hl.
  destruct s as [v c bi bb ha oa lc ri ei efa dh ph]. cbn [cb_definition_hash cb_prev_definition_hash] in *.
  do 8 (destruct dh as [|? dh]; [done|]). destruct dh; [|done].
  do 8 (destruct ph as [|? ph]; [done|]). destruct ph; [|done].
  reflexivity.
Qed.

(** The snapshot a reader assembles from the fields of an image. *)
Definition cb_at (bs : bytes) : ControlBlockSnapshot :=
  {| cb_version := from_le_bytes (seg bs 4 1); cb_caps := from_le_bytes (seg bs 5 1);
     cb_buffer_id := from_le_bytes (seg bs 8 4); cb_buffer_bytes := from_le_bytes (seg bs 12 4);
     cb_head_abs := from_le_bytes (seg bs 24 8); cb_oldest_abs := from_le_bytes (seg bs 32 8);
     cb_lost_count := from_le_bytes (seg bs 40 8); cb_run_id := from_le_bytes (seg bs 48 8);
     cb_epoch_id := from_le_bytes (seg bs 56 8); cb_epoch_first_abs := from_le_bytes (seg bs 64 8);
     cb_definition_hash := seg bs 72 8; cb_prev_definition_hash := seg bs 80 8 |}.

#[local] Arguments from_le_bytes : simpl never.
#[local] Arguments to_le_bytes : simpl never.

Lemma cb_read_u32_ok {E} bs o :
  (o + 4 ≤ length bs)%nat → cb_read_u32 (E:=E) bs o = Ok (from_le_bytes (seg bs o 4)).
Proof. intros. unfold cb_read_u32. rewrite slice_ok, ok_bind by lia. do 3 f_equal. lia. Qed.

Lemma cb_read_u64_ok {E} bs o :
  (o + 8 ≤ length bs)%nat → cb_read_u64 (E:=E) bs o = Ok (from_le_bytes (seg bs o 8)).
Proof. intros. unfold cb_read_u64. rewrite slice_ok, ok_bind by lia. do 3 f_equal. lia. Qed.

Lemma index_byte {E} bs o :
  (o < length bs)%nat → index (E:=E) bs o = Ok (from_le_bytes (seg bs o 1)).
Proof.
  intros Hl. destruct (index_lt (E:=E) bs o Hl) as (b & Hb & ->). rewrite (seg_S _ _ _ _ Hb).
  f_equal. change (from_le_bytes (b :: seg bs (S o) 0)) with (b + 256 * from_le_bytes (seg bs (S o) 0)).
  change (from_le_bytes (seg bs (S o) 0)) with 0. lia.
Qed.

Ltac off_lia :=
  unfold CONTROL_BLOCK_LEN, OFF_SYNC, OFF_VERSION, OFF_CAPS, OFF_RESERVED, OFF_BUFFER_ID,
    OFF_BUFFER_BYTES, OFF_SEQ_LOCK, OFF_RESERVED2, OFF_HEAD_ABS, OFF_OLDEST_ABS, OFF_LOST_COUNT,
    OFF_RUN_ID, OFF_EPOCH_ID, OFF_EPOCH_FIRST_ABS, OFF_DEFINITION_HASH, OFF_PREV_DEFINITION_HASH in *;
  lia.

(** Every guard of [decode_with_locks], in order, over the fields. *)
Lemma decode_with_locks_eq bs f g :
  (88 ≤ length bs)%nat →
  decode_with_locks bs f g =
    if decide (seg bs 0 4 ≠ CONTROL_BLOCK_SYNC) then Err CbWrongSync else
    if negb (Z.even f) then Err (CbUpdating f) else
    if decide (f ≠ g) then Err (CbStaleSnapshot f g) else
    if decide (from_le_bytes (seg bs 16 4) ≠ f)
    then Err (CbStaleSnapshot f (from_le_bytes (seg bs 16 4))) else
    if decide (seg bs 6 2 ≠ [0; 0]) then Err CbReservedNonZero else
    if decide (seg bs 20 4 ≠ [0; 0; 0; 0]) then Err CbReservedNonZero else Ok (cb_at bs).
Proof.
  intros Hl. unfold decode_with_locks.
  rewrite decide_False by off_lia.
  rewrite (slice_ok bs OFF_SYNC (OFF_SYNC + 4) ltac:(lia) ltac:(off_lia)), ok_bind.
  change (seg bs OFF_SYNC (OFF_SYNC + 4 - OFF_SYNC)) with (seg bs 0 4).
  case_decide; [done|]. case_match; [done|]. case_decide; [done|].
  rewrite (cb_read_u32_ok bs OFF_SEQ_LOCK), ok_bind by off_lia.
  change OFF_SEQ_LOCK with 16%nat. case_decide; [done|].
  rewrite (slice_ok bs OFF_RESERVED (OFF_RESERVED + 2) ltac:(lia) ltac:(off_lia)), ok_bind.
  rewrite (slice_ok bs OFF_RESERVED2 (OFF_RESERVED2 + 4) ltac:(lia) ltac:(off_lia)), ok_bind.
  change (seg bs OFF_RESERVED (OFF_RESERVED + 2 - OFF_RESERVED)) with (seg bs 6 2).
  change (seg bs OFF_RESERVED2 (OFF_RESERVED2 + 4 - OFF_RESERVED2)) with (seg bs 20 4).
  case_decide; [done|]. case_decide; [done|].
  rewrite (slice_ok bs OFF_DEFINITION_HASH (OFF_DEFINITION_HASH + 8) ltac:(lia) ltac:(off_lia)), ok_bind.
  rewrite (slice_ok bs OFF_PREV_DEFINITION_HASH (OFF_PREV_DEFINITION_HASH + 8) ltac:(lia) ltac:(off_lia)), ok_bind.
  unfold OFF_VERSION, OFF_CAPS, OFF_BUFFER_ID, OFF_BUFFER_BYTES, OFF_HEAD_ABS, OFF_OLDEST_ABS,
    OFF_LOST_COUNT, OFF_RUN_ID, OFF_EPOCH_ID, OFF_EPOCH_FIRST_ABS.
  by rewrite !index_byte, !cb_read_u32_ok, !cb_read_u64_ok, !ok_bind by off_lia.
Qed.

Lemma length_cb_image s l :
  snapshot_wf s → length (cb_image s l) = 88%nat.
Proof.
  intros (_&_&_&_&_&_&_&_&_&_&[_ Hd]&[_ Hp]). unfold cb_image.
  rewrite !length_app, !length_to_le_bytes, Hd, Hp. done.
Qed.

(** One step of the walk, the two hashes being 8 bytes long. *)
Ltac field_step Hd Hp :=
    first [ rewrite (seg_prefix _ _ _ (eq_sym Hd)) | rewrite (seg_prefix _ _ _ (eq_sym Hp))
          | rewrite seg_app_r by (rewrite ?Hd; cbn [length]; lia); rewrite Hd; cbn [Nat.sub]
          | seg_step ].

(** The fields of an image, read back. *)
Lemma cb_image_fields s l rest :
  snapshot_wf s → is_u32 l →
  let bs := cb_image s l ++ rest in
  seg bs 0 4 = CONTROL_BLOCK_SYNC ∧ from_le_bytes (seg bs 16 4) = l ∧ seg bs 6 2 = [0; 0]
  ∧ seg bs 20 4 = [0; 0; 0; 0] ∧ cb_at bs = s.
Proof.
  intros (H1&H2&H3&H4&H5&H6&H7&H8&H9&H10&[_ Hd]&[_ Hp]) Hl. cbv zeta.
  destruct s as [v c bi bb ha oa lc ri ei efa dh ph]. cbn in H1,H2,H3,H4,H5,H6,H7,H8,H9,H10,Hd,Hp.
  unfold cb_image, cb_at, CONTROL_BLOCK_SYNC. rewrite <-!app_assoc.
  cbn [cb_version cb_caps cb_buffer_id cb_buffer_bytes cb_head_abs cb_oldest_abs cb_lost_count
       cb_run_id cb_epoch_id cb_epoch_first_abs cb_definition_hash cb_prev_definition_hash].
  split_and!; [| | | |f_equal]; repeat field_step Hd Hp; try done;
    try (by apply (from_to_le_bytes 4)); try (by apply (from_to_le_bytes 8));
    unfold from_le_bytes; lia.
Qed.

(** Conversely the fields determine the first 88 bytes. *)
Lemma cb_image_at bs :
  bytes_ok bs → (88 ≤ length bs)%nat →
  seg bs 0 4 = CONTROL_BLOCK_SYNC → seg bs 6 2 = [0; 0] → seg bs 20 4 = [0; 0; 0; 0] →
  snapshot_wf (cb_at bs) ∧ cb_image (cb_at bs) (from_le_bytes (seg bs 16 4)) = take 88 bs.
Proof.
  intros Hok Hl Hs Hr1 Hr2.
  pose proof (λ o m H, proj2 (le_fields bs o m Hok H)) as Hf.
  pose proof (λ o m H, proj1 (le_fields bs o m Hok H)) as Hb. split.
  - unfold snapshot_wf, cb_at, hash_wf. cbn.
    split_and!; [apply (Hb 4%nat 1%nat)|apply (Hb 5%nat 1%nat)|apply (Hb 8%nat 4%nat)
      |apply (Hb 12%nat 4%nat)|apply (Hb 24%nat 8%nat)|apply (Hb 32%nat 8%nat)|apply (Hb 40%nat 8%nat)
      |apply (Hb 48%nat 8%nat)|apply (Hb 56%nat 8%nat)|apply (Hb 64%nat 8%nat)
      |by apply bytes_ok_seg|apply length_seg|by apply bytes_ok_seg|apply length_seg]; lia.
  - assert (Hone : ∀ o, (o < length bs)%nat → [from_le_bytes (seg bs o 1)] = seg bs o 1).
    { intros o Ho. destruct (lookup_lt_is_Some_2 bs o Ho) as [b Hb'].
      rewrite (seg_S _ _ _ _ Hb'). cbn. f_equal. change (b + 0 = b). lia. }
    unfold cb_image, cb_at.
    cbn [cb_version cb_caps cb_buffer_id cb_buffer_bytes cb_head_abs cb_oldest_abs cb_lost_count
       cb_run_id cb_epoch_id cb_epoch_first_abs cb_definition_hash cb_prev_definition_hash].
    rewrite <-Hs, <-Hr2, <-Hr1, !Hone by lia.
    rewrite (Hf 8%nat 4%nat), (Hf 12%nat 4%nat), (Hf 16%nat 4%nat), (Hf 24%nat 8%nat),
      (Hf 32%nat 8%nat), (Hf 40%nat 8%nat), (Hf 48%nat 8%nat), (Hf 56%nat 8%nat), (Hf 64%nat 8%nat) by lia.
    change (take 88 bs) with (seg bs 0 (4 + (1 + (1 + (2 + (4 + (4 + (4 + (4
      + (8 + (8 + (8 + (8 + (8 + (8 + (8 + 8))))))))))))))))%nat.
    by rewrite !seg_split.
Qed.

Lemma decode_image s l rest :
  snapshot_wf s → is_u32 l → Z.even l = true → decode_with_locks (cb_image s l ++ rest) l l = Ok s.
Proof.
  intros Hw Hl He. rewrite decode_with_locks_eq by (rewrite length_app, length_cb_image; [lia|done]).
  destruct (cb_image_fields s l rest Hw Hl) as (-> & -> & -> & -> & ->). by rewrite He, !decide_False by naive_solver.
Qed.

(** ** Properties *)

(** C35: [decode_with_locks] accepts exactly the stable images: it returns [s]
    if and only if the two observed locks agree on an even value, [s] is well
    formed and the first 88 bytes are what [encode] writes for [s] under that
    very lock, reserved bytes zero. *)
Theorem control_decode_iff bs f g s :
  bytes_ok bs → is_u32 f →
  decode_with_locks bs f g = Ok s ↔
  Z.even f = true ∧ f = g ∧ snapshot_wf s ∧ cb_encode s f = Ok (take 88 bs).
Proof.
  intros Hok Hf. assert (Henc : Z.even f = true → snapshot_wf s → cb_encode s f = Ok (take 88 bs) ↔ take 88 bs = cb_image s f).
  { intros He (_&_&_&_&_&_&_&_&_&_&[_ Hd]&[_ Hp]). rewrite cb_encode_image by done. split; [by intros [= <-]|by intros ->]. }
  split.
  - intros Hd. assert (Hl : (88 ≤ length bs)%nat).
    { unfold decode_with_locks, CONTROL_BLOCK_LEN in Hd. case_decide; [done|lia]. }
    rewrite decode_with_locks_eq in Hd by done.
    repeat case_decide || case_match; simplify_eq.
    destruct (cb_image_at bs) as [Hw Himg]; [done..|].
    match goal with H : negb _ = false |- _ => apply negb_false_iff in H as He end. split_and!; [done..|]. by apply Henc.
  - intros (He & <- & Hw & Ht). apply Henc in Ht; [|done..]. pose proof (length_cb_image s f Hw) as Hlen.
    rewrite <-Ht, length_take in Hlen. rewrite decode_with_locks_eq by lia.
    destruct (cb_image_fields s f (drop 88 bs) Hw Hf) as (F0 & F16 & F6 & F20 & Fs).
    rewrite <-Ht, take_drop in *. rewrite F0, F16, F6, F20, Fs, He. by rewrite !decide_False by naive_solver.
Qed.

Definition example_snapshot : ControlBlockSnapshot :=
  {| cb_version := 2; cb_caps := 1; cb_buffer_id := 7; cb_buffer_bytes := 4096; cb_head_abs := 960;
     cb_oldest_abs := 120; cb_lost_count := 3; cb_run_id := 5; cb_epoch_id := 2;
     cb_epoch_first_abs := 60; cb_definition_hash := [1; 2; 3; 4; 5; 6; 7; 8];
     cb_prev_definition_hash := replicate 8 0 |}.

Lemma control_decode_iff_witness :
  decode_with_locks (cb_image example_snapshot 6 ++ [9; 9]) 6 6 = Ok example_snapshot ↔
  Z.even 6 = true ∧ 6 = 6 ∧ snapshot_wf example_snapshot
    ∧ cb_encode example_snapshot 6 = Ok (take 88 (cb_image example_snapshot 6 ++ [9; 9])).
Proof. apply control_decode_iff; by_compute. Defined.

(** The seqlock protocol of the image: [encode] panics on an odd lock and
    otherwise writes 88 bytes that decode to the same snapshot under that lock;
    any other pair of observed locks is refused, an odd one as [Updating], two
    different ones and an equal pair that is not the embedded lock as
    [StaleSnapshot]. *)
Theorem control_seqlock s l f g rest :
  snapshot_wf s → is_u32 l →
  (Z.even l = false → cb_encode s l = Panic) ∧
  (Z.even l = true →
   ∃ img, cb_encode s l = Ok img ∧ length img = 88%nat ∧
     decode_with_locks (img ++ rest) f g =
       if Z.odd f then Err (CbUpdating f)
       else if decide (f ≠ g) then Err (CbStaleSnapshot f g)
       else if decide (l ≠ f) then Err (CbStaleSnapshot f l) else Ok s).
Proof.
  intros Hw Hl. split; [intros He; unfold cb_encode; by rewrite He|]. intros He.
  exists (cb_image s l). pose proof Hw as (_&_&_&_&_&_&_&_&_&_&[_ Hd]&[_ Hp]).
  split_and!; [by apply cb_encode_image|by apply length_cb_image|].
  rewrite decode_with_locks_eq by (rewrite length_app, length_cb_image; [lia|done]).
  destruct (cb_image_fields s l rest Hw Hl) as (-> & -> & -> & -> & ->).
  rewrite Z.negb_even. rewrite (decide_False (P:=CONTROL_BLOCK_SYNC ≠ _)) by naive_solver.
  case_match; [done|]. case_decide; [done|]. by case_decide.
Qed.

Lemma control_seqlock_witness :
  ∃ img, cb_encode example_snapshot 6 = Ok img ∧ length img = 88%nat ∧
     decode_with_locks (img ++ []) 8 8 = Err (CbStaleSnapshot 8 6).
Proof. apply (control_seqlock example_snapshot 6 8 8 []); [by_compute..|reflexivity]. Defined.
