(* ===== verification/Registry.v ===== *)
(** * Registry of ids (crates/carriage/src/registry.rs)

    The event, field, TLV-type, unit and enum catalogues, transcribed entry by
    entry, with the lookups and the range predicates of the source. *)
From stdpp Require Import strings.
From S2P Require Import Prelude.
#[local] Open Scope string_scope.
#[local] Open Scope Z_scope.

(** ** Ids *)
Definition SYSTEM_SOURCE_ID : u32 := 0.
Definition EVENT_RANGE_BASE : u32 * u32 := (0x00000001, 0x000000FF).
Definition EVENT_RANGE_SYSTEM : u32 * u32 := (0x00000100, 0x000001FF).
Definition EVENT_RANGE_CONDITION : u32 * u32 := (0x00000200, 0x000002FF).
Definition EVENT_RANGE_PROCEDURAL : u32 * u32 := (0x00000300, 0x000003FF).
Definition EVENT_RANGE_REGULATED : u32 * u32 := (0x00000400, 0x000004FF).
Definition EVENT_RANGE_VENDOR : u32 * u32 := (0x80000000, 0xFFFFFFFF).
Definition EVENT_STATE_TRANSITION : u32 := 0x0001.
Definition EVENT_VALUE_CHANGED : u32 := 0x0002.
Definition EVENT_MESSAGE : u32 := 0x0003.
Definition EVENT_HEARTBEAT : u32 := 0x0100.
Definition EVENT_LOGGER_STARTED : u32 := 0x0101.
Definition EVENT_LOGGER_STOPPED : u32 := 0x0102.
Definition EVENT_BUFFER_CLEARED : u32 := 0x0103.
Definition EVENT_RECORDS_DROPPED : u32 := 0x0104.
Definition EVENT_SOURCE_REGISTERED : u32 := 0x0105.
Definition EVENT_DEFINITION_CHANGED : u32 := 0x0106.
Definition EVENT_TIME_SYNC_CHANGED : u32 := 0x0107.
Definition EVENT_SOURCE_HIGH_WATER : u32 := 0x0108.
Definition EVENT_CONDITION_ACTIVE : u32 := 0x0200.
Definition EVENT_CONDITION_CLEARED : u32 := 0x0201.
Definition EVENT_CONDITION_ACKNOWLEDGED : u32 := 0x0202.
Definition EVENT_CONDITION_CONFIRMED : u32 := 0x0203.
Definition EVENT_CONDITION_SHELVED : u32 := 0x0204.
Definition EVENT_CONDITION_UNSHELVED : u32 := 0x0205.
Definition EVENT_CONDITION_SUPPRESSED : u32 := 0x0206.
Definition EVENT_CONDITION_UNSUPPRESSED : u32 := 0x0207.
Definition EVENT_CONDITION_OUT_OF_SERVICE : u32 := 0x0208.
Definition EVENT_CONDITION_IN_SERVICE : u32 := 0x0209.
Definition EVENT_CONDITION_COMMENTED : u32 := 0x020A.
Definition EVENT_CONDITION_RESET : u32 := 0x020B.
Definition EVENT_CONDITION_PRIORITY_CHANGED : u32 := 0x020C.
Definition EVENT_REFRESH_START : u32 := 0x020D.
Definition EVENT_REFRESH_END : u32 := 0x020E.
Definition EVENT_RECIPE_LOADED : u32 := 0x0301.
Definition EVENT_RECIPE_APPROVED : u32 := 0x0302.
Definition EVENT_BATCH_EVENT : u32 := 0x0303.
Definition EVENT_MATERIAL_ADDITION : u32 := 0x0304.
Definition EVENT_OPERATOR_ACTION : u32 := 0x0400.
Definition EVENT_OPERATOR_LOGIN : u32 := 0x0401.
Definition EVENT_OPERATOR_LOGOUT : u32 := 0x0402.
Definition EVENT_PARAMETER_CHANGE : u32 := 0x0403.
Definition EVENT_ESIGNATURE : u32 := 0x0404.
Definition EVENT_SECURITY_ACCESS_FAILURE : u32 := 0x0405.
Definition EVENT_PROGRAM_DOWNLOAD : u32 := 0x0406.
Definition KEY_STATE_MACHINE_ID : u16 := 0x0001.
Definition KEY_CATEGORY : u16 := 0x0002.
Definition KEY_PREVIOUS_STATE : u16 := 0x0003.
Definition KEY_NEW_STATE : u16 := 0x0004.
Definition KEY_CONDITION_ID : u16 := 0x0005.
Definition KEY_CONDITION_CLASS : u16 := 0x0006.
Definition KEY_CORRELATION_ID : u16 := 0x0007.
Definition KEY_SEVERITY : u16 := 0x0008.
Definition KEY_CAUSE_OPERAND : u16 := 0x0009.
Definition KEY_ACTION_ID : u16 := 0x000A.
Definition KEY_ACTOR : u16 := 0x000B.
Definition KEY_CONTEXT_REF : u16 := 0x000C.
Definition KEY_VALUE_ID : u16 := 0x000D.
Definition KEY_DATA_TYPE_RESERVED : u16 := 0x000E.
Definition KEY_PREVIOUS_VALUE : u16 := 0x000F.
Definition KEY_NEW_VALUE : u16 := 0x0010.
Definition KEY_QUALITY : u16 := 0x0011.
Definition KEY_SEMANTIC_ROLE : u16 := 0x0012.
Definition KEY_UNIT : u16 := 0x0013.
Definition KEY_MESSAGE_TEMPLATE_ID : u16 := 0x0014.
Definition KEY_ARG : u16 := 0x0015.
Definition KEY_COUNT : u16 := 0x0016.
Definition KEY_DROPPED_COUNT : u16 := KEY_COUNT.
Definition KEY_FIRST_LOST_SEQ : u16 := 0x0017.
Definition KEY_LAST_LOST_SEQ : u16 := 0x0018.
Definition KEY_WINDOW_START : u16 := 0x0019.
Definition KEY_WINDOW_END : u16 := 0x001A.
Definition KEY_SOURCE_PATH : u16 := 0x001B.
Definition KEY_DEF_HASH_NEW : u16 := 0x001C.
Definition KEY_ACK_BY : u16 := 0x001D.
Definition KEY_SHELVE_SECS : u16 := 0x001E.
Definition KEY_REASON : u16 := 0x001F.
Definition KEY_AUTH_RESULT : u16 := 0x0020.
Definition KEY_WORKSTATION : u16 := 0x0021.
Definition KEY_SIGNATURE_MEANING : u16 := 0x0022.
Definition KEY_RECIPE_ID : u16 := 0x0023.
Definition KEY_RECIPE_VERSION : u16 := 0x0024.
Definition KEY_BATCH_ID : u16 := 0x0025.
Definition KEY_MATERIAL_ID : u16 := 0x0026.
Definition KEY_QUANTITY : u16 := 0x0027.
Definition KEY_PROGRAM_ID : u16 := 0x0028.
Definition KEY_REGISTERED_SOURCE_ID : u16 := 0x0029.
Definition KEY_INTERVAL_MS : u16 := 0x002A.
Definition KEY_SEQ_BASE : u16 := 0x002B.
Definition KEY_NEW_PRIORITY : u16 := 0x002C.
Definition KEY_RESERVED_002D : u16 := 0x002D.
Definition KEY_PREVIOUS_PRIORITY : u16 := 0x002E.
Definition KEY_SIGNED_EVENT_SEQ : u16 := 0x002F.
Definition KEY_EFFECTIVE_TIME : u16 := 0x0030.
Definition KEY_CORRECTION_OF : u16 := 0x0031.
Definition KEY_CLOCK_QUALITY : u16 := 0x0032.
Definition KEY_ROLE : u16 := 0x0033.
Definition KEY_REFRESH_ID : u16 := 0x0034.
Definition KEY_GROUP_ID : u16 := 0x0035.
Definition KEY_FIRST_IN_GROUP : u16 := 0x0036.
Definition KEY_COMMENT : u16 := 0x0037.
Definition KEY_PRODUCED_COUNT : u16 := 0x0038.
Definition KEY_SOURCE_HIGH_WATER : u16 := KEY_PRODUCED_COUNT.
Definition KEY_DEF_HASH_OLD : u16 := 0x0039.
Definition KEY_EPOCH_ID : u16 := 0x003A.
Definition KEY_COLD_START : u16 := 0x003B.
Definition TY_BOOL : u8 := 0x00.
Definition TY_SINT : u8 := 0x01.
Definition TY_USINT : u8 := 0x02.
Definition TY_UINT : u8 := 0x03.
Definition TY_INT : u8 := 0x04.
Definition TY_UDINT : u8 := 0x05.
Definition TY_DINT : u8 := 0x06.
Definition TY_ULINT : u8 := 0x07.
Definition TY_LINT : u8 := 0x08.
Definition TY_REAL : u8 := 0x09.
Definition TY_LREAL : u8 := 0x0A.
Definition TY_DATE_TIME : u8 := 0x0B.
Definition TY_STRING : u8 := 0x0C.
Definition TY_BYTES : u8 := 0x0D.

(** ** Entry types *)
Inductive EventGroup := Base | System | Condition | Procedural | Regulated.

Record EventSpec := MkEventSpec {
  es_id : u32;
  es_name : string;
  es_group : EventGroup;
}.

Inductive FieldKind :=
| Fixed (ty : u8)
| ValuePayload
| Reserved.

Record FieldSpec := MkFieldSpec {
  fs_key : u16;
  fs_name : string;
  fs_kind : FieldKind;
  fs_repeatable : bool;
}.

Record TlvTypeSpec := MkTlvTypeSpec {
  ts_code : u8;
  ts_name : string;
  ts_fixed_width : option usize;
}.

Record UnitSpec := MkUnitSpec {
  us_unit_id : u16;
  us_symbol : string;
  us_name : string;
}.

Record EnumValue := MkEnumValue {
  ev_value : u16;
  ev_label : string;
}.

Inductive SeverityBand := Low | Medium | High.

Record ProceduralModelSpec := MkProceduralModelSpec {
  pm_name : string;
  pm_states : list EnumValue;
}.

#[global] Instance EventGroup_eq_dec : EqDecision EventGroup.
Proof. solve_decision. Defined.
#[global] Instance EventSpec_eq_dec : EqDecision EventSpec.
Proof. solve_decision. Defined.
#[global] Instance FieldKind_eq_dec : EqDecision FieldKind.
Proof. solve_decision. Defined.
#[global] Instance FieldSpec_eq_dec : EqDecision FieldSpec.
Proof. solve_decision. Defined.
#[global] Instance TlvTypeSpec_eq_dec : EqDecision TlvTypeSpec.
Proof. solve_decision. Defined.
#[global] Instance UnitSpec_eq_dec : EqDecision UnitSpec.
Proof. solve_decision. Defined.
#[global] Instance EnumValue_eq_dec : EqDecision EnumValue.
Proof. solve_decision. Defined.
#[global] Instance SeverityBand_eq_dec : EqDecision SeverityBand.
Proof. solve_decision. Defined.

Definition field (key : u16) (name : string) (kind : FieldKind) (repeatable : bool) : FieldSpec :=
  {| fs_key := key; fs_name := name; fs_kind := kind; fs_repeatable := repeatable |}.
Definition ty (code : u8) (name : string) (fixed_width : option usize) : TlvTypeSpec :=
  {| ts_code := code; ts_name := name; ts_fixed_width := fixed_width |}.
Definition unit_ (unit_id : u16) (symbol name : string) : UnitSpec :=
  {| us_unit_id := unit_id; us_symbol := symbol; us_name := name |}.
Definition ev (value : u16) (label : string) : EnumValue :=
  {| ev_value := value; ev_label := label |}.

(** ** Catalogues *)
Definition EVENT_SPECS_BASE : list EventSpec := [
  {| es_id := EVENT_STATE_TRANSITION; es_name := "StateTransition"; es_group := Base |};
  {| es_id := EVENT_VALUE_CHANGED; es_name := "ValueChanged"; es_group := Base |};
  {| es_id := EVENT_MESSAGE; es_name := "Message"; es_group := Base |}].
Definition EVENT_SPECS_SYSTEM : list EventSpec := [
  {| es_id := EVENT_HEARTBEAT; es_name := "Heartbeat"; es_group := System |};
  {| es_id := EVENT_LOGGER_STARTED; es_name := "LoggerStarted"; es_group := System |};
  {| es_id := EVENT_LOGGER_STOPPED; es_name := "LoggerStopped"; es_group := System |};
  {| es_id := EVENT_BUFFER_CLEARED; es_name := "BufferCleared"; es_group := System |};
  {| es_id := EVENT_RECORDS_DROPPED; es_name := "RecordsDropped"; es_group := System |};
  {| es_id := EVENT_SOURCE_REGISTERED; es_name := "SourceRegistered"; es_group := System |};
  {| es_id := EVENT_DEFINITION_CHANGED; es_name := "DefinitionChanged"; es_group := System |};
  {| es_id := EVENT_TIME_SYNC_CHANGED; es_name := "TimeSyncChanged"; es_group := System |};
  {| es_id := EVENT_SOURCE_HIGH_WATER; es_name := "SourceHighWater"; es_group := System |}].
Definition EVENT_SPECS_CONDITION : list EventSpec := [
  {| es_id := EVENT_CONDITION_ACTIVE; es_name := "ConditionActive"; es_group := Condition |};
  {| es_id := EVENT_CONDITION_CLEARED; es_name := "ConditionCleared"; es_group := Condition |};
  {| es_id := EVENT_CONDITION_ACKNOWLEDGED; es_name := "ConditionAcknowledged"; es_group := Condition |};
  {| es_id := EVENT_CONDITION_CONFIRMED; es_name := "ConditionConfirmed"; es_group := Condition |};
  {| es_id := EVENT_CONDITION_SHELVED; es_name := "ConditionShelved"; es_group := Condition |};
  {| es_id := EVENT_CONDITION_UNSHELVED; es_name := "ConditionUnshelved"; es_group := Condition |};
  {| es_id := EVENT_CONDITION_SUPPRESSED; es_name := "ConditionSuppressed"; es_group := Condition |};
  {| es_id := EVENT_CONDITION_UNSUPPRESSED; es_name := "ConditionUnsuppressed"; es_group := Condition |};
  {| es_id := EVENT_CONDITION_OUT_OF_SERVICE; es_name := "ConditionOutOfService"; es_group := Condition |};
  {| es_id := EVENT_CONDITION_IN_SERVICE; es_name := "ConditionInService"; es_group := Condition |};
  {| es_id := EVENT_CONDITION_COMMENTED; es_name := "ConditionCommented"; es_group := Condition |};
  {| es_id := EVENT_CONDITION_RESET; es_name := "ConditionReset"; es_group := Condition |};
  {| es_id := EVENT_CONDITION_PRIORITY_CHANGED; es_name := "ConditionPriorityChanged"; es_group := Condition |};
  {| es_id := EVENT_REFRESH_START; es_name := "RefreshStart"; es_group := Condition |};
  {| es_id := EVENT_REFRESH_END; es_name := "RefreshEnd"; es_group := Condition |}].
Definition EVENT_SPECS_PROCEDURAL : list EventSpec := [
  {| es_id := EVENT_RECIPE_LOADED; es_name := "RecipeLoaded"; es_group := Procedural |};
  {| es_id := EVENT_RECIPE_APPROVED; es_name := "RecipeApproved"; es_group := Procedural |};
  {| es_id := EVENT_BATCH_EVENT; es_name := "BatchEvent"; es_group := Procedural |};
  {| es_id := EVENT_MATERIAL_ADDITION; es_name := "MaterialAddition"; es_group := Procedural |}].
Definition EVENT_SPECS_REGULATED : list EventSpec := [
  {| es_id := EVENT_OPERATOR_ACTION; es_name := "OperatorAction"; es_group := Regulated |};
  {| es_id := EVENT_OPERATOR_LOGIN; es_name := "OperatorLogin"; es_group := Regulated |};
  {| es_id := EVENT_OPERATOR_LOGOUT; es_name := "OperatorLogout"; es_group := Regulated |};
  {| es_id := EVENT_PARAMETER_CHANGE; es_name := "ParameterChange"; es_group := Regulated |};
  {| es_id := EVENT_ESIGNATURE; es_name := "ESignature"; es_group := Regulated |};
  {| es_id := EVENT_SECURITY_ACCESS_FAILURE; es_name := "SecurityAccessFailure"; es_group := Regulated |};
  {| es_id := EVENT_PROGRAM_DOWNLOAD; es_name := "ProgramDownload"; es_group := Regulated |}].
Definition EVENT_SPECS : list EventSpec :=
  EVENT_SPECS_BASE ++ EVENT_SPECS_SYSTEM ++ EVENT_SPECS_CONDITION ++ EVENT_SPECS_PROCEDURAL ++ EVENT_SPECS_REGULATED.

Definition FIELD_SPECS_1 : list FieldSpec := [
  field KEY_STATE_MACHINE_ID "stateMachineId" (Fixed TY_UDINT) false;
  field KEY_CATEGORY "category" (Fixed TY_UINT) false;
  field KEY_PREVIOUS_STATE "previousState" (Fixed TY_UINT) false;
  field KEY_NEW_STATE "newState" (Fixed TY_UINT) false;
  field KEY_CONDITION_ID "conditionId" (Fixed TY_UDINT) false;
  field KEY_CONDITION_CLASS "conditionClass" (Fixed TY_UINT) false;
  field KEY_CORRELATION_ID "correlationId" (Fixed TY_UDINT) false;
  field KEY_SEVERITY "severity" (Fixed TY_UINT) false;
  field KEY_CAUSE_OPERAND "causeOperand" (Fixed TY_UDINT) true;
  field KEY_ACTION_ID "actionId" (Fixed TY_UDINT) false;
  field KEY_ACTOR "actor" (Fixed TY_STRING) false;
  field KEY_CONTEXT_REF "contextRef" (Fixed TY_UDINT) true;
  field KEY_VALUE_ID "valueId" (Fixed TY_UDINT) false;
  field KEY_DATA_TYPE_RESERVED "dataType" Reserved false;
  field KEY_PREVIOUS_VALUE "previousValue" ValuePayload false;
  field KEY_NEW_VALUE "newValue" ValuePayload false;
  field KEY_QUALITY "quality" (Fixed TY_UINT) false;
  field KEY_SEMANTIC_ROLE "semanticRole" (Fixed TY_UINT) false;
  field KEY_UNIT "unit" (Fixed TY_UINT) false;
  field KEY_MESSAGE_TEMPLATE_ID "messageTemplateId" (Fixed TY_UDINT) false;
  field KEY_ARG "arg" ValuePayload true;
  field KEY_COUNT "count" (Fixed TY_UDINT) false;
  field KEY_FIRST_LOST_SEQ "firstLostSeq" (Fixed TY_ULINT) false;
  field KEY_LAST_LOST_SEQ "lastLostSeq" (Fixed TY_ULINT) false;
  field KEY_WINDOW_START "windowStart" (Fixed TY_DATE_TIME) false;
  field KEY_WINDOW_END "windowEnd" (Fixed TY_DATE_TIME) false;
  field KEY_SOURCE_PATH "sourcePath" (Fixed TY_STRING) false;
  field KEY_DEF_HASH_NEW "defHashNew" (Fixed TY_BYTES) false;
  field KEY_ACK_BY "ackBy" (Fixed TY_STRING) false;
  field KEY_SHELVE_SECS "shelveSecs" (Fixed TY_UDINT) false;
  field KEY_REASON "reason" (Fixed TY_STRING) false;
  field KEY_AUTH_RESULT "authResult" (Fixed TY_UINT) false;
  field KEY_WORKSTATION "workstation" (Fixed TY_STRING) false;
  field KEY_SIGNATURE_MEANING "signatureMeaning" (Fixed TY_UINT) false;
  field KEY_RECIPE_ID "recipeId" (Fixed TY_UDINT) false].
Definition FIELD_SPECS_2 : list FieldSpec := [
  field KEY_RECIPE_VERSION "recipeVersion" (Fixed TY_STRING) false;
  field KEY_BATCH_ID "batchId" (Fixed TY_UDINT) false;
  field KEY_MATERIAL_ID "materialId" (Fixed TY_UDINT) false;
  field KEY_QUANTITY "quantity" (Fixed TY_LREAL) false;
  field KEY_PROGRAM_ID "programId" (Fixed TY_UDINT) false;
  field KEY_REGISTERED_SOURCE_ID "registeredSourceId" (Fixed TY_UDINT) false;
  field KEY_INTERVAL_MS "intervalMs" (Fixed TY_UDINT) false;
  field KEY_SEQ_BASE "seqBase" (Fixed TY_ULINT) false;
  field KEY_NEW_PRIORITY "newPriority" (Fixed TY_UINT) false;
  field KEY_RESERVED_002D "reserved002D" Reserved false;
  field KEY_PREVIOUS_PRIORITY "previousPriority" (Fixed TY_UINT) false;
  field KEY_SIGNED_EVENT_SEQ "signedEventSeq" (Fixed TY_ULINT) false;
  field KEY_EFFECTIVE_TIME "effectiveTime" (Fixed TY_DATE_TIME) false;
  field KEY_CORRECTION_OF "correctionOf" (Fixed TY_ULINT) false;
  field KEY_CLOCK_QUALITY "clockQuality" (Fixed TY_UINT) false;
  field KEY_ROLE "role" (Fixed TY_UINT) false;
  field KEY_REFRESH_ID "refreshId" (Fixed TY_UDINT) false;
  field KEY_GROUP_ID "groupId" (Fixed TY_UDINT) false;
  field KEY_FIRST_IN_GROUP "firstInGroup" (Fixed TY_BOOL) false;
  field KEY_COMMENT "comment" (Fixed TY_STRING) false;
  field KEY_PRODUCED_COUNT "producedCount" (Fixed TY_ULINT) false;
  field KEY_DEF_HASH_OLD "defHashOld" (Fixed TY_BYTES) false;
  field KEY_EPOCH_ID "epochId" (Fixed TY_ULINT) false;
  field KEY_COLD_START "coldStart" (Fixed TY_BOOL) false].
Definition FIELD_SPECS : list FieldSpec := FIELD_SPECS_1 ++ FIELD_SPECS_2.

Definition TLV_TYPE_SPECS : list TlvTypeSpec := [
  ty TY_BOOL "Bool" (Some 1%nat);
  ty TY_SINT "SInt" (Some 1%nat);
  ty TY_USINT "USInt" (Some 1%nat);
  ty TY_UINT "UInt" (Some 2%nat);
  ty TY_INT "Int" (Some 2%nat);
  ty TY_UDINT "UDInt" (Some 4%nat);
  ty TY_DINT "DInt" (Some 4%nat);
  ty TY_ULINT "ULInt" (Some 8%nat);
  ty TY_LINT "LInt" (Some 8%nat);
  ty TY_REAL "Real" (Some 4%nat);
  ty TY_LREAL "LReal" (Some 8%nat);
  ty TY_DATE_TIME "DateTime" (Some 8%nat);
  ty TY_STRING "String" None;
  ty TY_BYTES "Bytes" None].
Definition UNIT_SPECS : list UnitSpec := [
  unit_ 1 "1" "count";
  unit_ 2 "L" "litre";
  unit_ 3 "degC" "degree Celsius";
  unit_ 4 "bar" "bar";
  unit_ 5 "rpm" "revolutions per minute";
  unit_ 6 "s" "second";
  unit_ 7 "ms" "millisecond";
  unit_ 8 "kg" "kilogram";
  unit_ 9 "m" "metre";
  unit_ 10 "%" "percent"].
Definition CATEGORY_VALUES : list EnumValue := [
ev 0 "ProcessState"; ev 1 "Mode"; ev 2 "Procedural"].
Definition CONDITION_CLASS_VALUES : list EnumValue := [
ev 0 "Alarm"; ev 1 "Interlock"].
Definition QUALITY_VALUES : list EnumValue := [
ev 0 "Good"; ev 1 "Uncertain"; ev 2 "Bad"; ev 3 "Unknown"].
Definition AUTH_RESULT_VALUES : list EnumValue := [
ev 0 "Granted"; ev 1 "Denied"; ev 2 "NotRequired"; ev 3 "Pending"; ev 4 "Expired"].
Definition SEMANTIC_ROLE_VALUES : list EnumValue := [
ev 0 "Actual"; ev 1 "Setpoint"; ev 2 "Command"; ev 3 "Count"; ev 4 "Position"; ev 5 "Status"].
Definition SIGNATURE_MEANING_VALUES : list EnumValue := [
ev 0 "Authored"; ev 1 "Reviewed"; ev 2 "Approved"; ev 3 "Verified"; ev 4 "Performed"; ev 5 "Witnessed"].
Definition CLOCK_QUALITY_VALUES : list EnumValue := [
ev 0 "Unknown"; ev 1 "FreeRunning"; ev 2 "Synced"; ev 3 "Holdover"].
Definition TIME_SYNC_STATE_VALUES : list EnumValue := [
ev 0 "Unsynced"; ev 1 "Synced"; ev 2 "SteppedForward"; ev 3 "SteppedBackward"].
Definition BATCH_STATE_VALUES : list EnumValue := [
ev 0 "Started"; ev 1 "Completed"; ev 2 "Held"; ev 3 "Resumed"; ev 4 "Aborted"; ev 5 "Paused"].
Definition PROCEDURAL_MODEL_A_STATES : list EnumValue := [
ev 0 "Idle"; ev 1 "Running"; ev 2 "Complete"; ev 3 "Pausing"; ev 4 "Paused"; ev 5 "Holding"; ev 6 "Held"; ev 7 "Restarting"; ev 8 "Stopping"; ev 9 "Stopped"; ev 10 "Aborting"; ev 11 "Aborted"].
Definition PROCEDURAL_MODEL_B_STATES : list EnumValue := [
ev 0 "Idle"; ev 1 "Starting"; ev 2 "Execute"; ev 3 "Completing"; ev 4 "Complete"; ev 5 "Holding"; ev 6 "Held"; ev 7 "Unholding"; ev 8 "Suspending"; ev 9 "Suspended"; ev 10 "Unsuspending"; ev 11 "Stopping"; ev 12 "Stopped"; ev 13 "Aborting"; ev 14 "Aborted"; ev 15 "Clearing"; ev 16 "Resetting"].
Definition PROCEDURAL_MODELS : list ProceduralModelSpec := [
  {| pm_name := "ISA-88"; pm_states := PROCEDURAL_MODEL_A_STATES |};
  {| pm_name := "PackML"; pm_states := PROCEDURAL_MODEL_B_STATES |}].

(** ** Lookups *)
Definition event_spec (id : u32) : option EventSpec :=
  List.find (λ spec, bool_decide (es_id spec = id)) EVENT_SPECS.
Definition field_spec (key : u16) : option FieldSpec :=
  List.find (λ spec, bool_decide (fs_key spec = key)) FIELD_SPECS.
Definition tlv_type_spec (code : u8) : option TlvTypeSpec :=
  List.find (λ spec, bool_decide (ts_code spec = code)) TLV_TYPE_SPECS.

(** [u8::to_ascii_lowercase], [str::eq_ignore_ascii_case]. *)
Definition to_ascii_lowercase (a : Ascii.ascii) : Ascii.ascii :=
  let n := Ascii.nat_of_ascii a in
  if decide (65 ≤ n ∧ n ≤ 90)%nat then Ascii.ascii_of_nat (n + 32) else a.
Fixpoint eq_ignore_ascii_case (s t : string) : bool :=
  match s, t with
  | EmptyString, EmptyString => true
  | String a s, String b t =>
      bool_decide (to_ascii_lowercase a = to_ascii_lowercase b) && eq_ignore_ascii_case s t
  | _, _ => false
  end.

Definition unit_spec_by_symbol (symbol : string) : option UnitSpec :=
  List.find (λ spec, eq_ignore_ascii_case (us_symbol spec) symbol) UNIT_SPECS.
Definition unit_spec (unit_id : u16) : option UnitSpec :=
  List.find (λ spec, bool_decide (us_unit_id spec = unit_id)) UNIT_SPECS.

Definition range_contains (range : u32 * u32) (id : u32) : bool :=
  bool_decide (range.1 ≤ id ≤ range.2).

Definition is_core_event_id (id : u32) : bool := Z.land id 0x80000000 =? 0.
Definition is_vendor_event_id (id : u32) : bool := range_contains EVENT_RANGE_VENDOR id.
Definition is_core_key (key : u16) : bool := bool_decide (0x0001 ≤ key ≤ 0x7FFF).
Definition is_vendor_key (key : u16) : bool := bool_decide (0x8000 ≤ key).

Definition severity_band (severity : u16) : option SeverityBand :=
  if decide (1 ≤ severity ≤ 332) then Some Low
  else if decide (333 ≤ severity ≤ 666) then Some Medium
  else if decide (667 ≤ severity ≤ 1000) then Some High
  else None.
(** ** Lookups are exact *)
Lemma find_unique {A} (key : A → Z) (l : list A) k x :
  NoDup (key <$> l) →
  List.find (λ s, bool_decide (key s = k)) l = Some x ↔ x ∈ l ∧ key x = k.
Proof.
  induction l as [|y l IH]; intros Hnd; [split; [done|]; by intros [?%not_elem_of_nil _]|].
  rewrite fmap_cons in Hnd. apply NoDup_cons in Hnd as [Hy Hnd]. cbn [List.find].
  case_bool_decide as Hk; [|rewrite IH, elem_of_cons by done; naive_solver].
  split; [intros [= <-]; by split; [left|]|].
  intros [Hx Heq]. apply elem_of_cons in Hx as [->|Hx]; [done|]. destruct Hy.
  apply list_elem_of_fmap. exists x. split; [congruence|done].
Qed.

(** The id range of a group. *)
Definition group_range (g : EventGroup) : u32 * u32 :=
  match g with
  | Base => EVENT_RANGE_BASE
  | System => EVENT_RANGE_SYSTEM
  | Condition => EVENT_RANGE_CONDITION
  | Procedural => EVENT_RANGE_PROCEDURAL
  | Regulated => EVENT_RANGE_REGULATED
  end.

(** Every [Fixed] kind names a catalogued TLV type. *)
Definition kind_ok (k : FieldKind) : Prop :=
  match k with Fixed t => is_Some (tlv_type_spec t) | _ => True end.

#[global] Instance kind_ok_dec k : Decision (kind_ok k).
Proof. destruct k; simpl; apply _. Defined.

(** ** Properties *)

(** The catalogues are collision-free and the lookups exact: each lookup
    returns an entry if and only if it is in the catalogue under that id, so no
    two events, fields, TLV types or units share an id; every event id lies in
    the range of its group, every key in the core range, and every fixed field
    type is a catalogued TLV type. *)
Theorem registry_exact :
  (∀ id s, event_spec id = Some s ↔ s ∈ EVENT_SPECS ∧ es_id s = id) ∧
  (∀ key s, field_spec key = Some s ↔ s ∈ FIELD_SPECS ∧ fs_key s = key) ∧
  (∀ code s, tlv_type_spec code = Some s ↔ s ∈ TLV_TYPE_SPECS ∧ ts_code s = code) ∧
  (∀ id s, unit_spec id = Some s ↔ s ∈ UNIT_SPECS ∧ us_unit_id s = id) ∧
  Forall (λ s, range_contains (group_range (es_group s)) (es_id s) = true) EVENT_SPECS ∧
  Forall (λ s, is_core_key (fs_key s) = true ∧ kind_ok (fs_kind s)) FIELD_SPECS.
Proof.
  split_and!; [intros; apply find_unique; by_compute..|by_compute|by_compute].
Qed.

(** The id spaces split as documented: a 32-bit event id is core exactly
    when its top bit is clear, hence exactly when it is not in the vendor
    range; a 16-bit key is core, vendor or the unused key zero, never two. *)
Theorem registry_partition id key :
  is_u32 id → is_u16 key →
  is_core_event_id id = negb (is_vendor_event_id id) ∧
  is_core_event_id id = bool_decide (id < 2 ^ 31) ∧
  (is_core_key key = true ∧ is_vendor_key key = false ∧ key ≠ 0 ∨
   is_core_key key = false ∧ is_vendor_key key = true ∧ key ≠ 0 ∨
   is_core_key key = false ∧ is_vendor_key key = false ∧ key = 0).
Proof.
  unfold fits. intros Hid Hkey.
  assert (Hcore : is_core_event_id id = bool_decide (id < 2 ^ 31)).
  { unfold is_core_event_id. change 0x80000000 with (2 ^ 31).
    assert (Hbit : Z.testbit id 31 = negb (bool_decide (id < 2 ^ 31))).
    { rewrite Z.testbit_eqb by lia. case_bool_decide.
      - by rewrite Z.div_small by lia.
      - by replace (id / 2 ^ 31) with 1 by (apply Z.div_unique with (r := id - 2 ^ 31); lia). }
    destruct (decide (id < 2 ^ 31)) as [Hlt|Hlt];
      [rewrite bool_decide_true in Hbit |- * by done|rewrite bool_decide_false in Hbit |- * by done];
      cbn [negb] in Hbit.
    - apply Z.eqb_eq, Z.bits_inj'. intros n Hn. rewrite Z.land_spec, Z.pow2_bits_eqb, Z.bits_0 by lia.
      destruct (Z.eqb_spec 31 n) as [<-|]; [by rewrite Hbit|by rewrite andb_false_r].
    - apply Z.eqb_neq. intros H0. apply (f_equal (λ z, Z.testbit z 31)) in H0.
      rewrite Z.land_spec, Hbit, Z.pow2_bits_true, Z.bits_0 in H0 by lia. done. }
  rewrite Hcore. split_and!; [|done|].
  - unfold is_vendor_event_id, range_contains, EVENT_RANGE_VENDOR. cbn [fst snd].
    case_bool_decide; case_bool_decide; try done; lia.
  - unfold is_core_key, is_vendor_key. repeat case_bool_decide; lia || naive_solver lia.
Qed.

Lemma registry_partition_witness :
  is_core_event_id 0x80000001 = negb (is_vendor_event_id 0x80000001) ∧
  is_core_event_id 0x80000001 = bool_decide (0x80000001 < 2 ^ 31) ∧
  (is_core_key 7 = true ∧ is_vendor_key 7 = false ∧ 7 ≠ 0 ∨
   is_core_key 7 = false ∧ is_vendor_key 7 = true ∧ 7 ≠ 0 ∨
   is_core_key 7 = false ∧ is_vendor_key 7 = false ∧ 7 = 0).
Proof. apply registry_partition; by_compute. Defined.

(** [severity_band] is defined exactly on 1..1000 and monotone there: the
    three bands are adjacent and cover the scale. *)
Theorem severity_band_total s :
  (is_Some (severity_band s) ↔ 1 ≤ s ≤ 1000) ∧
  (severity_band s = Some Low ↔ 1 ≤ s ≤ 332) ∧
  (severity_band s = Some Medium ↔ 333 ≤ s ≤ 666) ∧
  (severity_band s = Some High ↔ 667 ≤ s ≤ 1000).
Proof.
  unfold severity_band, is_Some. repeat case_decide; naive_solver lia.
Qed.
