(* ===== verification/Layout.v ===== *)
(** * Physical layout of records in a byte pool

    The specification both rings (the single-buffer ring of ring.rs and the
    concurrent store of concurrent.rs) are proved against: which records a walk
    over the pool meets between two absolute offsets, and that an overwrite
    outside that window leaves the walk alone. *)
From S2P Require Import Prelude Crc Wire.

(** ** Physical offsets *)
Definition phys (cap : nat) (abs : Z) : nat := Z.to_nat (abs mod Z.of_nat cap).

Section phys.
Context (cap : nat) (Hcap : (0 < cap)%nat).

Lemma phys_lt a : (phys cap a < cap)%nat.
Proof. unfold phys. pose proof (Z.mod_pos_bound a (Z.of_nat cap)). lia. Qed.

Lemma phys_add a i : (phys cap a + i < cap)%nat → phys cap (a + Z.of_nat i) = (phys cap a + i)%nat.
Proof.
  unfold phys. intros Hi. pose proof (Z.mod_pos_bound a (Z.of_nat cap) ltac:(lia)).
  rewrite Zplus_mod, (Z.mod_small (Z.of_nat i)), Z.mod_small by lia. lia.
Qed.

Lemma phys_wrap a : phys cap (a + Z.of_nat (cap - phys cap a)) = 0%nat.
Proof.
  pose proof (phys_lt a). unfold phys in *. pose proof (Z.mod_pos_bound a (Z.of_nat cap) ltac:(lia)).
  pose proof (Z.div_mod a (Z.of_nat cap) ltac:(lia)).
  replace (a + _) with ((a / Z.of_nat cap + 1) * Z.of_nat cap) by lia. by rewrite Z.mod_mul by lia.
Qed.

Lemma phys_inj x y : x ≤ y < x + Z.of_nat cap → phys cap x = phys cap y → x = y.
Proof.
  unfold phys. intros Hxy Heq.
  pose proof (Z.mod_pos_bound x (Z.of_nat cap) ltac:(lia)).
  pose proof (Z.mod_pos_bound y (Z.of_nat cap) ltac:(lia)).
  pose proof (Z.div_mod x (Z.of_nat cap) ltac:(lia)).
  pose proof (Z.div_mod y (Z.of_nat cap) ltac:(lia)).
  apply Z2Nat.inj in Heq; [|lia..]. set (n := Z.of_nat cap) in *. assert (0 < n) by lia.
  assert (y - x = n * (y / n - x / n)) by lia. assert (y / n - x / n = 0) by nia. lia.
Qed.
End phys.

(** ** Entries: a record at its absolute start *)
Record Entry := MkEntry { en_start : u64; en_rec : WireRecord }.

Definition en_bytes (e : Entry) : bytes := enc_record (en_rec e) true.
Definition en_len (e : Entry) : nat := length (en_bytes e).
Definition en_end (e : Entry) : u64 := en_start e + Z.of_nat (en_len e).

(** The record is encodable: its fields fit and it is not too long. *)
Definition encodable (r : WireRecord) : Prop :=
  record_wf r ∧ Z.of_nat (record_len (rec_slots r) true) ≤ U16_MAX.
Definition entry_ok (e : Entry) : Prop := encodable (en_rec e).

#[global] Instance encodable_dec r : Decision (encodable r).
Proof. unfold encodable. apply _. Defined.

(** What a reader gets back for a record: the CRC flag is set by the writer. *)
Definition stored (r : WireRecord) : WireRecord := with_flags r (crc_flags (rec_flags r) true).

Lemma encodable_encode r : encodable r → encode r true = Ok (enc_record r true).
Proof.
  intros [Hw Hl]. rewrite encode_eq, long_slot_wf by apply Hw. by rewrite decide_False by lia.
Qed.

Lemma encodable_decode r rest :
  encodable r →
  decode (enc_record r true ++ rest)
  = Ok {| dec_record := stored r; dec_consumed := length (enc_record r true) |}.
Proof.
  intros [Hw Hl]. by apply decode_enc_record.
Qed.

(** An integer slot is well formed. *)
Lemma slot_le_wf key ty n v :
  is_u16 key → is_u8 ty → (n ≤ 255)%nat →
  slot_wf {| slot_key := key; slot_ty := ty; slot_payload := to_le_bytes n v |}.
Proof.
  intros. split_and!; cbn [slot_key slot_ty slot_payload]; [done|done|apply to_le_bytes_ok|].
  by rewrite length_to_le_bytes.
Qed.

Lemma en_len_bounds e : entry_ok e → (44 ≤ en_len e)%nat ∧ Z.of_nat (en_len e) ≤ U16_MAX.
Proof.
  intros [_ Hl]. unfold en_len, en_bytes. rewrite length_enc_record.
  split; [|done]. unfold record_len, HEADER_LEN, CRC_LEN. lia.
Qed.

(** ** The walk

    [layout bs a es h]: a walk from absolute offset [a] meets exactly the
    records [es] and reaches [h]; a zero byte where a sync byte would be skips
    to the start of the pool. *)
Inductive layout (bs : bytes) : Z → list Entry → Z → Prop :=
| layout_nil a : layout bs a [] a
| layout_rec e es h :
    entry_ok e → (phys (length bs) (en_start e) + en_len e ≤ length bs)%nat →
    seg bs (phys (length bs) (en_start e)) (en_len e) = en_bytes e →
    layout bs (en_end e) es h → layout bs (en_start e) (e :: es) h
| layout_gap a e es h :
    phys (length bs) a ≠ 0%nat → bs !! phys (length bs) a = Some 0 →
    layout bs (a + Z.of_nat (length bs - phys (length bs) a)) (e :: es) h →
    layout bs a (e :: es) h.

Section layout.
Context (bs : bytes).
Abbreviation cap := (length bs).

Lemma layout_bounds a es h :
  layout bs a es h → a ≤ h ∧ Forall (λ e, a ≤ en_start e ∧ en_end e ≤ h) es.
Proof.
  induction 1 as [a|e es h Hok Hfit Hseg _ [IH1 IH2]|a e es h Hp Hb _ [IH1 IH2]].
  - by split; [lia|].
  - unfold en_end in *. split; [lia|]. constructor; [unfold en_end; lia|].
    eapply Forall_impl; [exact IH2|]. simpl. intros. lia.
  - split; [lia|]. eapply Forall_impl; [exact IH2|]. simpl. intros. lia.
Qed.

Lemma layout_ok a es h : layout bs a es h → Forall entry_ok es.
Proof. induction 1; auto. Qed.

(** A non-empty walk starts at its first record or at a gap before it. *)
Lemma layout_head a e es h :
  layout bs a (e :: es) h → a ≤ en_start e ∧ layout bs (en_start e) (e :: es) h.
Proof.
  remember (e :: es) as l eqn:Hl. intros H. revert e es Hl.
  induction H as [|e' es' h Hok Hfit Hseg Hrest|a e' es' h Hp Hb Hrest IH]; intros e es Hl; simplify_eq.
  - split; [lia|]. by apply layout_rec.
  - destruct (IH _ _ eq_refl). split; [lia|done].
Qed.

Context (Hcap : (0 < length bs)%nat).

(** A walk that starts at its first record takes it. *)
Lemma layout_inv a e es h :
  layout bs a (e :: es) h →
  (phys cap (en_start e) + en_len e ≤ cap)%nat ∧ seg bs (phys cap (en_start e)) (en_len e) = en_bytes e
  ∧ layout bs (en_end e) es h.
Proof.
  intros [_ H]%layout_head. pose proof (phys_lt cap Hcap (en_start e)) as Hlt.
  inversion H as [|? ? ? Hok Hfit Hseg Hrest|? ? ? ? Hp Hb Hrest]; [done|].
  apply layout_head in Hrest as [Hle _]. lia.
Qed.

Lemma layout_tail a e es h : layout bs a (e :: es) h → layout bs (en_end e) es h.
Proof. by intros (_ & _ & ?)%layout_inv. Qed.

Lemma layout_fit a e es h :
  layout bs a (e :: es) h →
  (phys cap (en_start e) + en_len e ≤ cap)%nat ∧ seg bs (phys cap (en_start e)) (en_len e) = en_bytes e.
Proof. by intros (? & ? & _)%layout_inv. Qed.

Lemma layout_app a es1 m es2 h :
  layout bs a es1 m → layout bs m es2 h → layout bs a (es1 ++ es2) h.
Proof.
  induction 1 as [|? ? ? ? ? ? ? IH|? ? ? ? ? ? ? IH]; intros Hm; simpl; [done| |].
  - apply layout_rec; auto.
  - apply layout_gap; auto.
Qed.

(** The first record of a suffix is where a walk over that suffix starts. *)
Lemma layout_suffix a es1 es2 h :
  layout bs a (es1 ++ es2) h → layout bs (from_option en_start h (head es2)) es2 h.
Proof.
  revert a. induction es1 as [|e es1 IH]; intros a H; simpl in H.
  - destruct es2 as [|e es2]; simpl; [constructor|]. by apply layout_head in H as [_ ?].
  - apply layout_tail in H. by eapply IH.
Qed.

(** The walk depends only on the bytes of its window. *)
Lemma layout_frame bs' a es h :
  length bs' = length bs →
  (∀ x, a ≤ x < h → bs' !! phys cap x = bs !! phys cap x) →
  layout bs a es h → layout bs' a es h.
Proof.
  intros Hlen Hag H. induction H as [|e es h Hok Hfit Hseg Hrest IH|a e es h Hp Hb Hrest IH].
  - constructor.
  - pose proof (layout_bounds _ _ _ Hrest) as [Hle _]. unfold en_end in Hle.
    apply layout_rec; [done|by rewrite Hlen| |].
    + rewrite Hlen, <-Hseg. apply seg_ext; [done|]. intros i Hi.
      replace i with (phys cap (en_start e) + (i - phys cap (en_start e)))%nat by lia.
      rewrite <-phys_add by lia. apply Hag. lia.
    + apply IH. intros x Hx. apply Hag. unfold en_end in *. lia.
  - pose proof (phys_lt cap Hcap a). pose proof (layout_bounds _ _ _ Hrest) as [Hle _].
    apply layout_gap; rewrite ?Hlen; [done| |].
    + rewrite Hag; [done|]. lia.
    + apply IH. intros x Hx. apply Hag. lia.
Qed.
End layout.

(** ** Placing a record *)

(** Where the next record of [len] bytes goes. *)
Definition place (cap : nat) (head : Z) (len : nat) : Z :=
  if decide (phys cap head = 0 ∨ phys cap head + len ≤ cap)%nat then head
  else head + Z.of_nat (cap - phys cap head).

(** The pool after the wrap marker, if any, and the record are written. *)
Definition overwrite (bs : bytes) (head start : Z) (enc : bytes) : bytes :=
  splice (if decide (start = head) then bs else <[phys (length bs) head := 0]> bs)
    (phys (length bs) start) enc.

Section place.
Context (cap : nat) (Hcap : (0 < cap)%nat).

Lemma place_spec head len :
  (len ≤ cap)%nat →
  let start := place cap head len in
  head ≤ start ≤ head + Z.of_nat cap ∧ (phys cap start + len ≤ cap)%nat
  ∧ (start = head ∨ phys cap head ≠ 0%nat ∧ start = head + Z.of_nat (cap - phys cap head)).
Proof.
  intros Hl. unfold place. case_decide as Hd; cbv zeta.
  - split_and!; [lia|lia| |by left]. destruct Hd as [->|]; lia.
  - split_and!; [lia|lia| |right; split; [tauto|done]]. rewrite phys_wrap by done. lia.
Qed.
End place.

Section overwrite.
Context (bs : bytes) (Hcap : (0 < length bs)%nat) (head : Z) (enc : bytes).
Context (Henc : (length enc ≤ length bs)%nat).
Abbreviation cap := (length bs).
Abbreviation start := (place cap head (length enc)).

Lemma length_overwrite : length (overwrite bs head start enc) = length bs.
Proof.
  destruct (place_spec cap Hcap head _ Henc) as (_ & Hfit & _).
  unfold overwrite. rewrite length_splice; case_decide; rewrite ?length_insert; lia.
Qed.

(** Outside the record's cells and the marker's cell nothing changes. *)
Lemma overwrite_other x :
  start + Z.of_nat (length enc) - Z.of_nat cap ≤ x < head →
  overwrite bs head start enc !! phys cap x = bs !! phys cap x.
Proof.
  intros Hx. destruct (place_spec cap Hcap head _ Henc) as (Hs & Hfit & _).
  pose proof (phys_lt cap Hcap x) as Hpx.
  unfold overwrite. rewrite lookup_splice by (case_decide; rewrite ?length_insert; lia).
  rewrite bool_decide_false.
  - case_decide; [done|]. rewrite list_lookup_insert_ne; [done|].
    intros Heq. assert (x = head) by (apply (phys_inj cap Hcap); [lia|done]). lia.
  - intros [H1 H2].
    assert (Heq : phys cap (start + Z.of_nat (phys cap x - phys cap start)) = phys cap x).
    { rewrite phys_add by lia. lia. }
    assert (x = start + Z.of_nat (phys cap x - phys cap start)) by (apply (phys_inj cap Hcap); [lia|done]). lia.
Qed.

Lemma overwrite_seg : seg (overwrite bs head start enc) (phys cap start) (length enc) = enc.
Proof.
  destruct (place_spec cap Hcap head _ Henc) as (_ & Hfit & _).
  unfold overwrite. apply seg_splice_same. case_decide; rewrite ?length_insert; lia.
Qed.

Lemma overwrite_marker :
  start ≠ head → start + Z.of_nat (length enc) - Z.of_nat cap ≤ head →
  overwrite bs head start enc !! phys cap head = Some 0.
Proof.
  intros Hne Hf. destruct (place_spec cap Hcap head _ Henc) as (Hs & Hfit & [?|[Hp Heq]]); [done|].
  pose proof (phys_lt cap Hcap head). unfold overwrite. rewrite decide_False by done.
  rewrite lookup_splice by (rewrite length_insert; lia).
  assert (phys cap start = 0%nat) as Hp0 by (rewrite Heq; by apply phys_wrap).
  rewrite bool_decide_false.
  - apply list_lookup_insert_eq. lia.
  - rewrite Hp0. lia.
Qed.

Lemma overwrite_bytes_ok : bytes_ok bs → bytes_ok enc → bytes_ok (overwrite bs head start enc).
Proof.
  intros Hb He. unfold overwrite, splice. apply bytes_ok_app. split; [|apply bytes_ok_app; split; [done|]];
    [apply Forall_take|apply Forall_drop]; (case_decide; [done|]);
    apply Forall_insert; [done|unfold fits; lia|done|unfold fits; lia].
Qed.
End overwrite.

(** Appending a record keeps the walk over the window that stays live, and
    adds the record at its end. *)
Lemma layout_overwrite bs a es h rec :
  (0 < length bs)%nat → encodable rec → (length (enc_record rec true) ≤ length bs)%nat →
  let start := place (length bs) h (length (enc_record rec true)) in
  let e := {| en_start := start; en_rec := rec |} in
  let bs' := overwrite bs h start (en_bytes e) in
  layout bs a es h → en_end e - Z.of_nat (length bs) ≤ a ∨ es = [] →
  layout bs' (from_option en_start start (head es)) (es ++ [e]) (en_end e).
Proof.
  intros Hcap Hrec Hlen start e bs' Hlay Hfloor.
  pose proof (place_spec (length bs) Hcap h _ Hlen) as (Hs & Hfit & Hor). fold start in Hs, Hfit, Hor.
  assert (Hl' : length bs' = length bs) by (by apply length_overwrite).
  assert (Hone : layout bs' start [e] (en_end e)).
  { change start with (en_start e). apply layout_rec; [done| | |constructor]; rewrite Hl'; cbn [en_start].
    - done.
    - by apply overwrite_seg. }
  destruct es as [|e0 es]; [done|]. destruct Hfloor as [Hfloor|]; [|done].
  apply layout_head in Hlay as [Ha Hlay]. cbn [head hd_error from_option].
  pose proof (layout_bounds _ _ _ _ Hlay) as [Hah _].
  eapply layout_app.
  - eapply (layout_frame bs); [done|done| |exact Hlay].
    intros x Hx. apply overwrite_other; [done..|]. unfold en_end in Hfloor. fold start. change (en_len e) with (length (en_bytes e)) in *. simpl in *. lia.
  - destruct (decide (start = h)) as [Heq|Hne]; [by rewrite <-Heq|].
    destruct Hor as [?|[Hp Heq]]; [done|].
    apply layout_gap; rewrite Hl'; [done| |by rewrite <-Heq].
    apply overwrite_marker; [done..|]. fold start.
    unfold en_end in Hfloor. change (en_len e) with (length (en_bytes e)) in *. simpl in *. lia.
Qed.
