(* ===== verification/Ring.v ===== *)
(** * Byte-pool ring storage (crates/carriage/src/ring.rs)

    The controller-side store: a fixed byte pool addressed by ever-increasing
    absolute offsets, its producer index, the drop-oldest eviction and the two
    readers, one over the index and one over the raw bytes. *)
From S2P Require Import Prelude Crc Wire Control Layout.

Definition DEFAULT_BUFFER_ID : u32 := 1.

(** ** Data *)
Record ReadRecord := MkReadRecord {
  rr_start_abs : u64;
  rr_end_abs : u64;
  rr_record : WireRecord;
}.

Record ReadBatch := MkReadBatch {
  rb_records : list ReadRecord;
  rb_next_abs : u64;
  rb_lapped : bool;
}.

Record RecordIndex := MkRecordIndex {
  ri_start_abs : u64;
  ri_end_abs : u64;
  ri_run_id : u64;
  ri_source_id : u32;
  ri_seq : u64;
}.

Record LossRange := MkLossRange {
  lr_run_id : u64;
  lr_source_id : u32;
  lr_first_seq : u64;
  lr_last_seq : u64;
}.

Record RingBuffer := MkRing {
  ring_bytes : bytes;
  ring_head_abs : u64;
  ring_oldest_abs : u64;
  ring_lost_count : u64;
  ring_wraps : u64;
  ring_index : list RecordIndex;
  ring_producer_loss_ranges : list LossRange;
}.

Inductive RingError :=
| OverwrittenMidRead (read_abs oldest_abs : u64)
| RecordCrossesBoundary (abs : u64)
| RecordExceedsCapacity (record_len capacity : usize)
| EncodedRecordLengthMismatch (declared_len actual_len : usize)
| EncodedRecordMissingCrc (flags : u16)
| ControlBlockCapacityMismatch (snapshot_bytes : u32) (capacity : usize)
| CapturedCapacityZero
| InvalidCapturedWindow (head_abs oldest_abs : u64) (capacity : usize)
| RingControlBlock (e : ControlBlockError)
| UnexpectedWrapMarker (abs : u64)
| RingWire (e : WireError).

#[global] Instance RingError_eq_dec : EqDecision RingError.
Proof. solve_decision. Defined.
#[global] Instance ReadRecord_eq_dec : EqDecision ReadRecord.
Proof. solve_decision. Defined.
#[global] Instance ReadBatch_eq_dec : EqDecision ReadBatch.
Proof. solve_decision. Defined.
#[global] Instance RecordIndex_eq_dec : EqDecision RecordIndex.
Proof. solve_decision. Defined.
#[global] Instance LossRange_eq_dec : EqDecision LossRange.
Proof. solve_decision. Defined.
#[global] Instance RingBuffer_eq_dec : EqDecision RingBuffer.
Proof. solve_decision. Defined.

Section ring.
Context {BP : BuildProfile}.

(** [LossRange::count] *)
Definition count {E} (range : LossRange) : res E u64 :=
  d ← sub64 (lr_last_seq range) (lr_first_seq range); add64 d 1.

Definition capacity (r : RingBuffer) : usize := length (ring_bytes r).

(** ** Construction *)
Definition ring_new (cap : usize) : res RingError RingBuffer :=
  if decide (cap = 0)%nat then Panic else
  Ok {| ring_bytes := replicate cap 0; ring_head_abs := 0; ring_oldest_abs := 0;
        ring_lost_count := 0; ring_wraps := 0; ring_index := []; ring_producer_loss_ranges := [] |}.

Definition from_captured (bs : bytes) (head_abs oldest_abs lost_count : u64)
  : res RingError RingBuffer :=
  let cap := length bs in
  if decide (cap = 0)%nat then Err CapturedCapacityZero else
  if decide (head_abs < oldest_abs) then Err (InvalidCapturedWindow head_abs oldest_abs cap) else
  d ← sub64 head_abs oldest_abs;
  if decide (Z.of_nat cap < d) then Err (InvalidCapturedWindow head_abs oldest_abs cap) else
  Ok {| ring_bytes := bs; ring_head_abs := head_abs; ring_oldest_abs := oldest_abs;
        ring_lost_count := lost_count; ring_wraps := 0; ring_index := [];
        ring_producer_loss_ranges := [] |}.

(** [(abs % self.capacity() as u64) as usize]: the remainder by zero panics. *)
Definition physical_offset {E} (bs : bytes) (abs : u64) : res E usize :=
  if decide (length bs = 0)%nat then Panic else Ok (Z.to_nat (abs mod Z.of_nat (length bs))).

(** ** Eviction *)
Definition record_producer_loss (ranges : list LossRange) (run_id : u64) (source_id : u32) (seq : u64)
  : res RingError (list LossRange) :=
  let fresh := ranges ++ [{| lr_run_id := run_id; lr_source_id := source_id;
                             lr_first_seq := seq; lr_last_seq := seq |}] in
  match last ranges with
  | None => Ok fresh
  | Some l =>
      if decide (lr_run_id l = run_id ∧ lr_source_id l = source_id) then
        next ← add64 (lr_last_seq l) 1;
        if decide (next = seq) then
          Ok (removelast ranges ++ [{| lr_run_id := lr_run_id l; lr_source_id := lr_source_id l;
                                       lr_first_seq := lr_first_seq l; lr_last_seq := seq |}])
        else Ok fresh
      else Ok fresh
  end.

(** The [while] loop of [evict_before_clobber] over the deque. *)
Fixpoint evict_loop (floor : u64) (index : list RecordIndex) (ranges : list LossRange)
    (evicted_count : u64) : res RingError (list RecordIndex * list LossRange * u64) :=
  match index with
  | [] => Ok ([], ranges, evicted_count)
  | idx :: rest =>
      if decide (ri_start_abs idx < floor) then
        ranges ← record_producer_loss ranges (ri_run_id idx) (ri_source_id idx) (ri_seq idx);
        evicted_count ← add64 evicted_count 1;
        evict_loop floor rest ranges evicted_count
      else Ok (index, ranges, evicted_count)
  end.

Definition evict_before_clobber (r : RingBuffer) (final_head next_record_start : u64)
  : res RingError RingBuffer :=
  let retention_floor := saturating_sub64 final_head (Z.of_nat (capacity r)) in
  '(index, ranges, evicted_count) ←
    evict_loop retention_floor (ring_index r) (ring_producer_loss_ranges r) 0;
  lost_count ← add64 (ring_lost_count r) evicted_count;
  Ok {| ring_bytes := ring_bytes r; ring_head_abs := ring_head_abs r;
        ring_oldest_abs := from_option ri_start_abs next_record_start (head index);
        ring_lost_count := lost_count; ring_wraps := ring_wraps r;
        ring_index := index; ring_producer_loss_ranges := ranges |}.

Definition take_producer_loss_ranges (r : RingBuffer) : RingBuffer * list LossRange :=
  ({| ring_bytes := ring_bytes r; ring_head_abs := ring_head_abs r;
      ring_oldest_abs := ring_oldest_abs r; ring_lost_count := ring_lost_count r;
      ring_wraps := ring_wraps r; ring_index := ring_index r; ring_producer_loss_ranges := [] |},
   ring_producer_loss_ranges r).

(** ** Writing *)

(** The write position: the head, or the start of the pool past a wrap gap. *)
Definition write_start (cap start_phys len : usize) (head_abs : u64) : res RingError u64 :=
  if decide (start_phys = 0 ∨ start_phys + len ≤ cap)%nat then Ok head_abs
  else add64 head_abs (Z.of_nat (cap - start_phys)).

Definition write_record (r : RingBuffer) (record : WireRecord)
  : res RingError (RingBuffer * (u64 * u64)) :=
  encoded ← map_err RingWire (encode record true);
  let len := length encoded in
  if decide (capacity r < len)%nat then Err (RecordExceedsCapacity len (capacity r)) else
  start_phys ← physical_offset (ring_bytes r) (ring_head_abs r);
  start_abs ← write_start (capacity r) start_phys len (ring_head_abs r);
  end_abs ← add64 start_abs (Z.of_nat len);
  r ← evict_before_clobber r end_abs start_abs;
  '(bs, wraps) ← (if decide (start_abs ≠ ring_head_abs r) then
                    bs ← store (ring_bytes r) start_phys 0;
                    wraps ← add64 (ring_wraps r) 1; Ok (bs, wraps)
                  else Ok (ring_bytes r, ring_wraps r));
  start ← physical_offset bs start_abs;
  _ ← debug_assert (bool_decide (start + len ≤ length bs)%nat);
  bs ← copy_from_slice bs start encoded;
  Ok ({| ring_bytes := bs; ring_head_abs := end_abs; ring_oldest_abs := ring_oldest_abs r;
         ring_lost_count := ring_lost_count r; ring_wraps := wraps;
         ring_index := ring_index r ++
           [{| ri_start_abs := start_abs; ri_end_abs := end_abs; ri_run_id := rec_run_id record;
               ri_source_id := rec_source_id record; ri_seq := rec_seq record |}];
         ring_producer_loss_ranges := ring_producer_loss_ranges r |},
      (start_abs, end_abs)).

(** ** Reading through the index *)
Definition read_indexed (bs : bytes) (idx : RecordIndex) (records : list ReadRecord)
  : res RingError (list ReadRecord) :=
  start ← physical_offset bs (ri_start_abs idx);
  len ← (d ← sub64 (ri_end_abs idx) (ri_start_abs idx); Ok (Z.to_nat d));
  s ← slice bs start (start + len)%nat;
  decoded ← map_err RingWire (decode s);
  let record := dec_record decoded in
  _ ← debug_assert (bool_decide (rec_run_id record = ri_run_id idx));
  _ ← debug_assert (bool_decide (rec_source_id record = ri_source_id idx));
  _ ← debug_assert (bool_decide (rec_seq record = ri_seq idx));
  Ok (records ++ [{| rr_start_abs := ri_start_abs idx; rr_end_abs := ri_end_abs idx;
                     rr_record := record |}]).

Definition read_from (r : RingBuffer) (cursor_abs : u64) : res RingError ReadBatch :=
  let lapped := bool_decide (cursor_abs < ring_oldest_abs r) in
  let effective_cursor := if lapped then ring_oldest_abs r else cursor_abs in
  records ← for_each (read_indexed (ring_bytes r))
              (filter (λ idx, effective_cursor ≤ ri_start_abs idx) (ring_index r)) [];
  Ok {| rb_records := records; rb_next_abs := ring_head_abs r; rb_lapped := lapped |}.

(** ** Reading raw bytes *)
Definition read_le_u16 {E} (bs : bytes) (offset : usize) : res E u16 :=
  b0 ← index bs offset; b1 ← index bs (offset + 1)%nat; Ok (from_le_bytes [b0; b1]).

(** The [while abs < head_abs] loop of [read_raw_window]. [oldest_after i] is
    what the [i]-th call of the closure [oldest_after_read] returns, [calls] how
    many calls were made so far; the loop returns that count with the records. *)
Fixpoint raw_loop (fuel : nat) (bs : bytes) (head_abs first_oldest : u64)
    (oldest_after : nat → u64) (calls : nat) (abs : u64) (records : list ReadRecord)
  : res RingError (list ReadRecord * nat) :=
  if decide (abs < head_abs) then
    match fuel with
    | O => Diverge
    | S fuel =>
        if decide (abs < first_oldest) then Err (OverwrittenMidRead abs first_oldest) else
        phys ← physical_offset bs abs;
        first ← index bs phys;
        if decide (first = 0) then
          if decide (phys = 0%nat) then Err (UnexpectedWrapMarker abs) else
          abs ← add64 abs (Z.of_nat (length bs - phys));
          raw_loop fuel bs head_abs first_oldest oldest_after calls abs records
        else
        if decide (length bs < phys + HEADER_LEN)%nat then Err (RecordCrossesBoundary abs) else
        sync ← slice bs phys (phys + 4)%nat;
        if decide (sync ≠ SYNC) then Err (RingWire WrongSync) else
        total_len ← (t ← read_le_u16 bs (phys + 4)%nat; Ok (Z.to_nat t));
        if decide (total_len < HEADER_LEN)%nat
        then Err (RingWire (InvalidLength total_len (length bs - phys)%nat)) else
        if decide (length bs < phys + total_len)%nat then Err (RecordCrossesBoundary abs) else
        s ← slice bs phys (phys + total_len)%nat;
        decoded ← map_err RingWire (decode s);
        if decide (abs < oldest_after calls)
        then Err (OverwrittenMidRead abs (oldest_after calls)) else
        end_abs ← add64 abs (Z.of_nat (dec_consumed decoded));
        next ← add64 abs (Z.of_nat total_len);
        raw_loop fuel bs head_abs first_oldest oldest_after (S calls) next
          (records ++ [{| rr_start_abs := abs; rr_end_abs := end_abs;
                          rr_record := dec_record decoded |}])
    end
  else Ok (records, calls).

Definition read_raw_window (r : RingBuffer) (cursor_abs head_abs first_oldest : u64)
    (oldest_after : nat → u64) : res RingError ReadBatch :=
  let lapped := bool_decide (cursor_abs < first_oldest) in
  let abs := if lapped then first_oldest else cursor_abs in
  '(records, calls) ← raw_loop (Z.to_nat (head_abs - abs)) (ring_bytes r) head_abs first_oldest
                        oldest_after 0 abs [];
  let final_oldest := oldest_after calls in
  if decide (final_oldest ≠ first_oldest ∧ cursor_abs < final_oldest)
  then Err (OverwrittenMidRead cursor_abs final_oldest) else
  Ok {| rb_records := records; rb_next_abs := head_abs; rb_lapped := lapped |}.

Definition read_raw_from (r : RingBuffer) (cursor_abs : u64) : res RingError ReadBatch :=
  read_raw_window r cursor_abs (ring_head_abs r) (ring_oldest_abs r) (λ _, ring_oldest_abs r).

Definition read_raw_from_snapshot (r : RingBuffer) (cursor_abs : u64) (s : ControlBlockSnapshot)
  : res RingError ReadBatch :=
  let snapshot_bytes := Z.to_nat (cb_buffer_bytes s) in
  if decide (snapshot_bytes ≠ capacity r)
  then Err (ControlBlockCapacityMismatch (cb_buffer_bytes s) (capacity r)) else
  read_raw_window r cursor_abs (cb_head_abs s) (cb_oldest_abs s) (λ _, cb_oldest_abs s).

End ring.

(** ** Abstract ring

    The contract of the ring as a log: every record written so far is
    [reported] (dropped and handed out as a loss range), [pending] (dropped,
    not handed out yet) or [live]. *)
Record AbsRing := MkAbsRing {
  ab_cap : nat;
  ab_head : u64;
  ab_reported : list Entry;
  ab_pending : list Entry;
  ab_live : list Entry;
}.

Definition ab_dropped (a : AbsRing) : list Entry := ab_reported a ++ ab_pending a.
Definition ab_log (a : AbsRing) : list Entry := ab_dropped a ++ ab_live a.
Definition ab_oldest (a : AbsRing) : u64 := from_option en_start (ab_head a) (head (ab_live a)).

Definition abs_new (cap : nat) : AbsRing := MkAbsRing cap 0 [] [] [].

(** A write drops exactly the live records that start more than a capacity
    below the new head, oldest first, and appends the new one. *)
Definition abs_write (a : AbsRing) (rec : WireRecord) : AbsRing :=
  let len := length (enc_record rec true) in
  let e := {| en_start := place (ab_cap a) (ab_head a) len; en_rec := rec |} in
  let floor := saturating_sub64 (en_end e) (Z.of_nat (ab_cap a)) in
  {| ab_cap := ab_cap a; ab_head := en_end e; ab_reported := ab_reported a;
     ab_pending := ab_pending a ++ filter (λ x, en_start x < floor) (ab_live a);
     ab_live := filter (λ x, ¬ en_start x < floor) (ab_live a) ++ [e] |}.

Definition abs_take (a : AbsRing) : AbsRing :=
  {| ab_cap := ab_cap a; ab_head := ab_head a; ab_reported := ab_dropped a; ab_pending := [];
     ab_live := ab_live a |}.

(** The identity of a record, and the identities a loss range stands for. *)
Definition en_key (e : Entry) : u64 * u32 * u64 :=
  (rec_run_id (en_rec e), rec_source_id (en_rec e), rec_seq (en_rec e)).
Definition expand (l : LossRange) : list (u64 * u32 * u64) :=
  (λ s, (lr_run_id l, lr_source_id l, s))
    <$> seqZ (lr_first_seq l) (lr_last_seq l - lr_first_seq l + 1).
Definition expand_all (ls : list LossRange) : list (u64 * u32 * u64) := ls ≫= expand.

Definition range_ok (l : LossRange) : Prop :=
  0 ≤ lr_first_seq l ≤ lr_last_seq l ∧ lr_last_seq l < U64_MAX.

Definition en_index (e : Entry) : RecordIndex :=
  {| ri_start_abs := en_start e; ri_end_abs := en_end e; ri_run_id := rec_run_id (en_rec e);
     ri_source_id := rec_source_id (en_rec e); ri_seq := rec_seq (en_rec e) |}.

(** A record the ring can take: encodable, not of the last sequence number. *)
Definition writable (r : WireRecord) : Prop := encodable r ∧ rec_seq r < U64_MAX.

#[global] Instance writable_dec r : Decision (writable r).
Proof. unfold writable. apply _. Defined.

(** [ring_rep r a]: the concrete ring [r] represents the abstract ring [a]. *)
Record ring_rep (r : RingBuffer) (a : AbsRing) : Prop := {
  rep_cap : capacity r = ab_cap a;
  rep_pos : (0 < ab_cap a)%nat;
  rep_bytes : bytes_ok (ring_bytes r);
  rep_head : ring_head_abs r = ab_head a;
  rep_oldest : ring_oldest_abs r = ab_oldest a;
  rep_lost : ring_lost_count r = Z.of_nat (length (ab_dropped a));
  rep_wraps : 0 ≤ ring_wraps r ≤ ab_head a;
  rep_index : ring_index r = en_index <$> ab_live a;
  rep_ranges : expand_all (ring_producer_loss_ranges r) = en_key <$> ab_pending a;
  rep_ranges_ok : Forall range_ok (ring_producer_loss_ranges r);
  rep_layout : layout (ring_bytes r) (ab_oldest a) (ab_live a) (ab_head a);
  rep_writable : Forall (λ e, writable (en_rec e)) (ab_log a);
  rep_window : 0 ≤ ab_oldest a ∧ ab_head a - ab_oldest a ≤ Z.of_nat (ab_cap a);
  rep_dropped : Forall (λ e, 0 ≤ en_start e ∧ en_end e ≤ ab_oldest a) (ab_dropped a);
  rep_size : 44 * Z.of_nat (length (ab_log a)) ≤ ab_head a;
}.

Lemma expand_all_app l1 l2 : expand_all (l1 ++ l2) = expand_all l1 ++ expand_all l2.
Proof. apply bind_app. Qed.

Lemma seqZ_snoc m n : 0 ≤ n → seqZ m (n + 1) = seqZ m n ++ [m + n].
Proof. intros. by rewrite seqZ_app. Qed.

Lemma take_filter_sorted {A} (f : A → Z) (floor : Z) (x : A) l :
  ¬ f x < floor → Forall (λ y, f x ≤ f y) l →
  filter (λ y, f y < floor) l = [] ∧ filter (λ y, ¬ f y < floor) l = l.
Proof.
  intros Hx. induction 1 as [|y l Hy _ [IH1 IH2]]; [done|].
  rewrite !filter_cons, decide_False, decide_True, IH1, IH2 by lia. done.
Qed.

Section ring_proofs.
Context {BP : BuildProfile}.

Lemma physical_offset_ok {E} bs abs :
  (0 < length bs)%nat → physical_offset (E:=E) bs abs = Ok (phys (length bs) abs).
Proof. intros. unfold physical_offset. by rewrite decide_False by lia. Qed.

(** One evicted record is one more identity at the end of the ranges. *)
Lemma record_producer_loss_spec ranges run src seq :
  Forall range_ok ranges → 0 ≤ seq < U64_MAX →
  ∃ ranges', record_producer_loss ranges run src seq = Ok ranges'
    ∧ expand_all ranges' = expand_all ranges ++ [(run, src, seq)] ∧ Forall range_ok ranges'.
Proof.
  intros Hok Hseq. unfold record_producer_loss. cbv zeta.
  set (fresh := ranges ++ [MkLossRange run src seq seq]).
  assert (Hfresh : expand_all fresh = expand_all ranges ++ [(run, src, seq)] ∧ Forall range_ok fresh).
  { unfold fresh. rewrite expand_all_app. split.
    - f_equal. unfold expand_all, expand. cbn. by replace (seq - seq + 1) with 1 by lia.
    - apply Forall_app. split; [done|]. repeat constructor; cbn; lia. }
  destruct ranges as [|l ranges _] using rev_ind; [by exists fresh|].
  rewrite last_snoc. apply Forall_app in Hok as [Hok Hl]. apply Forall_cons_1 in Hl as [Hl _].
  destruct Hl as [Hl1 Hl2]. case_decide as Hkey; [|by exists fresh].
  rewrite add_w_ok by (unfold U64_MAX in *; lia). rewrite ok_bind.
  case_decide as Hs; [|by exists fresh]. eexists. split; [done|].
  rewrite removelast_last, !expand_all_app. destruct Hkey as [<- <-]. split.
  - rewrite <-app_assoc. f_equal. unfold expand_all, expand. cbn. rewrite !app_nil_r.
    replace (seq - lr_first_seq l + 1) with ((lr_last_seq l - lr_first_seq l + 1) + 1) by lia.
    rewrite seqZ_snoc, fmap_app by lia. f_equal. cbn. do 2 f_equal. lia.
  - apply Forall_app. split; [done|]. repeat constructor; cbn; lia.
Qed.

(** The loop pops the records below the floor and only those. *)
Lemma evict_loop_spec floor live : ∀ ranges cnt,
  Forall range_ok ranges → Forall (λ e, writable (en_rec e)) live →
  StronglySorted (λ x y, en_start x ≤ en_start y) live →
  0 ≤ cnt → cnt + Z.of_nat (length live) < 2 ^ 64 →
  ∃ ranges',
    evict_loop floor (en_index <$> live) ranges cnt
      = Ok (en_index <$> filter (λ x, ¬ en_start x < floor) live, ranges',
            cnt + Z.of_nat (length (filter (λ x, en_start x < floor) live)))
    ∧ expand_all ranges'
      = expand_all ranges ++ (en_key <$> filter (λ x, en_start x < floor) live)
    ∧ Forall range_ok ranges'.
Proof.
  induction live as [|e live IH]; intros ranges cnt Hr Hw Hsort Hc Hlen.
  { exists ranges. cbn. rewrite app_nil_r, Z.add_0_r. done. }
  apply Forall_cons_1 in Hw as [He Hw]. apply StronglySorted_inv in Hsort as [Hsort Hhd].
  rewrite fmap_cons. cbn [evict_loop en_index ri_start_abs ri_run_id ri_source_id ri_seq].
  rewrite !filter_cons. case_decide as Hd.
  - destruct He as [[Hwf _] Hseq]. pose proof Hwf as (_&_&_&Hs64&_). unfold fits in Hs64.
    destruct (record_producer_loss_spec ranges (rec_run_id (en_rec e)) (rec_source_id (en_rec e))
      (rec_seq (en_rec e))) as (ranges1 & -> & Hexp & Hok); [done|lia|].
    cbn [length] in Hlen. rewrite ok_bind, add_w_ok, ok_bind by lia. rewrite decide_False by tauto.
    destruct (IH ranges1 (cnt + 1)) as (ranges2 & -> & Hexp2 & Hok2); [done..|lia|lia|].
    exists ranges2. split_and!; [|rewrite Hexp2, Hexp, fmap_cons, <-app_assoc; done|done].
    cbn [length]. do 2 f_equal. lia.
  - rewrite decide_True by done.
    destruct (take_filter_sorted en_start floor e live Hd Hhd) as [-> ->].
    exists ranges. cbn. rewrite app_nil_r, Z.add_0_r. done.
Qed.

Lemma layout_sorted bs a es h :
  (0 < length bs)%nat → layout bs a es h → StronglySorted (λ x y, en_start x ≤ en_start y) es.
Proof.
  intros Hcap. revert a. induction es as [|e es IH]; intros a H; [constructor|].
  pose proof (layout_tail _ Hcap _ _ _ _ H) as Ht. constructor; [by eapply IH|].
  apply layout_bounds in Ht as [_ Ht]. eapply Forall_impl; [exact Ht|]. simpl.
  unfold en_end. intros. lia.
Qed.

Lemma split_filter_sorted (floor : Z) l :
  StronglySorted (λ x y, en_start x ≤ en_start y) l →
  l = filter (λ x, en_start x < floor) l ++ filter (λ x, ¬ en_start x < floor) l.
Proof.
  induction 1 as [|e l _ IH Hhd]; [done|]. rewrite !filter_cons. case_decide as Hd.
  - rewrite decide_False by tauto. simpl. by f_equal.
  - rewrite decide_True by done.
    by destruct (take_filter_sorted en_start floor e l Hd Hhd) as [-> ->].
Qed.

Lemma layout_prefix_end bs a es1 es2 h :
  (0 < length bs)%nat → layout bs a (es1 ++ es2) h →
  Forall (λ e, a ≤ en_start e ∧ en_end e ≤ from_option en_start h (head es2)) es1.
Proof.
  intros Hcap. revert a. induction es1 as [|e es1 IH]; intros a H; constructor.
  - pose proof (proj1 (layout_head _ _ _ _ _ H)) as Ha. split; [done|].
    apply layout_tail in H; [|done]. apply layout_bounds in H as [Hh Hb].
    destruct es2 as [|e2 es2]; simpl; [done|].
    apply Forall_app in Hb as [_ Hb]. apply Forall_cons_1 in Hb as [Hb _]. lia.
  - pose proof (proj1 (layout_head _ _ _ _ _ H)) as Ha.
    apply layout_tail in H; [|done]. eapply Forall_impl; [by eapply IH|]. simpl.
    unfold en_end. intros. lia.
Qed.

(** The entry a write of [rec] adds. *)
Definition placed (a : AbsRing) (rec : WireRecord) : Entry :=
  {| en_start := place (ab_cap a) (ab_head a) (length (enc_record rec true)); en_rec := rec |}.

Definition write_floor (a : AbsRing) (rec : WireRecord) : Z :=
  saturating_sub64 (en_end (placed a rec)) (Z.of_nat (ab_cap a)).
Definition kept (a : AbsRing) (rec : WireRecord) : list Entry :=
  filter (λ x, ¬ en_start x < write_floor a rec) (ab_live a).
Definition evicted (a : AbsRing) (rec : WireRecord) : list Entry :=
  filter (λ x, en_start x < write_floor a rec) (ab_live a).

Lemma abs_write_eq a rec :
  abs_write a rec =
    {| ab_cap := ab_cap a; ab_head := en_end (placed a rec); ab_reported := ab_reported a;
       ab_pending := ab_pending a ++ evicted a rec; ab_live := kept a rec ++ [placed a rec] |}.
Proof. done. Qed.

Lemma dropped_eq a rec : ab_dropped (abs_write a rec) = ab_dropped a ++ evicted a rec.
Proof. apply app_assoc. Qed.

Lemma rep_nonempty r a : ring_rep r a → (0 < length (ring_bytes r))%nat.
Proof. intros Hrep. pose proof (rep_cap _ _ Hrep). pose proof (rep_pos _ _ Hrep). unfold capacity in *. lia. Qed.

Section step.
Context (r : RingBuffer) (a : AbsRing) (rec : WireRecord).
Context (Hrep : ring_rep r a) (Hrec : writable rec).
Context (Hlen : (length (enc_record rec true) ≤ ab_cap a)%nat).
Abbreviation e := (placed a rec).

Lemma live_split : ab_live a = evicted a rec ++ kept a rec.
Proof. eapply split_filter_sorted, layout_sorted, (rep_layout _ _ Hrep). by eapply rep_nonempty. Qed.

Lemma en_end_placed : en_end e = en_start e + Z.of_nat (length (enc_record rec true)).
Proof. done. Qed.

Lemma placed_bounds :
  ab_head a ≤ en_start e ≤ ab_head a + Z.of_nat (ab_cap a)
  ∧ en_start e + 44 ≤ en_end e ≤ en_start e + Z.of_nat (ab_cap a).
Proof.
  destruct (place_spec (ab_cap a) (rep_pos _ _ Hrep) (ab_head a) _ Hlen) as (Hs & _).
  destruct (en_len_bounds e) as [Hl _]; [apply Hrec|]. rewrite en_end_placed.
  change (en_len e) with (length (enc_record rec true)) in Hl. cbn in *. lia.
Qed.

(** The walk over what the write keeps. *)
Lemma layout_kept :
  layout (ring_bytes r) (from_option en_start (ab_head a) (head (kept a rec))) (kept a rec) (ab_head a).
Proof.
  eapply layout_suffix; [by eapply rep_nonempty|]. rewrite <-live_split. apply (rep_layout _ _ Hrep).
Qed.

Lemma kept_floor : Forall (λ x, en_end e - Z.of_nat (ab_cap a) ≤ en_start x) (kept a rec).
Proof.
  apply Forall_forall. intros x [Hx _]%list_elem_of_filter. unfold write_floor, saturating_sub64 in Hx. lia.
Qed.

Lemma oldest_kept :
  ab_oldest a ≤ from_option en_start (ab_head a) (head (kept a rec)) ≤ ab_head a.
Proof.
  pose proof (rep_layout _ _ Hrep) as Hl. rewrite live_split in Hl.
  pose proof (layout_bounds _ _ _ _ layout_kept) as [Hk _].
  apply layout_bounds in Hl as [Hh Hb]. split; [|done].
  destruct (kept a rec) as [|x l]; simpl in *; [done|].
  apply Forall_app in Hb as [_ Hb]. apply Forall_cons_1 in Hb. lia.
Qed.

Lemma oldest_write : ab_oldest (abs_write a rec) = from_option en_start (en_start e) (head (kept a rec)).
Proof. rewrite abs_write_eq. unfold ab_oldest. cbn [ab_live ab_head]. by destruct (kept a rec). Qed.

Lemma oldest_write_le :
  from_option en_start (ab_head a) (head (kept a rec)) ≤ ab_oldest (abs_write a rec).
Proof. rewrite oldest_write. pose proof placed_bounds. destruct (kept a rec); cbn [from_option head]; lia. Qed.

Lemma log_write : ab_log (abs_write a rec) = ab_log a ++ [e].
Proof.
  rewrite abs_write_eq. unfold ab_log, ab_dropped. cbn [ab_reported ab_pending ab_live].
  rewrite live_split, <-!app_assoc. done.
Qed.

(** The pool after the write. *)
Definition written_bytes : bytes :=
  overwrite (ring_bytes r) (ab_head a) (en_start e) (enc_record rec true).

Lemma write_layout :
  layout written_bytes (ab_oldest (abs_write a rec)) (kept a rec ++ [e]) (en_end e).
Proof.
  rewrite oldest_write. pose proof (rep_cap _ _ Hrep) as Hc. unfold capacity in Hc.
  pose proof (layout_overwrite (ring_bytes r) (from_option en_start (ab_head a) (head (kept a rec)))
    (kept a rec) (ab_head a) rec (rep_nonempty _ _ Hrep) (proj1 Hrec)) as H. rewrite Hc in H. apply (H Hlen layout_kept).
  pose proof kept_floor as Hf. fold e. destruct (kept a rec) as [|x l]; [by right|left].
  apply Forall_cons_1 in Hf as [Hf _]. exact Hf.
Qed.

Lemma written_length : length written_bytes = length (ring_bytes r).
Proof.
  pose proof (rep_cap _ _ Hrep) as Hc. unfold capacity in Hc. unfold written_bytes.
  change (en_start e) with (place (ab_cap a) (ab_head a) (length (enc_record rec true))).
  rewrite <-Hc. apply length_overwrite; [by eapply rep_nonempty|lia].
Qed.

Lemma written_bytes_ok : bytes_ok written_bytes.
Proof.
  pose proof (rep_cap _ _ Hrep) as Hc. unfold capacity in Hc. unfold written_bytes.
  change (en_start e) with (place (ab_cap a) (ab_head a) (length (enc_record rec true))).
  rewrite <-Hc. apply overwrite_bytes_ok; [by eapply rep_nonempty|lia|apply (rep_bytes _ _ Hrep)|].
  apply enc_record_ok, Hrec.
Qed.

(** Every dropped record, old or new, ends at or below the new oldest byte. *)
Lemma dropped_write :
  Forall (λ x, 0 ≤ en_start x ∧ en_end x ≤ ab_oldest (abs_write a rec))
    (ab_dropped a ++ evicted a rec).
Proof.
  pose proof oldest_kept as Hk. pose proof oldest_write_le as Ho. apply Forall_app. split.
  - eapply Forall_impl; [exact (rep_dropped _ _ Hrep)|]. simpl. lia.
  - pose proof (rep_layout _ _ Hrep) as Hl. rewrite live_split in Hl.
    apply layout_prefix_end in Hl; [|by eapply rep_nonempty]. destruct (rep_window _ _ Hrep).
    eapply Forall_impl; [exact Hl|]. simpl. lia.
Qed.

Lemma window_write :
  0 ≤ ab_oldest (abs_write a rec)
  ∧ en_end e - ab_oldest (abs_write a rec) ≤ Z.of_nat (ab_cap a).
Proof.
  pose proof oldest_kept. pose proof oldest_write_le. destruct (rep_window _ _ Hrep).
  split; [lia|]. rewrite oldest_write. pose proof placed_bounds. pose proof kept_floor as Hf.
  destruct (kept a rec) as [|x l]; cbn [from_option head]; [lia|]. apply Forall_cons_1 in Hf. lia.
Qed.

Context (Hroom : ab_head a + 2 * Z.of_nat (ab_cap a) < 2 ^ 64).

Lemma size_room : Z.of_nat (length (ab_dropped a)) + Z.of_nat (length (ab_live a)) < 2 ^ 64.
Proof.
  pose proof (rep_size _ _ Hrep) as Hs. unfold ab_log in Hs. rewrite length_app in Hs. lia.
Qed.

(** Eviction drops [evicted a rec] and leaves the pool alone. *)
Lemma evict_before_clobber_spec :
  ∃ ranges,
    evict_before_clobber r (en_end e) (en_start e) =
      Ok {| ring_bytes := ring_bytes r; ring_head_abs := ab_head a;
            ring_oldest_abs := ab_oldest (abs_write a rec);
            ring_lost_count := Z.of_nat (length (ab_dropped a ++ evicted a rec));
            ring_wraps := ring_wraps r; ring_index := en_index <$> kept a rec;
            ring_producer_loss_ranges := ranges |}
    ∧ expand_all ranges = en_key <$> (ab_pending a ++ evicted a rec) ∧ Forall range_ok ranges.
Proof.
  pose proof size_room as Hsz. unfold evict_before_clobber.
  rewrite (rep_cap _ _ Hrep), (rep_index _ _ Hrep). fold (write_floor a rec).
  destruct (evict_loop_spec (write_floor a rec) (ab_live a) (ring_producer_loss_ranges r) 0)
    as (ranges & -> & Hexp & Hok).
  - apply (rep_ranges_ok _ _ Hrep).
  - pose proof (rep_writable _ _ Hrep) as H. by apply Forall_app in H as [_ H].
  - eapply layout_sorted, (rep_layout _ _ Hrep). by eapply rep_nonempty.
  - lia.
  - lia.
  - fold (kept a rec) (evicted a rec) in *. rewrite ok_bind. cbv beta iota zeta.
    rewrite (rep_lost _ _ Hrep), Z.add_0_l.
    pose proof (f_equal length live_split) as Hl. rewrite length_app in Hl.
    rewrite add_w_ok, ok_bind by lia. exists ranges. split_and!; [|by rewrite Hexp, (rep_ranges _ _ Hrep), fmap_app|done].
    rewrite (rep_head _ _ Hrep), oldest_write, length_app, Nat2Z.inj_add. do 2 f_equal.
    by destruct (kept a rec).
Qed.

Lemma write_record_eq :
  ∃ ranges wraps,
    write_record r rec =
      Ok ({| ring_bytes := written_bytes; ring_head_abs := en_end e;
             ring_oldest_abs := ab_oldest (abs_write a rec);
             ring_lost_count := Z.of_nat (length (ab_dropped a ++ evicted a rec));
             ring_wraps := wraps; ring_index := en_index <$> (kept a rec ++ [e]);
             ring_producer_loss_ranges := ranges |}, (en_start e, en_end e))
    ∧ expand_all ranges = en_key <$> (ab_pending a ++ evicted a rec) ∧ Forall range_ok ranges
    ∧ 0 ≤ wraps ≤ en_end e.
Proof.
  destruct evict_before_clobber_spec as (ranges & Hev & Hexp & Hok).
  pose proof (rep_cap _ _ Hrep) as Hc. unfold capacity in Hc. pose proof (rep_nonempty _ _ Hrep) as Hne.
  pose proof placed_bounds as Hb. pose proof (rep_wraps _ _ Hrep) as Hw.
  destruct (place_spec (ab_cap a) (rep_pos _ _ Hrep) (ab_head a) _ Hlen) as (_ & Hfit & _).
  unfold write_record. rewrite encodable_encode by apply Hrec. cbn [map_err]. rewrite ok_bind. cbv zeta.
  unfold capacity. rewrite decide_False, physical_offset_ok, ok_bind by lia.
  rewrite (rep_head _ _ Hrep), Hc.
  assert (Hstart : write_start (ab_cap a) (phys (ab_cap a) (ab_head a))
    (length (enc_record rec true)) (ab_head a) = Ok (en_start e)).
  { unfold write_start. cbn [en_start placed]. unfold place. case_decide; [done|].
    apply add_w_ok. pose proof (phys_lt _ (rep_pos _ _ Hrep) (ab_head a)). lia. }
  rewrite Hstart, ok_bind, add_w_ok, ok_bind by lia. fold (en_end e).
  change (en_start e + Z.of_nat (length (enc_record rec true))) with (en_end e).
  rewrite Hev, ok_bind. cbn [ring_head_abs ring_bytes ring_wraps ring_oldest_abs ring_lost_count ring_index
    ring_producer_loss_ranges].
  set (bs1 := if decide (en_start e = ab_head a) then ring_bytes r
              else <[phys (ab_cap a) (ab_head a) := 0]> (ring_bytes r)).
  assert (Hbs1 : length bs1 = ab_cap a).
  { unfold bs1. case_decide; rewrite ?length_insert; done. }
  assert (Hmark : ∃ wraps, (if decide (en_start e ≠ ab_head a) then
      bs ← store (ring_bytes r) (phys (ab_cap a) (ab_head a)) 0;
      wraps ← add64 (ring_wraps r) 1; Ok (bs, wraps)
    else Ok (ring_bytes r, ring_wraps r)) = Ok (E:=RingError) (bs1, wraps) ∧ 0 ≤ wraps ≤ en_end e).
  { unfold bs1. destruct (decide (en_start e = ab_head a)) as [Heq|Hneq].
    - rewrite decide_False by tauto. eexists. split; [done|]. lia.
    - rewrite decide_True by done. pose proof (phys_lt _ (rep_pos _ _ Hrep) (ab_head a)).
      rewrite store_ok, ok_bind, add_w_ok, ok_bind by lia. eexists. split; [done|]. lia. }
  destruct Hmark as (wraps & -> & Hwraps). rewrite ok_bind. cbv beta iota.
  rewrite physical_offset_ok, ok_bind, Hbs1 by lia.
  rewrite debug_assert_ok, ok_bind by (apply bool_decide_true; exact Hfit).
  rewrite copy_from_slice_ok, ok_bind by (rewrite Hbs1; exact Hfit).
  exists ranges, wraps. split; [|exact (conj Hexp (conj Hok Hwraps))]. rewrite fmap_app. do 3 f_equal.
  unfold written_bytes, overwrite. by rewrite Hc.
Qed.

(** The state after the write represents the abstract write. *)
Lemma write_record_rep :
  ∃ r', write_record r rec = Ok (r', (en_start e, en_end e)) ∧ ring_rep r' (abs_write a rec).
Proof.
  destruct write_record_eq as (ranges & wraps & -> & Hexp & Hok & Hw). eexists. split; [done|].
  pose proof log_write as Hlog. pose proof (rep_size _ _ Hrep) as Hs. pose proof placed_bounds as Hb.
  split; cbn [ring_bytes ring_head_abs ring_oldest_abs ring_lost_count ring_wraps ring_index
    ring_producer_loss_ranges]; try done.
  - unfold capacity. cbn [ring_bytes]. rewrite written_length. apply (rep_cap _ _ Hrep).
  - apply (rep_pos _ _ Hrep).
  - apply written_bytes_ok.
  - by rewrite dropped_eq.
  - apply write_layout.
  - rewrite Hlog. apply Forall_app. split; [apply (rep_writable _ _ Hrep)|by constructor].
  - apply window_write.
  - rewrite dropped_eq. apply dropped_write.
  - rewrite Hlog, length_app. change (ab_head (abs_write a rec)) with (en_end e). cbn [length]. lia.
Qed.
End step.

Lemma ring_new_rep cap :
  (0 < cap)%nat → ∃ r, ring_new cap = Ok r ∧ ring_rep r (abs_new cap).
Proof.
  intros Hc. unfold ring_new. rewrite decide_False by lia. eexists. split; [done|].
  split; cbn; try done; try constructor; try lia.
  - apply length_replicate.
  - apply Forall_replicate. unfold fits. lia.
Qed.

Lemma take_rep r a :
  ring_rep r a →
  ring_rep (take_producer_loss_ranges r).1 (abs_take a)
  ∧ expand_all (take_producer_loss_ranges r).2 = en_key <$> ab_pending a.
Proof.
  intros Hrep. split; [|apply (rep_ranges _ _ Hrep)].
  assert (Hd : ab_dropped (abs_take a) = ab_dropped a).
  { unfold abs_take, ab_dropped. cbn. apply app_nil_r. }
  assert (Hl : ab_log (abs_take a) = ab_log a) by (unfold ab_log; by rewrite Hd).
  destruct Hrep. split; rewrite ?Hd, ?Hl; done.
Qed.

(** *** Commands on the producer side of the ring *)
Inductive RingCmd := CmdWrite (rec : WireRecord) | CmdTake.

Fixpoint run_cmds (cmds : list RingCmd) (r : RingBuffer) : res RingError (RingBuffer * list LossRange) :=
  match cmds with
  | [] => Ok (r, [])
  | CmdWrite rec :: cmds => '(r, _) ← write_record r rec; run_cmds cmds r
  | CmdTake :: cmds =>
      let '(r, ranges) := take_producer_loss_ranges r in
      '(r, later) ← run_cmds cmds r; Ok (r, ranges ++ later)
  end.

Definition cmd_record (c : RingCmd) : option WireRecord :=
  match c with CmdWrite rec => Some rec | CmdTake => None end.
Definition written (cmds : list RingCmd) : list WireRecord := omap cmd_record cmds.

Definition rec_key (r : WireRecord) : u64 * u32 * u64 := (rec_run_id r, rec_source_id r, rec_seq r).
Definition index_key (i : RecordIndex) : u64 * u32 * u64 := (ri_run_id i, ri_source_id i, ri_seq i).

(** The record fits the ring and the ring can take it. *)
Definition fits_ring (cap : nat) (rec : WireRecord) : Prop :=
  writable rec ∧ (length (enc_record rec true) ≤ cap)%nat.

Lemma abs_write_head r a rec :
  ring_rep r a → fits_ring (ab_cap a) rec →
  ab_head a ≤ ab_head (abs_write a rec) ≤ ab_head a + 2 * Z.of_nat (ab_cap a).
Proof.
  intros Hrep [Hw Hl]. pose proof (placed_bounds _ _ _ Hrep Hw Hl).
  change (ab_head (abs_write a rec)) with (en_end (placed a rec)). lia.
Qed.

Lemma run_cmds_rep cmds : ∀ r a,
  ring_rep r a → Forall (fits_ring (ab_cap a)) (written cmds) →
  ab_head a + 2 * Z.of_nat (ab_cap a) * Z.of_nat (length (written cmds)) < 2 ^ 64 →
  ∃ r' a' taken,
    run_cmds cmds r = Ok (r', taken) ∧ ring_rep r' a' ∧ ab_cap a' = ab_cap a
    ∧ en_rec <$> ab_log a' = (en_rec <$> ab_log a) ++ written cmds
    ∧ en_key <$> ab_reported a' = (en_key <$> ab_reported a) ++ expand_all taken.
Proof.
  induction cmds as [|[rec|] cmds IH]; intros r a Hrep Hfit Hroom; cbn [run_cmds].
  - exists r, a, []. by rewrite !app_nil_r.
  - change (written (CmdWrite rec :: cmds)) with (rec :: written cmds) in *.
    apply Forall_cons_1 in Hfit as [[Hw Hl] Hfit]. cbn [length] in Hroom.
    destruct (write_record_rep r a rec Hrep Hw Hl ltac:(nia)) as (r1 & -> & Hrep1).
    pose proof (abs_write_head r a rec Hrep (conj Hw Hl)).
    destruct (IH r1 (abs_write a rec) Hrep1 Hfit) as (r' & a' & taken & Hrun & Hrep' & Hc & Hlog & Hk).
    { change (ab_cap (abs_write a rec)) with (ab_cap a). nia. }
    rewrite ok_bind. exists r', a', taken. split_and!; [done|done|done| |done].
    rewrite Hlog, (log_write r) by done. rewrite fmap_app, <-app_assoc. done.
  - change (written (CmdTake :: cmds)) with (written cmds) in *.
    destruct (take_rep r a Hrep) as [Hrep1 Hexp].
    destruct (take_producer_loss_ranges r) as [r1 ranges]. cbn [fst snd] in *.
    destruct (IH r1 (abs_take a) Hrep1 Hfit Hroom) as (r' & a' & taken & -> & Hrep' & Hc & Hlog & Hk).
    rewrite ok_bind. exists r', a', (ranges ++ taken). split_and!; [done|done|done| |].
    + rewrite Hlog. f_equal. unfold ab_log, ab_dropped, abs_take. cbn. by rewrite app_nil_r.
    + rewrite Hk, expand_all_app, Hexp. cbn. unfold ab_dropped. by rewrite fmap_app, <-app_assoc.
Qed.

Lemma length_expand_all_pending r a :
  ring_rep r a → length (expand_all (ring_producer_loss_ranges r)) = length (ab_pending a).
Proof. intros Hrep. by rewrite (rep_ranges _ _ Hrep), length_fmap. Qed.
End ring_proofs.

(** ** Properties of the producer side *)

(** A 100-byte ring and five 44-byte records, for the witnesses. *)
Definition demo_record (n : Z) : WireRecord := record_new (100 + n) 1 n 7 3.
Definition demo_abs : AbsRing := foldl abs_write (abs_new 100) (demo_record <$> [0; 1; 2]).

(** C21: every outcome of [write_record] on a ring that represents a log: a
    record that does not encode is refused with the wire error, one longer than
    the pool with [RecordExceedsCapacity], and nothing else is ever refused: a
    writable record that fits is stored at the position [place] picks, its span
    returned, and the new ring represents the abstract write (exactly the
    records more than a capacity below the new head are dropped, oldest first,
    and remembered as pending loss). *)
Theorem write_record_refines {BP : BuildProfile} r a rec :
  ring_rep r a → ab_head a + 2 * Z.of_nat (ab_cap a) < 2 ^ 64 →
  (∀ err, encode rec true = Err err → write_record r rec = Err (RingWire err)) ∧
  (∀ enc, encode rec true = Ok enc → (ab_cap a < length enc)%nat →
     write_record r rec = Err (RecordExceedsCapacity (length enc) (ab_cap a))) ∧
  (∀ enc, encode rec true = Ok enc → (length enc ≤ ab_cap a)%nat → writable rec →
     ∃ r', write_record r rec = Ok (r', (en_start (placed a rec), en_end (placed a rec)))
       ∧ ring_rep r' (abs_write a rec)).
Proof.
  intros Hrep Hroom. split_and!.
  - intros err He. unfold write_record. by rewrite He.
  - intros enc He Hl. unfold write_record. rewrite He. cbn [map_err]. rewrite ok_bind. cbv zeta.
    by rewrite (rep_cap _ _ Hrep), decide_True by done.
  - intros enc [-> _]%encode_Ok Hl Hw. by apply write_record_rep.
Qed.

(** C20: no record is ever unaccounted for: after any sequence of writes and
    drains of the loss ranges on a new ring, the identities in the drained
    ranges, in the ranges still held, and in the index are, in this order,
    exactly the identities of the records written; [lost_count] counts the
    dropped ones; and the live window never exceeds the capacity. *)
Theorem ring_conservation {BP : BuildProfile} cap cmds :
  (0 < cap)%nat → Forall (fits_ring cap) (written cmds) →
  2 * Z.of_nat cap * Z.of_nat (length (written cmds)) < 2 ^ 64 →
  ∃ r taken,
    (r ← ring_new cap; run_cmds cmds r) = Ok (r, taken)
    ∧ expand_all taken ++ expand_all (ring_producer_loss_ranges r) ++ (index_key <$> ring_index r)
      = rec_key <$> written cmds
    ∧ ring_lost_count r
      = Z.of_nat (length (expand_all taken) + length (expand_all (ring_producer_loss_ranges r)))
    ∧ ring_head_abs r - ring_oldest_abs r ≤ Z.of_nat cap.
Proof.
  intros Hcap Hfit Hroom. destruct (ring_new_rep cap Hcap) as (r0 & -> & Hrep0). rewrite ok_bind.
  destruct (run_cmds_rep cmds r0 (abs_new cap) Hrep0 Hfit Hroom)
    as (r & a & taken & -> & Hrep & Hc & Hlog & Hk).
  change ((en_rec <$> ab_log (abs_new cap)) ++ written cmds) with (written cmds) in Hlog.
  change ((en_key <$> ab_reported (abs_new cap)) ++ expand_all taken) with (expand_all taken) in Hk.
  exists r, taken. split_and!; [done|..].
  - rewrite <-Hlog, <-Hk, (rep_ranges _ _ Hrep), (rep_index _ _ Hrep). unfold ab_log, ab_dropped.
    rewrite !fmap_app, <-!list_fmap_compose, <-app_assoc. done.
  - rewrite (rep_lost _ _ Hrep), (length_expand_all_pending _ _ Hrep), <-Hk, length_fmap.
    unfold ab_dropped. by rewrite length_app.
  - rewrite (rep_head _ _ Hrep), (rep_oldest _ _ Hrep). change cap with (ab_cap (abs_new cap)).
    rewrite <-Hc. apply (rep_window _ _ Hrep).
Qed.

Definition demo_cmds : list RingCmd :=
  (CmdWrite ∘ demo_record <$> [0; 1; 2]) ++ [CmdTake; CmdWrite (demo_record 3)].

Lemma ring_conservation_witness :
  ∃ r taken,
    (r ← ring_new 100; run_cmds (BP:=dev_profile) demo_cmds r) = Ok (r, taken)
    ∧ expand_all taken ++ expand_all (ring_producer_loss_ranges r) ++ (index_key <$> ring_index r)
      = rec_key <$> written demo_cmds
    ∧ ring_lost_count r
      = Z.of_nat (length (expand_all taken) + length (expand_all (ring_producer_loss_ranges r)))
    ∧ ring_head_abs r - ring_oldest_abs r ≤ Z.of_nat 100.
Proof.
  apply (ring_conservation (BP:=dev_profile) 100 demo_cmds); [lia| |by_compute].
  unfold fits_ring. by_compute.
Defined.

Lemma write_record_refines_witness :
  ∃ r r', ring_rep r (abs_new 100)
    ∧ write_record (BP:=release_profile) r (demo_record 0) = Ok (r', (0, 44))
    ∧ ring_rep r' (abs_write (abs_new 100) (demo_record 0)).
Proof.
  destruct (ring_new_rep 100) as (r & _ & Hrep); [lia|].
  destruct (write_record_refines (BP:=release_profile) r (abs_new 100) (demo_record 0) Hrep)
    as (_ & _ & H); [by_compute|].
  destruct (H (enc_record (demo_record 0) true)) as (r' & Hw & Hrep');
    [vm_compute; reflexivity|by_compute|by_compute|].
  exists r, r'. split_and!; [exact Hrep|exact Hw|exact Hrep'].
Defined.
