(* ===== verification/RingRead.v ===== *)
(** * The ring's readers (crates/carriage/src/ring.rs)

    What [read_from] and [read_raw_from] return on a ring that represents a
    log, that they agree, and that the raw walk is total and sound on any
    bytes, a captured image included. *)
From S2P Require Import Prelude Crc Wire Control Layout Ring.

#[local] Arguments from_le_bytes : simpl never.
#[local] Arguments to_le_bytes : simpl never.

(** What a reader returns for an entry. *)
Definition en_read (e : Entry) : ReadRecord :=
  {| rr_start_abs := en_start e; rr_end_abs := en_end e; rr_record := stored (en_rec e) |}.

(** An accepted decode consumed a whole frame. *)
Lemma decode_consumed bs d : decode bs = Ok d → (HEADER_LEN ≤ dec_consumed d ≤ length bs)%nat.
Proof.
  intros Hd. unfold decode in Hd. destruct (validate_record bs) as [n| | |] eqn:Hv; try done.
  apply validate_Ok in Hv as ((Hb & _) & _). rewrite ok_bind in Hd.
  repeat (apply bind_Ok in Hd as (? & _ & Hd)). by injection Hd as <-.
Qed.

Section read.
Context {BP : BuildProfile}.

(** ** Reading one stored record *)
Section entry.
Context (bs : bytes) (e : Entry).
Abbreviation cap := (length bs).
Abbreviation p := (phys (length bs) (en_start e)).
Context (Hok : entry_ok e) (Hfit : (p + en_len e ≤ cap)%nat) (Hseg : seg bs p (en_len e) = en_bytes e).

Lemma entry_head :
  bs !! p = Some 0x4F ∧ seg bs p 4 = SYNC ∧ Z.to_nat (from_le_bytes (seg bs (p + 4) 2)) = en_len e.
Proof.
  destruct (frame_encoded (en_rec e) true [] (proj1 Hok) (proj2 Hok)) as (((_ & Hs & Hl & _) & _) & _).
  rewrite app_nil_r in Hs, Hl. fold (en_bytes e) in Hs, Hl.
  destruct (en_len_bounds e Hok) as [H44 _].
  rewrite <-Hseg, seg_seg in Hs, Hl by lia. rewrite Nat.add_0_r in Hs. split_and!; [|done|].
  - rewrite <-(Nat.add_0_r p). by rewrite (lookup_of_seg bs p 4 SYNC 0 Hs) by lia.
  - rewrite Hl. unfold en_len, en_bytes. by rewrite length_enc_record.
Qed.

Lemma entry_slice {E} : slice (E:=E) bs p (p + en_len e) = Ok (en_bytes e).
Proof. rewrite slice_ok by lia. by replace (p + en_len e - p)%nat with (en_len e) by lia; rewrite Hseg. Qed.

Lemma entry_decode :
  decode (en_bytes e) = Ok {| dec_record := stored (en_rec e); dec_consumed := en_len e |}.
Proof. pose proof (encodable_decode (en_rec e) [] Hok) as H. by rewrite app_nil_r in H. Qed.

Lemma read_indexed_entry acc :
  read_indexed bs (en_index e) acc = Ok (acc ++ [en_read e]).
Proof.
  assert (Hcap : (0 < cap)%nat) by (destruct (en_len_bounds e Hok); lia).
  unfold read_indexed. cbn [en_index ri_start_abs ri_end_abs ri_run_id ri_source_id ri_seq].
  rewrite physical_offset_ok, ok_bind by done.
  rewrite sub_w_ok, !ok_bind by (unfold en_end; lia).
  replace (Z.to_nat (en_end e - en_start e)) with (en_len e) by (unfold en_end; lia).
  rewrite entry_slice, ok_bind, entry_decode. cbn [map_err]. rewrite ok_bind. cbv zeta.
  cbn [dec_record stored with_flags rec_run_id rec_source_id rec_seq].
  by rewrite !debug_assert_ok, !ok_bind by (by apply bool_decide_true).
Qed.
End entry.

Lemma read_indexed_all bs a es h acc :
  (0 < length bs)%nat → layout bs a es h →
  for_each (read_indexed bs) (en_index <$> es) acc = Ok (acc ++ (en_read <$> es)).
Proof.
  intros Hcap. revert a acc. induction es as [|e es IH]; intros a acc H.
  - by rewrite app_nil_r.
  - pose proof (layout_ok _ _ _ _ H) as He. apply Forall_cons_1 in He as [He _].
    destruct (layout_inv _ Hcap _ _ _ _ H) as (Hfit & Hseg & Ht).
    rewrite !fmap_cons. cbn [for_each]. rewrite read_indexed_entry, ok_bind by done.
    by rewrite (IH _ _ Ht), <-app_assoc.
Qed.

(** ** The raw walk follows the layout *)
Lemma raw_loop_layout bs abs es h : layout bs abs es h → ∀ fuel fo oa calls acc,
  (0 < length bs)%nat → h < 2 ^ 64 → fo ≤ abs → (∀ k, oa k ≤ abs) → h - abs ≤ Z.of_nat fuel →
  raw_loop fuel bs h fo oa calls abs acc = Ok (acc ++ (en_read <$> es), (calls + length es)%nat).
Proof.
  induction 1 as [a|e es h Hok Hfit Hseg Hrest IH|a e es h Hp Hb Hrest IH];
    intros fuel fo oa calls acc Hcap Hh Hfo Hoa Hfuel.
  - rewrite app_nil_r, Nat.add_0_r. destruct fuel; cbn [raw_loop]; by rewrite decide_False by lia.
  - destruct (en_len_bounds e Hok) as [H44 _].
    pose proof (layout_bounds _ _ _ _ Hrest) as [Hle _]. unfold en_end in Hle.
    destruct (entry_head bs e Hok Hfit Hseg) as (Hfirst & Hsync & Htot).
    destruct fuel as [|fuel]; [lia|]. cbn [raw_loop]. rewrite decide_True, decide_False by lia.
    rewrite physical_offset_ok, ok_bind, (index_ok _ _ _ Hfirst), ok_bind by done.
    rewrite decide_False by done. rewrite decide_False by (unfold HEADER_LEN; lia).
    rewrite slice_ok, ok_bind by lia.
    replace (phys (length bs) (en_start e) + 4 - phys (length bs) (en_start e))%nat with 4%nat by lia.
    rewrite Hsync, decide_False by tauto.
    rewrite (read_u16_ok (E:=RingError) bs) by lia. rewrite !ok_bind, Htot.
    rewrite decide_False by (unfold HEADER_LEN; lia). rewrite decide_False by lia.
    rewrite entry_slice, ok_bind, entry_decode by done. cbn [map_err]. rewrite ok_bind.
    cbn [dec_record dec_consumed]. rewrite decide_False by (specialize (Hoa calls); lia).
    rewrite !add_w_ok, !ok_bind by lia. fold (en_end e).
    unfold en_end in *. rewrite IH; [|done|done|lia|intros k; specialize (Hoa k); lia|lia].
    rewrite <-app_assoc, fmap_cons. cbn [length app]. do 2 f_equal; lia.
  - pose proof (phys_lt _ Hcap a). pose proof (layout_bounds _ _ _ _ Hrest) as [Hle _].
    destruct fuel as [|fuel]; [lia|]. cbn [raw_loop]. rewrite decide_True, decide_False by lia.
    rewrite physical_offset_ok, ok_bind, (index_ok _ _ _ Hb), ok_bind by done.
    rewrite decide_True, decide_False by done. rewrite add_w_ok, ok_bind by lia.
    apply IH; [done|done|lia|intros k; specialize (Hoa k); lia|lia].
Qed.

Lemma raw_loop_done fuel bs h fo oa calls abs acc :
  h ≤ abs → raw_loop fuel bs h fo oa calls abs acc = Ok (acc, calls).
Proof. intros. destruct fuel; cbn [raw_loop]; by rewrite decide_False by lia. Qed.

(** ** The raw walk on arbitrary bytes *)
Lemma raw_loop_returns fuel : ∀ bs h fo oa calls abs acc,
  (0 < length bs)%nat → bytes_ok bs → h + Z.of_nat (length bs) ≤ 2 ^ 64 →
  h - abs ≤ Z.of_nat fuel → returns (raw_loop fuel bs h fo oa calls abs acc).
Proof.
  induction fuel as [|fuel IH]; intros bs h fo oa calls abs acc Hcap Hok Hh Hf; cbn [raw_loop];
    (case_decide; [|done]); [lia|]. case_decide; [done|].
  rewrite physical_offset_ok, ok_bind by done. pose proof (phys_lt _ Hcap abs) as Hp.
  destruct (index_lt (E:=RingError) bs (phys (length bs) abs) Hp) as (b & Hb & ->). rewrite ok_bind.
  case_decide.
  { case_decide; [done|]. rewrite add_w_ok, ok_bind by lia. apply IH; [done..|lia]. }
  case_decide; [done|]. unfold HEADER_LEN in *. rewrite slice_ok, ok_bind by lia. case_decide; [done|].
  change (read_le_u16 (E:=RingError)) with (read_u16 (E:=RingError)).
  rewrite read_u16_ok, !ok_bind by lia. set (n := Z.to_nat (from_le_bytes _)).
  case_decide; [done|]. case_decide; [done|]. rewrite slice_ok, ok_bind by lia.
  set (s := seg bs (phys (length bs) abs) (phys (length bs) abs + n - phys (length bs) abs)).
  assert (Hs : bytes_ok s) by (by apply bytes_ok_seg).
  pose proof (decode_total s Hs) as Hr. destruct (decode s) as [d| | |] eqn:Hd; try done.
  cbn [map_err]. rewrite ok_bind. case_decide; [done|].
  apply decode_consumed in Hd. unfold s in Hd. rewrite length_seg in Hd by lia. unfold HEADER_LEN in Hd.
  rewrite !add_w_ok, !ok_bind by lia. apply IH; [done..|lia].
Qed.

(** [spans]: successive records are where their offsets say, in order, above
    [abs] and below [h], and not below the oldest byte seen after each. *)
Definition at_span (bs : bytes) (x : ReadRecord) : Prop :=
  let n := Z.to_nat (rr_end_abs x - rr_start_abs x) in
  (phys (length bs) (rr_start_abs x) + n ≤ length bs)%nat ∧ rr_start_abs x < rr_end_abs x
  ∧ decode (seg bs (phys (length bs) (rr_start_abs x)) n)
    = Ok {| dec_record := rr_record x; dec_consumed := n |}.

Fixpoint spans (bs : bytes) (h : Z) (oa : nat → Z) (calls : nat) (abs : Z) (l : list ReadRecord) : Prop :=
  match l with
  | [] => True
  | x :: l => abs ≤ rr_start_abs x < h ∧ oa calls ≤ rr_start_abs x ∧ at_span bs x
              ∧ spans bs h oa (S calls) (rr_end_abs x) l
  end.

Lemma spans_weaken bs h oa calls abs abs' l :
  abs' ≤ abs → spans bs h oa calls abs l → spans bs h oa calls abs' l.
Proof. destruct l; simpl; [done|]. intros ? (? & ?). split; [lia|done]. Qed.

Lemma raw_loop_sound fuel : ∀ bs h fo oa calls abs acc recs calls',
  (0 < length bs)%nat → h + Z.of_nat (length bs) ≤ 2 ^ 64 →
  raw_loop fuel bs h fo oa calls abs acc = Ok (recs, calls') →
  ∃ new, recs = acc ++ new ∧ calls' = (calls + length new)%nat ∧ spans bs h oa calls abs new.
Proof.
  induction fuel as [|fuel IH]; intros bs h fo oa calls abs acc recs calls' Hcap Hh; cbn [raw_loop];
    (case_decide; [try done|intros [= <- <-]; exists []; by rewrite app_nil_r, Nat.add_0_r]).
  case_decide; [done|].
  rewrite physical_offset_ok, ok_bind by done. pose proof (phys_lt _ Hcap abs) as Hp.
  destruct (index_lt (E:=RingError) bs (phys (length bs) abs) Hp) as (b & Hb & ->). rewrite ok_bind.
  case_decide.
  { case_decide; [done|]. rewrite add_w_ok, ok_bind by lia.
    intros (new & ? & ? & Hsp)%IH; [|done..]. exists new. split_and!; [done..|].
    eapply spans_weaken; [|exact Hsp]. lia. }
  case_decide; [done|]. unfold HEADER_LEN in *. rewrite slice_ok, ok_bind by lia. case_decide as Hsync; [done|].
  change (read_le_u16 (E:=RingError)) with (read_u16 (E:=RingError)).
  rewrite read_u16_ok, !ok_bind by lia. set (n := Z.to_nat (from_le_bytes _)).
  case_decide; [done|]. case_decide; [done|]. rewrite slice_ok, ok_bind by lia.
  replace (phys (length bs) abs + n - phys (length bs) abs)%nat with n by lia.
  destruct (decode _) as [d| | |] eqn:Hd; try done.
  cbn [map_err]. rewrite ok_bind. case_decide; [done|].
  assert (Hn : dec_consumed d = n).
  { pose proof Hd as Hv. unfold decode in Hv. destruct (validate_record _) as [m| | |] eqn:Hval; try done.
    rewrite ok_bind in Hv. repeat (apply bind_Ok in Hv as (? & _ & Hv)). injection Hv as <-. cbn.
    apply validate_Ok in Hval as ((_ & _ & Hm & _) & _). rewrite <-Hm, seg_seg by lia. done. }
  rewrite Hn, add_w_ok, !ok_bind by lia.
  intros (new & -> & -> & Hsp)%IH; [|done..].
  eexists (_ :: new). rewrite <-app_assoc. split_and!; [done|cbn; lia|]. cbn [spans].
  cbn [rr_start_abs rr_end_abs]. split_and!; [lia|lia|lia| |done].
  unfold at_span. cbn [rr_start_abs rr_end_abs rr_record].
  replace (Z.to_nat (abs + Z.of_nat n - abs)) with n by lia. split_and!; [lia|lia|].
  rewrite Hd. f_equal. destruct d. cbn in Hn. by subst.
Qed.

(** ** Reading a ring that represents a log *)

(** The cursors a reader is ever handed or can resume from: at or below the
    oldest byte, at or past the head, or where a live record starts or ends. *)
Definition boundary (a : AbsRing) (c : u64) : Prop :=
  c ≤ ab_oldest a ∨ ab_head a ≤ c ∨ Exists (λ e, c = en_start e ∨ c = en_end e) (ab_live a).

(** What is readable from a cursor. *)
Definition readable (a : AbsRing) (c : u64) : list Entry :=
  filter (λ e, Z.max c (ab_oldest a) ≤ en_start e) (ab_live a).

Definition batch_of (a : AbsRing) (c : u64) : ReadBatch :=
  {| rb_records := en_read <$> readable a c; rb_next_abs := ab_head a;
     rb_lapped := bool_decide (c < ab_oldest a) |}.

Lemma filter_split (c : Z) es1 es2 :
  Forall (λ e, en_start e < c) es1 → Forall (λ e, c ≤ en_start e) es2 →
  filter (λ e, c ≤ en_start e) (es1 ++ es2) = es2.
Proof.
  intros H1 H2. rewrite filter_app.
  rewrite filter_none, filter_all; [done|done|]. eapply Forall_impl; [exact H1|]. simpl. lia.
Qed.

Section rep.
Context (r : RingBuffer) (a : AbsRing) (Hrep : ring_rep r a).

Lemma rep_ne : (0 < length (ring_bytes r))%nat.
Proof. by eapply rep_nonempty. Qed.

(** From a boundary, the walk covers exactly what is readable. *)
Lemma boundary_layout c :
  boundary a c → Z.max c (ab_oldest a) < ab_head a →
  layout (ring_bytes r) (Z.max c (ab_oldest a)) (readable a c) (ab_head a).
Proof.
  intros Hb Hlt. pose proof (rep_layout _ _ Hrep) as Hl. pose proof rep_ne as Hne.
  unfold readable. set (m := Z.max c (ab_oldest a)) in *.
  assert (Hsplit : ∃ es1 es2, ab_live a = es1 ++ es2 ∧ Forall (λ e, en_start e < m) es1
    ∧ layout (ring_bytes r) m es2 (ab_head a)).
  { destruct (decide (c ≤ ab_oldest a)).
    { exists [], (ab_live a). replace m with (ab_oldest a) by lia. by split_and!. }
    destruct Hb as [?|[?|Hex]]; [lia|lia|].
    apply Exists_exists in Hex as (e & He & Hc). apply list_elem_of_split in He as (es1 & es2 & Heq).
    rewrite Heq in Hl. assert (He : entry_ok e).
    { apply layout_ok in Hl. apply Forall_app in Hl as [_ Hl]. by apply Forall_cons_1 in Hl as [? _]. }
    destruct (en_len_bounds e He) as [H44 _].
    pose proof (layout_prefix_end _ _ _ _ _ Hne Hl) as Hpre. cbn [from_option head] in Hpre.
    assert (Hpre' : Forall (λ x, en_start x < en_start e) es1).
    { apply Forall_forall. intros x Hx. rewrite Forall_forall in Hpre. destruct (Hpre x Hx) as [_ Hend].
      apply layout_ok in Hl. apply Forall_app in Hl as [Hl _]. rewrite Forall_forall in Hl.
      destruct (en_len_bounds x (Hl x Hx)). unfold en_end in Hend. lia. }
    pose proof (layout_suffix _ Hne _ _ _ _ Hl) as Hsuf. cbn [from_option head] in Hsuf.
    destruct Hc as [->| ->].
    - exists es1, (e :: es2). replace m with (en_start e) by lia. by split_and!.
    - exists (es1 ++ [e]), es2. replace m with (en_end e) by lia. rewrite <-app_assoc.
      split_and!; [done| |by apply layout_tail in Hsuf]. apply Forall_app. split.
      + eapply Forall_impl; [exact Hpre'|]. simpl. unfold en_end. lia.
      + constructor; [unfold en_end; lia|done]. }
  destruct Hsplit as (es1 & es2 & -> & H1 & H2). rewrite filter_split; [done|done|].
  apply layout_bounds in H2 as [_ H2]. eapply Forall_impl; [exact H2|]. simpl. lia.
Qed.

Lemma readable_none c : ab_head a ≤ Z.max c (ab_oldest a) → readable a c = [].
Proof.
  intros Hge. unfold readable. pose proof (layout_bounds _ _ _ _ (rep_layout _ _ Hrep)) as [_ Hb].
  pose proof (layout_ok _ _ _ _ (rep_layout _ _ Hrep)) as Hok.
  apply filter_none, Forall_forall. intros e He Hle.
  rewrite Forall_forall in Hb, Hok. destruct (Hb e He), (en_len_bounds e (Hok e He)).
  unfold en_end in *. lia.
Qed.

Lemma read_raw_from_rep c :
  ab_head a < 2 ^ 64 → boundary a c → read_raw_from r c = Ok (batch_of a c).
Proof.
  intros Hh Hb. unfold read_raw_from, read_raw_window. rewrite (rep_head _ _ Hrep), (rep_oldest _ _ Hrep).
  assert (Hm : (if bool_decide (c < ab_oldest a) then ab_oldest a else c) = Z.max c (ab_oldest a))
    by (case_bool_decide; lia).
  rewrite Hm. unfold batch_of. destruct (decide (Z.max c (ab_oldest a) < ab_head a)).
  - rewrite (raw_loop_layout _ _ _ _ (boundary_layout c Hb ltac:(done)));
      [|apply rep_ne|done|lia|intros; lia|lia].
    rewrite ok_bind. cbv beta iota zeta. by rewrite decide_False by tauto.
  - rewrite raw_loop_done, ok_bind by lia. cbv beta iota zeta.
    rewrite decide_False by tauto. by rewrite readable_none by lia.
Qed.

Lemma read_from_rep c : read_from r c = Ok (batch_of a c).
Proof.
  unfold read_from. rewrite (rep_head _ _ Hrep), (rep_oldest _ _ Hrep), (rep_index _ _ Hrep).
  assert (Hm : (if bool_decide (c < ab_oldest a) then ab_oldest a else c) = Z.max c (ab_oldest a))
    by (case_bool_decide; lia).
  rewrite Hm, filter_fmap_list. pose proof (rep_layout _ _ Hrep) as Hl. pose proof rep_ne as Hne.
  change (filter _ (ab_live a)) with (readable a c).
  assert (Hsuf : ∃ m, layout (ring_bytes r) m (readable a c) (ab_head a)).
  { pose proof (layout_sorted _ _ _ _ Hne Hl) as Hsort.
    pose proof (split_filter_sorted (Z.max c (ab_oldest a)) _ Hsort) as Heq.
    rewrite Heq in Hl. apply layout_suffix in Hl; [|done]. eexists.
    replace (readable a c) with (filter (λ x, ¬ en_start x < Z.max c (ab_oldest a)) (ab_live a)); [exact Hl|].
    apply list_filter_iff. intros x. lia. }
  destruct Hsuf as (m & Hlay). by rewrite (read_indexed_all _ _ _ _ _ Hne Hlay), ok_bind.
Qed.
End rep.

(** ** Properties of the readers *)

(** The index reader, for any cursor: it returns exactly the live records
    that start at or after the cursor (or after the oldest byte when the cursor
    fell behind, which sets [lapped]), in order and as written, and the head as
    the cursor to resume from; no debug assertion fails. *)
Theorem read_from_spec r a c : ring_rep r a → read_from r c = Ok (batch_of a c).
Proof. intros Hrep. by apply read_from_rep. Qed.

(** C28: the raw byte walk is equivalent to the index reader from every cursor a
    reader can hold: following wrap markers and parsing headers out of the pool
    finds exactly the indexed records, and the walk always ends. *)
Theorem raw_equals_indexed r a c :
  ring_rep r a → ab_head a < 2 ^ 64 → boundary a c →
  read_raw_from r c = read_from r c ∧ read_raw_from r c = Ok (batch_of a c).
Proof. intros Hrep Hh Hb. by rewrite (read_from_rep _ _ Hrep), (read_raw_from_rep _ _ Hrep). Qed.

(** A live window a ring of these bytes can have. *)
Definition window_possible (bs : bytes) (head oldest : u64) : Prop :=
  (0 < length bs)%nat ∧ oldest ≤ head ≤ oldest + Z.of_nat (length bs).

(** A captured image is accepted exactly when its window is possible, and
    whatever its bytes are, a raw read of it from any cursor returns: no index
    is out of range, no addition overflows, the walk ends. *)
Theorem captured_read_total bs head oldest lost c :
  bytes_ok bs → 0 ≤ head → head + Z.of_nat (length bs) ≤ 2 ^ 64 →
  match from_captured bs head oldest lost with
  | Ok r => window_possible bs head oldest ∧ returns (read_raw_from r c)
  | Err _ => ¬ window_possible bs head oldest
  | _ => False
  end.
Proof.
  intros Hok H0 Hh. unfold from_captured, window_possible. cbv zeta. case_decide; [lia|].
  case_decide; [lia|]. rewrite sub_w_ok, ok_bind by lia. case_decide; [lia|].
  split; [lia|]. unfold read_raw_from, read_raw_window. cbn [ring_bytes ring_head_abs ring_oldest_abs].
  apply returns_bind.
  - apply raw_loop_returns; [lia|done|done|]. lia.
  - intros [records calls] _. by case_decide.
Qed.

(** C34: the raw walk never delivers a record it should not, on any bytes and
    whatever the producer's [OldestAbs] does between its reads: every record of
    a batch is the frame that lies at its offset, wholly inside the pool; the
    records are in order and do not overlap; none starts below the cursor nor
    below the oldest byte observed after it was read; and when the oldest byte
    moved during the read, it had not passed the cursor. *)
Theorem read_raw_window_sound r c head fo oa b :
  (0 < capacity r)%nat → head + Z.of_nat (capacity r) ≤ 2 ^ 64 →
  read_raw_window r c head fo oa = Ok b →
  spans (ring_bytes r) head oa 0 (Z.max c fo) (rb_records b)
  ∧ rb_next_abs b = head ∧ rb_lapped b = bool_decide (c < fo)
  ∧ (oa (length (rb_records b)) = fo ∨ oa (length (rb_records b)) ≤ c).
Proof.
  intros Hcap Hh. unfold read_raw_window.
  replace (if bool_decide (c < fo) then fo else c) with (Z.max c fo) by (case_bool_decide; lia).
  destruct (raw_loop _ _ _ _ _ _ _ _) as [[recs calls]| | |] eqn:Hloop; try done.
  apply raw_loop_sound in Hloop as (new & -> & -> & Hsp); [|done..].
  rewrite ok_bind. cbv beta iota zeta. case_decide as Hd; [done|]. intros [= <-].
  cbn [rb_records rb_next_abs rb_lapped app length Nat.add] in *. split_and!; [done..|].
  destruct (decide (oa (length new) = fo)); [by left|right]. lia.
Qed.

End read.

(** ** Witnesses *)
Section witnesses.
#[local] Existing Instance release_profile.

(** Three records through a 100-byte ring: a wrap gap and two evictions. *)
Lemma demo_rep : ∃ r, ring_rep r demo_abs.
Proof.
  destruct (ring_new_rep 100) as (r0 & _ & H0); [lia|].
  destruct (write_record_rep r0 _ (demo_record 0) H0) as (r1 & _ & H1); [by_compute..|].
  destruct (write_record_rep r1 _ (demo_record 1) H1) as (r2 & _ & H2); [by_compute..|].
  destruct (write_record_rep r2 _ (demo_record 2) H2) as (r3 & _ & H3); [by_compute..|].
  by exists r3.
Qed.

Lemma read_from_spec_witness : ∃ r, read_from r 60 = Ok (batch_of demo_abs 60).
Proof. destruct demo_rep as [r Hr]. exists r. by apply read_from_spec. Defined.

Lemma raw_equals_indexed_witness :
  ∃ r, read_raw_from r 88 = read_from r 88 ∧ read_raw_from r 88 = Ok (batch_of demo_abs 88).
Proof.
  destruct demo_rep as [r Hr]. exists r.
  apply raw_equals_indexed; [exact Hr|by_compute|unfold boundary; by_compute].
Defined.

Lemma captured_read_total_witness :
  match from_captured (replicate 50 7) 60 20 0 with
  | Ok r => window_possible (replicate 50 7) 60 20 ∧ returns (read_raw_from r 3)
  | _ => False
  end.
Proof. apply (captured_read_total (replicate 50 7) 60 20 0 3); by_compute. Defined.

Definition demo_pool : RingBuffer :=
  {| ring_bytes := enc_record (demo_record 4) true; ring_head_abs := 44; ring_oldest_abs := 0;
     ring_lost_count := 0; ring_wraps := 0; ring_index := []; ring_producer_loss_ranges := [] |}.
Definition demo_batch : ReadBatch :=
  {| rb_records := [{| rr_start_abs := 0; rr_end_abs := 44; rr_record := stored (demo_record 4) |}];
     rb_next_abs := 44; rb_lapped := false |}.

Lemma read_raw_window_sound_witness :
  spans (ring_bytes demo_pool) 44 (λ _, 0) 0 (Z.max 0 0) (rb_records demo_batch)
  ∧ rb_next_abs demo_batch = 44 ∧ rb_lapped demo_batch = bool_decide (0 < 0)
  ∧ (0 = 0 ∨ 0 ≤ 0).
Proof.
  apply (read_raw_window_sound demo_pool 0 44 0 (λ _, 0) demo_batch);
    [by_compute|by_compute|vm_compute; reflexivity].
Defined.
End witnesses.
