(* ===== verification/Loss.v ===== *)
(** * Loss accounting (crates/carriage/src/loss.rs)

    The tracker that reconciles sequence gaps, authoritative [RecordsDropped]
    records and source high-water checkpoints into one union of intervals. *)
From S2P Require Import Prelude Crc Wire Registry Layout Ring.

Record LossEvent := MkLossEvent {
  le_buffer_id : u32;
  le_run_id : u64;
  le_source_id : u32;
  le_first_seq : u64;
  le_last_seq : u64;
  le_count : u64;
  le_synthetic : bool;
}.

#[global] Instance LossEvent_eq_dec : EqDecision LossEvent.
Proof. solve_decision. Defined.

(** The two [BTreeMap]s are only looked up and updated by key. *)
Record LossTracker := MkLossTracker {
  lt_buffer_id : u32;
  lt_next_seq_by_source : gmap (u64 * u32) u64;
  lt_delivered_by_source : gmap (u64 * u32) u64;
  lt_loss_events : list LossEvent;
}.

Definition tracker_new (buffer_id : u32) : LossTracker :=
  {| lt_buffer_id := buffer_id; lt_next_seq_by_source := ∅; lt_delivered_by_source := ∅;
     lt_loss_events := [] |}.

Section loss.
Context {BP : BuildProfile} {E : Type}.

(** ** Interval union *)
Definition same_loss_stream (left right : LossEvent) : bool :=
  bool_decide (le_buffer_id left = le_buffer_id right) && bool_decide (le_run_id left = le_run_id right)
  && bool_decide (le_source_id left = le_source_id right).

Definition ranges_touch_or_overlap (left right : LossEvent) : bool :=
  bool_decide (le_first_seq right ≤ saturating_add64 (le_last_seq left) 1)
  && bool_decide (le_first_seq left ≤ saturating_add64 (le_last_seq right) 1).

(** The condition of [retain]'s closure: the event is taken out and merged. *)
Definition absorbed (event existing : LossEvent) : bool :=
  same_loss_stream existing event && ranges_touch_or_overlap existing event.

(** One turn of the merging [for] loop. *)
Definition merge_interval (interval : LossEvent) (merged : list LossEvent) : res E (list LossEvent) :=
  match last merged with
  | Some l =>
      if ranges_touch_or_overlap l interval then
        let first := Z.min (le_first_seq l) (le_first_seq interval) in
        let last := Z.max (le_last_seq l) (le_last_seq interval) in
        d ← sub64 last first;
        count ← add64 d 1;
        Ok (removelast merged ++
          [{| le_buffer_id := le_buffer_id l; le_run_id := le_run_id l; le_source_id := le_source_id l;
              le_first_seq := first; le_last_seq := last; le_count := count;
              le_synthetic := le_synthetic l && le_synthetic interval |}])
      else Ok (merged ++ [interval])
  | None => Ok (merged ++ [interval])
  end.

Definition insert_loss_event (events : list LossEvent) (event : LossEvent) : res E (list LossEvent) :=
  let intervals := filter (λ existing, absorbed event existing = true) events in
  let retained := filter (λ existing, ¬ absorbed event existing = true) events in
  let intervals := sort_by_key le_first_seq (intervals ++ [event]) in
  merged ← for_each merge_interval intervals [];
  Ok (retained ++ merged).

Definition with_loss_event (t : LossTracker) (event : LossEvent) : res E LossTracker :=
  events ← insert_loss_event (lt_loss_events t) event;
  Ok {| lt_buffer_id := lt_buffer_id t; lt_next_seq_by_source := lt_next_seq_by_source t;
        lt_delivered_by_source := lt_delivered_by_source t; lt_loss_events := events |}.

(** ** The authoritative records *)
Definition records_dropped_record (seq : u64) (range : LossRange) : res E WireRecord :=
  source_time ← add64 1780000000000000000 seq;
  n ← count range;
  let record := record_new source_time (lr_run_id range) seq (lr_source_id range) EVENT_RECORDS_DROPPED in
  Ok (with_slots record (rec_slots record ++
        [{| slot_key := KEY_DROPPED_COUNT; slot_ty := TY_UDINT; slot_payload := to_le_bytes 4 (n mod 2 ^ 32) |};
         {| slot_key := KEY_FIRST_LOST_SEQ; slot_ty := TY_ULINT;
            slot_payload := to_le_bytes 8 (lr_first_seq range) |};
         {| slot_key := KEY_LAST_LOST_SEQ; slot_ty := TY_ULINT;
            slot_payload := to_le_bytes 8 (lr_last_seq range) |}])).

(** The [for slot in &record.slots] loop: the last slot of each key wins. *)
Definition dropped_slot (acc : option u64 * option u64 * option u64) (slot : Slot)
  : option u64 * option u64 * option u64 :=
  let '(count, first, last) := acc in
  let n := length (slot_payload slot) in
  let v := from_le_bytes (slot_payload slot) in
  if decide (slot_key slot = KEY_DROPPED_COUNT ∧ n = 4%nat) then (Some v, first, last)
  else if decide (slot_key slot = KEY_FIRST_LOST_SEQ ∧ n = 8%nat) then (count, Some v, last)
  else if decide (slot_key slot = KEY_LAST_LOST_SEQ ∧ n = 8%nat) then (count, first, Some v)
  else acc.

Definition parse_records_dropped (record : WireRecord) (buffer_id : u32) : res E (option LossEvent) :=
  if decide (rec_event_type_id record ≠ EVENT_RECORDS_DROPPED) then Ok None else
  match foldl dropped_slot (None, None, None) (rec_slots record) with
  | (Some count, Some first, Some last) =>
      if decide (last < first) then Ok None else
      d ← sub64 last first;
      n ← add64 d 1;
      if decide (count ≠ n) then Ok None else
      Ok (Some {| le_buffer_id := buffer_id; le_run_id := rec_run_id record;
                  le_source_id := rec_source_id record; le_first_seq := first; le_last_seq := last;
                  le_count := count;
                  le_synthetic := negb (Z.land (rec_flags record) FLAG_SYNTHETIC =? 0) |})
  | _ => Ok None
  end.

(** [find_map] over the slots. *)
Fixpoint find_high_water (seq : u64) (slots : list Slot) : option u64 :=
  match slots with
  | [] => None
  | slot :: slots =>
      if decide (slot_key slot ≠ KEY_SOURCE_HIGH_WATER ∨ length (slot_payload slot) ≠ 8%nat)
      then find_high_water seq slots
      else let produced_count := from_le_bytes (slot_payload slot) in
           if decide (produced_count = seq) then Some produced_count else find_high_water seq slots
  end.

Definition parse_source_high_water (record : WireRecord) : option u64 :=
  if decide (rec_event_type_id record ≠ EVENT_SOURCE_HIGH_WATER) then None
  else find_high_water (rec_seq record) (rec_slots record).

(** ** Accounting a record *)
Definition source_key (record : WireRecord) : u64 * u32 := (rec_run_id record, rec_source_id record).

(** The block under [if let Some(produced_count) = ... && produced_count > expected]. *)
Definition account_high_water (t : LossTracker) (record : WireRecord) (expected : u64) : res E LossTracker :=
  match parse_source_high_water record with
  | Some produced_count =>
      if decide (expected < produced_count) then
        last ← sub64 produced_count 1;
        n ← sub64 produced_count expected;
        with_loss_event t
          {| le_buffer_id := lt_buffer_id t; le_run_id := rec_run_id record;
             le_source_id := rec_source_id record; le_first_seq := expected; le_last_seq := last;
             le_count := n; le_synthetic := false |}
      else Ok t
  | None => Ok t
  end.

(** The block under [if record.seq > expected]. *)
Definition account_gap (t : LossTracker) (record : WireRecord) (expected : u64) : res E LossTracker :=
  if decide (expected < rec_seq record) then
    last ← sub64 (rec_seq record) 1;
    d ← sub64 last expected;
    n ← add64 d 1;
    with_loss_event t
      {| le_buffer_id := lt_buffer_id t; le_run_id := rec_run_id record;
         le_source_id := rec_source_id record; le_first_seq := expected; le_last_seq := last;
         le_count := n; le_synthetic := true |}
  else Ok t.

(** The block under [if record.seq >= expected]. *)
Definition account_delivery (t : LossTracker) (record : WireRecord) (expected : u64) : res E LossTracker :=
  if decide (expected ≤ rec_seq record) then
    delivered ← add64 (default 0 (lt_delivered_by_source t !! source_key record)) 1;
    next ← add64 (rec_seq record) 1;
    Ok {| lt_buffer_id := lt_buffer_id t;
          lt_next_seq_by_source := <[source_key record := next]> (lt_next_seq_by_source t);
          lt_delivered_by_source := <[source_key record := delivered]> (lt_delivered_by_source t);
          lt_loss_events := lt_loss_events t |}
  else Ok t.

Definition account (record : WireRecord) (t : LossTracker) : res E LossTracker :=
  let expected := default 0 (lt_next_seq_by_source t !! source_key record) in
  t ← account_high_water t record expected;
  t ← account_gap t record expected;
  t ← account_delivery t record expected;
  authoritative ← parse_records_dropped record (lt_buffer_id t);
  match authoritative with
  | Some event => with_loss_event t event
  | None => Ok t
  end.

(** ** Queries *)
Definition delivered (t : LossTracker) (run_id : u64) (source_id : u32) : u64 :=
  default 0 (lt_delivered_by_source t !! (run_id, source_id)).

Definition in_stream (run_id : u64) (source_id : u32) (event : LossEvent) : Prop :=
  le_run_id event = run_id ∧ le_source_id event = source_id.

#[global] Instance in_stream_dec run_id source_id event : Decision (in_stream run_id source_id event).
Proof. unfold in_stream. apply _. Defined.

(** [Iterator::sum]: one addition per event, checked like [+]. *)
Definition lost (t : LossTracker) (run_id : u64) (source_id : u32) : res E u64 :=
  for_each (λ event acc, add64 acc (le_count event))
    (filter (in_stream run_id source_id) (lt_loss_events t)) 0.

Definition event_sort_key (event : LossEvent) : list Z :=
  [le_buffer_id event; le_run_id event; le_source_id event; le_first_seq event; le_last_seq event].

Definition loss_events (t : LossTracker) : list LossEvent :=
  sort_by (λ x y, lex_le (event_sort_key x) (event_sort_key y)) (lt_loss_events t).

End loss.

(** ** Specification: loss as a set of sequence numbers *)
Definition covers (e : LossEvent) (s : Z) : Prop := le_first_seq e ≤ s ≤ le_last_seq e.

Definition event_ok (e : LossEvent) : Prop :=
  0 ≤ le_first_seq e ≤ le_last_seq e ∧ le_last_seq e < U64_MAX
  ∧ le_count e = le_last_seq e - le_first_seq e + 1.

(** The intervals are ordered with at least one sequence number between them. *)
Definition before (x y : LossEvent) : Prop := le_last_seq x + 1 < le_first_seq y.
Definition gapped (x y : LossEvent) : Prop := before x y ∨ before y x.

(** A merged set of events: per stream, no two intervals touch. *)
Definition events_wf (events : list LossEvent) : Prop :=
  Forall event_ok events ∧
  StronglySorted (λ x y, same_loss_stream x y = true → gapped x y) events.

(** The number is covered by an event that is not inferred from a gap alone. *)
Definition confirmed (events : list LossEvent) (e0 : LossEvent) (s : Z) : Prop :=
  Exists (λ e, same_loss_stream e e0 = true ∧ covers e s ∧ le_synthetic e = false) events.

Definition covered (events : list LossEvent) (e0 : LossEvent) (s : Z) : Prop :=
  Exists (λ e, same_loss_stream e e0 = true ∧ covers e s) events.

Lemma same_loss_stream_iff x y :
  same_loss_stream x y = true ↔
  le_buffer_id x = le_buffer_id y ∧ le_run_id x = le_run_id y ∧ le_source_id x = le_source_id y.
Proof. unfold same_loss_stream. rewrite !andb_true_iff, !bool_decide_eq_true. tauto. Qed.

Lemma touch_false x y :
  event_ok x → event_ok y → ranges_touch_or_overlap x y = false ↔ gapped x y.
Proof.
  intros (_ & Hx & _) (_ & Hy & _). unfold ranges_touch_or_overlap, saturating_add64, gapped, before.
  rewrite andb_false_iff, !bool_decide_eq_false. lia.
Qed.

Lemma touch_true x y :
  event_ok x → event_ok y → ranges_touch_or_overlap x y = true ↔ ¬ gapped x y.
Proof. intros Hx Hy. rewrite <-touch_false by done. by destruct (ranges_touch_or_overlap x y). Qed.

(** An interval away from every point of another one is gapped from it. *)
Lemma gapped_points x m :
  event_ok x → event_ok m →
  (∀ s, covers m s → s + 1 < le_first_seq x ∨ le_last_seq x + 1 < s) → gapped x m.
Proof.
  intros ([? ?] & _ & _) ([? ?] & _ & _) Hpts. unfold covers in Hpts. unfold gapped, before.
  pose proof (Hpts (le_first_seq m)). pose proof (Hpts (le_last_seq m)).
  pose proof (Hpts (le_first_seq x)). lia.
Qed.

Lemma StronglySorted_filter {A} (R : A → A → Prop) (P : A → Prop) `{!∀ x, Decision (P x)} l :
  StronglySorted R l → StronglySorted R (filter P l).
Proof.
  induction 1 as [|x l _ IH Hx]; [constructor|]. rewrite filter_cons. case_decide; [|done].
  constructor; [done|]. apply Forall_forall. intros y [_ Hy]%list_elem_of_filter.
  rewrite Forall_forall in Hx. auto.
Qed.

Section union.
Context {BP : BuildProfile} {E : Type}.

(** The merging loop over intervals sorted by their first number. *)
Section merge.
Context (e0 : LossEvent).
Definition mine (e : LossEvent) : Prop := event_ok e ∧ same_loss_stream e e0 = true.

Lemma merge_interval_spec x merged :
  mine x → Forall mine merged → StronglySorted before merged →
  (∀ m, last merged = Some m → le_first_seq m ≤ le_first_seq x) →
  ∃ merged', merge_interval (E:=E) x merged = Ok merged'
    ∧ Forall mine merged' ∧ StronglySorted before merged'
    ∧ (∀ m, last merged' = Some m → le_first_seq m ≤ le_first_seq x)
    ∧ (∀ s, Exists (λ e, covers e s) merged' ↔ Exists (λ e, covers e s) merged ∨ covers x s)
    ∧ ∀ s, Exists (λ e, covers e s ∧ le_synthetic e = false) merged
           ∨ covers x s ∧ le_synthetic x = false →
           Exists (λ e, covers e s ∧ le_synthetic e = false) merged'.
Proof.
  intros Hx Hm Hs Hlast. unfold merge_interval.
  destruct merged as [|m merged _] using rev_ind.
  { exists [x]. split_and!; [done|by constructor|by repeat constructor| | |].
    - intros m [= <-]. lia.
    - intros s. rewrite Exists_cons, !Exists_nil. tauto.
    - intros s. rewrite Exists_cons, !Exists_nil. tauto. }
  rewrite last_snoc in *. specialize (Hlast _ eq_refl).
  apply Forall_app in Hm as [Hm Hml]. apply Forall_cons_1 in Hml as [[Hmok Hmst] _].
  apply StronglySorted_app in Hs as (Hcross & Hs & _).
  assert (Hbm : Forall (λ y, before y m) merged).
  { apply Forall_forall. intros y Hy. apply Hcross; [done|left]. }
  destruct Hx as [Hxok Hxst]. pose proof Hmok as ([Hm1 Hm2] & Hm3 & Hm4).
  pose proof Hxok as ([Hx1 Hx2] & Hx3 & Hx4).
  destruct (ranges_touch_or_overlap m x) eqn:Ht.
  - apply touch_true in Ht; [|done..]. unfold gapped, before in Ht. cbv zeta.
    rewrite sub_w_ok, ok_bind, add_w_ok, ok_bind by (unfold U64_MAX in *; lia).
    rewrite removelast_last. eexists. split; [done|].
    rewrite Forall_app, Forall_singleton. split_and!.
    + done.
    + split; [unfold event_ok; cbn; lia|exact Hmst].
    + apply StronglySorted_snoc; [done|]. eapply Forall_impl; [exact Hbm|].
      unfold before. cbn. lia.
    + intros m'. rewrite last_snoc. intros [= <-]. cbn. lia.
    + intros s. rewrite !Exists_app, !Exists_cons, !Exists_nil. unfold covers. cbn.
      assert (Hun : le_first_seq m `min` le_first_seq x ≤ s ≤ le_last_seq m `max` le_last_seq x ↔
        le_first_seq m ≤ s ≤ le_last_seq m ∨ le_first_seq x ≤ s ≤ le_last_seq x) by lia.
      rewrite Hun. tauto.
    + intros s. rewrite !Exists_app, !Exists_cons, !Exists_nil. unfold covers. cbn.
      intros [[?|[[? ->]|[]]]|[? ->]]; [by left|right; left..]; (split; [lia|]); [done|apply andb_false_r].
  - apply touch_false in Ht; [|done..]. eexists. split; [done|].
    rewrite Forall_app, Forall_singleton. split_and!.
    + apply Forall_app. split; [done|]. by constructor.
    + by split.
    + apply StronglySorted_snoc.
      * apply StronglySorted_snoc; done.
      * apply Forall_app. unfold gapped, before in *. split.
        -- eapply Forall_impl; [exact Hbm|]. cbn. lia.
        -- constructor; [lia|done].
    + intros m'. rewrite last_snoc. intros [= <-]. lia.
    + intros s. rewrite !Exists_app, !Exists_cons, !Exists_nil. tauto.
    + intros s. rewrite !Exists_app, !Exists_cons, !Exists_nil. tauto.
Qed.

Lemma merge_all_spec l : ∀ merged,
  Forall mine l → StronglySorted (λ x y, le_first_seq x ≤ le_first_seq y) l →
  Forall mine merged → StronglySorted before merged →
  (∀ m, last merged = Some m → Forall (λ x, le_first_seq m ≤ le_first_seq x) l) →
  ∃ merged', for_each (merge_interval (E:=E)) l merged = Ok merged'
    ∧ Forall mine merged' ∧ StronglySorted before merged'
    ∧ (∀ s, Exists (λ e, covers e s) merged' ↔
            Exists (λ e, covers e s) merged ∨ Exists (λ e, covers e s) l)
    ∧ ∀ s, Exists (λ e, covers e s ∧ le_synthetic e = false) (merged ++ l) →
           Exists (λ e, covers e s ∧ le_synthetic e = false) merged'.
Proof.
  induction l as [|x l IH]; intros merged Hl Hsort Hm Hs Hlast; cbn [for_each].
  { exists merged. split_and!; [done..| |]; intros s; rewrite ?app_nil_r, ?Exists_nil; tauto. }
  apply Forall_cons_1 in Hl as [Hx Hl]. apply StronglySorted_inv in Hsort as [Hsort Hxl].
  destruct (merge_interval_spec x merged Hx Hm Hs) as (merged1 & -> & Hm1 & Hs1 & Hlast1 & Hc1 & Ha1).
  { intros m Hlm. by apply Hlast, Forall_cons_1 in Hlm as [? _]. }
  rewrite ok_bind. destruct (IH merged1) as (merged2 & -> & Hm2 & Hs2 & Hc2 & Ha2); [done..| |].
  { intros m Hlm. apply Hlast1 in Hlm. eapply Forall_impl; [exact Hxl|]. simpl. lia. }
  exists merged2. split_and!; [done..| |].
  - intros s. rewrite Hc2, Hc1, Exists_cons. tauto.
  - intros s. specialize (Ha1 s). specialize (Ha2 s). rewrite !Exists_app in *. rewrite Exists_cons. tauto.
Qed.
End merge.

Lemma same_loss_stream_sym x y : same_loss_stream x y = same_loss_stream y x.
Proof. apply eq_true_iff_eq. rewrite !same_loss_stream_iff. naive_solver. Qed.

Lemma same_loss_stream_trans x y z :
  same_loss_stream x y = true → same_loss_stream y z = true → same_loss_stream x z = true.
Proof. rewrite !same_loss_stream_iff. naive_solver congruence. Qed.

Lemma sorted_pairwise events x y :
  StronglySorted (λ x y, same_loss_stream x y = true → gapped x y) events →
  x ∈ events → y ∈ events → same_loss_stream x y = true → x = y ∨ gapped x y.
Proof.
  induction 1 as [|z l _ IH Hz]; [by intros ?%not_elem_of_nil|]. rewrite Forall_forall in Hz.
  intros [->|Hx]%elem_of_cons [->|Hy]%elem_of_cons Hst; [by left| | |by apply IH].
  - right. by apply Hz.
  - right. rewrite same_loss_stream_sym in Hst. destruct (Hz x Hx Hst); [by right|by left].
Qed.

(** [insert_loss_event] is set union, stream by stream. *)
Lemma insert_loss_event_spec events event :
  events_wf events → event_ok event →
  ∃ events', insert_loss_event (E:=E) events event = Ok events' ∧ events_wf events'
    ∧ (∀ e, e ∈ events' → e ∈ events ∨ same_loss_stream e event = true)
    ∧ (∀ e0 s, covered events' e0 s ↔
               covered events e0 s ∨ same_loss_stream event e0 = true ∧ covers event s)
    ∧ ∀ e0 s, confirmed (event :: events) e0 s → confirmed events' e0 s.
Proof.
  intros [Hok Hsort] Hev. unfold insert_loss_event. cbv zeta.
  set (ab := filter (λ x, absorbed event x = true) events).
  set (rt := filter (λ x, ¬ absorbed event x = true) events).
  assert (Hmine : Forall (mine event) (ab ++ [event])).
  { apply Forall_app. split; [|constructor; [split; [done|by apply same_loss_stream_iff]|done]].
    apply Forall_forall. intros x [Hx Hxe]%list_elem_of_filter. rewrite Forall_forall in Hok.
    apply andb_true_iff in Hx as [Hx _]. split; [by apply Hok|done]. }
  destruct (merge_all_spec event (sort_by_key le_first_seq (ab ++ [event])) [])
    as (merged & -> & Hmm & Hms & Hmc & Hma).
  { by rewrite sort_by_key_perm. } { apply sort_by_key_sorted. } { done. } { constructor. } { done. }
  rewrite ok_bind. exists (rt ++ merged). split; [done|].
  assert (Hcov : ∀ s, Exists (λ e, covers e s) merged ↔ Exists (λ e, covers e s) (ab ++ [event])).
  { intros s. rewrite Hmc, Exists_nil, sort_by_key_perm. tauto. }
  assert (Hrt : ∀ x, x ∈ rt → x ∈ events ∧ absorbed event x = false).
  { intros x [Hx ?]%list_elem_of_filter. split; [done|by destruct (absorbed event x)]. }
  assert (Hgap : ∀ x m, x ∈ rt → m ∈ merged → same_loss_stream x m = true → gapped x m).
  { intros x m Hx Hm Hst. apply Hrt in Hx as [Hx Hnab]. rewrite Forall_forall in Hmm, Hok.
    destruct (Hmm m Hm) as [Hmok Hmst]. pose proof (Hok x Hx) as Hxok.
    pose proof (same_loss_stream_trans _ _ _ Hst Hmst) as Hxst.
    apply gapped_points; [done..|]. intros s Hs.
    assert (Hex : Exists (λ e, covers e s) (ab ++ [event])).
    { apply Hcov, Exists_exists. by exists m. }
    assert (Hgi : ∀ i, gapped x i → covers i s → s + 1 < le_first_seq x ∨ le_last_seq x + 1 < s).
    { unfold gapped, before, covers. lia. }
    apply Exists_app in Hex as [Hex|Hex%Exists_cons].
    - apply Exists_exists in Hex as (i & [Hi Hie]%list_elem_of_filter & Hc).
      apply andb_true_iff in Hi as [Hi Hit].
      assert (Hxi : same_loss_stream x i = true).
      { rewrite same_loss_stream_sym in Hi. by eapply same_loss_stream_trans. }
      destruct (sorted_pairwise events x i Hsort Hx Hie Hxi) as [->|Hg]; [|by apply (Hgi i)].
      unfold absorbed in Hnab. by rewrite Hi, Hit in Hnab.
    - destruct Hex as [Hc|?%Exists_nil]; [|done]. apply (Hgi event); [|done].
      unfold absorbed in Hnab. rewrite Hxst in Hnab. by apply touch_false in Hnab. }
  split_and!; [split| | |].
  - apply Forall_app. split; [apply Forall_forall; intros x Hx; rewrite Forall_forall in Hok;
      by apply Hok, Hrt|]. eapply Forall_impl; [exact Hmm|]. by intros ? [].
  - apply StronglySorted_app. split_and!.
    + intros x m Hx Hm Hst. by apply Hgap.
    + by apply StronglySorted_filter.
    + clear -Hms. induction Hms as [|y l Hsl IH Hy]; constructor; [done|].
      eapply Forall_impl; [exact Hy|]. intros z Hz _. by left.
  - intros e [He|He]%elem_of_app; [left; by apply Hrt|right].
    rewrite Forall_forall in Hmm. by apply Hmm.
  - intros e0 s. unfold covered.
    assert (Hev_split : Exists (λ e, same_loss_stream e e0 = true ∧ covers e s) events ↔
      Exists (λ e, same_loss_stream e e0 = true ∧ covers e s) rt ∨
      Exists (λ e, same_loss_stream e e0 = true ∧ covers e s) ab).
    { rewrite !Exists_exists. unfold rt, ab. setoid_rewrite list_elem_of_filter. split.
      - intros (x & Hx & Hp1 & Hp2). destruct (absorbed event x) eqn:Ha; [right|left]; exists x;
          rewrite Ha; split_and!; done.
      - intros [(x & [_ Hx] & Hp)|(x & [_ Hx] & Hp)]; by exists x. }
    assert (Hstr : ∀ l, Forall (mine event) l →
      Exists (λ e, same_loss_stream e e0 = true ∧ covers e s) l ↔
      same_loss_stream event e0 = true ∧ Exists (λ e, covers e s) l).
    { intros l Hl. rewrite !Exists_exists. rewrite Forall_forall in Hl. split.
      - intros (x & Hx & Hst & Hc). destruct (Hl x Hx) as [_ Hxe]. split; [|by exists x].
        rewrite same_loss_stream_sym in Hxe. by eapply same_loss_stream_trans.
      - intros (Hst & x & Hx & Hc). exists x. split_and!; [done| |done].
        destruct (Hl x Hx) as [_ Hxe]. by eapply same_loss_stream_trans. }
    rewrite Exists_app, Hev_split, (Hstr merged) by done. rewrite Hcov.
    apply Forall_app in Hmine as [Hab _]. rewrite (Hstr ab) by done.
    rewrite Exists_app, Exists_cons, Exists_nil. tauto.
  - intros e0 s Hex. unfold confirmed. apply Exists_app.
    assert (Hcase : Exists (λ e, same_loss_stream e e0 = true ∧ covers e s ∧ le_synthetic e = false) rt
      ∨ ∃ x, x ∈ ab ++ [event] ∧ same_loss_stream x e0 = true ∧ covers x s ∧ le_synthetic x = false).
    { apply Exists_exists in Hex as (x & [->|Hx]%elem_of_cons & Hp).
      - right. exists event. split; [|done]. apply elem_of_app. right. by left.
      - destruct (absorbed event x) eqn:Ha; [right; exists x|left; apply Exists_exists; exists x];
          (split; [|done]); [apply elem_of_app; left|]; apply list_elem_of_filter; by rewrite Ha. }
    destruct Hcase as [?|(x & Hx & Hst & Hc & Hsyn)]; [by left|right].
    assert (Hm : Exists (λ e, covers e s ∧ le_synthetic e = false) merged).
    { apply Hma. cbn [app]. rewrite sort_by_key_perm. apply Exists_exists. by exists x. }
    apply Exists_exists in Hm as (m & Hm & Hcm & Hsm). apply Exists_exists. exists m. split_and!; [done| |done..].
    rewrite Forall_forall in Hmm, Hmine. destruct (Hmm m Hm) as [_ Hme], (Hmine x Hx) as [_ Hxe].
    rewrite same_loss_stream_sym in Hxe. eapply same_loss_stream_trans; [exact Hme|].
    by eapply same_loss_stream_trans.
Qed.

(** ** Lost sequence numbers of a source, as a finite set *)
Definition seqs (e : LossEvent) : gset Z :=
  list_to_set (seqZ (le_first_seq e) (le_last_seq e - le_first_seq e + 1)).
Definition lost_set (k : u64 * u32) (events : list LossEvent) : gset Z :=
  ⋃ (seqs <$> filter (in_stream k.1 k.2) events).

Lemma elem_of_seqs e s : s ∈ seqs e ↔ covers e s.
Proof. unfold seqs, covers. rewrite elem_of_list_to_set, elem_of_seqZ. lia. Qed.

Lemma elem_of_lost_set k events s :
  s ∈ lost_set k events ↔ ∃ e, e ∈ events ∧ in_stream k.1 k.2 e ∧ covers e s.
Proof.
  unfold lost_set. rewrite elem_of_union_list. setoid_rewrite list_elem_of_fmap.
  setoid_rewrite list_elem_of_filter. split.
  - intros (X & (e & -> & Hk & He) & Hs). exists e. by rewrite <-elem_of_seqs.
  - intros (e & He & Hk & Hs). exists (seqs e). rewrite elem_of_seqs. split; [by exists e|done].
Qed.

Lemma size_bound (X : gset Z) n : 0 ≤ n → (∀ s, s ∈ X → 0 ≤ s < n) → Z.of_nat (size X) ≤ n.
Proof.
  intros Hn HX. assert (Hsub : X ⊆ list_to_set (seqZ 0 n)).
  { intros s Hs. apply HX in Hs. rewrite elem_of_list_to_set, elem_of_seqZ. lia. }
  apply subseteq_size in Hsub. rewrite size_list_to_set, length_seqZ in Hsub by apply NoDup_seqZ. lia.
Qed.

Lemma size_seqs e : event_ok e → Z.of_nat (size (seqs e)) = le_count e.
Proof.
  intros ([? ?] & _ & Hc). unfold seqs. rewrite size_list_to_set, length_seqZ by apply NoDup_seqZ. lia.
Qed.

(** The counts of pairwise gapped intervals add up to the size of the union. *)
Lemma sum_counts l : ∀ acc,
  Forall event_ok l → StronglySorted gapped l → 0 ≤ acc →
  acc + Z.of_nat (size (⋃ (seqs <$> l))) < 2 ^ 64 →
  for_each (E:=E) (λ event acc, add64 acc (le_count event)) l acc
  = Ok (acc + Z.of_nat (size (⋃ (seqs <$> l)))).
Proof.
  induction l as [|e l IH]; intros acc Hok Hs Hacc Hb.
  { cbn [for_each fmap list_fmap union_list foldr]. rewrite size_empty. do 2 f_equal. lia. }
  apply Forall_cons_1 in Hok as [He Hok]. apply StronglySorted_inv in Hs as [Hs Hg].
  rewrite fmap_cons in *. cbn [union_list foldr] in *. fold (⋃ (seqs <$> l)) in *.
  assert (Hdis : seqs e ## ⋃ (seqs <$> l)).
  { intros s Hse Hsl. apply elem_of_seqs in Hse. apply elem_of_union_list in Hsl as (X & HX & Hsx).
    apply list_elem_of_fmap in HX as (y & -> & Hy). apply elem_of_seqs in Hsx.
    rewrite Forall_forall in Hg. pose proof (Hg y Hy) as Hgy.
    unfold gapped, before, covers in *. lia. }
  rewrite size_union, Nat2Z.inj_add, size_seqs in * by done. pose proof He as ([? ?] & _ & Hc).
  cbn [for_each]. rewrite add_w_ok, ok_bind by lia. rewrite IH by (done || lia). f_equal. lia.
Qed.

Lemma lost_size b t k :
  events_wf (lt_loss_events t) → Forall (λ e, le_buffer_id e = b) (lt_loss_events t) →
  lost (E:=E) t k.1 k.2 = Ok (Z.of_nat (size (lost_set k (lt_loss_events t)))).
Proof.
  intros [Hok Hs] Hb. unfold lost. fold (lost_set k (lt_loss_events t)).
  set (l := filter (in_stream k.1 k.2) (lt_loss_events t)).
  assert (Hl : ∀ e, e ∈ l → in_stream k.1 k.2 e ∧ e ∈ lt_loss_events t) by (intros e; apply list_elem_of_filter).
  rewrite Forall_forall in Hok, Hb. rewrite (sum_counts l 0).
  - done.
  - apply Forall_forall. intros e He. by apply Hok, Hl.
  - assert (Hsl : StronglySorted (λ x y, same_loss_stream x y = true → gapped x y) l)
      by (by apply StronglySorted_filter).
    assert (Hst : ∀ x y, x ∈ l → y ∈ l → same_loss_stream x y = true).
    { intros x y Hx%Hl Hy%Hl. apply same_loss_stream_iff. unfold in_stream in *.
      rewrite (Hb x), (Hb y) by tauto. destruct Hx as [[-> ->] _], Hy as [[-> ->] _]. done. }
    clearbody l. clear -Hsl Hst. induction Hsl as [|x l _ IH Hx]; constructor.
    + apply IH. intros y z Hy Hz. apply Hst; by right.
    + rewrite Forall_forall in *. intros y Hy. apply Hx; [done|]. apply Hst; [by left|by right].
  - lia.
  - pose proof (size_bound (⋃ (seqs <$> l)) U64_MAX ltac:(done)) as Hsz.
    assert (U64_MAX < 2 ^ 64) by done. rewrite Z.add_0_l. eapply Z.le_lt_trans; [apply Hsz|done].
    intros s Hin. apply elem_of_union_list in Hin as (X & HX & Hsx).
    apply list_elem_of_fmap in HX as (y & -> & Hy). apply elem_of_seqs in Hsx.
    destruct (Hok y) as ([? ?] & ? & _); [by apply Hl|]. unfold covers in Hsx. lia.
Qed.

(** Adding an event to a tracker adds its numbers to its source's lost set. *)
Lemma with_loss_event_spec t event b :
  events_wf (lt_loss_events t) → Forall (λ e, le_buffer_id e = b) (lt_loss_events t) →
  event_ok event → le_buffer_id event = b →
  ∃ events, with_loss_event (E:=E) t event
      = Ok {| lt_buffer_id := lt_buffer_id t; lt_next_seq_by_source := lt_next_seq_by_source t;
              lt_delivered_by_source := lt_delivered_by_source t; lt_loss_events := events |}
    ∧ events_wf events ∧ Forall (λ e, le_buffer_id e = b) events
    ∧ ∀ k s, s ∈ lost_set k events ↔
             s ∈ lost_set k (lt_loss_events t)
             ∨ k = (le_run_id event, le_source_id event) ∧ covers event s.
Proof.
  intros Hwf Hb Hev Heb. unfold with_loss_event.
  destruct (insert_loss_event_spec _ _ Hwf Hev) as (events & -> & Hwf' & Hst & Hcov & _).
  rewrite ok_bind. exists events. rewrite Forall_forall in Hb.
  assert (Hb' : ∀ e, e ∈ events → le_buffer_id e = b).
  { intros e [He|He]%Hst; [by apply Hb|]. apply same_loss_stream_iff in He as [-> _]. done. }
  split_and!; [done|done|by apply Forall_forall|]. intros [run src] s.
  specialize (Hcov (MkLossEvent b run src 0 0 0 true) s). unfold covered in Hcov.
  rewrite !Exists_exists in Hcov. rewrite !elem_of_lost_set. cbn [fst snd].
  assert (Hin : ∀ l : list LossEvent, (∀ e, e ∈ l → le_buffer_id e = b) →
    (∃ e, e ∈ l ∧ in_stream run src e ∧ covers e s) ↔
    (∃ x, x ∈ l ∧ same_loss_stream x (MkLossEvent b run src 0 0 0 true) = true ∧ covers x s)).
  { intros l Hl. unfold in_stream. split; intros (e & He & Hst' & Hc); exists e; (split; [done|split; [|done]]).
    - apply same_loss_stream_iff. cbn. rewrite (Hl e) by done. tauto.
    - apply same_loss_stream_iff in Hst'. cbn in Hst'. tauto. }
  rewrite (Hin events), (Hin (lt_loss_events t)), Hcov by done.
  rewrite same_loss_stream_iff. cbn. rewrite Heb. split; (intros [?|[Hk ?]]; [by left|right]).
  - destruct Hk as (_ & -> & ->). done.
  - split; [|done]. split; [done|]. by injection Hk as -> ->.
Qed.
End union.

(** ** Records the tracker can account without overflow

    The sequence number [u64::MAX] is never used, neither as a record's own
    number nor as the last one of an authoritative range. *)
Definition accountable (r : WireRecord) : Prop :=
  record_wf r ∧ rec_seq r < U64_MAX
  ∧ Forall (λ s, slot_key s = KEY_LAST_LOST_SEQ → from_le_bytes (slot_payload s) < U64_MAX) (rec_slots r).

#[global] Instance accountable_dec r : Decision (accountable r).
Proof. unfold accountable. apply _. Defined.

Section tracker.
Context {BP : BuildProfile} {E : Type}.

Lemma payload_nonneg s : slot_wf s → 0 ≤ from_le_bytes (slot_payload s).
Proof. intros (_ & _ & Hp & _). by apply from_le_bytes_fits in Hp as [? _]. Qed.

Lemma dropped_slots_ok slots : ∀ c f l,
  Forall slot_wf slots →
  Forall (λ s, slot_key s = KEY_LAST_LOST_SEQ → from_le_bytes (slot_payload s) < U64_MAX) slots →
  (∀ v, f = Some v → 0 ≤ v) → (∀ v, l = Some v → v < U64_MAX) →
  let '(_, f', l') := foldl dropped_slot (c, f, l) slots in
  (∀ v, f' = Some v → 0 ≤ v) ∧ (∀ v, l' = Some v → v < U64_MAX).
Proof.
  induction slots as [|s slots IH]; intros c f l Hw Hl Hf0 Hl0; [done|].
  apply Forall_cons_1 in Hw as [Hs Hw]. apply Forall_cons_1 in Hl as [Hls Hl]. cbn [foldl dropped_slot].
  pose proof (payload_nonneg s Hs). repeat case_decide; apply IH; try done.
  - by intros v [= <-].
  - intros v [= <-]. apply Hls. tauto.
Qed.

Lemma parse_records_dropped_ok r b :
  accountable r →
  ∃ o, parse_records_dropped (E:=E) r b = Ok o
    ∧ (rec_event_type_id r ≠ EVENT_RECORDS_DROPPED → o = None)
    ∧ ∀ e, o = Some e → event_ok e ∧ le_buffer_id e = b
        ∧ (le_run_id e, le_source_id e) = source_key r.
Proof.
  intros (Hw & _ & Hl).
  assert (Hnone : ∀ m : res E (option LossEvent), m = Ok None → ∃ o, m = Ok o
    ∧ (rec_event_type_id r ≠ EVENT_RECORDS_DROPPED → o = None)
    ∧ ∀ e, o = Some e → event_ok e ∧ le_buffer_id e = b ∧ (le_run_id e, le_source_id e) = source_key r).
  { intros m ->. exists None. split; [done|split; [done|by intros ? [=]]]. }
  unfold parse_records_dropped. case_decide; [by apply Hnone|].
  pose proof (dropped_slots_ok (rec_slots r) None None None) as H0.
  destruct (foldl _ _ _) as [[[c|] [f|]] [l|]]; try (by apply Hnone).
  destruct H0 as [Hf0 Hl0]; [apply Hw|done|done|done|].
  specialize (Hf0 _ eq_refl). specialize (Hl0 _ eq_refl).
  case_decide; [by apply Hnone|].
  rewrite sub_w_ok, ok_bind, add_w_ok, ok_bind by (unfold U64_MAX in *; lia).
  case_decide; [by apply Hnone|]. eexists. split; [done|]. split; [done|]. intros e [= <-].
  split_and!; [unfold event_ok; cbn; lia|done|done].
Qed.

Lemma find_high_water_seq seq slots v : find_high_water seq slots = Some v → v = seq.
Proof.
  induction slots as [|s slots IH]; [done|]. cbn [find_high_water]. case_decide; [done|]. cbv zeta.
  case_decide; [|done]. congruence.
Qed.

Definition next_seq (t : LossTracker) (k : u64 * u32) : u64 := default 0 (lt_next_seq_by_source t !! k).

(** The tracker [t] after the records [rs], the numbers [D k] of source [k]
    delivered: everything below the next expected number is delivered or lost. *)
Record tracker_inv (b : u32) (rs : list WireRecord) (t : LossTracker)
    (D : u64 * u32 → gset Z) : Prop := {
  ti_buffer : lt_buffer_id t = b;
  ti_events : events_wf (lt_loss_events t);
  ti_same : Forall (λ e, le_buffer_id e = b) (lt_loss_events t);
  ti_delivered k : default 0 (lt_delivered_by_source t !! k) = Z.of_nat (size (D k));
  ti_next k : 0 ≤ next_seq t k ≤ U64_MAX;
  ti_seen r : r ∈ rs → rec_seq r < next_seq t (source_key r);
  ti_top k : next_seq t k = 0 ∨ ∃ r, r ∈ rs ∧ source_key r = k ∧ next_seq t k = rec_seq r + 1;
  ti_D k s : s ∈ D k → 0 ≤ s < next_seq t k ∧ ∃ r, r ∈ rs ∧ source_key r = k ∧ rec_seq r = s;
  ti_complete k s : 0 ≤ s < next_seq t k → s ∈ D k ∨ s ∈ lost_set k (lt_loss_events t);
  ti_exact k : (∀ r, r ∈ rs → source_key r = k → rec_event_type_id r ≠ EVENT_RECORDS_DROPPED) →
    ∀ s, s ∈ lost_set k (lt_loss_events t) → 0 ≤ s < next_seq t k ∧ s ∉ D k;
}.

Lemma tracker_new_inv b : tracker_inv b [] (tracker_new b) (λ _, ∅).
Proof.
  split; unfold next_seq; cbn; try done.
  - split; [done|constructor].
  - intros r ?%elem_of_nil. done.
  - by left.
  - intros k. rewrite lookup_empty. cbn. lia.
Qed.

(** The high-water block and the gap block together lose exactly the numbers
    between the expected one and the record's. *)
Lemma account_gaps_spec t r b :
  accountable r → events_wf (lt_loss_events t) →
  Forall (λ e, le_buffer_id e = b) (lt_loss_events t) → lt_buffer_id t = b →
  let expected := next_seq t (source_key r) in
  0 ≤ expected →
  ∃ events,
    (t ← account_high_water (E:=E) t r expected; account_gap t r expected)
    = Ok {| lt_buffer_id := b; lt_next_seq_by_source := lt_next_seq_by_source t;
            lt_delivered_by_source := lt_delivered_by_source t; lt_loss_events := events |}
    ∧ events_wf events ∧ Forall (λ e, le_buffer_id e = b) events
    ∧ ∀ k s, s ∈ lost_set k events ↔
             s ∈ lost_set k (lt_loss_events t) ∨ k = source_key r ∧ expected ≤ s < rec_seq r.
Proof.
  intros (Hw & Hmax & _) Hwf Hsame Hb expected He.
  pose proof Hw as (_ & _ & _ & Hseq & _). unfold fits in Hseq.
  assert (Hhw : ∃ events, account_high_water (E:=E) t r expected
      = Ok {| lt_buffer_id := b; lt_next_seq_by_source := lt_next_seq_by_source t;
              lt_delivered_by_source := lt_delivered_by_source t; lt_loss_events := events |}
    ∧ events_wf events ∧ Forall (λ e, le_buffer_id e = b) events
    ∧ ∀ k s, (s ∈ lost_set k (lt_loss_events t) → s ∈ lost_set k events) ∧
             (s ∈ lost_set k events →
              s ∈ lost_set k (lt_loss_events t) ∨ k = source_key r ∧ expected ≤ s < rec_seq r)).
  { assert (Hid : account_high_water (E:=E) t r expected = Ok t → ∃ events,
      account_high_water (E:=E) t r expected
      = Ok {| lt_buffer_id := b; lt_next_seq_by_source := lt_next_seq_by_source t;
              lt_delivered_by_source := lt_delivered_by_source t; lt_loss_events := events |}
      ∧ events_wf events ∧ Forall (λ e, le_buffer_id e = b) events
      ∧ ∀ k s, (s ∈ lost_set k (lt_loss_events t) → s ∈ lost_set k events) ∧
             (s ∈ lost_set k events →
              s ∈ lost_set k (lt_loss_events t) ∨ k = source_key r ∧ expected ≤ s < rec_seq r)).
    { intros ->. exists (lt_loss_events t). split_and!; [subst b; by destruct t|done|done|tauto]. }
    unfold account_high_water in *. destruct (parse_source_high_water r) as [v|] eqn:Hp; [|by apply Hid].
    case_decide; [|by apply Hid]. assert (v = rec_seq r) as ->.
    { unfold parse_source_high_water in Hp. case_decide; [done|]. by eapply find_high_water_seq. }
    rewrite !sub_w_ok, !ok_bind by lia. subst b.
    match goal with |- context [with_loss_event t ?ev] =>
      destruct (with_loss_event_spec (E:=E) t ev (lt_buffer_id t)) as (events & -> & Hwf' & Hs' & Hl) end;
      [done|done|unfold event_ok; cbn; unfold U64_MAX in *; lia|done|].
    exists events. split_and!; [done..|]. intros k s. rewrite Hl. unfold covers, source_key. cbn.
    split; [tauto|]. intros [?|[-> ?]]; [by left|right]. split; [done|lia]. }
  destruct Hhw as (events1 & -> & Hwf1 & Hs1 & Hl1). rewrite ok_bind. unfold account_gap.
  cbn [lt_buffer_id lt_loss_events lt_next_seq_by_source lt_delivered_by_source]. case_decide.
  - rewrite sub_w_ok, ok_bind, sub_w_ok, ok_bind, add_w_ok, ok_bind by lia.
    match goal with |- context [with_loss_event ?t' ?ev] =>
      destruct (with_loss_event_spec (E:=E) t' ev b) as (events & -> & Hwf' & Hs' & Hl) end;
      [done|done|unfold event_ok; cbn; unfold U64_MAX in *; lia|done|].
    exists events. split_and!; [done..|]. intros k s. rewrite Hl. unfold covers. cbn.
    change (rec_run_id r, rec_source_id r) with (source_key r). destruct (Hl1 k s). split.
    + intros [?|[-> ?]]; [tauto|right]. split; [done|lia].
    + intros [?|[-> ?]]; [tauto|right]. split; [done|lia].
  - exists events1. split_and!; [done..|]. intros k s. destruct (Hl1 k s) as [H1 H2]. split; [done|].
    intros [?|[_ ?]]; [tauto|lia].
Qed.

(** The record advances its source: it is at or past the expected number. *)
Definition advances (t : LossTracker) (r : WireRecord) (k : u64 * u32) : Prop :=
  k = source_key r ∧ next_seq t k ≤ rec_seq r.

#[global] Instance advances_dec t r k : Decision (advances t r k).
Proof. unfold advances. apply _. Defined.

(** The delivered set after one more record. *)
Definition deliver (t : LossTracker) (r : WireRecord) (D : u64 * u32 → gset Z) : u64 * u32 → gset Z :=
  λ k, if decide (advances t r k) then {[rec_seq r]} ∪ D k else D k.

Definition delivered_to (t : LossTracker) (k : u64 * u32) : u64 :=
  default 0 (lt_delivered_by_source t !! k).

Lemma account_delivery_spec t r :
  rec_seq r < U64_MAX → delivered_to t (source_key r) ≤ next_seq t (source_key r) →
  ∃ t', account_delivery (E:=E) t r (next_seq t (source_key r)) = Ok t'
    ∧ lt_buffer_id t' = lt_buffer_id t ∧ lt_loss_events t' = lt_loss_events t
    ∧ ∀ k, next_seq t' k = (if decide (advances t r k) then rec_seq r + 1 else next_seq t k)
         ∧ delivered_to t' k = (if decide (advances t r k) then delivered_to t k + 1 else delivered_to t k).
Proof.
  intros Hs Hd. unfold account_delivery. fold (delivered_to t (source_key r)).
  unfold advances. case_decide as Hle.
  - unfold U64_MAX in *. rewrite !add_w_ok, !ok_bind by lia. eexists. split; [done|].
    split_and!; [done|done|]. intros k. unfold next_seq, delivered_to in *. cbn.
    destruct (decide (k = source_key r)) as [->|Hk].
    + by rewrite !lookup_insert_eq, !decide_True.
    + rewrite !lookup_insert_ne by done. by rewrite !decide_False by tauto.
  - exists t. split_and!; [done..|]. intros k.
    by rewrite !decide_False by (intros [-> ?]; done).
Qed.

(** One record, as equations on the queries. *)
Lemma account_spec t r b :
  accountable r → lt_buffer_id t = b → events_wf (lt_loss_events t) →
  Forall (λ e, le_buffer_id e = b) (lt_loss_events t) →
  0 ≤ next_seq t (source_key r) → delivered_to t (source_key r) ≤ next_seq t (source_key r) →
  ∃ t', account (E:=E) r t = Ok t' ∧ lt_buffer_id t' = b ∧ events_wf (lt_loss_events t')
    ∧ Forall (λ e, le_buffer_id e = b) (lt_loss_events t')
    ∧ (∀ k, next_seq t' k = (if decide (advances t r k) then rec_seq r + 1 else next_seq t k)
         ∧ delivered_to t' k = (if decide (advances t r k) then delivered_to t k + 1 else delivered_to t k))
    ∧ ∀ k s,
       let L := s ∈ lost_set k (lt_loss_events t)
                ∨ k = source_key r ∧ next_seq t (source_key r) ≤ s < rec_seq r in
       (L → s ∈ lost_set k (lt_loss_events t'))
       ∧ ((k = source_key r → rec_event_type_id r ≠ EVENT_RECORDS_DROPPED) →
          s ∈ lost_set k (lt_loss_events t') → L).
Proof.
  intros Hr Hb Hwf Hsame Hn Hd. unfold account. fold (next_seq t (source_key r)). cbv zeta.
  destruct (account_gaps_spec t r b Hr Hwf Hsame Hb Hn) as (ev1 & Hgaps & Hwf1 & Hs1 & Hl1).
  apply bind_Ok in Hgaps as (t1 & -> & Hgap). rewrite ok_bind, Hgap, ok_bind.
  set (t2 := MkLossTracker b (lt_next_seq_by_source t) (lt_delivered_by_source t) ev1).
  destruct (account_delivery_spec t2 r) as (t3 & Hdel & Hb3 & He3 & Hq3);
    [by destruct Hr as (_ & ? & _)|done|].
  change (next_seq t2) with (next_seq t) in *. change (delivered_to t2) with (delivered_to t) in *.
  rewrite Hdel, ok_bind. change (lt_buffer_id t2) with b in Hb3. change (lt_loss_events t2) with ev1 in He3.
  rewrite Hb3. destruct (parse_records_dropped_ok r b Hr) as (o & -> & Hnone & Hsome). rewrite ok_bind.
  change (advances t2) with (advances t) in Hq3.
  destruct o as [e|].
  - destruct (Hsome e eq_refl) as (Heok & Heb & Hek). rewrite <-He3 in Hwf1, Hs1.
    destruct (with_loss_event_spec (E:=E) t3 e b Hwf1 Hs1 Heok Heb) as (ev4 & -> & Hwf4 & Hs4 & Hl4).
    eexists. split; [done|]. split_and!; [done|done|done|exact Hq3|]. intros k s. cbn [lt_loss_events].
    rewrite Hl4, He3, Hl1, Hek. split; [tauto|]. intros Hnd [?|[-> _]]; [done|].
    by specialize (Hnone (Hnd eq_refl)).
  - exists t3. split; [done|]. rewrite He3. split_and!; [done|done|done|exact Hq3|].
    intros k s. cbv zeta. rewrite Hl1. tauto.
Qed.

Lemma account_inv b rs t D r :
  tracker_inv b rs t D → accountable r →
  ∃ t', account (E:=E) r t = Ok t' ∧ tracker_inv b (rs ++ [r]) t' (deliver t r D).
Proof.
  intros Hinv Hr. pose proof Hr as ((_ & _ & _ & [Hseq _] & _) & Hmax & _).
  destruct (ti_next _ _ _ _ Hinv (source_key r)) as [Hn0 Hn1].
  assert (Hdle : delivered_to t (source_key r) ≤ next_seq t (source_key r)).
  { unfold delivered_to. rewrite (ti_delivered _ _ _ _ Hinv).
    apply size_bound; [done|]. intros s Hs. by apply (ti_D _ _ _ _ Hinv). }
  destruct (account_spec t r b Hr (ti_buffer _ _ _ _ Hinv) (ti_events _ _ _ _ Hinv)
    (ti_same _ _ _ _ Hinv) Hn0 Hdle) as (t' & -> & Hb & Hwf & Hsame & Hq & Hlost).
  exists t'. split; [done|].
  assert (HL : ∀ k s, s ∈ lost_set k (lt_loss_events t) → s ∈ lost_set k (lt_loss_events t')).
  { intros k s Hs. apply Hlost. by left. }
  assert (Hmono : ∀ k, next_seq t k ≤ next_seq t' k).
  { intros k. rewrite (proj1 (Hq k)). unfold advances. case_decide; lia. }
  split; [done..| | | | | | |].
  - intros k. fold (delivered_to t' k). rewrite (proj2 (Hq k)). unfold delivered_to, deliver.
    rewrite (ti_delivered _ _ _ _ Hinv). case_decide as Hadv; [|done].
    rewrite size_union, size_singleton; [lia|].
    intros s ->%elem_of_singleton Hs. apply (ti_D _ _ _ _ Hinv) in Hs as [Hs _].
    unfold advances in Hadv. lia.
  - intros k. rewrite (proj1 (Hq k)). pose proof (ti_next _ _ _ _ Hinv k).
    case_decide; [|done]. unfold U64_MAX in *. lia.
  - intros x [Hx| ->%list_elem_of_singleton]%elem_of_app.
    + pose proof (ti_seen _ _ _ _ Hinv x Hx). specialize (Hmono (source_key x)). lia.
    + rewrite (proj1 (Hq _)). case_decide as Hc; [lia|].
      destruct (decide (next_seq t (source_key r) ≤ rec_seq r)); [by destruct Hc|lia].
  - intros k. rewrite (proj1 (Hq k)). case_decide as Hadv.
    + right. exists r. destruct Hadv as [-> _]. split_and!; [|done|done]. apply elem_of_app. right. by left.
    + destruct (ti_top _ _ _ _ Hinv k) as [?|(x & ? & ? & ?)]; [by left|right].
      exists x. split_and!; [|done|done]. apply elem_of_app. by left.
  - intros k s Hs. assert (Hcase : s ∈ D k ∨ advances t r k ∧ s = rec_seq r).
    { unfold deliver in Hs. case_decide; [|by left].
      apply elem_of_union in Hs as [->%elem_of_singleton|?]; [by right|by left]. }
    destruct Hcase as [HD|[Hadv ->]].
    + apply (ti_D _ _ _ _ Hinv) in HD as [? (x & ? & ? & ?)]. specialize (Hmono k). split; [lia|].
      exists x. split_and!; [|done|done]. apply elem_of_app. by left.
    + rewrite (proj1 (Hq k)), decide_True by done. destruct Hadv as [-> ?]. split; [lia|].
      exists r. split_and!; [|done|done]. apply elem_of_app. right. by left.
  - intros k s Hs. destruct (decide (s < next_seq t k)) as [Hlt|Hge].
    + destruct (ti_complete _ _ _ _ Hinv k s) as [HD|?]; [lia| |by right; apply HL].
      left. unfold deliver. case_decide; [|done]. by apply elem_of_union_r.
    + rewrite (proj1 (Hq k)) in Hs. case_decide as Hadv; [|lia].
      destruct (decide (s = rec_seq r)) as [->|Hne].
      * left. unfold deliver. rewrite decide_True by done. by apply elem_of_union_l, elem_of_singleton.
      * right. apply Hlost. right. destruct Hadv as [-> ?]. split; [done|lia].
  - intros k Hk s Hs. apply Hlost in Hs as [Hold|[-> Hnew]].
    + destruct (ti_exact _ _ _ _ Hinv k) with (s := s) as [Hlt HnD]; [|done|].
      { intros x Hx. apply Hk, elem_of_app. by left. }
      specialize (Hmono k). split; [lia|]. unfold deliver. case_decide as Hc; [|done].
      destruct Hc as [_ Hc]. rewrite elem_of_union, elem_of_singleton. intros [->|?]; [lia|done].
    + rewrite (proj1 (Hq _)). unfold deliver. assert (Hadv : advances t r (source_key r)) by (split; [done|lia]).
      rewrite !decide_True by exact Hadv. split; [lia|]. rewrite elem_of_union, elem_of_singleton.
      intros [->|HsD]; [lia|]. apply (ti_D _ _ _ _ Hinv) in HsD as [? _]. lia.
    + intros ->. apply Hk; [|done]. apply elem_of_app. right. by left.
Qed.

Lemma account_all_inv b rs :
  Forall accountable rs →
  ∃ t D, for_each (account (E:=E)) rs (tracker_new b) = Ok t ∧ tracker_inv b rs t D.
Proof.
  induction rs as [|r rs IH] using rev_ind; intros Hrs.
  { exists (tracker_new b), (λ _, ∅). split; [done|apply tracker_new_inv]. }
  apply Forall_app in Hrs as [Hrs Hr]. apply Forall_cons_1 in Hr as [Hr _].
  destruct (IH Hrs) as (t & D & Ht & Hinv). destruct (account_inv b rs t D r Hinv Hr) as (t' & Ht' & Hinv').
  exists t', (deliver t r D). split; [|done]. rewrite for_each_app, Ht, ok_bind. cbn [for_each].
  by rewrite Ht'.
Qed.
End tracker.

(** ** Properties *)

(** The interval union: inserting an event into a well-formed event list
    never fails and yields a well-formed list, its intervals disjoint and never
    adjacent within a stream and each count exact, that covers exactly the
    numbers covered before plus the event's, stream by stream; a number backed
    by a non-synthetic event stays backed by one. *)
Theorem insert_loss_event_union {BP : BuildProfile} {E} events event :
  events_wf events → event_ok event →
  ∃ events', insert_loss_event (E:=E) events event = Ok events' ∧ events_wf events'
    ∧ (∀ e0 s, covered events' e0 s ↔
               covered events e0 s ∨ same_loss_stream event e0 = true ∧ covers event s)
    ∧ ∀ e0 s, confirmed (event :: events) e0 s → confirmed events' e0 s.
Proof.
  intros Hwf Hev. destruct (insert_loss_event_spec (E:=E) events event Hwf Hev)
    as (events' & ? & ? & _ & ? & ?). by exists events'.
Qed.

Definition demo_event (first last : Z) (syn : bool) : LossEvent :=
  {| le_buffer_id := 1; le_run_id := 1; le_source_id := 7; le_first_seq := first; le_last_seq := last;
     le_count := last - first + 1; le_synthetic := syn |}.

Lemma insert_loss_event_union_witness :
  ∃ events', insert_loss_event (BP:=dev_profile) (E:=RingError) [demo_event 1 4 true] (demo_event 3 9 false)
      = Ok events' ∧ events_wf events'
    ∧ (∀ e0 s, covered events' e0 s ↔ covered [demo_event 1 4 true] e0 s
               ∨ same_loss_stream (demo_event 3 9 false) e0 = true ∧ covers (demo_event 3 9 false) s)
    ∧ ∀ e0 s, confirmed [demo_event 3 9 false; demo_event 1 4 true] e0 s → confirmed events' e0 s.
Proof.
  apply (insert_loss_event_union (BP:=dev_profile) [demo_event 1 4 true] (demo_event 3 9 false)).
  - split; [|by repeat constructor]. constructor; [|done]. unfold event_ok. by_compute.
  - unfold event_ok. by_compute.
Defined.

(** Whatever was reported, delivered and lost reach the next expected number. *)
Lemma accounted_for {BP : BuildProfile} {E} buffer rs t D run src :
  tracker_inv buffer rs t D →
  lost (E:=E) t run src = Ok (Z.of_nat (size (lost_set (run, src) (lt_loss_events t))))
  ∧ next_seq t (run, src) ≤ delivered t run src + Z.of_nat (size (lost_set (run, src) (lt_loss_events t))).
Proof.
  intros Hinv. split; [exact (lost_size buffer t (run, src) (ti_events _ _ _ _ Hinv) (ti_same _ _ _ _ Hinv))|].
  unfold delivered. rewrite (ti_delivered _ _ _ _ Hinv). destruct (ti_next _ _ _ _ Hinv (run, src)) as [Hn _].
  assert (Hsub : list_to_set (seqZ 0 (next_seq t (run, src)))
    ⊆ D (run, src) ∪ lost_set (run, src) (lt_loss_events t)).
  { intros s. rewrite elem_of_list_to_set, elem_of_seqZ, elem_of_union. intros ?. apply (ti_complete _ _ _ _ Hinv). lia. }
  apply subseteq_size in Hsub. rewrite size_list_to_set, length_seqZ in Hsub by apply NoDup_seqZ.
  rewrite size_union_alt in Hsub.
  pose proof (subseteq_size (lost_set (run, src) (lt_loss_events t) ∖ D (run, src))
    (lost_set (run, src) (lt_loss_events t)) ltac:(set_solver)). lia.
Qed.

(** C36: no silent loss: after any sequence of well-formed records, in any order
    and with gaps, repeats and authoritative ranges at will, in which [u64::MAX]
    is neither a record's own number nor the last number of a [RecordsDropped]
    range ([full_range_overflows] is the case left out), accounting succeeds and
    for every source the numbers below its next expected one, hence all up to
    any record seen, are each delivered or in the union of its loss events;
    [delivered] and [lost] are the sizes of these two sets, so together they
    reach at least the next expected number. *)
Theorem no_silent_loss {BP : BuildProfile} {E} buffer rs :
  Forall accountable rs →
  ∃ t, for_each (account (E:=E)) rs (tracker_new buffer) = Ok t ∧
  ∀ run src, ∃ (D : gset Z) n,
    delivered t run src = Z.of_nat (size D) ∧ lost (E:=E) t run src = Ok n
    ∧ n = Z.of_nat (size (lost_set (run, src) (lt_loss_events t)))
    ∧ (∀ s, 0 ≤ s < next_seq t (run, src) → s ∈ D ∨ s ∈ lost_set (run, src) (lt_loss_events t))
    ∧ (∀ s, s ∈ D → ∃ r, r ∈ rs ∧ source_key r = (run, src) ∧ rec_seq r = s)
    ∧ (∀ r, r ∈ rs → source_key r = (run, src) → rec_seq r < next_seq t (run, src))
    ∧ next_seq t (run, src) ≤ delivered t run src + n.
Proof.
  intros Hrs. destruct (account_all_inv (E:=E) buffer rs Hrs) as (t & D & Ht & Hinv).
  exists t. split; [done|]. intros run src. destruct (accounted_for (E:=E) buffer rs t D run src Hinv) as [Hl Hsum].
  eexists (D (run, src)), _. split_and!; [apply (ti_delivered _ _ _ _ Hinv)|exact Hl|done|apply (ti_complete _ _ _ _ Hinv)| | |exact Hsum].
  - intros s Hs. by apply (ti_D _ _ _ _ Hinv) in Hs as [_ ?].
  - intros r Hr <-. by apply (ti_seen _ _ _ _ Hinv).
Qed.

Definition demo_stream : list WireRecord := demo_record <$> [0; 3; 4; 2; 9].

Lemma no_silent_loss_witness :
  ∃ t, for_each (account (BP:=dev_profile) (E:=RingError)) demo_stream (tracker_new 1) = Ok t ∧
  ∀ run src, ∃ (D : gset Z) n,
    delivered t run src = Z.of_nat (size D) ∧ lost (BP:=dev_profile) (E:=RingError) t run src = Ok n
    ∧ n = Z.of_nat (size (lost_set (run, src) (lt_loss_events t)))
    ∧ (∀ s, 0 ≤ s < next_seq t (run, src) → s ∈ D ∨ s ∈ lost_set (run, src) (lt_loss_events t))
    ∧ (∀ s, s ∈ D → ∃ r, r ∈ demo_stream ∧ source_key r = (run, src) ∧ rec_seq r = s)
    ∧ (∀ r, r ∈ demo_stream → source_key r = (run, src) → rec_seq r < next_seq t (run, src))
    ∧ next_seq t (run, src) ≤ delivered t run src + n.
Proof. apply (no_silent_loss (BP:=dev_profile) 1 demo_stream). by_compute. Defined.

(** Delivered and lost partition the numbers below the next expected one. *)
Lemma reconciled {BP : BuildProfile} {E} buffer rs t D run src :
  tracker_inv buffer rs t D →
  Forall (λ r, source_key r = (run, src) → rec_event_type_id r ≠ EVENT_RECORDS_DROPPED) rs →
  ∃ n, lost (E:=E) t run src = Ok n ∧ delivered t run src + n = next_seq t (run, src).
Proof.
  intros Hinv Hnd.
  pose proof (lost_size (E:=E) buffer t (run, src) (ti_events _ _ _ _ Hinv) (ti_same _ _ _ _ Hinv)) as Hl.
  eexists. split; [exact Hl|].
  unfold delivered. rewrite (ti_delivered _ _ _ _ Hinv), <-Nat2Z.inj_add, <-size_union.
  - destruct (ti_next _ _ _ _ Hinv (run, src)) as [Hn _]. rewrite Forall_forall in Hnd.
    assert (Heq : D (run, src) ∪ lost_set (run, src) (lt_loss_events t)
                  = list_to_set (seqZ 0 (next_seq t (run, src)))).
    { apply set_eq. intros s. rewrite elem_of_list_to_set, elem_of_seqZ, elem_of_union. split.
      - intros [Hs|Hs]; [apply (ti_D _ _ _ _ Hinv) in Hs as [? _]; lia|].
        apply (ti_exact _ _ _ _ Hinv) in Hs as [? _]; [lia|done].
      - intros Hs. apply (ti_complete _ _ _ _ Hinv). lia. }
    rewrite Heq, size_list_to_set, length_seqZ by apply NoDup_seqZ. lia.
  - intros s HD Hs. apply (ti_exact _ _ _ _ Hinv) in Hs as [_ Hs]; [done|].
    rewrite Forall_forall in Hnd. intros r Hr Hk. by apply Hnd.
Qed.

(** Exact reconciliation: for a source none of whose records is a
    [RecordsDropped], whatever gaps, repeats, late records and high-water
    checkpoints occur, delivered plus lost is exactly the next expected number,
    one more than the highest seen: nothing is lost twice or both lost and
    delivered. *)
Theorem reconciliation_exact {BP : BuildProfile} {E} buffer rs run src :
  Forall accountable rs →
  Forall (λ r, source_key r = (run, src) → rec_event_type_id r ≠ EVENT_RECORDS_DROPPED) rs →
  ∃ t n, for_each (account (E:=E)) rs (tracker_new buffer) = Ok t
    ∧ lost (E:=E) t run src = Ok n ∧ delivered t run src + n = next_seq t (run, src).
Proof.
  intros Hrs Hnd. destruct (account_all_inv (E:=E) buffer rs Hrs) as (t & D & Ht & Hinv).
  destruct (reconciled (E:=E) buffer rs t D run src Hinv Hnd) as (n & Hl & Hn). by exists t, n.
Qed.

Lemma reconciliation_exact_witness :
  ∃ t n, for_each (account (BP:=dev_profile) (E:=RingError)) demo_stream (tracker_new 1) = Ok t
    ∧ lost (BP:=dev_profile) (E:=RingError) t 1 7 = Ok n ∧ delivered t 1 7 + n = next_seq t (1, 7).
Proof. apply (reconciliation_exact (BP:=dev_profile) 1 demo_stream 1 7); by_compute. Defined.

Lemma with_loss_event_confirmed {BP : BuildProfile} {E} t event b t' :
  events_wf (lt_loss_events t) → Forall (λ e, le_buffer_id e = b) (lt_loss_events t) →
  event_ok event → le_buffer_id event = b → with_loss_event (E:=E) t event = Ok t' →
  ∀ e0 s, confirmed (event :: lt_loss_events t) e0 s → confirmed (lt_loss_events t') e0 s.
Proof.
  intros Hwf Hb Hev Heb Hw. unfold with_loss_event in Hw.
  destruct (insert_loss_event_spec (E:=E) _ _ Hwf Hev) as (events & Hins & _ & _ & _ & Hconf).
  rewrite Hins in Hw. by injection Hw as <-.
Qed.

(** A source high-water checkpoint closes the silent tail: accounting a
    checkpoint record whose produced count is past the next expected number
    leaves every number of the tail covered by an event that is backed by the
    checkpoint, not merely inferred from a gap. *)
Theorem high_water_closes_tail {BP : BuildProfile} {E} buffer rs r v t :
  Forall accountable rs → accountable r →
  for_each (account (E:=E)) rs (tracker_new buffer) = Ok t →
  parse_source_high_water r = Some v →
  ∃ t', account (E:=E) r t = Ok t' ∧
    ∀ s, next_seq t (source_key r) ≤ s < v →
      confirmed (lt_loss_events t')
        (MkLossEvent buffer (rec_run_id r) (rec_source_id r) 0 0 0 true) s.
Proof.
  intros Hrs Hr Ht Hv. destruct (account_all_inv (E:=E) buffer rs Hrs) as (t0 & D & Ht0 & Hinv).
  rewrite Ht in Ht0. injection Ht0 as <-.
  destruct (account_inv (E:=E) buffer rs t D r Hinv Hr) as (t' & Hacc & _). exists t'. split; [done|].
  intros s Hs. pose proof Hr as ((_ & _ & _ & [Hseq _] & _) & Hmax & _). unfold U64_MAX in Hmax.
  destruct (ti_next _ _ _ _ Hinv (source_key r)) as [Hn0 _].
  assert (rec_event_type_id r = EVENT_SOURCE_HIGH_WATER ∧ v = rec_seq r) as [Hty ->].
  { unfold parse_source_high_water in Hv. case_decide; [done|]. split; [tauto|by eapply find_high_water_seq]. }
  unfold account in Hacc. fold (next_seq t (source_key r)) in Hacc. cbv zeta in Hacc.
  set (e0 := MkLossEvent buffer (rec_run_id r) (rec_source_id r) 0 0 0 true).
  apply bind_Ok in Hacc as (t1 & H1 & Hacc). apply bind_Ok in Hacc as (t2 & H2 & Hacc).
  apply bind_Ok in Hacc as (t3 & H3 & Hacc).
  unfold account_high_water in H1. rewrite Hv, decide_True, !sub_w_ok, !ok_bind in H1 by lia.
  rewrite (ti_buffer _ _ _ _ Hinv) in H1.
  match type of H1 with with_loss_event t ?ev = _ =>
    assert (Hev : event_ok ev) by (unfold event_ok; cbn; unfold U64_MAX in *; lia);
    destruct (with_loss_event_spec (E:=E) t ev buffer (ti_events _ _ _ _ Hinv) (ti_same _ _ _ _ Hinv) Hev eq_refl)
      as (ev1 & Heq1 & Hwf1 & Hs1 & _);
    pose proof (with_loss_event_confirmed t ev buffer t1 (ti_events _ _ _ _ Hinv) (ti_same _ _ _ _ Hinv)
      Hev eq_refl H1 e0 s) as Hc1 end.
  rewrite Heq1 in H1. injection H1 as <-. cbn [lt_loss_events] in Hc1.
  assert (Hconf1 : confirmed ev1 e0 s).
  { apply Hc1, Exists_cons. left. split; [by apply same_loss_stream_iff|]. unfold covers. cbn. split; [lia|done]. }
  assert (Hconf2 : confirmed (lt_loss_events t2) e0 s).
  { unfold account_gap in H2. case_decide; [|by injection H2 as <-].
    rewrite sub_w_ok, ok_bind, sub_w_ok, ok_bind, add_w_ok, ok_bind in H2 by lia.
    eapply (with_loss_event_confirmed _ _ buffer); [..|exact H2|unfold confirmed; rewrite Exists_cons; right; exact Hconf1]; [done|done| |exact (ti_buffer _ _ _ _ Hinv)].
    unfold event_ok. cbn. unfold U64_MAX in *. lia. }
  assert (Hconf3 : confirmed (lt_loss_events t3) e0 s).
  { unfold account_delivery in H3. case_decide; [|by injection H3 as <-].
    apply bind_Ok in H3 as (d & _ & H3). apply bind_Ok in H3 as (n & _ & H3). by injection H3 as <-. }
  destruct (parse_records_dropped_ok (E:=E) r (lt_buffer_id t3) Hr) as (o & Hp & Hnone & _).
  rewrite Hp, (Hnone ltac:(by rewrite Hty)) in Hacc. by injection Hacc as <-.
Qed.

Definition demo_checkpoint : WireRecord :=
  with_slots (record_new 1 1 12 7 EVENT_SOURCE_HIGH_WATER)
    [{| slot_key := KEY_SOURCE_HIGH_WATER; slot_ty := TY_ULINT; slot_payload := to_le_bytes 8 12 |}].
Definition demo_tracker : LossTracker :=
  {| lt_buffer_id := 1; lt_next_seq_by_source := {[(1, 7) := 1]};
     lt_delivered_by_source := {[(1, 7) := 1]}; lt_loss_events := [] |}.

Lemma high_water_closes_tail_witness :
  ∃ t', account (BP:=dev_profile) (E:=RingError) demo_checkpoint demo_tracker = Ok t' ∧
    ∀ s, next_seq demo_tracker (source_key demo_checkpoint) ≤ s < 12 →
      confirmed (lt_loss_events t') (MkLossEvent 1 1 7 0 0 0 true) s.
Proof.
  apply (high_water_closes_tail (BP:=dev_profile) 1 [demo_record 0] demo_checkpoint 12 demo_tracker);
    [by_compute|by_compute|vm_compute; reflexivity|vm_compute; reflexivity].
Defined.

Lemma dropped_slots_fold c f l :
  is_u32 c → is_u64 f → is_u64 l →
  foldl dropped_slot (None, None, None)
    [{| slot_key := KEY_DROPPED_COUNT; slot_ty := TY_UDINT; slot_payload := to_le_bytes 4 c |};
     {| slot_key := KEY_FIRST_LOST_SEQ; slot_ty := TY_ULINT; slot_payload := to_le_bytes 8 f |};
     {| slot_key := KEY_LAST_LOST_SEQ; slot_ty := TY_ULINT; slot_payload := to_le_bytes 8 l |}]
  = (Some c, Some f, Some l).
Proof.
  intros Hc Hf Hl. cbn [foldl]. unfold dropped_slot. cbn [slot_key slot_payload].
  rewrite !length_to_le_bytes.
  rewrite (from_to_le_bytes 4 c Hc), (from_to_le_bytes 8 f Hf), (from_to_le_bytes 8 l Hl).
  by rewrite !decide_True, !decide_False by (by_compute || (intros [? ?]; done)).
Qed.

(** The authoritative record survives the wire: encoding the
    [RecordsDropped] record of a loss range, decoding it and parsing it gives
    back the range as a non-synthetic event with its exact count, provided the
    range has fewer than 2^32 records; a longer one, whose count is truncated to
    32 bits, is not recognised at all. *)
Theorem records_dropped_roundtrip {BP : BuildProfile} {E} seq range buffer :
  range_ok range → is_u64 (lr_run_id range) → is_u32 (lr_source_id range) →
  0 ≤ seq → 1780000000000000000 + seq < 2 ^ 64 →
  let n := lr_last_seq range - lr_first_seq range + 1 in
  ∃ record bs d, records_dropped_record (E:=E) seq range = Ok record
    ∧ encode record true = Ok bs ∧ decode bs = Ok d
    ∧ parse_records_dropped (E:=E) (dec_record d) buffer = Ok
        (if decide (n < 2 ^ 32) then
           Some {| le_buffer_id := buffer; le_run_id := lr_run_id range;
                   le_source_id := lr_source_id range; le_first_seq := lr_first_seq range;
                   le_last_seq := lr_last_seq range; le_count := n; le_synthetic := false |}
         else None).
Proof.
  intros [[Hf Hfl] Hl] Hrun Hsrc Hseq Htime n. unfold U64_MAX in Hl.
  assert (Hrec : ∃ record, records_dropped_record (E:=E) seq range = Ok record
    ∧ record = with_slots (record_new (1780000000000000000 + seq) (lr_run_id range) seq (lr_source_id range)
        EVENT_RECORDS_DROPPED)
        [{| slot_key := KEY_DROPPED_COUNT; slot_ty := TY_UDINT; slot_payload := to_le_bytes 4 (n mod 2 ^ 32) |};
         {| slot_key := KEY_FIRST_LOST_SEQ; slot_ty := TY_ULINT; slot_payload := to_le_bytes 8 (lr_first_seq range) |};
         {| slot_key := KEY_LAST_LOST_SEQ; slot_ty := TY_ULINT; slot_payload := to_le_bytes 8 (lr_last_seq range) |}]).
  { unfold records_dropped_record, count. rewrite add_w_ok, ok_bind by lia.
    rewrite sub_w_ok, ok_bind, add_w_ok, ok_bind by lia. by eexists. }
  destruct Hrec as (rec & -> & Hrec).
  exists rec, (enc_record rec true), {| dec_record := stored rec; dec_consumed := length (enc_record rec true) |}.
  split; [done|].
  assert (Hmod : fits (8 * Z.of_nat 4) (n mod 2 ^ 32)) by (apply Z.mod_pos_bound; lia).
  assert (Henc : encodable rec).
  { split.
    - subst rec. unfold record_wf, fits in *. cbn [rec_flags rec_source_time rec_run_id rec_seq rec_source_id
        rec_event_type_id with_slots record_new rec_slots]. unfold EVENT_RECORDS_DROPPED.
      split_and!; try lia.
      repeat (apply Forall_cons; split; [apply slot_le_wf; [by_compute|by_compute|lia]|]). done.
    - subst rec. unfold record_len. cbn [rec_slots with_slots]. rewrite !enc_slots_cons, !length_app, !length_enc_slot.
      cbn [slot_payload]. rewrite !length_to_le_bytes. by_compute. }
  split; [by apply encodable_encode|].
  pose proof (encodable_decode rec [] Henc) as Hdec. rewrite app_nil_r in Hdec. split; [exact Hdec|].
  cbn [dec_record]. clear Hdec. unfold parse_records_dropped, stored. subst rec.
  cbn [rec_event_type_id rec_slots rec_run_id rec_source_id rec_flags with_flags with_slots record_new].
  rewrite decide_False by tauto.
  rewrite dropped_slots_fold by (done || (unfold fits; lia)).
  rewrite decide_False, sub_w_ok, ok_bind, add_w_ok, ok_bind by lia. fold n.
  destruct (decide (n < 2 ^ 32)) as [Hn|Hn].
  - rewrite Z.mod_small, decide_False by lia. reflexivity.
  - rewrite decide_True; [done|]. pose proof (Z.mod_pos_bound n (2 ^ 32)). lia.
Qed.

Lemma records_dropped_roundtrip_witness :
  ∃ record bs d, records_dropped_record (BP:=dev_profile) (E:=RingError) 5 (MkLossRange 1 7 3 9) = Ok record
    ∧ encode record true = Ok bs ∧ decode bs = Ok d
    ∧ parse_records_dropped (BP:=dev_profile) (E:=RingError) (dec_record d) 1 = Ok
        (if decide (7 < 2 ^ 32) then
           Some {| le_buffer_id := 1; le_run_id := 1; le_source_id := 7; le_first_seq := 3;
                   le_last_seq := 9; le_count := 7; le_synthetic := false |}
         else None).
Proof.
  apply (records_dropped_roundtrip (BP:=dev_profile) 5 (MkLossRange 1 7 3 9) 1);
    [unfold range_ok; by_compute|by_compute..].
Defined.

(** A well-formed [RecordsDropped] record whose range is all of [u64]. *)
Definition full_range_record : WireRecord :=
  with_slots (record_new 1 1 0 7 EVENT_RECORDS_DROPPED)
    [{| slot_key := KEY_DROPPED_COUNT; slot_ty := TY_UDINT; slot_payload := to_le_bytes 4 0 |};
     {| slot_key := KEY_FIRST_LOST_SEQ; slot_ty := TY_ULINT; slot_payload := to_le_bytes 8 0 |};
     {| slot_key := KEY_LAST_LOST_SEQ; slot_ty := TY_ULINT; slot_payload := to_le_bytes 8 U64_MAX |}].

(** The width bound of [account] is needed: on a decodable [RecordsDropped]
    record that names the range 0 to [u64::MAX] with count 0 the computation of
    [last - first + 1] overflows; a checked build panics, a release build wraps
    and records a loss event over every number with a count of zero, so its
    source's lost total is 0. *)
Theorem full_range_overflows {E} :
  record_wf full_range_record
  ∧ account (BP:=dev_profile) (E:=E) full_range_record (tracker_new 1) = Panic
  ∧ ∃ t, account (BP:=release_profile) (E:=E) full_range_record (tracker_new 1) = Ok t
      ∧ lost (BP:=release_profile) (E:=E) t 1 7 = Ok 0
      ∧ confirmed (lt_loss_events t) (MkLossEvent 1 1 7 0 0 0 true) 12345.
Proof.
  split; [by_compute|]. split; [vm_compute; reflexivity|]. eexists. split; [vm_compute; reflexivity|].
  split; [vm_compute; reflexivity|]. unfold confirmed, covers. by_compute.
Qed.
