(* ===== verification/Consumer.v ===== *)
(** * Reading consumers (crates/carriage/src/consumer.rs)

    The two consumers, over the index and over the raw bytes, as instances of
    one interface; what polling a live ring delivers is proved against the
    interface. *)
From S2P Require Import Prelude Crc Wire Control Registry Layout Ring RingRead Loss.

(** ** The consumers *)
Record LossAccountingConsumer := MkLossAccountingConsumer {
  lac_cursor_abs : u64;
  lac_tracker : LossTracker;
}.

Record RawByteConsumer := MkRawByteConsumer {
  rbc_cursor_abs : u64;
  rbc_tracker : LossTracker;
}.

Section consumer.
Context {BP : BuildProfile}.

Definition lac_with_buffer_id (buffer_id : u32) : LossAccountingConsumer :=
  {| lac_cursor_abs := 0; lac_tracker := tracker_new buffer_id |}.
Definition lac_new : LossAccountingConsumer := lac_with_buffer_id DEFAULT_BUFFER_ID.

Definition lac_account_batch (c : LossAccountingConsumer) (batch : ReadBatch)
  : res RingError LossAccountingConsumer :=
  t ← for_each (λ read t, account (rr_record read) t) (rb_records batch) (lac_tracker c);
  Ok {| lac_cursor_abs := rb_next_abs batch; lac_tracker := t |}.

Definition lac_poll (c : LossAccountingConsumer) (ring : RingBuffer)
  : res RingError (LossAccountingConsumer * ReadBatch) :=
  batch ← read_from ring (lac_cursor_abs c);
  c ← lac_account_batch c batch;
  Ok (c, batch).

Definition lac_delivered_in_run (c : LossAccountingConsumer) (run_id : u64) (source_id : u32) : u64 :=
  delivered (lac_tracker c) run_id source_id.
Definition lac_lost_in_run (c : LossAccountingConsumer) (run_id : u64) (source_id : u32)
  : res RingError u64 := lost (lac_tracker c) run_id source_id.
Definition lac_delivered (c : LossAccountingConsumer) (source_id : u32) : u64 :=
  lac_delivered_in_run c 1 source_id.
Definition lac_lost (c : LossAccountingConsumer) (source_id : u32) : res RingError u64 :=
  lac_lost_in_run c 1 source_id.

Definition rbc_with_buffer_id (buffer_id : u32) : RawByteConsumer :=
  {| rbc_cursor_abs := 0; rbc_tracker := tracker_new buffer_id |}.
Definition rbc_new : RawByteConsumer := rbc_with_buffer_id DEFAULT_BUFFER_ID.

Definition rbc_account_batch (c : RawByteConsumer) (batch : ReadBatch) : res RingError RawByteConsumer :=
  t ← for_each (λ read t, account (rr_record read) t) (rb_records batch) (rbc_tracker c);
  Ok {| rbc_cursor_abs := rb_next_abs batch; rbc_tracker := t |}.

Definition rbc_poll (c : RawByteConsumer) (ring : RingBuffer) : res RingError (RawByteConsumer * ReadBatch) :=
  batch ← read_raw_from ring (rbc_cursor_abs c);
  c ← rbc_account_batch c batch;
  Ok (c, batch).

Definition rbc_poll_snapshot (c : RawByteConsumer) (ring : RingBuffer) (s : ControlBlockSnapshot)
  : res RingError (RawByteConsumer * ReadBatch) :=
  batch ← read_raw_from_snapshot ring (rbc_cursor_abs c) s;
  c ← rbc_account_batch c batch;
  Ok (c, batch).

Definition rbc_delivered_in_run (c : RawByteConsumer) (run_id : u64) (source_id : u32) : u64 :=
  delivered (rbc_tracker c) run_id source_id.
Definition rbc_lost_in_run (c : RawByteConsumer) (run_id : u64) (source_id : u32)
  : res RingError u64 := lost (rbc_tracker c) run_id source_id.

End consumer.

(** ** The polling interface *)
Class Polling (C : Type) := {
  pc_new : u32 → C;
  pc_cursor : C → u64;
  pc_tracker : C → LossTracker;
  pc_poll : ∀ {BP : BuildProfile}, C → RingBuffer → res RingError (C * ReadBatch);
}.

(** The laws: a new consumer starts at zero; polling a ring that represents a
    log, from a boundary, delivers what is readable, accounts it in order and
    moves the cursor to the head. *)
Class PollingLaws (C : Type) `{Polling C} := {
  pc_new_cursor b : pc_cursor (pc_new b) = 0;
  pc_new_tracker b : pc_tracker (pc_new b) = tracker_new b;
  pc_poll_spec {BP : BuildProfile} c r a t :
    ring_rep r a → ab_head a < 2 ^ 64 → boundary a (pc_cursor c) →
    for_each (account (E:=RingError)) (stored ∘ en_rec <$> readable a (pc_cursor c)) (pc_tracker c) = Ok t →
    ∃ c', pc_poll c r = Ok (c', batch_of a (pc_cursor c)) ∧ pc_cursor c' = ab_head a ∧ pc_tracker c' = t;
}.

#[global] Instance lac_polling : Polling LossAccountingConsumer := {|
  pc_new := lac_with_buffer_id; pc_cursor := lac_cursor_abs; pc_tracker := lac_tracker;
  pc_poll := @lac_poll |}.
#[global] Instance rbc_polling : Polling RawByteConsumer := {|
  pc_new := rbc_with_buffer_id; pc_cursor := rbc_cursor_abs; pc_tracker := rbc_tracker;
  pc_poll := @rbc_poll |}.

Lemma account_reads {BP : BuildProfile} es t :
  for_each (λ read t, account (E:=RingError) (rr_record read) t) (en_read <$> es) t
  = for_each account (stored ∘ en_rec <$> es) t.
Proof.
  revert t. induction es as [|e es IH]; intros t; [done|]. rewrite !fmap_cons. cbn [for_each].
  change (rr_record (en_read e)) with ((stored ∘ en_rec) e).
  destruct (account _ t); [|done..]. rewrite !ok_bind. apply IH.
Qed.

#[global] Instance lac_laws : PollingLaws LossAccountingConsumer.
Proof.
  split; [done|done|]. intros BP c r a t Hrep Hh Hb Ht. cbn [pc_poll pc_cursor pc_tracker lac_polling] in *.
  unfold lac_poll. rewrite (read_from_rep _ _ Hrep), ok_bind. unfold lac_account_batch.
  cbn [rb_records batch_of rb_next_abs]. rewrite account_reads, Ht, !ok_bind. by eexists.
Qed.

#[global] Instance rbc_laws : PollingLaws RawByteConsumer.
Proof.
  split; [done|done|]. intros BP c r a t Hrep Hh Hb Ht. cbn [pc_poll pc_cursor pc_tracker rbc_polling] in *.
  unfold rbc_poll. rewrite (read_raw_from_rep _ _ Hrep) by done. rewrite ok_bind. unfold rbc_account_batch.
  cbn [rb_records batch_of rb_next_abs]. rewrite account_reads, Ht, !ok_bind. by eexists.
Qed.

(** ** A producer and a consumer on one ring *)
Inductive SysCmd := SysWrite (rec : WireRecord) | SysPoll.

Section system.
Context {BP : BuildProfile} {C : Type} `{PollingLaws C}.

(** One command; the records delivered so far are kept with the state. *)
Definition sys_step (cmd : SysCmd) (s : RingBuffer * C * list ReadRecord)
  : res RingError (RingBuffer * C * list ReadRecord) :=
  let '(r, c, got) := s in
  match cmd with
  | SysWrite rec => '(r, _) ← write_record r rec; Ok (r, c, got)
  | SysPoll => '(c, batch) ← pc_poll c r; Ok (r, c, got ++ rb_records batch)
  end.

Definition run_system (cap : usize) (buffer : u32) (cmds : list SysCmd)
  : res RingError (RingBuffer * C * list ReadRecord) :=
  r ← ring_new cap; for_each sys_step cmds (r, pc_new buffer, []).

Definition sys_record (cmd : SysCmd) : option WireRecord :=
  match cmd with SysWrite rec => Some rec | SysPoll => None end.
Definition sys_written (cmds : list SysCmd) : list WireRecord := omap sys_record cmds.

Definition sys_ok (cap : nat) (rec : WireRecord) : Prop := fits_ring cap rec ∧ accountable rec.

#[global] Instance sys_ok_dec cap rec : Decision (sys_ok cap rec).
Proof. unfold sys_ok, fits_ring. apply _. Defined.

(** The ring represents [a]; of its log, [old] was there at the last poll;
    [got] are the entries delivered. *)
Record sys_inv (buffer : u32) (a : AbsRing) (old new got : list Entry) (r : RingBuffer) (c : C) : Prop := {
  si_rep : ring_rep r a;
  si_log : ab_log a = old ++ new;
  si_accountable : Forall (λ e, accountable (en_rec e)) (ab_log a);
  si_old : Forall (λ e, en_end e ≤ pc_cursor c) old;
  si_new : Forall (λ e, pc_cursor c ≤ en_start e) new;
  si_cursor : pc_cursor c ≤ ab_oldest a ∨ Exists (λ e, pc_cursor c = en_end e) (ab_live a);
  si_head : pc_cursor c ≤ ab_head a;
  si_got : got `sublist_of` old;
  si_missing : Forall (λ e, e ∈ got ∨ e ∈ ab_dropped a) old;
  si_tracker : for_each (account (E:=RingError)) (stored ∘ en_rec <$> got) (tracker_new buffer)
               = Ok (pc_tracker c);
}.

Lemma stored_accountable r : accountable r → accountable (stored r).
Proof.
  intros ((Hf&?&?&?&?&?&?) & ? & ?). split; [split; [by apply crc_flags_u16|done]|done].
Qed.

Lemma inv_boundary buffer a old new got r c :
  sys_inv buffer a old new got r c → boundary a (pc_cursor c).
Proof.
  intros Hinv. destruct (si_cursor _ _ _ _ _ _ _ Hinv) as [Hc|Hc]; [by left|right; right].
  eapply Exists_impl; [exact Hc|]. simpl. tauto.
Qed.

Lemma layout_last bs a es h e :
  layout bs a es h → last es = Some e → en_end e = h.
Proof.
  induction 1 as [|e' es h _ _ _ Hrest IH|a e' es h _ _ _ IH]; [done| |done].
  destruct es as [|e2 es]; [intros [= <-]; by inversion Hrest|exact IH].
Qed.

Lemma log_ends r a :
  ring_rep r a → Forall (λ e, entry_ok e ∧ en_end e ≤ ab_head a) (ab_log a).
Proof.
  intros Hrep. pose proof (rep_writable _ _ Hrep) as Hw. rewrite Forall_forall in *.
  intros e He. split; [by apply Hw|]. apply elem_of_app in He as [He|He].
  - pose proof (rep_dropped _ _ Hrep) as Hd. rewrite Forall_forall in Hd. destruct (Hd e He).
    pose proof (layout_bounds _ _ _ _ (rep_layout _ _ Hrep)) as [? _]. lia.
  - pose proof (layout_bounds _ _ _ _ (rep_layout _ _ Hrep)) as [_ Hl]. rewrite Forall_forall in Hl.
    by apply Hl.
Qed.

Lemma sys_write buffer a old new got r c rec :
  sys_inv buffer a old new got r c → sys_ok (ab_cap a) rec →
  ab_head a + 2 * Z.of_nat (ab_cap a) < 2 ^ 64 →
  ∃ r' se, write_record r rec = Ok (r', se)
    ∧ sys_inv buffer (abs_write a rec) old (new ++ [placed a rec]) got r' c.
Proof.
  intros Hinv [[Hw Hl] Hacc] Hroom. pose proof (si_rep _ _ _ _ _ _ _ Hinv) as Hrep.
  destruct (write_record_rep r a rec Hrep Hw Hl Hroom) as (r' & Hwr & Hrep').
  exists r', (en_start (placed a rec), en_end (placed a rec)). split; [done|].
  pose proof (placed_bounds r a rec Hrep Hw Hl) as [[Hs _] [He _]].
  pose proof (log_write r a rec Hrep) as Hlog. pose proof (si_head _ _ _ _ _ _ _ Hinv) as Hh.
  pose proof (dropped_write r a rec Hrep Hw Hl) as Hdw. destruct Hinv as [_ Hlg Ha Ho Hn Hc _ Hg Hm Ht].
  split; try done.
  - by rewrite Hlog, Hlg, <-app_assoc.
  - rewrite Hlog. apply Forall_app. split; [done|by constructor].
  - apply Forall_app. split; [done|]. constructor; [lia|done].
  - destruct Hc as [Hc|Hc].
    + left. pose proof (oldest_kept r a rec Hrep). pose proof (oldest_write_le r a rec Hrep Hw Hl). lia.
    + rewrite (live_split r a rec Hrep) in Hc. apply Exists_app in Hc as [Hc|Hc].
      * left. apply Exists_exists in Hc as (e & Hev & ->). rewrite Forall_forall in Hdw.
        apply Hdw, elem_of_app. by right.
      * right. rewrite abs_write_eq. apply Exists_app. by left.
  - change (ab_head (abs_write a rec)) with (en_end (placed a rec)). lia.
  - eapply Forall_impl; [exact Hm|]. intros e [?|?]; [by left|right].
    rewrite dropped_eq. apply elem_of_app. by left.
Qed.

(** What a poll reads is a subsequence of what is new. *)
Lemma readable_new a old new c :
  ab_log a = old ++ new → Forall (λ e, en_start e < c) old →
  readable a c `sublist_of` new.
Proof.
  intros Hlog Hold. unfold readable.
  trans (filter (λ e, Z.max c (ab_oldest a) ≤ en_start e) (ab_log a)).
  - unfold ab_log. rewrite filter_app. by apply sublist_inserts_l.
  - rewrite Hlog, filter_app, filter_none; [apply sublist_filter|].
    eapply Forall_impl; [exact Hold|]. simpl. lia.
Qed.

Lemma sys_poll buffer a old new got r c :
  sys_inv buffer a old new got r c → ab_head a < 2 ^ 64 →
  ∃ c', pc_poll c r = Ok (c', batch_of a (pc_cursor c))
    ∧ sys_inv buffer a (ab_log a) [] (got ++ readable a (pc_cursor c)) r c'.
Proof.
  intros Hinv Hh. pose proof (inv_boundary _ _ _ _ _ _ _ Hinv) as Hb.
  destruct Hinv as [Hrep Hlg Ha Ho Hn Hc Hhd Hg Hm Ht].
  pose proof (log_ends r a Hrep) as Hends.
  assert (Hsub : readable a (pc_cursor c) `sublist_of` new).
  { apply (readable_new a old); [done|]. rewrite Hlg in Hends. apply Forall_app in Hends as [He _].
    rewrite Forall_forall in *. intros e Hin. destruct (He e Hin) as [Hok _].
    destruct (en_len_bounds e Hok). specialize (Ho e Hin). simpl in Ho. unfold en_end in Ho. lia. }
  assert (Hgot : got ++ readable a (pc_cursor c) `sublist_of` ab_log a).
  { rewrite Hlg. by apply sublist_app. }
  assert (Hacc : Forall accountable (stored ∘ en_rec <$> got ++ readable a (pc_cursor c))).
  { apply Forall_fmap, Forall_forall. intros e He. apply stored_accountable.
    rewrite Forall_forall in Ha. apply Ha. by eapply elem_of_sublist. }
  destruct (account_all_inv (E:=RingError) buffer _ Hacc) as (t & D & Hall & _).
  rewrite fmap_app, for_each_app, Ht, ok_bind in Hall.
  destruct (pc_poll_spec c r a t Hrep Hh Hb Hall) as (c' & Hp & Hc' & Ht'). exists c'. split; [done|].
  split; rewrite ?Hc', ?Ht'; try done.
  - by rewrite app_nil_r.
  - eapply Forall_impl; [exact Hends|]. by intros e [].
  - pose proof (rep_layout _ _ Hrep) as Hlay. destruct (ab_live a) as [|e0 l] eqn:Hlive.
    + left. inversion Hlay. lia.
    + right. destruct (last (e0 :: l)) as [e|] eqn:Hlast; [|by apply last_None in Hlast].
      apply Exists_exists. exists e. split; [by apply last_Some_elem_of|].
      symmetry. by eapply layout_last.
  - rewrite Forall_forall in Hm, Hn. apply Forall_forall. intros e He.
    assert (Hcase : e ∈ old ∨ e ∈ new) by (rewrite Hlg in He; by apply elem_of_app).
    destruct Hcase as [Hin|Hin].
    + destruct (Hm e Hin) as [?|?]; [left; apply elem_of_app; by left|by right].
    + apply elem_of_app in He as [?|Hl]; [by right|left]. apply elem_of_app. right.
      apply list_elem_of_filter. split; [|done]. specialize (Hn e Hin).
      pose proof (layout_bounds _ _ _ _ (rep_layout _ _ Hrep)) as [_ Hb']. rewrite Forall_forall in Hb'.
      destruct (Hb' e Hl). simpl in *. lia.
  - rewrite fmap_app, for_each_app, Ht, ok_bind. by rewrite Hall.
Qed.

Definition sys_reach (cap : nat) (cmds : list SysCmd) (buffer : u32) (a : AbsRing) (old new got : list Entry)
    (r : RingBuffer) (c : C) : Prop :=
  sys_inv buffer a old new got r c ∧ ab_cap a = cap ∧ en_rec <$> ab_log a = sys_written cmds
  ∧ ab_head a ≤ 2 * Z.of_nat cap * Z.of_nat (length (sys_written cmds)).

Lemma sys_init cap buffer :
  (0 < cap)%nat → ∃ r, ring_new cap = Ok r ∧ sys_reach cap [] buffer (abs_new cap) [] [] [] r (pc_new buffer).
Proof.
  intros Hcap. destruct (ring_new_rep cap Hcap) as (r & Hr & Hrep). exists r. split; [done|].
  split; [|split_and!; [done|done|cbn; lia]]. split; cbn [ab_head abs_new]; rewrite ?pc_new_cursor, ?pc_new_tracker; try done.
  by left.
Qed.

Lemma run_system_reach cap buffer cmds :
  (0 < cap)%nat → Forall (sys_ok cap) (sys_written cmds) →
  2 * Z.of_nat cap * Z.of_nat (length (sys_written cmds)) < 2 ^ 64 →
  ∃ r c a old new got, run_system cap buffer cmds = Ok (r, c, en_read <$> got)
    ∧ sys_reach cap cmds buffer a old new got r c.
Proof.
  intros Hcap. induction cmds as [|cmd cmds IH] using rev_ind; intros Hok Hroom.
  { destruct (sys_init cap buffer Hcap) as (r & Hr & Hreach). unfold run_system. rewrite Hr, ok_bind.
    exists r, (pc_new buffer), (abs_new cap), [], [], []. done. }
  assert (Hw : sys_written (cmds ++ [cmd]) = sys_written cmds ++ sys_written [cmd]) by apply omap_app.
  rewrite Hw in Hok, Hroom. apply Forall_app in Hok as [Hok Hok1]. rewrite length_app in Hroom.
  destruct IH as (r & c & a & old & new & got & Hrun & Hinv & Hcp & Hlog & Hhead); [done|nia|].
  unfold run_system in *. apply bind_Ok in Hrun as (r0 & -> & Hrun).
  rewrite ok_bind, for_each_app, Hrun, ok_bind. cbn [for_each sys_step]. destruct cmd as [rec|].
  - apply Forall_cons_1 in Hok1 as [Hok1 _]. cbn [length sys_written omap list_omap sys_record] in Hroom.
    rewrite <-Hcp in Hok1. pose proof (log_write r a rec (si_rep _ _ _ _ _ _ _ Hinv)) as Hlw.
    pose proof (placed_bounds r a rec (si_rep _ _ _ _ _ _ _ Hinv) (proj1 (proj1 Hok1)) (proj2 (proj1 Hok1))) as Hpb.
    destruct (sys_write buffer a old new got r c rec Hinv Hok1 ltac:(nia)) as (r' & se & -> & Hinv').
    rewrite !ok_bind. exists r', c, (abs_write a rec), old, (new ++ [placed a rec]), got. split; [done|].
    split_and!; [done|done| |].
    + rewrite Hlw by done. by rewrite fmap_app, Hlog, Hw.
    + rewrite Hw, length_app. change (ab_head (abs_write a rec)) with (en_end (placed a rec)).
      cbn [length sys_written omap list_omap sys_record]. rewrite Hcp in Hpb. lia.
  - destruct (sys_poll buffer a old new got r c Hinv ltac:(nia)) as (c' & -> & Hinv').
    rewrite !ok_bind. exists r, c', a, (ab_log a), [], (got ++ readable a (pc_cursor c)).
    split; [by rewrite fmap_app|]. split_and!; [done|done| |]; rewrite Hw; cbn [sys_written omap list_omap sys_record];
      by rewrite app_nil_r.
Qed.
End system.

(** ** Properties *)

(** C1: exactly once or accounted: whatever the interleaving of writes and
    polls, with either consumer, after a final poll every record written was
    delivered, exactly once, in write order and as stored, or had been evicted
    (and is in the ring's dropped count and loss ranges) before it was read;
    the tracker is the accounting of the delivered records. *)
Theorem poll_exactly_once {BP : BuildProfile} {C} `{PollingLaws C} cap buffer cmds :
  (0 < cap)%nat → Forall (sys_ok cap) (sys_written cmds) →
  2 * Z.of_nat cap * Z.of_nat (length (sys_written cmds)) < 2 ^ 64 →
  ∃ r (c : C) a got,
    run_system cap buffer (cmds ++ [SysPoll]) = Ok (r, c, en_read <$> got)
    ∧ ring_rep r a ∧ en_rec <$> ab_log a = sys_written cmds
    ∧ got `sublist_of` ab_log a
    ∧ Forall (λ e, e ∈ got ∨ e ∈ ab_dropped a) (ab_log a)
    ∧ for_each (account (E:=RingError)) (stored ∘ en_rec <$> got) (tracker_new buffer) = Ok (pc_tracker c).
Proof.
  intros Hcap Hok Hroom.
  destruct (run_system_reach (C:=C) cap buffer cmds Hcap Hok Hroom)
    as (r & c & a & old & new & got & Hrun & Hinv & Hcp & Hlog & Hhead).
  destruct (sys_poll buffer a old new got r c Hinv ltac:(lia)) as (c' & Hp & Hinv').
  exists r, c', a, (got ++ readable a (pc_cursor c)).
  unfold run_system in *. apply bind_Ok in Hrun as (r0 & -> & Hrun).
  rewrite ok_bind, for_each_app, Hrun, ok_bind. cbn [for_each sys_step]. rewrite Hp, !ok_bind.
  destruct Hinv'. split_and!; try done. by rewrite fmap_app.
Qed.

Definition demo_sys : list SysCmd :=
  [SysWrite (demo_record 0); SysPoll] ++ (SysWrite ∘ demo_record <$> [1; 2; 3; 4]).

Lemma poll_exactly_once_witness :
  ∃ r (c : RawByteConsumer) a got,
    run_system (BP:=dev_profile) 100 1 (demo_sys ++ [SysPoll]) = Ok (r, c, en_read <$> got)
    ∧ ring_rep r a ∧ en_rec <$> ab_log a = sys_written demo_sys
    ∧ got `sublist_of` ab_log a
    ∧ Forall (λ e, e ∈ got ∨ e ∈ ab_dropped a) (ab_log a)
    ∧ for_each (account (BP:=dev_profile) (E:=RingError)) (stored ∘ en_rec <$> got) (tracker_new 1) = Ok (pc_tracker c).
Proof. apply (poll_exactly_once (BP:=dev_profile) 100 1 demo_sys); [lia|by_compute|by_compute]. Defined.

(** C2: end-to-end reconciliation: for a source that wrote the sequence numbers
    0 to n - 1 in order, however many of its records were overwritten and
    whenever the polls happened, once its last record has been delivered the
    consumer's delivered and lost counts reach n: nothing is lost uncounted. They
    add up to exactly n when no [RecordsDropped] record of the source was
    delivered; one may name records that were delivered before they were
    evicted, and these are counted twice ([dropped_after_delivery]). Records fit
    the ring, none has the number [u64::MAX] or reports it as lost, and the
    offsets stay below 2^64. *)
Theorem end_to_end_reconciliation {BP : BuildProfile} {C} `{PollingLaws C} cap buffer cmds run src n
    r (c : C) got :
  (0 < cap)%nat → Forall (sys_ok cap) (sys_written cmds) →
  2 * Z.of_nat cap * Z.of_nat (length (sys_written cmds)) < 2 ^ 64 →
  rec_seq <$> filter (λ x, source_key x = (run, src)) (sys_written cmds) = seqZ 0 n →
  run_system cap buffer cmds = Ok (r, c, got) →
  Exists (λ x, source_key (rr_record x) = (run, src) ∧ rec_seq (rr_record x) = n - 1) got →
  ∃ l, lost (E:=RingError) (pc_tracker c) run src = Ok l
    ∧ n ≤ delivered (pc_tracker c) run src + l
    ∧ (Forall (λ x, source_key (rr_record x) = (run, src) → rec_event_type_id (rr_record x) ≠ EVENT_RECORDS_DROPPED) got →
       delivered (pc_tracker c) run src + l = n).
Proof.
  intros Hcap Hok Hroom Hseq Hrun Hlast.
  destruct (run_system_reach (C:=C) cap buffer cmds Hcap Hok Hroom)
    as (r' & c' & a & old & new & got' & Hrun' & Hinv & Hcp & Hlog & Hhead).
  rewrite Hrun in Hrun'. injection Hrun' as <- <- ->.
  assert (Hin : ∀ x, x ∈ (stored ∘ en_rec <$> got') → ∃ y, y ∈ sys_written cmds ∧ x = stored y).
  { intros x (e & -> & He)%list_elem_of_fmap. exists (en_rec e). split; [|done]. rewrite <-Hlog.
    apply list_elem_of_fmap_2. eapply elem_of_sublist; [exact He|].
    rewrite (si_log _ _ _ _ _ _ _ Hinv). apply sublist_inserts_r, (si_got _ _ _ _ _ _ _ Hinv). }
  rewrite Forall_forall in Hok.
  destruct (account_all_inv (E:=RingError) buffer (stored ∘ en_rec <$> got')) as (t & D & Ht & Hti).
  { apply Forall_forall. intros x (y & Hy & ->)%Hin. exact (stored_accountable y (proj2 (Hok y Hy))). }
  rewrite (si_tracker _ _ _ _ _ _ _ Hinv) in Ht. injection Ht as <-.
  destruct (accounted_for (E:=RingError) buffer _ _ D run src Hti) as [Hl Hreach].
  assert (Hlt : ∀ y, y ∈ sys_written cmds → source_key y = (run, src) → rec_seq y < n).
  { intros y Hy Hk. assert (Hs : rec_seq y ∈ seqZ 0 n).
    { rewrite <-Hseq. apply list_elem_of_fmap_2, list_elem_of_filter. done. }
    apply elem_of_seqZ in Hs. lia. }
  assert (Hnext : next_seq (pc_tracker c) (run, src) = n).
  { apply Exists_exists in Hlast as (x & (e & -> & He)%list_elem_of_fmap & Hk & Hs).
    cbn [en_read rr_record] in Hk, Hs.
    assert (Hel : stored (en_rec e) ∈ (stored ∘ en_rec <$> got')) by (apply list_elem_of_fmap; by exists e).
    pose proof (ti_seen _ _ _ _ Hti (stored (en_rec e)) Hel) as Hseen. rewrite Hk, Hs in Hseen.
    destruct (Hin _ Hel) as (y & Hy & Heq). destruct (Hok y Hy) as (_ & (_ & _ & _ & [Hpos _] & _) & _).
    assert (rec_seq (stored y) = rec_seq y) by done. rewrite Heq in Hs.
    destruct (ti_top _ _ _ _ Hti (run, src)) as [Hzero|(x & (z & Hz & ->)%Hin & Hkz & Hnz)]; [lia|].
    pose proof (Hlt z Hz Hkz). change (rec_seq (stored z)) with (rec_seq z) in Hnz. lia. }
  rewrite Hnext in Hreach. eexists. split_and!; [exact Hl|exact Hreach|]. intros Hnd.
  destruct (reconciled (E:=RingError) buffer _ _ D run src Hti) as (l & Hl' & Hsum).
  { apply Forall_forall. rewrite Forall_fmap, Forall_forall in Hnd. intros x (e & -> & He)%list_elem_of_fmap. by apply Hnd. }
  rewrite Hl in Hl'. injection Hl' as ->. lia.
Qed.

Lemma end_to_end_reconciliation_witness :
  ∃ s, run_system (BP:=dev_profile) (C:=LossAccountingConsumer) 100 1 (demo_sys ++ [SysPoll]) = Ok s
   ∧ ∃ l, lost (BP:=dev_profile) (E:=RingError) (pc_tracker s.1.2) 1 7 = Ok l
        ∧ 5 ≤ delivered (pc_tracker s.1.2) 1 7 + l
        ∧ (Forall (λ x, source_key (rr_record x) = (1, 7) → rec_event_type_id (rr_record x) ≠ EVENT_RECORDS_DROPPED) s.2 →
           delivered (pc_tracker s.1.2) 1 7 + l = 5).
Proof.
  eexists. split; [vm_compute; reflexivity|].
  eapply (end_to_end_reconciliation (BP:=dev_profile) (C:=LossAccountingConsumer) 100 1 (demo_sys ++ [SysPoll]) 1 7 5);
    [lia|by_compute|by_compute|vm_compute; reflexivity|vm_compute; reflexivity|by_compute].
Defined.

(** A producer's loss range does not say what was delivered before it was
    evicted: record 0 is delivered, evicted and then reported lost; 1 and 2 are
    evicted unread. Of five numbers three are delivered and three counted lost. *)
Definition reporting_sys : list SysCmd :=
  [SysWrite (demo_record 0); SysPoll] ++ (SysWrite ∘ demo_record <$> [1; 2; 3])
  ++ [SysWrite (with_slots (record_new 1 1 4 7 EVENT_RECORDS_DROPPED)
        [{| slot_key := KEY_DROPPED_COUNT; slot_ty := TY_UDINT; slot_payload := to_le_bytes 4 1 |};
         {| slot_key := KEY_FIRST_LOST_SEQ; slot_ty := TY_ULINT; slot_payload := to_le_bytes 8 0 |};
         {| slot_key := KEY_LAST_LOST_SEQ; slot_ty := TY_ULINT; slot_payload := to_le_bytes 8 0 |}]); SysPoll].
Example dropped_after_delivery :
  match run_system (BP:=dev_profile) (C:=LossAccountingConsumer) 150 1 reporting_sys with
  | Ok (_, c, got) => Some (rec_seq ∘ rr_record <$> got, delivered (pc_tracker c) 1 7, lost (BP:=dev_profile) (E:=RingError) (pc_tracker c) 1 7)
  | _ => None
  end = Some ([0; 3; 4], 3, Ok 3).
Proof. vm_compute. reflexivity. Qed.
