(* ===== verification/Epoch.v ===== *)
(** * Runs, epochs and source sequences (crates/carriage/src/epoch.rs)

    The producer that numbers records per source and brackets definition
    changes and cold starts with system records, and the resolver that maps
    retained records back to their epoch. An operation that fails may already
    have changed the producer, so an error carries the state it leaves. *)
From S2P Require Import Prelude Crc Wire Control Registry Layout Ring RingRead Loss.

(** ** The producer *)
Record PendingTransition := MkPendingTransition {
  pt_def_hash_old : bytes;
  pt_def_hash_new : bytes;
  pt_epoch_id : u64;
  pt_definition_changed_emitted : bool;
}.

Record EpochProducer := MkEpochProducer {
  ep_ring : RingBuffer;
  ep_run_id : u64;
  ep_epoch_id : u64;
  ep_epoch_first_abs : u64;
  ep_system_seq : u64;
  ep_source_seq : gmap u32 u64;
  ep_source_time : u64;
  ep_definition_hash : bytes;
  ep_prev_definition_hash : bytes;
  ep_transition : option PendingTransition;
}.

Inductive EpochError :=
| DefinitionAlreadyEmitted
| DefinitionNotEmitted
| EmissionDuringTransition
| NoTransitionOpen
| EpochRing (e : RingError)
| TransitionAlreadyOpen.

#[global] Instance EpochError_eq_dec : EqDecision EpochError.
Proof. solve_decision. Defined.

(** The outcome of a method on [&mut self]. *)
Abbreviation epres A := (res (EpochProducer * EpochError) (EpochProducer * A)).

(** Field assignments. *)
Definition set_ring (p : EpochProducer) (ring : RingBuffer) : EpochProducer :=
  {| ep_ring := ring; ep_run_id := ep_run_id p; ep_epoch_id := ep_epoch_id p;
     ep_epoch_first_abs := ep_epoch_first_abs p; ep_system_seq := ep_system_seq p;
     ep_source_seq := ep_source_seq p; ep_source_time := ep_source_time p;
     ep_definition_hash := ep_definition_hash p;
     ep_prev_definition_hash := ep_prev_definition_hash p; ep_transition := ep_transition p |}.
Definition set_source_time (p : EpochProducer) (time : u64) : EpochProducer :=
  {| ep_ring := ep_ring p; ep_run_id := ep_run_id p; ep_epoch_id := ep_epoch_id p;
     ep_epoch_first_abs := ep_epoch_first_abs p; ep_system_seq := ep_system_seq p;
     ep_source_seq := ep_source_seq p; ep_source_time := time;
     ep_definition_hash := ep_definition_hash p;
     ep_prev_definition_hash := ep_prev_definition_hash p; ep_transition := ep_transition p |}.
Definition set_source_seq (p : EpochProducer) (seqs : gmap u32 u64) : EpochProducer :=
  {| ep_ring := ep_ring p; ep_run_id := ep_run_id p; ep_epoch_id := ep_epoch_id p;
     ep_epoch_first_abs := ep_epoch_first_abs p; ep_system_seq := ep_system_seq p;
     ep_source_seq := seqs; ep_source_time := ep_source_time p;
     ep_definition_hash := ep_definition_hash p;
     ep_prev_definition_hash := ep_prev_definition_hash p; ep_transition := ep_transition p |}.
Definition set_system_seq (p : EpochProducer) (seq : u64) : EpochProducer :=
  {| ep_ring := ep_ring p; ep_run_id := ep_run_id p; ep_epoch_id := ep_epoch_id p;
     ep_epoch_first_abs := ep_epoch_first_abs p; ep_system_seq := seq;
     ep_source_seq := ep_source_seq p; ep_source_time := ep_source_time p;
     ep_definition_hash := ep_definition_hash p;
     ep_prev_definition_hash := ep_prev_definition_hash p; ep_transition := ep_transition p |}.
Definition set_transition (p : EpochProducer) (t : option PendingTransition) : EpochProducer :=
  {| ep_ring := ep_ring p; ep_run_id := ep_run_id p; ep_epoch_id := ep_epoch_id p;
     ep_epoch_first_abs := ep_epoch_first_abs p; ep_system_seq := ep_system_seq p;
     ep_source_seq := ep_source_seq p; ep_source_time := ep_source_time p;
     ep_definition_hash := ep_definition_hash p;
     ep_prev_definition_hash := ep_prev_definition_hash p; ep_transition := t |}.
Definition set_run_epoch (p : EpochProducer) (run_id epoch_id : u64) : EpochProducer :=
  {| ep_ring := ep_ring p; ep_run_id := run_id; ep_epoch_id := epoch_id;
     ep_epoch_first_abs := ep_epoch_first_abs p; ep_system_seq := ep_system_seq p;
     ep_source_seq := ep_source_seq p; ep_source_time := ep_source_time p;
     ep_definition_hash := ep_definition_hash p;
     ep_prev_definition_hash := ep_prev_definition_hash p; ep_transition := ep_transition p |}.

(** [self.epoch_first_abs = ..; self.prev_definition_hash = ..; self.definition_hash = ..] *)
Definition adopt_epoch (p : EpochProducer) (start_abs : u64) (pending : PendingTransition) : EpochProducer :=
  {| ep_ring := ep_ring p; ep_run_id := ep_run_id p; ep_epoch_id := ep_epoch_id p;
     ep_epoch_first_abs := start_abs; ep_system_seq := ep_system_seq p;
     ep_source_seq := ep_source_seq p; ep_source_time := ep_source_time p;
     ep_definition_hash := pt_def_hash_new pending;
     ep_prev_definition_hash := pt_def_hash_old pending; ep_transition := ep_transition p |}.

(** Iteration of a [BTreeMap]: by ascending key. *)
Definition btree_iter (m : gmap u32 u64) : list (u32 * u64) := sort_by_key fst (map_to_list m).

Section epoch.
Context {BP : BuildProfile}.

(** A panic of an inner computation that touches no state. *)
Definition lift {A} (p : EpochProducer) (m : res RingError A) : res (EpochProducer * EpochError) A :=
  map_err (λ e, (p, EpochRing e)) m.

Definition epoch_new (cap : usize) (run_id epoch_id : u64) : res RingError EpochProducer :=
  ring ← ring_new cap;
  Ok {| ep_ring := ring; ep_run_id := run_id; ep_epoch_id := epoch_id; ep_epoch_first_abs := 0;
        ep_system_seq := 0; ep_source_seq := ∅; ep_source_time := 1780000000000000000;
        ep_definition_hash := replicate 8 0; ep_prev_definition_hash := replicate 8 0;
        ep_transition := None |}.

Definition control_snapshot (p : EpochProducer) : ControlBlockSnapshot :=
  {| cb_version := 2; cb_caps := 0; cb_buffer_id := DEFAULT_BUFFER_ID;
     cb_buffer_bytes := Z.of_nat (capacity (ep_ring p)) mod 2 ^ 32;
     cb_head_abs := ring_head_abs (ep_ring p); cb_oldest_abs := ring_oldest_abs (ep_ring p);
     cb_lost_count := ring_lost_count (ep_ring p); cb_run_id := ep_run_id p;
     cb_epoch_id := ep_epoch_id p; cb_epoch_first_abs := ep_epoch_first_abs p;
     cb_definition_hash := ep_definition_hash p;
     cb_prev_definition_hash := ep_prev_definition_hash p |}.

(** [self.ring.write_record(&record)?] *)
Definition ring_write (p : EpochProducer) (rec : WireRecord) : epres (u64 * u64) :=
  '(ring, span) ← lift p (write_record (ep_ring p) rec);
  Ok (set_ring p ring, span).

Definition record (p : EpochProducer) (source_id : u32) (seq : u64) (event_type_id : u32)
  : epres WireRecord :=
  let rec := record_new (ep_source_time p) (ep_run_id p) seq source_id event_type_id in
  time ← lift p (add64 (ep_source_time p) 1);
  Ok (set_source_time p time, rec).

Definition next_source_seq (p : EpochProducer) (source_id : u32) : epres u64 :=
  let seq := default 0 (ep_source_seq p !! source_id) in
  next ← lift p (add64 seq 1);
  Ok (set_source_seq p (<[source_id := next]> (ep_source_seq p)), seq).

Definition emit_system (p : EpochProducer) (event_type_id : u32) (slots : list Slot) : epres (u64 * u64) :=
  let seq := ep_system_seq p in
  next ← lift p (add64 seq 1);
  let p := set_system_seq p next in
  '(p, rec) ← record p SYSTEM_SOURCE_ID seq event_type_id;
  ring_write p (with_slots rec slots).

Definition emit_data (p : EpochProducer) (source_id event_type_id : u32) : epres unit :=
  if decide (is_Some (ep_transition p)) then Err (p, EmissionDuringTransition) else
  '(p, seq) ← next_source_seq p source_id;
  '(p, rec) ← record p source_id seq event_type_id;
  let rec := if decide (event_type_id = EVENT_MESSAGE)
             then with_slots rec (rec_slots rec ++
                    [{| slot_key := KEY_MESSAGE_TEMPLATE_ID; slot_ty := TY_UDINT; slot_payload := to_le_bytes 4 0 |}])
             else rec in
  '(p, _) ← ring_write p rec;
  Ok (p, tt).

(** One turn of the loop of [checkpoint_high_water]. *)
Definition checkpoint_source (entry : u32 * u64) (p : EpochProducer)
  : res (EpochProducer * EpochError) EpochProducer :=
  let '(source_id, produced_count) := entry in
  '(p, rec) ← record p source_id produced_count EVENT_SOURCE_HIGH_WATER;
  let rec := with_slots rec (rec_slots rec ++
    [{| slot_key := KEY_SOURCE_HIGH_WATER; slot_ty := TY_ULINT; slot_payload := to_le_bytes 8 produced_count |}]) in
  '(p, _) ← ring_write p rec;
  next ← lift p (add64 produced_count 1);
  Ok (set_source_seq p (<[source_id := next]> (ep_source_seq p))).

Definition checkpoint_high_water (p : EpochProducer) : epres unit :=
  if decide (is_Some (ep_transition p)) then Err (p, EmissionDuringTransition) else
  p ← for_each checkpoint_source (btree_iter (ep_source_seq p)) p;
  Ok (p, tt).

Definition begin_epoch_transition (p : EpochProducer) (def_hash_old def_hash_new : bytes) (epoch_id : u64)
  : epres unit :=
  if decide (is_Some (ep_transition p)) then Err (p, TransitionAlreadyOpen) else
  '(p, _) ← emit_system p EVENT_LOGGER_STOPPED [];
  '(p, _) ← checkpoint_high_water p;
  Ok (set_transition p (Some {| pt_def_hash_old := def_hash_old; pt_def_hash_new := def_hash_new;
                                pt_epoch_id := epoch_id; pt_definition_changed_emitted := false |}), tt).

Definition definition_changed_slots (pending : PendingTransition) : list Slot :=
  [{| slot_key := KEY_DEF_HASH_OLD; slot_ty := TY_BYTES; slot_payload := pt_def_hash_old pending |};
   {| slot_key := KEY_DEF_HASH_NEW; slot_ty := TY_BYTES; slot_payload := pt_def_hash_new pending |};
   {| slot_key := KEY_EPOCH_ID; slot_ty := TY_ULINT; slot_payload := to_le_bytes 8 (pt_epoch_id pending) |}].

(** [self.transition.take()] empties the field before anything else. *)
Definition emit_definition_changed (p : EpochProducer) : epres unit :=
  match ep_transition p with
  | None => Err (p, NoTransitionOpen)
  | Some pending =>
      if pt_definition_changed_emitted pending then Err (p, DefinitionAlreadyEmitted) else
      '(p, _) ← emit_system (set_transition p None) EVENT_DEFINITION_CHANGED (definition_changed_slots pending);
      Ok (set_transition p (Some {| pt_def_hash_old := pt_def_hash_old pending;
                                    pt_def_hash_new := pt_def_hash_new pending;
                                    pt_epoch_id := pt_epoch_id pending;
                                    pt_definition_changed_emitted := true |}), tt)
  end.

Definition cold_start_slot (cold : u8) : list Slot :=
  [{| slot_key := KEY_COLD_START; slot_ty := TY_BOOL; slot_payload := [cold] |}].

Definition finish_definition_change (p : EpochProducer) : epres unit :=
  match ep_transition p with
  | None => Err (p, NoTransitionOpen)
  | Some pending =>
      if negb (pt_definition_changed_emitted pending) then Err (p, DefinitionNotEmitted) else
      let p := set_run_epoch (set_transition p None) (ep_run_id p) (pt_epoch_id pending) in
      '(p, span) ← emit_system p EVENT_LOGGER_STARTED (cold_start_slot 0);
      Ok (adopt_epoch p span.1 pending, tt)
  end.

Definition finish_cold_start (p : EpochProducer) : epres unit :=
  match ep_transition p with
  | None => Err (p, NoTransitionOpen)
  | Some pending =>
      if negb (pt_definition_changed_emitted pending) then Err (p, DefinitionNotEmitted) else
      run_id ← lift p (add64 (ep_run_id p) 1);
      let p := set_run_epoch (set_transition p None) run_id (pt_epoch_id pending) in
      let p := set_source_seq (set_system_seq p 0) ∅ in
      '(p, span) ← emit_system p EVENT_LOGGER_STARTED (cold_start_slot 1);
      Ok (adopt_epoch p span.1 pending, tt)
  end.
End epoch.

(** ** The resolver *)
Record EpochResolver := MkEpochResolver {
  er_buffer_id : u32;
  er_run_default_epoch : gmap u64 u64;
  er_epoch_boundaries : gmap u64 (list (u64 * u64));
  er_pending_epoch : option u64;
}.

Definition resolver_new (buffer_id : u32) (initial_run_id initial_epoch_id : u64) : EpochResolver :=
  {| er_buffer_id := buffer_id; er_run_default_epoch := {[initial_run_id := initial_epoch_id]};
     er_epoch_boundaries := ∅; er_pending_epoch := None |}.

(** The last 8-byte epoch slot wins. *)
Definition definition_changed_epoch (rec : WireRecord) : option u64 :=
  foldl (λ epoch_id slot,
    if decide (slot_key slot = KEY_EPOCH_ID ∧ length (slot_payload slot) = 8%nat)
    then Some (from_le_bytes (slot_payload slot)) else epoch_id) None (rec_slots rec).

Definition logger_started_cold_start (rec : WireRecord) : option bool :=
  slot ← List.find (λ slot, bool_decide (slot_key slot = KEY_COLD_START ∧ length (slot_payload slot) = 1%nat))
           (rec_slots rec);
  b ← slot_payload slot !! 0%nat;
  Some (negb (b =? 0)).

(** [entry(run_id).or_default().push(..)] *)
Definition push_boundary (m : gmap u64 (list (u64 * u64))) (run_id : u64) (b : u64 * u64)
  : gmap u64 (list (u64 * u64)) := <[run_id := default [] (m !! run_id) ++ [b]]> m.

Definition observe (r : EpochResolver) (buffer_id : u32) (read : ReadRecord) : EpochResolver :=
  if decide (buffer_id ≠ er_buffer_id r) then r else
  let rec := rr_record read in
  if decide (rec_event_type_id rec = EVENT_DEFINITION_CHANGED) then
    {| er_buffer_id := er_buffer_id r; er_run_default_epoch := er_run_default_epoch r;
       er_epoch_boundaries := er_epoch_boundaries r; er_pending_epoch := definition_changed_epoch rec |}
  else if decide (rec_event_type_id rec = EVENT_LOGGER_STARTED) then
    match er_pending_epoch r with
    | None => r
    | Some pending =>
        let boundaries := push_boundary (er_epoch_boundaries r) (rec_run_id rec) (rr_start_abs read, pending) in
        if default false (logger_started_cold_start rec) then
          {| er_buffer_id := er_buffer_id r;
             er_run_default_epoch := <[rec_run_id rec := pending]> (er_run_default_epoch r);
             er_epoch_boundaries := boundaries; er_pending_epoch := None |}
        else
          {| er_buffer_id := er_buffer_id r; er_run_default_epoch := er_run_default_epoch r;
             er_epoch_boundaries := sort_by_key fst <$> boundaries; er_pending_epoch := None |}
    end
  else r.

(** [boundaries.iter().rev().find(..)] *)
Definition find_boundary (boundaries : list (u64 * u64)) (start_abs : u64) : option u64 :=
  snd <$> List.find (λ b, bool_decide (b.1 ≤ start_abs)) (reverse boundaries).

Definition resolve (r : EpochResolver) (buffer_id : u32) (run_id start_abs : u64) : option u64 :=
  if decide (buffer_id ≠ er_buffer_id r) then None else
  match (boundaries ← er_epoch_boundaries r !! run_id; find_boundary boundaries start_abs) with
  | Some epoch_id => Some epoch_id
  | None => er_run_default_epoch r !! run_id
  end.

(** ** Calls on a producer *)
Inductive EpOp :=
| OpData (source_id event_type_id : u32)
| OpCheckpoint
| OpBegin (def_hash_old def_hash_new : bytes) (epoch_id : u64)
| OpChanged
| OpFinishWarm
| OpFinishCold.

Definition op_wf (op : EpOp) : Prop :=
  match op with
  | OpData src ty => is_u32 src ∧ src ≠ SYSTEM_SOURCE_ID ∧ is_u32 ty
  | OpBegin h1 h2 ep => hash_wf h1 ∧ hash_wf h2 ∧ is_u64 ep
  | _ => True
  end.

#[global] Instance op_wf_dec op : Decision (op_wf op).
Proof. destruct op; unfold op_wf, hash_wf; apply _. Defined.

Section ops.
Context {BP : BuildProfile}.

Definition ep_exec (op : EpOp) (p : EpochProducer) : epres unit :=
  match op with
  | OpData src ty => emit_data p src ty
  | OpCheckpoint => checkpoint_high_water p
  | OpBegin h1 h2 ep => begin_epoch_transition p h1 h2 ep
  | OpChanged => emit_definition_changed p
  | OpFinishWarm => finish_definition_change p
  | OpFinishCold => finish_cold_start p
  end.

(** The caller goes on after a refused call with the state it left. *)
Fixpoint run_ops (ops : list EpOp) (p : EpochProducer) : res RingError EpochProducer :=
  match ops with
  | [] => Ok p
  | op :: ops =>
      match ep_exec op p with
      | Ok (p, _) | Err (p, _) => run_ops ops p
      | Panic => Panic
      | Diverge => Diverge
      end
  end.
End ops.

(** ** The protocol as an automaton *)
Inductive Phase := Idle | Opened | Changed.

#[global] Instance Phase_eq_dec : EqDecision Phase.
Proof. solve_decision. Defined.

Definition phase (p : EpochProducer) : Phase :=
  match ep_transition p with
  | None => Idle
  | Some t => if pt_definition_changed_emitted t then Changed else Opened
  end.

Definition protocol (ph : Phase) (op : EpOp) : Phase + EpochError :=
  match op, ph with
  | (OpData _ _ | OpCheckpoint), Idle => inl Idle
  | (OpData _ _ | OpCheckpoint), _ => inr EmissionDuringTransition
  | OpBegin _ _ _, Idle => inl Opened
  | OpBegin _ _ _, _ => inr TransitionAlreadyOpen
  | (OpChanged | OpFinishWarm | OpFinishCold), Idle => inr NoTransitionOpen
  | OpChanged, Opened => inl Changed
  | OpChanged, Changed => inr DefinitionAlreadyEmitted
  | (OpFinishWarm | OpFinishCold), Opened => inr DefinitionNotEmitted
  | (OpFinishWarm | OpFinishCold), Changed => inl Idle
  end.

(** ** What a producer has written *)

(** The sequence numbers a source wrote in a run, in log order. *)
Definition seqs_of (log : list Entry) (k : u64 * u32) : list u64 :=
  rec_seq ∘ en_rec <$> filter (λ e, source_key (en_rec e) = k) log.

(** The next number of a source in the current run. *)
Definition next_of (p : EpochProducer) (src : u32) : u64 :=
  if decide (src = SYSTEM_SOURCE_ID) then ep_system_seq p else default 0 (ep_source_seq p !! src).

Definition transition_wf (t : PendingTransition) : Prop :=
  hash_wf (pt_def_hash_old t) ∧ hash_wf (pt_def_hash_new t) ∧ is_u64 (pt_epoch_id t).

Definition START_TIME : u64 := 1780000000000000000.

(** [E] gives, for each record of the log, the epoch it was written under. *)
Record producer_inv (p : EpochProducer) (a : AbsRing) (E : list u64) : Prop := {
  pi_rep : ring_rep (ep_ring p) a;
  pi_cap : (80 ≤ ab_cap a)%nat;
  pi_head : ab_head a ≤ 2 * Z.of_nat (ab_cap a) * Z.of_nat (length (ab_log a));
  pi_time : ep_source_time p = START_TIME + Z.of_nat (length (ab_log a));
  pi_times : rec_source_time ∘ en_rec <$> ab_log a = seqZ START_TIME (Z.of_nat (length (ab_log a)));
  pi_len : length E = length (ab_log a);
  pi_seqs src : seqs_of (ab_log a) (ep_run_id p, src) = seqZ 0 (next_of p src);
  pi_past run src : run < ep_run_id p → ∃ n, 0 ≤ n ∧ seqs_of (ab_log a) (run, src) = seqZ 0 n;
  pi_future run src : ep_run_id p < run → seqs_of (ab_log a) (run, src) = [];
  pi_next src : 0 ≤ next_of p src;
  pi_sources src : is_Some (ep_source_seq p !! src) → is_u32 src ∧ src ≠ SYSTEM_SOURCE_ID;
  pi_run : is_u64 (ep_run_id p);
  pi_epoch : is_u64 (ep_epoch_id p);
  pi_transition t : ep_transition p = Some t → transition_wf t;
}.

(** Room for [k] more records. *)
Definition room (a : AbsRing) (k : nat) : Prop :=
  2 * Z.of_nat (ab_cap a) * (Z.of_nat (length (ab_log a)) + Z.of_nat k) < 2 ^ 63.

(** The producer after a record of [src] was written to [ring]. *)
Definition emitted (p : EpochProducer) (src : u32) (ring : RingBuffer) : EpochProducer :=
  set_source_time (set_ring
    (if decide (src = SYSTEM_SOURCE_ID) then set_system_seq p (ep_system_seq p + 1)
     else set_source_seq p (<[src := next_of p src + 1]> (ep_source_seq p))) ring)
    (ep_source_time p + 1).

(** The record an emission writes. *)
Definition emission (p : EpochProducer) (src ty : u32) (slots : list Slot) : WireRecord :=
  with_slots (record_new (ep_source_time p) (ep_run_id p) (next_of p src) src ty) slots.

Definition small_slots (slots : list Slot) : Prop :=
  Forall slot_wf slots ∧ (length (enc_slots slots) ≤ 36)%nat.

Section producer.
Context {BP : BuildProfile}.

Lemma seqs_of_snoc log e k :
  seqs_of (log ++ [e]) k
  = seqs_of log k ++ (if decide (source_key (en_rec e) = k) then [rec_seq (en_rec e)] else []).
Proof.
  unfold seqs_of. rewrite filter_app, fmap_app. f_equal. rewrite filter_cons. by case_decide.
Qed.

Lemma next_le_log p a E src :
  producer_inv p a E → next_of p src ≤ Z.of_nat (length (ab_log a)).
Proof.
  intros Hinv. pose proof (f_equal length (pi_seqs _ _ _ Hinv src)) as Hl.
  rewrite length_seqZ in Hl. unfold seqs_of in Hl. rewrite length_fmap in Hl.
  pose proof (length_filter (λ e, source_key (en_rec e) = (ep_run_id p, src)) (ab_log a)).
  pose proof (pi_next _ _ _ Hinv src). lia.
Qed.

Lemma room_bounds p a E k :
  producer_inv p a E → room a (S k) →
  ab_head a + 2 * Z.of_nat (ab_cap a) < 2 ^ 64 ∧ ep_source_time p + 1 < 2 ^ 64
  ∧ Z.of_nat (length (ab_log a)) < 2 ^ 56.
Proof.
  unfold room. intros Hinv Hroom. pose proof (pi_cap _ _ _ Hinv). pose proof (pi_head _ _ _ Hinv).
  pose proof (pi_time _ _ _ Hinv) as Ht. unfold START_TIME in Ht.
  assert (Z.of_nat (length (ab_log a)) < 2 ^ 56) by nia. split_and!; [nia|lia|done].
Qed.

(** An emission is a record the ring takes. *)
Lemma emission_fits p a E k src ty slots :
  producer_inv p a E → room a (S k) → is_u32 src → is_u32 ty → small_slots slots →
  fits_ring (ab_cap a) (emission p src ty slots).
Proof.
  intros Hinv Hroom Hsrc Hty [Hs Hl]. pose proof (next_le_log _ _ _ src Hinv) as Hn.
  destruct (room_bounds _ _ _ _ Hinv Hroom) as (_ & Ht & Hlog).
  pose proof (pi_time _ _ _ Hinv) as Htime. unfold START_TIME in Htime.
  pose proof (pi_next _ _ _ Hinv src). pose proof (pi_run _ _ _ Hinv). pose proof (pi_cap _ _ _ Hinv).
  assert (Hlen : length (enc_record (emission p src ty slots) true) = (44 + length (enc_slots slots))%nat).
  { rewrite length_enc_record. unfold record_len, HEADER_LEN, CRC_LEN. cbn. lia. }
  rewrite length_enc_record in Hlen.
  split; [split; [split|]|].
  - unfold record_wf. cbn [emission with_slots record_new rec_flags rec_source_time rec_run_id rec_seq
      rec_source_id rec_event_type_id rec_slots].
    split_and!; [by_compute|unfold fits; lia|done|unfold fits; lia|done|done|done].
  - change (rec_slots (emission p src ty slots)) with slots in *. rewrite Hlen. unfold U16_MAX. lia.
  - unfold emission, U64_MAX. cbn. lia.
  - rewrite length_enc_record, Hlen. lia.
Qed.

(** One emission keeps the invariant. *)
Lemma emitted_inv p a E k src ty slots ring :
  producer_inv p a E → room a (S k) → is_u32 src → is_u32 ty → small_slots slots →
  let rec := emission p src ty slots in
  ring_rep ring (abs_write a rec) →
  producer_inv (emitted p src ring) (abs_write a rec) (E ++ [ep_epoch_id p])
  ∧ room (abs_write a rec) k.
Proof.
  intros Hinv Hroom Hsrc Hty Hslots rec Hrep'. pose proof (pi_rep _ _ _ Hinv) as Hrep.
  pose proof (emission_fits p a E k src ty slots Hinv Hroom Hsrc Hty Hslots) as Hfit.
  pose proof (log_write _ _ rec Hrep) as Hlog. pose proof (abs_write_head _ _ rec Hrep Hfit) as Hhead.
  pose proof (pi_next _ _ _ Hinv) as Hnext.
  assert (Hrun : ep_run_id (emitted p src ring) = ep_run_id p).
  { unfold emitted. by case_decide. }
  assert (Hkey : source_key (en_rec (placed a rec)) = (ep_run_id p, src)) by done.
  assert (Hn : ∀ s, next_of (emitted p src ring) s
    = if decide (s = src) then next_of p s + 1 else next_of p s).
  { intros s. unfold emitted, next_of. destruct (decide (src = SYSTEM_SOURCE_ID)) as [->|Hne];
      destruct (decide (s = SYSTEM_SOURCE_ID)) as [->|Hne']; cbn [ep_system_seq ep_source_seq set_source_time
        set_ring set_system_seq set_source_seq].
    - done.
    - done.
    - by rewrite decide_False by congruence.
    - case_decide as Hs; [subst; by rewrite lookup_insert_eq|by rewrite lookup_insert_ne]. }
  split; [|unfold room in *; rewrite Hlog, length_app; cbn [length];
    change (ab_cap (abs_write a rec)) with (ab_cap a); lia].
  split; rewrite ?Hlog, ?Hrun.
  - unfold emitted. by case_decide.
  - apply (pi_cap _ _ _ Hinv).
  - rewrite length_app. cbn [length]. change (ab_cap (abs_write a rec)) with (ab_cap a).
    pose proof (pi_head _ _ _ Hinv). lia.
  - rewrite length_app. cbn [length]. unfold emitted. cbn [ep_source_time set_source_time].
    rewrite (pi_time _ _ _ Hinv). lia.
  - rewrite fmap_app, (pi_times _ _ _ Hinv), length_app, Nat2Z.inj_add. cbn [length].
    change (Z.of_nat 1) with 1. rewrite seqZ_snoc by lia. f_equal. unfold compose. cbn. by rewrite <-(pi_time _ _ _ Hinv).
  - rewrite !length_app, (pi_len _ _ _ Hinv). done.
  - intros s. rewrite seqs_of_snoc, Hkey, (pi_seqs _ _ _ Hinv), Hn.
    destruct (decide (s = src)) as [->|Hs].
    + rewrite decide_True, seqZ_snoc by done. cbn. done.
    + rewrite decide_False by congruence. apply app_nil_r.
  - intros run s Hlt. destruct (pi_past _ _ _ Hinv run s Hlt) as (n & Hpos & Hsq). exists n. split; [done|].
    rewrite seqs_of_snoc, Hkey, decide_False, app_nil_r; [done|]. intros [= ? ?]. lia.
  - intros run s Hlt. rewrite seqs_of_snoc, Hkey, decide_False, (pi_future _ _ _ Hinv) by (done || (intros [= ? ?]; lia)). done.
  - intros s. rewrite Hn. specialize (Hnext s). case_decide; lia.
  - intros s. unfold emitted. case_decide; cbn [ep_source_seq set_source_time set_ring set_system_seq set_source_seq].
    + apply (pi_sources _ _ _ Hinv).
    + destruct (decide (s = src)) as [->|Hs]; [done|]. rewrite lookup_insert_ne by done.
      apply (pi_sources _ _ _ Hinv).
  - apply (pi_run _ _ _ Hinv).
  - unfold emitted. case_decide; apply (pi_epoch _ _ _ Hinv).
  - unfold emitted. case_decide; apply (pi_transition _ _ _ Hinv).
Qed.
End producer.

(** ** The resolver over the producer's log *)
Definition replay (b : u32) (run0 ep0 : u64) (log : list Entry) : EpochResolver :=
  foldl (λ R e, observe R b (en_read e)) (resolver_new b run0 ep0) log.

Lemma replay_snoc b run0 ep0 log e :
  replay b run0 ep0 (log ++ [e]) = observe (replay b run0 ep0 log) b (en_read e).
Proof. unfold replay. by rewrite foldl_app. Qed.

(** The resolver [R] has seen the log; the next boundary it expects is [pend]. *)
Record resolver_inv (b : u32) (R : EpochResolver) (p : EpochProducer) (a : AbsRing) (E : list u64)
    (pend : option u64) : Prop := {
  ri_buffer : er_buffer_id R = b;
  ri_pending : er_pending_epoch R = pend;
  ri_log i e ep : ab_log a !! i = Some e → E !! i = Some ep →
    resolve R b (rec_run_id (en_rec e)) (en_start e) = Some ep;
  ri_now x : ab_head a ≤ x → resolve R b (ep_run_id p) x = Some (ep_epoch_id p);
  ri_sorted run l : er_epoch_boundaries R !! run = Some l →
    StronglySorted (λ x y, x.1 ≤ y.1) l ∧ Forall (λ x, x.1 ≤ ab_head a) l;
}.

Lemma find_boundary_snoc l s ep x :
  find_boundary (l ++ [(s, ep)]) x = if decide (s ≤ x) then Some ep else find_boundary l x.
Proof.
  unfold find_boundary. rewrite reverse_snoc. cbn [List.find fst]. case_bool_decide; by case_decide.
Qed.

(** Pushing a boundary decides every position from it on, and no other. *)
Lemma resolve_push R b run s ep defaults pend run' x :
  er_buffer_id R = b → (run' = run ∧ s ≤ x ∨ defaults !! run' = er_run_default_epoch R !! run') →
  resolve (MkEpochResolver b defaults (push_boundary (er_epoch_boundaries R) run (s, ep)) pend) b run' x
  = if decide (run' = run ∧ s ≤ x) then Some ep else resolve R b run' x.
Proof.
  intros Hb Hd. unfold resolve, push_boundary.
  cbn [er_buffer_id er_epoch_boundaries er_run_default_epoch]. rewrite Hb, !(decide_False (P := b ≠ b)) by tauto.
  destruct (decide (run' = run)) as [->|Hne].
  - rewrite lookup_insert_eq. cbn [mbind option_bind]. rewrite find_boundary_snoc. case_decide.
    + by rewrite decide_True.
    + rewrite (decide_False (P := run = run ∧ _)) by tauto. destruct Hd as [|Hd]; [tauto|].
      destruct (er_epoch_boundaries R !! run); cbn; by rewrite Hd.
  - rewrite lookup_insert_ne by done. rewrite (decide_False (P := run' = run ∧ _)) by tauto.
    destruct Hd as [|Hd]; [tauto|]. by rewrite Hd.
Qed.

Lemma push_sorted R run s ep head head' run' l :
  (∀ run l, er_epoch_boundaries R !! run = Some l →
     StronglySorted (λ x y : Z * Z, x.1 ≤ y.1) l ∧ Forall (λ x, x.1 ≤ head) l) →
  head ≤ s → s ≤ head' →
  push_boundary (er_epoch_boundaries R) run (s, ep) !! run' = Some l →
  StronglySorted (λ x y, x.1 ≤ y.1) l ∧ Forall (λ x, x.1 ≤ head') l.
Proof.
  intros Hs Hhs Hsh'. unfold push_boundary. destruct (decide (run' = run)) as [->|Hne].
  - rewrite lookup_insert_eq. intros [= <-].
    assert (Hl : StronglySorted (λ x y : Z * Z, x.1 ≤ y.1) (default [] (er_epoch_boundaries R !! run))
      ∧ Forall (λ x : Z * Z, x.1 ≤ head) (default [] (er_epoch_boundaries R !! run))).
    { destruct (er_epoch_boundaries R !! run) as [l'|] eqn:Hl; [by eapply Hs|]. split; constructor. }
    destruct Hl as [Hl1 Hl2]. split.
    + apply StronglySorted_snoc; [done|]. eapply Forall_impl; [exact Hl2|]. simpl. lia.
    + apply Forall_app. split; [eapply Forall_impl; [exact Hl2|]; simpl; lia|by constructor].
  - rewrite lookup_insert_ne by done. intros Hl. destruct (Hs _ _ Hl) as [? Hl2]. split; [done|].
    eapply Forall_impl; [exact Hl2|]. simpl. lia.
Qed.

(** Re-sorting boundaries that are sorted changes nothing. *)
Lemma sort_boundaries_id (m : gmap u64 (list (u64 * u64))) :
  (∀ run l, m !! run = Some l → StronglySorted (λ x y, x.1 ≤ y.1) l) → sort_by_key fst <$> m = m.
Proof.
  intros Hm. apply map_eq. intros run. rewrite lookup_fmap. destruct (m !! run) as [l|] eqn:Hl; [|done].
  cbn. f_equal. by eapply sort_by_key_id, Hm.
Qed.

Lemma runs_le p a E e : producer_inv p a E → e ∈ ab_log a → rec_run_id (en_rec e) ≤ ep_run_id p.
Proof.
  intros Hinv He. destruct (decide (ep_run_id p < rec_run_id (en_rec e))) as [Hlt|]; [|lia].
  pose proof (pi_future _ _ _ Hinv (rec_run_id (en_rec e)) (rec_source_id (en_rec e)) Hlt) as Hf.
  unfold seqs_of in Hf. apply fmap_nil_inv in Hf.
  assert (Hin : e ∈ filter (λ x, source_key (en_rec x) = (rec_run_id (en_rec e), rec_source_id (en_rec e))) (ab_log a))
    by (by apply list_elem_of_filter).
  rewrite Hf in Hin. by apply not_elem_of_nil in Hin.
Qed.

Lemma log_starts_lt r a e : ring_rep r a → e ∈ ab_log a → en_start e < ab_head a.
Proof.
  intros Hrep He. pose proof (rep_writable _ _ Hrep) as Hw. rewrite Forall_forall in Hw.
  destruct (en_len_bounds e) as [H44 _]; [by apply Hw|].
  apply elem_of_app in He as [Hd|Hl].
  - pose proof (rep_dropped _ _ Hrep) as Hdr. rewrite Forall_forall in Hdr. destruct (Hdr e Hd) as [_ Hend].
    pose proof (layout_bounds _ _ _ _ (rep_layout _ _ Hrep)) as [Ho _]. unfold en_end in Hend. lia.
  - pose proof (layout_bounds _ _ _ _ (rep_layout _ _ Hrep)) as [_ Hb]. rewrite Forall_forall in Hb.
    destruct (Hb e Hl) as [_ Hend]. unfold en_end in Hend. lia.
Qed.

(** The boundary the resolver waits for once [DefinitionChanged] is written. *)
Definition pending_of (p : EpochProducer) : option u64 :=
  match ep_transition p with
  | Some t => if pt_definition_changed_emitted t then Some (pt_epoch_id t) else None
  | None => None
  end.

Definition ep_inv (b : u32) (run0 ep0 : u64) (p : EpochProducer) (a : AbsRing) (E : list u64) : Prop :=
  producer_inv p a E ∧ resolver_inv b (replay b run0 ep0 (ab_log a)) p a E (pending_of p).

Lemma observe_plain R b read :
  er_buffer_id R = b → er_pending_epoch R = None → definition_changed_epoch (rr_record read) = None →
  observe R b read = R.
Proof.
  intros Hb Hp Hd. unfold observe. rewrite Hb, decide_False by tauto. cbv zeta. rewrite Hp, Hd.
  case_decide; [|by case_decide]. destruct R. cbn in *. by subst.
Qed.

Section epoch_steps.
Context {BP : BuildProfile} (b : u32) (run0 ep0 : u64).

(** What a resolver must do with the new record for its invariant to hold. *)
Lemma resolver_extend R R' p p' a E pend pend' rec :
  ring_rep (ep_ring p) a → fits_ring (ab_cap a) rec → length E = length (ab_log a) →
  resolver_inv b R p a E pend →
  er_buffer_id R' = b → er_pending_epoch R' = pend' → rec_run_id rec = ep_run_id p' →
  (∀ e, e ∈ ab_log a → resolve R' b (rec_run_id (en_rec e)) (en_start e)
                       = resolve R b (rec_run_id (en_rec e)) (en_start e)) →
  (∀ x, en_start (placed a rec) ≤ x → resolve R' b (ep_run_id p') x = Some (ep_epoch_id p')) →
  (∀ run l, er_epoch_boundaries R' !! run = Some l →
     StronglySorted (λ x y, x.1 ≤ y.1) l ∧ Forall (λ x, x.1 ≤ en_end (placed a rec)) l) →
  resolver_inv b R' p' (abs_write a rec) (E ++ [ep_epoch_id p']) pend'.
Proof.
  intros Hrep [Hw Hl] Hlen Hinv Hb Hp Hrun Hold Hnew Hs.
  pose proof (placed_bounds _ _ _ Hrep Hw Hl) as [_ Hbd].
  split; [done|done| | |exact Hs].
  - intros i e ep. rewrite (log_write _ _ _ Hrep) by done. intros He Hep.
    apply lookup_app_Some in He as [He|[Hi He]].
    + rewrite lookup_app_l in Hep by (rewrite Hlen; by eapply lookup_lt_Some).
      rewrite Hold by (by eapply list_elem_of_lookup_2). by eapply (ri_log _ _ _ _ _ _ Hinv).
    + apply list_lookup_singleton_Some in He as [Hi0 <-].
      rewrite lookup_app_r, Hlen in Hep by lia. rewrite Hi0 in Hep. injection Hep as <-.
      change (rec_run_id (en_rec (placed a rec))) with (rec_run_id rec). rewrite Hrun. by apply Hnew.
  - intros x Hx. apply Hnew. change (ab_head (abs_write a rec)) with (en_end (placed a rec)) in Hx. lia.
Qed.

Lemma emitted_run p src ring : ep_run_id (emitted p src ring) = ep_run_id p.
Proof. unfold emitted. by case_decide. Qed.
Lemma emitted_epoch p src ring : ep_epoch_id (emitted p src ring) = ep_epoch_id p.
Proof. unfold emitted. by case_decide. Qed.
Lemma emitted_transition p src ring : ep_transition (emitted p src ring) = ep_transition p.
Proof. unfold emitted. by case_decide. Qed.

(** A record without an epoch slot, written while no boundary is awaited. *)
Lemma plain_step p a E k src ty slots ring :
  ep_inv b run0 ep0 p a E → pending_of p = None → room a (S k) →
  is_u32 src → is_u32 ty → small_slots slots →
  definition_changed_epoch (emission p src ty slots) = None →
  ring_rep ring (abs_write a (emission p src ty slots)) →
  ep_inv b run0 ep0 (emitted p src ring) (abs_write a (emission p src ty slots)) (E ++ [ep_epoch_id p])
  ∧ room (abs_write a (emission p src ty slots)) k.
Proof.
  intros [Hinv Hri] Hpend Hroom Hsrc Hty Hslots Hplain Hrep'.
  pose proof (pi_rep _ _ _ Hinv) as Hrep.
  pose proof (emission_fits p a E k src ty slots Hinv Hroom Hsrc Hty Hslots) as Hfit.
  destruct (emitted_inv p a E k src ty slots ring Hinv Hroom Hsrc Hty Hslots Hrep') as [Hinv' Hroom'].
  split; [split; [exact Hinv'|]|exact Hroom'].
  rewrite (log_write _ _ _ Hrep) by apply Hfit. rewrite replay_snoc.
  rewrite observe_plain; [|apply (ri_buffer _ _ _ _ _ _ Hri)|by rewrite (ri_pending _ _ _ _ _ _ Hri)|exact Hplain].
  pose proof (placed_bounds _ _ _ Hrep (proj1 Hfit) (proj2 Hfit)) as [Hb1 Hb2].
  rewrite <-(emitted_epoch p src ring).
  eapply resolver_extend; [exact Hrep|exact Hfit|apply (pi_len _ _ _ Hinv)|exact Hri|apply (ri_buffer _ _ _ _ _ _ Hri)| | |done| |].
  - rewrite (ri_pending _ _ _ _ _ _ Hri). unfold pending_of. by rewrite emitted_transition.
  - by rewrite emitted_run.
  - intros x Hx. rewrite emitted_run, emitted_epoch. apply (ri_now _ _ _ _ _ _ Hri). lia.
  - intros run l Hl. destruct (ri_sorted _ _ _ _ _ _ Hri run l Hl) as [? Hf]. split; [done|].
    eapply Forall_impl; [exact Hf|]. simpl. lia.
Qed.

(** ** The emitting calls *)
(** A call that writes [recs] from [p] and leaves [p']. *)
Record emits (p : EpochProducer) (a : AbsRing) (E : list u64) (p' : EpochProducer) (a' : AbsRing)
    (E' : list u64) (recs : list WireRecord) : Prop := {
  em_inv : ep_inv b run0 ep0 p' a' E';
  em_cap : ab_cap a' = ab_cap a;
  em_log : ∃ l, ab_log a' = ab_log a ++ l ∧ en_rec <$> l = recs;
  em_stamps : E' = E ++ replicate (length recs) (ep_epoch_id p');
}.

Lemma emits_refl p a E : ep_inv b run0 ep0 p a E → emits p a E p a E [].
Proof. intros Hinv. split; [done|done| |by rewrite app_nil_r]. exists []. by rewrite app_nil_r. Qed.

Lemma emits_trans p a E p1 a1 E1 p2 a2 E2 recs1 recs2 :
  emits p a E p1 a1 E1 recs1 → emits p1 a1 E1 p2 a2 E2 recs2 →
  ep_epoch_id p2 = ep_epoch_id p1 → emits p a E p2 a2 E2 (recs1 ++ recs2).
Proof.
  intros [_ Hc1 (l1 & Hl1 & Hr1) Hs1] [Hinv Hc2 (l2 & Hl2 & Hr2) Hs2] Hep. split; [done|congruence| |].
  - exists (l1 ++ l2). by rewrite Hl2, Hl1, fmap_app, Hr1, Hr2, app_assoc.
  - rewrite Hs2, Hs1, <-Hep, length_app, replicate_add. by rewrite app_assoc.
Qed.

Lemma emits_length p a E p' a' E' recs :
  emits p a E p' a' E' recs → length (ab_log a') = (length (ab_log a) + length recs)%nat.
Proof. intros [_ _ (l & -> & <-) _]. by rewrite length_app, length_fmap. Qed.

Lemma emits_room p a E p' a' E' recs k :
  emits p a E p' a' E' recs → room a (length recs + k) → room a' k.
Proof. intros Hem. unfold room. rewrite (em_cap _ _ _ _ _ _ _ Hem), (emits_length _ _ _ _ _ _ _ Hem). lia. Qed.

Lemma emits_write p a E p' rec :
  ring_rep (ep_ring p) a → ep_inv b run0 ep0 p' (abs_write a rec) (E ++ [ep_epoch_id p']) →
  emits p a E p' (abs_write a rec) (E ++ [ep_epoch_id p']) [rec].
Proof.
  intros Hrep Hinv. split; [done|done| |done]. exists [placed a rec]. split; [by eapply log_write|done].
Qed.

Lemma ring_write_spec p a rec :
  ring_rep (ep_ring p) a → fits_ring (ab_cap a) rec →
  ab_head a + 2 * Z.of_nat (ab_cap a) < 2 ^ 64 →
  ∃ ring, ring_write p rec = Ok (set_ring p ring, (en_start (placed a rec), en_end (placed a rec)))
    ∧ ring_rep ring (abs_write a rec).
Proof.
  intros Hrep [Hw Hl] Hr. destruct (write_record_rep _ a rec Hrep Hw Hl Hr) as (ring & Heq & Hrep').
  exists ring. split; [|done]. unfold ring_write, lift. by rewrite Heq.
Qed.

Lemma emit_system_spec p a E k ty slots :
  producer_inv p a E → room a (S k) → is_u32 ty → small_slots slots →
  let rec := emission p SYSTEM_SOURCE_ID ty slots in
  ∃ ring, emit_system p ty slots
      = Ok (emitted p SYSTEM_SOURCE_ID ring, (en_start (placed a rec), en_end (placed a rec)))
    ∧ ring_rep ring (abs_write a rec).
Proof.
  intros Hinv Hroom Hty Hslots rec.
  assert (Hsys : is_u32 SYSTEM_SOURCE_ID) by by_compute.
  pose proof (emission_fits p a E k SYSTEM_SOURCE_ID ty slots Hinv Hroom Hsys Hty Hslots) as Hfit.
  destruct (room_bounds _ _ _ _ Hinv Hroom) as (Hr & Ht & Hlog).
  pose proof (next_le_log _ _ _ SYSTEM_SOURCE_ID Hinv) as Hn.
  change (next_of p SYSTEM_SOURCE_ID) with (ep_system_seq p) in Hn.
  unfold emit_system, record, lift. rewrite add_w_ok by lia. cbn [map_err]. rewrite ok_bind.
  cbn [ep_source_time set_system_seq]. rewrite add_w_ok by lia. cbn [map_err]. rewrite !ok_bind.
  match goal with |- context [ring_write ?q ?r] =>
    destruct (ring_write_spec q a rec (pi_rep _ _ _ Hinv) Hfit Hr) as (ring & Hw & Hrep') end.
  exists ring. split; [exact Hw|done].
Qed.

Lemma data_slots_small (slots : list Slot) n key ty v :
  slots = [] ∨ slots = [{| slot_key := key; slot_ty := ty; slot_payload := to_le_bytes n v |}] →
  is_u16 key → is_u8 ty → (n ≤ 8)%nat → small_slots slots.
Proof.
  intros [->| ->] Hk Ht Hn; [split; [done|change (length (enc_slots [])) with 0%nat; lia]|]. split.
  - constructor; [apply slot_le_wf; [done|done|lia]|done].
  - rewrite enc_slots_cons, length_app, length_enc_slot. cbn [slot_payload]. rewrite length_to_le_bytes.
    pose proof (padding_len_lt n). change (length (enc_slots [])) with 0%nat. lia.
Qed.

(** The slots of a data record. *)
Definition data_slots (ty : u32) : list Slot :=
  if decide (ty = EVENT_MESSAGE) then
    [{| slot_key := KEY_MESSAGE_TEMPLATE_ID; slot_ty := TY_UDINT; slot_payload := to_le_bytes 4 0 |}] else [].

Lemma phase_idle p : phase p = Idle → ep_transition p = None.
Proof.
  unfold phase. destruct (ep_transition p) as [t|]; [|done]. by destruct (pt_definition_changed_emitted t).
Qed.

Lemma emit_data_spec p a E k src ty :
  ep_inv b run0 ep0 p a E → ep_transition p = None → room a (S k) → op_wf (OpData src ty) →
  ∃ ring a' E', emit_data p src ty = Ok (emitted p src ring, tt)
    ∧ emits p a E (emitted p src ring) a' E' [emission p src ty (data_slots ty)].
Proof.
  intros [Hinv Hri] Htr Hroom (Hsrc & Hne & Hty).
  assert (Hslots : small_slots (data_slots ty)).
  { eapply (data_slots_small _ 4 KEY_MESSAGE_TEMPLATE_ID TY_UDINT 0); [|by_compute|by_compute|lia].
    unfold data_slots. case_decide; [by right|by left]. }
  pose proof (emission_fits p a E k src ty _ Hinv Hroom Hsrc Hty Hslots) as Hfit.
  destruct (room_bounds _ _ _ _ Hinv Hroom) as (Hr & Ht & Hlog).
  pose proof (next_le_log _ _ _ src Hinv) as Hn.
  assert (Hnext : next_of p src = default 0 (ep_source_seq p !! src)) by (unfold next_of; by rewrite decide_False).
  destruct (ring_write_spec (set_source_time (set_source_seq p (<[src := next_of p src + 1]> (ep_source_seq p)))
    (ep_source_time p + 1)) a (emission p src ty (data_slots ty)) (pi_rep _ _ _ Hinv) Hfit Hr) as (ring & Hw & Hrep').
  exists ring, (abs_write a (emission p src ty (data_slots ty))), (E ++ [ep_epoch_id (emitted p src ring)]). split.
  - unfold emit_data, next_source_seq, record, lift. rewrite Htr, decide_False by (intros [? ?]; done).
    rewrite <-Hnext, add_w_ok by lia. cbn [map_err]. rewrite !ok_bind.
    cbn [ep_source_time set_source_seq]. rewrite add_w_ok by lia. cbn [map_err]. rewrite !ok_bind.
    match goal with |- (ring_write ?q ?r ≫= _) = _ => assert (Heq : ring_write q r = ring_write
      (set_source_time (set_source_seq p (<[src := next_of p src + 1]> (ep_source_seq p))) (ep_source_time p + 1))
      (emission p src ty (data_slots ty))) by (f_equal; unfold emission, data_slots; by case_decide) end.
    rewrite Heq, Hw, ok_bind. unfold emitted. by rewrite decide_False by done.
  - apply emits_write; [exact (pi_rep _ _ _ Hinv)|]. rewrite emitted_epoch.
    apply (plain_step p a E k); try done.
    + unfold pending_of. by rewrite Htr.
    + unfold definition_changed_epoch, emission, data_slots. cbn [rec_slots with_slots]. by case_decide.
Qed.

Definition high_water_slot (n : u64) : list Slot :=
  [{| slot_key := KEY_SOURCE_HIGH_WATER; slot_ty := TY_ULINT; slot_payload := to_le_bytes 8 n |}].

Lemma checkpoint_source_spec p a E k src n :
  ep_inv b run0 ep0 p a E → ep_transition p = None → room a (S k) → ep_source_seq p !! src = Some n →
  ∃ ring a' E', checkpoint_source (src, n) p = Ok (emitted p src ring)
    ∧ emits p a E (emitted p src ring) a' E' [emission p src EVENT_SOURCE_HIGH_WATER (high_water_slot n)].
Proof.
  intros [Hinv Hri] Htr Hroom Hsn. destruct (pi_sources _ _ _ Hinv src) as [Hsrc Hne]; [by eexists|].
  assert (Hslots : small_slots (high_water_slot n)).
  { eapply (data_slots_small _ 8 KEY_SOURCE_HIGH_WATER TY_ULINT n); [by right|by_compute|by_compute|lia]. }
  assert (Hty : is_u32 EVENT_SOURCE_HIGH_WATER) by by_compute.
  pose proof (emission_fits p a E k src _ _ Hinv Hroom Hsrc Hty Hslots) as Hfit.
  destruct (room_bounds _ _ _ _ Hinv Hroom) as (Hr & Ht & Hlog).
  pose proof (next_le_log _ _ _ src Hinv) as Hn.
  assert (Hnext : next_of p src = n) by (unfold next_of; rewrite decide_False by done; by rewrite Hsn).
  destruct (ring_write_spec (set_source_time p (ep_source_time p + 1)) a
    (emission p src EVENT_SOURCE_HIGH_WATER (high_water_slot n)) (pi_rep _ _ _ Hinv) Hfit Hr) as (ring & Hw & Hrep').
  eexists ring, _, _. split.
  - unfold checkpoint_source, record, lift. rewrite !add_w_ok by lia. cbn [map_err]. rewrite !ok_bind.
    match goal with |- (ring_write ?q ?r ≫= _) = _ => assert (Heq : ring_write q r = ring_write
      (set_source_time p (ep_source_time p + 1)) (emission p src EVENT_SOURCE_HIGH_WATER (high_water_slot n)))
      by (unfold emission; by rewrite Hnext) end.
    rewrite Heq, Hw, !ok_bind. unfold emitted. rewrite decide_False, Hnext by done. done.
  - apply emits_write; [exact (pi_rep _ _ _ Hinv)|]. rewrite emitted_epoch.
    apply (plain_step p a E k); try done. unfold pending_of. by rewrite Htr.
Qed.

(** The checkpoint records of the sources [l], from time [time] on. *)
Fixpoint checkpoint_records (time run : u64) (l : list (u32 * u64)) : list WireRecord :=
  match l with
  | [] => []
  | (src, n) :: l =>
      with_slots (record_new time run n src EVENT_SOURCE_HIGH_WATER) (high_water_slot n)
      :: checkpoint_records (time + 1) run l
  end.

Lemma length_checkpoint_records l : ∀ time run, length (checkpoint_records time run l) = length l.
Proof. induction l as [|[src n] l IH]; intros; cbn; [done|]. by rewrite IH. Qed.

(** Only the ring, the clock and the sequence counters differ. *)
Definition same_epoch (p p' : EpochProducer) : Prop :=
  ep_run_id p' = ep_run_id p ∧ ep_epoch_id p' = ep_epoch_id p
  ∧ ep_epoch_first_abs p' = ep_epoch_first_abs p ∧ ep_definition_hash p' = ep_definition_hash p
  ∧ ep_prev_definition_hash p' = ep_prev_definition_hash p ∧ ep_transition p' = ep_transition p.

Lemma emitted_same p src ring : same_epoch p (emitted p src ring).
Proof. unfold emitted. by case_decide. Qed.

Lemma same_epoch_trans p1 p2 p3 : same_epoch p1 p2 → same_epoch p2 p3 → same_epoch p1 p3.
Proof. unfold same_epoch. intuition congruence. Qed.

(** The loop over the sources: each gets one checkpoint, numbered in turn. *)
Lemma checkpoint_loop l : ∀ p a E k,
  ep_inv b run0 ep0 p a E → ep_transition p = None → room a (length l + k) →
  NoDup (l.*1) → (∀ src n, (src, n) ∈ l → ep_source_seq p !! src = Some n) →
  ∃ p' a' E', for_each checkpoint_source l p = Ok p'
    ∧ emits p a E p' a' E' (checkpoint_records (ep_source_time p) (ep_run_id p) l)
    ∧ same_epoch p p' ∧ ep_system_seq p' = ep_system_seq p
    ∧ ∀ s, ep_source_seq p' !! s
           = if decide (s ∈ l.*1) then Z.succ <$> ep_source_seq p !! s else ep_source_seq p !! s.
Proof.
  induction l as [|[src n] l IH]; intros p a E k Hinv Htr Hroom Hnd Hl.
  { exists p, a, E. split_and!; try done. by apply emits_refl. }
  rewrite fmap_cons in Hnd. apply NoDup_cons in Hnd as [Hni Hnd]. cbn [fst] in Hni.
  assert (Hsn : ep_source_seq p !! src = Some n) by (apply Hl; by left).
  destruct (checkpoint_source_spec p a E (length l + k) src n Hinv Htr Hroom Hsn)
    as (ring & a1 & E1 & Heq & Hem1).
  destruct (pi_sources _ _ _ (proj1 Hinv) src) as [_ Hne]; [by eexists|].
  assert (Hnext : next_of p src = n) by (unfold next_of; rewrite decide_False by done; by rewrite Hsn).
  assert (Hseq : ep_source_seq (emitted p src ring) = <[src := n + 1]> (ep_source_seq p)
    ∧ ep_system_seq (emitted p src ring) = ep_system_seq p).
  { unfold emitted. rewrite decide_False, Hnext by done. done. }
  destruct Hseq as [Hseq Hsys].
  destruct (IH _ _ _ k (em_inv _ _ _ _ _ _ _ Hem1)) as (p' & a' & E' & Hfor & Hem & Hsame & Hsys' & Hsq');
    [by rewrite emitted_transition|by eapply (emits_room _ _ _ _ _ _ _ _ Hem1)|done| |].
  { intros s m Hsm. rewrite Hseq, lookup_insert_ne; [apply Hl; by right|]. intros ->. apply Hni.
    apply list_elem_of_fmap. by exists (s, m). }
  exists p', a', E'. cbn [for_each]. rewrite Heq, ok_bind. split_and!; [done| | |congruence|].
  - cbn [checkpoint_records]. rewrite emitted_run in Hem.
    replace (ep_source_time (emitted p src ring)) with (ep_source_time p + 1) in Hem by done.
    unfold emission in Hem1. rewrite Hnext in Hem1.
    exact (emits_trans _ _ _ _ _ _ _ _ _ _ _ Hem1 Hem (proj1 (proj2 Hsame))).
  - eapply same_epoch_trans; [apply emitted_same|exact Hsame].
  - intros s. rewrite Hsq', Hseq, fmap_cons. cbn [fst]. destruct (decide (s = src)) as [->|Hs].
    + rewrite decide_False, decide_True by (done || by left). by rewrite lookup_insert_eq, Hsn.
    + rewrite lookup_insert_ne by done. destruct (decide (s ∈ l.*1)).
      * by rewrite decide_True by (by right).
      * by rewrite decide_False by (rewrite elem_of_cons; tauto).
Qed.

Lemma btree_iter_nodup m : NoDup ((btree_iter m).*1).
Proof. unfold btree_iter. rewrite sort_by_key_perm. apply NoDup_fst_map_to_list. Qed.

Lemma elem_of_btree_iter m src n : (src, n) ∈ btree_iter m ↔ m !! src = Some n.
Proof. unfold btree_iter. rewrite sort_by_key_perm. apply elem_of_map_to_list. Qed.

Lemma length_btree_iter m : length (btree_iter m) = size m.
Proof. unfold btree_iter. rewrite sort_by_key_perm. by rewrite length_map_to_list. Qed.

Lemma checkpoint_high_water_spec p a E k :
  ep_inv b run0 ep0 p a E → ep_transition p = None → room a (size (ep_source_seq p) + k) →
  ∃ p' a' E', checkpoint_high_water p = Ok (p', tt)
    ∧ emits p a E p' a' E' (checkpoint_records (ep_source_time p) (ep_run_id p) (btree_iter (ep_source_seq p)))
    ∧ same_epoch p p' ∧ ep_system_seq p' = ep_system_seq p
    ∧ ep_source_seq p' = Z.succ <$> ep_source_seq p.
Proof.
  intros Hinv Htr Hroom. rewrite <-length_btree_iter in Hroom.
  destruct (checkpoint_loop (btree_iter (ep_source_seq p)) p a E k Hinv Htr Hroom (btree_iter_nodup _))
    as (p' & a' & E' & Hfor & Hem & Hsame & Hsys & Hsq).
  { intros src n. apply elem_of_btree_iter. }
  exists p', a', E'. split_and!; [|done|done|done|].
  - unfold checkpoint_high_water. rewrite Htr, decide_False by (intros [? ?]; done). by rewrite Hfor, ok_bind.
  - apply map_eq. intros s. rewrite Hsq, lookup_fmap. case_decide as Hin; [done|].
    destruct (ep_source_seq p !! s) as [n|] eqn:Hs; [|done]. destruct Hin.
    apply list_elem_of_fmap. exists (s, n). split; [done|]. by apply elem_of_btree_iter.
Qed.

Lemma small_nil : small_slots [].
Proof. split; [done|]. change (length (enc_slots [])) with 0%nat. lia. Qed.

(** A system record without an epoch slot. *)
Lemma emit_plain p a E k ty slots :
  ep_inv b run0 ep0 p a E → ep_transition p = None → room a (S k) → is_u32 ty → small_slots slots →
  definition_changed_epoch (emission p SYSTEM_SOURCE_ID ty slots) = None →
  ∃ ring span a' E', emit_system p ty slots = Ok (emitted p SYSTEM_SOURCE_ID ring, span)
    ∧ emits p a E (emitted p SYSTEM_SOURCE_ID ring) a' E' [emission p SYSTEM_SOURCE_ID ty slots].
Proof.
  intros Hinv Htr Hroom Hty Hslots Hplain.
  destruct (emit_system_spec p a E k ty slots (proj1 Hinv) Hroom Hty Hslots) as (ring & Hem & Hrep').
  assert (Hsys : is_u32 SYSTEM_SOURCE_ID) by by_compute.
  eexists ring, _, _, _. split; [exact Hem|]. apply emits_write; [apply (pi_rep _ _ _ (proj1 Hinv))|].
  rewrite emitted_epoch. apply (plain_step p a E k); try done. unfold pending_of. by rewrite Htr.
Qed.

Lemma set_transition_inv p a E t :
  ep_inv b run0 ep0 p a E → (∀ x, t = Some x → transition_wf x) →
  pending_of (set_transition p t) = pending_of p → ep_inv b run0 ep0 (set_transition p t) a E.
Proof. intros [[] []] Ht Hp. split; [split; done|]. by split; rewrite ?Hp. Qed.

Lemma begin_spec p a E k h1 h2 ep :
  ep_inv b run0 ep0 p a E → ep_transition p = None → room a (S (size (ep_source_seq p)) + k) →
  hash_wf h1 → hash_wf h2 → is_u64 ep →
  ∃ p' a' E', let t := MkPendingTransition h1 h2 ep false in
    begin_epoch_transition p h1 h2 ep = Ok (set_transition p' (Some t), tt)
    ∧ emits p a E (set_transition p' (Some t)) a' E'
        (emission p SYSTEM_SOURCE_ID EVENT_LOGGER_STOPPED []
         :: checkpoint_records (ep_source_time p + 1) (ep_run_id p) (btree_iter (ep_source_seq p)))
    ∧ same_epoch p p' ∧ ep_system_seq p' = ep_system_seq p + 1
    ∧ ep_source_seq p' = Z.succ <$> ep_source_seq p.
Proof.
  intros Hinv Htr Hroom Hh1 Hh2 Hep.
  destruct (emit_plain p a E (size (ep_source_seq p) + k) EVENT_LOGGER_STOPPED [] Hinv Htr Hroom
    ltac:(by_compute) small_nil eq_refl) as (ring & span & a1 & E1 & Heq & Hem1).
  set (p1 := emitted p SYSTEM_SOURCE_ID ring) in *.
  destruct (checkpoint_high_water_spec p1 a1 E1 k (em_inv _ _ _ _ _ _ _ Hem1))
    as (p2 & a2 & E2 & Hck & Hem2 & Hsame2 & Hsys2 & Hsq2); [done|exact (emits_room _ _ _ _ _ _ _ _ Hem1 Hroom)|].
  assert (Htr2 : ep_transition p2 = None) by (destruct Hsame2 as (_ & _ & _ & _ & _ & ->); done).
  exists p2, a2, E2. intros t. split_and!; [| |exact Hsame2|done|done].
  - unfold begin_epoch_transition. rewrite Htr, decide_False by (intros [? ?]; done).
    by rewrite Heq, ok_bind, Hck, ok_bind.
  - destruct (emits_trans _ _ _ _ _ _ _ _ _ _ _ Hem1 Hem2 (proj1 (proj2 Hsame2))) as [Hi Hc Hl Hs].
    split; [|exact Hc|exact Hl|exact Hs].
    apply set_transition_inv; [done|by intros x [= <-]|]. unfold pending_of. cbn. by rewrite Htr2.
Qed.

Lemma changed_slots_small t : transition_wf t → small_slots (definition_changed_slots t).
Proof.
  intros ((Hb1 & Hl1) & (Hb2 & Hl2) & He). split.
  - unfold definition_changed_slots.
    repeat (apply Forall_cons; split); [| | |done].
    1,2: unfold slot_wf; cbn [slot_key slot_ty slot_payload]; split_and!; [by_compute|by_compute|done|lia].
    apply slot_le_wf; [by_compute|by_compute|lia].
  - unfold definition_changed_slots. rewrite !enc_slots_cons, !length_app, !length_enc_slot.
    cbn [slot_payload]. rewrite Hl1, Hl2, length_to_le_bytes.
    change (length (enc_slots [])) with 0%nat. change (padding_len 8) with 0%nat. lia.
Qed.

Lemma changed_epoch_slot p t :
  transition_wf t →
  definition_changed_epoch (emission p SYSTEM_SOURCE_ID EVENT_DEFINITION_CHANGED (definition_changed_slots t))
  = Some (pt_epoch_id t).
Proof.
  intros (_ & _ & He). unfold definition_changed_epoch, emission, definition_changed_slots.
  cbn [rec_slots with_slots foldl slot_key slot_payload].
  rewrite (decide_False (P := KEY_DEF_HASH_OLD = _ ∧ _)), (decide_False (P := KEY_DEF_HASH_NEW = _ ∧ _))
    by (intros [[=] _]).
  rewrite decide_True by (by rewrite length_to_le_bytes). f_equal. by apply from_to_le_bytes.
Qed.

Lemma producer_inv_transition p a E t :
  producer_inv p a E → (∀ x, t = Some x → transition_wf x) → producer_inv (set_transition p t) a E.
Proof. intros [] Ht. by split. Qed.

(** [DefinitionChanged] makes the resolver wait for the new epoch and resolves nothing anew. *)
Lemma resolver_changed R p p' a E pend rec t :
  producer_inv p a E → resolver_inv b R p a E pend → fits_ring (ab_cap a) rec →
  rec_event_type_id rec = EVENT_DEFINITION_CHANGED → definition_changed_epoch rec = Some t →
  rec_run_id rec = ep_run_id p' → ep_run_id p' = ep_run_id p → ep_epoch_id p' = ep_epoch_id p →
  resolver_inv b (observe R b (en_read (placed a rec))) p' (abs_write a rec) (E ++ [ep_epoch_id p']) (Some t).
Proof.
  intros Hinv Hri Hfit Hty Hslot Hrun Hrun' Hep'. pose proof (ri_buffer _ _ _ _ _ _ Hri) as Hbuf.
  pose proof (placed_bounds _ _ _ (pi_rep _ _ _ Hinv) (proj1 Hfit) (proj2 Hfit)) as [Hb1 Hb2].
  assert (Hobs : observe R b (en_read (placed a rec))
    = MkEpochResolver b (er_run_default_epoch R) (er_epoch_boundaries R) (Some t)).
  { unfold observe. rewrite Hbuf, decide_False by tauto. cbv zeta. rewrite decide_True by exact Hty. by f_equal. }
  rewrite Hobs. assert (Hres : ∀ run x, resolve (MkEpochResolver b (er_run_default_epoch R)
    (er_epoch_boundaries R) (Some t)) b run x = resolve R b run x).
  { intros run x. unfold resolve. cbn [er_buffer_id er_epoch_boundaries er_run_default_epoch]. by rewrite Hbuf. }
  eapply resolver_extend; [exact (pi_rep _ _ _ Hinv)|exact Hfit|apply (pi_len _ _ _ Hinv)|exact Hri|done|done|done| | |].
  - intros e _. apply Hres.
  - intros x Hx. rewrite Hres, Hrun', Hep'. apply (ri_now _ _ _ _ _ _ Hri). lia.
  - intros run l Hl. destruct (ri_sorted _ _ _ _ _ _ Hri run l Hl) as [? Hf]. split; [done|].
    eapply Forall_impl; [exact Hf|]. simpl. lia.
Qed.

Lemma changed_spec p a E k t :
  ep_inv b run0 ep0 p a E → ep_transition p = Some t → pt_definition_changed_emitted t = false →
  room a (S k) →
  ∃ ring a' E', let p' := set_transition (emitted p SYSTEM_SOURCE_ID ring)
      (Some (MkPendingTransition (pt_def_hash_old t) (pt_def_hash_new t) (pt_epoch_id t) true)) in
    emit_definition_changed p = Ok (p', tt)
    ∧ emits p a E p' a' E'
        [emission p SYSTEM_SOURCE_ID EVENT_DEFINITION_CHANGED (definition_changed_slots t)].
Proof.
  intros [Hinv Hri] Htr Hem Hroom. pose proof (pi_transition _ _ _ Hinv t Htr) as Hwf.
  set (p0 := set_transition p None).
  assert (Hinv0 : producer_inv p0 a E) by (by apply producer_inv_transition).
  assert (Hty : is_u32 EVENT_DEFINITION_CHANGED) by by_compute.
  assert (Hsys : is_u32 SYSTEM_SOURCE_ID) by by_compute.
  pose proof (changed_slots_small t Hwf) as Hslots.
  pose proof (emission_fits p0 a E k _ _ _ Hinv0 Hroom Hsys Hty Hslots) as Hfit.
  destruct (emit_system_spec p0 a E k _ _ Hinv0 Hroom Hty Hslots) as (ring & Heq & Hrep').
  destruct (emitted_inv p0 a E k _ _ _ ring Hinv0 Hroom Hsys Hty Hslots Hrep') as [Hinv' Hroom'].
  set (t' := MkPendingTransition (pt_def_hash_old t) (pt_def_hash_new t) (pt_epoch_id t) true).
  eexists ring, _, _. intros p'. split.
  - unfold emit_definition_changed. rewrite Htr, Hem. change (set_transition p None) with p0. by rewrite Heq, ok_bind.
  - apply emits_write; [exact (pi_rep _ _ _ Hinv)|]. split.
    + refine (producer_inv_transition _ _ _ (Some t') Hinv' _). by intros x [= <-].
    + rewrite (log_write _ _ _ (pi_rep _ _ _ Hinv)), replay_snoc.
      apply (resolver_changed _ p p' _ _ (pending_of p) _ (pt_epoch_id t)); try done. by apply (changed_epoch_slot p0).
Qed.

(** [LoggerStarted] fixes the awaited boundary at its own offset. *)
Definition started (R : EpochResolver) (cold : bool) (run s ep : u64) : EpochResolver :=
  MkEpochResolver b (if cold then <[run := ep]> (er_run_default_epoch R) else er_run_default_epoch R)
    (push_boundary (er_epoch_boundaries R) run (s, ep)) None.

Lemma observe_started R read ep (cold : bool) head :
  er_buffer_id R = b → er_pending_epoch R = Some ep →
  rec_event_type_id (rr_record read) = EVENT_LOGGER_STARTED →
  rec_slots (rr_record read) = cold_start_slot (if cold then 1 else 0) →
  (∀ run l, er_epoch_boundaries R !! run = Some l →
     StronglySorted (λ x y : Z * Z, x.1 ≤ y.1) l ∧ Forall (λ x, x.1 ≤ head) l) →
  head ≤ rr_start_abs read →
  observe R b read = started R cold (rec_run_id (rr_record read)) (rr_start_abs read) ep.
Proof.
  intros Hb Hp Hty Hslots Hs Hle. unfold observe. rewrite Hb, decide_False by tauto. cbv zeta.
  rewrite Hty, decide_False, decide_True, Hp by done.
  unfold logger_started_cold_start, started. rewrite Hslots. destruct cold; [done|].
  cbn. f_equal. apply sort_boundaries_id. intros run l Hl.
  eapply (push_sorted R _ _ _ head (rr_start_abs read)) in Hl; [by destruct Hl|exact Hs|done|lia].
Qed.

Lemma resolver_started R p p' a E ep (cold : bool) ty rec :
  producer_inv p a E → resolver_inv b R p a E (Some ep) → fits_ring (ab_cap a) rec →
  ep_epoch_id p' = ep → rec_run_id rec = ep_run_id p' →
  ep_run_id p' = ep_run_id p + (if cold then 1 else 0) →
  rec_event_type_id rec = ty → ty = EVENT_LOGGER_STARTED →
  rec_slots rec = cold_start_slot (if cold then 1 else 0) →
  resolver_inv b (observe R b (en_read (placed a rec))) p' (abs_write a rec) (E ++ [ep_epoch_id p']) None.
Proof.
  intros Hinv Hri Hfit Hep Hrun Hrun' Hty -> Hslots. pose proof (pi_rep _ _ _ Hinv) as Hrep.
  pose proof (placed_bounds _ _ _ Hrep (proj1 Hfit) (proj2 Hfit)) as [Hb1 Hb2].
  rewrite (observe_started R _ ep cold (ab_head a)); [|apply (ri_buffer _ _ _ _ _ _ Hri)
    |apply (ri_pending _ _ _ _ _ _ Hri)|done|done|apply (ri_sorted _ _ _ _ _ _ Hri)|apply Hb1].
  change (rec_run_id (rr_record (en_read (placed a rec)))) with (rec_run_id rec).
  change (rr_start_abs (en_read (placed a rec))) with (en_start (placed a rec)). rewrite Hrun.
  assert (Hdef : ∀ run x, (run = ep_run_id p' ∧ en_start (placed a rec) ≤ x ∨ run ≤ ep_run_id p) →
    resolve (started R cold (ep_run_id p') (en_start (placed a rec)) ep) b run x
    = if decide (run = ep_run_id p' ∧ en_start (placed a rec) ≤ x) then Some ep else resolve R b run x).
  { intros run x Hx. unfold started. apply resolve_push; [apply (ri_buffer _ _ _ _ _ _ Hri)|].
    destruct Hx as [|Hx]; [by left|]. right. destruct cold; [|done]. apply lookup_insert_ne. lia. }
  eapply resolver_extend; [exact Hrep|exact Hfit|apply (pi_len _ _ _ Hinv)|exact Hri|done|done|done| | |].
  - intros e He. pose proof (runs_le _ _ _ _ Hinv He). pose proof (log_starts_lt _ _ _ Hrep He).
    rewrite Hdef by (by right). apply decide_False. lia.
  - intros x Hx. rewrite Hdef by (by left). rewrite decide_True by done. by rewrite Hep.
  - intros run l. cbn [started er_epoch_boundaries]. apply (push_sorted R _ _ _ (ab_head a)); [apply (ri_sorted _ _ _ _ _ _ Hri)|lia|lia].
Qed.

Lemma cold_slot_small (c : bool) : small_slots (cold_start_slot (if c then 1 else 0)).
Proof.
  split; [|destruct c; apply (bool_decide_unpack _); vm_compute; exact I].
  destruct c; constructor; [|done| |done]; by_compute.
Qed.

Lemma adopt_inv p a E x t : producer_inv p a E → producer_inv (adopt_epoch p x t) a E.
Proof. intros []. by split. Qed.

(** [LoggerStarted] from a producer [p0] that has adopted the awaited epoch. *)
Lemma start_spec p p0 a E k t (cold : bool) :
  ep_inv b run0 ep0 p a E → ep_transition p = Some t → pt_definition_changed_emitted t = true →
  producer_inv p0 a E → ep_transition p0 = None → ep_epoch_id p0 = pt_epoch_id t →
  ep_run_id p0 = ep_run_id p + (if cold then 1 else 0) → room a (S k) →
  let rec := emission p0 SYSTEM_SOURCE_ID EVENT_LOGGER_STARTED (cold_start_slot (if cold then 1 else 0)) in
  ∃ ring span E',
    emit_system p0 EVENT_LOGGER_STARTED (cold_start_slot (if cold then 1 else 0))
      = Ok (emitted p0 SYSTEM_SOURCE_ID ring, span)
    ∧ span.1 = en_start (placed a rec)
    ∧ emits p a E (adopt_epoch (emitted p0 SYSTEM_SOURCE_ID ring) span.1 t) (abs_write a rec) E' [rec].
Proof.
  intros [Hinv Hri] Htr Hem Hinv0 Htr0 Hep0 Hrun0 Hroom rec.
  assert (Hpend : pending_of p = Some (pt_epoch_id t)) by (unfold pending_of; by rewrite Htr, Hem).
  rewrite Hpend in Hri. pose proof (cold_slot_small cold) as Hslots.
  assert (Hty : is_u32 EVENT_LOGGER_STARTED) by by_compute.
  assert (Hsys : is_u32 SYSTEM_SOURCE_ID) by by_compute.
  pose proof (emission_fits p0 a E k _ _ _ Hinv0 Hroom Hsys Hty Hslots) as Hfit. fold rec in Hfit.
  destruct (emit_system_spec p0 a E k _ _ Hinv0 Hroom Hty Hslots) as (ring & Heq & Hrep').
  destruct (emitted_inv p0 a E k _ _ _ ring Hinv0 Hroom Hsys Hty Hslots Hrep') as [Hinv' Hroom'].
  eexists ring, _, _. split; [exact Heq|]. split; [done|]. cbn [fst].
  apply emits_write; [exact (pi_rep _ _ _ Hinv)|]. split.
  - apply adopt_inv. exact Hinv'.
  - rewrite (log_write _ _ _ (pi_rep _ _ _ Hinv)), replay_snoc. unfold pending_of. cbn [adopt_epoch ep_transition].
    rewrite emitted_transition, Htr0.
    eapply (resolver_started _ p _ a E _ cold); [exact Hinv|exact Hri|exact Hfit|exact Hep0|done|exact Hrun0|done|done|done].
Qed.

Lemma run_epoch_inv p a E run ep src_seq sys :
  producer_inv p a E → is_u64 run → is_u64 ep →
  (run = ep_run_id p ∧ sys = ep_system_seq p ∧ src_seq = ep_source_seq p
   ∨ run = ep_run_id p + 1 ∧ sys = 0 ∧ src_seq = ∅) →
  producer_inv (set_source_seq (set_system_seq (set_run_epoch (set_transition p None) run ep) sys) src_seq) a E.
Proof.
  intros Hinv Hr He Hcase. destruct Hinv as [? ? ? ? ? ? Hsq Hpast Hfut ? Hsrc ? ? ?].
  destruct Hcase as [(-> & -> & ->)|(-> & -> & ->)]; [by split|].
  assert (Hz : ∀ src, next_of (set_source_seq (set_system_seq (set_run_epoch (set_transition p None)
    (ep_run_id p + 1) ep) 0) ∅) src = 0).
  { intros src. unfold next_of. cbn. case_decide; [done|]. by rewrite lookup_empty. }
  split; try done.
  - intros src. rewrite Hz. cbn. apply Hfut. lia.
  - intros run src. cbn. intros Hlt. destruct (decide (run = ep_run_id p)) as [->|Hne].
    + exists (next_of p src). split; [done|]. apply Hsq.
    + apply Hpast. lia.
  - intros run src. cbn. intros Hlt. apply Hfut. lia.
  - intros src. by rewrite Hz.
  - intros src. cbn. rewrite lookup_empty. by intros [].
Qed.
(** The producer [LoggerStarted] is emitted from. *)
Definition restarted (p : EpochProducer) (t : PendingTransition) (cold : bool) : EpochProducer :=
  let q := set_transition p None in
  if cold then set_source_seq (set_system_seq (set_run_epoch q (ep_run_id p + 1) (pt_epoch_id t)) 0) ∅
  else set_run_epoch q (ep_run_id p) (pt_epoch_id t).

Definition start_record (p : EpochProducer) (t : PendingTransition) (cold : bool) : WireRecord :=
  emission (restarted p t cold) SYSTEM_SOURCE_ID EVENT_LOGGER_STARTED (cold_start_slot (if cold then 1 else 0)).

Lemma finish_spec p a E k t (cold : bool) :
  ep_inv b run0 ep0 p a E → ep_transition p = Some t → pt_definition_changed_emitted t = true →
  room a (S k) → ep_run_id p + 1 < 2 ^ 64 →
  ∃ ring E', let rec := start_record p t cold in
    let p' := adopt_epoch (emitted (restarted p t cold) SYSTEM_SOURCE_ID ring) (en_start (placed a rec)) t in
    (if cold then finish_cold_start p else finish_definition_change p) = Ok (p', tt)
    ∧ emits p a E p' (abs_write a rec) E' [rec].
Proof.
  intros Hinv Htr Hem Hroom Hrun. destruct (pi_transition _ _ _ (proj1 Hinv) t Htr) as (_ & _ & Het).
  pose proof (pi_run _ _ _ (proj1 Hinv)) as Hr.
  assert (Hinv0 : producer_inv (restarted p t cold) a E).
  { destruct cold.
    - apply run_epoch_inv; [apply Hinv|unfold fits in *; lia|done|by right].
    - apply (run_epoch_inv p a E (ep_run_id p) (pt_epoch_id t) (ep_source_seq p) (ep_system_seq p));
        [apply Hinv|done|done|by left]. }
  destruct (start_spec p (restarted p t cold) a E k t cold Hinv Htr Hem Hinv0) as (ring & span & E' & Heq & Hs & Hemit);
    [by destruct cold|by destruct cold|destruct cold; cbn; lia|done|].
  exists ring, E'. intros rec p'. rewrite Hs in Hemit. split; [|exact Hemit].
  destruct cold; [unfold finish_cold_start|unfold finish_definition_change]; rewrite Htr, Hem; cbn [negb].
  - unfold lift at 1. rewrite add_w_ok by lia. cbn [map_err]. rewrite ok_bind.
    change (set_source_seq _ ∅) with (restarted p t true). rewrite Heq, ok_bind. unfold p', rec, start_record. by rewrite <-Hs.
  - change (set_run_epoch _ _ _) with (restarted p t false). rewrite Heq, ok_bind. unfold p', rec, start_record. by rewrite <-Hs.
Qed.

(** *** The published header *)

(** [epoch_first_abs] is the offset of the system's [LoggerStarted] in the current run. *)
Definition opens_epoch (p : EpochProducer) (e : Entry) : Prop :=
  en_start e = ep_epoch_first_abs p ∧ rec_event_type_id (en_rec e) = EVENT_LOGGER_STARTED
  ∧ rec_source_id (en_rec e) = SYSTEM_SOURCE_ID ∧ rec_run_id (en_rec e) = ep_run_id p.

Record header_inv (p : EpochProducer) (a : AbsRing) : Prop := {
  hi_hash : hash_wf (ep_definition_hash p);
  hi_prev : hash_wf (ep_prev_definition_hash p);
  hi_first : ep_epoch_first_abs p = 0 ∨ Exists (opens_epoch p) (ab_log a);
}.

Lemma header_same p a E p' a' E' recs :
  header_inv p a → emits p a E p' a' E' recs →
  ep_run_id p' = ep_run_id p → ep_epoch_first_abs p' = ep_epoch_first_abs p →
  ep_definition_hash p' = ep_definition_hash p → ep_prev_definition_hash p' = ep_prev_definition_hash p →
  header_inv p' a'.
Proof.
  intros [Hh Hp Hf] [_ _ (l & Hl & _) _] Hrun Hfirst Hhash Hprev. split; [congruence|congruence|].
  rewrite Hfirst. destruct Hf as [Hf|Hf]; [by left|right]. rewrite Hl. apply Exists_app. left.
  eapply Exists_impl; [exact Hf|]. unfold opens_epoch. by rewrite Hrun, Hfirst.
Qed.

(** *** The state between calls: room for [m] more of them, [K] in all *)
Record ep_state (K m : nat) (p : EpochProducer) (a : AbsRing) (E : list u64) : Prop := {
  es_inv : ep_inv b run0 ep0 p a E;
  es_header : header_inv p a;
  es_room : room a (m * S K);
  es_sources : (size (ep_source_seq p) + m ≤ K)%nat;
  es_runs : ep_run_id p + Z.of_nat m < 2 ^ 64;
}.

Lemma room_le a k k' : (k' ≤ k)%nat → room a k → room a k'.
Proof. unfold room. nia. Qed.

Lemma es_next K m p a E p' a' E' recs :
  ep_state K (S m) p a E → emits p a E p' a' E' recs → header_inv p' a' →
  (length recs ≤ S K)%nat → (size (ep_source_seq p') ≤ S (size (ep_source_seq p)))%nat →
  ep_run_id p' ≤ ep_run_id p + 1 → ep_state K m p' a' E'.
Proof.
  intros [Hinv _ Hroom Hsz Hruns] Hem Hh Hl Hsz' Hrun. split; [apply Hem|done| |lia|lia].
  eapply emits_room; [exact Hem|]. eapply room_le; [|exact Hroom]. lia.
Qed.

Lemma es_room_S K m p a E : ep_state K (S m) p a E → room a (S (size (ep_source_seq p)) + m * S K).
Proof. intros [_ _ Hroom Hsz _]. eapply room_le; [|exact Hroom]. lia. Qed.

Lemma es_room_1 K m p a E : ep_state K (S m) p a E → room a (S (K + m * S K)).
Proof. intros [_ _ Hroom Hsz _]. exact Hroom. Qed.
(** A call does what the automaton says: a refused one changes nothing. *)
Definition obeys (p : EpochProducer) (op : EpOp) (p' : EpochProducer) : Prop :=
  match protocol (phase p) op with
  | inl ph => ep_exec op p = Ok (p', tt) ∧ phase p' = ph
  | inr err => ep_exec op p = Err (p', err) ∧ p' = p
  end.

Lemma obeys_refused p op err :
  protocol (phase p) op = inr err → ep_exec op p = Err (p, err) → obeys p op p.
Proof. unfold obeys. by intros -> ->. Qed.

(** The calls the automaton refuses. *)
Lemma refused p op err : protocol (phase p) op = inr err → ep_exec op p = Err (p, err).
Proof.
  unfold phase, emit_data, checkpoint_high_water. destruct op; cbn [ep_exec];
    unfold emit_data, checkpoint_high_water, begin_epoch_transition, emit_definition_changed,
      finish_definition_change, finish_cold_start;
    destruct (ep_transition p) as [t|]; try destruct (pt_definition_changed_emitted t); cbn;
    intros [= <-]; done.
Qed.

(** The calls it accepts. *)
Definition accepts K m p a E op ph : Prop :=
  ∃ p' a' E' recs, ep_exec op p = Ok (p', tt) ∧ phase p' = ph ∧ emits p a E p' a' E' recs
    ∧ ep_state K m p' a' E'.

Lemma accept_data K m p a E src ty :
  ep_state K (S m) p a E → phase p = Idle → op_wf (OpData src ty) →
  accepts K m p a E (OpData src ty) Idle.
Proof.
  intros Hes Hph Hwf. pose proof (phase_idle p Hph) as Htr. pose proof (emitted_same p src) as Hsame.
  destruct (emit_data_spec p a E (K + m * S K) src ty (es_inv _ _ _ _ _ Hes) Htr (es_room_1 _ _ _ _ _ Hes) Hwf)
    as (ring & a' & E' & Heq & Hem).
  destruct (Hsame ring) as (Hr & He & Hf & Hh & Hp & Ht). destruct Hwf as (_ & Hne & _).
  exists (emitted p src ring), a', E'. eexists. split; [exact Heq|]. split_and!; [|exact Hem|].
  - unfold phase. by rewrite Ht, Htr.
  - eapply es_next; [exact Hes|exact Hem| |cbn; lia| |lia].
    + eapply header_same; [apply (es_header _ _ _ _ _ Hes)|exact Hem|done..].
    + unfold emitted. rewrite decide_False by done. cbn [ep_source_seq set_source_time set_ring set_source_seq].
      destruct (ep_source_seq p !! src) eqn:Hs;
        [rewrite map_size_insert_Some by (by eexists)|rewrite map_size_insert_None by done]; lia.
Qed.

Lemma accept_checkpoint K m p a E :
  ep_state K (S m) p a E → phase p = Idle → accepts K m p a E OpCheckpoint Idle.
Proof.
  intros Hes Hph. pose proof (phase_idle p Hph) as Htr. pose proof (es_room_S _ _ _ _ _ Hes) as Hroom.
  destruct (checkpoint_high_water_spec p a E (m * S K) (es_inv _ _ _ _ _ Hes) Htr)
    as (p' & a' & E' & Heq & Hem & (Hr & He & Hf & Hh & Hp & Ht) & _ & Hsq).
  { eapply room_le; [|exact Hroom]. lia. }
  exists p', a', E'. eexists. split; [exact Heq|]. split_and!; [|exact Hem|].
  - unfold phase. by rewrite Ht, Htr.
  - pose proof (es_sources _ _ _ _ _ Hes).
    eapply es_next; [exact Hes|exact Hem| | | |lia].
    + eapply header_same; [apply (es_header _ _ _ _ _ Hes)|exact Hem|done..].
    + rewrite length_checkpoint_records, length_btree_iter. lia.
    + rewrite Hsq, map_size_fmap. lia.
Qed.

Lemma accept_begin K m p a E h1 h2 ep :
  ep_state K (S m) p a E → phase p = Idle → op_wf (OpBegin h1 h2 ep) →
  accepts K m p a E (OpBegin h1 h2 ep) Opened.
Proof.
  intros Hes Hph (Hh1 & Hh2 & Hep). pose proof (phase_idle p Hph) as Htr.
  destruct (begin_spec p a E (m * S K) h1 h2 ep (es_inv _ _ _ _ _ Hes) Htr (es_room_S _ _ _ _ _ Hes) Hh1 Hh2 Hep)
    as (p' & a' & E' & Heq & Hem & (Hr & He & Hf & Hh & Hp & Ht) & _ & Hsq).
  eexists _, a', E', _. split; [exact Heq|]. split_and!; [done|exact Hem|].
  pose proof (es_sources _ _ _ _ _ Hes).
  eapply es_next; [exact Hes|exact Hem| | | |cbn; lia].
  - eapply header_same; [apply (es_header _ _ _ _ _ Hes)|exact Hem|done..].
  - cbn [length]. rewrite length_checkpoint_records, length_btree_iter. lia.
  - cbn [set_transition ep_source_seq]. rewrite Hsq, map_size_fmap. lia.
Qed.

Lemma accept_changed K m p a E :
  ep_state K (S m) p a E → phase p = Opened → accepts K m p a E OpChanged Changed.
Proof.
  intros Hes Hph. unfold phase in Hph. destruct (ep_transition p) as [t|] eqn:Htr; [|done].
  destruct (pt_definition_changed_emitted t) eqn:Hem; [done|].
  destruct (changed_spec p a E (K + m * S K) t (es_inv _ _ _ _ _ Hes) Htr Hem (es_room_1 _ _ _ _ _ Hes))
    as (ring & a' & E' & Heq & Hemit).
  eexists _, a', E', _. split; [exact Heq|]. split_and!; [done|exact Hemit|].
  eapply es_next; [exact Hes|exact Hemit| |cbn; lia|exact (le_S _ _ (le_n _))|cbn [set_transition ep_run_id]; rewrite emitted_run; lia].
  by eapply header_same; [apply (es_header _ _ _ _ _ Hes)|exact Hemit|..].
Qed.

Lemma accept_finish K m p a E (cold : bool) :
  ep_state K (S m) p a E → phase p = Changed →
  accepts K m p a E (if cold then OpFinishCold else OpFinishWarm) Idle.
Proof.
  intros Hes Hph. unfold phase in Hph. destruct (ep_transition p) as [t|] eqn:Htr; [|done].
  destruct (pt_definition_changed_emitted t) eqn:Hem; [|done]. pose proof (es_runs _ _ _ _ _ Hes) as Hrun.
  destruct (finish_spec p a E (K + m * S K) t cold (es_inv _ _ _ _ _ Hes) Htr Hem (es_room_1 _ _ _ _ _ Hes)
    ltac:(lia)) as (ring & E' & Heq & Hemit).
  destruct (pi_transition _ _ _ (proj1 (es_inv _ _ _ _ _ Hes)) t Htr) as (Ht1 & Ht2 & _).
  eexists _, _, E', _. split; [by destruct cold; exact Heq|]. split_and!; [by destruct cold|exact Hemit|].
  assert (Hnew : (size (ep_source_seq (restarted p t cold)) ≤ size (ep_source_seq p))%nat
    ∧ ep_run_id (restarted p t cold) ≤ ep_run_id p + 1).
  { destruct cold; unfold restarted; cbn [ep_source_seq ep_run_id set_source_seq set_system_seq set_run_epoch
      set_transition]; rewrite ?map_size_empty; lia. }
  eapply es_next; [exact Hes|exact Hemit| |cbn; lia|exact (le_S _ _ (proj1 Hnew))|exact (proj2 Hnew)].
  split; [done|done|right]. rewrite (log_write (ep_ring p)) by apply (es_inv _ _ _ _ _ Hes).
  apply Exists_app. right. apply Exists_cons_hd. split_and!; try done.
Qed.

(** One call keeps the state, whatever it answers. *)
Lemma op_step K m p a E op :
  ep_state K (S m) p a E → op_wf op →
  ∃ p' a' E' recs, obeys p op p' ∧ emits p a E p' a' E' recs ∧ ep_state K m p' a' E'.
Proof.
  intros Hes Hwf. destruct (protocol (phase p) op) as [ph|err] eqn:Hpr.
  - assert (Hacc : accepts K m p a E op ph).
    { pose proof (accept_finish K m p a E) as Hfin.
      destruct op, (phase p) eqn:Hph; cbn in Hpr; try discriminate Hpr; injection Hpr as <-;
        first [exact (Hfin true Hes eq_refl)|exact (Hfin false Hes eq_refl)
              |by eauto using accept_data, accept_checkpoint, accept_begin, accept_changed]. }
    destruct Hacc as (p' & a' & E' & recs & Heq & Hph & Hem & Hes').
    exists p', a', E', recs. unfold obeys. by rewrite Hpr.
  - exists p, a, E, []. split_and!; [by eapply obeys_refused, refused|by apply emits_refl, Hes|].
    eapply es_next; [exact Hes|by apply emits_refl, Hes|apply Hes|cbn; lia|lia|lia].
Qed.
End epoch_steps.

(** ** Whole runs *)
Section runs.
Context {BP : BuildProfile}.

(** Records written so far. *)
Definition written_count (p : EpochProducer) : nat :=
  (Z.to_nat (ring_lost_count (ep_ring p)) + length (ring_index (ep_ring p)))%nat.

(** For each record the calls write, the epoch the producer is in when the call
    that writes it is done. *)
Fixpoint stamps (ops : list EpOp) (p : EpochProducer) : list u64 :=
  match ops with
  | [] => []
  | op :: ops =>
      match ep_exec op p with
      | Ok (p', _) | Err (p', _) =>
          replicate (written_count p' - written_count p) (ep_epoch_id p') ++ stamps ops p'
      | Panic | Diverge => []
      end
  end.

Lemma written_count_log p a : ring_rep (ep_ring p) a → written_count p = length (ab_log a).
Proof.
  intros Hrep. unfold written_count. rewrite (rep_lost _ _ Hrep), (rep_index _ _ Hrep), length_fmap.
  unfold ab_log. rewrite length_app. lia.
Qed.

Lemma run_ops_spec b run0 ep0 ops : ∀ K m p a E,
  ep_state b run0 ep0 K (length ops + m) p a E → Forall op_wf ops →
  ∃ p' a', run_ops ops p = Ok p' ∧ ep_state b run0 ep0 K m p' a' (E ++ stamps ops p)
    ∧ ab_cap a' = ab_cap a.
Proof.
  induction ops as [|op ops IH]; intros K m p a E Hes Hwf.
  { exists p, a. cbn. by rewrite app_nil_r. }
  apply Forall_cons in Hwf as [Hop Hops].
  destruct (op_step b run0 ep0 K (length ops + m) p a E op Hes Hop) as (p1 & a1 & E1 & recs & Hob & Hem & Hes1).
  destruct (IH K m p1 a1 E1 Hes1 Hops) as (p' & a' & Hrun & Hes' & Hc).
  exists p', a'. assert (Hst : E1 ++ stamps ops p1 = E ++ stamps (op :: ops) p ∧ run_ops (op :: ops) p = Ok p').
  { pose proof (written_count_log p a (pi_rep _ _ _ (proj1 (es_inv _ _ _ _ _ _ _ _ Hes)))) as Hw.
    pose proof (written_count_log p1 a1 (pi_rep _ _ _ (proj1 (es_inv _ _ _ _ _ _ _ _ Hes1)))) as Hw1.
    rewrite (emits_length _ _ _ _ _ _ _ _ _ _ Hem) in Hw1. rewrite (em_stamps _ _ _ _ _ _ _ _ _ _ Hem), <-app_assoc.
    replace (length recs) with (written_count p1 - written_count p)%nat by lia.
    unfold obeys in Hob. cbn [stamps run_ops]. destruct (protocol (phase p) op); destruct Hob as [-> _]; done. }
  destruct Hst as [<- ->]. split_and!; [done|done|]. rewrite Hc. apply (em_cap _ _ _ _ _ _ _ _ _ _ Hem).
Qed.

(** The calls fit: none runs out of offsets, timestamps or run ids. *)
Definition fits_ops (cap run_id : Z) (K : nat) : Prop :=
  2 * cap * (Z.of_nat K * (Z.of_nat K + 1)) < 2 ^ 63 ∧ run_id + Z.of_nat K < 2 ^ 64.

Lemma epoch_new_state b cap run_id epoch_id K :
  (80 ≤ cap)%nat → is_u64 run_id → is_u64 epoch_id → fits_ops (Z.of_nat cap) run_id K →
  ∃ p, epoch_new cap run_id epoch_id = Ok p ∧ ep_state b run_id epoch_id K K p (abs_new cap) [].
Proof.
  intros Hcap Hr He [Hroom Hruns]. destruct (ring_new_rep cap ltac:(lia)) as (ring & Hring & Hrep).
  unfold epoch_new. rewrite Hring, ok_bind. eexists. split; [done|].
  assert (Hn : ∀ src, next_of {| ep_ring := ring; ep_run_id := run_id; ep_epoch_id := epoch_id;
    ep_epoch_first_abs := 0; ep_system_seq := 0; ep_source_seq := ∅; ep_source_time := 1780000000000000000;
    ep_definition_hash := replicate 8 0; ep_prev_definition_hash := replicate 8 0; ep_transition := None |} src = 0).
  { intros src. unfold next_of. cbn. case_decide; [done|]. by rewrite lookup_empty. }
  split; [split|split; [by_compute|by_compute|by left]| |cbn [ep_source_seq]; rewrite map_size_empty; lia|cbn; lia].
  - split; try done.
    + cbn. lia.
    + intros src. by rewrite Hn.
    + by exists 0.
    + intros src. by rewrite Hn.
    + intros src. cbn. rewrite lookup_empty. by intros [].
  - split; try done. intros x _. unfold replay, resolver_new, resolve.
    cbn [foldl ab_log ab_dropped abs_new ab_reported ab_pending ab_live app er_buffer_id er_epoch_boundaries
      er_run_default_epoch]. rewrite decide_False by tauto. rewrite lookup_empty. apply lookup_singleton_eq.
  - unfold room. cbn [ab_cap abs_new ab_log ab_dropped ab_reported ab_pending ab_live app length]. nia.
Qed.

Lemma snapshot_wf_reach b run0 ep0 K m p a E :
  ep_state b run0 ep0 K m p a E → Z.of_nat (ab_cap a) < 2 ^ 32 →
  snapshot_wf (control_snapshot p)
  ∧ cb_head_abs (control_snapshot p) - cb_oldest_abs (control_snapshot p) ≤ cb_buffer_bytes (control_snapshot p).
Proof.
  intros [[Hinv _] [Hh Hp Hf] Hroom _ _] Hc. pose proof (pi_rep _ _ _ Hinv) as Hrep.
  pose proof (pi_head _ _ _ Hinv) as Hhead. pose proof (rep_window _ _ Hrep) as [Ho Hw].
  pose proof (layout_bounds _ _ _ _ (rep_layout _ _ Hrep)) as [Hle _]. pose proof (rep_size _ _ Hrep) as Hsz.
  assert (Hlen : (length (ab_dropped a) ≤ length (ab_log a))%nat) by (unfold ab_log; rewrite length_app; lia).
  assert (Hfirst : is_u64 (ep_epoch_first_abs p)).
  { destruct Hf as [->|Hf]; [by_compute|]. apply Exists_exists in Hf as (e & He & <- & _).
    pose proof (log_starts_lt _ _ _ Hrep He).
    assert (0 ≤ en_start e); [|unfold room, fits in *; nia].
    apply elem_of_app in He as [He|He].
    - pose proof (rep_dropped _ _ Hrep) as Hd. rewrite Forall_forall in Hd. by apply Hd.
    - pose proof (layout_bounds _ _ _ _ (rep_layout _ _ Hrep)) as [_ Hb]. rewrite Forall_forall in Hb.
      specialize (Hb e He). lia. }
  assert (Hbytes : Z.of_nat (capacity (ep_ring p)) mod 2 ^ 32 = Z.of_nat (ab_cap a)).
  { rewrite (rep_cap _ _ Hrep). apply Z.mod_small. lia. }
  split; [|cbn [control_snapshot cb_head_abs cb_oldest_abs cb_buffer_bytes];
    rewrite Hbytes, (rep_head _ _ Hrep), (rep_oldest _ _ Hrep); exact Hw].
  unfold snapshot_wf, control_snapshot, room, fits in *.
  cbn [cb_version cb_caps cb_buffer_id cb_buffer_bytes cb_head_abs cb_oldest_abs cb_lost_count cb_run_id
    cb_epoch_id cb_epoch_first_abs cb_definition_hash cb_prev_definition_hash].
  rewrite Hbytes, (rep_head _ _ Hrep), (rep_oldest _ _ Hrep), (rep_lost _ _ Hrep).
  pose proof (pi_run _ _ _ Hinv). pose proof (pi_epoch _ _ _ Hinv). unfold fits, DEFAULT_BUFFER_ID in *.
  split_and!; try done; nia.
Qed.

(** *** A whole transition *)

(** The three calls of a transition, each of which must succeed. *)
Definition run_transition (h1 h2 : bytes) (ep : u64) (cold : bool) (p : EpochProducer) : epres unit :=
  '(p, _) ← begin_epoch_transition p h1 h2 ep;
  '(p, _) ← emit_definition_changed p;
  if cold then finish_cold_start p else finish_definition_change p.

(** The records it writes. *)
Definition transition_script (p : EpochProducer) (h1 h2 : bytes) (ep : u64) (cold : bool) : list WireRecord :=
  let time := ep_source_time p in
  let run := ep_run_id p in
  let seq := ep_system_seq p in
  let n := Z.of_nat (size (ep_source_seq p)) in
  record_new time run seq SYSTEM_SOURCE_ID EVENT_LOGGER_STOPPED
  :: checkpoint_records (time + 1) run (btree_iter (ep_source_seq p))
  ++ [with_slots (record_new (time + 1 + n) run (seq + 1) SYSTEM_SOURCE_ID EVENT_DEFINITION_CHANGED)
        [{| slot_key := KEY_DEF_HASH_OLD; slot_ty := TY_BYTES; slot_payload := h1 |};
         {| slot_key := KEY_DEF_HASH_NEW; slot_ty := TY_BYTES; slot_payload := h2 |};
         {| slot_key := KEY_EPOCH_ID; slot_ty := TY_ULINT; slot_payload := to_le_bytes 8 ep |}];
      with_slots (record_new (time + 2 + n) (if cold then run + 1 else run) (if cold then 0 else seq + 2)
                    SYSTEM_SOURCE_ID EVENT_LOGGER_STARTED)
        [{| slot_key := KEY_COLD_START; slot_ty := TY_BOOL; slot_payload := [if cold then 1 else 0] |}]].

Lemma emits_time b run0 ep0 p a E p' a' E' recs :
  producer_inv p a E → emits b run0 ep0 p a E p' a' E' recs →
  ep_source_time p' = ep_source_time p + Z.of_nat (length recs).
Proof.
  intros Hinv Hem. rewrite (pi_time _ _ _ (proj1 (em_inv _ _ _ _ _ _ _ _ _ _ Hem))), (pi_time _ _ _ Hinv),
    (emits_length _ _ _ _ _ _ _ _ _ _ Hem). lia.
Qed.

Lemma restarted_fields p t (cold : bool) ring x :
  let p' := adopt_epoch (emitted (restarted p t cold) SYSTEM_SOURCE_ID ring) x t in
  phase p' = Idle ∧ ep_epoch_id p' = pt_epoch_id t ∧ ep_definition_hash p' = pt_def_hash_new t
  ∧ ep_prev_definition_hash p' = pt_def_hash_old t ∧ ep_epoch_first_abs p' = x
  ∧ ep_run_id p' = ep_run_id p + (if cold then 1 else 0)
  ∧ ep_system_seq p' = (if cold then 1 else ep_system_seq p + 1)
  ∧ ep_source_seq p' = (if cold then ∅ else ep_source_seq p).
Proof. destruct cold; cbn; rewrite ?Z.add_0_r; by split_and!. Qed.

Lemma start_record_eq p t (cold : bool) :
  start_record p t cold = with_slots
    (record_new (ep_source_time p) (if cold then ep_run_id p + 1 else ep_run_id p)
       (if cold then 0 else ep_system_seq p) SYSTEM_SOURCE_ID EVENT_LOGGER_STARTED)
    (cold_start_slot (if cold then 1 else 0)).
Proof. by destruct cold. Qed.

Lemma transition_spec b run0 ep0 K m p a E h1 h2 ep (cold : bool) :
  ep_state b run0 ep0 K (S (S (S m))) p a E → phase p = Idle → hash_wf h1 → hash_wf h2 → is_u64 ep →
  ∃ p' a' l, run_transition h1 h2 ep cold p = Ok (p', tt) ∧ ring_rep (ep_ring p') a'
    ∧ ab_log a' = ab_log a ++ l ∧ en_rec <$> l = transition_script p h1 h2 ep cold
    ∧ phase p' = Idle ∧ ep_epoch_id p' = ep ∧ ep_definition_hash p' = h2 ∧ ep_prev_definition_hash p' = h1
    ∧ ep_run_id p' = ep_run_id p + (if cold then 1 else 0)
    ∧ Some (ep_epoch_first_abs p') = en_start <$> last l
    ∧ ep_system_seq p' = (if cold then 1 else ep_system_seq p + 3)
    ∧ ep_source_seq p' = (if cold then ∅ else Z.succ <$> ep_source_seq p)
    ∧ (∀ l' e, l = l' ++ [e] → Forall (λ x, en_start x < en_start e) l').
Proof.
  intros Hes Hph Hh1 Hh2 Hep. pose proof (es_inv _ _ _ _ _ _ _ _ Hes) as Hinv.
  pose proof (phase_idle p Hph) as Htr. pose proof (es_runs _ _ _ _ _ _ _ _ Hes) as Hruns.
  set (n := size (ep_source_seq p)).
  assert (Hroom : room a (S n + 2)).
  { pose proof (es_sources _ _ _ _ _ _ _ _ Hes). eapply room_le; [|apply (es_room _ _ _ _ _ _ _ _ Hes)]. lia. }
  destruct (begin_spec b run0 ep0 p a E 2 h1 h2 ep Hinv Htr Hroom Hh1 Hh2 Hep)
    as (p1 & a1 & E1 & Heq1 & Hem1 & (Hr1 & _) & Hsys1 & Hsq1).
  pose proof (emits_time _ _ _ _ _ _ _ _ _ _ (proj1 Hinv) Hem1) as Ht1.
  cbn [length] in Ht1. rewrite length_checkpoint_records, length_btree_iter in Ht1.
  set (t := MkPendingTransition h1 h2 ep false) in *. set (q1 := set_transition p1 (Some t)) in *.
  assert (Hroom1 : room a1 2).
  { eapply emits_room; [exact Hem1|]. cbn [length]. by rewrite length_checkpoint_records, length_btree_iter. }
  destruct (changed_spec b run0 ep0 q1 a1 E1 1 t (em_inv _ _ _ _ _ _ _ _ _ _ Hem1) eq_refl eq_refl Hroom1)
    as (ring2 & a2 & E2 & Heq2 & Hem2).
  set (t' := MkPendingTransition h1 h2 ep true) in *.
  set (q2 := set_transition (emitted q1 SYSTEM_SOURCE_ID ring2) (Some t')) in *.
  assert (Hroom2 : room a2 1) by exact (emits_room _ _ _ _ _ _ _ _ _ _ 1 Hem2 Hroom1).
  destruct (finish_spec b run0 ep0 q2 a2 E2 0 t' cold (em_inv _ _ _ _ _ _ _ _ _ _ Hem2) eq_refl eq_refl Hroom2)
    as (ring3 & E3 & Heq3 & Hem3); [change (ep_run_id q2) with (ep_run_id p1); lia|].
  destruct (em_log _ _ _ _ _ _ _ _ _ _ Hem1) as (l1 & Hl1 & Hrec1).
  destruct (em_log _ _ _ _ _ _ _ _ _ _ Hem2) as (l2 & Hl2 & Hrec2).
  pose proof (log_write (ep_ring q2) a2 (start_record q2 t' cold) (pi_rep _ _ _ (proj1 (em_inv _ _ _ _ _ _ _ _ _ _ Hem2)))) as Hl3.
  eexists _, _, (l1 ++ l2 ++ [placed a2 (start_record q2 t' cold)]).
  split. { unfold run_transition. by rewrite Heq1, ok_bind, Heq2, ok_bind. }
  split; [apply (pi_rep _ _ _ (proj1 (em_inv _ _ _ _ _ _ _ _ _ _ Hem3)))|].
  split. { by rewrite Hl3, Hl2, Hl1, !app_assoc. }
  destruct (restarted_fields q2 t' cold ring3 (en_start (placed a2 (start_record q2 t' cold))))
    as (Hph' & Hep' & Hdh & Hpdh & Hfirst & Hrun' & Hsys' & Hsq').
  split_and!; [|exact Hph'|exact Hep'|exact Hdh|exact Hpdh| | | | |].
  - rewrite !fmap_app, Hrec1, Hrec2. cbn [fmap list_fmap en_rec placed]. rewrite start_record_eq.
    unfold emission, definition_changed_slots, transition_script, cold_start_slot.
    change (ep_run_id q1) with (ep_run_id p1). change (ep_run_id q2) with (ep_run_id p1).
    change (ep_system_seq q2) with (ep_system_seq p1 + 1). change (next_of q1 SYSTEM_SOURCE_ID) with (ep_system_seq p1).
    change (ep_source_time q2) with (ep_source_time q1 + 1). rewrite Hr1, Hsys1, Ht1.
    fold n. replace (ep_source_time p + Z.of_nat (S n)) with (ep_source_time p + 1 + Z.of_nat n) by lia.
    replace (ep_source_time p + 1 + Z.of_nat n + 1) with (ep_source_time p + 2 + Z.of_nat n) by lia.
    replace (ep_system_seq p + 1 + 1) with (ep_system_seq p + 2) by lia. done.
  - rewrite Hrun'. by change (ep_run_id q2) with (ep_run_id p1); rewrite Hr1.
  - by rewrite app_assoc, last_snoc, Hfirst.
  - rewrite Hsys'. destruct cold; [done|]. change (ep_system_seq q2) with (ep_system_seq p1 + 1). lia.
  - rewrite Hsq'. destruct cold; [done|]. by change (ep_source_seq q2) with (ep_source_seq p1).
  - intros l' e Heq. rewrite app_assoc in Heq. apply app_inj_2 in Heq as [<- [= <-]]; [|done].
    pose proof (pi_rep _ _ _ (proj1 (em_inv _ _ _ _ _ _ _ _ _ _ Hem2))) as Hrep2. apply Forall_forall. intros x Hx.
    apply Z.lt_le_trans with (ab_head a2); [|cbn [placed en_start]; unfold place; case_decide; lia].
    apply (log_starts_lt _ _ _ Hrep2). rewrite Hl2, Hl1, <-app_assoc. apply elem_of_app. by right.
Qed.

(** A system emission that fails leaves the transition field alone. *)
Lemma emit_system_err p ty slots p' err :
  emit_system p ty slots = Err (p', err) → ep_transition p' = ep_transition p.
Proof.
  unfold emit_system, record, ring_write, lift.
  destruct (add64 (ep_system_seq p) 1); cbn; [|by intros [= <- _]|done|done].
  destruct (add64 (ep_source_time p) 1); cbn; [|by intros [= <- _]|done|done].
  destruct (write_record _ _) as [[? ?]| | |]; cbn; [done|by intros [= <- _]|done|done].
Qed.

(** Every run of calls on a new producer reaches a good state. *)
Lemma runs_reach b cap run_id epoch_id ops k :
  (80 ≤ cap)%nat → is_u64 run_id → is_u64 epoch_id → fits_ops (Z.of_nat cap) run_id (length ops + k) →
  Forall op_wf ops →
  ∃ p0 p a, epoch_new cap run_id epoch_id = Ok p0 ∧ run_ops ops p0 = Ok p
    ∧ ep_state b run_id epoch_id (length ops + k) k p a (stamps ops p0) ∧ ab_cap a = cap.
Proof.
  intros Hcap Hr He Hfits Hops.
  destruct (epoch_new_state b cap run_id epoch_id (length ops + k) Hcap Hr He Hfits) as (p0 & Hnew & Hes).
  destruct (run_ops_spec b run_id epoch_id ops _ k p0 _ [] Hes Hops) as (p & a & Hrun & Hes' & Hc).
  exists p0, p, a. done.
Qed.
End runs.

(** ** Properties *)

(** A run for the witnesses: a warm change with refused calls around it, a cold
    start, and enough data to overwrite the early records. *)
Definition demo_hash (n : Z) : bytes := replicate 8 n.
Definition demo_ops : list EpOp :=
  [OpData 7 3; OpData 9 EVENT_MESSAGE; OpFinishWarm; OpBegin (demo_hash 0) (demo_hash 1) 5;
   OpData 7 3; OpChanged; OpChanged; OpFinishWarm; OpData 7 3;
   OpBegin (demo_hash 1) (demo_hash 2) 6; OpChanged; OpFinishCold; OpData 7 3; OpCheckpoint].

(** C25: sequence numbers and times of a producer: on a new producer whose ring
    has at least 80 bytes, room for each of its records, whatever calls are made,
    those the protocol refuses included, but for data under the system's own
    source id 0, none panics, every (run, source) has written exactly the numbers
    0, 1, .., n - 1 in log order, with the current counters as the [n] of the
    current run, and the records' times count up by one. Both conditions are
    needed and neither is checked: data for source 0 repeats numbers of the
    system's records ([data_for_source_zero]), and a record refused by a smaller
    ring uses up a number ([refused_record_burns_number]). The number of calls is
    bounded so that offsets, times and run ids stay below 2^64. *)
Theorem epoch_sequences {BP : BuildProfile} cap run_id epoch_id ops :
  (80 ≤ cap)%nat → is_u64 run_id → is_u64 epoch_id → fits_ops (Z.of_nat cap) run_id (length ops) →
  Forall op_wf ops →
  ∃ p0 p a, epoch_new cap run_id epoch_id = Ok p0 ∧ run_ops ops p0 = Ok p ∧ ring_rep (ep_ring p) a
    ∧ (∀ src, seqs_of (ab_log a) (ep_run_id p, src) = seqZ 0 (next_of p src))
    ∧ (∀ run src, ∃ n, 0 ≤ n ∧ seqs_of (ab_log a) (run, src) = seqZ 0 n)
    ∧ rec_source_time ∘ en_rec <$> ab_log a = seqZ START_TIME (Z.of_nat (length (ab_log a))).
Proof.
  intros Hcap Hr He Hfits Hops. rewrite <-(Nat.add_0_r (length ops)) in Hfits.
  destruct (runs_reach 1 cap run_id epoch_id ops 0 Hcap Hr He Hfits Hops)
    as (p0 & p & a & Hnew & Hrun & Hes & Hc). destruct (es_inv _ _ _ _ _ _ _ _ Hes) as [Hinv _].
  exists p0, p, a. destruct Hinv as [Hrep ? ? ? Htimes ? Hsq Hpast Hfut Hnext ? ? ? ?].
  split_and!; try done. intros run src. destruct (Ztrichotomy run (ep_run_id p)) as [Hlt|[->|Hgt]].
  - by apply Hpast.
  - exists (next_of p src). done.
  - exists 0. split; [done|]. rewrite Hfut by lia. done.
Qed.

Lemma epoch_sequences_witness :
  ∃ p0 p a, epoch_new 200 1 4 = Ok p0 ∧ run_ops (BP:=dev_profile) demo_ops p0 = Ok p ∧ ring_rep (ep_ring p) a
    ∧ (∀ src, seqs_of (ab_log a) (ep_run_id p, src) = seqZ 0 (next_of p src))
    ∧ (∀ run src, ∃ n, 0 ≤ n ∧ seqs_of (ab_log a) (run, src) = seqZ 0 n)
    ∧ rec_source_time ∘ en_rec <$> ab_log a = seqZ START_TIME (Z.of_nat (length (ab_log a))).
Proof.
  apply (epoch_sequences (BP:=dev_profile) 200 1 4 demo_ops); [lia|by_compute|by_compute|split; by_compute|by_compute].
Defined.

(** The numbers in the ring, per record: (run, source, sequence number). *)
Definition numbers_written (cap : nat) (ops : list EpOp) : option (list (u64 * u32 * u64)) :=
  match (p0 ← epoch_new cap 1 4; run_ops (BP:=dev_profile) ops p0) with
  | Ok p => match read_from (BP:=dev_profile) (ep_ring p) 0 with
            | Ok batch => Some ((λ r, (rec_run_id r, rec_source_id r, rec_seq r)) ∘ rr_record <$> rb_records batch)
            | _ => None
            end
  | _ => None
  end.

(** Data is accepted for source 0, which is the system's, but counted apart from
    the system's records: two records of a run have one source and one number. *)
Example data_for_source_zero :
  numbers_written 400 [OpData 0 1; OpBegin (demo_hash 0) (demo_hash 1) 5] = Some [(1, 0, 0); (1, 0, 0); (1, 0, 1)].
Proof. vm_compute. reflexivity. Qed.

(** A message record needs 52 bytes; refused by a ring of 50 it has still taken
    its number, so the source's first record in the ring has number 1. *)
Example refused_record_burns_number :
  numbers_written 50 [OpData 7 EVENT_MESSAGE; OpData 7 1] = Some [(1, 7, 1)].
Proof. vm_compute. reflexivity. Qed.

(** C26: the resolver is right: a resolver that has observed every record of a
    producer (ring of at least 80 bytes, no data under source 0), in order, maps each of them (by run and offset) to the epoch the
    producer was in when the call that wrote it was done, and any later offset
    of the current run to the current epoch, across warm changes and cold
    starts. *)
Theorem resolver_exact {BP : BuildProfile} b cap run_id epoch_id ops :
  (80 ≤ cap)%nat → is_u64 run_id → is_u64 epoch_id → fits_ops (Z.of_nat cap) run_id (length ops) →
  Forall op_wf ops →
  ∃ p0 p a, epoch_new cap run_id epoch_id = Ok p0 ∧ run_ops ops p0 = Ok p ∧ ring_rep (ep_ring p) a
    ∧ let R := replay b run_id epoch_id (ab_log a) in
      (λ e, resolve R b (rec_run_id (en_rec e)) (en_start e)) <$> ab_log a = Some <$> stamps ops p0
      ∧ ∀ x, ring_head_abs (ep_ring p) ≤ x → resolve R b (ep_run_id p) x = Some (ep_epoch_id p).
Proof.
  intros Hcap Hr He Hfits Hops. rewrite <-(Nat.add_0_r (length ops)) in Hfits.
  destruct (runs_reach b cap run_id epoch_id ops 0 Hcap Hr He Hfits Hops)
    as (p0 & p & a & Hnew & Hrun & Hes & Hc). destruct (es_inv _ _ _ _ _ _ _ _ Hes) as [Hinv Hri].
  exists p0, p, a. split_and!; [done|done|apply Hinv|]. intros R. split.
  - apply list_eq. intros i. rewrite !list_lookup_fmap. pose proof (pi_len _ _ _ Hinv) as Hlen.
    destruct (ab_log a !! i) as [e|] eqn:He'.
    + destruct (lookup_lt_is_Some_2 (stamps ops p0) i) as [ep Hep].
      { rewrite Hlen. by eapply lookup_lt_Some. }
      rewrite Hep. cbn. f_equal. by eapply (ri_log _ _ _ _ _ _ Hri).
    + apply lookup_ge_None in He'. rewrite <-Hlen in He'. apply lookup_ge_None in He'. by rewrite He'.
  - intros x Hx. rewrite (rep_head _ _ (pi_rep _ _ _ Hinv)) in Hx. by apply (ri_now _ _ _ _ _ _ Hri).
Qed.

Lemma resolver_exact_witness :
  ∃ p0 p a, epoch_new 200 1 4 = Ok p0 ∧ run_ops (BP:=release_profile) demo_ops p0 = Ok p ∧ ring_rep (ep_ring p) a
    ∧ let R := replay 1 1 4 (ab_log a) in
      (λ e, resolve R 1 (rec_run_id (en_rec e)) (en_start e)) <$> ab_log a
        = Some <$> stamps (BP:=release_profile) demo_ops p0
      ∧ ∀ x, ring_head_abs (ep_ring p) ≤ x → resolve R 1 (ep_run_id p) x = Some (ep_epoch_id p).
Proof.
  apply (resolver_exact (BP:=release_profile) 1 200 1 4 demo_ops);
    [lia|by_compute|by_compute|split; by_compute|by_compute].
Defined.

(** The transition protocol: after any calls on a new producer, the next
    call does exactly what the three-phase automaton says: it succeeds and moves
    to the automaton's next phase, or it returns the automaton's error and the
    producer is left as it was. *)
Theorem protocol_exact {BP : BuildProfile} cap run_id epoch_id ops op :
  (80 ≤ cap)%nat → is_u64 run_id → is_u64 epoch_id → fits_ops (Z.of_nat cap) run_id (length ops + 1) →
  Forall op_wf ops → op_wf op →
  ∃ p0 p p', epoch_new cap run_id epoch_id = Ok p0 ∧ run_ops ops p0 = Ok p
    ∧ match protocol (phase p) op with
      | inl ph => ep_exec op p = Ok (p', tt) ∧ phase p' = ph
      | inr err => ep_exec op p = Err (p', err) ∧ p' = p
      end.
Proof.
  intros Hcap Hr He Hfits Hops Hop.
  destruct (runs_reach 1 cap run_id epoch_id ops 1 Hcap Hr He Hfits Hops)
    as (p0 & p & a & Hnew & Hrun & Hes & Hc).
  destruct (op_step _ _ _ _ _ _ _ _ op Hes Hop) as (p' & _ & _ & _ & Hob & _). by exists p0, p, p'.
Qed.

Lemma protocol_exact_witness :
  ∃ p0 p p', epoch_new 200 1 4 = Ok p0 ∧ run_ops (BP:=dev_profile) (take 6 demo_ops) p0 = Ok p
    ∧ match protocol (phase p) OpChanged with
      | inl ph => ep_exec (BP:=dev_profile) OpChanged p = Ok (p', tt) ∧ phase p' = ph
      | inr err => ep_exec (BP:=dev_profile) OpChanged p = Err (p', err) ∧ p' = p
      end.
Proof.
  apply (protocol_exact (BP:=dev_profile) 200 1 4 (take 6 demo_ops) OpChanged);
    [lia|by_compute|by_compute|split; by_compute|by_compute|done].
Defined.

(** The published control block: after any calls on a new producer whose
    capacity fits a [u32], the snapshot is well formed, its image under any even
    lock decodes to the same snapshot, its window is the ring's, and
    [epoch_first_abs] is the offset of the system's [LoggerStarted] in the
    current run once a transition has finished (0 before). *)
Theorem snapshot_published {BP : BuildProfile} cap run_id epoch_id ops lock rest :
  (80 ≤ cap)%nat → Z.of_nat cap < 2 ^ 32 → is_u64 run_id → is_u64 epoch_id →
  fits_ops (Z.of_nat cap) run_id (length ops) → Forall op_wf ops → is_u32 lock → Z.even lock = true →
  ∃ p0 p a img, epoch_new cap run_id epoch_id = Ok p0 ∧ run_ops ops p0 = Ok p ∧ ring_rep (ep_ring p) a
    ∧ cb_encode (control_snapshot p) lock = Ok img
    ∧ decode_with_locks (img ++ rest) lock lock = Ok (control_snapshot p)
    ∧ cb_head_abs (control_snapshot p) - cb_oldest_abs (control_snapshot p) ≤ cb_buffer_bytes (control_snapshot p)
    ∧ (cb_epoch_first_abs (control_snapshot p) = 0 ∨ Exists (opens_epoch p) (ab_log a)).
Proof.
  intros Hcap Hcap32 Hr He Hfits Hops Hlock Heven. rewrite <-(Nat.add_0_r (length ops)) in Hfits.
  destruct (runs_reach 1 cap run_id epoch_id ops 0 Hcap Hr He Hfits Hops)
    as (p0 & p & a & Hnew & Hrun & Hes & Hc). destruct (es_inv _ _ _ _ _ _ _ _ Hes) as [Hinv _].
  destruct (snapshot_wf_reach _ _ _ _ _ _ _ _ Hes ltac:(by rewrite Hc)) as [Hw Hwin].
  pose proof Hw as (_&_&_&_&_&_&_&_&_&_&[_ Hd]&[_ Hp]).
  exists p0, p, a, (cb_image (control_snapshot p) lock). split_and!; [done|done|apply Hinv| | |done|].
  - by apply cb_encode_image.
  - by apply decode_image.
  - apply (es_header _ _ _ _ _ _ _ _ Hes).
Qed.

Lemma snapshot_published_witness :
  ∃ p0 p a img, epoch_new 200 1 4 = Ok p0 ∧ run_ops (BP:=dev_profile) demo_ops p0 = Ok p ∧ ring_rep (ep_ring p) a
    ∧ cb_encode (control_snapshot p) 6 = Ok img
    ∧ decode_with_locks (img ++ [1; 2; 3]) 6 6 = Ok (control_snapshot p)
    ∧ cb_head_abs (control_snapshot p) - cb_oldest_abs (control_snapshot p) ≤ cb_buffer_bytes (control_snapshot p)
    ∧ (cb_epoch_first_abs (control_snapshot p) = 0 ∨ Exists (opens_epoch p) (ab_log a)).
Proof.
  apply (snapshot_published (BP:=dev_profile) 200 1 4 demo_ops 6 [1; 2; 3]);
    [lia|lia|by_compute|by_compute|split; by_compute|by_compute|by_compute|done].
Defined.

(** C27: a whole transition: from any state a run of calls (not with data for
    source 0) reaches with no transition open in a ring of at least 80 bytes,
    begin, announce and finish all succeed and write exactly [LoggerStopped], one
    high-water checkpoint per source in ascending order (its sequence number and
    its payload the source's count), [DefinitionChanged] with the two hashes and
    the new epoch and nothing else, and [LoggerStarted]; a warm change keeps the
    run and the counters (each one past its checkpoint), a cold start takes the
    next run and restarts them; hashes, epoch and first offset are adopted. The
    comments at epoch.rs:120 and 170 also have the first sequence number of each
    source taken down by begin and carried by [DefinitionChanged]: the code does
    neither, and these are the records without them. *)
Theorem transition_writes {BP : BuildProfile} cap run_id epoch_id ops h1 h2 ep (cold : bool) :
  (80 ≤ cap)%nat → is_u64 run_id → is_u64 epoch_id → fits_ops (Z.of_nat cap) run_id (length ops + 3) →
  Forall op_wf ops → hash_wf h1 → hash_wf h2 → is_u64 ep →
  ∃ p0 p, epoch_new cap run_id epoch_id = Ok p0 ∧ run_ops ops p0 = Ok p ∧ (phase p = Idle →
    ∃ a p' a' l, ring_rep (ep_ring p) a ∧ run_transition h1 h2 ep cold p = Ok (p', tt) ∧ ring_rep (ep_ring p') a'
    ∧ ab_log a' = ab_log a ++ l ∧ en_rec <$> l = transition_script p h1 h2 ep cold
    ∧ phase p' = Idle ∧ ep_epoch_id p' = ep ∧ ep_definition_hash p' = h2 ∧ ep_prev_definition_hash p' = h1
    ∧ ep_run_id p' = ep_run_id p + (if cold then 1 else 0)
    ∧ Some (ep_epoch_first_abs p') = en_start <$> last l
    ∧ ep_system_seq p' = (if cold then 1 else ep_system_seq p + 3)
    ∧ ep_source_seq p' = (if cold then ∅ else Z.succ <$> ep_source_seq p)).
Proof.
  intros Hcap Hr He Hfits Hops Hh1 Hh2 Hep.
  destruct (runs_reach 1 cap run_id epoch_id ops 3 Hcap Hr He Hfits Hops)
    as (p0 & p & a & Hnew & Hrun & Hes & Hc).
  exists p0, p. split_and!; [done|done|]. intros Hph. exists a.
  destruct (transition_spec 1 run_id epoch_id _ 0 p a _ h1 h2 ep cold Hes Hph Hh1 Hh2 Hep)
    as (p' & a' & l & Hrest). exists p', a', l. split; [|tauto].
  apply (pi_rep _ _ _ (proj1 (es_inv _ _ _ _ _ _ _ _ Hes))).
Qed.

Lemma transition_writes_witness :
  ∃ p0 p, epoch_new 200 1 4 = Ok p0 ∧ run_ops (BP:=dev_profile) (take 3 demo_ops) p0 = Ok p ∧ (phase p = Idle →
    ∃ a p' a' l, ring_rep (ep_ring p) a
    ∧ run_transition (BP:=dev_profile) (demo_hash 0) (demo_hash 1) 5 false p = Ok (p', tt) ∧ ring_rep (ep_ring p') a'
    ∧ ab_log a' = ab_log a ++ l ∧ en_rec <$> l = transition_script p (demo_hash 0) (demo_hash 1) 5 false
    ∧ phase p' = Idle ∧ ep_epoch_id p' = 5 ∧ ep_definition_hash p' = demo_hash 1
    ∧ ep_prev_definition_hash p' = demo_hash 0 ∧ ep_run_id p' = ep_run_id p + 0
    ∧ Some (ep_epoch_first_abs p') = en_start <$> last l
    ∧ ep_system_seq p' = ep_system_seq p + 3 ∧ ep_source_seq p' = Z.succ <$> ep_source_seq p).
Proof.
  apply (transition_writes (BP:=dev_profile) 200 1 4 (take 3 demo_ops) (demo_hash 0) (demo_hash 1) 5 false);
    [lia|by_compute|by_compute|split; by_compute|by_compute|by_compute|by_compute|by_compute].
Defined.

(** The calls that need an open transition. *)
Definition in_transition (op : EpOp) : Prop := op = OpChanged ∨ op = OpFinishWarm ∨ op = OpFinishCold.

(** An open transition does not survive a ring error: when the record of
    [emit_definition_changed], [finish_definition_change] or [finish_cold_start]
    is refused by the ring, the transition the call had taken out is gone, and
    retrying any of the three is refused with [NoTransitionOpen]. *)
Theorem ring_error_drops_transition {BP : BuildProfile} p op op' p' err :
  in_transition op → in_transition op' → ep_exec op p = Err (p', EpochRing err) →
  phase p' = Idle ∧ ep_exec op' p' = Err (p', NoTransitionOpen).
Proof.
  intros Hop Hop' Hex. assert (Htr : ep_transition p' = None).
  { destruct Hop as [->|[->| ->]]; cbn [ep_exec] in Hex;
      unfold emit_definition_changed, finish_definition_change, finish_cold_start in Hex;
      destruct (ep_transition p) as [t|]; try done; destruct (pt_definition_changed_emitted t); try done; cbn [negb] in Hex.
    - apply bind_Err in Hex as [Hex|((q & []) & _ & [=])]. by apply emit_system_err in Hex.
    - apply bind_Err in Hex as [Hex|((q & sp) & _ & [=])]. by apply emit_system_err in Hex.
    - apply bind_Err in Hex as [Hex|(run & _ & Hex)].
      + unfold lift, add_w in Hex. repeat case_match; done.
      + apply bind_Err in Hex as [Hex|((q & sp) & _ & [=])]. by apply emit_system_err in Hex. }
  split; [unfold phase; by rewrite Htr|].
  destruct Hop' as [->|[->| ->]]; cbn [ep_exec];
    unfold emit_definition_changed, finish_definition_change, finish_cold_start; by rewrite Htr.
Qed.

Lemma ring_error_drops_transition_witness :
  ∃ p p' err, phase p = Opened
    ∧ (p0 ← epoch_new 60 1 4;
       run_ops (BP:=dev_profile) [OpBegin (demo_hash 0) (demo_hash 1) 5] p0) = Ok p
    ∧ ep_exec (BP:=dev_profile) OpChanged p = Err (p', EpochRing err)
    ∧ phase p' = Idle ∧ ep_exec (BP:=dev_profile) OpFinishWarm p' = Err (p', NoTransitionOpen).
Proof.
  destruct (p0 ← epoch_new 60 1 4; run_ops (BP:=dev_profile) [OpBegin (demo_hash 0) (demo_hash 1) 5] p0)
    as [p| | |] eqn:Hp; [|vm_compute in Hp; discriminate Hp..].
  vm_compute in Hp. injection Hp as Hp.
  destruct (ep_exec (BP:=dev_profile) OpChanged p) as [r|[p' err]| |] eqn:Hex; rewrite <-Hp in Hex;
    pose proof Hex as Hex'; vm_compute in Hex'; try discriminate Hex'.
  injection Hex' as Hp' <-. rewrite Hp in Hex. exists p, p'. eexists. split; [by rewrite <-Hp|].
  split; [rewrite <-Hp; vm_compute; reflexivity|]. split; [exact Hex|].
  eapply (ring_error_drops_transition (BP:=dev_profile)); [|right; left; reflexivity|exact Hex]. by left.
Defined.
