(* ===== verification/Capture.v ===== *)
(** * Capture validation (crates/carriage/src/capture.rs)

    The two fixed scenarios of the producer, and the validation of a ring image
    another implementation captured for one of them: the image must be the
    regenerated one, and is then read, accounted and resolved. *)
From stdpp Require Import strings.
From S2P Require Import Prelude Crc Wire Control Registry Layout Ring RingRead Loss Consumer Epoch.
#[local] Open Scope Z_scope.

Definition S4A_CAPTURE_CAPACITY : usize := 256.
Definition OLD_HASH : bytes := [0x6F; 0x6C; 0x64; 0x68; 0x61; 0x73; 0x68; 0x31].
Definition NEW_HASH : bytes := [0x6E; 0x65; 0x77; 0x68; 0x61; 0x73; 0x68; 0x32].
Definition TRANSITION_EPOCH : u64 := 2.

(** ** The data *)
Inductive CaptureScenario := RichWrap | LifecycleSurvival.

Definition fixture_name (scenario : CaptureScenario) : string :=
  match scenario with RichWrap => "s4a-rich-wrap" | LifecycleSurvival => "s4a-lifecycle-survival" end.

Record CapturedControlFields := MkCapturedControlFields {
  cf_head_abs : u64;
  cf_oldest_abs : u64;
  cf_lost_count : u64;
  cf_run_id : u64;
  cf_epoch_id : u64;
  cf_epoch_first_abs : u64;
  cf_definition_hash : bytes;
  cf_prev_definition_hash : bytes;
}.

Definition from_snapshot (s : ControlBlockSnapshot) : CapturedControlFields :=
  {| cf_head_abs := cb_head_abs s; cf_oldest_abs := cb_oldest_abs s; cf_lost_count := cb_lost_count s;
     cf_run_id := cb_run_id s; cf_epoch_id := cb_epoch_id s; cf_epoch_first_abs := cb_epoch_first_abs s;
     cf_definition_hash := cb_definition_hash s; cf_prev_definition_hash := cb_prev_definition_hash s |}.

Definition to_snapshot (c : CapturedControlFields) (capacity : usize) : ControlBlockSnapshot :=
  {| cb_version := 2; cb_caps := 0; cb_buffer_id := DEFAULT_BUFFER_ID; cb_buffer_bytes := Z.of_nat capacity mod 2 ^ 32;
     cb_head_abs := cf_head_abs c; cb_oldest_abs := cf_oldest_abs c; cb_lost_count := cf_lost_count c;
     cb_run_id := cf_run_id c; cb_epoch_id := cf_epoch_id c; cb_epoch_first_abs := cf_epoch_first_abs c;
     cb_definition_hash := cf_definition_hash c; cb_prev_definition_hash := cf_prev_definition_hash c |}.

Record CapturedImage := MkCapturedImage { ci_ring_bytes : bytes; ci_control : CapturedControlFields }.

Record CapturedRecordSummary := MkCapturedRecordSummary {
  su_start_abs : u64;
  su_end_abs : u64;
  su_run_id : u64;
  su_source_id : u32;
  su_seq : u64;
  su_event_type_id : u32;
  su_resolved_epoch : option u64;
}.

#[global] Instance CapturedRecordSummary_eq_dec : EqDecision CapturedRecordSummary.
Proof. solve_decision. Defined.

Record CaptureValidation := MkCaptureValidation {
  va_batch : ReadBatch;
  va_survivors : list CapturedRecordSummary;
  va_loss_events : list LossEvent;
}.

(** The message of [ScenarioInvariant] is the name of the invariant; the
    [Debug] rendering of the two values that follows it is left out. *)
Inductive CaptureValidationError :=
| Reference (e : EpochError)
| RingLengthMismatch (expected actual : usize)
| RingByteMismatch (index : usize) (expected actual : u8)
| ControlFieldMismatch (field : string) (expected actual : u64)
| ControlHashMismatch (field : string) (expected actual : bytes)
| CaptureRing (e : RingError)
| ScenarioInvariant (scenario : CaptureScenario) (message : string).

Section capture.
Context {BP : BuildProfile}.

(** ** The scenarios *)
(** [?] on a call of the producer. *)
Definition call {A} (m : epres A) : res EpochError EpochProducer :=
  match m with
  | Ok (p, _) => Ok p
  | Err (_, e) => Err e
  | Panic => Panic
  | Diverge => Diverge
  end.

Definition drive_rich_wrap (p : EpochProducer) : res EpochError EpochProducer :=
  p ← for_each (λ _ p, call (emit_data p 10 EVENT_MESSAGE)) (seq 0 3) p;
  p ← for_each (λ _ p, call (emit_data p 20 EVENT_MESSAGE)) (seq 0 2) p;
  p ← call (checkpoint_high_water p);
  p ← call (begin_epoch_transition p OLD_HASH NEW_HASH TRANSITION_EPOCH);
  p ← call (emit_definition_changed p);
  p ← call (finish_definition_change p);
  p ← call (emit_data p 10 EVENT_MESSAGE);
  call (emit_data p 20 EVENT_MESSAGE).

Definition drive_lifecycle_survival (p : EpochProducer) : res EpochError EpochProducer :=
  p ← call (emit_data p 21 EVENT_MESSAGE);
  p ← call (begin_epoch_transition p OLD_HASH NEW_HASH TRANSITION_EPOCH);
  p ← call (emit_definition_changed p);
  call (finish_definition_change p).

Definition reference_capture (scenario : CaptureScenario) : res EpochError CapturedImage :=
  p ← map_err EpochRing (epoch_new S4A_CAPTURE_CAPACITY 1 1);
  p ← match scenario with
      | RichWrap => drive_rich_wrap p
      | LifecycleSurvival => drive_lifecycle_survival p
      end;
  Ok {| ci_ring_bytes := ring_bytes (ep_ring p); ci_control := from_snapshot (control_snapshot p) |}.

(** ** The comparison *)
Definition compare_ring_bytes (actual expected : bytes) : res CaptureValidationError unit :=
  if decide (length actual ≠ length expected) then Err (RingLengthMismatch (length expected) (length actual)) else
  for_each (λ '(index, (a, e)) _, if decide (a ≠ e) then Err (RingByteMismatch index e a) else Ok tt)
    (imap pair (zip actual expected)) tt.

Definition compare_control_u64 (field : string) (actual expected : u64) : res CaptureValidationError unit :=
  if decide (actual = expected) then Ok tt else Err (ControlFieldMismatch field expected actual).
Definition compare_control_hash (field : string) (actual expected : bytes) : res CaptureValidationError unit :=
  if decide (actual = expected) then Ok tt else Err (ControlHashMismatch field expected actual).

Definition compare_control (actual expected : CapturedControlFields) : res CaptureValidationError unit :=
  _ ← compare_control_u64 "headAbs" (cf_head_abs actual) (cf_head_abs expected);
  _ ← compare_control_u64 "oldestAbs" (cf_oldest_abs actual) (cf_oldest_abs expected);
  _ ← compare_control_u64 "lostCount" (cf_lost_count actual) (cf_lost_count expected);
  _ ← compare_control_u64 "runId" (cf_run_id actual) (cf_run_id expected);
  _ ← compare_control_u64 "epochId" (cf_epoch_id actual) (cf_epoch_id expected);
  _ ← compare_control_u64 "epochFirstAbs" (cf_epoch_first_abs actual) (cf_epoch_first_abs expected);
  _ ← compare_control_hash "definitionHash" (cf_definition_hash actual) (cf_definition_hash expected);
  compare_control_hash "prevDefinitionHash" (cf_prev_definition_hash actual) (cf_prev_definition_hash expected).

(** ** The invariants of the scenarios *)
Definition summary (start_abs end_abs run_id source_id seq event_type_id : Z) (resolved_epoch : option u64)
  : CapturedRecordSummary :=
  {| su_start_abs := start_abs; su_end_abs := end_abs; su_run_id := run_id; su_source_id := source_id; su_seq := seq;
     su_event_type_id := event_type_id; su_resolved_epoch := resolved_epoch |}.

Definition ensure (scenario : CaptureScenario) (condition : bool) (message : string) : res CaptureValidationError unit :=
  if condition then Ok tt else Err (ScenarioInvariant scenario message).
Definition ensure_eq {T} `{EqDecision T} (scenario : CaptureScenario) (actual expected : T) (name : string)
  : res CaptureValidationError unit :=
  if decide (actual = expected) then Ok tt else Err (ScenarioInvariant scenario name).

(** A count of lost records, whose sum is a [u64]. *)
Definition lost_in_run (c : RawByteConsumer) (run_id : u64) (source_id : u32) : res CaptureValidationError u64 :=
  map_err CaptureRing (rbc_lost_in_run c run_id source_id).

Definition ensure_lost (scenario : CaptureScenario) (c : RawByteConsumer) (source_id : u32) (expected : u64) (name : string)
  : res CaptureValidationError unit :=
  n ← lost_in_run c 1 source_id;
  ensure_eq scenario n expected name.

Definition assert_rich_wrap_invariants (batch : ReadBatch) (c : RawByteConsumer) (survivors : list CapturedRecordSummary)
  : res CaptureValidationError unit :=
  _ ← ensure RichWrap (rb_lapped batch) "consumer must lap";
  _ ← ensure_eq RichWrap survivors
        [summary 624 704 1 SYSTEM_SOURCE_ID 1 EVENT_DEFINITION_CHANGED (Some 1);
         summary 704 756 1 SYSTEM_SOURCE_ID 2 EVENT_LOGGER_STARTED (Some 2);
         summary 768 820 1 10 5 EVENT_MESSAGE (Some 2);
         summary 820 872 1 20 4 EVENT_MESSAGE (Some 2)] "rich-wrap survivors";
  _ ← ensure_eq RichWrap (rbc_delivered_in_run c 1 10) 1 "source 10 delivered";
  _ ← ensure_lost RichWrap c 10 5 "source 10 lost";
  _ ← ensure_eq RichWrap (rbc_delivered_in_run c 1 20) 1 "source 20 delivered";
  _ ← ensure_lost RichWrap c 20 4 "source 20 lost";
  _ ← ensure_eq RichWrap (rbc_delivered_in_run c 1 SYSTEM_SOURCE_ID) 2 "system delivered";
  ensure_lost RichWrap c SYSTEM_SOURCE_ID 1 "system lost".

Definition assert_lifecycle_survival_invariants (batch : ReadBatch) (c : RawByteConsumer)
    (survivors : list CapturedRecordSummary) : res CaptureValidationError unit :=
  _ ← ensure LifecycleSurvival (rb_lapped batch) "consumer must lap";
  _ ← ensure_eq LifecycleSurvival survivors
        [summary 52 96 1 SYSTEM_SOURCE_ID 0 EVENT_LOGGER_STOPPED (Some 1);
         summary 96 152 1 21 1 EVENT_SOURCE_HIGH_WATER (Some 1);
         summary 152 232 1 SYSTEM_SOURCE_ID 1 EVENT_DEFINITION_CHANGED (Some 1);
         summary 256 308 1 SYSTEM_SOURCE_ID 2 EVENT_LOGGER_STARTED (Some 2)] "lifecycle-survival survivors";
  let retained_data_for_source := Z.of_nat (length (filter (λ read,
        rec_source_id (rr_record read) = 21 ∧ rec_event_type_id (rr_record read) = EVENT_MESSAGE) (rb_records batch))) in
  _ ← ensure_eq LifecycleSurvival retained_data_for_source 0 "source 21 retained data records";
  _ ← ensure_lost LifecycleSurvival c 21 1 "source 21 lost data records";
  n ← lost_in_run c 1 21;
  total ← add64 retained_data_for_source n;
  _ ← ensure_eq LifecycleSurvival total 1 "source 21 data delivered plus lost";
  _ ← ensure_eq LifecycleSurvival (rbc_delivered_in_run c 1 21) 1 "source 21 delivered high-water record";
  _ ← ensure_eq LifecycleSurvival (rbc_delivered_in_run c 1 SYSTEM_SOURCE_ID) 3 "system delivered";
  ensure_lost LifecycleSurvival c SYSTEM_SOURCE_ID 0 "system lost".

(** ** The validation *)
Definition summarize (resolver : EpochResolver) (read : ReadRecord) : CapturedRecordSummary :=
  {| su_start_abs := rr_start_abs read; su_end_abs := rr_end_abs read; su_run_id := rec_run_id (rr_record read);
     su_source_id := rec_source_id (rr_record read); su_seq := rec_seq (rr_record read);
     su_event_type_id := rec_event_type_id (rr_record read);
     su_resolved_epoch := resolve resolver DEFAULT_BUFFER_ID (rec_run_id (rr_record read)) (rr_start_abs read) |}.

Definition validate_capture (scenario : CaptureScenario) (captured_ring_bytes : bytes)
    (captured_control : CapturedControlFields) : res CaptureValidationError CaptureValidation :=
  reference ← map_err Reference (reference_capture scenario);
  _ ← compare_ring_bytes captured_ring_bytes (ci_ring_bytes reference);
  _ ← compare_control captured_control (ci_control reference);
  captured_ring ← map_err CaptureRing
    (from_captured captured_ring_bytes (cf_head_abs captured_control) (cf_oldest_abs captured_control)
       (cf_lost_count captured_control));
  let snapshot := to_snapshot captured_control S4A_CAPTURE_CAPACITY in
  '(consumer, batch) ← map_err CaptureRing (rbc_poll_snapshot rbc_new captured_ring snapshot);
  let resolver := foldl (λ r read, observe r DEFAULT_BUFFER_ID read) (resolver_new DEFAULT_BUFFER_ID 1 1) (rb_records batch) in
  let survivors := summarize resolver <$> rb_records batch in
  _ ← match scenario with
      | RichWrap => assert_rich_wrap_invariants batch consumer survivors
      | LifecycleSurvival => assert_lifecycle_survival_invariants batch consumer survivors
      end;
  Ok {| va_batch := batch; va_survivors := survivors; va_loss_events := loss_events (rbc_tracker consumer) |}.
End capture.

(** ** The captured fixtures (fixtures/st-captures)

    What the Structured Text producer wrote: [ring.hex] and [control.json] of
    the two scenarios. *)
Definition nibble (c : Ascii.ascii) : option Z :=
  let n := Z.of_nat (Ascii.nat_of_ascii c) in
  if decide (48 ≤ n ≤ 57) then Some (n - 48) else if decide (97 ≤ n ≤ 102) then Some (n - 87) else None.

(** The bytes of a dump: pairs of digits; what is not a digit separates them. *)
Fixpoint dump_from (high : option Z) (s : string) : bytes :=
  match s with
  | EmptyString => []
  | String c s =>
      match nibble c, high with
      | Some n, None => dump_from (Some n) s
      | Some n, Some h => h * 16 + n :: dump_from None s
      | None, _ => dump_from high s
      end
  end.
Definition dump : string → bytes := dump_from None.

Definition rich_wrap_ring : bytes := dump "
    4f 4f 54 32 34 00 08 00 0c 00 32 b4 91 d4 b3 18
    01 00 00 00 00 00 00 00 05 00 00 00 00 00 00 00
    0a 00 00 00 03 00 00 00 14 00 05 04 00 00 00 00
    c3 8f 1a 0d 4f 4f 54 32 34 00 08 00 0d 00 32 b4
    91 d4 b3 18 01 00 00 00 00 00 00 00 04 00 00 00
    00 00 00 00 14 00 00 00 03 00 00 00 14 00 05 04
    00 00 00 00 18 9e a6 d2 00 00 00 00 04 61 88 45
    4f 4f 54 32 50 00 08 00 0a 00 32 b4 91 d4 b3 18
    01 00 00 00 00 00 00 00 01 00 00 00 00 00 00 00
    00 00 00 00 06 01 00 00 39 00 0d 08 6f 6c 64 68
    61 73 68 31 1c 00 0d 08 6e 65 77 68 61 73 68 32
    3a 00 07 08 02 00 00 00 00 00 00 00 08 7b 57 c8
    4f 4f 54 32 34 00 08 00 0b 00 32 b4 91 d4 b3 18
    01 00 00 00 00 00 00 00 02 00 00 00 00 00 00 00
    00 00 00 00 01 01 00 00 3b 00 00 01 00 00 00 00
    f7 2b 29 93 00 00 00 00 00 00 00 00 00 00 00 00".

Definition lifecycle_survival_ring : bytes := dump "
    4f 4f 54 32 34 00 08 00 04 00 32 b4 91 d4 b3 18
    01 00 00 00 00 00 00 00 02 00 00 00 00 00 00 00
    00 00 00 00 01 01 00 00 3b 00 00 01 00 00 00 00
    ba 32 d8 7b 4f 4f 54 32 2c 00 08 00 01 00 32 b4
    91 d4 b3 18 01 00 00 00 00 00 00 00 00 00 00 00
    00 00 00 00 00 00 00 00 02 01 00 00 86 ae 07 7d
    4f 4f 54 32 38 00 08 00 02 00 32 b4 91 d4 b3 18
    01 00 00 00 00 00 00 00 01 00 00 00 00 00 00 00
    15 00 00 00 08 01 00 00 38 00 07 08 01 00 00 00
    00 00 00 00 c4 da 3a 0d 4f 4f 54 32 50 00 08 00
    03 00 32 b4 91 d4 b3 18 01 00 00 00 00 00 00 00
    01 00 00 00 00 00 00 00 00 00 00 00 06 01 00 00
    39 00 0d 08 6f 6c 64 68 61 73 68 31 1c 00 0d 08
    6e 65 77 68 61 73 68 32 3a 00 07 08 02 00 00 00
    00 00 00 00 eb 7e 87 34 00 00 00 00 00 00 00 00
    00 00 00 00 00 00 00 00 00 00 00 00 00 00 00 00".

Definition fixture (scenario : CaptureScenario) : CapturedImage :=
  match scenario with
  | RichWrap => {| ci_ring_bytes := rich_wrap_ring; ci_control :=
    {| cf_head_abs := 872; cf_oldest_abs := 624; cf_lost_count := 10; cf_run_id := 1; cf_epoch_id := 2;
     cf_epoch_first_abs := 704; cf_definition_hash := dump "6e65776861736832";
     cf_prev_definition_hash := dump "6f6c646861736831" |} |}
  | LifecycleSurvival => {| ci_ring_bytes := lifecycle_survival_ring; ci_control :=
    {| cf_head_abs := 308; cf_oldest_abs := 52; cf_lost_count := 1; cf_run_id := 1; cf_epoch_id := 2;
     cf_epoch_first_abs := 256; cf_definition_hash := dump "6e65776861736832";
     cf_prev_definition_hash := dump "6f6c646861736831" |} |}
  end.

Section lemmas.
Context {BP : BuildProfile}.

Lemma reference_is_fixture scenario : reference_capture scenario = Ok (fixture scenario).
Proof. destruct scenario, BP; vm_compute; reflexivity. Qed.

(** ** Comparing *)
Definition first_difference (actual expected : bytes) (i : nat) (e a : u8) : Prop :=
  actual !! i = Some a ∧ expected !! i = Some e ∧ a ≠ e ∧ take i actual = take i expected.

Lemma compare_loop k actual : ∀ expected, length actual = length expected →
  match for_each (λ '(index, (a, e)) (_ : unit), if decide (a ≠ e) then Err (RingByteMismatch index e a) else Ok tt)
    (imap (λ i x, ((k + i)%nat, x)) (zip actual expected)) tt with
  | Ok _ => actual = expected
  | Err (RingByteMismatch index e a) => ∃ i, index = (k + i)%nat ∧ first_difference actual expected i e a
  | _ => False
  end.
Proof.
  revert k. induction actual as [|x actual IH]; intros k [|y expected] Hlen; [done..|]. injection Hlen as Hlen.
  cbn [zip zip_with imap for_each]. rewrite Nat.add_0_r. case_decide as Hxy.
  - exists 0%nat. split; [lia|]. done.
  - subst y. cbn [mbind res_bind].
    rewrite (imap_ext _ (λ i x, ((S k + i)%nat, x))) by (intros; cbn; by rewrite Nat.add_succ_r).
    specialize (IH (S k) expected Hlen). destruct (for_each _ _ tt) as [u|[]| |]; try done; [congruence|].
    destruct IH as (i & -> & Ha & He & Hne & Ht). exists (S i). split; [lia|]. split_and!; [done|done|done|]. cbn. congruence.
Qed.

(** The numeric fields and the hashes, by name, in the order they are compared. *)
Definition control_fields (c : CapturedControlFields) : list (string * u64) :=
  [("headAbs", cf_head_abs c); ("oldestAbs", cf_oldest_abs c); ("lostCount", cf_lost_count c);
   ("runId", cf_run_id c); ("epochId", cf_epoch_id c); ("epochFirstAbs", cf_epoch_first_abs c)]%string.
Definition control_hashes (c : CapturedControlFields) : list (string * bytes) :=
  [("definitionHash", cf_definition_hash c); ("prevDefinitionHash", cf_prev_definition_hash c)]%string.

Lemma compare_control_spec actual expected :
  match compare_control actual expected with
  | Ok _ => actual = expected
  | Err (ControlFieldMismatch field e a) =>
      ∃ i, control_fields actual !! i = Some (field, a) ∧ control_fields expected !! i = Some (field, e) ∧ a ≠ e
        ∧ take i (control_fields actual) = take i (control_fields expected)
  | Err (ControlHashMismatch field e a) =>
      ∃ i, control_hashes actual !! i = Some (field, a) ∧ control_hashes expected !! i = Some (field, e) ∧ a ≠ e
        ∧ take i (control_hashes actual) = take i (control_hashes expected)
        ∧ control_fields actual = control_fields expected
  | _ => False
  end.
Proof.
  destruct actual as [a1 a2 a3 a4 a5 a6 a7 a8], expected as [e1 e2 e3 e4 e5 e6 e7 e8].
  unfold compare_control, compare_control_u64, compare_control_hash. cbn.
  destruct (decide (a1 = e1)) as [->|?]; [|by exists 0%nat]; cbn [mbind res_bind].
  destruct (decide (a2 = e2)) as [->|?]; [|by exists 1%nat]; cbn [mbind res_bind].
  destruct (decide (a3 = e3)) as [->|?]; [|by exists 2%nat]; cbn [mbind res_bind].
  destruct (decide (a4 = e4)) as [->|?]; [|by exists 3%nat]; cbn [mbind res_bind].
  destruct (decide (a5 = e5)) as [->|?]; [|by exists 4%nat]; cbn [mbind res_bind].
  destruct (decide (a6 = e6)) as [->|?]; [|by exists 5%nat]; cbn [mbind res_bind].
  destruct (decide (a7 = e7)) as [->|?]; [|by exists 0%nat]; cbn [mbind res_bind].
  destruct (decide (a8 = e8)) as [->|?]; [|by exists 1%nat]; cbn [mbind res_bind].
  done.
Qed.

(** ** The theorem *)
(** Where an image departs from the reference, in the order of the checks. *)
Definition departs (bs : bytes) (control : CapturedControlFields) (image : CapturedImage) (e : CaptureValidationError) : Prop :=
  match e with
  | RingLengthMismatch expected actual =>
      expected = length (ci_ring_bytes image) ∧ actual = length bs ∧ expected ≠ actual
  | RingByteMismatch index expected actual =>
      length bs = length (ci_ring_bytes image) ∧ first_difference bs (ci_ring_bytes image) index expected actual
  | ControlFieldMismatch field expected actual => bs = ci_ring_bytes image ∧
      ∃ i, control_fields control !! i = Some (field, actual) ∧ control_fields (ci_control image) !! i = Some (field, expected)
        ∧ actual ≠ expected ∧ take i (control_fields control) = take i (control_fields (ci_control image))
  | ControlHashMismatch field expected actual => bs = ci_ring_bytes image ∧
      ∃ i, control_hashes control !! i = Some (field, actual) ∧ control_hashes (ci_control image) !! i = Some (field, expected)
        ∧ actual ≠ expected ∧ take i (control_hashes control) = take i (control_hashes (ci_control image))
        ∧ control_fields control = control_fields (ci_control image)
  | Reference _ | CaptureRing _ | ScenarioInvariant _ _ => False
  end.

Lemma compare_ring_spec bs expected :
  match compare_ring_bytes bs expected with
  | Ok _ => bs = expected
  | Err (RingLengthMismatch e a) => e = length expected ∧ a = length bs ∧ e ≠ a
  | Err (RingByteMismatch i e a) => length bs = length expected ∧ first_difference bs expected i e a
  | _ => False
  end.
Proof.
  unfold compare_ring_bytes. case_decide as Hlen; [split_and!; congruence|].
  assert (Hl : length bs = length expected) by lia. pose proof (compare_loop 0 bs _ Hl) as Hloop.
  change (λ i x, ((0 + i)%nat, x)) with (@pair nat (Z * Z)) in Hloop.
  destruct (for_each _ _ tt) as [u|[]| |]; try done. destruct Hloop as (i & -> & Hd). by split.
Qed.

Lemma compare_ring_same bs : compare_ring_bytes bs bs = Ok tt.
Proof.
  pose proof (compare_ring_spec bs bs) as H. destruct (compare_ring_bytes bs bs) as [[]|[]| |]; try done.
  - by destruct H as (-> & -> & ?).
  - destruct H as (_ & H1 & H2 & ? & _). congruence.
Qed.

Lemma compare_control_same c : compare_control c c = Ok tt.
Proof.
  unfold compare_control, compare_control_u64, compare_control_hash. by rewrite !decide_True, !ok_bind by done.
Qed.

Lemma fixture_validates scenario :
  match validate_capture scenario (ci_ring_bytes (fixture scenario)) (ci_control (fixture scenario)) with
  | Ok v => rb_next_abs (va_batch v) = cf_head_abs (ci_control (fixture scenario)) ∧ rb_lapped (va_batch v) = true
      ∧ length (va_survivors v) = length (rb_records (va_batch v))
  | _ => False
  end.
Proof. destruct scenario, BP; vm_compute; done. Qed.
End lemmas.

(** C33: capture validation is exact: on any bytes and control fields it neither
    panics nor fails inside; it accepts exactly the image the Rust producer
    generates for the scenario, which is the one the Structured Text producer
    was captured writing, and then the raw reader, the loss accounting and the
    epoch resolver all find what the scenario says. Anything else is refused
    with the first place where it departs from that image. *)
Theorem validate_capture_exact {BP : BuildProfile} scenario bs control :
  reference_capture scenario = Ok (fixture scenario) ∧
  match validate_capture scenario bs control with
  | Ok v =>
      bs = ci_ring_bytes (fixture scenario) ∧ control = ci_control (fixture scenario)
      ∧ rb_next_abs (va_batch v) = cf_head_abs control ∧ rb_lapped (va_batch v) = true
      ∧ length (va_survivors v) = length (rb_records (va_batch v))
  | Err e => departs bs control (fixture scenario) e
  | Panic | Diverge => False
  end.
Proof.
  split; [apply reference_is_fixture|]. pose proof (fixture_validates scenario) as Hv.
  unfold validate_capture in *. rewrite reference_is_fixture in *. cbn [map_err] in *. rewrite ok_bind in *.
  rewrite compare_ring_same, compare_control_same, !ok_bind in Hv.
  pose proof (compare_ring_spec bs (ci_ring_bytes (fixture scenario))) as Hr.
  destruct (compare_ring_bytes bs _) as [u|[]| |]; cbn [mbind res_bind]; try done.
  subst bs. pose proof (compare_control_spec control (ci_control (fixture scenario))) as Hc.
  destruct (compare_control control _) as [u'|[]| |]; cbn [mbind res_bind]; try done.
  subst control. match goal with |- context [match ?c with Ok _ => _ | _ => _ end] => destruct c end; done.
Qed.
