(* ===== verification/Memory.v ===== *)
(** * Shared memory between one writer and its readers

    The atomics the concurrent store is built from (the [sync] module of
    crates/carriage/src/concurrent.rs): programs are trees of atomic accesses
    and fences, and memory is the list of messages the single writer has sent,
    each with the view an acquiring reader gets. This is the release/acquire
    fragment of the C11 model with relaxed accesses and fences, specialised to
    one writer: a view is a prefix of the message list. *)
From S2P Require Import Prelude.

(** ** Locations and programs *)

(** The ring's bytes, the three counters, and the lock of the control block. *)
Inductive loc := LByte (phys : usize) | LHead | LOldest | LLost | LSeq.

#[global] Instance loc_eq_dec : EqDecision loc.
Proof. solve_decision. Defined.

(** The counters are [AtomicU64], the lock is an [AtomicU32]. *)
Definition loc_modulus (l : loc) : Z := match l with LSeq => 2 ^ 32 | _ => 2 ^ 64 end.

Inductive ordering := Relaxed | Acquire | Release.

#[global] Instance ordering_eq_dec : EqDecision ordering.
Proof. solve_decision. Defined.

(** A computation that accesses the atomics and returns. A load continues with
    the value read, [fetch_add] with the previous value. *)
Inductive io (E A : Type) : Type :=
| Done (r : res E A)
| Ld (o : ordering) (l : loc) (k : Z → io E A)
| St (o : ordering) (l : loc) (v : Z) (k : io E A)
| FAdd (o : ordering) (l : loc) (v : Z) (k : Z → io E A)
| Fnc (o : ordering) (k : io E A).
Arguments Done {E A} r.
Arguments Ld {E A} o l k.
Arguments St {E A} o l v k.
Arguments FAdd {E A} o l v k.
Arguments Fnc {E A} o k.

(** Run [p], then continue with its value or its error. *)
Fixpoint io_match {E F A B} (p : io E A) (ok : A → io F B) (err : E → io F B) : io F B :=
  match p with
  | Done (Ok a) => ok a
  | Done (Err e) => err e
  | Done Panic => Done Panic
  | Done Diverge => Done Diverge
  | Ld o l k => Ld o l (λ v, io_match (k v) ok err)
  | St o l v k => St o l v (io_match k ok err)
  | FAdd o l v k => FAdd o l v (λ prev, io_match (k prev) ok err)
  | Fnc o k => Fnc o (io_match k ok err)
  end.

#[global] Instance io_bind E : MBind (io E) := λ A B f p, io_match p f (λ e, Done (Err e)).

Definition io_ret {E A} (a : A) : io E A := Done (Ok a).
Definition io_map_err {E F A} (f : E → F) (p : io E A) : io F A :=
  io_match p io_ret (λ e, Done (Err (f e))).

(** ** Messages *)
Record msg := MkMsg { m_loc : loc; m_val : Z; m_view : nat }.

(** Timestamp 0 is the initial zero of every location, [S i] the message at
    position [i]. *)
Definition value_at (mem : list msg) (l : loc) (t : nat) : option Z :=
  match t with
  | O => Some 0
  | S i => match mem !! i with
           | Some m => if decide (m_loc m = l) then Some (m_val m) else None
           | None => None
           end
  end.

Definition view_at (mem : list msg) (t : nat) : nat :=
  match t with O => 0%nat | S i => from_option m_view 0%nat (mem !! i) end.

(** The last timestamp of a location among the first [n] messages. *)
Fixpoint latest (mem : list msg) (n : nat) (l : loc) : nat :=
  match n with
  | O => 0%nat
  | S i => match mem !! i with
           | Some m => if decide (m_loc m = l) then S i else latest mem i l
           | None => latest mem i l
           end
  end.

(** The last value of a location. *)
Definition cur (mem : list msg) (l : loc) : Z := default 0 (value_at mem l (latest mem (length mem) l)).

(** ** The writer *)
Record writer := MkWriter { w_mem : list msg; w_rel : nat }.
Definition writer_init : writer := {| w_mem := []; w_rel := 0 |}.

(** A release store publishes everything before it, a relaxed one what the last
    release fence did. *)
Definition w_store (o : ordering) (l : loc) (v : Z) (w : writer) : writer :=
  {| w_mem := w_mem w ++ [{| m_loc := l; m_val := v;
       m_view := match o with Release => S (length (w_mem w)) | _ => w_rel w end |}];
     w_rel := w_rel w |}.

(** The addition wraps. *)
Definition w_fetch_add (o : ordering) (l : loc) (v : Z) (w : writer) : writer :=
  w_store o l ((cur (w_mem w) l + v) mod loc_modulus l) w.

Definition w_fence (o : ordering) (w : writer) : writer :=
  match o with
  | Release => {| w_mem := w_mem w; w_rel := length (w_mem w) |}
  | _ => w
  end.

(** One access of a writer's program; the writer loads no atomic. *)
Definition w_step {E A} (w : writer) (p : io E A) : option (writer * io E A) :=
  match p with
  | St o l v k => Some (w_store o l v w, k)
  | FAdd o l v k => Some (w_fetch_add o l v w, k (cur (w_mem w) l))
  | Fnc o k => Some (w_fence o w, k)
  | Done _ | Ld _ _ _ => None
  end.

(** ** A reader *)

(** Every message before [rv_cur] is known, [rv_acq] becomes so at the next
    acquire fence, and no location is read older than [rv_seen]. *)
Record rview := MkRview { rv_cur : nat; rv_acq : nat; rv_seen : loc → nat }.
Definition rview_init : rview := {| rv_cur := 0; rv_acq := 0; rv_seen := λ _, 0%nat |}.

(** Under [strong] memory (sequential consistency) a read returns the last
    message; otherwise any that coherence and the view allow. *)
Definition can_read (strong : bool) (mem : list msg) (V : rview) (l : loc) (t : nat) : Prop :=
  if strong then t = latest mem (length mem) l
  else (latest mem (rv_cur V) l ≤ t ∧ rv_seen V l ≤ t)%nat.

#[global] Instance can_read_dec strong mem V l t : Decision (can_read strong mem V l t).
Proof. unfold can_read. destruct strong; apply _. Defined.

Definition after_load (o : ordering) (mem : list msg) (V : rview) (l : loc) (t : nat) : rview :=
  {| rv_cur := match o with Acquire => (rv_cur V `max` view_at mem t)%nat | _ => rv_cur V end;
     rv_acq := (rv_acq V `max` view_at mem t)%nat;
     rv_seen := λ l', if decide (l' = l) then t else rv_seen V l' |}.

Definition after_fence (o : ordering) (V : rview) : rview :=
  match o with
  | Acquire => {| rv_cur := (rv_cur V `max` rv_acq V)%nat; rv_acq := rv_acq V; rv_seen := rv_seen V |}
  | _ => V
  end.

(** One access of a reader's program, reading timestamp [t]. *)
Definition r_step {E A} (strong : bool) (mem : list msg) (V : rview) (p : io E A) (t : nat)
  : option (rview * io E A) :=
  match p with
  | Ld o l k =>
      match value_at mem l t with
      | Some v => if decide (can_read strong mem V l t) then Some (after_load o mem V l t, k v) else None
      | None => None
      end
  | Fnc o k => Some (after_fence o V, k)
  | Done _ | St _ _ _ _ | FAdd _ _ _ _ => None
  end.

(** A reader's program run alone on a memory that does not change. *)
Fixpoint solo {E A} (mem : list msg) (p : io E A) : res E A :=
  match p with
  | Done r => r
  | Ld _ l k => solo mem (k (cur mem l))
  | Fnc _ k => solo mem k
  | St _ _ _ _ | FAdd _ _ _ _ => Panic
  end.

(** ** What a reader's program achieves while the writer goes on

    [wp strong grows p mem V Q]: whatever the program reads, and however memory
    grows in between, its outcome satisfies [Q]. *)
Fixpoint wp {E A} (strong : bool) (grows : list msg → list msg → Prop) (p : io E A)
    (mem : list msg) (V : rview) (Q : list msg → rview → res E A → Prop) : Prop :=
  match p with
  | Done r => Q mem V r
  | Ld o l k => ∀ mem' t v,
      grows mem mem' → value_at mem' l t = Some v → can_read strong mem' V l t →
      wp strong grows (k v) mem' (after_load o mem' V l t) Q
  | Fnc o k => ∀ mem', grows mem mem' → wp strong grows k mem' (after_fence o V) Q
  | St _ _ _ _ | FAdd _ _ _ _ => False
  end.

Section messages.
Context (mem : list msg).

Lemma latest_le n l : (latest mem n l ≤ n)%nat.
Proof. induction n as [|n IH]; cbn; [lia|]. destruct (mem !! n); [case_decide|]; lia. Qed.

Lemma latest_value n l : (n ≤ length mem)%nat → is_Some (value_at mem l (latest mem n l)).
Proof.
  induction n as [|n IH]; intros Hn; cbn [latest]; [by eexists|].
  destruct (lookup_lt_is_Some_2 mem n Hn) as [m Hm]. rewrite Hm. case_decide as Hl; [|apply IH; lia].
  cbn [value_at]. rewrite Hm, decide_True by done. by eexists.
Qed.

Lemma latest_max n l t v : value_at mem l t = Some v → (t ≤ n)%nat → (t ≤ latest mem n l)%nat.
Proof.
  intros Hv. induction n as [|n IH]; intros Ht; cbn [latest]; [lia|].
  destruct (decide (t = S n)) as [->|Hne].
  - cbn [value_at] in Hv. destruct (mem !! n) as [m|]; [|done]. case_decide; [|done]. lia.
  - destruct (mem !! n); [case_decide|]; lia.
Qed.

Lemma latest_mono n n' l : (n ≤ n')%nat → (latest mem n l ≤ latest mem n' l)%nat.
Proof.
  induction 1 as [|n' _ IH]; [done|]. cbn [latest]. pose proof (latest_le n' l).
  destruct (mem !! n'); [case_decide|]; lia.
Qed.

Lemma value_at_le l t v : value_at mem l t = Some v → (t ≤ length mem)%nat.
Proof.
  destruct t as [|i]; cbn; [lia|]. destruct (mem !! i) eqn:Hm; [|done].
  apply lookup_lt_Some in Hm. lia.
Qed.
End messages.

Section growth.
Context (mem mem' : list msg) (Hpre : mem `prefix_of` mem').

Lemma value_at_prefix l t : (t ≤ length mem)%nat → value_at mem' l t = value_at mem l t.
Proof.
  destruct t as [|i]; [done|]. intros Hi. destruct Hpre as [k ->]. cbn. by rewrite lookup_app_l by lia.
Qed.

Lemma value_at_grows l t v : value_at mem l t = Some v → value_at mem' l t = Some v.
Proof. intros Hv. rewrite value_at_prefix; [done|]. by eapply value_at_le. Qed.

Lemma view_at_prefix t : (t ≤ length mem)%nat → view_at mem' t = view_at mem t.
Proof.
  destruct t as [|i]; [done|]. intros Hi. destruct Hpre as [k ->]. cbn. by rewrite lookup_app_l by lia.
Qed.

Lemma latest_prefix n l : (n ≤ length mem)%nat → latest mem' n l = latest mem n l.
Proof.
  induction n as [|n IH]; intros Hn; [done|]. cbn [latest]. rewrite IH by lia.
  destruct Hpre as [k ->]. by rewrite lookup_app_l by lia.
Qed.
End growth.

(** ** Last values *)
Lemma latest_now mem l : value_at mem l (latest mem (length mem) l) = Some (cur mem l).
Proof. unfold cur. destruct (latest_value mem (length mem) l) as [v ->]; done. Qed.

Lemma cur_snoc mem m l : cur (mem ++ [m]) l = if decide (m_loc m = l) then m_val m else cur mem l.
Proof.
  unfold cur at 1. rewrite length_app, Nat.add_1_r. cbn [latest]. rewrite list_lookup_middle by done.
  case_decide as Hl.
  - cbn [value_at]. by rewrite list_lookup_middle, decide_True by done.
  - assert (Hp : mem `prefix_of` mem ++ [m]) by (by apply prefix_app_r).
    rewrite (latest_prefix _ _ Hp) by done. rewrite (value_at_prefix _ _ Hp) by apply latest_le. by rewrite latest_now.
Qed.

Lemma cur_app mem ms l :
  cur (mem ++ ms) l = foldl (λ v m, if decide (m_loc m = l) then m_val m else v) (cur mem l) ms.
Proof.
  induction ms as [|m ms IH] using rev_ind; [by rewrite app_nil_r|].
  by rewrite app_assoc, cur_snoc, foldl_snoc, IH.
Qed.

(** ** Rules for [solo] *)
Lemma solo_match {E F A B} mem (p : io E A) (ok : A → io F B) (err : E → io F B) :
  solo mem (io_match p ok err) =
    match solo mem p with
    | Ok a => solo mem (ok a) | Err e => solo mem (err e) | Panic => Panic | Diverge => Diverge
    end.
Proof. induction p as [[| | |]|o l k IH| | |o k IH]; cbn; auto. Qed.

Lemma solo_bind {E A B} mem (p : io E A) (f : A → io E B) : solo mem (p ≫= f) = (a ← solo mem p; solo mem (f a)).
Proof. unfold mbind at 1, io_bind. rewrite solo_match. by destruct (solo mem p). Qed.

(** Under sequential consistency a program that runs alone computes [solo]. *)
Fixpoint r_steps {E A} (strong : bool) (mem : list msg) (V : rview) (p : io E A) (ts : list nat)
  : option (rview * io E A) :=
  match ts with
  | [] => Some (V, p)
  | t :: ts => '(V, p) ← r_step strong mem V p t; r_steps strong mem V p ts
  end.

(** ** Rules for [wp] *)
Section wp.
Context (strong : bool) (grows : list msg → list msg → Prop).

Lemma wp_match {E F A B} (p : io E A) (ok : A → io F B) (err : E → io F B) mem V Q :
  wp strong grows p mem V (λ mem' V' r, wp strong grows
    (match r with Ok a => ok a | Err e => err e | Panic => Done Panic | Diverge => Done Diverge end) mem' V' Q) →
  wp strong grows (io_match p ok err) mem V Q.
Proof.
  revert mem V. induction p as [[| | |]|o l k IH| | |o k IH]; intros mem V; cbn [io_match wp]; try done.
  - intros H mem' t v Hg Hv Hr. apply IH. by apply H.
  - intros H mem' Hg. apply IH. by apply H.
Qed.

Lemma wp_bind {E A B} (p : io E A) (f : A → io E B) mem V Q :
  wp strong grows p mem V (λ mem' V' r,
    match r with
    | Ok a => wp strong grows (f a) mem' V' Q
    | Err e => Q mem' V' (Err e)
    | Panic => Q mem' V' Panic
    | Diverge => Q mem' V' Diverge
    end) →
  wp strong grows (p ≫= f) mem V Q.
Proof.
  intros H. apply wp_match. revert mem V H.
  induction p as [[| | |]|o l k IH| | |o k IH]; intros mem V; cbn [wp]; try done.
  - intros H mem' t v Hg Hv Hr. apply IH. by apply H.
  - intros H mem' Hg. apply IH. by apply H.
Qed.

Lemma wp_mono {E A} (p : io E A) mem V (Q Q' : _ → _ → res E A → Prop) :
  (∀ mem' V' r, Q mem' V' r → Q' mem' V' r) →
  wp strong grows p mem V Q → wp strong grows p mem V Q'.
Proof.
  intros HQ. revert mem V. induction p as [r|o l k IH| | |o k IH]; intros mem V; cbn [wp]; [apply HQ| |done|done|].
  - intros H mem' t v Hg Hv Hr. apply IH. by apply H.
  - intros H mem' Hg. apply IH. by apply H.
Qed.

Context (Htrans : ∀ m1 m2 m3, grows m1 m2 → grows m2 m3 → grows m1 m3).

Lemma wp_grows {E A} (p : io E A) mem mem' V Q :
  grows mem mem' → (∀ r, p = Done r → Q mem V r → Q mem' V r) →
  wp strong grows p mem V Q → wp strong grows p mem' V Q.
Proof.
  destruct p as [r|o l k| | |o k]; cbn [wp]; intros Hg HQ H; [by apply HQ| |done|done|].
  - intros mem2 t v Hg2. apply H. by eapply Htrans.
  - intros mem2 Hg2. apply H. by eapply Htrans.
Qed.

(** A step of the reader consumes one access of its [wp]. *)
Lemma wp_step {E A} (p : io E A) mem V Q t V' p' :
  grows mem mem → r_step strong mem V p t = Some (V', p') →
  wp strong grows p mem V Q → wp strong grows p' mem V' Q.
Proof.
  intros Hg. destruct p as [r|o l k| | |o k]; cbn [r_step wp]; try done.
  - destruct (value_at mem l t) as [v|] eqn:Hv; [|done]. case_decide as Hr; [|done].
    intros [= <- <-] H. by apply H.
  - intros [= <- <-] H. by apply H.
Qed.
End wp.

Lemma wp_solo {E A} (grows : list msg → list msg → Prop) mem (p : io E A) Q :
  grows mem mem → ∀ V, wp true grows p mem V Q →
  ∃ ts V', r_steps true mem V p ts = Some (V', Done (solo mem p)) ∧ Q mem V' (solo mem p).
Proof.
  intros Hg. induction p as [r|o l k IH| | |o k IH]; intros V Hp; cbn [wp solo] in *; try done.
  - by exists [], V.
  - destruct (IH (cur mem l) (after_load o mem V l (latest mem (length mem) l))) as (ts & V' & Hts & HQ).
    { apply Hp; [done|apply latest_now|done]. }
    exists (latest mem (length mem) l :: ts), V'. cbn [r_steps r_step]. rewrite latest_now.
    by rewrite decide_True by done.
  - destruct (IH (after_fence o V)) as (ts & V' & Hts & HQ); [by apply Hp|]. by exists (0%nat :: ts), V'.
Qed.
