(* ===== verification/Concurrent.v ===== *)
(** * Concurrent ring store (crates/carriage/src/concurrent.rs)

    The store interface, the owned store, the single producer and the raw
    consumer, as programs over the shared memory of [Memory]. *)
From S2P Require Import Prelude Crc Wire Control Layout Ring Memory.

(** ** The store interface *)
Class ConcurrentStore (S : Type) := {
  cs_capacity : S → usize;
  load_byte_relaxed : ∀ {E}, S → usize → io E u8;
  store_byte_relaxed : ∀ {E}, S → usize → u8 → io E unit;
  load_head_acquire : ∀ {E}, S → io E u64;
  store_head_release : ∀ {E}, S → u64 → io E unit;
  load_oldest_acquire : ∀ {E}, S → io E u64;
  load_oldest_relaxed : ∀ {E}, S → io E u64;
  store_oldest_relaxed : ∀ {E}, S → u64 → io E unit;
  fetch_add_lost_release : ∀ {E}, S → u64 → io E unit;
  load_lost_acquire : ∀ {E}, S → io E u64;
  begin_control_update : ∀ {E}, S → io E unit;
  end_control_update_release : ∀ {E}, S → io E unit;
  read_control_snapshot : S → io ControlBlockError ControlBlockSnapshot;
  read_oldest_after_record : S → io ControlBlockError u64;
  release_before_clobber : ∀ {E}, S → io E unit;
  acquire_before_recheck : ∀ {E}, S → io E unit;
}.

(** The default methods of the trait. *)
Definition default_begin_control_update {E} : io E unit := io_ret tt.
Definition default_end_control_update_release {E} : io E unit := io_ret tt.
Definition default_release_before_clobber {E} : io E unit := Fnc Release (io_ret tt).
Definition default_acquire_before_recheck {E} : io E unit := Fnc Acquire (io_ret tt).

(** ** The owned store

    Its atomics live in the shared memory; what is left is the capacity. *)
Record ConcurrentRing := MkConcurrentRing { cr_capacity : usize }.

Definition concurrent_ring_new {E} (capacity : usize) : res E ConcurrentRing :=
  if decide (0 < capacity)%nat then Ok {| cr_capacity := capacity |} else Panic.

Definition cr_head_abs {E} (r : ConcurrentRing) : io E u64 := Ld Acquire LHead io_ret.
Definition cr_oldest_abs {E} (r : ConcurrentRing) : io E u64 := Ld Acquire LOldest io_ret.
Definition cr_lost_count {E} (r : ConcurrentRing) : io E u64 := Ld Acquire LLost io_ret.

Record OwnedConcurrentStore := MkOwnedConcurrentStore { ocs_ring : ConcurrentRing }.

Definition ocs_new (ring : ConcurrentRing) : OwnedConcurrentStore := {| ocs_ring := ring |}.

Definition ocs_capacity (s : OwnedConcurrentStore) : usize := cr_capacity (ocs_ring s).

(** [self.ring.bytes[phys]] panics out of range. *)
Definition ocs_load_byte_relaxed {E} (s : OwnedConcurrentStore) (phys : usize) : io E u8 :=
  if decide (phys < ocs_capacity s)%nat then Ld Relaxed (LByte phys) io_ret else Done Panic.
Definition ocs_store_byte_relaxed {E} (s : OwnedConcurrentStore) (phys : usize) (value : u8) : io E unit :=
  if decide (phys < ocs_capacity s)%nat then St Relaxed (LByte phys) value (io_ret tt) else Done Panic.
Definition ocs_load_head_acquire {E} (s : OwnedConcurrentStore) : io E u64 := Ld Acquire LHead io_ret.
Definition ocs_store_head_release {E} (s : OwnedConcurrentStore) (value : u64) : io E unit :=
  St Release LHead value (io_ret tt).
Definition ocs_load_oldest_acquire {E} (s : OwnedConcurrentStore) : io E u64 := Ld Acquire LOldest io_ret.
Definition ocs_load_oldest_relaxed {E} (s : OwnedConcurrentStore) : io E u64 := Ld Relaxed LOldest io_ret.
Definition ocs_store_oldest_relaxed {E} (s : OwnedConcurrentStore) (value : u64) : io E unit :=
  St Relaxed LOldest value (io_ret tt).
Definition ocs_fetch_add_lost_release {E} (s : OwnedConcurrentStore) (value : u64) : io E unit :=
  FAdd Release LLost value (λ _, io_ret tt).
Definition ocs_load_lost_acquire {E} (s : OwnedConcurrentStore) : io E u64 := Ld Acquire LLost io_ret.

(** [u32::try_from(capacity).unwrap_or(u32::MAX)]. *)
Definition u32_or_max (n : usize) : u32 :=
  if decide (Z.of_nat n < 2 ^ 32) then Z.of_nat n else 2 ^ 32 - 1.

(** The fields are loaded one by one, in the order they are written. *)
Definition ocs_read_control_snapshot (s : OwnedConcurrentStore) : io ControlBlockError ControlBlockSnapshot :=
  head_abs ← ocs_load_head_acquire s;
  oldest_abs ← ocs_load_oldest_acquire s;
  lost_count ← ocs_load_lost_acquire s;
  io_ret {| cb_version := 2; cb_caps := 0; cb_buffer_id := DEFAULT_BUFFER_ID;
            cb_buffer_bytes := u32_or_max (ocs_capacity s); cb_head_abs := head_abs;
            cb_oldest_abs := oldest_abs; cb_lost_count := lost_count; cb_run_id := 0; cb_epoch_id := 0;
            cb_epoch_first_abs := 0; cb_definition_hash := replicate 8 0;
            cb_prev_definition_hash := replicate 8 0 |}.

#[global] Instance owned_store : ConcurrentStore OwnedConcurrentStore := {|
  cs_capacity := ocs_capacity;
  load_byte_relaxed := @ocs_load_byte_relaxed;
  store_byte_relaxed := @ocs_store_byte_relaxed;
  load_head_acquire := @ocs_load_head_acquire;
  store_head_release := @ocs_store_head_release;
  load_oldest_acquire := @ocs_load_oldest_acquire;
  load_oldest_relaxed := @ocs_load_oldest_relaxed;
  store_oldest_relaxed := @ocs_store_oldest_relaxed;
  fetch_add_lost_release := @ocs_fetch_add_lost_release;
  load_lost_acquire := @ocs_load_lost_acquire;
  begin_control_update := λ E _, default_begin_control_update;
  end_control_update_release := λ E _, default_end_control_update_release;
  read_control_snapshot := ocs_read_control_snapshot;
  read_oldest_after_record := λ s, ocs_load_oldest_relaxed s;
  release_before_clobber := λ E _, default_release_before_clobber;
  acquire_before_recheck := λ E _, default_acquire_before_recheck;
|}.

(** ** Reading *)
Section reader.
Context {BP : BuildProfile} {S : Type} `{ConcurrentStore S}.

Definition cs_physical_offset {E} (store : S) (abs : u64) : res E usize :=
  if decide (cs_capacity store = 0)%nat then Panic
  else Ok (Z.to_nat (abs mod Z.of_nat (cs_capacity store))).

(** [for i in 0..total_len { bytes.push(store.load_byte_relaxed(phys + i)) }]. *)
Fixpoint load_bytes {E} (store : S) (phys : usize) (n : nat) : io E bytes :=
  match n with
  | O => io_ret []
  | Datatypes.S n =>
      b ← load_byte_relaxed store phys;
      bs ← load_bytes store (phys + 1)%nat n;
      io_ret (b :: bs)
  end.

(** One record at [abs]: its end and the record, after the overwrite check. *)
Definition read_store_record (store : S) (abs : u64) (phys : usize) : io RingError (nat * ReadRecord) :=
  if decide (cs_capacity store < phys + HEADER_LEN)%nat then Done (Err (RecordCrossesBoundary abs)) else
  sync ← load_bytes store phys 4;
  if decide (sync ≠ SYNC) then Done (Err (RingWire WrongSync)) else
  len ← load_bytes store (phys + 4)%nat 2;
  let total_len := Z.to_nat (from_le_bytes len) in
  if decide (total_len < HEADER_LEN)%nat
  then Done (Err (RingWire (InvalidLength total_len (cs_capacity store - phys)%nat))) else
  if decide (cs_capacity store < phys + total_len)%nat then Done (Err (RecordCrossesBoundary abs)) else
  bs ← load_bytes store phys total_len;
  _ ← acquire_before_recheck store;
  oldest_after ← io_map_err RingControlBlock (read_oldest_after_record store);
  if decide (abs < oldest_after) then Done (Err (OverwrittenMidRead abs oldest_after)) else
  decoded ← Done (map_err RingWire (decode bs));
  end_abs ← Done (add64 abs (Z.of_nat (dec_consumed decoded)));
  io_ret (total_len, {| rr_start_abs := abs; rr_end_abs := end_abs; rr_record := dec_record decoded |}).

(** The [while abs < head_abs] loop. *)
Fixpoint store_loop (fuel : nat) (store : S) (head_abs first_oldest abs : u64) (records : list ReadRecord)
  : io RingError (list ReadRecord) :=
  if decide (abs < head_abs) then
    match fuel with
    | O => Done Diverge
    | Datatypes.S fuel =>
        if decide (abs < first_oldest) then Done (Err (OverwrittenMidRead abs first_oldest)) else
        phys ← Done (cs_physical_offset store abs);
        first ← load_byte_relaxed store phys;
        if decide (first = 0) then
          if decide (phys = 0)%nat then Done (Err (UnexpectedWrapMarker abs)) else
          abs ← Done (add64 abs (Z.of_nat (cs_capacity store - phys)));
          store_loop fuel store head_abs first_oldest abs records
        else
          '(total_len, record) ← read_store_record store abs phys;
          abs ← Done (add64 abs (Z.of_nat total_len));
          store_loop fuel store head_abs first_oldest abs (records ++ [record])
    end
  else io_ret records.

Definition read_raw_from_store (store : S) (cursor_abs : u64) : io RingError ReadBatch :=
  snapshot ← io_map_err RingControlBlock (read_control_snapshot store);
  let snapshot_bytes := Z.to_nat (cb_buffer_bytes snapshot) in
  if decide (snapshot_bytes ≠ cs_capacity store)
  then Done (Err (ControlBlockCapacityMismatch (cb_buffer_bytes snapshot) (cs_capacity store))) else
  let first_oldest := cb_oldest_abs snapshot in
  let head_abs := cb_head_abs snapshot in
  let lapped := bool_decide (cursor_abs < first_oldest) in
  let abs := if lapped then first_oldest else cursor_abs in
  records ← store_loop (Z.to_nat (head_abs - abs)) store head_abs first_oldest abs [];
  final_oldest ← load_oldest_acquire store;
  if decide (final_oldest ≠ first_oldest ∧ cursor_abs < final_oldest)
  then Done (Err (OverwrittenMidRead cursor_abs final_oldest)) else
  io_ret {| rb_records := records; rb_next_abs := head_abs; rb_lapped := lapped |}.
End reader.

(** ** The producer *)
Record ConcurrentProducer (S : Type) := MkConcurrentProducer {
  cp_store : S;
  cp_spans : list (u64 * u64);
  cp_head_abs : u64;
}.
Arguments MkConcurrentProducer {S} _ _ _.
Arguments cp_store {S} _.
Arguments cp_spans {S} _.
Arguments cp_head_abs {S} _.

Section producer.
Context {BP : BuildProfile} {S : Type} `{ConcurrentStore S}.

Definition cp_with_store (store : S) : ConcurrentProducer S :=
  {| cp_store := store; cp_spans := []; cp_head_abs := 0 |}.

Definition next_start_abs {E} (p : ConcurrentProducer S) (encoded_len : usize) : res E u64 :=
  let capacity := cs_capacity (cp_store p) in
  start_phys ← cs_physical_offset (cp_store p) (cp_head_abs p);
  if decide (start_phys = 0 ∨ start_phys + encoded_len ≤ capacity)%nat then Ok (cp_head_abs p)
  else add64 (cp_head_abs p) (Z.of_nat (capacity - start_phys)).

(** The [while] loop of [evict_before_clobber]. *)
Fixpoint evict_spans {E} (retention_floor : u64) (spans : list (u64 * u64)) (evicted : u64)
  : res E (list (u64 * u64) * u64) :=
  match spans with
  | (start_abs, end_abs) :: rest =>
      if decide (start_abs < retention_floor) then
        evicted ← add64 evicted 1;
        evict_spans retention_floor rest evicted
      else Ok (spans, evicted)
  | [] => Ok ([], evicted)
  end.

Definition cp_evict_before_clobber {E} (p : ConcurrentProducer S) (final_head next_record_start : u64)
  : io E (ConcurrentProducer S) :=
  let retention_floor := saturating_sub64 final_head (Z.of_nat (cs_capacity (cp_store p))) in
  '(spans, evicted) ← Done (evict_spans retention_floor (cp_spans p) 0);
  _ ← (if decide (0 < evicted) then fetch_add_lost_release (cp_store p) evicted else io_ret tt);
  _ ← store_oldest_relaxed (cp_store p) (from_option fst next_record_start (head spans));
  _ ← release_before_clobber (cp_store p);
  io_ret {| cp_store := cp_store p; cp_spans := spans; cp_head_abs := cp_head_abs p |}.

(** [for (i, byte) in bytes.iter().enumerate() { .. }]. *)
Fixpoint store_bytes {E} (store : S) (phys : usize) (bs : bytes) : io E unit :=
  match bs with
  | [] => io_ret tt
  | b :: bs => _ ← store_byte_relaxed store phys b; store_bytes store (phys + 1)%nat bs
  end.

Definition append_bytes_core {E} (p : ConcurrentProducer S) (bs : bytes) : io E (ConcurrentProducer S) :=
  _ ← Done (debug_assert (bool_decide (length bs ≤ cs_capacity (cp_store p))%nat));
  start_phys ← Done (cs_physical_offset (cp_store p) (cp_head_abs p));
  record_start_abs ← Done (next_start_abs p (length bs));
  final_head ← Done (add64 record_start_abs (Z.of_nat (length bs)));
  _ ← begin_control_update (cp_store p);
  p ← cp_evict_before_clobber p final_head record_start_abs;
  _ ← (if decide (record_start_abs ≠ cp_head_abs p)
       then store_byte_relaxed (cp_store p) start_phys 0 else io_ret tt);
  record_start ← Done (cs_physical_offset (cp_store p) record_start_abs);
  _ ← store_bytes (cp_store p) record_start bs;
  _ ← store_head_release (cp_store p) final_head;
  _ ← end_control_update_release (cp_store p);
  io_ret {| cp_store := cp_store p; cp_spans := cp_spans p ++ [(record_start_abs, final_head)];
            cp_head_abs := final_head |}.

Definition cp_write_record (p : ConcurrentProducer S) (record : WireRecord)
  : io RingError (ConcurrentProducer S) :=
  encoded ← Done (map_err RingWire (encode record true));
  let capacity := cs_capacity (cp_store p) in
  if decide (capacity < length encoded)%nat
  then Done (Err (RecordExceedsCapacity (length encoded) capacity)) else
  append_bytes_core p encoded.

Definition append_encoded (p : ConcurrentProducer S) (bs : bytes) : io RingError (ConcurrentProducer S) :=
  if decide (length bs < HEADER_LEN)%nat then
    match validate_record bs with
    | Err e => Done (Err (RingWire e))
    | Ok _ => Done Panic
    | Panic => Done Panic
    | Diverge => Done Diverge
    end
  else
  flags ← Done (b6 ← index bs 6; b7 ← index bs 7; Ok (from_le_bytes [b6; b7]));
  if negb (has_crc flags) then Done (Err (EncodedRecordMissingCrc flags)) else
  consumed ← Done (map_err RingWire (validate_record bs));
  if decide (consumed ≠ length bs)
  then Done (Err (EncodedRecordLengthMismatch consumed (length bs))) else
  let capacity := cs_capacity (cp_store p) in
  if decide (capacity < length bs)%nat
  then Done (Err (RecordExceedsCapacity (length bs) capacity)) else
  append_bytes_core p bs.
End producer.

Definition cp_new (ring : ConcurrentRing) : ConcurrentProducer OwnedConcurrentStore := cp_with_store (ocs_new ring).

(** ** The consumer *)
Record ConcurrentRawConsumer (S : Type) := MkConcurrentRawConsumer {
  cc_store : S;
  cc_cursor_abs : u64;
  cc_lapped_batches : u64;
  cc_overwritten_retries : u64;
  cc_rejected_records : u64;
}.
Arguments MkConcurrentRawConsumer {S} _ _ _ _ _.
Arguments cc_store {S} _.
Arguments cc_cursor_abs {S} _.
Arguments cc_lapped_batches {S} _.
Arguments cc_overwritten_retries {S} _.
Arguments cc_rejected_records {S} _.

Section consumer.
Context {BP : BuildProfile} {S : Type} `{ConcurrentStore S}.

Definition cc_with_store (store : S) : ConcurrentRawConsumer S :=
  {| cc_store := store; cc_cursor_abs := 0; cc_lapped_batches := 0; cc_overwritten_retries := 0;
     cc_rejected_records := 0 |}.

(** An outcome of [poll(&mut self)]: the consumer it leaves and the result. *)
Definition poll (c : ConcurrentRawConsumer S)
  : io RingError (ConcurrentRawConsumer S * (ReadBatch + RingError)) :=
  io_match (read_raw_from_store (cc_store c) (cc_cursor_abs c))
    (λ batch,
      lapped_batches ← Done (if rb_lapped batch then add64 (cc_lapped_batches c) 1
                             else Ok (cc_lapped_batches c));
      io_ret ({| cc_store := cc_store c; cc_cursor_abs := rb_next_abs batch;
                 cc_lapped_batches := lapped_batches;
                 cc_overwritten_retries := cc_overwritten_retries c;
                 cc_rejected_records := cc_rejected_records c |}, inl batch))
    (λ error,
      match error with
      | OverwrittenMidRead _ oldest_abs =>
          retries ← Done (add64 (cc_overwritten_retries c) 1);
          io_ret ({| cc_store := cc_store c; cc_cursor_abs := oldest_abs;
                     cc_lapped_batches := cc_lapped_batches c; cc_overwritten_retries := retries;
                     cc_rejected_records := cc_rejected_records c |},
                  inl {| rb_records := []; rb_next_abs := oldest_abs; rb_lapped := true |})
      | RingControlBlock _ =>
          retries ← Done (add64 (cc_overwritten_retries c) 1);
          io_ret ({| cc_store := cc_store c; cc_cursor_abs := cc_cursor_abs c;
                     cc_lapped_batches := cc_lapped_batches c; cc_overwritten_retries := retries;
                     cc_rejected_records := cc_rejected_records c |},
                  inl {| rb_records := []; rb_next_abs := cc_cursor_abs c; rb_lapped := false |})
      | RingWire _ =>
          oldest ← load_oldest_acquire (cc_store c);
          if decide (cc_cursor_abs c < oldest) then
            rejected ← Done (add64 (cc_rejected_records c) 1);
            io_ret ({| cc_store := cc_store c; cc_cursor_abs := oldest;
                       cc_lapped_batches := cc_lapped_batches c;
                       cc_overwritten_retries := cc_overwritten_retries c;
                       cc_rejected_records := rejected |},
                    inl {| rb_records := []; rb_next_abs := oldest; rb_lapped := true |})
          else io_ret (c, inr error)
      | _ => io_ret (c, inr error)
      end).
Definition cc_head_abs {E} (c : ConcurrentRawConsumer S) : io E u64 := load_head_acquire (cc_store c).
End consumer.

Definition cc_new (ring : ConcurrentRing) : ConcurrentRawConsumer OwnedConcurrentStore := cc_with_store (ocs_new ring).

(** ** Appending bytes that are already encoded *)
Section encoded.
Context {BP : BuildProfile}.

Lemma encoded_flags {E} bs :
  (40 ≤ length bs)%nat →
  (b6 ← index bs 6; b7 ← index bs 7; Ok (E:=E) (from_le_bytes [b6; b7])) = Ok (frame_flags bs).
Proof.
  intros Hl. destruct (lookup_lt_is_Some_2 bs 6) as [b6 H6]; [lia|].
  destruct (lookup_lt_is_Some_2 bs 7) as [b7 H7]; [lia|].
  rewrite (index_ok _ _ _ H6), (index_ok _ _ _ H7), !ok_bind. unfold frame_flags.
  by rewrite (seg_S _ _ _ _ H6), (seg_S _ _ _ _ H7).
Qed.

(** Validation fails with the error decoding fails with. *)
Lemma validate_decode bs :
  bytes_ok bs →
  (∃ e, validate_record bs = Err e ∧ decode bs = Err e) ∨
  ∃ d, validate_record bs = Ok (dec_consumed d) ∧ decode bs = Ok d ∧ rec_flags (dec_record d) = frame_flags bs.
Proof.
  intros Hok. pose proof (validate_returns bs) as Hr. destruct (validate_record bs) as [n|e| |] eqn:Hv; try done.
  - right. pose proof Hv as Hf. apply validate_Ok in Hf. destruct (frame_slots _ _ Hok Hf) as (slots & _ & _ & Hs).
    rewrite (decode_frame _ _ _ Hf Hs).
    eexists. split; [|split; [reflexivity|done]]. done.
  - left. exists e. split; [done|]. unfold decode. by rewrite Hv.
Qed.

(** [append_encoded] on every input: bytes that are not exactly one
    CRC-protected record are refused, before any access to the store, with the
    error of the first failing check; otherwise it is [write_record] of the
    record the bytes decode to, and stores exactly these bytes. It never
    panics before the append. *)
Theorem append_encoded_writes {S} `{ConcurrentStore S} (p : ConcurrentProducer S) bs :
  bytes_ok bs →
  append_encoded p bs =
    (if decide (length bs < HEADER_LEN)%nat then Done (Err (RingWire (Truncated HEADER_LEN (length bs)))) else
    if has_crc (frame_flags bs) then
      match decode bs with
      | Ok d => if decide (dec_consumed d = length bs) then cp_write_record p (dec_record d)
                else Done (Err (EncodedRecordLengthMismatch (dec_consumed d) (length bs)))
      | Err e => Done (Err (RingWire e))
      | _ => Done Panic
      end
    else Done (Err (EncodedRecordMissingCrc (frame_flags bs))))
  ∧ returns (decode bs)
  ∧ ∀ d, decode bs = Ok d → has_crc (frame_flags bs) = true → dec_consumed d = length bs →
      encode (dec_record d) true = Ok bs.
Proof.
  intros Hok.
  assert (Henc : ∀ d, decode bs = Ok d → has_crc (frame_flags bs) = true → dec_consumed d = length bs →
    encode (dec_record d) true = Ok bs).
  { intros d Hd Hc Hl. destruct (validate_decode bs Hok) as [(e & _ & He)|(d' & _ & Hd' & Hf)]; [congruence|].
    assert (d' = d) as -> by congruence. destruct (decode_canonical bs d Hok Hd) as [_ He].
    by rewrite Hf, Hc, Hl, take_ge in He by lia. }
  split_and!; [|by apply decode_total|exact Henc]. unfold append_encoded.
  case_decide as Hlen; [unfold validate_record; by rewrite decide_True|]. unfold HEADER_LEN in Hlen.
  rewrite encoded_flags by lia. cbn [mbind io_bind io_match].
  destruct (has_crc (frame_flags bs)) eqn:Hc; [|done]. cbn [negb].
  destruct (validate_decode bs Hok) as [(e & -> & ->)|(d & -> & Hd & _)]; [done|]. rewrite Hd.
  cbn [map_err io_match]. destruct (decide (dec_consumed d = length bs)) as [He|He];
    [rewrite decide_False by tauto|by rewrite decide_True by done].
  unfold cp_write_record. rewrite (Henc d Hd eq_refl He). done.
Qed.

End encoded.

Lemma append_encoded_writes_witness :
  let bs := enc_record (record_new 7 1 2 3 4) true in
  append_encoded (BP:=dev_profile) (cp_new {| cr_capacity := 100 |}) bs
  = cp_write_record (BP:=dev_profile) (cp_new {| cr_capacity := 100 |}) (with_flags (record_new 7 1 2 3 4) 8).
Proof.
  cbv zeta. rewrite (proj1 (append_encoded_writes (BP:=dev_profile) (cp_new {| cr_capacity := 100 |})
    (enc_record (record_new 7 1 2 3 4) true) ltac:(by_compute))).
  rewrite decide_False by (vm_compute; lia).
  replace (decode (enc_record (record_new 7 1 2 3 4) true)) with
    (Ok (E:=WireError) {| dec_record := with_flags (record_new 7 1 2 3 4) 8; dec_consumed := 44%nat |})
    by (vm_compute; reflexivity).
  reflexivity.
Defined.
