(* ===== verification/ConcurrentWriter.v ===== *)
(** * The concurrent producer (crates/carriage/src/concurrent.rs)

    What one append of [Concurrent] sends to memory, that it is the append of
    the single-buffer ring, and the facts about the resulting message list that
    a reader relies on. *)
From S2P Require Import Prelude Crc Wire Control Layout Ring Memory Concurrent.

(** ** Writer programs as access lists

    [WFAdd] may assert something of the value it replaces. *)
Inductive wop :=
| WSt (o : ordering) (l : loc) (v : Z)
| WFAdd (o : ordering) (l : loc) (v : Z) (expect : Z → bool)
| WFnc (o : ordering).

(** [p] makes the accesses [ops] and goes on as [k], if its assertions hold. *)
Fixpoint emits {E A} (ops : list wop) (p k : io E A) : Prop :=
  match ops with
  | [] => p = k
  | WSt o l v :: ops => ∃ q, p = St o l v q ∧ emits ops q k
  | WFAdd o l v expect :: ops => ∃ q, p = FAdd o l v q ∧ ∀ prev, expect prev = true → emits ops (q prev) k
  | WFnc o :: ops => ∃ q, p = Fnc o q ∧ emits ops q k
  end.

Definition w_op (w : writer) (op : wop) : writer :=
  match op with
  | WSt o l v => w_store o l v w
  | WFAdd o l v _ => w_fetch_add o l v w
  | WFnc o => w_fence o w
  end.

Definition w_ops (ops : list wop) (w : writer) : writer := foldl w_op w ops.

(** The assertions hold. *)
Definition op_ok (w : writer) (op : wop) : Prop :=
  match op with WFAdd _ l _ expect => expect (cur (w_mem w) l) = true | _ => True end.
Fixpoint ops_ok (w : writer) (ops : list wop) : Prop :=
  match ops with [] => True | op :: ops => op_ok w op ∧ ops_ok (w_op w op) ops end.

Lemma w_step_emits {E A} op ops (p k : io E A) w :
  emits (op :: ops) p k → op_ok w op → ∃ q, w_step w p = Some (w_op w op, q) ∧ emits ops q k.
Proof.
  destruct op as [o l v|o l v expect|o]; cbn [emits op_ok]; [intros (q & -> & Hq) _|intros (q & -> & Hq) Hx|intros (q & -> & Hq) _];
    (eexists; split; [reflexivity|]); auto.
Qed.

Lemma emits_app {E A} ops1 ops2 (q k : io E A) : ∀ p, emits ops1 p q → emits ops2 q k → emits (ops1 ++ ops2) p k.
Proof.
  induction ops1 as [|[o l v|o l v expect|o] ops IH]; intros p; cbn; [by intros ->|..];
    intros (p' & -> & Hp) Hq; exists p'; split; auto.
Qed.

Lemma emits_bind {E A B} ops (k : io E A) (f : A → io E B) : ∀ p, emits ops p k → emits ops (p ≫= f) (k ≫= f).
Proof.
  induction ops as [|[o l v|o l v expect|o] ops IH]; intros p; cbn [emits]; [by intros ->|..];
    intros (p' & -> & Hp); (eexists; split; [reflexivity|]); intros; apply IH; auto.
Qed.

Lemma ops_ok_app ops1 ops2 : ∀ w, ops_ok w (ops1 ++ ops2) ↔ ops_ok w ops1 ∧ ops_ok (w_ops ops1 w) ops2.
Proof.
  induction ops1 as [|op ops1 IH]; intros w; [cbn; tauto|]. cbn [app ops_ok]. rewrite IH. unfold w_ops. cbn [foldl]. tauto.
Qed.

Lemma ops_ok_plain ops : Forall (λ op, ∀ w, op_ok w op) ops → ∀ w, ops_ok w ops.
Proof. induction 1 as [|op ops Hop _ IH]; intros w; split; [apply Hop|apply IH]. Qed.

Lemma w_ops_app ops1 ops2 w : w_ops (ops1 ++ ops2) w = w_ops ops2 (w_ops ops1 w).
Proof. apply foldl_app. Qed.

Lemma w_ops_prefix ops : ∀ w, w_mem w `prefix_of` w_mem (w_ops ops w).
Proof.
  induction ops as [|op ops IH]; intros w; [done|]. unfold w_ops in *. cbn [foldl].
  etrans; [|apply IH]. destruct op as [o l v|o l v x|[]]; cbn; try done; by eexists.
Qed.

(** ** One append *)

(** The cells an append writes, in order: the wrap marker, if any, and the record. *)
Definition byte_cells (p : nat) (bs : bytes) : list (nat * Z) := imap (λ i b, ((p + i)%nat, b)) bs.

Definition gap_cells (a : AbsRing) (rec : WireRecord) : list (nat * Z) :=
  if decide (en_start (placed a rec) ≠ ab_head a) then [(phys (ab_cap a) (ab_head a), 0)] else [].

Definition cells (a : AbsRing) (rec : WireRecord) : list (nat * Z) :=
  gap_cells a rec ++ byte_cells (phys (ab_cap a) (en_start (placed a rec))) (en_bytes (placed a rec)).

Definition cell_op (c : nat * Z) : wop := WSt Relaxed (LByte c.1) c.2.

Definition lost_ops (a : AbsRing) (rec : WireRecord) : list wop :=
  let n := Z.of_nat (length (evicted a rec)) in if decide (0 < n) then [WFAdd Release LLost n (λ _, true)] else [].

(** The accesses of an append that turns [a] into [abs_write a rec]. *)
Definition core_ops (a : AbsRing) (rec : WireRecord) : list wop :=
  lost_ops a rec
  ++ [WSt Relaxed LOldest (ab_oldest (abs_write a rec)); WFnc Release]
  ++ (cell_op <$> cells a rec)
  ++ [WSt Release LHead (en_end (placed a rec))].

(** Whether a store brackets an append with the lock of its control block. *)
Class Sequenced := sequenced : bool.

Section brackets.
Context {SQ : Sequenced}.

(** [n] appends do not wrap the lock. *)
Definition lock_room (n : nat) : Prop := sequenced = true → 2 * Z.of_nat n < 2 ^ 32.
#[global] Instance lock_room_dec n : Decision (lock_room n).
Proof. unfold lock_room. apply _. Defined.

Definition begin_ops : list wop :=
  if sequenced then [WFAdd Relaxed LSeq 1 Z.even; WFnc Release] else [].
Definition end_ops : list wop := if sequenced then [WFAdd Release LSeq 1 Z.odd] else [].
Definition append_ops (a : AbsRing) (rec : WireRecord) : list wop := begin_ops ++ core_ops a rec ++ end_ops.
End brackets.

(** ** What the protocol needs of a store *)

(** The methods other than the snapshot are the accesses of the protocol, on
    the stores in good order. *)
Class StoreLaws (S : Type) {CS : ConcurrentStore S} {SQ : Sequenced} := {
  lawful : S → Prop;
  law_load_byte {E} s p : lawful s → (p < cs_capacity s)%nat →
    load_byte_relaxed (E:=E) s p = Ld Relaxed (LByte p) io_ret;
  law_store_byte {E} s p v : lawful s → (p < cs_capacity s)%nat →
    store_byte_relaxed (E:=E) s p v = St Relaxed (LByte p) v (io_ret tt);
  law_store_head {E} s v : lawful s → store_head_release (E:=E) s v = St Release LHead v (io_ret tt);
  law_load_oldest {E} s : lawful s → load_oldest_acquire (E:=E) s = Ld Acquire LOldest io_ret;
  law_store_oldest {E} s v : lawful s → store_oldest_relaxed (E:=E) s v = St Relaxed LOldest v (io_ret tt);
  law_fetch_add_lost {E} s v : lawful s → fetch_add_lost_release (E:=E) s v = FAdd Release LLost v (λ _, io_ret tt);
  law_begin {E} s : lawful s → emits begin_ops (begin_control_update (E:=E) s) (io_ret tt);
  law_end {E} s : lawful s → emits end_ops (end_control_update_release (E:=E) s) (io_ret tt);
  law_release {E} s : lawful s → release_before_clobber (E:=E) s = Fnc Release (io_ret tt);
  law_acquire {E} s : lawful s → acquire_before_recheck (E:=E) s = Fnc Acquire (io_ret tt);
  law_oldest_after s : lawful s → read_oldest_after_record s = Ld Relaxed LOldest io_ret;
}.

Definition span (e : Entry) : u64 * u64 := (en_start e, en_end e).

(** The producer's own fields stand for the abstract ring. *)
Record prod_rep {S : Type} {CS : ConcurrentStore S} (p : ConcurrentProducer S) (a : AbsRing) : Prop := {
  pr_cap : cs_capacity (cp_store p) = ab_cap a;
  pr_spans : cp_spans p = span <$> ab_live a;
  pr_head : cp_head_abs p = ab_head a;
}.

Section append.
Context {BP : BuildProfile} {SQ : Sequenced} {S : Type} {CS : ConcurrentStore S} {SL : StoreLaws S}.

Lemma evict_spans_spec {E} floor live n :
  StronglySorted (λ x y, en_start x ≤ en_start y) live → 0 ≤ n →
  n + Z.of_nat (length live) < 2 ^ 64 →
  evict_spans (E:=E) floor (span <$> live) n =
    Ok (span <$> filter (λ x, ¬ en_start x < floor) live,
        n + Z.of_nat (length (filter (λ x, en_start x < floor) live))).
Proof.
  intros Hs. revert n. induction Hs as [|x l Hl IH Hx]; intros n Hn Hb; cbn [fmap list_fmap evict_spans span].
  { by rewrite Z.add_0_r. }
  cbn [length] in Hb. case_decide as Hf.
  - rewrite add_w_ok, ok_bind, IH by lia. rewrite !filter_cons, (decide_True (P := en_start x < floor)), decide_False by lia.
    cbn [length]. do 2 f_equal. lia.
  - destruct (take_filter_sorted en_start floor x l Hf Hx) as [H1 H2].
    rewrite !filter_cons, (decide_False (P := en_start x < floor)), decide_True, H1, H2 by done. cbn. by rewrite Z.add_0_r.
Qed.

Lemma store_bytes_emits {E} (s : S) (Hs : lawful s) bs : ∀ p,
  (p + length bs ≤ cs_capacity s)%nat → emits (cell_op <$> byte_cells p bs) (store_bytes (E:=E) s p bs) (io_ret tt).
Proof.
  induction bs as [|b bs IH]; intros p Hp; [done|]. cbn [length] in Hp. cbn [store_bytes]. rewrite law_store_byte by (done || lia).
  unfold byte_cells. cbn [imap]. rewrite fmap_cons, Nat.add_0_r. eexists. split; [reflexivity|].
  cbn [io_match io_ret]. replace (imap _ bs) with (byte_cells (p + 1) bs); [apply IH; lia|].
  apply imap_ext. intros i x _. cbn. f_equal. lia.
Qed.

Lemma cs_physical_offset_ok {E} (s : S) x :
  (0 < cs_capacity s)%nat → cs_physical_offset (E:=E) s x = Ok (phys (cs_capacity s) x).
Proof. intros. unfold cs_physical_offset. by rewrite decide_False by lia. Qed.

Context (p : ConcurrentProducer S) (Hlaw : lawful (cp_store p)) (r : RingBuffer) (a : AbsRing) (rec : WireRecord).
Context (Hp : prod_rep p a) (Hrep : ring_rep r a) (Hfit : fits_ring (ab_cap a) rec).
Context (Hroom : ab_head a + 2 * Z.of_nat (ab_cap a) < 2 ^ 64).

Lemma next_start_abs_ok {E} :
  next_start_abs (E:=E) p (length (enc_record rec true)) = Ok (en_start (placed a rec)).
Proof.
  pose proof (rep_pos _ _ Hrep). destruct Hfit as [_ Hl].
  unfold next_start_abs. rewrite (pr_head _ _ Hp), cs_physical_offset_ok, ok_bind
    by (rewrite (pr_cap _ _ Hp); lia). rewrite (pr_cap _ _ Hp). cbn [en_start placed]. unfold place.
  case_decide; [done|]. apply add_w_ok. pose proof (phys_lt _ (rep_pos _ _ Hrep) (ab_head a)). lia.
Qed.

Definition appended : ConcurrentProducer S :=
  {| cp_store := cp_store p; cp_spans := span <$> (kept a rec ++ [placed a rec]);
     cp_head_abs := en_end (placed a rec) |}.

Lemma appended_rep : prod_rep appended (abs_write a rec).
Proof. split; [apply (pr_cap _ _ Hp)|by rewrite abs_write_eq|done]. Qed.

Lemma bounds :
  0 ≤ ab_head a ≤ en_start (placed a rec) ∧ en_start (placed a rec) + Z.of_nat (length (enc_record rec true)) < 2 ^ 64
  ∧ (phys (ab_cap a) (en_start (placed a rec)) + length (enc_record rec true) ≤ ab_cap a)%nat.
Proof.
  destruct Hfit as [Hw Hl]. pose proof (placed_bounds _ _ _ Hrep Hw Hl) as Hb.
  destruct (place_spec (ab_cap a) (rep_pos _ _ Hrep) (ab_head a) _ Hl) as (_ & Hin & _).
  pose proof (rep_window _ _ Hrep) as Hwin. pose proof (layout_bounds _ _ _ _ (rep_layout _ _ Hrep)).
  change (length (enc_record rec true)) with (en_len (placed a rec)) at 1. unfold en_end in Hb.
  split_and!; [lia|lia|lia|exact Hin].
Qed.

Definition evicted_producer : ConcurrentProducer S :=
  {| cp_store := cp_store p; cp_spans := span <$> kept a rec; cp_head_abs := ab_head a |}.

(** The eviction. *)
Lemma evict_before_clobber_emits {E} :
  emits (E:=E) (lost_ops a rec ++ [WSt Relaxed LOldest (ab_oldest (abs_write a rec)); WFnc Release])
    (cp_evict_before_clobber p (en_end (placed a rec)) (en_start (placed a rec))) (io_ret evicted_producer).
Proof.
  assert (Hsz : 0 + Z.of_nat (length (ab_live a)) < 2 ^ 64).
  { pose proof (rep_size _ _ Hrep) as Hs. unfold ab_log in Hs. rewrite length_app in Hs. lia. }
  assert (Hsort : StronglySorted (λ x y, en_start x ≤ en_start y) (ab_live a)).
  { eapply layout_sorted, (rep_layout _ _ Hrep). by eapply rep_nonempty. }
  assert (Ho : from_option fst (en_start (placed a rec)) (head (span <$> kept a rec)) = ab_oldest (abs_write a rec)).
  { rewrite oldest_write. by destruct (kept a rec). }
  unfold cp_evict_before_clobber. rewrite (pr_cap _ _ Hp), (pr_spans _ _ Hp), (pr_head _ _ Hp). fold (write_floor a rec).
  rewrite evict_spans_spec by (done || lia). fold (kept a rec) (evicted a rec). rewrite Z.add_0_l.
  cbn [mbind io_bind io_match]. rewrite law_fetch_add_lost, Ho, law_store_oldest, law_release by done. unfold lost_ops.
  destruct (decide (0 < Z.of_nat (length (evicted a rec)))); cbn; eauto 10.
Qed.

(** The stores of the record, and the publication of the new head. *)
Lemma publish_emits {E} :
  emits (E:=E) (((cell_op <$> cells a rec) ++ [WSt Release LHead (en_end (placed a rec))]) ++ end_ops)
    (_ ← (if decide (en_start (placed a rec) ≠ ab_head a)
          then store_byte_relaxed (cp_store p) (phys (ab_cap a) (ab_head a)) 0 else io_ret tt);
     record_start ← Done (cs_physical_offset (cp_store p) (en_start (placed a rec)));
     _ ← store_bytes (cp_store p) record_start (enc_record rec true);
     _ ← store_head_release (cp_store p) (en_end (placed a rec));
     _ ← end_control_update_release (cp_store p);
     io_ret appended) (io_ret appended).
Proof.
  pose proof (rep_pos _ _ Hrep) as Hpos. pose proof (pr_cap _ _ Hp) as Hc. destruct bounds as (_ & _ & Hin).
  unfold cells, gap_cells. rewrite fmap_app, <-!app_assoc.
  rewrite cs_physical_offset_ok, Hc, law_store_head by (done || (rewrite Hc; lia)).
  rewrite law_store_byte by (done || (rewrite Hc; by apply phys_lt)).
  assert (Hend : emits ([WSt Release LHead (en_end (placed a rec))] ++ end_ops)
    (_ ← St Release LHead (en_end (placed a rec)) (io_ret tt);
     _ ← end_control_update_release (cp_store p); io_ret appended) (io_ret (E:=E) appended)).
  { eexists. split; [reflexivity|]. by apply (emits_bind end_ops (io_ret tt)), law_end. }
  assert (Hbytes : emits ((cell_op <$> byte_cells (phys (ab_cap a) (en_start (placed a rec))) (en_bytes (placed a rec)))
      ++ [WSt Release LHead (en_end (placed a rec))] ++ end_ops)
    (_ ← store_bytes (cp_store p) (phys (ab_cap a) (en_start (placed a rec))) (enc_record rec true);
     _ ← St Release LHead (en_end (placed a rec)) (io_ret tt);
     _ ← end_control_update_release (cp_store p); io_ret appended) (io_ret (E:=E) appended)).
  { eapply emits_app; [|exact Hend]. apply (emits_bind _ (io_ret tt)), store_bytes_emits; [done|]. by rewrite Hc. }
  case_decide; [|exact Hbytes]. eexists. split; [reflexivity|exact Hbytes].
Qed.

(** The program of an append is its access list. *)
Lemma append_bytes_core_emits {E} :
  emits (E:=E) (append_ops a rec) (append_bytes_core p (enc_record rec true)) (Done (Ok appended)).
Proof.
  pose proof (rep_pos _ _ Hrep) as Hpos. pose proof (pr_cap _ _ Hp) as Hc. pose proof bounds as (Hh & Hb & _).
  unfold append_bytes_core. rewrite Hc, debug_assert_ok by (apply bool_decide_true, Hfit).
  rewrite cs_physical_offset_ok, next_start_abs_ok by (done || (rewrite Hc; lia)).
  cbn [mbind io_bind io_match]. rewrite add_w_ok by lia.
  change (en_start (placed a rec) + Z.of_nat (length (enc_record rec true))) with (en_end (placed a rec)).
  unfold append_ops, core_ops. eapply emits_app; [by apply (emits_bind begin_ops (io_ret tt)), law_begin|].
  cbn [mbind io_bind io_match io_ret]. rewrite <-!app_assoc, app_assoc.
  eapply emits_app; [eapply (emits_bind _ (io_ret evicted_producer)), evict_before_clobber_emits|].
  rewrite (pr_head _ _ Hp), Hc, app_assoc. pose proof (publish_emits (E:=E)) as Hpub. unfold appended in Hpub |- *.
  rewrite fmap_app in Hpub |- *. exact Hpub.
Qed.
End append.

(** ** Message lists *)

(** The messages of an append after [n] messages, the last of them carrying
    [rel], with the lost count at [lost]. *)
Definition lost_msgs (n : nat) (lost : Z) (a : AbsRing) (rec : WireRecord) : list msg :=
  let k := Z.of_nat (length (evicted a rec)) in
  if decide (0 < k) then [{| m_loc := LLost; m_val := (lost + k) mod 2 ^ 64; m_view := S n |}] else [].

Definition cell_msg (view : nat) (c : nat * Z) : msg := {| m_loc := LByte c.1; m_val := c.2; m_view := view |}.

Definition core_msgs (n rel : nat) (lost : Z) (a : AbsRing) (rec : WireRecord) : list msg :=
  let fence := (n + length (lost_msgs n lost a rec) + 1)%nat in
  lost_msgs n lost a rec
  ++ {| m_loc := LOldest; m_val := ab_oldest (abs_write a rec); m_view := rel |}
  :: (cell_msg fence <$> cells a rec)
  ++ [{| m_loc := LHead; m_val := en_end (placed a rec); m_view := S (fence + length (cells a rec)) |}].

Lemma w_ops_cells cs : ∀ w,
  w_ops (cell_op <$> cs) w = {| w_mem := w_mem w ++ (cell_msg (w_rel w) <$> cs); w_rel := w_rel w |}.
Proof.
  induction cs as [|c cs IH]; intros w; [rewrite app_nil_r; by destruct w|].
  rewrite !fmap_cons. change (w_ops (cell_op c :: (cell_op <$> cs)) w) with (w_ops (cell_op <$> cs) (w_op w (cell_op c))).
  rewrite IH. cbn [w_op cell_op w_store w_mem w_rel]. by rewrite <-app_assoc.
Qed.

Lemma core_ops_msgs a rec w :
  w_mem (w_ops (core_ops a rec) w)
  = w_mem w ++ core_msgs (length (w_mem w)) (w_rel w) (cur (w_mem w) LLost) a rec.
Proof.
  unfold core_ops, core_msgs. rewrite !w_ops_app, w_ops_cells. unfold lost_ops, lost_msgs.
  case_decide; cbn [w_ops foldl w_op w_fetch_add w_store w_fence w_mem w_rel]; rewrite <-!app_assoc;
    rewrite ?length_app, ?length_fmap; cbn [length app]; by rewrite ?Nat.add_0_r, <-?Nat.add_assoc.
Qed.

Lemma skip_cells view cs l v :
  (∀ p, l ≠ LByte p) →
  foldl (λ v m, if decide (m_loc m = l) then m_val m else v) v (cell_msg view <$> cs) = v.
Proof.
  intros Hl. induction cs as [|c cs IH] using rev_ind; [done|]. rewrite fmap_app, foldl_app, IH. cbn.
  rewrite decide_False; [done|]. intros Heq. by eapply Hl.
Qed.

(** What an append leaves in the words. *)
Lemma core_msgs_words mem n rel lost a rec :
  let mem' := mem ++ core_msgs n rel lost a rec in
  cur mem' LHead = en_end (placed a rec) ∧ cur mem' LOldest = ab_oldest (abs_write a rec)
  ∧ cur mem' LLost = (if decide (0 < Z.of_nat (length (evicted a rec)))
                      then (lost + Z.of_nat (length (evicted a rec))) mod 2 ^ 64 else cur mem LLost)
  ∧ cur mem' LSeq = cur mem LSeq.
Proof.
  unfold core_msgs, lost_msgs. cbv zeta. rewrite !cur_app, !foldl_app.
  destruct (decide (0 < Z.of_nat (length (evicted a rec)))); cbn [foldl m_loc m_val];
    rewrite !foldl_app, !skip_cells by done; done.
Qed.

(** The messages around them. *)
Section bracketed.
Context {SQ : Sequenced}.

Definition seq_msg (view : nat) (v : Z) : msg := {| m_loc := LSeq; m_val := v mod 2 ^ 32; m_view := view |}.
Definition brackets : nat := if sequenced then 1 else 0.

Definition append_msgs (n rel : nat) (lost lock : Z) (a : AbsRing) (rec : WireRecord) : list msg :=
  if sequenced then
    let core := core_msgs (n + 1) (n + 1) lost a rec in
    seq_msg rel (lock + 1) :: core ++ [seq_msg (n + 1 + length core + 1) ((lock + 1) mod 2 ^ 32 + 1)]
  else core_msgs n rel lost a rec.

Lemma append_ops_msgs a rec w :
  w_mem (w_ops (append_ops a rec) w)
  = w_mem w ++ append_msgs (length (w_mem w)) (w_rel w) (cur (w_mem w) LLost) (cur (w_mem w) LSeq) a rec.
Proof.
  unfold append_ops, append_msgs, begin_ops, end_ops. destruct sequenced; [|cbn [app]; by rewrite app_nil_r, core_ops_msgs].
  rewrite !w_ops_app. set (w1 := w_ops [_; _] w).
  assert (Hm : w_mem w1 = w_mem w ++ [seq_msg (w_rel w) (cur (w_mem w) LSeq + 1)]) by done.
  assert (Hr : w_rel w1 = (length (w_mem w) + 1)%nat) by (cbn; by rewrite length_app).
  cbn [w_ops foldl w_op w_fetch_add w_store w_mem]. change (foldl w_op w1 ?l) with (w_ops l w1).
  destruct (core_msgs_words (w_mem w1) (length (w_mem w1)) (w_rel w1) (cur (w_mem w1) LLost) a rec) as (_ & _ & _ & Hs).
  rewrite core_ops_msgs, Hs, Hr, Hm, !cur_snoc, length_app, <-!app_assoc. cbn [length app]. do 3 f_equal.
  unfold seq_msg. cbn [m_loc m_val]. rewrite (decide_True (P := LSeq = LSeq)), (decide_False (P := LSeq = LLost)) by done.
  rewrite !length_app. cbn [length loc_modulus]. do 2 f_equal. lia.
Qed.

Lemma length_append_msgs n rel lost lock a rec :
  (2 + 2 * brackets ≤ length (append_msgs n rel lost lock a rec))%nat.
Proof.
  unfold append_msgs, brackets, core_msgs. destruct sequenced; cbn [length]; rewrite ?length_app; cbn [length];
    rewrite ?length_app; cbn [length]; lia.
Qed.

(** The assertions of the brackets hold when the lock is even. *)
Lemma append_ops_ok a rec w : Z.even (cur (w_mem w) LSeq) = true → ops_ok w (append_ops a rec).
Proof.
  intros He. unfold append_ops, begin_ops, end_ops.
  assert (Hcore : ∀ w, ops_ok w (core_ops a rec)).
  { apply ops_ok_plain. unfold core_ops, lost_ops. repeat apply Forall_app_2; [case_decide; by repeat constructor|by repeat constructor| |by repeat constructor].
    apply Forall_fmap, Forall_forall. done. }
  destruct sequenced; [|cbn [app]; rewrite app_nil_r; apply Hcore]. rewrite !ops_ok_app. split_and!; [done|apply Hcore|].
  cbn [ops_ok]. split; [|done]. cbn [op_ok]. rewrite core_ops_msgs.
  set (w1 := w_ops _ w). destruct (core_msgs_words (w_mem w1) (length (w_mem w1)) (w_rel w1) (cur (w_mem w1) LLost) a rec) as (_ & _ & _ & ->).
  unfold w1. cbn [w_ops foldl w_op w_fetch_add w_store w_fence w_mem]. rewrite cur_snoc, decide_True by done. cbn [m_val loc_modulus].
  apply Z.odd_spec. apply Z.even_spec in He as [c Hc]. rewrite Hc. exists (c mod 2 ^ 31). 
  change (2 ^ 32) with 4294967296. change (2 ^ 31) with 2147483648. Z.div_mod_to_equations. lia.
Qed.

Lemma append_msgs_words mem n rel lost lock a rec :
  let mem' := mem ++ append_msgs n rel lost lock a rec in
  cur mem' LHead = en_end (placed a rec) ∧ cur mem' LOldest = ab_oldest (abs_write a rec)
  ∧ cur mem' LLost = (if decide (0 < Z.of_nat (length (evicted a rec)))
                      then (lost + Z.of_nat (length (evicted a rec))) mod 2 ^ 64 else cur mem LLost)
  ∧ cur mem' LSeq = (if sequenced then ((lock + 1) mod 2 ^ 32 + 1) mod 2 ^ 32 else cur mem LSeq).
Proof.
  cbv zeta. unfold append_msgs. destruct sequenced; [|apply core_msgs_words].
  rewrite (cons_middle _ mem), !app_assoc, !cur_snoc. cbn [m_loc seq_msg m_val].
  destruct (core_msgs_words (mem ++ [seq_msg rel (lock + 1)]) (n + 1) (n + 1) lost a rec) as (H1 & H2 & H3 & _).
  rewrite cur_snoc, (decide_False (P := m_loc _ = LLost)) in H3 by done. rewrite H1, H2, H3. by split_and!.
Qed.
End bracketed.

(** ** Histories: memory and log after a list of appends *)
Section history.
Context {BP : BuildProfile} {SQ : Sequenced} (cap : nat) (Hcap : (0 < cap)%nat).

Definition conc_write (s : writer * AbsRing) (rec : WireRecord) : writer * AbsRing :=
  (w_ops (append_ops s.2 rec) s.1, abs_write s.2 rec).
Definition after (rs : list WireRecord) : writer * AbsRing :=
  foldl conc_write (writer_init, abs_new cap) rs.
Definition mem_of (rs : list WireRecord) : list msg := w_mem (after rs).1.
Definition abs_of (rs : list WireRecord) : AbsRing := foldl abs_write (abs_new cap) rs.

(** The cells as the messages leave them. *)
Definition apply_msg (bs : bytes) (m : msg) : bytes :=
  match m_loc m with LByte p => <[p := m_val m]> bs | _ => bs end.
Definition pool_of (mem : list msg) : bytes := foldl apply_msg (replicate cap 0) mem.

(** The records the ring takes, few enough for 64-bit offsets. *)
Definition rs_ok (rs : list WireRecord) : Prop :=
  Forall (fits_ring cap) rs ∧ 2 * Z.of_nat cap * (Z.of_nat (length rs) + 1) < 2 ^ 64.

Lemma after_snoc rs rec : after (rs ++ [rec]) = conc_write (after rs) rec.
Proof. apply foldl_snoc. Qed.

Lemma abs_of_snoc rs rec : abs_of (rs ++ [rec]) = abs_write (abs_of rs) rec.
Proof. apply foldl_snoc. Qed.

Lemma after_abs rs : (after rs).2 = abs_of rs.
Proof. induction rs as [|rec rs IH] using rev_ind; [done|]. by rewrite after_snoc, abs_of_snoc, <-IH. Qed.

Lemma after_append rs rec : (after (rs ++ [rec])).1 = w_ops (append_ops (abs_of rs) rec) (after rs).1.
Proof. by rewrite after_snoc, <-after_abs. Qed.

Lemma mem_of_snoc rs rec :
  ∃ rel, mem_of (rs ++ [rec]) = mem_of rs ++
    append_msgs (length (mem_of rs)) rel (cur (mem_of rs) LLost) (cur (mem_of rs) LSeq) (abs_of rs) rec.
Proof. unfold mem_of. rewrite after_append. eexists. apply append_ops_msgs. Qed.

Lemma abs_of_cap rs : ab_cap (abs_of rs) = cap.
Proof. induction rs as [|rec rs IH] using rev_ind; [done|]. by rewrite abs_of_snoc. Qed.

Lemma rs_ok_prefix rs1 rs : rs1 `prefix_of` rs → rs_ok rs → rs_ok rs1.
Proof.
  intros [k ->] [Hf Hr]. apply Forall_app in Hf as [Hf _]. split; [done|].
  rewrite length_app in Hr. nia.
Qed.

Lemma mem_of_prefix rs1 rs : rs1 `prefix_of` rs → mem_of rs1 `prefix_of` mem_of rs.
Proof.
  intros [k ->]. induction k as [|rec k IH] using rev_ind; [by rewrite app_nil_r|].
  rewrite app_assoc. destruct (mem_of_snoc (rs1 ++ k) rec) as (rel & ->). by apply prefix_app_r.
Qed.

Lemma prefix_snoc_inv {A} (l k : list A) x : l `prefix_of` k ++ [x] → l = k ++ [x] ∨ l `prefix_of` k.
Proof.
  intros [m Hm]. destruct m as [|y m _] using rev_ind; [left; by rewrite app_nil_r in Hm|].
  right. rewrite app_assoc in Hm. apply app_inj_2 in Hm as [-> _]; [|done]. by eexists.
Qed.

(** *** The single-buffer ring after the same writes *)
Lemma pool_of_app m1 m2 : pool_of (m1 ++ m2) = foldl apply_msg (pool_of m1) m2.
Proof. apply foldl_app. Qed.

Lemma apply_cells view cs bs : foldl apply_msg bs (cell_msg view <$> cs) = foldl (λ bs c, <[c.1 := c.2]> bs) bs cs.
Proof. revert bs. induction cs as [|c cs IH]; intros bs; [done|]. rewrite fmap_cons. cbn. apply IH. Qed.

Lemma store_cells bs0 : ∀ p bs, (p + length bs0 ≤ length bs)%nat →
  foldl (λ bs c, <[c.1 := c.2]> bs) bs (byte_cells p bs0) = splice bs p bs0.
Proof.
  induction bs0 as [|b bs0 IH]; intros p bs Hp.
  - cbn. unfold splice. rewrite Nat.add_0_r. cbn. by rewrite take_drop.
  - cbn [length] in Hp. unfold byte_cells. cbn [imap foldl fst snd]. rewrite Nat.add_0_r.
    assert (Hb : imap ((λ i b, ((p + i)%nat, b)) ∘ S) bs0 = byte_cells (S p) bs0).
    { apply imap_ext. intros i x _. cbn. f_equal. lia. }
    rewrite Hb, IH by (rewrite length_insert; lia). apply list_eq. intros i.
    rewrite !lookup_splice by (rewrite ?length_insert; cbn; lia). cbn [length].
    destruct (decide (i = p)) as [->|Hne].
    + rewrite bool_decide_false, bool_decide_true by lia. rewrite list_lookup_insert_eq by lia.
      by replace (p - p)%nat with 0%nat by lia.
    + rewrite list_lookup_insert_ne by done. case_bool_decide as H1; case_bool_decide as H2; [|lia|lia|done].
      by replace (i - p)%nat with (S (i - S p)) by lia.
Qed.

(** The messages of an append do to the cells what the ring's write does. *)
Lemma apply_core n rel lost a rec bs :
  length bs = ab_cap a → (0 < ab_cap a)%nat → (length (enc_record rec true) ≤ ab_cap a)%nat →
  foldl apply_msg bs (core_msgs n rel lost a rec)
  = overwrite bs (ab_head a) (en_start (placed a rec)) (enc_record rec true).
Proof.
  intros Hl Hpos Hlen. destruct (place_spec (ab_cap a) Hpos (ab_head a) _ Hlen) as (_ & Hin & _).
  unfold core_msgs. rewrite foldl_app.
  assert (Hlost : foldl apply_msg bs (lost_msgs n lost a rec) = bs) by (unfold lost_msgs; by case_decide).
  rewrite Hlost. cbn [foldl apply_msg m_loc]. rewrite foldl_app, apply_cells. cbn [foldl apply_msg m_loc].
  unfold cells, gap_cells, overwrite. rewrite foldl_app, Hl.
  destruct (decide (en_start (placed a rec) = ab_head a)) as [Heq|Hne].
  - rewrite decide_False by tauto. cbn [foldl]. apply store_cells. rewrite Hl. exact Hin.
  - rewrite decide_True by done. cbn [foldl fst snd]. apply store_cells. rewrite length_insert, Hl. exact Hin.
Qed.

Lemma apply_append n rel lost lock a rec bs :
  length bs = ab_cap a → (0 < ab_cap a)%nat → (length (enc_record rec true) ≤ ab_cap a)%nat →
  foldl apply_msg bs (append_msgs n rel lost lock a rec)
  = overwrite bs (ab_head a) (en_start (placed a rec)) (enc_record rec true).
Proof.
  intros. unfold append_msgs. destruct sequenced; [|by apply apply_core]. cbn [foldl apply_msg seq_msg m_loc].
  rewrite foldl_app. cbn [foldl apply_msg seq_msg m_loc]. by apply apply_core.
Qed.

Lemma length_foldl_apply ms bs : length (foldl apply_msg bs ms) = length bs.
Proof.
  revert bs. induction ms as [|m ms IH]; intros bs; [done|]. cbn [foldl]. rewrite IH. unfold apply_msg.
  destruct (m_loc m); [apply length_insert|done..].
Qed.

Lemma length_pool mem : length (pool_of mem) = cap.
Proof. unfold pool_of. rewrite length_foldl_apply. apply length_replicate. Qed.

(** The same records written to the single-buffer ring. *)
Definition ring_writes (rs : list WireRecord) (r : RingBuffer) : res RingError RingBuffer :=
  for_each (λ rec r, '(r, _) ← write_record r rec; Ok r) rs r.

(** The memory image is the ring's, byte for byte. *)
Lemma history_ring rs :
  rs_ok rs → ∃ r, (r ← ring_new cap; ring_writes rs r) = Ok r
    ∧ ring_rep r (abs_of rs) ∧ ring_bytes r = pool_of (mem_of rs)
    ∧ ab_head (abs_of rs) ≤ 2 * Z.of_nat cap * Z.of_nat (length rs).
Proof.
  induction rs as [|rec rs IH] using rev_ind.
  { intros _. destruct (ring_new_rep cap Hcap) as (r & Hr & Hrep). exists r. rewrite Hr. split_and!; try done.
    - unfold ring_new in Hr. rewrite decide_False in Hr by lia. by injection Hr as <-.
    - cbn. lia. }
  intros Hok. destruct IH as (r & Hr & Hrep & Hb & Hh); [by eapply rs_ok_prefix; [apply prefix_app_r|]|].
  destruct Hok as [Hf Hroom]. rewrite length_app in Hroom. cbn [length] in Hroom.
  apply Forall_app in Hf as [_ Hf]. apply Forall_cons_1 in Hf as [[Hw Hl] _].
  rewrite <-(abs_of_cap rs) in Hl.
  assert (Hroom' : ab_head (abs_of rs) + 2 * Z.of_nat (ab_cap (abs_of rs)) < 2 ^ 64) by (rewrite abs_of_cap; nia).
  destruct (write_record_eq r (abs_of rs) rec Hrep Hw Hl Hroom') as (ranges & wraps & Heq & _).
  destruct (write_record_rep r (abs_of rs) rec Hrep Hw Hl Hroom') as (r' & Heq' & Hrep').
  pose proof (abs_write_head r (abs_of rs) rec Hrep (conj Hw Hl)) as [_ Hh']. rewrite abs_of_cap in Hh'.
  exists r'. rewrite abs_of_snoc. split_and!; [| exact Hrep'| |rewrite length_app; cbn [length]; lia].
  - apply bind_Ok in Hr as (r0 & -> & Hr). rewrite ok_bind. unfold ring_writes. rewrite for_each_app.
    fold (ring_writes rs r0). rewrite Hr, ok_bind. cbn [for_each]. by rewrite Heq'.
  - rewrite Heq in Heq'. injection Heq' as <-. cbn [ring_bytes].
    destruct (mem_of_snoc rs rec) as (rel & ->). rewrite pool_of_app, apply_append; [|by rewrite length_pool, abs_of_cap|by rewrite abs_of_cap|done].
    unfold written_bytes. by rewrite Hb.
Qed.

(** *** The whole memory image *)

(** Memory shows what the ring holds. *)
Record image (mem : list msg) (r : RingBuffer) : Prop := {
  im_cap : capacity r = cap;
  im_head : cur mem LHead = ring_head_abs r;
  im_oldest : cur mem LOldest = ring_oldest_abs r;
  im_lost : cur mem LLost = ring_lost_count r;
  im_lock : Z.even (cur mem LSeq) = true ∧ 0 ≤ cur mem LSeq < 2 ^ 32;
  im_bytes i b : ring_bytes r !! i = Some b → cur mem (LByte i) = b;
}.

Lemma cur_pool mem i b : pool_of mem !! i = Some b → cur mem (LByte i) = b.
Proof.
  revert b. induction mem as [|m mem IH] using rev_ind; intros b Hb.
  { unfold pool_of in Hb. cbn in Hb. by apply lookup_replicate in Hb as [-> _]. }
  rewrite pool_of_app in Hb. cbn [foldl] in Hb. unfold apply_msg in Hb. rewrite cur_snoc.
  destruct (m_loc m) as [q| | | |]; try (rewrite decide_False by done; by apply IH).
  case_decide as Hq.
  - injection Hq as ->. apply list_lookup_insert_Some in Hb as [(_ & Hb & _)|[? _]]; [done|done].
  - rewrite list_lookup_insert_ne in Hb by congruence. by apply IH.
Qed.

(** The lock counts two steps an append. *)
Lemma lock_value rs :
  cur (mem_of rs) LSeq = if sequenced then (2 * Z.of_nat (length rs)) mod 2 ^ 32 else 0.
Proof.
  induction rs as [|rec rs IH] using rev_ind; [by destruct sequenced|].
  destruct (mem_of_snoc rs rec) as (rel & Hm). rewrite Hm.
  destruct (append_msgs_words (mem_of rs) (length (mem_of rs)) rel (cur (mem_of rs) LLost) (cur (mem_of rs) LSeq) (abs_of rs) rec)
    as (_ & _ & _ & ->). rewrite IH. destruct sequenced; [|done].
  rewrite length_app. cbn [length]. change (2 ^ 32) with 4294967296. Z.div_mod_to_equations. lia.
Qed.

Lemma lock_even rs : Z.even (cur (mem_of rs) LSeq) = true ∧ 0 ≤ cur (mem_of rs) LSeq < 2 ^ 32.
Proof.
  rewrite lock_value. destruct sequenced; [|done]. split; [|apply Z.mod_pos_bound; lia].
  apply Z.even_spec. exists (Z.of_nat (length rs) mod 2 ^ 31).
  change (2 ^ 32) with 4294967296. change (2 ^ 31) with 2147483648. Z.div_mod_to_equations. lia.
Qed.

Lemma history_image rs :
  rs_ok rs → ∃ r, (r ← ring_new cap; ring_writes rs r) = Ok r ∧ ring_rep r (abs_of rs) ∧ image (mem_of rs) r.
Proof.
  intros Hok. destruct (history_ring rs Hok) as (r & Hr & Hrep & Hb & Hh). exists r. split_and!; [done|done|].
  assert (Hwords : cur (mem_of rs) LHead = ab_head (abs_of rs) ∧ cur (mem_of rs) LOldest = ab_oldest (abs_of rs)
    ∧ cur (mem_of rs) LLost = Z.of_nat (length (ab_dropped (abs_of rs)))).
  { clear r Hr Hrep Hb Hh. induction rs as [|rec rs IH] using rev_ind; [done|].
    assert (Hok' : rs_ok rs) by (by eapply rs_ok_prefix; [apply prefix_app_r|]).
    destruct (IH Hok') as (_ & _ & HL). destruct (history_ring _ Hok') as (r & _ & Hrep & _ & Hh).
    pose proof (rep_size _ _ Hrep) as Hsz. unfold ab_log in Hsz. rewrite length_app in Hsz.
    destruct Hok' as [_ Hroom].
    assert (Hev : (length (evicted (abs_of rs) rec) ≤ length (ab_live (abs_of rs)))%nat) by apply length_filter.
    unfold mem_of at 1 2 3. rewrite after_append, append_ops_msgs. fold (mem_of rs). rewrite abs_of_snoc.
    destruct (append_msgs_words (mem_of rs) (length (mem_of rs)) (w_rel (after rs).1) (cur (mem_of rs) LLost)
      (cur (mem_of rs) LSeq) (abs_of rs) rec) as (H1 & H2 & H3 & _). split_and!; [done|done|].
    rewrite H3, HL, dropped_eq, length_app, Nat2Z.inj_add. case_decide; [|lia]. rewrite Z.mod_small; [lia|nia]. }
  destruct Hwords as (H1 & H2 & H3). split.
  - by rewrite (rep_cap _ _ Hrep), abs_of_cap.
  - by rewrite H1, (rep_head _ _ Hrep).
  - by rewrite H2, (rep_oldest _ _ Hrep).
  - by rewrite H3, (rep_lost _ _ Hrep).
  - apply lock_even.
  - intros i b Hi. apply cur_pool. by rewrite <-Hb.
Qed.

Lemma head_mono rs1 rs : rs1 `prefix_of` rs → rs_ok rs → ab_head (abs_of rs1) ≤ ab_head (abs_of rs).
Proof.
  intros [k ->]. induction k as [|rec k IH] using rev_ind; [by rewrite app_nil_r|]. rewrite app_assoc.
  intros Hok. assert (Hok' : rs_ok (rs1 ++ k)) by (by eapply rs_ok_prefix; [apply prefix_app_r|]).
  specialize (IH Hok'). destruct (history_ring _ Hok') as (r & _ & Hrep & _).
  rewrite abs_of_snoc. destruct Hok as [Hf _]. apply Forall_app in Hf as [_ Hf]. apply Forall_cons_1 in Hf as [Hf _].
  pose proof (abs_write_head r _ rec Hrep) as Hh. rewrite abs_of_cap in Hh. specialize (Hh Hf). lia.
Qed.

Lemma oldest_mono rs1 rs : rs1 `prefix_of` rs → rs_ok rs → ab_oldest (abs_of rs1) ≤ ab_oldest (abs_of rs).
Proof.
  intros [k ->]. induction k as [|rec k IH] using rev_ind; [by rewrite app_nil_r|]. rewrite app_assoc.
  intros Hok. assert (Hok' : rs_ok (rs1 ++ k)) by (by eapply rs_ok_prefix; [apply prefix_app_r|]).
  specialize (IH Hok'). destruct (history_ring _ Hok') as (r & _ & Hrep & _).
  rewrite abs_of_snoc. destruct Hok as [Hf _]. apply Forall_app in Hf as [_ Hf]. apply Forall_cons_1 in Hf as [[Hw Hl] _].
  rewrite <-(abs_of_cap (rs1 ++ k)) in Hl.
  pose proof (oldest_kept r _ rec Hrep) as Hk. pose proof (oldest_write_le r _ rec Hrep Hw Hl). lia.
Qed.

(** *** Messages and their timestamps *)
Lemma lookup_cell_msgs view (cs : list (nat * Z)) (j : nat) m : (cell_msg view <$> cs) !! j = Some m → ∃ c, cs !! j = Some c ∧ m = cell_msg view c.
Proof. rewrite list_lookup_fmap. destruct (cs !! j) as [c|]; [|done]. intros [= <-]. by exists c. Qed.

Lemma core_msgs_lookup n rel lost a rec j m :
  core_msgs n rel lost a rec !! j = Some m →
  let k := length (lost_msgs n lost a rec) in
  (m_loc m = LLost) ∨
  (j = k ∧ m_loc m = LOldest ∧ m_val m = ab_oldest (abs_write a rec)) ∨
  (k < j ∧ ∃ c, c ∈ cells a rec ∧ m_loc m = LByte c.1 ∧ m_view m = (n + k + 1)%nat)%nat ∨
  (S j = length (core_msgs n rel lost a rec) ∧ m_loc m = LHead ∧ m_val m = en_end (placed a rec)
   ∧ m_view m = (n + S j)%nat).
Proof.
  intros Hm k. unfold core_msgs in *. fold k in Hm |- *.
  apply lookup_app_Some in Hm as [Hm|[Hj Hm]].
  { left. unfold lost_msgs in Hm. case_decide; [|done]. apply list_lookup_singleton_Some in Hm as [_ <-]. done. }
  right. fold k in Hj, Hm. destruct (j - k)%nat as [|i] eqn:Hi; cbn [lookup list_lookup] in Hm.
  { left. injection Hm as <-. split; [lia|done]. }
  right. change ((cell_msg (n + k + 1) <$> cells a rec) ++ _) with
    ((cell_msg (n + k + 1) <$> cells a rec) ++ [{| m_loc := LHead; m_val := en_end (placed a rec);
       m_view := S (n + k + 1 + length (cells a rec)) |}]) in Hm.
  apply lookup_app_Some in Hm as [Hm|[Hi' Hm]].
  - left. apply lookup_cell_msgs in Hm as (c & Hc & ->). split; [lia|]. exists c.
    split; [by eapply list_elem_of_lookup_2|done].
  - right. apply list_lookup_singleton_Some in Hm as [Hz <-]. rewrite length_fmap in Hi', Hz.
    rewrite length_app. cbn [length]. rewrite length_app, length_fmap. cbn [length m_loc m_val m_view].
    fold k. split_and!; [lia|done|done|lia].
Qed.

(** The position of the [OldestAbs] message of an append. *)
Definition oldest_at (a : AbsRing) (rec : WireRecord) : nat := brackets + length (lost_msgs 0 0 a rec).

Lemma length_lost n lost a rec : length (lost_msgs n lost a rec) = length (lost_msgs 0 0 a rec).
Proof. unfold lost_msgs. by case_decide. Qed.

(** What the [j]-th message of an append is. *)
Lemma append_msgs_lookup n rel lost lock a rec j m :
  append_msgs n rel lost lock a rec !! j = Some m →
  let k := oldest_at a rec in
  (m_loc m = LLost ∨ m_loc m = LSeq) ∨
  (j = k ∧ m_loc m = LOldest ∧ m_val m = ab_oldest (abs_write a rec)) ∨
  (k < j ∧ ∃ c, c ∈ cells a rec ∧ m_loc m = LByte c.1 ∧ m_view m = (n + k + 1)%nat)%nat ∨
  ((S j + brackets)%nat = length (append_msgs n rel lost lock a rec) ∧ m_loc m = LHead ∧ m_val m = en_end (placed a rec)
   ∧ m_view m = (n + S j)%nat).
Proof.
  unfold append_msgs, oldest_at, brackets. destruct sequenced; cbv zeta; intros Hm.
  - destruct j as [|j]; [left; right; by injection Hm as <-|]. cbn [lookup list_lookup] in Hm.
    apply lookup_app_Some in Hm as [Hm|[_ Hm]]; [|left; right; by apply list_lookup_singleton_Some in Hm as [_ <-]].
    pose proof (lookup_lt_Some _ _ _ Hm). cbn [length]. rewrite length_app. cbn [length].
    destruct (core_msgs_lookup _ _ _ _ _ _ _ Hm) as [?|[(-> & ? & ?)|[(? & c & ? & ? & Hv)|(? & ? & ? & Hv)]]];
      rewrite ?length_lost in *; [by left; left| | |]; right.
    + left. done.
    + right; left. split; [lia|]. exists c. split_and!; [done|done|lia].
    + right; right. split_and!; [lia|done|done|lia].
  - destruct (core_msgs_lookup _ _ _ _ _ _ _ Hm) as [?|[(-> & ? & ?)|[(? & c & ? & ? & Hv)|(? & ? & ? & Hv)]]];
      rewrite ?length_lost in *; [by left; left| | |]; right.
    + left. done.
    + right; left. split; [lia|]. exists c. split_and!; [done|done|lia].
    + right; right. split_and!; [lia|done|done|lia].
Qed.

Lemma oldest_msg n rel lost lock a rec :
  ∃ rel', append_msgs n rel lost lock a rec !! oldest_at a rec
  = Some {| m_loc := LOldest; m_val := ab_oldest (abs_write a rec); m_view := rel' |}.
Proof.
  assert (Hcore : ∀ n rel, core_msgs n rel lost a rec !! length (lost_msgs 0 0 a rec)
    = Some {| m_loc := LOldest; m_val := ab_oldest (abs_write a rec); m_view := rel |}).
  { intros n' rel'. unfold core_msgs. pose proof (length_lost n' lost a rec). rewrite lookup_app_r by lia.
    by replace (_ - _)%nat with 0%nat by lia. }
  unfold append_msgs, oldest_at, brackets. destruct sequenced; eexists; [|apply Hcore].
  exact (lookup_app_l_Some _ _ _ _ (Hcore _ _)).
Qed.

Lemma cell_position a rec r c :
  ring_rep r a → fits_ring (ab_cap a) rec → c ∈ cells a rec →
  ∃ x, ab_head a ≤ x < en_end (placed a rec) ∧ c.1 = phys (ab_cap a) x.
Proof.
  intros Hrep [Hw Hl] Hc. pose proof (placed_bounds _ _ _ Hrep Hw Hl) as [Hb1 Hb2].
  destruct (place_spec (ab_cap a) (rep_pos _ _ Hrep) (ab_head a) _ Hl) as (_ & Hin & _).
  change (place _ _ _) with (en_start (placed a rec)) in Hin. unfold cells, gap_cells in Hc.
  apply elem_of_app in Hc as [Hc|Hc].
  - case_decide; [|by apply not_elem_of_nil in Hc]. apply list_elem_of_singleton in Hc as ->.
    exists (ab_head a). split; [lia|done].
  - apply elem_of_lookup_imap in Hc as (i & b & -> & Hb). apply lookup_lt_Some in Hb. cbn [fst].
    exists (en_start (placed a rec) + Z.of_nat i). change (length (en_bytes (placed a rec))) with (length (enc_record rec true)) in Hb.
    split; [rewrite en_end_placed; lia|]. rewrite phys_add; [done|apply (rep_pos _ _ Hrep)|lia].
Qed.

(** The messages of the append of [rec] after [rs]. *)
Definition next_msgs (rel : nat) (rs : list WireRecord) (rec : WireRecord) : list msg :=
  append_msgs (length (mem_of rs)) rel (cur (mem_of rs) LLost) (cur (mem_of rs) LSeq) (abs_of rs) rec.

(** A message after an append is an old one or one of the append's. *)
Lemma value_snoc rs rec l t v :
  value_at (mem_of (rs ++ [rec])) l t = Some v →
  (value_at (mem_of rs) l t = Some v ∧ t ≤ length (mem_of rs))%nat ∨
  ∃ rel j m, mem_of (rs ++ [rec]) = mem_of rs ++ next_msgs rel rs rec
    ∧ t = S (length (mem_of rs) + j) ∧ next_msgs rel rs rec !! j = Some m
    ∧ m_loc m = l ∧ m_val m = v ∧ view_at (mem_of (rs ++ [rec])) t = m_view m.
Proof.
  intros Hv. assert (Hpre : mem_of rs `prefix_of` mem_of (rs ++ [rec])) by (by apply mem_of_prefix, prefix_app_r).
  destruct (decide (t ≤ length (mem_of rs))%nat) as [Ht|Ht].
  { left. split; [|done]. by rewrite <-(value_at_prefix _ _ Hpre). }
  right. destruct (mem_of_snoc rs rec) as (rel & Hmem). fold (next_msgs rel rs rec) in Hmem. destruct t as [|i]; [lia|].
  unfold value_at, view_at in *. rewrite Hmem in Hv |- *. rewrite lookup_app_r in Hv |- * by lia.
  set (j := (i - length (mem_of rs))%nat) in *.
  destruct (next_msgs rel rs rec !! j) as [m|] eqn:Hm; [|done]. case_decide as Hl; [|done].
  injection Hv as Hv. exists rel, j, m. split_and!; try done. unfold j. lia.
Qed.

Record facts (rs : list WireRecord) : Prop := {
  fa_head t h : value_at (mem_of rs) LHead t = Some h →
    ∃ rs1, rs1 `prefix_of` rs ∧ h = ab_head (abs_of rs1) ∧ view_at (mem_of rs) t = t
      ∧ (t ≤ length (mem_of rs1) ≤ t + brackets)%nat;
  fa_oldest t o : value_at (mem_of rs) LOldest t = Some o →
    (t = 0%nat ∧ o = 0) ∨
    ∃ rs0 rec, rs0 ++ [rec] `prefix_of` rs ∧ o = ab_oldest (abs_of (rs0 ++ [rec]))
      ∧ (length (mem_of rs0) < t ≤ length (mem_of (rs0 ++ [rec])))%nat;
  fa_byte p t v : value_at (mem_of rs) (LByte p) t = Some v →
    t = 0%nat ∨
    ∃ rs0 rec to, rs0 ++ [rec] `prefix_of` rs ∧ (length (mem_of rs0) < to)%nat
      ∧ (to < t ≤ length (mem_of (rs0 ++ [rec])))%nat
      ∧ value_at (mem_of rs) LOldest to = Some (ab_oldest (abs_of (rs0 ++ [rec])))
      ∧ (to ≤ view_at (mem_of rs) t)%nat
      ∧ ∃ x, ab_head (abs_of rs0) ≤ x < ab_head (abs_of (rs0 ++ [rec])) ∧ p = phys cap x;
  fa_published : ∃ to, (to ≤ length (mem_of rs))%nat
    ∧ value_at (mem_of rs) LOldest to = Some (ab_oldest (abs_of rs));
}.

(** The [OldestAbs] message of the last append. *)
Lemma oldest_published rs rec :
  let to := S (length (mem_of rs) + oldest_at (abs_of rs) rec) in
  (to ≤ length (mem_of (rs ++ [rec])))%nat
  ∧ value_at (mem_of (rs ++ [rec])) LOldest to = Some (ab_oldest (abs_of (rs ++ [rec]))).
Proof.
  destruct (mem_of_snoc rs rec) as (rel & Hmem).
  destruct (oldest_msg (length (mem_of rs)) rel (cur (mem_of rs) LLost) (cur (mem_of rs) LSeq) (abs_of rs) rec) as (rel' & Ho).
  pose proof (lookup_lt_Some _ _ _ Ho). cbv zeta. split; [rewrite Hmem, length_app; lia|].
  unfold value_at. rewrite Hmem, lookup_app_r, Nat.add_comm, Nat.add_sub, Ho, decide_True by (done || lia).
  by rewrite abs_of_snoc.
Qed.

Section step.
Context (rs : list WireRecord) (rec : WireRecord) (Hok : rs_ok (rs ++ [rec])) (F : facts rs).

Lemma step_fit : rs_ok rs ∧ fits_ring (ab_cap (abs_of rs)) rec.
Proof.
  split; [by eapply rs_ok_prefix; [apply prefix_app_r|]|]. destruct Hok as [Hf _]. apply Forall_app in Hf as [_ Hf].
  apply Forall_cons_1 in Hf as [Hf _]. by rewrite abs_of_cap.
Qed.

Lemma step_head t h : value_at (mem_of (rs ++ [rec])) LHead t = Some h →
  ∃ rs1, rs1 `prefix_of` rs ++ [rec] ∧ h = ab_head (abs_of rs1) ∧ view_at (mem_of (rs ++ [rec])) t = t
    ∧ (t ≤ length (mem_of rs1) ≤ t + brackets)%nat.
Proof.
  assert (Hpre : mem_of rs `prefix_of` mem_of (rs ++ [rec])) by (by apply mem_of_prefix, prefix_app_r).
  intros [[Hv Ht]|(rel & j & m & Hmem & -> & Hm & Hl & Hval & Hvw)]%value_snoc.
  - destruct (fa_head _ F t h Hv) as (rs1 & Hp & -> & Hvw & Hb). exists rs1.
    split_and!; [etrans; [exact Hp|by apply prefix_app_r]|done|by rewrite (view_at_prefix _ _ Hpre)|lia|lia].
  - destruct (append_msgs_lookup _ _ _ _ _ _ _ _ Hm) as [[?|?]|[(_ & ? & _)|[(_ & c & _ & ? & _)|(Hj & _ & Hv' & Hvw')]]];
      [congruence..|]. fold (next_msgs rel rs rec) in Hj. exists (rs ++ [rec]).
    rewrite Hvw, Hvw', Hmem, length_app, <-Hj, abs_of_snoc. split_and!; [done|by rewrite <-Hval, Hv'|lia..].
Qed.

Lemma step_oldest t o : value_at (mem_of (rs ++ [rec])) LOldest t = Some o →
  (t = 0%nat ∧ o = 0) ∨
  ∃ rs0 rec', rs0 ++ [rec'] `prefix_of` rs ++ [rec] ∧ o = ab_oldest (abs_of (rs0 ++ [rec']))
    ∧ (length (mem_of rs0) < t ≤ length (mem_of (rs0 ++ [rec'])))%nat.
Proof.
  intros [[Hv Ht]|(rel & j & m & Hmem & -> & Hm & Hl & Hval & Hvw)]%value_snoc.
  - destruct (fa_oldest _ F t o Hv) as [?|(rs0 & rec0 & Hp & -> & Hb)]; [by left|right]. exists rs0, rec0.
    split_and!; [etrans; [exact Hp|by apply prefix_app_r]|done|lia|lia].
  - right. exists rs, rec. pose proof (lookup_lt_Some _ _ _ Hm).
    destruct (append_msgs_lookup _ _ _ _ _ _ _ _ Hm) as [[?|?]|[(Hj & _ & Hv')|[(_ & c & _ & ? & _)|(_ & ? & _)]]];
      [congruence..| |congruence|congruence].
    split_and!; [done|by rewrite abs_of_snoc, <-Hval, Hv'|lia|rewrite Hmem, length_app; lia].
Qed.

Lemma step_byte p t v : value_at (mem_of (rs ++ [rec])) (LByte p) t = Some v →
  t = 0%nat ∨
  ∃ rs0 rec' to, rs0 ++ [rec'] `prefix_of` rs ++ [rec] ∧ (length (mem_of rs0) < to)%nat
    ∧ (to < t ≤ length (mem_of (rs0 ++ [rec'])))%nat
    ∧ value_at (mem_of (rs ++ [rec])) LOldest to = Some (ab_oldest (abs_of (rs0 ++ [rec'])))
    ∧ (to ≤ view_at (mem_of (rs ++ [rec])) t)%nat
    ∧ ∃ x, ab_head (abs_of rs0) ≤ x < ab_head (abs_of (rs0 ++ [rec'])) ∧ p = phys cap x.
Proof.
  destruct step_fit as [Hok' Hfit]. destruct (history_ring rs Hok') as (r & _ & Hrep & _).
  assert (Hpre : mem_of rs `prefix_of` mem_of (rs ++ [rec])) by (by apply mem_of_prefix, prefix_app_r).
  intros [[Hv Ht]|(rel & j & m & Hmem & -> & Hm & Hl & Hval & Hvw)]%value_snoc.
  - destruct (fa_byte _ F p t v Hv) as [?|(rs0 & rec0 & to & Hp & H1 & H2 & H3 & H4 & H5)]; [by left|right].
    exists rs0, rec0, to. split_and!; [etrans; [exact Hp|by apply prefix_app_r]|done|lia|lia|by eapply value_at_grows| |done].
    by rewrite (view_at_prefix _ _ Hpre).
  - right. destruct (append_msgs_lookup _ _ _ _ _ _ _ _ Hm) as [[?|?]|[(_ & ? & _)|[(Hj & c & Hc & Hlc & Hvw')|(_ & ? & _)]]];
      [congruence..| |congruence]. destruct (oldest_published rs rec) as [Hto Hvo].
    exists rs, rec, (S (length (mem_of rs) + oldest_at (abs_of rs) rec)). apply lookup_lt_Some in Hm.
    destruct (cell_position _ _ _ _ Hrep Hfit Hc) as (x & Hx & Hcx). rewrite abs_of_cap in Hcx.
    split_and!; [done|lia|lia|rewrite Hmem, length_app; lia|done|rewrite Hvw, Hvw'; lia|].
    exists x. rewrite abs_of_snoc. split; [exact Hx|congruence].
Qed.
End step.

Lemma facts_hold rs : rs_ok rs → facts rs.
Proof.
  induction rs as [|rec rs IH] using rev_ind.
  - intros _. split.
    + intros [|t] h; [|done]. intros [= <-]. exists []. cbn. split_and!; (done || lia).
    + intros [|t] o; [|done]. intros [= <-]. by left.
    + intros p [|t] v; [|done]. by left.
    + by exists 0%nat.
  - intros Hok. assert (F : facts rs) by (apply IH; by eapply rs_ok_prefix; [apply prefix_app_r|]).
    split; [by apply step_head|by apply step_oldest|by apply step_byte|].
    destruct (oldest_published rs rec) as [Hto Hvo]. by eexists.
Qed.
End history.

(** ** The owned store keeps the laws *)
Definition owned_sequenced : Sequenced := false.

#[global] Instance owned_laws : StoreLaws OwnedConcurrentStore (SQ := owned_sequenced).
Proof.
  refine {| lawful := λ _, True |}; try done; intros E s p *; intros _ Hp;
    cbn [load_byte_relaxed store_byte_relaxed owned_store]; [unfold ocs_load_byte_relaxed|unfold ocs_store_byte_relaxed];
    by rewrite decide_True.
Defined.
