(* ===== verification/ConcurrentSolo.v ===== *)
(** * The concurrent reader on quiescent memory (crates/carriage/src/concurrent.rs)

    A read that runs while the producer is idle is, instruction for
    instruction, the single-buffer raw walk of [Ring], errors included. *)
From S2P Require Import Prelude Crc Wire Control Layout Ring RingRead Memory Concurrent ConcurrentWriter.

#[local] Arguments from_le_bytes : simpl never.

(** On quiescent memory a snapshot shows the words of the ring. *)
Definition words_ok (r : RingBuffer) : Prop :=
  is_u64 (ring_head_abs r) ∧ is_u64 (ring_oldest_abs r) ∧ is_u64 (ring_lost_count r).

Lemma history_words {BP : BuildProfile} cap rs r :
  (0 < cap)%nat → rs_ok cap rs → ring_rep r (abs_of cap rs) → words_ok r.
Proof.
  intros Hcap Hok Hrep. destruct (history_ring (SQ:=owned_sequenced) cap Hcap rs Hok) as (_ & _ & _ & _ & Hh).
  destruct Hok as [_ Hroom]. pose proof (rep_size _ _ Hrep) as Hsz. pose proof (rep_window _ _ Hrep) as Hwin.
  pose proof (layout_bounds _ _ _ _ (rep_layout _ _ Hrep)) as [Hoh _]. unfold ab_log in Hsz. rewrite length_app in Hsz.
  unfold words_ok, fits. rewrite (rep_head _ _ Hrep), (rep_oldest _ _ Hrep), (rep_lost _ _ Hrep).
  assert (ab_head (abs_of cap rs) < 2 ^ 64) by nia. lia.
Qed.

Class QuietSnapshot (S : Type) {CS : ConcurrentStore S} {SQ : Sequenced} {SL : StoreLaws S} :=
  law_quiet s mem r : lawful s → image (cs_capacity s) mem r → words_ok r →
    ∃ sn, solo mem (read_control_snapshot s) = Ok sn ∧ cb_buffer_bytes sn = u32_or_max (cs_capacity s)
      ∧ cb_head_abs sn = ring_head_abs r ∧ cb_oldest_abs sn = ring_oldest_abs r.

Section solo.
Context {BP : BuildProfile} {S : Type} {CS : ConcurrentStore S} {SQ : Sequenced} {SL : StoreLaws S} {QS : QuietSnapshot S}.
Context (cap : nat) (mem : list msg) (r : RingBuffer) (Him : image cap mem r) (Hwords : words_ok r).
Context (s : S) (Hlaw : lawful s) (Hs : cs_capacity s = cap).
Abbreviation bs := (ring_bytes r).

Lemma image_len : length bs = cap.
Proof. apply (im_cap _ _ _ Him). Qed.

Lemma solo_offset {E} x : cs_physical_offset (E:=E) s x = physical_offset bs x.
Proof. unfold cs_physical_offset, physical_offset. by rewrite Hs, image_len. Qed.

Lemma solo_load_byte {E} p b : bs !! p = Some b → solo (E:=E) mem (load_byte_relaxed s p) = Ok b.
Proof.
  intros Hb. pose proof (lookup_lt_Some _ _ _ Hb) as Hlt. rewrite image_len in Hlt.
  rewrite law_load_byte by (done || by rewrite Hs). cbn. by rewrite (im_bytes _ _ _ Him _ _ Hb).
Qed.

Lemma solo_load_bytes {E} n : ∀ p, (p + n ≤ cap)%nat → solo (E:=E) mem (load_bytes s p n) = Ok (seg bs p n).
Proof.
  induction n as [|n IH]; intros p Hp; [done|]. cbn [load_bytes].
  destruct (lookup_lt_is_Some_2 bs p) as [b Hb]; [rewrite image_len; lia|].
  rewrite solo_bind, (solo_load_byte _ _ Hb), ok_bind, solo_bind, IH, ok_bind by lia.
  rewrite (seg_S _ _ _ _ Hb), Nat.add_1_r. done.
Qed.

Lemma solo_done {E A} (x : res E A) : solo mem (Done x) = x.
Proof. done. Qed.

Lemma solo_if {E A} (P : Prop) `{Decision P} (p q : io E A) :
  solo mem (if decide P then p else q) = if decide P then solo mem p else solo mem q.
Proof. by case_decide. Qed.

Lemma solo_acquire {A} (f : unit → io RingError A) : solo mem (acquire_before_recheck s ≫= f) = solo mem (f tt).
Proof. by rewrite law_acquire. Qed.

Lemma solo_oldest_after {A} (f : u64 → io RingError A) :
  solo mem (io_map_err RingControlBlock (read_oldest_after_record s) ≫= f) = solo mem (f (ring_oldest_abs r)).
Proof. by rewrite <-(im_oldest _ _ _ Him), law_oldest_after. Qed.

(** One record, at or above [OldestAbs]. *)
Lemma solo_read_record x :
  (0 < cap)%nat → ring_oldest_abs r ≤ x →
  solo mem (read_store_record s x (phys cap x)) =
    (if decide (cap < phys cap x + HEADER_LEN)%nat then Err (RecordCrossesBoundary x) else
     if decide (seg bs (phys cap x) 4 ≠ SYNC) then Err (RingWire WrongSync) else
     let n := Z.to_nat (from_le_bytes (seg bs (phys cap x + 4) 2)) in
     if decide (n < HEADER_LEN)%nat then Err (RingWire (InvalidLength n (cap - phys cap x)%nat)) else
     if decide (cap < phys cap x + n)%nat then Err (RecordCrossesBoundary x) else
     decoded ← map_err RingWire (decode (seg bs (phys cap x) n));
     end_abs ← add64 x (Z.of_nat (dec_consumed decoded));
     Ok (n, {| rr_start_abs := x; rr_end_abs := end_abs; rr_record := dec_record decoded |})).
Proof.
  intros Hc Hx. unfold read_store_record. rewrite Hs, solo_if.
  case_decide as H1; [done|]. unfold HEADER_LEN in H1.
  rewrite solo_bind, solo_load_bytes, ok_bind, solo_if by lia. case_decide; [done|].
  rewrite solo_bind, solo_load_bytes, ok_bind by lia. cbv zeta. set (n := Z.to_nat _).
  rewrite solo_if. case_decide; [done|]. rewrite solo_if. case_decide; [done|].
  rewrite solo_bind, solo_load_bytes, ok_bind by lia. rewrite solo_acquire, solo_oldest_after.
  rewrite decide_False by lia. rewrite solo_bind, solo_done.
  destruct (decode (seg bs (phys cap x) n)) as [d|e| |]; try done. cbn [map_err]. rewrite !ok_bind.
  rewrite solo_bind, solo_done. by destruct (add64 x (Z.of_nat (dec_consumed d))).
Qed.

Lemma solo_loop h fuel : ∀ x acc calls,
  (0 < cap)%nat →
  solo mem (store_loop fuel s h (ring_oldest_abs r) x acc)
  = (res ← raw_loop fuel bs h (ring_oldest_abs r) (λ _, ring_oldest_abs r) calls x acc; Ok res.1).
Proof.
  induction fuel as [|fuel IH]; intros x acc calls Hc; cbn [store_loop raw_loop].
  { by case_decide. }
  rewrite solo_if. case_decide as Hx; [|done]. rewrite solo_if. case_decide as Ho; [done|].
  rewrite solo_bind, solo_done, solo_offset, physical_offset_ok, image_len, !ok_bind by (rewrite image_len; lia).
  pose proof (phys_lt _ Hc x) as Hp. destruct (lookup_lt_is_Some_2 bs (phys cap x)) as [b Hb]; [by rewrite image_len|].
  rewrite solo_bind, (solo_load_byte _ _ Hb), (index_ok _ _ _ Hb), !ok_bind, solo_if.
  case_decide as Hz.
  { rewrite solo_if. case_decide; [done|]. rewrite solo_bind, solo_done, Hs.
    destruct (add64 _ _) as [y|e| |]; [|done..]. rewrite !ok_bind. by apply IH. }
  rewrite solo_bind, solo_read_record by (done || lia). case_decide as H1; [done|]. unfold HEADER_LEN in H1.
  rewrite slice_ok, ok_bind by (rewrite ?image_len; lia).
  replace (phys cap x + 4 - phys cap x)%nat with 4%nat by lia. case_decide; [done|].
  change (read_le_u16 (E:=RingError)) with (read_u16 (E:=RingError)).
  rewrite read_u16_ok, !ok_bind by (rewrite image_len; lia). cbv zeta. set (n := Z.to_nat _).
  case_decide; [done|]. case_decide; [done|]. rewrite slice_ok, ok_bind by (rewrite ?image_len; lia).
  replace (phys cap x + n - phys cap x)%nat with n by lia.
  destruct (decode (seg bs (phys cap x) n)) as [d|e| |]; try done. cbn [map_err]. rewrite !ok_bind.
  destruct (add64 x (Z.of_nat (dec_consumed d))) as [y|e| |] eqn:Hy; try done. rewrite !ok_bind.
  rewrite solo_bind, solo_done. destruct (add64 x (Z.of_nat n)) as [z|e| |]; [|done..]. rewrite !ok_bind. by apply IH.
Qed.

(** The whole read. *)
Lemma solo_read c :
  (0 < cap)%nat → Z.of_nat cap < 2 ^ 32 → solo mem (read_raw_from_store s c) = read_raw_from r c.
Proof.
  intros Hc H32. unfold read_raw_from_store, read_raw_from, read_raw_window, io_map_err.
  assert (Him' : image (cs_capacity s) mem r) by (by rewrite Hs).
  destruct (law_quiet s mem r Hlaw Him' Hwords) as (sn & Hsn & Hb & Hh & Ho). rewrite solo_bind, solo_match, Hsn.
  change (solo mem (io_ret (E:=RingError) ?a)) with (Ok (E:=RingError) a). rewrite ok_bind, Hb, Hh, Ho, Hs.
  assert (Hu : u32_or_max cap = Z.of_nat cap) by (unfold u32_or_max; by rewrite decide_True).
  rewrite Hu, Nat2Z.id, decide_False by tauto. cbv zeta.
  set (x := if bool_decide _ then _ else _). rewrite solo_bind, (solo_loop _ _ x [] 0%nat) by done.
  destruct (raw_loop _ _ _ _ _ _ _ _) as [[recs calls]|e| |]; [|done..]. rewrite !ok_bind. cbn [fst].
  rewrite <-(im_oldest _ _ _ Him).
  rewrite solo_bind, law_load_oldest by done. change (solo mem (Ld Acquire LOldest io_ret)) with (Ok (E:=RingError) (cur mem LOldest)). rewrite ok_bind.
  by rewrite !decide_False by tauto.
Qed.

(** The poll around it. *)
Lemma solo_poll c b :
  (0 < cap)%nat → Z.of_nat cap < 2 ^ 32 → cc_store c = s → 0 ≤ cc_lapped_batches c → cc_lapped_batches c + 1 < 2 ^ 64 →
  read_raw_from r (cc_cursor_abs c) = Ok b →
  ∃ c', solo mem (poll c) = Ok (c', inl b) ∧ cc_cursor_abs c' = rb_next_abs b.
Proof.
  intros Hc H32 Hst H0 Hn Hr. unfold poll. rewrite Hst, solo_match, solo_read, Hr by done.
  destruct (rb_lapped b); rewrite ?add_w_ok by lia; cbn; by eexists.
Qed.
End solo.

#[global] Instance owned_quiet : QuietSnapshot OwnedConcurrentStore (SQ := owned_sequenced).
Proof.
  intros s mem r _ Him _. eexists. cbn [read_control_snapshot owned_store]. unfold ocs_read_control_snapshot.
  unfold ocs_load_head_acquire, ocs_load_oldest_acquire, ocs_load_lost_acquire.
  rewrite <-(im_head _ _ _ Him), <-(im_oldest _ _ _ Him). split_and!; reflexivity.
Qed.
