(* ===== verification/ConcurrentRead.v ===== *)
(** * The concurrent consumer (crates/carriage/src/concurrent.rs)

    What a poll returns while the producer goes on, for any reads the memory
    model allows: every byte read is the one the log holds there, or the bytes
    were reclaimed and the reader is bound to find out. *)
From S2P Require Import Prelude Crc Wire Control Layout Ring RingRead Memory Concurrent ConcurrentWriter.

#[local] Arguments from_le_bytes : simpl never.

(** ** Walks, multiples of the capacity, and logs *)
Lemma layout_multiple bs a es h m :
  (0 < length bs)%nat → layout bs a es h → a ≤ m → m < h → phys (length bs) m = 0%nat →
  ∃ es1 es2, es = es1 ++ es2 ∧ layout bs m es2 h.
Proof.
  intros Hcap Hl. induction Hl as [a|e es h Hok Hfit Hseg Hrest IH|a e es h Hp Hb Hrest IH]; intros Ham Hmh Hm; [lia| |].
  - destruct (decide (en_end e ≤ m)) as [Hle|Hgt].
    + destruct (IH Hle Hmh Hm) as (es1 & es2 & -> & Hl). by exists (e :: es1), es2.
    + destruct (decide (en_start e = m)) as [<-|Hne]; [exists [], (e :: es); split; [done|by apply layout_rec]|].
      unfold en_end in Hgt. assert (Hphys : phys (length bs) m = (phys (length bs) (en_start e) + Z.to_nat (m - en_start e))%nat).
      { rewrite <-phys_add by lia. f_equal. lia. }
      lia.
  - pose proof (phys_lt _ Hcap a) as Hlt. pose proof (phys_wrap _ Hcap a) as Hw.
    destruct (decide (a + Z.of_nat (length bs - phys (length bs) a) ≤ m)) as [Hle|Hgt]; [by apply IH|].
    assert (phys (length bs) m = (phys (length bs) a + Z.to_nat (m - a))%nat); [|lia].
    rewrite <-phys_add by lia. f_equal. lia.
Qed.

Lemma sublist_filter_l {A} (P : A → Prop) `{∀ x, Decision (P x)} (l1 l2 : list A) :
  l1 `sublist_of` l2 → Forall P l1 → l1 `sublist_of` filter P l2.
Proof.
  induction 1 as [|x l1 l2 Hs IH|x l1 l2 Hs IH]; intros Hf; [constructor| |].
  - apply Forall_cons_1 in Hf as [Hx Hf]. rewrite filter_cons, decide_True by done. constructor. by apply IH.
  - rewrite filter_cons. case_decide; [|by apply IH]. constructor. by apply IH.
Qed.

Lemma filter_ext_in {A} (P Q : A → Prop) `{∀ x, Decision (P x)} `{∀ x, Decision (Q x)} (l : list A) :
  Forall (λ x, P x ↔ Q x) l → filter P l = filter Q l.
Proof.
  induction 1 as [|x l Hx _ IH]; [done|]. rewrite !filter_cons, IH. do 2 case_decide; tauto.
Qed.

(** A log in the order of its offsets, and what two reads of it deliver. *)
Definition ordered (l : list Entry) : Prop :=
  StronglySorted (λ x y, en_end x ≤ en_start y) l ∧ Forall (λ e, en_start e < en_end e) l.

Lemma ordered_window l D D' :
  ordered l → D ≤ D' →
  filter (λ e, en_end e ≤ D) l ++ filter (λ e, D ≤ en_start e ∧ en_end e ≤ D') l
    `sublist_of` filter (λ e, en_end e ≤ D') l.
Proof.
  intros [Hs Hp] HD. induction Hs as [|x l Hl IH Hx]; [constructor|]. apply Forall_cons_1 in Hp as [Hpx Hp].
  specialize (IH Hp). rewrite !filter_cons. destruct (decide (en_end x ≤ D)) as [H1|H1].
  - rewrite (decide_False (P := D ≤ _ ∧ _)), (decide_True (P := en_end x ≤ D')) by lia. cbn. by constructor.
  - assert (Hnil : filter (λ e, en_end e ≤ D) l = []).
    { apply filter_none. apply Forall_forall. intros y Hy. rewrite Forall_forall in Hx, Hp. specialize (Hx y Hy).
      specialize (Hp y Hy). lia. }
    rewrite Hnil in *. cbn [app] in *. destruct (decide (en_end x ≤ D')); case_decide; [by constructor|by constructor|lia|done].
Qed.

Section pool.
Context (cap : nat).

(** The pool after [n] messages holds what the latest of them say. *)
Lemma pool_latest mem n p :
  (n ≤ length mem)%nat → (p < cap)%nat →
  pool_of cap (take n mem) !! p = value_at mem (LByte p) (latest mem n (LByte p)).
Proof.
  induction n as [|n IH]; intros Hn Hp.
  { cbn. unfold pool_of. rewrite take_0. cbn. by rewrite lookup_replicate_2. }
  destruct (lookup_lt_is_Some_2 mem n Hn) as [m Hm]. rewrite (take_S_r _ _ _ Hm), pool_of_app. cbn [foldl latest].
  rewrite Hm. unfold apply_msg. destruct (m_loc m) as [q| | | |] eqn:Hl; [|rewrite decide_False by done; apply IH; lia..].
  destruct (decide (q = p)) as [->|Hne].
  - rewrite decide_True by done. rewrite list_lookup_insert_eq by (by rewrite length_pool).
    cbn [value_at]. by rewrite Hm, decide_True by done.
  - rewrite decide_False by congruence. rewrite list_lookup_insert_ne by done. apply IH; lia.
Qed.
End pool.

(** ** Readers of one history

    [RS] are all the records the writer will have appended, [M] the messages;
    memory grows along them. *)
Section reader.
Context {BP : BuildProfile} {S : Type} {CS : ConcurrentStore S} {SQ : Sequenced} {SL : StoreLaws S}.
Context (strong : bool) (cap : nat) (Hcap : (0 < cap)%nat).
Context (RS : list WireRecord) (Hok : rs_ok cap RS).

Definition grows (m m' : list msg) : Prop := m `prefix_of` m' ∧ m' `prefix_of` mem_of cap RS.

Lemma grows_trans m1 m2 m3 : grows m1 m2 → grows m2 m3 → grows m1 m3.
Proof. intros [H1 _] [H2 H3]. split; [by etrans|done]. Qed.

Lemma grows_refl m : m `prefix_of` mem_of cap RS → grows m m.
Proof. by split. Qed.

(** Views only advance. *)
Definition extends (V V' : rview) : Prop :=
  (rv_cur V ≤ rv_cur V')%nat ∧ (rv_acq V ≤ rv_acq V')%nat
  ∧ (strong = true ∨ ∀ l, (rv_seen V l ≤ rv_seen V' l)%nat).

(** The message at [t] is in the view, or will be at the next fence. *)
Definition known (V : rview) (t : nat) : Prop := strong = true ∨ (t ≤ rv_cur V)%nat.
Definition pending (V : rview) (t : nat) : Prop := strong = true ∨ (t ≤ rv_acq V)%nat.

(** The bytes at [x] have been reclaimed, and the reader is bound to see it. *)
Definition overwritten (mem : list msg) (V : rview) (x : Z) : Prop :=
  ∃ t o, value_at mem LOldest t = Some o ∧ x < o ∧ pending V t.

Lemma extends_refl V : extends V V.
Proof. split_and!; [done|done|by right]. Qed.
Lemma extends_trans V1 V2 V3 : extends V1 V2 → extends V2 V3 → extends V1 V3.
Proof.
  intros (? & ? & H1) (? & ? & H2). split_and!; [lia|lia|].
  destruct H1 as [?|H1], H2 as [?|H2]; [by left..|]. right. intros l. specialize (H1 l). specialize (H2 l). lia.
Qed.
Lemma known_extends V V' t : extends V V' → known V t → known V' t.
Proof. unfold extends, known. intros ? [?|?]; [by left|right; lia]. Qed.

Lemma overwritten_grows mem mem' V V' x y :
  grows mem mem' → extends V V' → y ≤ x → overwritten mem V x → overwritten mem' V' y.
Proof.
  intros [Hg _] (_ & He & _) Hxy (t & o & Hv & Ho & Hp). exists t, o. split_and!; [by eapply value_at_grows|lia|].
  destruct Hp as [?|?]; [by left|right; lia].
Qed.

Lemma extends_load o mem V l t : can_read strong mem V l t → extends V (after_load o mem V l t).
Proof.
  unfold extends, after_load, can_read. intros Hr. split_and!; [destruct o; cbn; lia|destruct o; cbn; lia|].
  destruct strong; [by left|right]. intros l'. cbn. case_decide; [subst; lia|lia].
Qed.
Lemma extends_fence o V : extends V (after_fence o V).
Proof. unfold extends, after_fence. split_and!; [destruct o; cbn; lia|destruct o; cbn; lia|right; by destruct o]. Qed.

(** A read is not older than anything known. *)
Lemma read_ge mem V l t to v :
  can_read strong mem V l t → value_at mem l to = Some v → known V to → (to ≤ t)%nat.
Proof.
  unfold can_read, known. intros Hr Hv Hk. destruct strong.
  - subst t. eapply latest_max; [done|]. by eapply value_at_le.
  - destruct Hk as [?|Hk]; [done|]. pose proof (latest_max _ _ _ _ _ Hv Hk). lia.
Qed.

Lemma value_in_M m l t v : m `prefix_of` mem_of cap RS → value_at m l t = Some v → value_at (mem_of cap RS) l t = Some v.
Proof. intros. by eapply value_at_grows. Qed.

(** Later [OldestAbs] values are larger. *)
Lemma oldest_le t1 t2 o1 o2 :
  value_at (mem_of cap RS) LOldest t1 = Some o1 → value_at (mem_of cap RS) LOldest t2 = Some o2 →
  (t1 ≤ t2)%nat → o1 ≤ o2.
Proof.
  pose proof (facts_hold cap Hcap RS Hok) as F. intros H1 H2 Ht.
  destruct (fa_oldest _ _ F _ _ H2) as [[-> ->]|(rs2 & rec2 & Hp2 & -> & Hl2)].
  { assert (t1 = 0%nat) as -> by lia. cbn in H1. injection H1 as <-. done. }
  assert (Hok2 : rs_ok cap (rs2 ++ [rec2])) by (by eapply rs_ok_prefix).
  destruct (fa_oldest _ _ F _ _ H1) as [[-> ->]|(rs1 & rec1 & Hp1 & -> & Hl1)].
  - destruct (history_ring cap Hcap _ Hok2) as (r & _ & Hrep & _). apply (rep_window _ _ Hrep).
  - apply oldest_mono; [done| |done].
    destruct (prefix_weak_total _ _ _ Hp1 Hp2) as [|Hp]; [done|].
    apply prefix_snoc_inv in Hp as [->|Hp]; [done|].
    pose proof (prefix_length _ _ (mem_of_prefix cap _ _ Hp)). lia.
Qed.

(** *** One published append: the reader's reference point *)
Section published.
Context (rs1 : list WireRecord) (Hrs1 : rs1 `prefix_of` RS).
Abbreviation a1 := (abs_of cap rs1).
Abbreviation L1 := (length (mem_of cap rs1)).
Abbreviation bs1 := (pool_of cap (mem_of cap rs1)).
Abbreviation h := (ab_head (abs_of cap rs1)).

Lemma rep1 : ∃ r, ring_rep r a1 ∧ ring_bytes r = bs1.
Proof.
  assert (Hok1 : rs_ok cap rs1) by (by eapply rs_ok_prefix).
  destruct (history_ring cap Hcap _ Hok1) as (r & _ & Hrep & Hb & _). by exists r.
Qed.

Lemma head_room : 0 ≤ h ∧ h + Z.of_nat cap < 2 ^ 64.
Proof.
  assert (Hok1 : rs_ok cap rs1) by (by eapply rs_ok_prefix).
  destruct (history_ring cap Hcap _ Hok1) as (r & _ & Hrep & _ & Hh). destruct Hok1 as [_ Hr].
  pose proof (rep_window _ _ Hrep). pose proof (layout_bounds _ _ _ _ (rep_layout _ _ Hrep)). nia.
Qed.

(** A byte below the published head reads as published, or is reclaimed. *)
Lemma read_byte mem V y t v :
  mem `prefix_of` mem_of cap RS → (L1 ≤ length mem)%nat → known V L1 → y < h →
  value_at mem (LByte (phys cap y)) t = Some v → can_read strong mem V (LByte (phys cap y)) t →
  bs1 !! phys cap y = Some v ∨ overwritten mem (after_load Relaxed mem V (LByte (phys cap y)) t) y.
Proof.
  intros Hm HL Hk Hy Hv Hr. pose proof (facts_hold cap Hcap RS Hok) as F.
  set (M := mem_of cap RS) in *. set (l := LByte (phys cap y)) in *.
  assert (Hp1 : mem_of cap rs1 `prefix_of` M) by (by apply mem_of_prefix).
  assert (Htake : take L1 mem = mem_of cap rs1).
  { destruct Hm as [k Hk']. destruct Hp1 as [k' Hk'']. rewrite Hk' in Hk''.
    pose proof (f_equal (take L1) Hk'') as Ht. rewrite take_app_le, take_app_length in Ht by done. done. }
  pose proof (value_in_M _ _ _ _ Hm Hv) as HvM.
  destruct (latest_value mem L1 l HL) as [w Hw].
  assert (Hge : (latest mem L1 l ≤ t)%nat).
  { eapply read_ge; [exact Hr|exact Hw|]. pose proof (latest_le mem L1 l). destruct Hk as [?|?]; [by left|right; lia]. }
  destruct (decide (t ≤ L1)%nat) as [Ht|Ht].
  - left. assert (t = latest mem L1 l) as ->.
    { pose proof (latest_max mem L1 l t v Hv Ht). lia. }
    rewrite <-Htake, pool_latest; [exact Hv|done|]. by apply phys_lt.
  - right. destruct (fa_byte _ _ F _ _ _ HvM) as [->|(rs0 & rec & to & Hp & H1 & H2 & H3 & H4 & x & Hx & Hxp)]; [lia|].
    assert (Hok0 : rs_ok cap (rs0 ++ [rec])) by (by eapply rs_ok_prefix).
    assert (Hrs0 : rs1 `prefix_of` rs0).
    { destruct (prefix_weak_total _ _ _ Hrs1 Hp) as [Hpp|Hpp].
      - apply prefix_snoc_inv in Hpp as [->|Hpp]; [|done]. lia.
      - pose proof (prefix_length _ _ (mem_of_prefix cap _ _ Hpp)). lia. }
    assert (Hrs0' : rs_ok cap rs0) by (eapply rs_ok_prefix; [exact Hcap|by apply prefix_app_r|exact Hok0]).
    pose proof (head_mono cap Hcap _ _ Hrs0 Hrs0') as Hh.
    destruct (history_ring cap Hcap _ Hok0) as (r & _ & Hrep & _). destruct (rep_window _ _ Hrep) as [_ Hwin].
    rewrite (abs_of_cap cap) in Hwin.
    assert (x < y + Z.of_nat cap → x = y) by (intros; symmetry; apply (phys_inj cap Hcap); [lia|done]).
    pose proof (value_at_le _ _ _ _ Hv) as Htm.
    exists to, (ab_oldest (abs_of cap (rs0 ++ [rec]))). split_and!; [|lia|].
    + rewrite <-H3. symmetry. by apply value_at_prefix; [|lia].
    + right. cbn [after_load rv_acq]. rewrite <-(view_at_prefix _ _ Hm t Htm). unfold M. lia.
Qed.

(** *** The reader's programs *)
Context (s : S) (Hlaw : lawful s) (Hs : cs_capacity s = cap).

Definition at_ease (mem : list msg) (V : rview) : Prop :=
  mem `prefix_of` mem_of cap RS ∧ (L1 ≤ length mem)%nat ∧ known V L1.

Lemma at_ease_grows mem mem' V V' : at_ease mem V → grows mem mem' → extends V V' → at_ease mem' V'.
Proof.
  intros (_ & HL & Hk) [Hg Hm] He. split_and!; [done| |by eapply known_extends].
  pose proof (prefix_length _ _ Hg). lia.
Qed.

(** What a step of the reader may rely on afterwards. *)
Definition moved (mem : list msg) (V : rview) (mem' : list msg) (V' : rview) : Prop :=
  grows mem mem' ∧ extends V V'.

Lemma moved_trans mem V mem1 V1 mem2 V2 :
  moved mem V mem1 V1 → moved mem1 V1 mem2 V2 → moved mem V mem2 V2.
Proof. intros [H1 H2] [H3 H4]. split; [by eapply grows_trans|by eapply extends_trans]. Qed.

Lemma moved_refl mem V : mem `prefix_of` mem_of cap RS → moved mem V mem V.
Proof. intros. split; [by apply grows_refl|apply extends_refl]. Qed.

Lemma moved_overwritten mem V mem' V' x y :
  moved mem V mem' V' → y ≤ x → overwritten mem V x → overwritten mem' V' y.
Proof. intros [Hg He] Hxy. by apply overwritten_grows. Qed.

Lemma moved_ease mem V mem' V' : moved mem V mem' V' → at_ease mem V → at_ease mem' V'.
Proof. intros [Hg He] Hm. by eapply at_ease_grows. Qed.

Lemma wp_load_byte {E A} y mem V (f : Z → io E A) Q :
  at_ease mem V →
  (∀ mem' V' v, moved mem V mem' V' → (y < h → bs1 !! phys cap y = Some v ∨ overwritten mem' V' y) →
     wp strong grows (f v) mem' V' Q) →
  wp strong grows (load_byte_relaxed s (phys cap y) ≫= f) mem V Q.
Proof.
  intros Hm HQ. rewrite law_load_byte by (done || (rewrite Hs; by apply phys_lt)). cbn [mbind io_bind io_match wp io_ret].
  intros mem' t v Hg Hv Hr. destruct (at_ease_grows _ _ V V Hm Hg (extends_refl V)) as (Hm' & HL & Hk).
  apply HQ; [split; [done|by apply extends_load]|]. intros Hy. eapply read_byte; [done..|exact Hv|exact Hr].
Qed.

Lemma wp_load_bytes {E} n : ∀ A y mem V (f : bytes → io E A) Q,
  at_ease mem V → (phys cap y + n ≤ cap)%nat →
  (∀ mem' V' bs, moved mem V mem' V' → length bs = n →
     (y + Z.of_nat n ≤ h → bs = seg bs1 (phys cap y) n ∨ overwritten mem' V' y) →
     wp strong grows (f bs) mem' V' Q) →
  wp strong grows (load_bytes s (phys cap y) n ≫= f) mem V Q.
Proof.
  induction n as [|n IH]; intros A y mem V f Q Hm Hp HQ.
  { apply HQ; [by apply moved_refl, Hm|done|]. by left. }
  cbn [load_bytes]. apply wp_bind, wp_load_byte; [done|]. intros mem1 V1 v Hmv1 Hv.
  pose proof (moved_ease _ _ _ _ Hmv1 Hm) as Hm1. destruct (decide (n = 0%nat)) as [->|Hn].
  - cbn [load_bytes]. cbn [mbind io_bind io_match wp io_ret]. apply HQ; [done|done|]. intros Hy.
    destruct (Hv ltac:(lia)) as [Hb|Ho]; [left|by right]. by rewrite (seg_S _ _ _ _ Hb).
  - rewrite <-(phys_add cap Hcap y 1) by lia. apply IH; [done|rewrite phys_add by lia; lia|].
    intros mem2 V2 bs Hmv2 Hlen Hbs. cbn [wp io_ret]. apply HQ; [by eapply moved_trans|by cbn; f_equal|].
    intros Hy. destruct (Hv ltac:(lia)) as [Hb|Ho]; [|right; by eapply moved_overwritten].
    destruct (Hbs ltac:(lia)) as [->|Ho]; [left|right; eapply moved_overwritten; [by apply moved_refl, (moved_ease _ _ _ _ Hmv2 Hm1)| |exact Ho]; lia].
    rewrite (seg_S _ _ _ _ Hb), phys_add by lia. by rewrite Nat.add_1_r.
Qed.

(** The bytes at [x] have been reclaimed. *)
Definition reclaimed (mem : list msg) (x : Z) : Prop := ∃ t o, value_at mem LOldest t = Some o ∧ x < o.

Lemma overwritten_reclaimed mem V x : overwritten mem V x → reclaimed mem x.
Proof. intros (t & o & Hv & Ho & _). by exists t, o. Qed.

(** An error that only a reclaimed byte above [c] explains. *)
Definition torn {A} (c : Z) (mem : list msg) (r : res RingError A) : Prop :=
  match r with
  | Err e => reclaimed mem c ∧
      ∀ x o, e = OverwrittenMidRead x o → c < o ∧ ∃ t, value_at mem LOldest t = Some o
  | Ok _ | Panic | Diverge => False
  end.

Lemma torn_wire {A} c mem V (e : RingError) :
  overwritten mem V c → (∀ x o, e ≠ OverwrittenMidRead x o) → torn c mem (Err (A:=A) e).
Proof. intros Ho He. split; [by eapply overwritten_reclaimed|]. by intros x o ?%He. Qed.

Lemma wp_recheck {A} mem V (f : u64 → io RingError A) Q :
  at_ease mem V →
  (∀ mem' V' o t, moved mem V mem' V' → value_at mem' LOldest t = Some o →
     (∀ x, overwritten mem V x → x < o) → wp strong grows (f o) mem' V' Q) →
  wp strong grows (_ ← acquire_before_recheck s;
                   o ← io_map_err RingControlBlock (read_oldest_after_record s); f o) mem V Q.
Proof.
  intros Hm HQ. rewrite law_acquire, law_oldest_after by done. unfold io_map_err. cbn [mbind io_bind io_match wp io_ret]. intros mem1 Hg1 mem2 t o Hg2 Hv Hr.
  apply (HQ _ _ _ t); [split; [by eapply grows_trans|]|done|].
  { eapply extends_trans; [apply (extends_fence Acquire)|by apply extends_load]. }
  intros x (to & o' & Hvo & Ho' & Hp). assert (Hg : grows mem mem2) by (by eapply grows_trans).
  assert (Hvo2 : value_at mem2 LOldest to = Some o') by (by eapply value_at_grows; [apply Hg|]).
  assert (Hto : (to ≤ t)%nat).
  { eapply read_ge; [exact Hr|exact Hvo2|]. destruct Hp as [?|Hp]; [by left|right]. cbn. lia. }
  pose proof (oldest_le to t o' o (value_in_M _ _ _ _ (proj2 Hg) Hvo2) (value_in_M _ _ _ _ (proj2 Hg) Hv) Hto). lia.
Qed.

(** A whole record of the published log at [y]. *)
Definition good (y : Z) (e : Entry) : Prop :=
  y = en_start e ∧ entry_ok e ∧ (phys cap y + en_len e ≤ cap)%nat
  ∧ seg bs1 (phys cap y) (en_len e) = en_bytes e ∧ en_end e ≤ h.

Lemma good_head y e :
  good y e → seg bs1 (phys cap y) 4 = SYNC
  ∧ Z.to_nat (from_le_bytes (seg bs1 (phys cap y + 4) 2)) = en_len e ∧ (44 ≤ en_len e)%nat
  ∧ bs1 !! phys cap y = Some 0x4F.
Proof.
  intros (-> & He & Hf & Hsg & Hend). pose proof (length_pool cap (mem_of cap rs1)) as Hl.
  destruct (entry_head bs1 e He) as (H1 & H2 & H3); [by rewrite Hl|by rewrite Hl|].
  rewrite Hl in H1, H2, H3. destruct (en_len_bounds e He). split_and!; done.
Qed.

Lemma wp_read_record y e mem V :
  at_ease mem V → overwritten mem V y ∨ good y e →
  wp strong grows (read_store_record s y (phys cap y)) mem V (λ mem' V' r,
    moved mem V mem' V' ∧ (good y e ∧ r = Ok (en_len e, en_read e) ∨ torn y mem' r)).
Proof.
  intros Hm Hst. unfold read_store_record. rewrite Hs.
  destruct (decide (cap < phys cap y + HEADER_LEN)%nat) as [Hh|Hh].
  { split; [by apply moved_refl, Hm|right]. destruct Hst as [Ho|Hge]; [by apply (torn_wire _ _ _ _ Ho)|].
    destruct (good_head y e Hge) as (_ & _ & H44 & _). destruct Hge as (_ & _ & Hf & _). unfold HEADER_LEN in Hh. lia. }
  unfold HEADER_LEN in Hh. apply wp_load_bytes; [done|lia|]. intros mem1 V1 sync Hmv1 _ Hsync.
  pose proof (moved_ease _ _ _ _ Hmv1 Hm) as Hm1.
  assert (Hst1 : overwritten mem1 V1 y ∨ good y e ∧ sync = SYNC).
  { destruct Hst as [Ho|Hge]; [left; by eapply moved_overwritten|]. destruct (good_head y e Hge) as (Hsy & _ & H44 & _).
    pose proof Hge as (Hy & _ & _ & _ & Hend). unfold en_end in Hend.
    destruct (Hsync ltac:(lia)) as [->|Ho]; [|by left]. right. done. }
  destruct (decide (sync ≠ SYNC)) as [Hne|_].
  { split; [done|right]. destruct Hst1 as [Ho|[_ ?]]; [by apply (torn_wire _ _ _ _ Ho)|done]. }
  rewrite <-(phys_add cap Hcap y 4) by lia.
  apply wp_load_bytes; [done|rewrite phys_add by lia; lia|]. intros mem2 V2 len Hmv2 _ Hlen.
  pose proof (moved_ease _ _ _ _ Hmv2 Hm1) as Hm2. pose proof (moved_trans _ _ _ _ _ _ Hmv1 Hmv2) as Hmv.
  cbv zeta. set (n := Z.to_nat (from_le_bytes len)).
  assert (Hst2 : overwritten mem2 V2 y ∨ good y e ∧ n = en_len e).
  { destruct Hst1 as [Ho|[Hge _]]; [left; exact (moved_overwritten _ _ _ _ _ _ Hmv2 (Z.le_refl _) Ho)|]. destruct (good_head y e Hge) as (_ & Hn & H44 & _).
    pose proof Hge as (Hy & _ & _ & _ & Hend). unfold en_end in Hend.
    destruct (Hlen ltac:(lia)) as [Hl|Ho]; [right|left; eapply moved_overwritten; [by apply moved_refl, Hm2| |exact Ho]; lia].
    split; [done|]. unfold n. rewrite Hl, <-Hn, phys_add by lia. done. }
  destruct (decide (n < HEADER_LEN)%nat) as [Hn|Hn].
  { split; [done|right]. destruct Hst2 as [Ho|(Hge & Hne)]; [by apply (torn_wire _ _ _ _ Ho)|].
    destruct (good_head y e Hge) as (_ & _ & H44 & _). unfold HEADER_LEN in Hn. lia. }
  destruct (decide (cap < phys cap y + n)%nat) as [Hc|Hc].
  { split; [done|right]. destruct Hst2 as [Ho|(Hge & Hne)]; [by apply (torn_wire _ _ _ _ Ho)|].
    destruct Hge as (_ & _ & Hf & _). lia. }
  apply wp_load_bytes; [done|lia|]. intros mem3 V3 bs Hmv3 _ Hbs.
  pose proof (moved_ease _ _ _ _ Hmv3 Hm2) as Hm3. pose proof (moved_trans _ _ _ _ _ _ Hmv Hmv3) as Hmv'.
  assert (Hst3 : overwritten mem3 V3 y ∨ good y e ∧ n = en_len e ∧ bs = en_bytes e).
  { destruct Hst2 as [Ho|(Hge & Hne)]; [left; exact (moved_overwritten _ _ _ _ _ _ Hmv3 (Z.le_refl _) Ho)|].
    pose proof Hge as (Hy & _ & _ & Hseg & Hend). unfold en_end in Hend.
    destruct (Hbs ltac:(lia)) as [->|Ho]; [right|by left]. split_and!; [done|done|by rewrite Hne]. }
  apply wp_recheck; [done|]. intros mem4 V4 o t Hmv4 Ho Hover.
  pose proof (moved_trans _ _ _ _ _ _ Hmv' Hmv4) as Hmv''.
  destruct (decide (y < o)) as [Hlt|Hge].
  { split; [done|right]. split; [by exists t, o|]. intros x o' [= <- <-]. split; [done|by exists t]. }
  destruct Hst3 as [Hov|(Hgd & Hn' & ->)]; [specialize (Hover _ Hov); lia|].
  pose proof Hgd as (Hy & Hok' & _ & _ & Hend). pose proof head_room as [_ Hroom].
  rewrite (entry_decode e Hok'). cbn [mbind io_bind io_match map_err dec_consumed dec_record].
  rewrite add_w_ok by (unfold en_end in Hend; lia). cbn [wp io_ret]. split; [done|left]. split; [done|].
  rewrite Hn', Hy. done.
Qed.

(** What the loop returns from [abs], where the published walk meets [es]:
    [es] as written, or, once bytes at or above [c] are reclaimed, a part of it
    or an error. *)
Definition outcome (c : Z) (es : list Entry) (acc : list ReadRecord) (mem : list msg) (V : rview)
    (r : res RingError (list ReadRecord)) : Prop :=
  match r with
  | Ok recs => ∃ es', recs = acc ++ (en_read <$> es') ∧ es' `sublist_of` es
                      ∧ (es' = es ∨ overwritten mem V c)
  | _ => torn c mem r
  end.

Definition walk (abs : Z) (es : list Entry) : Prop := layout bs1 abs es h ∨ h ≤ abs ∧ es = [].

Lemma walk_end abs es : h ≤ abs → walk abs es → es = [].
Proof.
  intros Ha [Hl|[_ ?]]; [|done]. pose proof (layout_ok _ _ _ _ Hl) as Hk.
  destruct es as [|e es]; [done|]. apply Forall_cons_1 in Hk as [Hk _].
  pose proof (layout_bounds _ _ _ _ Hl) as [_ Hb]. apply Forall_cons_1 in Hb as [[Hb1 Hb2] _].
  destruct (en_len_bounds e Hk). unfold en_end in Hb2. lia.
Qed.

Lemma torn_mono {A} c c' mem (r : res RingError A) : c ≤ c' → torn c' mem r → torn c mem r.
Proof.
  intros Hc. destruct r as [|e| |]; try done. intros [(t & o & Hv & Ho) He]. split; [exists t, o; split; [done|lia]|].
  intros x o' Heq. destruct (He x o' Heq) as [? ?]. split; [lia|done].
Qed.

(** A jump from reclaimed bytes lands on the published walk again. *)
Lemma jump_walk abs es :
  layout bs1 abs es h → ∃ es2, es2 `sublist_of` es ∧ walk (abs + Z.of_nat (cap - phys cap abs)) es2.
Proof.
  intros Hl. pose proof (length_pool cap (mem_of cap rs1)) as Hlen.
  destruct (decide (abs + Z.of_nat (cap - phys cap abs) < h)) as [Hlt|Hge].
  - pose proof (phys_lt _ Hcap abs). destruct (layout_multiple bs1 abs es h (abs + Z.of_nat (cap - phys cap abs)))
      as (es1 & es2 & -> & Hl2); [lia|done|lia|done|rewrite Hlen; by apply phys_wrap|].
    exists es2. split; [by apply sublist_inserts_l|by left].
  - exists []. split; [apply sublist_nil_l|right; split; [lia|done]].
Qed.

(** What the published log has at [abs]: a record or a wrap marker. *)
Lemma walk_cases abs es :
  layout bs1 abs es h → abs < h →
  (∃ e es1, es = e :: es1 ∧ good abs e ∧ layout bs1 (en_end e) es1 h)
  ∨ phys cap abs ≠ 0%nat ∧ bs1 !! phys cap abs = Some 0
    ∧ layout bs1 (abs + Z.of_nat (cap - phys cap abs)) es h.
Proof.
  intros Hl Hlt. pose proof (length_pool cap (mem_of cap rs1)) as Hlen.
  inversion Hl as [|e es1 ? He Hfit Hseg Hrest|? e es1 ? Hp Hb Hrest]; subst; [lia| |]; rewrite Hlen in *.
  - left. exists e, es1. split_and!; [done|split_and!; try done|done]. by apply layout_bounds in Hrest as [? _].
  - by right.
Qed.

(** One record of the walk, from any state. *)
Lemma wp_record_step abs e mem V c (f : nat * ReadRecord → io RingError (list ReadRecord))
    (Q : list msg → rview → res RingError (list ReadRecord) → Prop) :
  at_ease mem V → c ≤ abs → overwritten mem V abs ∨ good abs e →
  (∀ mem' V' r, moved mem V mem' V' → torn c mem' r → Q mem' V' r) →
  (∀ mem' V', moved mem V mem' V' → good abs e → wp strong grows (f (en_len e, en_read e)) mem' V' Q) →
  wp strong grows (read_store_record s abs (phys cap abs) ≫= f) mem V Q.
Proof.
  intros Hm Hc Hst Ht Hf. apply wp_bind. eapply wp_mono; [|by apply (wp_read_record abs e)].
  intros mem' V' r [Hmv [[Hg ->]|Htorn]]; [by apply Hf|].
  destruct r as [x|err| |]; try done. apply Ht; [done|]. by eapply (torn_mono (A:=list ReadRecord) c abs _ (Err err)).
Qed.

Lemma wp_store_loop fo c fuel : ∀ mem V abs es acc,
  at_ease mem V → c ≤ abs → fo ≤ abs → walk abs es → h - abs ≤ Z.of_nat fuel →
  wp strong grows (store_loop fuel s h fo abs acc) mem V (λ mem' V' r,
    moved mem V mem' V' ∧ outcome c es acc mem' V' r).
Proof.
  induction fuel as [|fuel IH]; intros mem V abs es acc Hm Hc Hfo Hw Hf.
  { cbn [store_loop]. rewrite decide_False by lia. cbn [wp io_ret]. split; [by apply moved_refl, Hm|].
    exists []. rewrite app_nil_r. split_and!; [done|apply sublist_nil_l|left]. symmetry. eapply walk_end; [|done]. lia. }
  cbn [store_loop]. destruct (decide (abs < h)) as [Hlt|Hge].
  2: { cbn [wp io_ret]. split; [by apply moved_refl, Hm|].
    exists []. rewrite app_nil_r. split_and!; [done|apply sublist_nil_l|left]. symmetry. eapply walk_end; [|done]. lia. }
  destruct Hw as [Hl|[? _]]; [|lia]. rewrite decide_False by lia. pose proof head_room as [_ Hroom].
  rewrite cs_physical_offset_ok, Hs by lia. cbn [mbind io_bind io_match].
  change (io_match (load_byte_relaxed s (phys cap abs)) ?f (λ e, Done (Err e)))
    with (load_byte_relaxed (E:=RingError) s (phys cap abs) ≫= f).
  apply wp_load_byte; [done|]. intros mem1 V1 v Hmv1 Hv. specialize (Hv Hlt).
  pose proof (moved_ease _ _ _ _ Hmv1 Hm) as Hm1.
  pose proof (phys_lt _ Hcap abs) as Hphys.
  destruct (decide (v = 0)) as [->|Hv0].
  - assert (Hst : overwritten mem1 V1 abs ∨ phys cap abs ≠ 0%nat
      ∧ layout bs1 (abs + Z.of_nat (cap - phys cap abs)) es h).
    { destruct Hv as [Hb|?]; [right|by left].
      destruct (walk_cases abs es Hl Hlt) as [(e & es1 & -> & Hg & _)|(? & _ & ?)]; [|done].
      destruct (good_head _ _ Hg) as (_ & _ & _ & Hb'). congruence. }
    case_decide as Hp.
    { split; [done|]. destruct Hst as [Ho|[? _]]; [|done]. apply (torn_mono (A:=list ReadRecord) c abs _ _ Hc).
      by apply (torn_wire (A:=list ReadRecord) _ _ _ _ Ho). }
    rewrite add_w_ok by lia.
    assert (Hnext : ∃ es2, es2 `sublist_of` es ∧ walk (abs + Z.of_nat (cap - phys cap abs)) es2
      ∧ (es2 = es ∨ overwritten mem1 V1 c)).
    { destruct Hst as [Ho|[_ Hl2]]; [|exists es; split_and!; [done|by left|by left]].
      destruct (jump_walk abs es Hl) as (es2 & ? & ?). exists es2. split_and!; [done|done|right].
      eapply moved_overwritten; [apply moved_refl, Hm1|exact Hc|exact Ho]. }
    destruct Hnext as (es2 & Hsub & Hw2 & Hor).
    eapply wp_mono; [|apply (IH mem1 V1 _ es2 acc); [done|lia|lia|done|lia]].
    intros mem' V' r [Hmv Hout]. split; [by eapply moved_trans|].
    destruct r as [recs|e| |]; [|exact Hout..]. destruct Hout as (es' & -> & Hs' & Hx). exists es'.
    split_and!; [done|by etrans|]. destruct Hor as [->|Ho]; [done|right]. exact (moved_overwritten _ _ _ _ _ _ Hmv (Z.le_refl _) Ho).
  - assert (Hst : overwritten mem1 V1 abs ∨ ∃ e es1, es = e :: es1 ∧ good abs e ∧ layout bs1 (en_end e) es1 h).
    { destruct Hv as [Hb|?]; [right|by left].
      destruct (walk_cases abs es Hl Hlt) as [?|(_ & ? & _)]; [done|congruence]. }
    assert (He : ∃ e, (overwritten mem1 V1 abs ∨ good abs e)
      ∧ (good abs e → ∃ es1, en_read <$> es = en_read e :: (en_read <$> es1)
           ∧ es = e :: es1 ∧ layout bs1 (en_end e) es1 h)).
    { destruct (walk_cases abs es Hl Hlt) as [(e & es1 & -> & Hg & Hr)|(_ & Hb & _)].
      - exists e. split; [by right|]. intros _. by exists es1.
      - exists {| en_start := abs; en_rec := record_new 0 0 0 0 0 |}. split.
        + destruct Hst as [?|(e & es1 & _ & Hg & _)]; [by left|]. destruct (good_head _ _ Hg) as (_ & _ & _ & ?). congruence.
        + intros Hg. destruct (good_head _ _ Hg) as (_ & _ & _ & ?). congruence. }
    destruct He as (e & Hst' & Hes).
    apply (wp_record_step abs e mem1 V1 c); [done|done|done| |].
    { intros mem' V' r Hmv Ht. split; [by eapply moved_trans|]. destruct r; [done|exact Ht..]. }
    intros mem2 V2 Hmv2 Hg. destruct (Hes Hg) as (es1 & _ & -> & Hr). pose proof Hg as (Habs & _ & _ & _ & Hend).
    rewrite add_w_ok by (unfold en_end in Hend; lia). cbn [mbind io_bind io_match].
    replace (abs + Z.of_nat (en_len e)) with (en_end e) by (unfold en_end; lia).
    destruct (good_head _ _ Hg) as (_ & _ & H44 & _).
    eapply wp_mono; [|apply (IH mem2 V2 (en_end e) es1 (acc ++ [en_read e]));
      [by eapply moved_ease|unfold en_end; lia|unfold en_end; lia|by left|unfold en_end; lia]].
    intros mem' V' r [Hmv Hout]. split; [eapply moved_trans; [exact Hmv1|]; by eapply moved_trans|].
    destruct r as [recs|err| |]; [|exact Hout..]. destruct Hout as (es' & -> & Hs' & Hx). exists (e :: es').
    split_and!; [by rewrite <-app_assoc|by constructor|]. destruct Hx as [->|?]; [by left|by right].
Qed.
End published.

(** ** The log behind the messages *)
Lemma log_grows rs1 rs2 :
  rs1 `prefix_of` rs2 → rs_ok cap rs2 →
  ∃ l, ab_log (abs_of cap rs2) = ab_log (abs_of cap rs1) ++ l
       ∧ Forall (λ e, ab_head (abs_of cap rs1) ≤ en_start e) l.
Proof.
  intros [k ->]. induction k as [|rec k IH] using rev_ind.
  { exists []. by rewrite !app_nil_r. }
  rewrite app_assoc. intros Hok2.
  assert (Hok' : rs_ok cap (rs1 ++ k)) by (eapply rs_ok_prefix; [exact Hcap|by apply prefix_app_r|exact Hok2]).
  destruct (IH Hok') as (l & Hl & Hf). destruct (history_ring cap Hcap _ Hok') as (r & _ & Hrep & _).
  destruct Hok2 as [Hfit _]. apply Forall_app in Hfit as [_ Hfit]. apply Forall_cons_1 in Hfit as [[Hw Hlen] _].
  exists (l ++ [placed (abs_of cap (rs1 ++ k)) rec]). rewrite (abs_of_snoc cap), (log_write _ _ _ Hrep), Hl, <-app_assoc.
  split; [done|]. apply Forall_app. split; [done|]. constructor; [|done].
  rewrite <-(abs_of_cap cap (rs1 ++ k)) in Hlen. pose proof (placed_bounds _ _ _ Hrep Hw Hlen) as [Hb _].
  pose proof (head_mono cap Hcap rs1 (rs1 ++ k) ltac:(by apply prefix_app_r) Hok'). lia.
Qed.

Lemma conc_log_ends rs : rs_ok cap rs → Forall (λ e, en_end e ≤ ab_head (abs_of cap rs)) (ab_log (abs_of cap rs)).
Proof.
  intros Hrs. destruct (history_ring cap Hcap _ Hrs) as (r & _ & Hrep & _).
  pose proof (layout_bounds _ _ _ _ (rep_layout _ _ Hrep)) as [Hoh Hb]. apply Forall_app. split.
  - eapply Forall_impl; [exact (rep_dropped _ _ Hrep)|]. simpl. lia.
  - eapply Forall_impl; [exact Hb|]. simpl. lia.
Qed.

Lemma log_ordered rs : rs_ok cap rs → ordered (ab_log (abs_of cap rs)).
Proof.
  induction rs as [|rec rs IH] using rev_ind; [by split; constructor|]. intros Hrs.
  assert (Hok' : rs_ok cap rs) by (eapply rs_ok_prefix; [exact Hcap|by apply prefix_app_r|exact Hrs]).
  destruct (IH Hok') as [Hs Hp]. destruct (history_ring cap Hcap _ Hok') as (r & _ & Hrep & _).
  destruct Hrs as [Hfit _]. apply Forall_app in Hfit as [_ Hfit]. apply Forall_cons_1 in Hfit as [[Hw Hlen] _].
  rewrite <-(abs_of_cap cap rs) in Hlen. pose proof (placed_bounds _ _ _ Hrep Hw Hlen) as [Hb Hb'].
  rewrite (abs_of_snoc cap), (log_write _ _ _ Hrep). split.
  - apply StronglySorted_snoc; [done|]. eapply Forall_impl; [apply (conc_log_ends rs Hok')|]. intros x Hx. cbv beta in *. lia.
  - apply Forall_app. split; [done|]. constructor; [lia|done].
Qed.

(** The offsets a cursor can hold: some [HeadAbs] or [OldestAbs]. *)
Definition mark (x : Z) : Prop :=
  ∃ t, value_at (mem_of cap RS) LHead t = Some x ∨ value_at (mem_of cap RS) LOldest t = Some x.

Lemma mark_boundary rs1 x :
  rs1 `prefix_of` RS → mark x → ab_oldest (abs_of cap rs1) ≤ x → x < ab_head (abs_of cap rs1) →
  boundary (abs_of cap rs1) x.
Proof.
  intros Hrs1 (t & Hx) Hlo Hhi. pose proof (facts_hold cap Hcap RS Hok) as F.
  assert (Hok1 : rs_ok cap rs1) by (by eapply rs_ok_prefix).
  destruct (history_ring cap Hcap _ Hok1) as (r & _ & Hrep & _).
  assert (Hlog : ∀ e, e ∈ ab_log (abs_of cap rs1) → en_end e ≤ ab_oldest (abs_of cap rs1) ∨ e ∈ ab_live (abs_of cap rs1)).
  { intros e [He|He]%elem_of_app; [left|by right]. pose proof (rep_dropped _ _ Hrep) as Hd. rewrite Forall_forall in Hd.
    by apply Hd. }
  destruct Hx as [Hx|Hx].
  - destruct (fa_head _ _ F _ _ Hx) as (rs2 & Hrs2 & -> & _).
    destruct (prefix_weak_total _ _ _ Hrs1 Hrs2) as [Hp|Hp].
    { pose proof (head_mono cap Hcap _ _ Hp ltac:(by eapply rs_ok_prefix)). lia. }
    destruct rs2 as [|rec rs2 _] using rev_ind.
    { left. cbn. apply (rep_window _ _ Hrep). }
    destruct (log_grows _ _ Hp Hok1) as (l & Hl & _).
    assert (Hok2 : rs_ok cap rs2).
    { eapply rs_ok_prefix; [exact Hcap| |exact Hok1]. etrans; [|exact Hp]. by apply prefix_app_r. }
    destruct (history_ring cap Hcap _ Hok2) as (r2 & _ & Hrep2 & _).
    rewrite (abs_of_snoc cap), (log_write _ _ _ Hrep2) in Hl. rewrite (abs_of_snoc cap) in *.
    change (ab_head (abs_write (abs_of cap rs2) rec)) with (en_end (placed (abs_of cap rs2) rec)) in *.
    destruct (Hlog (placed (abs_of cap rs2) rec)) as [He|He].
    + rewrite Hl. apply elem_of_app. left. apply elem_of_app. right. by left.
    + left. lia.
    + right. right. apply Exists_exists. eexists. split; [exact He|by right].
  - destruct (fa_oldest _ _ F _ _ Hx) as [[_ ->]|(rs0 & rec & Hp2 & -> & _)].
    { left. apply (rep_window _ _ Hrep). }
    set (rs2 := rs0 ++ [rec]) in *. assert (Hok2 : rs_ok cap rs2) by (by eapply rs_ok_prefix).
    destruct (prefix_weak_total _ _ _ Hrs1 Hp2) as [Hp|Hp]; [|left; by apply oldest_mono].
    destruct (log_grows _ _ Hp Hok2) as (l & Hl & Hf).
    destruct (history_ring cap Hcap _ Hok2) as (r2 & _ & Hrep2 & _).
    pose proof (head_mono cap Hcap _ _ Hp Hok2). unfold ab_oldest in *.
    destruct (ab_live (abs_of cap rs2)) as [|e es] eqn:Hlive; cbn [head hd_error from_option] in *; [lia|].
    assert (He : e ∈ ab_log (abs_of cap rs2)).
    { unfold ab_log. rewrite Hlive. apply elem_of_app. right. by left. }
    rewrite Hl in He. apply elem_of_app in He as [He|He].
    2: { rewrite Forall_forall in Hf. specialize (Hf e He). lia. }
    pose proof (proj2 (log_ordered _ Hok1)) as Hpos. rewrite Forall_forall in Hpos. specialize (Hpos e He).
    destruct (Hlog e He) as [Hd|Hlv]; [unfold ab_oldest in Hd; lia|].
    right. right. apply Exists_exists. exists e. split; [done|by left].
Qed.

(** ** A whole read *)
Context (Hcap32 : Z.of_nat cap < 2 ^ 32) (s : S) (Hlaw : lawful s) (Hs : cs_capacity s = cap).

(** [D] is a head the reader has seen. *)
Definition seen_head (mem : list msg) (V : rview) (D : Z) : Prop :=
  ∃ t, value_at mem LHead t = Some D ∧ (strong = true ∨ (t ≤ rv_seen V LHead)%nat).

Lemma seen_head_moved mem V mem' V' D : moved mem V mem' V' → seen_head mem V D → seen_head mem' V' D.
Proof.
  intros [[Hg _] (_ & _ & He)] (t & Hv & Ht). exists t. split; [by eapply value_at_grows|].
  destruct Ht as [?|Ht]; [by left|]. destruct He as [?|He]; [by left|right]. specialize (He LHead). lia.
Qed.

(** Heads are read in order. *)
Lemma head_read_ge mem V t h D :
  mem `prefix_of` mem_of cap RS → can_read strong mem V LHead t → value_at mem LHead t = Some h →
  seen_head mem V D → D ≤ h.
Proof.
  intros Hm Hr Hh (tD & HD & Hs'). pose proof (facts_hold cap Hcap RS Hok) as F.
  assert (Ht : (tD ≤ t)%nat).
  { unfold can_read in Hr. destruct strong; [subst t; eapply latest_max; [done|by eapply value_at_le]|].
    destruct Hs' as [?|?]; [done|lia]. }
  destruct (fa_head _ _ F _ _ (value_in_M _ _ _ _ Hm HD)) as (rs1 & H1 & -> & _ & HtD).
  destruct (fa_head _ _ F _ _ (value_in_M _ _ _ _ Hm Hh)) as (rs2 & H2 & -> & _ & Ht2).
  assert (Hok2 : rs_ok cap rs2) by (by eapply rs_ok_prefix).
  destruct (prefix_weak_total _ _ _ H1 H2) as [Hp|Hp]; [by apply head_mono|].
  destruct Hp as [k ->]. destruct k as [|rec k _] using rev_ind; [by rewrite app_nil_r|].
  assert (mem_of cap rs2 `prefix_of` mem_of cap (rs2 ++ k)) by (by apply mem_of_prefix, prefix_app_r).
  destruct (mem_of_snoc cap (rs2 ++ k) rec) as (rel & Hmem). rewrite app_assoc, Hmem, length_app in HtD.
  pose proof (prefix_length _ _ H). pose proof (length_append_msgs (length (mem_of cap (rs2 ++ k))) rel
    (cur (mem_of cap (rs2 ++ k)) LLost) (cur (mem_of cap (rs2 ++ k)) LSeq) (abs_of cap (rs2 ++ k)) rec). lia.
Qed.

(** What is readable of the published log [rs1] from [x] on. *)
Definition from_offset (rs1 : list WireRecord) (x : Z) : list Entry :=
  filter (λ e, x ≤ en_start e) (ab_live (abs_of cap rs1)).

Lemma walk_from rs1 x :
  rs1 `prefix_of` RS → mark x → ab_oldest (abs_of cap rs1) ≤ x → walk rs1 x (from_offset rs1 x).
Proof.
  intros Hrs1 Hx Hlo. assert (Hok1 : rs_ok cap rs1) by (by eapply rs_ok_prefix).
  destruct (history_ring cap Hcap _ Hok1) as (r & _ & Hrep & Hb & _).
  assert (Heq : from_offset rs1 x = readable (abs_of cap rs1) x).
  { unfold from_offset, readable. by rewrite Z.max_l by lia. }
  destruct (decide (x < ab_head (abs_of cap rs1))) as [Hlt|Hge].
  - left. rewrite Heq, <-Hb. replace x with (Z.max x (ab_oldest (abs_of cap rs1))) at 1 by lia.
    apply boundary_layout; [done|by apply mark_boundary|lia].
  - right. split; [lia|]. rewrite Heq. apply (readable_none r); [done|lia].
Qed.

(** The batch a read returns: the published log from [x] on, in full when no
    byte was reclaimed under strong memory, else a part of it. *)
Definition batch_post (cursor : Z) (mem : list msg) (V : rview) (b : ReadBatch) : Prop :=
  ∃ rs1 fo es, rs1 `prefix_of` RS ∧ rb_next_abs b = ab_head (abs_of cap rs1)
    ∧ seen_head mem V (rb_next_abs b)
    ∧ ab_oldest (abs_of cap rs1) ≤ fo ∧ (∃ t, value_at mem LOldest t = Some fo)
    ∧ rb_lapped b = bool_decide (cursor < fo)
    ∧ rb_records b = en_read <$> es ∧ es `sublist_of` from_offset rs1 (Z.max cursor fo)
    ∧ (strong = true → es = from_offset rs1 (Z.max cursor fo)).

Lemma wp_load {E A} o l mem V (f : Z → io E A) Q :
  mem `prefix_of` mem_of cap RS →
  (∀ mem' V' t v, moved mem V mem' V' → value_at mem' l t = Some v → can_read strong mem' V l t →
     V' = after_load o mem' V l t → wp strong grows (f v) mem' V' Q) →
  wp strong grows (Ld o l f) mem V Q.
Proof.
  intros Hm HQ. cbn [wp]. intros mem' t v Hg Hv Hr. eapply HQ; [split; [done|by apply extends_load]|done|done|done].
Qed.

(** What a snapshot promises: a head that was published, with the bytes below
    it in view, never an older one than was seen before, and an [OldestAbs] no
    older than that head's; an error only sends the poll away. *)
Definition snapshot_post (mem : list msg) (V : rview) (mem' : list msg) (V' : rview)
    (r : res ControlBlockError ControlBlockSnapshot) : Prop :=
  moved mem V mem' V' ∧
  match r with
  | Ok sn => cb_buffer_bytes sn = u32_or_max cap ∧
      ∃ rs1, rs1 `prefix_of` RS ∧ cb_head_abs sn = ab_head (abs_of cap rs1) ∧ at_ease rs1 mem' V'
        ∧ seen_head mem' V' (cb_head_abs sn) ∧ (∀ D, seen_head mem V D → D ≤ cb_head_abs sn)
        ∧ ab_oldest (abs_of cap rs1) ≤ cb_oldest_abs sn ∧ ∃ t, value_at mem' LOldest t = Some (cb_oldest_abs sn)
  | Err _ => True
  | Panic | Diverge => False
  end.
Definition snapshot_law : Prop := ∀ mem V, mem `prefix_of` mem_of cap RS →
  wp strong grows (read_control_snapshot s) mem V (snapshot_post mem V).
Context (Hsnap : snapshot_law).

Lemma wp_read_raw cursor mem V :
  mem `prefix_of` mem_of cap RS → mark cursor →
  wp strong grows (read_raw_from_store s cursor) mem V (λ mem' V' r,
    moved mem V mem' V' ∧
    match r with
    | Ok b => batch_post cursor mem' V' b ∧ ∀ D, seen_head mem V D → D ≤ rb_next_abs b
    | Err (RingControlBlock _) => True
    | _ => torn cursor mem' r
    end).
Proof.
  intros Hm Hmark. unfold read_raw_from_store, io_map_err. apply wp_bind, wp_match.
  eapply wp_mono; [|by apply Hsnap]. intros mem3 V3 [sn|e| |] [Hmv Hsn]; cbn [wp io_ret io_match]; [|done..].
  destruct Hsn as (Hbb & rs1 & Hrs1 & Hh & He3 & Hseen & HD & Hlo & to & Hvo).
  assert (Hu32 : u32_or_max cap = Z.of_nat cap) by (unfold u32_or_max; by rewrite decide_True).
  rewrite Hbb, Hu32, Hs, Nat2Z.id, decide_False by tauto. set (fo := cb_oldest_abs sn) in *.
  assert (Hfo : mark fo) by (exists to; right; by eapply value_in_M; [apply Hmv|]).
  set (x := if bool_decide (cursor < fo) then fo else cursor).
  assert (Hx : x = Z.max cursor fo) by (unfold x; case_bool_decide; lia).
  assert (Hxm : mark x) by (unfold x; by case_bool_decide).
  cbv zeta. fold x. apply wp_bind. rewrite Hh.
  eapply wp_mono; [|apply (wp_store_loop rs1 Hrs1 s Hlaw Hs fo x _ mem3 V3 x (from_offset rs1 x) []);
    [done|lia|lia|apply walk_from; [done|done|lia]|lia]].
  intros mem4 V4 r [Hmv4 Hout]. pose proof (moved_trans _ _ _ _ _ _ Hmv Hmv4) as Hmv'.
  destruct r as [recs|e| |]; [|split; [done|]|done|done].
  2: { assert (Ht : torn (A:=ReadBatch) cursor mem4 (Err e)) by (apply (torn_mono s Hs cursor x _ (Err e)); [lia|exact Hout]). by destruct e. }
  destruct Hout as (es & -> & Hsub & Hor). rewrite law_load_oldest by done. cbn [mbind io_bind io_match io_ret].
  apply wp_load; [apply Hmv4|]. intros mem5 V5 tf final Hmv5 Hvf Hrf HV5.
  pose proof (moved_trans _ _ _ _ _ _ Hmv' Hmv5) as Hmv''.
  destruct (decide (final ≠ fo ∧ cursor < final)) as [[_ Hfin]|Hfin]; cbn [wp io_ret].
  - split; [done|]. split; [by exists tf, final|]. intros y o [= <- <-]. split; [done|by exists tf].
  - split; [done|]. cbn [rb_next_abs]. split.
    2: { intros D HsD. rewrite <-Hh. by apply HD. }
    exists rs1, fo, es. cbn [rb_next_abs rb_lapped rb_records]. rewrite <-Hx. split_and!; try done.
    + rewrite <-Hh. eapply seen_head_moved; [|exact Hseen]. by eapply moved_trans.
    + exists to. eapply value_at_grows; [|exact Hvo]. etrans; [apply Hmv4|]. apply Hmv5.
    + intros Hst. destruct Hor as [?|(ta & o & Hva & Ho & _)]; [done|]. exfalso. apply Hfin.
      assert (Hva5 : value_at mem5 LOldest ta = Some o) by (eapply value_at_grows; [apply Hmv5|exact Hva]).
      assert (o ≤ final); [|lia].
      apply (oldest_le ta tf _ _ (value_in_M _ _ _ _ (proj2 (proj1 Hmv5)) Hva5)
        (value_in_M _ _ _ _ (proj2 (proj1 Hmv5)) Hvf)).
      eapply read_ge; [exact Hrf|exact Hva5|by left].
Qed.

(** ** A poll *)

(** What lies between two offsets of the whole log. *)
Definition between (lo hi : Z) : list Entry :=
  filter (λ e, lo ≤ en_start e ∧ en_end e ≤ hi) (ab_log (abs_of cap RS)).

Lemma from_offset_between rs1 x :
  rs1 `prefix_of` RS → ab_oldest (abs_of cap rs1) ≤ x →
  from_offset rs1 x = between x (ab_head (abs_of cap rs1)).
Proof.
  intros Hrs1 Hx. assert (Hok1 : rs_ok cap rs1) by (by eapply rs_ok_prefix).
  destruct (history_ring cap Hcap _ Hok1) as (r & _ & Hrep & _).
  destruct (log_grows _ _ Hrs1 Hok) as (l & Hl & Hf). unfold between, from_offset. rewrite Hl.
  pose proof (log_ordered _ Hok) as [_ Hpos]. rewrite Hl in Hpos. apply Forall_app in Hpos as [Hpos Hpos2].
  unfold ab_log at 1. rewrite !filter_app.
  assert (H1 : filter (λ e, x ≤ en_start e ∧ en_end e ≤ ab_head (abs_of cap rs1)) (ab_dropped (abs_of cap rs1)) = []).
  { apply filter_none. apply Forall_app in Hpos as [Hp _]. apply Forall_forall. intros e He.
    pose proof (rep_dropped _ _ Hrep) as Hd. rewrite Forall_forall in Hd, Hp. specialize (Hd e He).
    specialize (Hp e He). cbn in *. lia. }
  assert (H2 : filter (λ e, x ≤ en_start e ∧ en_end e ≤ ab_head (abs_of cap rs1)) l = []).
  { apply filter_none. apply Forall_forall. intros e He. rewrite Forall_forall in Hf, Hpos2.
    specialize (Hf e He). specialize (Hpos2 e He). cbn in *. lia. }
  rewrite H1, H2, app_nil_r. cbn [app]. apply filter_ext_in.
  pose proof (conc_log_ends rs1 Hok1) as He. apply Forall_app in He as [_ He].
  eapply Forall_impl; [exact He|]. simpl. lia.
Qed.

Lemma between_nil x : between x x = [].
Proof.
  apply filter_none. eapply Forall_impl; [apply (log_ordered _ Hok)|]. simpl. lia.
Qed.

(** The counters of a consumer after at most [n] polls. *)
Definition counters_ok (n : Z) (c : ConcurrentRawConsumer S) : Prop :=
  0 ≤ cc_lapped_batches c ≤ n ∧ 0 ≤ cc_overwritten_retries c ≤ n ∧ 0 ≤ cc_rejected_records c ≤ n.

(** Where a poll from [x] starts: there, or at an [OldestAbs] that has passed it. *)
Definition starts (mem : list msg) (x lo : Z) : Prop :=
  lo = x ∨ x < lo ∧ ∃ t, value_at mem LOldest t = Some lo.

(** What a poll from [c] leaves: everything delivered lies in the log between
    [D], delivered up to before, and the new [D']; under strong memory it is the
    log between where the poll started and the new cursor, and, for a batch that
    is not marked lapped, between the two cursors; an error changes nothing and
    means that bytes above the cursor were reclaimed. *)
Definition poll_post (n D : Z) (c : ConcurrentRawConsumer S) (mem : list msg) (V : rview)
    (r : ConcurrentRawConsumer S * (ReadBatch + RingError)) : Prop :=
  let '(c', res) := r in
  cc_store c' = cc_store c ∧ mark (cc_cursor_abs c') ∧ counters_ok (n + 1) c' ∧
  ∃ D' es, D ≤ D' ≤ cc_cursor_abs c' ∧ seen_head mem V D' ∧ es `sublist_of` between D D' ∧
    (strong = true → ∃ lo, starts mem (cc_cursor_abs c) lo ∧ es = between lo (cc_cursor_abs c')) ∧
    match res with
    | inl b => rb_records b = en_read <$> es ∧ rb_next_abs b = cc_cursor_abs c'
        ∧ (strong = true → rb_lapped b = false → es = between (cc_cursor_abs c) (cc_cursor_abs c'))
    | inr _ => es = [] ∧ c' = c ∧ reclaimed mem (cc_cursor_abs c)
    end.

(** Leaving without records is always in order. *)
Lemma poll_nothing n D c mem V c' res :
  cc_store c' = cc_store c → mark (cc_cursor_abs c') → counters_ok (n + 1) c' →
  D ≤ cc_cursor_abs c' → seen_head mem V D → starts mem (cc_cursor_abs c) (cc_cursor_abs c') →
  match res with
  | inl b => rb_records b = [] ∧ rb_next_abs b = cc_cursor_abs c'
             ∧ (rb_lapped b = true ∨ cc_cursor_abs c' = cc_cursor_abs c)
  | inr _ => c' = c ∧ reclaimed mem (cc_cursor_abs c)
  end → poll_post n D c mem V (c', res).
Proof.
  intros Hst Hm Hc HD Hseen Hlo Hres. split_and!; [done|done|done|]. exists D, []. split_and!; [lia|done|done|apply sublist_nil_l| |].
  { intros _. exists (cc_cursor_abs c'). by rewrite between_nil. }
  destruct res as [b|e]; [|by destruct Hres]. destruct Hres as (-> & -> & Hl). split_and!; [done|done|].
  intros _ Hf. destruct Hl as [Hl| ->]; [congruence|]. by rewrite between_nil.
Qed.

Lemma poll_batch n D c mem V c' b :
  cc_store c' = cc_store c → counters_ok (n + 1) c' → cc_cursor_abs c' = rb_next_abs b →
  D ≤ cc_cursor_abs c → D ≤ rb_next_abs b → mem `prefix_of` mem_of cap RS →
  batch_post (cc_cursor_abs c) mem V b → poll_post n D c mem V (c', inl b).
Proof.
  intros Hst Hc Hcur HD HDn Hm (rs1 & fo & es & Hrs1 & Hnext & Hseen & Hlo & Hold & Hlap & Hrec & Hsub & Hall).
  assert (Hmark : mark (rb_next_abs b)).
  { destruct Hseen as (t & Hv & _). exists t. left. by eapply value_in_M. }
  assert (Hx : from_offset rs1 (Z.max (cc_cursor_abs c) fo) = between (Z.max (cc_cursor_abs c) fo) (rb_next_abs b)).
  { rewrite Hnext. apply from_offset_between; [done|lia]. }
  split_and!; [done|by rewrite Hcur|done|]. exists (rb_next_abs b), es. rewrite Hcur. split_and!; [done|lia|done| | |done|done|].
  - rewrite Hx in Hsub. apply sublist_filter_l.
    + etrans; [exact Hsub|]. apply sublist_filter.
    + apply Forall_forall. intros e He. eapply elem_of_sublist in He; [|exact Hsub].
      apply list_elem_of_filter in He as [[? ?] _]. split; lia.
  - intros Hstr. exists (Z.max (cc_cursor_abs c) fo). split; [|by rewrite (Hall Hstr), Hx].
    destruct (decide (cc_cursor_abs c < fo)); [right; rewrite Z.max_r by lia; by split; [lia|]|left; lia].
  - intros Hstr Hl. rewrite (Hall Hstr), Hx. rewrite Hlap in Hl. apply bool_decide_eq_false in Hl.
    by rewrite Z.max_l by lia.
Qed.

Lemma wp_poll n D c mem V :
  mem `prefix_of` mem_of cap RS → cc_store c = s → mark (cc_cursor_abs c) → D ≤ cc_cursor_abs c →
  seen_head mem V D → counters_ok n c → n + 1 < 2 ^ 64 →
  wp strong grows (poll c) mem V (λ mem' V' r, moved mem V mem' V' ∧
    match r with Ok x => poll_post n D c mem' V' x | _ => False end).
Proof.
  intros Hm Hst Hmark HD Hseen Hcnt Hn. unfold poll. rewrite Hst. apply wp_match.
  destruct Hcnt as (Hc1 & Hc2 & Hc3).
  eapply wp_mono; [|by apply wp_read_raw]. intros mem1 V1 r [Hmv Hr].
  pose proof (seen_head_moved _ _ _ _ _ Hmv Hseen) as Hseen1. pose proof (proj2 (proj1 Hmv)) as Hm1.
  destruct r as [b|e| |]; [| |done|done].
  { destruct Hr as [Hb HDb]. destruct (rb_lapped b); [rewrite add_w_ok by lia|]; cbn [mbind io_bind io_match wp io_ret];
      (split; [done|]); apply poll_batch; try done; try (split_and!; cbn; lia); by apply HDb. }
  assert (Hsame : (∃ t o, value_at mem1 LOldest t = Some o ∧ cc_cursor_abs c < o) → ∀ e, poll_post n D c mem1 V1 (c, inr e)).
  { intros Hrec e'. apply poll_nothing; [done|done|split_and!; lia|done|done|by left|done]. }
  destruct e as [x o| | | | | | | |cberr| |werr]; try (by cbn [wp io_ret]; split; [|apply Hsame, Hr]).
  - destruct Hr as [_ Hover]. destruct (Hover _ _ eq_refl) as (Hlt & t & Hv). rewrite add_w_ok by lia.
    cbn [mbind io_bind io_match wp io_ret]. split; [done|]. apply poll_nothing; cbn; try done;
      [exists t; right; by eapply value_in_M|split_and!; cbn; lia|lia|right; by split; [|exists t]|split_and!; auto].
  - rewrite add_w_ok by lia. cbn [mbind io_bind io_match wp io_ret]. split; [done|].
    apply poll_nothing; cbn; try done; [split_and!; cbn; lia|by left|split_and!; auto].
  - rewrite law_load_oldest by done. cbn [mbind io_bind io_match].
    apply wp_load; [done|]. intros mem2 V2 t o Hmv2 Hv _ _. pose proof (moved_trans _ _ _ _ _ _ Hmv Hmv2) as Hmv'.
    cbn [io_match io_ret]. destruct (decide (cc_cursor_abs c < o)) as [Hlt|Hlt].
    + rewrite add_w_ok by lia. cbn [mbind io_bind io_match wp io_ret]. split; [done|].
      apply poll_nothing; cbn; try done; [exists t; right; eapply value_in_M; [apply Hmv2|done]|split_and!; cbn; lia|lia| |right; by split; [|exists t]|split_and!; auto].
      by eapply seen_head_moved.
    + cbn [wp io_ret]. split; [done|]. apply poll_nothing; try done; [split_and!; lia|by eapply seen_head_moved|by left|].
      split; [done|]. destruct Hr as [(t' & o' & Hv' & Ho') _]. exists t', o'. split; [|done]. eapply value_at_grows; [apply Hmv2|done].
Qed.
End reader.

(** ** The snapshots of a store *)
Class SnapshotLaws {BP : BuildProfile} (S : Type) {CS : ConcurrentStore S} {SQ : Sequenced} {SL : StoreLaws S} (strong : bool) := {
  law_snapshot cap RS s :
    (0 < cap)%nat → Z.of_nat cap < 2 ^ 32 → rs_ok cap RS → lock_room (length RS) → lawful s → cs_capacity s = cap →
    snapshot_law strong cap RS s;
}.

#[local] Existing Instance owned_sequenced.

(** The owned store loads the words one by one, the head first. *)
#[global] Instance owned_snapshots {BP : BuildProfile} strong : SnapshotLaws OwnedConcurrentStore (SQ := owned_sequenced) strong.
Proof.
  split. intros cap RS s Hcap _ Hok _ _ Hs mem V Hm. pose proof (facts_hold cap Hcap RS Hok) as F.
  cbn [read_control_snapshot owned_store].
  unfold ocs_read_control_snapshot, ocs_load_head_acquire, ocs_load_oldest_acquire, ocs_load_lost_acquire.
  cbn [mbind io_bind io_match io_ret].
  apply (wp_load strong cap Hcap); [done|]. intros mem1 V1 th h Hmv1 Hvh Hrh HV1.
  apply (wp_load strong cap Hcap); [apply Hmv1|]. intros mem2 V2 to fo Hmv2 Hvo Hro HV2.
  apply (wp_load strong cap Hcap); [apply Hmv2|]. intros mem3 V3 tl lost Hmv3 _ _ HV3. cbn [wp].
  destruct (fa_head _ _ F _ _ (value_in_M cap RS _ _ _ _ (proj2 (proj1 Hmv1)) Hvh)) as (rs1 & Hrs1 & Hh & Hview & Hth).
  change (@brackets owned_sequenced) with 0%nat in Hth. assert (Hth' : th = length (mem_of cap rs1)) by lia.
  assert (Hok1 : rs_ok cap rs1) by (by eapply rs_ok_prefix).
  pose proof (value_at_le _ _ _ _ Hvh) as Hthl.
  assert (Hk1 : known strong V1 (length (mem_of cap rs1))).
  { right. rewrite HV1, <-Hth'. cbn. rewrite <-(view_at_prefix _ _ (proj2 (proj1 Hmv1)) th Hthl), Hview. lia. }
  assert (Hlo : ab_oldest (abs_of cap rs1) ≤ fo).
  { destruct (fa_published _ _ (facts_hold cap Hcap rs1 Hok1)) as (tp & Htp & Hvp).
    assert (HvM : value_at (mem_of cap RS) LOldest tp = Some (ab_oldest (abs_of cap rs1))).
    { eapply value_at_grows; [|exact Hvp]. by apply mem_of_prefix. }
    assert (Hv2 : value_at mem2 LOldest tp = Some (ab_oldest (abs_of cap rs1))).
    { rewrite <-HvM. symmetry. apply value_at_prefix; [apply Hmv2|]. pose proof (prefix_length _ _ (proj1 (proj1 Hmv2))). lia. }
    apply (oldest_le cap Hcap RS Hok tp to _ _ HvM (value_in_M cap RS _ _ _ _ (proj2 (proj1 Hmv2)) Hvo)).
    eapply (read_ge strong cap Hcap); [exact Hro|exact Hv2|]. destruct Hk1 as [?|?]; [by left|right; lia]. }
  assert (Hmv23 : moved strong cap RS mem1 V1 mem3 V3) by (eapply moved_trans; [exact Hcap|exact Hmv2|exact Hmv3]).
  assert (Hmv : moved strong cap RS mem V mem3 V3) by (eapply moved_trans; [exact Hcap|exact Hmv1|exact Hmv23]).
  assert (Hseen : seen_head strong mem1 V1 h).
  { exists th. split; [done|right]. rewrite HV1. cbn. by rewrite decide_True. }
  split; [done|]. cbn [cb_buffer_bytes cb_head_abs cb_oldest_abs]. split; [by rewrite <-Hs|]. exists rs1. split_and!; [done|done| | | |done|].
  - eapply (moved_ease strong cap Hcap RS rs1 s Hs); [exact Hmv23|]. split_and!; [apply Hmv1|lia|done].
  - eapply (seen_head_moved strong cap Hcap RS s Hs); [exact Hmv23|exact Hseen].
  - intros D HD. eapply (head_read_ge strong cap Hcap RS Hok s Hs mem1 V th); [apply Hmv1|done|done|].
    eapply (seen_head_moved strong cap Hcap RS s Hs mem V mem1 V); [|done]. split; [apply Hmv1|apply extends_refl].
  - exists to. eapply value_at_grows; [|exact Hvo]. apply Hmv3.
Qed.
