(* ===== verification/ConcurrentSystem.v ===== *)
(** * Producer and consumer together (crates/carriage/src/concurrent.rs)

    One producer thread and one consumer thread over the shared memory of
    [Memory], as an executable transition system: a move calls an operation, or
    does the next atomic access of the one that is running. *)
From S2P Require Import Prelude Crc Wire Control Layout Ring RingRead Memory Concurrent ConcurrentWriter ConcurrentSolo ConcurrentRead.

(** A finished poll: the cursor before and after, and what was returned. *)
Record Polled := MkPolled { po_from : u64; po_to : u64; po_result : ReadBatch + RingError }.

Record sys (S : Type) := MkSys {
  sy_writer : writer;
  sy_prod : ConcurrentProducer S;
  sy_append : option (io RingError (ConcurrentProducer S));
  sy_returns : list (option RingError);
  sy_view : rview;
  sy_cons : ConcurrentRawConsumer S;
  sy_poll : option (io RingError (ConcurrentRawConsumer S * (ReadBatch + RingError)));
  sy_polls : list Polled;
  sy_panicked : bool;
}.
Arguments MkSys {S} _ _ _ _ _ _ _ _ _.
Arguments sy_writer {S} _.
Arguments sy_prod {S} _.
Arguments sy_append {S} _.
Arguments sy_returns {S} _.
Arguments sy_view {S} _.
Arguments sy_cons {S} _.
Arguments sy_poll {S} _.
Arguments sy_polls {S} _.
Arguments sy_panicked {S} _.

(** [StepWrite] and [StepPoll] also deliver the return of an operation whose
    last access is done; [t] is the message a poll's load returns. *)
Inductive move := CallWrite (rec : WireRecord) | StepWrite | CallPoll | StepPoll (t : nat).

Definition move_record (m : move) : option WireRecord :=
  match m with CallWrite rec => Some rec | _ => None end.
Definition calls (moves : list move) : list WireRecord := omap move_record moves.

(** The records that fit the ring. *)
Definition accepted (cap : nat) (recs : list WireRecord) : list WireRecord :=
  filter (λ rec, length (enc_record rec true) ≤ cap)%nat recs.

(** What [write_record] returns for a record that can be encoded. *)
Definition write_result (cap : nat) (rec : WireRecord) : option RingError :=
  if decide (cap < length (enc_record rec true))%nat
  then Some (RecordExceedsCapacity (length (enc_record rec true)) cap) else None.

Definition delivered {S} (s : sys S) : list ReadRecord :=
  sy_polls s ≫= λ p, match po_result p with inl b => rb_records b | inr _ => [] end.

Section system.
Context {BP : BuildProfile} {S : Type} {CS : ConcurrentStore S}.
Abbreviation sys := (sys S).
Abbreviation producer := (ConcurrentProducer S).
Abbreviation consumer := (ConcurrentRawConsumer S).

Definition sys_new (store : S) : sys :=
  {| sy_writer := writer_init; sy_prod := cp_with_store store; sy_append := None; sy_returns := [];
     sy_view := rview_init; sy_cons := cc_with_store store; sy_poll := None; sy_polls := [];
     sy_panicked := false |}.

Definition set_append (w : writer) (p : producer) (a : option (io RingError producer))
    (returns : list (option RingError)) (panicked : bool) (s : sys) : sys :=
  {| sy_writer := w; sy_prod := p; sy_append := a; sy_returns := returns; sy_view := sy_view s;
     sy_cons := sy_cons s; sy_poll := sy_poll s; sy_polls := sy_polls s; sy_panicked := panicked |}.

Definition set_poll (V : rview) (c : consumer) (q : option (io RingError (consumer * (ReadBatch + RingError))))
    (polls : list Polled) (panicked : bool) (s : sys) : sys :=
  {| sy_writer := sy_writer s; sy_prod := sy_prod s; sy_append := sy_append s; sy_returns := sy_returns s;
     sy_view := V; sy_cons := c; sy_poll := q; sy_polls := polls; sy_panicked := panicked |}.

(** An error of [write_record] leaves the producer as it was. *)
Definition step_write (s : sys) (p : io RingError producer) : option sys :=
  match p with
  | Done (Ok p) => Some (set_append (sy_writer s) p None (sy_returns s ++ [None]) (sy_panicked s) s)
  | Done (Err e) =>
      Some (set_append (sy_writer s) (sy_prod s) None (sy_returns s ++ [Some e]) (sy_panicked s) s)
  | Done _ => Some (set_append (sy_writer s) (sy_prod s) None (sy_returns s) true s)
  | _ => '(w, p) ← w_step (sy_writer s) p;
         Some (set_append w (sy_prod s) (Some p) (sy_returns s) (sy_panicked s) s)
  end.

Definition step_poll (strong : bool) (s : sys) (q : io RingError (consumer * (ReadBatch + RingError))) (t : nat)
  : option sys :=
  match q with
  | Done (Ok (c, result)) =>
      Some (set_poll (sy_view s) c None
              (sy_polls s ++ [{| po_from := cc_cursor_abs (sy_cons s); po_to := cc_cursor_abs c;
                                 po_result := result |}]) (sy_panicked s) s)
  | Done _ => Some (set_poll (sy_view s) (sy_cons s) None (sy_polls s) true s)
  | _ => '(V, q) ← r_step strong (w_mem (sy_writer s)) (sy_view s) q t;
         Some (set_poll V (sy_cons s) (Some q) (sy_polls s) (sy_panicked s) s)
  end.

Definition conc_move (strong : bool) (m : move) (s : sys) : option sys :=
  match m with
  | CallWrite rec =>
      match sy_append s with
      | Some _ => None
      | None => Some (set_append (sy_writer s) (sy_prod s) (Some (cp_write_record (sy_prod s) rec))
                        (sy_returns s) (sy_panicked s) s)
      end
  | StepWrite => p ← sy_append s; step_write s p
  | CallPoll =>
      match sy_poll s with
      | Some _ => None
      | None => Some (set_poll (sy_view s) (sy_cons s) (Some (poll (sy_cons s))) (sy_polls s) (sy_panicked s) s)
      end
  | StepPoll t => q ← sy_poll s; step_poll strong s q t
  end.

Fixpoint run (strong : bool) (moves : list move) (s : sys) : option sys :=
  match moves with
  | [] => Some s
  | m :: moves => s ← conc_move strong m s; run strong moves s
  end.

(** ** The invariant

    [RS] are the records accepted by the end of the run, [cs] the records
    written so far; [D] is the offset below which everything is delivered or gone. *)
Section invariant.
Context {SQ : Sequenced} {SL : StoreLaws S} (strong : bool) {SN : SnapshotLaws S strong}.
Context (cap : nat) (Hcap : (0 < cap)%nat) (Hcap32 : Z.of_nat cap < 2 ^ 32).
Context (RS : list WireRecord) (Hok : rs_ok cap RS) (Hlock : lock_room (length RS)).

Definition prod_inv (cs : list WireRecord) (s : sys) : Prop :=
  match sy_append s with
  | None => sy_writer s = (after cap (accepted cap cs)).1 ∧ lawful (cp_store (sy_prod s)) ∧ prod_rep (sy_prod s) (abs_of cap (accepted cap cs))
      ∧ sy_returns s = write_result cap <$> cs
  | Some p => ∃ cs0 rec, cs = cs0 ++ [rec] ∧ sy_returns s = write_result cap <$> cs0 ∧
      ((∃ ops p', emits ops p (Done (Ok p')) ∧ ops_ok (sy_writer s) ops
          ∧ w_ops ops (sy_writer s) = (after cap (accepted cap cs)).1 ∧ lawful (cp_store p')
          ∧ prod_rep p' (abs_of cap (accepted cap cs)) ∧ write_result cap rec = None) ∨
       (∃ e, p = Done (Err e) ∧ sy_writer s = (after cap (accepted cap cs)).1 ∧ lawful (cp_store (sy_prod s))
          ∧ prod_rep (sy_prod s) (abs_of cap (accepted cap cs)) ∧ write_result cap rec = Some e))
  end.

Definition poll_ok (p : Polled) : Prop :=
  match po_result p with
  | inl b => rb_next_abs b = po_to p
      ∧ (strong = true → rb_lapped b = false → rb_records b = en_read <$> between cap RS (po_from p) (po_to p))
  | inr _ => po_to p = po_from p ∧ reclaimed (mem_of cap RS) (po_from p)
  end.

(** A record below the cursor [x] was delivered or its bytes are reclaimed. *)
Definition passed (x : Z) (es : list Entry) (e : Entry) : Prop :=
  en_start e < x → e ∈ es ∨ reclaimed (mem_of cap RS) (en_start e).

Record cons_inv (s : sys) (D : Z) : Prop := {
  ci_cap : cs_capacity (cc_store (sy_cons s)) = cap;
  ci_lawful : lawful (cc_store (sy_cons s));
  ci_mark : mark cap RS (cc_cursor_abs (sy_cons s));
  ci_le : D ≤ cc_cursor_abs (sy_cons s);
  ci_counters : counters_ok (Z.of_nat (length (sy_polls s))) (sy_cons s);
  ci_polls : Forall poll_ok (sy_polls s);
  ci_delivered : ∃ es, delivered s = en_read <$> es
    ∧ es `sublist_of` filter (λ e, en_end e ≤ D) (ab_log (abs_of cap RS))
    ∧ (strong = true → Forall (passed (cc_cursor_abs (sy_cons s)) es) (ab_log (abs_of cap RS)));
  ci_running : match sy_poll s with
    | None => seen_head strong (w_mem (sy_writer s)) (sy_view s) D
    | Some q => wp strong (grows cap RS) q (w_mem (sy_writer s)) (sy_view s) (λ mem V r,
        match r with
        | Ok x => poll_post strong cap RS (Z.of_nat (length (sy_polls s))) D (sy_cons s) mem V x
        | _ => False
        end)
    end;
}.

Record conc_inv (cs : list WireRecord) (s : sys) (D : Z) : Prop := {
  co_prefix : accepted cap cs `prefix_of` RS;
  co_prod : prod_inv cs s;
  co_mem : w_mem (sy_writer s) `prefix_of` mem_of cap (accepted cap cs);
  co_cons : cons_inv s D;
  co_fine : sy_panicked s = false;
}.
(** *** The producer's moves *)
Lemma accepted_app l1 l2 : accepted cap (l1 ++ l2) = accepted cap l1 ++ accepted cap l2.
Proof. apply filter_app. Qed.

Lemma prod_call cs s rec :
  rs_ok cap (accepted cap (cs ++ [rec])) → prod_inv cs s → sy_append s = None → writable rec →
  prod_inv (cs ++ [rec])
    (set_append (sy_writer s) (sy_prod s) (Some (cp_write_record (sy_prod s) rec)) (sy_returns s) (sy_panicked s) s).
Proof.
  intros Hrs' Hp Ha Hw. unfold prod_inv in *. rewrite Ha in Hp. destruct Hp as (Hwr & Hlaw & Hp & Hret).
  cbn [sy_append set_append sy_writer sy_prod sy_returns]. unfold cp_write_record.
  rewrite encodable_encode by apply Hw. cbn [map_err mbind io_bind io_match].
  exists cs, rec. split_and!; [done|done|]. rewrite accepted_app in *. set (rs := accepted cap cs) in *.
  assert (Hrs : rs_ok cap rs) by (eapply rs_ok_prefix; [exact Hcap| |exact Hrs']; by apply prefix_app_r).
  rewrite (pr_cap _ _ Hp), (abs_of_cap cap). unfold accepted, write_result in *. rewrite filter_cons, filter_nil in *.
  destruct (decide (cap < length (enc_record rec true))%nat) as [Hlt|Hge].
  - rewrite decide_False, app_nil_r by lia. right. eexists. split_and!; done.
  - rewrite decide_True in Hrs' |- * by lia. left.
    destruct (history_ring cap Hcap rs Hrs) as (r & _ & Hrep & _ & Hh).
    assert (Hfit : fits_ring (ab_cap (abs_of cap rs)) rec) by (rewrite (abs_of_cap cap); split; [done|lia]).
    destruct Hrs' as [_ Hroom]. rewrite length_app in Hroom. cbn [length] in Hroom.
    exists (append_ops (abs_of cap rs) rec), (appended (sy_prod s) (abs_of cap rs) rec).
    split; [apply (append_bytes_core_emits _ Hlaw r); [done|done|done|]; rewrite (abs_of_cap cap); nia|].
    split; [rewrite Hwr; apply append_ops_ok, (proj1 (lock_even cap Hcap rs))|].
    split; [by rewrite Hwr, (after_append cap)|]. split; [exact Hlaw|].
    split; [rewrite (abs_of_snoc cap); by eapply appended_rep|done].
Qed.

(** A step or a return of the producer: it goes on, memory may grow. *)
Lemma prod_step cs s p s' :
  prod_inv cs s → sy_append s = Some p → step_write s p = Some s' →
  prod_inv cs s' ∧ w_mem (sy_writer s) `prefix_of` w_mem (sy_writer s')
  ∧ ∃ w q a returns, s' = set_append w q a returns (sy_panicked s) s.
Proof.
  intros Hp Ha Hs. unfold prod_inv in Hp. rewrite Ha in Hp.
  destruct Hp as (cs0 & rec & -> & Hret & [(ops & p' & He & Hx & Hw & Hlaw & Hr & Hres)|(e & -> & Hw & Hlaw & Hr & Hres)]).
  - destruct ops as [|op ops].
    + cbn in He. subst p. cbn in Hs. injection Hs as <-. split_and!; [split_and!; cbn; [done|done|done|]|done|by do 4 eexists].
      by rewrite Hret, fmap_app, fmap_cons, Hres.
    + destruct Hx as [Hop Hx]. destruct (w_step_emits op ops p _ (sy_writer s) He Hop) as (q & Hst & He').
      assert (Hs' : step_write s p = Some (set_append (w_op (sy_writer s) op) (sy_prod s) (Some q) (sy_returns s) (sy_panicked s) s)).
      { destruct p; try done; unfold step_write; by rewrite Hst. }
      rewrite Hs' in Hs. injection Hs as <-. split_and!; [|apply (w_ops_prefix [op] (sy_writer s))|by do 4 eexists].
      exists cs0, rec. split_and!; [done|done|left]. by exists ops, p'.
  - cbn in Hs. injection Hs as <-. split_and!; [split_and!; cbn; [done|done|done|]|done|by do 4 eexists].
    by rewrite Hret, fmap_app, fmap_cons, Hres.
Qed.

Lemma prod_mem cs s : prod_inv cs s → w_mem (sy_writer s) `prefix_of` mem_of cap (accepted cap cs).
Proof.
  unfold prod_inv, mem_of. destruct (sy_append s) as [p|]; [|by intros [-> _]].
  intros (cs0 & rec & _ & _ & [(ops & p' & _ & _ & <- & _)|(e & _ & -> & _)]); [apply w_ops_prefix|done].
Qed.

(** *** The consumer, while memory grows *)
Lemma poll_post_grows n D (c : consumer) mem mem' V x :
  grows cap RS mem mem' → poll_post strong cap RS n D c mem V x → poll_post strong cap RS n D c mem' V x.
Proof.
  intros [Hg _]. destruct x as [c' res]. intros (H1 & H2 & H3 & D' & es & H4 & (t & Ht & Hs) & H5 & Hp & H6).
  split_and!; [done|done|apply H3..|]. exists D', es. split_and!; [apply H4|apply H4| |done| |].
  - exists t. split; [by eapply value_at_grows|done].
  - intros Hstr. destruct (Hp Hstr) as (lo & [->|(Hlt & t' & Ht')] & Hes); [by exists (cc_cursor_abs c); split; [left|]|].
    exists lo. split; [|done]. right. split; [done|]. exists t'. by eapply value_at_grows.
  - destruct res as [b|e]; [done|]. destruct H6 as (-> & -> & (t' & o & Ho & Hlt)). split_and!; [done|done|].
    exists t', o. split; [by eapply value_at_grows|done].
Qed.

Lemma cons_grows s D w q a returns panicked :
  grows cap RS (w_mem (sy_writer s)) (w_mem w) → cons_inv s D →
  cons_inv (set_append w q a returns panicked s) D.
Proof.
  intros Hg [H1 Hl H2 H3 H4 H5 H6 H7]. split; cbn [set_append sy_cons sy_polls sy_poll sy_writer sy_view]; try done.
  destruct (sy_poll s) as [x|].
  - eapply wp_grows; [apply grows_trans|exact Hg| |exact H7]. intros [y| | |] _ Hr; try done.
    by eapply poll_post_grows.
  - destruct H7 as (t & Ht & Hs). exists t. split; [eapply value_at_grows; [apply Hg|done]|done].
Qed.
(** *** The consumer's moves *)
Lemma cons_call s D :
  cons_inv s D → sy_poll s = None → w_mem (sy_writer s) `prefix_of` mem_of cap RS →
  Z.of_nat (length (sy_polls s)) + 1 < 2 ^ 64 →
  cons_inv (set_poll (sy_view s) (sy_cons s) (Some (poll (sy_cons s))) (sy_polls s) (sy_panicked s) s) D.
Proof.
  intros [H1 Hl H2 H3 H4 H5 H6 H7] Hp Hm Hn. rewrite Hp in H7.
  split; cbn [set_poll sy_cons sy_polls sy_poll sy_writer sy_view]; try done.
  assert (Hsnap : snapshot_law strong cap RS (cc_store (sy_cons s))) by (by apply law_snapshot).
  eapply wp_mono; [|eapply (wp_poll strong cap Hcap RS Hok Hcap32 (cc_store (sy_cons s)) Hl H1 Hsnap _ D); eauto].
  intros mem V [x| | |] [_ Hx]; exact Hx.
Qed.

(** Every record that ends at or below a cursor is delivered by the poll that
    moves the cursor there, was passed before, or is reclaimed. *)
Lemma passed_on mem x lo y es :
  mem `prefix_of` mem_of cap RS → starts mem x lo → mark cap RS y →
  Forall (passed x es) (ab_log (abs_of cap RS)) →
  Forall (passed y (es ++ between cap RS lo y)) (ab_log (abs_of cap RS)).
Proof.
  intros Hm Hlo (ty & Hy) Hpass. rewrite Forall_forall in Hpass |- *. intros e He Hlt.
  destruct (decide (en_start e < x)) as [Hx|Hx].
  { destruct (Hpass e He Hx) as [?|?]; [left; apply elem_of_app; by left|by right]. }
  destruct (decide (en_start e < lo)) as [Hl|Hl].
  { right. destruct Hlo as [->|(_ & t & Ht)]; [lia|]. exists t, lo. split; [by eapply value_in_M|done]. }
  destruct Hy as [Hy|Hy]; [|right; by exists ty, y].
  left. apply elem_of_app. right. apply list_elem_of_filter. split; [|done]. split; [lia|].
  destruct (fa_head _ _ (facts_hold cap Hcap RS Hok) _ _ Hy) as (rs1 & Hrs1 & -> & _).
  assert (Hok1 : rs_ok cap rs1) by (by eapply rs_ok_prefix).
  destruct (log_grows cap Hcap _ _ Hrs1 Hok) as (l & Hl1 & Hf). rewrite Hl1 in He. apply elem_of_app in He as [He|He].
  - pose proof (conc_log_ends cap Hcap rs1 Hok1) as Hends. rewrite Forall_forall in Hends. by apply Hends.
  - rewrite Forall_forall in Hf. specialize (Hf e He). lia.
Qed.

Lemma cons_return s D c result :
  cons_inv s D → sy_poll s = Some (Done (Ok (c, result))) → w_mem (sy_writer s) `prefix_of` mem_of cap RS →
  ∃ D', cons_inv (set_poll (sy_view s) c None
    (sy_polls s ++ [{| po_from := cc_cursor_abs (sy_cons s); po_to := cc_cursor_abs c; po_result := result |}])
    (sy_panicked s) s) D'.
Proof.
  intros [H1 Hl H2 H3 H4 H5 H6 H7] Hq Hm. rewrite Hq in H7.
  destruct H7 as (Hst & Hmark & Hcnt & D' & es & [HD Hc] & Hseen & Hsub & Hfrom & Hres). exists D'.
  split; cbn [set_poll sy_cons sy_polls sy_poll sy_writer sy_view]; try done.
  - by rewrite Hst.
  - by rewrite Hst.
  - rewrite length_app. cbn [length]. by rewrite Nat2Z.inj_add.
  - apply Forall_app. split; [done|]. constructor; [|done]. unfold poll_ok. cbn [po_result po_from po_to].
    destruct result as [b|e].
    + destruct Hres as (Hr & Hn & Hs). split; [done|]. intros Hst' Hlap. by rewrite Hr, Hs.
    + destruct Hres as (_ & -> & (t & o & Ho & Hlt)). split; [done|]. exists t, o. split; [by eapply value_at_grows|done].
  - destruct H6 as (es0 & Hd & Hs0 & Hpass). exists (es0 ++ es). split_and!.
    + unfold delivered in *. cbn [sy_polls set_poll]. rewrite bind_app, Hd, fmap_app. f_equal. cbn. rewrite app_nil_r.
      destruct result as [b|e]; [by destruct Hres as [-> _]|by destruct Hres as [-> _]].
    + etrans; [by apply sublist_app|]. apply ordered_window; [by apply log_ordered|done].
    + intros Hstr. destruct (Hfrom Hstr) as (lo & Hlo & ->). by eapply passed_on; [exact Hm|exact Hlo| |apply Hpass].
Qed.

Lemma cons_step s D q t s' :
  cons_inv s D → sy_poll s = Some q → step_poll strong s q t = Some s' →
  w_mem (sy_writer s) `prefix_of` mem_of cap RS →
  ∃ D', cons_inv s' D' ∧ ∃ V c q' polls, s' = set_poll V c q' polls (sy_panicked s) s.
Proof.
  intros Hc Hq Hs Hm.
  assert (Hstep : (∃ V q', r_step strong (w_mem (sy_writer s)) (sy_view s) q t = Some (V, q')
      ∧ s' = set_poll V (sy_cons s) (Some q') (sy_polls s) (sy_panicked s) s) →
    ∃ D', cons_inv s' D' ∧ ∃ V c q' polls, s' = set_poll V c q' polls (sy_panicked s) s).
  { intros (V & q' & Hr & ->). exists D. split; [|by do 4 eexists]. destruct Hc as [H1 Hl H2 H3 H4 H5 H6 H7].
    rewrite Hq in H7. split; cbn [set_poll sy_cons sy_polls sy_poll sy_writer sy_view]; try done.
    eapply wp_step; [by apply grows_refl|exact Hr|exact H7]. }
  pose proof (ci_running _ _ Hc) as Hw. rewrite Hq in Hw.
  destruct q as [[[c result]|e| |]|o l k|o l v k|o l v k|o k]; try done.
  - cbn in Hs. injection Hs as <-. destruct (cons_return s D c result Hc Hq Hm) as [D' HD']. exists D'.
    split; [done|by do 4 eexists].
  - unfold step_poll in Hs. destruct (r_step _ _ _ (Ld o l k) t) as [[V q']|] eqn:Hr; [|done].
    injection Hs as <-. apply Hstep. by exists V, q'.
  - unfold step_poll in Hs. destruct (r_step _ _ _ (Fnc o k) t) as [[V q']|] eqn:Hr; [|done].
    injection Hs as <-. apply Hstep. by exists V, q'.
Qed.

(** *** Whole runs *)
Lemma log_starts rs : rs_ok cap rs → Forall (λ e, 0 ≤ en_start e) (ab_log (abs_of cap rs)).
Proof.
  induction rs as [|rec rs IH] using rev_ind; intros Hrs; [constructor|].
  assert (Hok' : rs_ok cap rs) by (eapply rs_ok_prefix; [exact Hcap|by apply prefix_app_r|exact Hrs]).
  destruct (history_ring cap Hcap _ Hok') as (r & _ & Hrep & _). destruct Hrs as [Hfit _].
  apply Forall_app in Hfit as [_ Hfit]. apply Forall_cons_1 in Hfit as [[Hw Hlen] _].
  rewrite <-(abs_of_cap cap rs) in Hlen. pose proof (placed_bounds _ _ _ Hrep Hw Hlen) as [Hb _].
  pose proof (rep_window _ _ Hrep). pose proof (layout_bounds _ _ _ _ (rep_layout _ _ Hrep)) as [? _].
  rewrite (abs_of_snoc cap), (log_write _ _ _ Hrep). apply Forall_app. split; [by apply IH|]. constructor; [lia|done].
Qed.

(** Bytes once reclaimed are below the last [OldestAbs]. *)
Lemma reclaimed_below x : reclaimed (mem_of cap RS) x → x < ab_oldest (abs_of cap RS).
Proof.
  intros (t & o & Hv & Hlt). destruct (fa_oldest _ _ (facts_hold cap Hcap RS Hok) _ _ Hv) as [[_ ->]|(rs0 & rec & Hp & -> & _)].
  - destruct (history_ring cap Hcap _ Hok) as (r & _ & Hrep & _). pose proof (rep_window _ _ Hrep). lia.
  - pose proof (oldest_mono cap Hcap _ _ Hp Hok). lia.
Qed.

(** So what is still in the ring below a cursor was delivered. *)
Lemma passed_live x es e :
  Forall (passed x es) (ab_log (abs_of cap RS)) → e ∈ ab_live (abs_of cap RS) → en_start e < x → e ∈ es.
Proof.
  rewrite Forall_forall. intros Hpass He Hlt. destruct (Hpass e) as [?|Hr]; [by apply elem_of_app; right|done|done|].
  apply reclaimed_below in Hr. destruct (history_ring cap Hcap _ Hok) as (r & _ & Hrep & _).
  pose proof (layout_bounds _ _ _ _ (rep_layout _ _ Hrep)) as [_ Hb]. rewrite Forall_forall in Hb. specialize (Hb e He). cbn in Hb. lia.
Qed.

(** Whatever cursor the consumer holds, a reader of the last ring may start there. *)
Lemma mark_last x : mark cap RS x → boundary (abs_of cap RS) x.
Proof.
  intros Hm. destruct (decide (ab_oldest (abs_of cap RS) ≤ x)); [|left; lia].
  destruct (decide (x < ab_head (abs_of cap RS))); [|right; left; lia]. by apply (mark_boundary cap Hcap RS Hok).
Qed.

Lemma inv_new store : lawful store → cs_capacity store = cap → conc_inv [] (sys_new store) 0.
Proof.
  intros Hlaw Hs. split; cbn; try done; [apply prefix_nil|].
  split; cbn; try done.
  - exists 0%nat. by left.
  - exists []. split_and!; [done|apply sublist_nil_l|]. intros _. apply Forall_forall. intros e He Hlt.
    pose proof (log_starts RS Hok) as Hs0. rewrite Forall_forall in Hs0. specialize (Hs0 e He). cbn in *. lia.
  - exists 0%nat. split; [done|by right].
Qed.

Lemma move_inv m cs s s' D :
  Forall writable (calls [m]) → accepted cap (cs ++ calls [m]) `prefix_of` RS →
  Z.of_nat (length (sy_polls s)) + 1 < 2 ^ 64 →
  conc_inv cs s D → conc_move strong m s = Some s' → ∃ D', conc_inv (cs ++ calls [m]) s' D'.
Proof.
  intros Hw Hrs Hn [H1 H2 H3 H4 H5] Hm.
  assert (HM : w_mem (sy_writer s) `prefix_of` mem_of cap RS) by (etrans; [exact H3|by apply mem_of_prefix]).
  assert (Hstay : ∀ s1 D', prod_inv cs s1 → cons_inv s1 D' → sy_panicked s1 = false →
    ∃ D', conc_inv (cs ++ []) s1 D').
  { intros s1 D' Hp Hc Hf. exists D'. rewrite app_nil_r. split; try done. by eapply prod_mem. }
  destruct m as [rec| | |t]; unfold conc_move in Hm; cbn [calls omap list_omap move_record] in *.
  - destruct (sy_append s) eqn:Ha; [done|]. injection Hm as <-. exists D. apply Forall_cons_1 in Hw as [Hw _].
    assert (Hok1 : rs_ok cap (accepted cap (cs ++ [rec]))) by (by eapply rs_ok_prefix).
    split; [done|by apply prod_call| |by apply cons_grows; [apply grows_refl|]|done].
    etrans; [exact H3|]. rewrite accepted_app. by apply mem_of_prefix, prefix_app_r.
  - destruct (sy_append s) as [p|] eqn:Ha; [|done]. cbn [mbind option_bind] in Hm.
    destruct (prod_step cs s p s' H2 Ha Hm) as (Hp & Hpre & w & q & a & returns & ->).
    apply (Hstay _ D); [done| |done]. apply cons_grows; [|done]. split; [done|].
    etrans; [exact (prod_mem _ _ Hp)|by apply mem_of_prefix].
  - destruct (sy_poll s) eqn:Hp; [done|]. injection Hm as <-. apply (Hstay _ D); [exact H2|by apply cons_call|done].
  - destruct (sy_poll s) as [q|] eqn:Hp; [|done]. cbn [mbind option_bind] in Hm.
    destruct (cons_step s D q t s' H4 Hp Hm HM) as (D' & Hc & V & c & q' & polls & ->).
    apply (Hstay _ D'); [exact H2|exact Hc|done].
Qed.

Lemma move_polls m s s' :
  conc_move strong m s = Some s' → sy_polls s' = sy_polls s ∨ ∃ p, sy_polls s' = sy_polls s ++ [p].
Proof.
  destruct m as [rec| | |t]; cbn [conc_move].
  - destruct (sy_append s); [done|]. intros [= <-]. by left.
  - destruct (sy_append s) as [p|]; [|done]. cbn [mbind option_bind].
    destruct p as [[| | |]|o l k|o l v k|o l v k|o k]; cbn; intros [= <-]; by left.
  - destruct (sy_poll s); [done|]. intros [= <-]. by left.
  - destruct (sy_poll s) as [q|]; [|done]. cbn [mbind option_bind].
    destruct q as [[[c r]| | |]|o l k|o l v k|o l v k|o k]; unfold step_poll; cbn [mbind option_bind];
      try match goal with |- context [r_step ?a ?b ?d ?q ?t] => destruct (r_step a b d q t) as [[V q']|]; [|done] end;
      intros [= <-]; try (by left). right. by eexists.
Qed.

Lemma run_polls moves : ∀ s s', run strong moves s = Some s' → sy_polls s `prefix_of` sy_polls s'.
Proof.
  induction moves as [|m moves IH]; intros s s'; cbn [run]; [by intros [= <-]|].
  destruct (conc_move strong m s) as [s1|] eqn:Hm; [|done]. intros Hrun. etrans; [|by apply IH].
  destruct (move_polls _ _ _ Hm) as [->|[p ->]]; [done|by apply prefix_app_r].
Qed.

Lemma run_inv moves : ∀ cs s s' D,
  Forall writable (calls moves) → accepted cap (cs ++ calls moves) = RS →
  Z.of_nat (length (sy_polls s')) + 1 < 2 ^ 64 →
  conc_inv cs s D → run strong moves s = Some s' → ∃ D', conc_inv (cs ++ calls moves) s' D'.
Proof.
  induction moves as [|m moves IH]; intros cs s s' D Hw Hrs Hn Hinv Hrun.
  { cbn in *. rewrite app_nil_r. injection Hrun as <-. by exists D. }
  assert (Hc : calls (m :: moves) = calls [m] ++ calls moves) by apply (omap_app _ [m]).
  rewrite Hc in Hw, Hrs |- *. apply Forall_app in Hw as [Hw1 Hw]. rewrite app_assoc in Hrs |- *.
  pose proof (prefix_length _ _ (run_polls (m :: moves) s s' Hrun)) as Hl.
  cbn [run] in Hrun. destruct (conc_move strong m s) as [s1|] eqn:Hm; [|done]. cbn [mbind option_bind] in Hrun.
  destruct (move_inv m cs s s1 D Hw1) as [D1 H1]; [|lia|done|done|by apply (IH _ s1 s' D1)].
  rewrite <-Hrs, (accepted_app (cs ++ _)). by apply prefix_app_r.
Qed.
End invariant.
End system.

(** ** What every run guarantees *)

(** The records can be encoded and are few enough for 64-bit offsets and for the
    lock, if the store has one, and there are fewer moves than a counter can hold. *)
Definition schedule_ok {SQ : Sequenced} (cap : nat) (moves : list move) : Prop :=
  (0 < cap)%nat ∧ Z.of_nat cap < 2 ^ 32 ∧ Forall writable (calls moves) ∧ lock_room (length (calls moves))
  ∧ 2 * Z.of_nat cap * (Z.of_nat (length (calls moves)) + 1) < 2 ^ 64 ∧ Z.of_nat (length moves) + 1 < 2 ^ 64.

#[global] Instance schedule_ok_dec {SQ : Sequenced} cap moves : Decision (schedule_ok cap moves).
Proof. unfold schedule_ok. apply _. Defined.

(** The log of a schedule: the abstract ring after its accepted records. *)
Definition final_ring (cap : nat) (moves : list move) : AbsRing :=
  abs_of cap (accepted cap (calls moves)).

Section runs.
Context {BP : BuildProfile} {S : Type} {CS : ConcurrentStore S} {SQ : Sequenced} {SL : StoreLaws S}.
Context (strong : bool) {SN : SnapshotLaws S strong} (store : S) (moves : list move) (s : sys S).
Abbreviation cap := (cs_capacity store).
Context (Hlaw : lawful store) (Hsched : schedule_ok cap moves) (Hrun : run strong moves (sys_new store) = Some s).
Abbreviation RS := (accepted cap (calls moves)).

Lemma sched_rs_ok : rs_ok cap RS.
Proof.
  destruct Hsched as (Hc & _ & Hw & _ & Hr & _). split.
  - apply Forall_forall. intros rec [Hl Hin]%list_elem_of_filter. rewrite Forall_forall in Hw. split; [by apply Hw|done].
  - pose proof (length_filter (λ rec, length (enc_record rec true) ≤ cap)%nat (calls moves)). unfold accepted. nia.
Qed.

Lemma run_length ms : ∀ s1 s2,
  run strong ms s1 = Some s2 → (length (sy_polls s2) ≤ length (sy_polls s1) + length ms)%nat.
Proof.
  induction ms as [|m ms IH]; intros s1 s2; cbn [run length]; [intros [= ->]; lia|].
  destruct (conc_move strong m s1) as [s3|] eqn:Hm; [|done]. intros H%IH.
  destruct (move_polls _ _ _ _ Hm) as [Hp|[p Hp]]; rewrite Hp, ?length_app in H; cbn [length] in H; lia.
Qed.

Lemma sched_lock : lock_room (length RS).
Proof.
  destruct Hsched as (_ & _ & _ & Hl & _). intros Hs. specialize (Hl Hs).
  pose proof (length_filter (λ rec, length (enc_record rec true) ≤ cap)%nat (calls moves)). unfold accepted. lia.
Qed.

Lemma reached : ∃ D, conc_inv strong cap RS (calls moves) s D.
Proof.
  pose proof sched_rs_ok as Hok. destruct Hsched as (Hc & H32 & Hw & _ & _ & Hlen).
  pose proof (run_length _ _ _ Hrun) as Hl. cbn [sys_new sy_polls length] in Hl.
  apply (run_inv strong cap Hc H32 RS Hok sched_lock moves [] (sys_new store) s 0); [done|done|lia|by apply inv_new|done].
Qed.

Lemma log_records rs : rs_ok cap rs → en_rec <$> ab_log (abs_of cap rs) = rs.
Proof.
  destruct Hsched as (Hc & _). induction rs as [|rec rs IH] using rev_ind; [done|]. intros Hok.
  assert (Hok' : rs_ok cap rs) by (eapply rs_ok_prefix; [exact Hc| |exact Hok]; by apply prefix_app_r).
  destruct (history_ring cap Hc _ Hok') as (r & _ & Hrep & _). by rewrite abs_of_snoc, (log_write r), fmap_app, IH.
Qed.

(** Bytes once reclaimed are below the final [OldestAbs]. *)
Lemma reclaimed_final x : reclaimed (mem_of cap RS) x → x < ab_oldest (final_ring cap moves).
Proof. pose proof sched_rs_ok. destruct Hsched as (Hc & _). by apply (reclaimed_below cap Hc RS). Qed.

End runs.

(** The steps of a poll as moves of the system. *)
Lemma run_r_steps {BP : BuildProfile} {S} {CS : ConcurrentStore S} strong ts : ∀ (s : sys S) q V' q',
  sy_poll s = Some q → r_steps strong (w_mem (sy_writer s)) (sy_view s) q ts = Some (V', q') →
  run strong (StepPoll <$> ts) s = Some (set_poll V' (sy_cons s) (Some q') (sy_polls s) (sy_panicked s) s).
Proof.
  induction ts as [|t ts IH]; intros s q V' q' Hq Hs; cbn [r_steps] in Hs.
  { injection Hs as <- <-. cbn. destruct s. cbn in Hq. by rewrite Hq. }
  destruct (r_step strong (w_mem (sy_writer s)) (sy_view s) q t) as [[V1 q1]|] eqn:Hr; [|done].
  cbn [mbind option_bind] in Hs. rewrite fmap_cons. cbn [run conc_move]. rewrite Hq. cbn [mbind option_bind].
  assert (Hst : step_poll strong s q t = Some (set_poll V1 (sy_cons s) (Some q1) (sy_polls s) (sy_panicked s) s)).
  { destruct q as [?|o l k|o l v k|o l v k|o k]; try done; unfold step_poll; by rewrite Hr. }
  rewrite Hst. cbn [mbind option_bind].
  exact (IH (set_poll V1 (sy_cons s) (Some q1) (sy_polls s) (sy_panicked s) s) q1 V' q' eq_refl Hs).
Qed.

Lemma run_app {BP : BuildProfile} {S} {CS : ConcurrentStore S} strong ms1 : ∀ ms2 (s : sys S), run strong (ms1 ++ ms2) s = (s ← run strong ms1 s; run strong ms2 s).
Proof.
  induction ms1 as [|m ms1 IH]; intros ms2 s; [done|]. cbn [app run].
  destruct (conc_move strong m s); [|done]. cbn [mbind option_bind]. apply IH.
Qed.

(** ** Schedules that witness the properties, and two that the code does not mean

    A script names bursts of steps; a load returns the newest message. *)
Inductive beat := BWrite (rec : WireRecord) | BSteps (n : nat) | BPoll | BLoads (n : nat).

Section scripts.
Context {BP : BuildProfile} {S : Type} {CS : ConcurrentStore S}.
Abbreviation sys := (sys S).

Definition newest (s : sys) : move :=
  StepPoll match sy_poll s with
           | Some (Ld _ l _) => latest (w_mem (sy_writer s)) (length (w_mem (sy_writer s))) l
           | _ => 0%nat
           end.

(** At most [n] moves that [next] picks, while they are possible. *)
Fixpoint burst (next : sys → move) (n : nat) (s : sys) : list move * sys :=
  match n with
  | O => ([], s)
  | Datatypes.S n => match conc_move true (next s) s with
           | Some s' => let '(l, s'') := burst next n s' in (next s :: l, s'')
           | None => ([], s)
           end
  end.

Definition beat_moves (b : beat) : sys → list move * sys :=
  match b with
  | BWrite rec => burst (λ _, CallWrite rec) 1
  | BSteps n => burst (λ _, StepWrite) n
  | BPoll => burst (λ _, CallPoll) 1
  | BLoads n => burst newest n
  end.

Fixpoint play (bs : list beat) (s : sys) : list move :=
  match bs with
  | [] => []
  | b :: bs => let '(l, s) := beat_moves b s in l ++ play bs s
  end.
End scripts.

(** A record of [44 + 4 + length payload] bytes (payload a multiple of four). *)
Definition demo_slot_record (n : Z) (payload : bytes) : WireRecord :=
  let r := demo_record n in
  {| rec_flags := rec_flags r; rec_source_time := rec_source_time r; rec_run_id := rec_run_id r;
     rec_seq := rec_seq r; rec_source_id := rec_source_id r; rec_event_type_id := rec_event_type_id r;
     rec_slots := [{| slot_key := 1; slot_ty := 5; slot_payload := payload |}] |}.

Definition owned (cap : usize) : OwnedConcurrentStore := ocs_new {| cr_capacity := cap |}.

Definition write_all (rec : WireRecord) : list beat := [BWrite rec; BSteps 1000].

(** Three records into a 100-byte ring; a poll that has read the second when a
    fourth record overwrites the wrap marker it is about to read. *)
Definition overtaken_script : list beat :=
  write_all (demo_record 0) ++ write_all (demo_record 1) ++ write_all (demo_record 2)
  ++ [BPoll; BLoads 56] ++ write_all (demo_slot_record 3 (replicate 8 7)) ++ [BLoads 1000].
Definition overtaken_moves : list move := play (BP:=dev_profile) overtaken_script (sys_new (owned 100)).

(** The same, and a second poll under way while a fifth record is written. *)
Definition demo_moves : list move :=
  play (BP:=dev_profile)
    (write_all (demo_record 0) ++ [BPoll; BLoads 20] ++ write_all (demo_record 1) ++ [BLoads 1000]
     ++ [BWrite (demo_record 2); BSteps 9; BPoll; BLoads 30; BSteps 1000; BLoads 1000]
     ++ write_all (demo_slot_record 3 (replicate 80 1)) ++ write_all (demo_record 4)) (sys_new (owned 100)).

(** Two records; a poll has read the first when a third record, with a zero
    byte where the second started, reclaims both; the poll's load of that byte
    is fresh, its last load of [OldestAbs] is not. *)
Definition stale_moves : list move :=
  play (BP:=dev_profile)
    (write_all (demo_record 0) ++ write_all (demo_record 1) ++ [BPoll; BLoads 56]
     ++ write_all (demo_slot_record 2 (replicate 4 0)) ++ [BLoads 1]) (sys_new (owned 100))
  ++ [StepPoll 47; StepPoll 0].

(** ** Properties *)

(** What the two safety properties share with the stores' own. *)
Lemma delivery {BP : BuildProfile} {S} {CS : ConcurrentStore S} {SQ : Sequenced} {SL : StoreLaws S}
    strong {SN : SnapshotLaws S strong} (store : S) moves s :
  lawful store → schedule_ok (cs_capacity store) moves → run strong moves (sys_new store) = Some s →
  sy_panicked s = false ∧
  en_rec <$> ab_log (final_ring (cs_capacity store) moves) = accepted (cs_capacity store) (calls moves) ∧
  ∃ es, delivered s = en_read <$> es ∧ es `sublist_of` ab_log (final_ring (cs_capacity store) moves).
Proof.
  intros Hlaw Hs Hrun. destruct (reached _ _ _ _ Hlaw Hs Hrun) as [D [_ _ _ Hc Hf]]. split_and!; [done| |].
  - eapply (log_records store moves Hs). by apply sched_rs_ok.
  - destruct (ci_delivered _ _ _ _ _ Hc) as (es & Hd & Hsub & _). exists es. split; [done|].
    etrans; [exact Hsub|apply sublist_filter].
Qed.

(** Under sequential consistency a record that is still in the ring is never
    passed over. *)
Lemma kept_delivered {BP : BuildProfile} {S} {CS : ConcurrentStore S} {SQ : Sequenced} {SL : StoreLaws S}
    {SN : SnapshotLaws S true} (store : S) moves s :
  lawful store → schedule_ok (cs_capacity store) moves → run true moves (sys_new store) = Some s →
  ∃ es, delivered s = en_read <$> es ∧ es `sublist_of` ab_log (final_ring (cs_capacity store) moves) ∧
    ∀ e, e ∈ ab_live (final_ring (cs_capacity store) moves) → en_start e < cc_cursor_abs (sy_cons s) → e ∈ es.
Proof.
  intros Hlaw Hs Hrun. destruct (reached _ _ _ _ Hlaw Hs Hrun) as [D [_ _ _ Hc _]].
  destruct (ci_delivered _ _ _ _ _ Hc) as (es & Hd & Hsub & Hpass). exists es. split_and!; [done| |].
  { etrans; [exact Hsub|apply sublist_filter]. }
  intros e He Hlt. pose proof Hs as [Hcap _]. by apply (passed_live (cs_capacity store) Hcap _ (sched_rs_ok store moves Hs) _ _ _ (Hpass eq_refl)).
Qed.

Lemma completeness {BP : BuildProfile} {S} {CS : ConcurrentStore S} {SQ : Sequenced} {SL : StoreLaws S}
    strong {SN : SnapshotLaws S strong} (store : S) moves s p :
  lawful store → schedule_ok (cs_capacity store) moves → run strong moves (sys_new store) = Some s → p ∈ sy_polls s →
  match po_result p with
  | inl b => rb_next_abs b = po_to p ∧ (strong = true → rb_lapped b = false →
      rb_records b = en_read <$> filter (λ e, po_from p ≤ en_start e ∧ en_end e ≤ po_to p) (ab_log (final_ring (cs_capacity store) moves)))
  | inr _ => po_to p = po_from p ∧ po_from p < ab_oldest (final_ring (cs_capacity store) moves)
  end.
Proof.
  intros Hlaw Hs Hrun Hp. destruct (reached _ _ _ _ Hlaw Hs Hrun) as [D [_ _ _ Hc _]].
  pose proof (ci_polls _ _ _ _ _ Hc) as Hall. rewrite Forall_forall in Hall. specialize (Hall p Hp).
  unfold poll_ok in Hall. destruct (po_result p) as [b|e]; [exact Hall|]. destruct Hall as [-> Hr]. split; [done|].
  by eapply reclaimed_final.
Qed.

(** C3: safety under any schedule and, with [strong = false], under the
    release/acquire memory model: whatever the interleaving of the producer's
    accesses with the consumer's and whatever stale values its relaxed loads
    return, neither thread panics, and the records all polls delivered are, in
    order and without repetition, records of the log exactly as they were
    written; the log holds the accepted records in write order. Nothing torn is
    ever delivered. *)
Theorem concurrent_delivery {BP : BuildProfile} {S} {CS : ConcurrentStore S} {SQ : Sequenced} {SL : StoreLaws S}
    strong {SN : SnapshotLaws S strong} (store : S) moves s :
  lawful store → schedule_ok (cs_capacity store) moves → run strong moves (sys_new store) = Some s →
  sy_panicked s = false ∧
  en_rec <$> ab_log (final_ring (cs_capacity store) moves) = accepted (cs_capacity store) (calls moves) ∧
  ∃ es, delivered s = en_read <$> es ∧ es `sublist_of` ab_log (final_ring (cs_capacity store) moves).
Proof. intros Hlaw. by apply delivery. Qed.

(** C4: completeness under sequential consistency: a batch that is not marked
    lapped is exactly the log between the two cursors, nothing skipped, whatever
    the producer did in the meantime; an error leaves the cursor, and happens
    only when the bytes at the cursor have been reclaimed (under either memory
    model). *)
Theorem batch_complete {BP : BuildProfile} {S} {CS : ConcurrentStore S} {SQ : Sequenced} {SL : StoreLaws S}
    strong {SN : SnapshotLaws S strong} (store : S) moves s p :
  lawful store → schedule_ok (cs_capacity store) moves → run strong moves (sys_new store) = Some s → p ∈ sy_polls s →
  match po_result p with
  | inl b => rb_next_abs b = po_to p ∧ (strong = true → rb_lapped b = false →
      rb_records b = en_read <$> filter (λ e, po_from p ≤ en_start e ∧ en_end e ≤ po_to p) (ab_log (final_ring (cs_capacity store) moves)))
  | inr _ => po_to p = po_from p ∧ po_from p < ab_oldest (final_ring (cs_capacity store) moves)
  end.
Proof. intros Hlaw. by apply completeness. Qed.

(** C5: the producer implements the single-buffer ring: whenever it is idle,
    every [write_record] returned what the ring's would (refusing exactly the
    records longer than the pool), and memory and the producer's own fields hold
    the bytes, head, oldest offset, lost count and spans of a [RingBuffer] that
    took the accepted records. *)
Theorem producer_refines_ring {BP : BuildProfile} {S} {CS : ConcurrentStore S} {SQ : Sequenced} {SL : StoreLaws S}
    strong {SN : SnapshotLaws S strong} (store : S) moves s :
  lawful store → schedule_ok (cs_capacity store) moves → run strong moves (sys_new store) = Some s → sy_append s = None →
  sy_returns s = write_result (cs_capacity store) <$> calls moves ∧
  ∃ r, (r ← ring_new (cs_capacity store); ring_writes (accepted (cs_capacity store) (calls moves)) r) = Ok r
    ∧ ring_rep r (final_ring (cs_capacity store) moves) ∧ image (cs_capacity store) (w_mem (sy_writer s)) r
    ∧ cp_head_abs (sy_prod s) = ring_head_abs r
    ∧ cp_spans (sy_prod s) = (λ i, (ri_start_abs i, ri_end_abs i)) <$> ring_index r.
Proof.
  intros Hlaw Hs Hrun Ha. destruct (reached _ _ _ _ Hlaw Hs Hrun) as [D [_ Hp _ _ _]]. unfold prod_inv in Hp. rewrite Ha in Hp.
  destruct Hp as (Hw & _ & Hp & Hr). split; [done|]. pose proof Hs as [Hc _].
  destruct (history_image (cs_capacity store) Hc _ (sched_rs_ok store moves Hs)) as (r & Hrun' & Hrep & Him). exists r. split_and!; [done|done| | |].
  - by rewrite Hw.
  - by rewrite (rep_head _ _ Hrep), (pr_head _ _ Hp).
  - by rewrite (pr_spans _ _ Hp), (rep_index _ _ Hrep), <-list_fmap_compose.
Qed.

(** C6: progress: once the producer is idle, one poll under sequential
    consistency finishes, never with an error, and delivers everything still in
    the ring from the cursor on, exactly as the single-buffer reader would,
    leaving the cursor at the head; [lapped] is set exactly when the cursor had
    fallen behind the oldest byte. *)
Theorem quiescent_poll {BP : BuildProfile} {S} {CS : ConcurrentStore S} {SQ : Sequenced} {SL : StoreLaws S}
    {QS : QuietSnapshot S} {SN : SnapshotLaws S true} (store : S) moves s :
  lawful store → schedule_ok (cs_capacity store) moves → run true moves (sys_new store) = Some s → sy_append s = None → sy_poll s = None →
  ∃ ts s', run true (CallPoll :: (StepPoll <$> ts)) s = Some s' ∧ sy_poll s' = None
    ∧ sy_polls s' = sy_polls s ++
        [{| po_from := cc_cursor_abs (sy_cons s); po_to := ab_head (final_ring (cs_capacity store) moves);
            po_result := inl (batch_of (final_ring (cs_capacity store) moves) (cc_cursor_abs (sy_cons s))) |}].
Proof.
  intros Hlaw Hs Hrun Ha Hq. destruct (reached _ _ _ _ Hlaw Hs Hrun) as [D [_ Hp _ Hc _]]. unfold prod_inv in Hp. rewrite Ha in Hp.
  destruct Hp as (Hw & _). pose proof (sched_rs_ok _ _ Hs) as Hok. pose proof Hs as (Hcap & H32 & _ & _ & _ & Hlen).
  destruct (history_image (cs_capacity store) Hcap _ Hok) as (r & _ & Hrep & Him).
  assert (Hmem : w_mem (sy_writer s) = mem_of (cs_capacity store) (accepted (cs_capacity store) (calls moves))) by (by rewrite Hw).
  assert (Hn : Z.of_nat (length (sy_polls s)) + 1 < 2 ^ 64).
  { pose proof (run_length _ _ _ _ Hrun) as Hl. cbn [sys_new sy_polls length] in Hl. lia. }
  set (c := sy_cons s) in *. pose proof (ci_counters _ _ _ _ _ Hc) as (Hl & _). fold c in Hl.
  assert (Hwords : words_ok r) by (by eapply history_words).
  destruct (solo_poll (cs_capacity store) _ r Him Hwords (cc_store c) (ci_lawful _ _ _ _ _ Hc) (ci_cap _ _ _ _ _ Hc) c (batch_of (final_ring (cs_capacity store) moves) (cc_cursor_abs c)))
    as (c' & Hsolo & Hcur); [done|done|done|lia|lia| |].
  { apply read_raw_from_rep; [done| |]. 
    - destruct (history_ring (cs_capacity store) Hcap _ Hok) as (r' & _ & _ & _ & Hh). destruct Hok as [_ Hroom]. unfold final_ring. nia.
    - apply (mark_last (cs_capacity store) Hcap _ Hok), (ci_mark _ _ _ _ _ Hc). }
  pose proof (cons_call true (cs_capacity store) Hcap H32 _ Hok (sched_lock _ _ Hs) s D Hc Hq ltac:(by rewrite Hmem) Hn) as Hc1.
  pose proof (ci_running _ _ _ _ _ Hc1) as Hwp. cbn [set_poll sy_poll sy_writer sy_view] in Hwp.
  apply wp_solo in Hwp as (ts & V' & Hts & _); [|apply grows_refl; by rewrite Hmem].
  fold c in Hts. rewrite Hmem, Hsolo in Hts. exists (ts ++ [0%nat]).
  eexists. rewrite fmap_app. cbn [run conc_move]. rewrite Hq. cbn [mbind option_bind].
  rewrite run_app, (run_r_steps _ ts _ (poll (sy_cons s)) V' (Done (Ok (c', inl (batch_of (final_ring (cs_capacity store) moves) (cc_cursor_abs c))))));
    [|done|by rewrite <-Hmem in Hts].
  cbn. split_and!; [done|done|]. by rewrite Hcur.
Qed.

#[local] Existing Instance owned_sequenced.
#[local] Abbreviation C100 := (cs_capacity (owned 100)).

(** ** Witnesses *)

(** A fact about the end of a run, computed. *)
Ltac run_ends s Hrun :=
  match goal with |- context [run (BP:=?B) ?st ?ms ?s0] =>
    destruct (run (BP:=B) st ms s0) as [s|] eqn:Hrun; [|exfalso; revert Hrun; vm_compute; discriminate] end.
Ltac at_end f Hrun H :=
  match type of Hrun with ?r = Some ?s =>
    assert (H : option_map f r = Some (f s)) by (by rewrite Hrun); vm_compute in H; symmetry in H; injection H as H end.

Lemma concurrent_delivery_witness :
  ∃ s, run (BP:=dev_profile) false demo_moves (sys_new (owned 100)) = Some s ∧
    sy_panicked s = false ∧
    en_rec <$> ab_log (final_ring C100 demo_moves) = accepted C100 (calls demo_moves) ∧
    ∃ es, delivered s = en_read <$> es ∧ es `sublist_of` ab_log (final_ring C100 demo_moves).
Proof.
  run_ends s Hrun. exists s. split; [exact eq_refl|].
  apply (concurrent_delivery (BP:=dev_profile) false (owned 100) demo_moves s); [exact I|by_compute|exact Hrun].
Defined.

Lemma producer_refines_ring_witness :
  ∃ s, run (BP:=dev_profile) true demo_moves (sys_new (owned 100)) = Some s ∧
    sy_returns s = write_result C100 <$> calls demo_moves ∧
    ∃ r, (r ← ring_new C100; ring_writes (BP:=dev_profile) (accepted C100 (calls demo_moves)) r) = Ok r
      ∧ ring_rep r (final_ring C100 demo_moves) ∧ image C100 (w_mem (sy_writer s)) r
      ∧ cp_head_abs (sy_prod s) = ring_head_abs r
      ∧ cp_spans (sy_prod s) = (λ i, (ri_start_abs i, ri_end_abs i)) <$> ring_index r.
Proof.
  run_ends s Hrun. exists s. split; [exact eq_refl|].
  apply (producer_refines_ring (BP:=dev_profile) true (owned 100) demo_moves s); [exact I|by_compute|exact Hrun|].
  by at_end (@sy_append OwnedConcurrentStore) Hrun H.
Defined.

(** The third poll of [demo_moves]. *)
Lemma batch_complete_witness :
  ∃ s, run (BP:=dev_profile) true demo_moves (sys_new (owned 100)) = Some s ∧
  ∃ p, p ∈ sy_polls s ∧
  match po_result p with
  | inl b => rb_next_abs b = po_to p ∧ (true = true → rb_lapped b = false →
      rb_records b = en_read <$> filter (λ e, po_from p ≤ en_start e ∧ en_end e ≤ po_to p) (ab_log (final_ring C100 demo_moves)))
  | inr _ => po_to p = po_from p ∧ po_from p < ab_oldest (final_ring C100 demo_moves)
  end.
Proof.
  run_ends s Hrun. exists s. split; [exact eq_refl|].
  assert (H : (length ∘ @sy_polls OwnedConcurrentStore <$> run (BP:=dev_profile) true demo_moves (sys_new (owned 100))) = Some 2%nat)
    by (vm_compute; reflexivity).
  rewrite Hrun in H. injection H as H. destruct (sy_polls s) as [|p ps] eqn:Hps; [done|].
  exists p. split; [by left|].
  apply (batch_complete (BP:=dev_profile) true (owned 100) demo_moves s); [exact I|by_compute|exact Hrun|rewrite Hps; by left].
Defined.

Lemma quiescent_poll_witness :
  ∃ s, run (BP:=dev_profile) true demo_moves (sys_new (owned 100)) = Some s ∧
  ∃ ts s', run (BP:=dev_profile) true (CallPoll :: (StepPoll <$> ts)) s = Some s' ∧ sy_poll s' = None
    ∧ sy_polls s' = sy_polls s ++
        [{| po_from := cc_cursor_abs (sy_cons s); po_to := ab_head (final_ring C100 demo_moves);
            po_result := inl (batch_of (final_ring C100 demo_moves) (cc_cursor_abs (sy_cons s))) |}].
Proof.
  run_ends s Hrun. exists s. split; [exact eq_refl|].
  apply (quiescent_poll (BP:=dev_profile) (owned 100) demo_moves s); [exact I|by_compute|exact Hrun|by at_end (@sy_append OwnedConcurrentStore) Hrun H|].
  assert (H : option_map sy_poll (run (BP:=dev_profile) true demo_moves (sys_new (owned 100))) = Some None)
    by (vm_compute; reflexivity).
  rewrite Hrun in H. by injection H.
Defined.

(** ** Two races

    A poll overtaken by the producer can return an error that [poll] does not
    recover from, even under sequential consistency. *)
Example overtaken_poll_errs :
  schedule_ok 100 overtaken_moves ∧
  (λ s, po_result <$> sy_polls s) <$> run (BP:=dev_profile) true overtaken_moves (sys_new (owned 100))
    = Some [inr (RecordCrossesBoundary 88)].
Proof. split; [by_compute|by vm_compute]. Qed.

(** Under the release/acquire model a poll can pass over a record that was
    reclaimed under it without reporting a lap: here the batch ends past two
    records and holds only the first. *)
Example stale_poll_skips :
  schedule_ok 100 stale_moves ∧
  ∃ s b, run (BP:=dev_profile) false stale_moves (sys_new (owned 100)) = Some s
    ∧ sy_polls s = [{| po_from := 0; po_to := 88; po_result := inl b |}] ∧ rb_lapped b = false
    ∧ length (rb_records b) = 1%nat
    ∧ length (filter (λ e, 0 ≤ en_start e ∧ en_end e ≤ 88) (ab_log (final_ring 100 stale_moves))) = 2%nat.
Proof.
  split; [by_compute|]. run_ends s Hrun.
  assert (H : sy_polls <$> run (BP:=dev_profile) false stale_moves (sys_new (owned 100))
    = Some [{| po_from := 0; po_to := 88; po_result := inl {| rb_records := [en_read {| en_start := 0; en_rec := demo_record 0 |}];
        rb_next_abs := 88; rb_lapped := false |} |}]) by (by vm_compute).
  rewrite Hrun in H. injection H as H. exists s. eexists. split_and!; [exact eq_refl|exact H|done|done|by vm_compute].
Qed.
