(* ===== verification/Shared.v ===== *)
(** * Shared-memory store (crates/open-ot-shm/src/lib.rs)

    The concurrent store in a mapped file: the control block with its sequence
    lock in front, the byte pool behind. Opening and mapping files is the
    operating system's, a parameter; the words of the control block that change
    and the pool are the locations of [Memory]; the rest of the region keeps the
    bytes it had when it was mapped. *)
From stdpp Require Import strings.
From S2P Require Import Prelude Crc Wire Control Layout Ring RingRead Memory Concurrent ConcurrentWriter ConcurrentSolo ConcurrentRead ConcurrentSystem.

#[local] Arguments from_le_bytes : simpl never.
#[local] Arguments to_le_bytes : simpl never.

(** ** Layout *)
(** [value.div_ceil(alignment) * alignment]. *)
Definition align_up (value alignment : usize) : usize :=
  let q := (value / alignment)%nat in
  ((if decide (value mod alignment = 0)%nat then q else q + 1) * alignment)%nat.

Definition DATA_OFFSET : usize := Eval vm_compute in align_up CONTROL_BLOCK_LEN 64.
Definition FILE_MODE : u32 := 384.
Definition CONTROL_SNAPSHOT_RETRIES : usize := 1000.

Inductive FenceMode := Fenced | Unfenced.

#[global] Instance FenceMode_eq_dec : EqDecision FenceMode.
Proof. solve_decision. Defined.

Definition fence_mode_parse (value : string) : res string FenceMode :=
  if decide (value = "fenced"%string) then Ok Fenced
  else if decide (value = "unfenced"%string) then Ok Unfenced
  else Err ("invalid fence mode " +:+ value +:+ "; expected fenced or unfenced")%string.
Definition fence_mode_as_str (m : FenceMode) : string :=
  match m with Fenced => "fenced" | Unfenced => "unfenced" end.

(** An [io::Error]: the ones the crate makes, by kind and message, and the
    system's. *)
Inductive IoError :=
| IoInvalidInput (message : string)
| IoInvalidData (message : string)
| IoSystem (code : Z).

(** The region: its bytes when it was mapped. *)
Record SharedRegion := MkSharedRegion { sr_bytes : bytes; sr_len : usize }.

Record SharedConcurrentStore := MkSharedConcurrentStore {
  ss_region : SharedRegion;
  ss_capacity : usize;
  ss_fence_mode : FenceMode;
  ss_recheck_stall : Z;
}.

Definition with_recheck_stall (s : SharedConcurrentStore) (stall : Z) : SharedConcurrentStore :=
  {| ss_region := ss_region s; ss_capacity := ss_capacity s; ss_fence_mode := ss_fence_mode s;
     ss_recheck_stall := stall |}.

Definition validate_capacity (capacity : usize) : res IoError unit :=
  if decide (capacity = 0)%nat then Err (IoInvalidInput "ring capacity must be non-zero") else Ok tt.

Definition assert_eq (a b : nat) : res IoError unit := if decide (a = b) then Ok tt else Panic.

Definition validate_layout : res IoError unit :=
  _ ← assert_eq CONTROL_BLOCK_LEN 88;
  _ ← assert_eq OFF_SYNC 0;
  _ ← assert_eq OFF_VERSION 4;
  _ ← assert_eq OFF_CAPS 5;
  _ ← assert_eq OFF_RESERVED 6;
  _ ← assert_eq OFF_BUFFER_ID 8;
  _ ← assert_eq OFF_BUFFER_BYTES 12;
  _ ← assert_eq OFF_SEQ_LOCK 16;
  _ ← assert_eq OFF_RESERVED2 20;
  _ ← assert_eq (OFF_HEAD_ABS mod 8) 0;
  _ ← assert_eq (OFF_OLDEST_ABS mod 8) 0;
  _ ← assert_eq (OFF_LOST_COUNT mod 8) 0;
  _ ← assert_eq (OFF_RUN_ID mod 8) 0;
  _ ← assert_eq (OFF_EPOCH_ID mod 8) 0;
  _ ← assert_eq (OFF_EPOCH_FIRST_ABS mod 8) 0;
  _ ← assert_eq OFF_DEFINITION_HASH 72;
  _ ← assert_eq OFF_PREV_DEFINITION_HASH 80;
  assert_eq (DATA_OFFSET mod 64) 0.

(** [checked_add] on a 64-bit [usize]. *)
Definition mapping_len (capacity : usize) : res IoError usize :=
  if decide (Z.of_nat (DATA_OFFSET + capacity) < 2 ^ 64) then Ok (DATA_OFFSET + capacity)%nat
  else Err (IoInvalidInput "mapping length overflow").

(** ** The operating system *)
Class FileSystem (path file : Type) := {
  fs_create : path → u32 → res IoError file;          (* read, write, create, truncate, mode *)
  fs_open : path → res IoError file;
  fs_len : file → res IoError u64;
  fs_set_len : file → u64 → res IoError file;
  fs_map : file → res IoError bytes;
}.

Definition region_map {path file} `{FileSystem path file} (f : file) (len : usize) : res IoError SharedRegion :=
  if decide (len = 0)%nat then Err (IoInvalidInput "cannot mmap zero bytes") else
  mapping ← fs_map f;
  Ok {| sr_bytes := mapping; sr_len := len |}.

(** ** Views of the region

    Outside the mapping a debug build asserts and a release build has undefined
    behaviour; both are [Panic] here. *)
Section views.
Context {BP : BuildProfile} {E : Type}.

Definition in_region (b : bool) : res E unit := if b then Ok tt else Panic.

Definition atomic_u8_at (r : SharedRegion) (offset : usize) : res E usize :=
  _ ← in_region (bool_decide (offset < sr_len r)%nat);
  Ok offset.
Definition atomic_u32 (r : SharedRegion) (offset : usize) : res E usize :=
  _ ← in_region (bool_decide (offset mod 4 = 0)%nat);
  _ ← in_region (bool_decide (offset + 4 ≤ sr_len r)%nat);
  Ok offset.
Definition atomic_u64 (r : SharedRegion) (offset : usize) : res E usize :=
  _ ← in_region (bool_decide (offset mod 8 = 0)%nat);
  _ ← in_region (bool_decide (offset + 8 ≤ sr_len r)%nat);
  Ok offset.
Definition atomic_u8 (s : SharedConcurrentStore) (phys : usize) : res E usize :=
  _ ← in_region (bool_decide (phys < ss_capacity s)%nat);
  atomic_u8_at (ss_region s) (DATA_OFFSET + phys).
End views.

(** ** Creating and opening *)
Section create.
Context {BP : BuildProfile}.

(** Stores to a region that nobody else has mapped yet. *)
Definition put_u8 (offset : usize) (v : u8) (r : SharedRegion) : res IoError SharedRegion :=
  o ← atomic_u8_at r offset;
  bs ← copy_from_slice (sr_bytes r) o [v];
  Ok {| sr_bytes := bs; sr_len := sr_len r |}.
Definition put_u32 (offset : usize) (v : u32) (r : SharedRegion) : res IoError SharedRegion :=
  o ← atomic_u32 r offset;
  bs ← copy_from_slice (sr_bytes r) o (to_le_bytes 4 v);
  Ok {| sr_bytes := bs; sr_len := sr_len r |}.
Definition put_u64 (offset : usize) (v : u64) (r : SharedRegion) : res IoError SharedRegion :=
  o ← atomic_u64 r offset;
  bs ← copy_from_slice (sr_bytes r) o (to_le_bytes 8 v);
  Ok {| sr_bytes := bs; sr_len := sr_len r |}.

Definition initialize_counters (capacity : usize) (r : SharedRegion) : res IoError SharedRegion :=
  r ← for_each (λ offset r, put_u8 offset 0 r) (seq 0 DATA_OFFSET) r;
  r ← for_each (λ '(index, byte) r, put_u8 (OFF_SYNC + index) byte r) (imap pair CONTROL_BLOCK_SYNC) r;
  r ← put_u8 OFF_VERSION 2 r;
  r ← put_u8 OFF_CAPS 0 r;
  r ← put_u32 OFF_BUFFER_ID DEFAULT_BUFFER_ID r;
  r ← put_u32 OFF_BUFFER_BYTES (u32_or_max capacity) r;
  r ← put_u32 OFF_SEQ_LOCK 0 r;
  r ← put_u64 OFF_HEAD_ABS 0 r;
  r ← put_u64 OFF_OLDEST_ABS 0 r;
  r ← put_u64 OFF_LOST_COUNT 0 r;
  r ← put_u64 OFF_RUN_ID 0 r;
  r ← put_u64 OFF_EPOCH_ID 0 r;
  put_u64 OFF_EPOCH_FIRST_ABS 0 r.

Context {path file : Type} {FS : FileSystem path file}.

Definition create_with_mode (p : path) (capacity : usize) (fence_mode : FenceMode) : res IoError SharedConcurrentStore :=
  _ ← validate_capacity capacity;
  _ ← validate_layout;
  len ← mapping_len capacity;
  f ← fs_create p FILE_MODE;
  f ← fs_set_len f (Z.of_nat len);
  region ← region_map f len;
  region ← initialize_counters capacity region;
  Ok {| ss_region := region; ss_capacity := capacity; ss_fence_mode := fence_mode; ss_recheck_stall := 0 |}.

Definition create (p : path) (capacity : usize) : res IoError SharedConcurrentStore :=
  create_with_mode p capacity Fenced.

Definition open_existing_with_mode (p : path) (fence_mode : FenceMode) : res IoError SharedConcurrentStore :=
  _ ← validate_layout;
  f ← fs_open p;
  n ← fs_len f;
  let len := Z.to_nat n in
  if decide (len < DATA_OFFSET)%nat then Err (IoInvalidData "shared mapping shorter than control block") else
  let capacity := (len - DATA_OFFSET)%nat in
  _ ← validate_capacity capacity;
  region ← region_map f len;
  Ok {| ss_region := region; ss_capacity := capacity; ss_fence_mode := fence_mode; ss_recheck_stall := 0 |}.

Definition open_existing (p : path) : res IoError SharedConcurrentStore := open_existing_with_mode p Fenced.
End create.

(** ** The store *)

(** The words of the control block that change once the region is shared. *)
Definition shared_word (offset : usize) : option loc :=
  if decide (offset = OFF_SEQ_LOCK) then Some LSeq
  else if decide (offset = OFF_HEAD_ABS) then Some LHead
  else if decide (offset = OFF_OLDEST_ABS) then Some LOldest
  else if decide (offset = OFF_LOST_COUNT) then Some LLost
  else None.

(** The word a byte of the control block belongs to, and its place in it. *)
Definition shared_byte (offset : usize) : option (loc * nat) :=
  if decide (OFF_SEQ_LOCK ≤ offset < OFF_SEQ_LOCK + 4)%nat then Some (LSeq, (offset - OFF_SEQ_LOCK)%nat)
  else if decide (OFF_HEAD_ABS ≤ offset < OFF_HEAD_ABS + 8)%nat then Some (LHead, (offset - OFF_HEAD_ABS)%nat)
  else if decide (OFF_OLDEST_ABS ≤ offset < OFF_OLDEST_ABS + 8)%nat then Some (LOldest, (offset - OFF_OLDEST_ABS)%nat)
  else if decide (OFF_LOST_COUNT ≤ offset < OFF_LOST_COUNT + 8)%nat then Some (LLost, (offset - OFF_LOST_COUNT)%nat)
  else None.

Section store.
Context {BP : BuildProfile}.

Definition load_word {E} (s : SharedConcurrentStore) (o : ordering) (offset width : usize) : io E Z :=
  match shared_word offset with
  | Some l => Ld o l io_ret
  | None => io_ret (from_le_bytes (seg (sr_bytes (ss_region s)) offset width))
  end.

Definition load_control_u8 {E} (s : SharedConcurrentStore) (offset : usize) : io E u8 :=
  offset ← Done (atomic_u8_at (ss_region s) offset);
  match shared_byte offset with
  | Some (l, i) => Ld Relaxed l (λ v, io_ret (v / 256 ^ Z.of_nat i mod 256))
  | None => io_ret (from_le_bytes (seg (sr_bytes (ss_region s)) offset 1))
  end.
Definition load_u32 {E} (s : SharedConcurrentStore) (o : ordering) (offset : usize) : io E u32 :=
  offset ← Done (atomic_u32 (ss_region s) offset);
  load_word s o offset 4.
Definition load_u64 {E} (s : SharedConcurrentStore) (o : ordering) (offset : usize) : io E u64 :=
  offset ← Done (atomic_u64 (ss_region s) offset);
  load_word s o offset 8.

(** Stores and additions are made at words that change. *)
Definition store_u64 {E} (s : SharedConcurrentStore) (o : ordering) (offset : usize) (l : loc) (v : u64) : io E unit :=
  _ ← Done (atomic_u64 (ss_region s) offset);
  St o l v (io_ret tt).

Definition ss_load_byte_relaxed {E} (s : SharedConcurrentStore) (phys : usize) : io E u8 :=
  offset ← Done (atomic_u8 s phys);
  Ld Relaxed (LByte (offset - DATA_OFFSET)) io_ret.
Definition ss_store_byte_relaxed {E} (s : SharedConcurrentStore) (phys : usize) (value : u8) : io E unit :=
  offset ← Done (atomic_u8 s phys);
  St Relaxed (LByte (offset - DATA_OFFSET)) value (io_ret tt).
Definition ss_load_head_acquire {E} (s : SharedConcurrentStore) : io E u64 := load_u64 s Acquire OFF_HEAD_ABS.
Definition ss_store_head_release {E} (s : SharedConcurrentStore) (value : u64) : io E unit :=
  store_u64 s Release OFF_HEAD_ABS LHead value.
Definition ss_load_oldest_acquire {E} (s : SharedConcurrentStore) : io E u64 := load_u64 s Acquire OFF_OLDEST_ABS.
Definition ss_load_oldest_relaxed {E} (s : SharedConcurrentStore) : io E u64 := load_u64 s Relaxed OFF_OLDEST_ABS.
Definition ss_store_oldest_relaxed {E} (s : SharedConcurrentStore) (value : u64) : io E unit :=
  store_u64 s Relaxed OFF_OLDEST_ABS LOldest value.
Definition ss_fetch_add_lost_release {E} (s : SharedConcurrentStore) (value : u64) : io E unit :=
  _ ← Done (atomic_u64 (ss_region s) OFF_LOST_COUNT);
  FAdd Release LLost value (λ _, io_ret tt).
Definition ss_load_lost_acquire {E} (s : SharedConcurrentStore) : io E u64 := load_u64 s Acquire OFF_LOST_COUNT.

Definition ss_begin_control_update {E} (s : SharedConcurrentStore) : io E unit :=
  _ ← Done (atomic_u32 (ss_region s) OFF_SEQ_LOCK);
  FAdd Relaxed LSeq 1 (λ previous,
    _ ← Done (debug_assert (Z.even previous));
    Fnc Release (io_ret tt)).
Definition ss_end_control_update_release {E} (s : SharedConcurrentStore) : io E unit :=
  _ ← Done (atomic_u32 (ss_region s) OFF_SEQ_LOCK);
  FAdd Release LSeq 1 (λ previous, Done (debug_assert (negb (Z.even previous)))).

(** [copy_from_slice] into the image read so far. *)
Definition read_u32_bytes {E} (s : SharedConcurrentStore) (offset : usize) (bs : bytes) : io E bytes :=
  v ← load_u32 s Relaxed offset;
  Done (copy_from_slice bs offset (to_le_bytes 4 v)).
Definition read_u64_bytes {E} (s : SharedConcurrentStore) (offset : usize) (bs : bytes) : io E bytes :=
  v ← load_u64 s Relaxed offset;
  Done (copy_from_slice bs offset (to_le_bytes 8 v)).

(** The [iter_mut] loop: one byte after the other. *)
Fixpoint read_control_bytes {E} (s : SharedConcurrentStore) (offset n : usize) : io E bytes :=
  match n with
  | O => io_ret []
  | S n =>
      byte ← load_control_u8 s offset;
      bs ← read_control_bytes s (offset + 1) n;
      io_ret (byte :: bs)
  end.

Definition read_control_image {E} (s : SharedConcurrentStore) (seq_lock : u32) : io E bytes :=
  bs ← read_control_bytes s 0 CONTROL_BLOCK_LEN;
  bs ← Done (copy_from_slice bs OFF_SEQ_LOCK (to_le_bytes 4 seq_lock));
  bs ← read_u32_bytes s OFF_BUFFER_ID bs;
  bs ← read_u32_bytes s OFF_BUFFER_BYTES bs;
  bs ← read_u64_bytes s OFF_HEAD_ABS bs;
  bs ← read_u64_bytes s OFF_OLDEST_ABS bs;
  bs ← read_u64_bytes s OFF_LOST_COUNT bs;
  bs ← read_u64_bytes s OFF_RUN_ID bs;
  bs ← read_u64_bytes s OFF_EPOCH_ID bs;
  read_u64_bytes s OFF_EPOCH_FIRST_ABS bs.

(** [for _ in 0..retries]. *)
Fixpoint snapshot_loop (retries : usize) (s : SharedConcurrentStore) (last_error : ControlBlockError)
  : io ControlBlockError ControlBlockSnapshot :=
  match retries with
  | O => Done (Err last_error)
  | S retries =>
      first ← load_u32 s Acquire OFF_SEQ_LOCK;
      if negb (Z.even first) then snapshot_loop retries s (CbUpdating first) else
      bs ← read_control_image s first;
      second ← load_u32 s Acquire OFF_SEQ_LOCK;
      match decode_with_locks bs first second with
      | Err (CbUpdating _ as error) | Err (CbStaleSnapshot _ _ as error) => snapshot_loop retries s error
      | result => Done result
      end
  end.

Definition ss_read_control_snapshot (s : SharedConcurrentStore) : io ControlBlockError ControlBlockSnapshot :=
  snapshot_loop CONTROL_SNAPSHOT_RETRIES s (CbUpdating 1).

Definition ss_release_before_clobber {E} (s : SharedConcurrentStore) : io E unit :=
  if decide (ss_fence_mode s = Fenced) then Fnc Release (io_ret tt) else io_ret tt.

(** The stall sleeps and accesses nothing. *)
Definition ss_acquire_before_recheck {E} (s : SharedConcurrentStore) : io E unit :=
  if decide (ss_fence_mode s = Fenced) then Fnc Acquire (io_ret tt) else io_ret tt.

#[global] Instance shared_store : ConcurrentStore SharedConcurrentStore := {|
  cs_capacity := ss_capacity;
  load_byte_relaxed := @ss_load_byte_relaxed;
  store_byte_relaxed := @ss_store_byte_relaxed;
  load_head_acquire := @ss_load_head_acquire;
  store_head_release := @ss_store_head_release;
  load_oldest_acquire := @ss_load_oldest_acquire;
  load_oldest_relaxed := @ss_load_oldest_relaxed;
  store_oldest_relaxed := @ss_store_oldest_relaxed;
  fetch_add_lost_release := @ss_fetch_add_lost_release;
  load_lost_acquire := @ss_load_lost_acquire;
  begin_control_update := @ss_begin_control_update;
  end_control_update_release := @ss_end_control_update_release;
  read_control_snapshot := ss_read_control_snapshot;
  read_oldest_after_record := λ s, ss_load_oldest_relaxed s;
  release_before_clobber := @ss_release_before_clobber;
  acquire_before_recheck := @ss_acquire_before_recheck;
|}.
End store.

(** ** The publisher *)
Section publisher.
Context {BP : BuildProfile}.

Record SharedRecordPublisher := MkSharedRecordPublisher { sp_producer : ConcurrentProducer SharedConcurrentStore }.

Definition with_store (store : SharedConcurrentStore) : SharedRecordPublisher :=
  {| sp_producer := cp_with_store store |}.

(** [?] keeps the publisher and gives its new state. *)
Definition append_record (p : SharedRecordPublisher) (record : WireRecord) : io RingError SharedRecordPublisher :=
  producer ← cp_write_record (sp_producer p) record;
  io_ret {| sp_producer := producer |}.
Definition publisher_append_encoded (p : SharedRecordPublisher) (bs : bytes) : io RingError SharedRecordPublisher :=
  producer ← append_encoded (sp_producer p) bs;
  io_ret {| sp_producer := producer |}.

Definition publisher_head_abs {E} (p : SharedRecordPublisher) : io E u64 := load_head_acquire (cp_store (sp_producer p)).
Definition publisher_oldest_abs {E} (p : SharedRecordPublisher) : io E u64 := load_oldest_acquire (cp_store (sp_producer p)).
Definition publisher_lost_count {E} (p : SharedRecordPublisher) : io E u64 := load_lost_acquire (cp_store (sp_producer p)).

Context {path file : Type} {FS : FileSystem path file}.
Definition publisher_create_with_mode (p : path) (capacity : usize) (fence_mode : FenceMode) : res IoError SharedRecordPublisher :=
  store ← create_with_mode p capacity fence_mode;
  Ok (with_store store).
Definition publisher_create (p : path) (capacity : usize) : res IoError SharedRecordPublisher :=
  publisher_create_with_mode p capacity Fenced.
Definition publisher_open_existing_with_mode (p : path) (fence_mode : FenceMode) : res IoError SharedRecordPublisher :=
  store ← open_existing_with_mode p fence_mode;
  Ok (with_store store).
Definition publisher_open_existing (p : path) : res IoError SharedRecordPublisher :=
  publisher_open_existing_with_mode p Fenced.
End publisher.

(** ** A store in good order

    Fenced, mapped over the whole file, with the header [initialize_counters]
    writes. *)
Definition header_snapshot (capacity : usize) (head oldest lost : u64) : ControlBlockSnapshot :=
  {| cb_version := 2; cb_caps := 0; cb_buffer_id := DEFAULT_BUFFER_ID; cb_buffer_bytes := u32_or_max capacity;
     cb_head_abs := head; cb_oldest_abs := oldest; cb_lost_count := lost; cb_run_id := 0; cb_epoch_id := 0;
     cb_epoch_first_abs := 0; cb_definition_hash := replicate 8 0; cb_prev_definition_hash := replicate 8 0 |}.

(** The header as [initialize_counters] leaves it, with the words that change at
    any value they had when the file was mapped. *)
Definition header_ok (capacity : usize) (bs : bytes) : Prop :=
  ∃ head oldest lost lock, (is_u64 head ∧ is_u64 oldest ∧ is_u64 lost ∧ is_u32 lock)
    ∧ take CONTROL_BLOCK_LEN bs = cb_image (header_snapshot capacity head oldest lost) lock.

Record good_store (s : SharedConcurrentStore) : Prop := {
  gs_fenced : ss_fence_mode s = Fenced;
  gs_len : sr_len (ss_region s) = (DATA_OFFSET + ss_capacity s)%nat;
  gs_header : header_ok (ss_capacity s) (sr_bytes (ss_region s));
}.

Definition shared_sequenced : Sequenced := true.
#[local] Existing Instance shared_sequenced.

Section laws.
Context {BP : BuildProfile} (s : SharedConcurrentStore) (Hs : good_store s).

Lemma atomic_u8_ok {E} p : (p < ss_capacity s)%nat → atomic_u8 (E:=E) s p = Ok (DATA_OFFSET + p)%nat.
Proof.
  intros Hp. unfold atomic_u8, atomic_u8_at, in_region. rewrite (gs_len _ Hs), !bool_decide_true by lia. done.
Qed.
Lemma atomic_u8_at_ok {E} o : (o < DATA_OFFSET)%nat → atomic_u8_at (E:=E) (ss_region s) o = Ok o.
Proof. intros Ho. unfold atomic_u8_at, in_region. by rewrite (gs_len _ Hs), bool_decide_true by lia. Qed.
Lemma atomic_u32_ok {E} o : (o mod 4 = 0)%nat → (o + 4 ≤ DATA_OFFSET)%nat → atomic_u32 (E:=E) (ss_region s) o = Ok o.
Proof. intros Hm Ho. unfold atomic_u32, in_region. by rewrite (gs_len _ Hs), !bool_decide_true by lia. Qed.
Lemma atomic_u64_ok {E} o : (o mod 8 = 0)%nat → (o + 8 ≤ DATA_OFFSET)%nat → atomic_u64 (E:=E) (ss_region s) o = Ok o.
Proof. intros Hm Ho. unfold atomic_u64, in_region. by rewrite (gs_len _ Hs), !bool_decide_true by lia. Qed.
End laws.

#[global] Instance shared_laws {BP : BuildProfile} : StoreLaws SharedConcurrentStore (SQ := shared_sequenced).
Proof.
  refine {| lawful := good_store |}; intros *; intros Hs; try intros Hp;
    cbn [load_byte_relaxed store_byte_relaxed store_head_release load_oldest_acquire store_oldest_relaxed
         fetch_add_lost_release begin_control_update end_control_update_release release_before_clobber
         acquire_before_recheck read_oldest_after_record shared_store cs_capacity] in *.
  - unfold ss_load_byte_relaxed. rewrite atomic_u8_ok by done. cbn [mbind io_bind io_match]. by rewrite Nat.add_comm, Nat.add_sub.
  - unfold ss_store_byte_relaxed. rewrite atomic_u8_ok by done. cbn [mbind io_bind io_match]. by rewrite Nat.add_comm, Nat.add_sub.
  - unfold ss_store_head_release, store_u64. by rewrite atomic_u64_ok by (done || by_compute).
  - unfold ss_load_oldest_acquire, load_u64. by rewrite atomic_u64_ok by (done || by_compute).
  - unfold ss_store_oldest_relaxed, store_u64. by rewrite atomic_u64_ok by (done || by_compute).
  - unfold ss_fetch_add_lost_release. by rewrite atomic_u64_ok by (done || by_compute).
  - unfold ss_begin_control_update. rewrite atomic_u32_ok by (done || by_compute).
    eexists. split; [reflexivity|]. intros prev Hprev. cbv beta. rewrite debug_assert_ok by done. eexists. split; reflexivity.
  - unfold ss_end_control_update_release. rewrite atomic_u32_ok by (done || by_compute).
    eexists. split; [reflexivity|]. intros prev Hprev. cbv beta. rewrite debug_assert_ok by (by rewrite Z.negb_even). reflexivity.
  - unfold ss_release_before_clobber. by rewrite decide_True by apply Hs.
  - unfold ss_acquire_before_recheck. by rewrite decide_True by apply Hs.
  - unfold ss_load_oldest_relaxed, load_u64. by rewrite atomic_u64_ok by (done || by_compute).
Defined.

(** ** The control image *)

(** What memory shows of the control block. *)
Definition shown (s : SharedConcurrentStore) (mem : list msg) : ControlBlockSnapshot :=
  header_snapshot (ss_capacity s) (cur mem LHead) (cur mem LOldest) (cur mem LLost).

Definition words_fit (mem : list msg) : Prop :=
  is_u64 (cur mem LHead) ∧ is_u64 (cur mem LOldest) ∧ is_u64 (cur mem LLost) ∧ is_u32 (cur mem LSeq).

Section image.
Context {BP : BuildProfile} (s : SharedConcurrentStore) (Hs : good_store s) (mem : list msg).
Abbreviation region := (sr_bytes (ss_region s)).

Lemma header_wf capacity head oldest lost :
  is_u64 head → is_u64 oldest → is_u64 lost → snapshot_wf (header_snapshot capacity head oldest lost).
Proof.
  intros Hh Ho Hl. assert (is_u32 (u32_or_max capacity)) by (unfold u32_or_max, fits; case_decide; lia).
  unfold snapshot_wf, hash_wf. cbn [header_snapshot cb_version cb_caps cb_buffer_id cb_buffer_bytes cb_head_abs
    cb_oldest_abs cb_lost_count cb_run_id cb_epoch_id cb_epoch_first_abs cb_definition_hash cb_prev_definition_hash].
  split_and!; first [assumption|by_compute].
Qed.

Lemma region_fields :
  seg region 0 4 = CONTROL_BLOCK_SYNC ∧ seg region 6 2 = [0; 0] ∧ seg region 20 4 = [0; 0; 0; 0]
  ∧ (88 ≤ length region)%nat ∧ ∃ head oldest lost, cb_at region = header_snapshot (ss_capacity s) head oldest lost.
Proof.
  destruct (gs_header _ Hs) as (head & oldest & lost & lock & (H1 & H2 & H3 & Hlk) & Hh). unfold CONTROL_BLOCK_LEN in Hh.
  pose proof (header_wf (ss_capacity s) head oldest lost H1 H2 H3) as Hwf.
  destruct (cb_image_fields _ lock (drop 88 region) Hwf Hlk) as (H0 & _ & H6 & H20 & Hat).
  rewrite <-Hh, take_drop in *. pose proof (length_cb_image _ lock Hwf) as Hl. rewrite <-Hh, length_take in Hl.
  split_and!; try done; [lia|]. by exists head, oldest, lost.
Qed.

(** A byte of the control block as [load_control_u8] sees it. *)
Definition control_byte (offset : nat) : u8 :=
  match shared_byte offset with
  | Some (l, i) => cur mem l / 256 ^ Z.of_nat i mod 256
  | None => from_le_bytes (seg region offset 1)
  end.

Lemma solo_control_bytes {E} n : ∀ o, (o + n ≤ DATA_OFFSET)%nat →
  solo (E:=E) mem (read_control_bytes s o n) = Ok (control_byte <$> seq o n).
Proof.
  induction n as [|n IH]; intros o Ho; [done|]. cbn [read_control_bytes seq]. rewrite fmap_cons, solo_bind.
  assert (Hb : solo (E:=E) mem (load_control_u8 s o) = Ok (control_byte o)).
  { unfold load_control_u8, control_byte. rewrite atomic_u8_at_ok by (done || lia). cbn [mbind io_bind io_match].
    by destruct (shared_byte o) as [[l i]|]. }
  rewrite Hb, ok_bind, solo_bind, Nat.add_1_r, IH by lia. done.
Qed.

Lemma control_bytes_seg n : ∀ o, (o + n ≤ length region)%nat → (∀ k, (o ≤ k < o + n)%nat → shared_byte k = None) →
  control_byte <$> seq o n = seg region o n.
Proof.
  induction n as [|n IH]; intros o Ho Hk; [done|]. cbn [seq]. rewrite fmap_cons, IH; [|lia|intros; apply Hk; lia].
  destruct (lookup_lt_is_Some_2 region o) as [b Hb]; [lia|]. rewrite (seg_S _ _ _ _ Hb). f_equal.
  unfold control_byte. rewrite Hk by lia. rewrite (seg_S _ _ 0 _ Hb).
  change (from_le_bytes (b :: seg region (S o) 0)) with (b + 256 * 0). lia.
Qed.

Lemma constant_seg o n :
  (o + n ≤ 88)%nat → (∀ k, (o ≤ k < o + n)%nat → shared_byte k = None) →
  seg (control_byte <$> seq 0 88) o n = seg region o n.
Proof.
  intros Ho Hk. destruct region_fields as (_ & _ & _ & Hl & _). rewrite <-control_bytes_seg by (done || lia).
  unfold seg. rewrite <-!fmap_drop, <-fmap_take. rewrite drop_seq, take_seq. f_equal. by replace (n `min` (88 - o))%nat with n by lia.
Qed.

(** Words copied into the image. *)
Definition patch (bs : bytes) (p : nat * bytes) : bytes := splice bs p.1 p.2.
Definition patch_ok (p : nat * bytes) : Prop := (p.1 + length p.2 ≤ 88)%nat.

Lemma length_patches ps : ∀ bs, length bs = 88%nat → Forall patch_ok ps → length (foldl patch bs ps) = 88%nat.
Proof.
  induction ps as [|p ps IH]; intros bs Hl Hp; [done|]. apply Forall_cons_1 in Hp as [Hp Hps]. unfold patch_ok in Hp.
  apply IH; [|done]. unfold patch. by rewrite length_splice by lia.
Qed.

(** A field no patch touches, and one that only the first does. *)
Lemma seg_patches ps o n : ∀ bs, length bs = 88%nat →
  Forall (λ p, patch_ok p ∧ (o + n ≤ p.1 ∨ p.1 + length p.2 ≤ o)%nat) ps → seg (foldl patch bs ps) o n = seg bs o n.
Proof.
  induction ps as [|p ps IH]; intros bs Hl Hp; [done|]. apply Forall_cons_1 in Hp as [[Hp Hd] Hps]. unfold patch_ok in Hp.
  cbn [foldl]. rewrite IH; [|unfold patch; by rewrite length_splice by lia|done]. unfold patch. apply seg_splice_disjoint; lia.
Qed.
Lemma seg_patched ps o w bs n :
  n = length w → length bs = 88%nat → (o + n ≤ 88)%nat →
  Forall (λ p, patch_ok p ∧ (o + n ≤ p.1 ∨ p.1 + length p.2 ≤ o)%nat) ps →
  seg (foldl patch bs ((o, w) :: ps)) o n = w.
Proof.
  intros -> Hl Ho Hp. cbn [foldl]. rewrite seg_patches; [|unfold patch; cbn [fst snd]; by rewrite length_splice by lia|done].
  unfold patch. cbn [fst snd]. by apply seg_splice_same; lia.
Qed.

(** The image read from memory that does not change. *)
Definition patches (lock : u32) : list (nat * bytes) :=
  [(OFF_SEQ_LOCK, to_le_bytes 4 lock); (OFF_BUFFER_ID, to_le_bytes 4 DEFAULT_BUFFER_ID);
   (OFF_BUFFER_BYTES, to_le_bytes 4 (u32_or_max (ss_capacity s))); (OFF_HEAD_ABS, to_le_bytes 8 (cur mem LHead));
   (OFF_OLDEST_ABS, to_le_bytes 8 (cur mem LOldest)); (OFF_LOST_COUNT, to_le_bytes 8 (cur mem LLost));
   (OFF_RUN_ID, to_le_bytes 8 0); (OFF_EPOCH_ID, to_le_bytes 8 0); (OFF_EPOCH_FIRST_ABS, to_le_bytes 8 0)].
Definition read_image (lock : u32) : bytes := foldl patch (control_byte <$> seq 0 88) (patches lock).

Lemma solo_u32_bytes {E} o v bs :
  (o mod 4 = 0)%nat → (o + 4 ≤ DATA_OFFSET)%nat →
  match shared_word o with Some l => cur mem l | None => from_le_bytes (seg region o 4) end = v →
  solo (E:=E) mem (read_u32_bytes s o bs) = copy_from_slice bs o (to_le_bytes 4 v).
Proof.
  intros Hm Ho <-. unfold read_u32_bytes, load_u32. rewrite atomic_u32_ok by done. cbn [mbind io_bind io_match].
  unfold load_word. by destruct (shared_word o).
Qed.
Lemma solo_u64_bytes {E} o v bs :
  (o mod 8 = 0)%nat → (o + 8 ≤ DATA_OFFSET)%nat →
  match shared_word o with Some l => cur mem l | None => from_le_bytes (seg region o 8) end = v →
  solo (E:=E) mem (read_u64_bytes s o bs) = copy_from_slice bs o (to_le_bytes 8 v).
Proof.
  intros Hm Ho <-. unfold read_u64_bytes, load_u64. rewrite atomic_u64_ok by done. cbn [mbind io_bind io_match].
  unfold load_word. by destruct (shared_word o).
Qed.

(** One word: read, copied in, 88 bytes as before. *)
Ltac copy_in b o w Hl :=
  rewrite (copy_from_slice_ok b o w) by (rewrite length_to_le_bytes, Hl; by_compute);
  rewrite ?ok_bind;
  let Hl' := fresh "Hl" in
  assert (Hl' : length (splice b o w) = 88%nat)
    by (rewrite length_splice; [exact Hl|rewrite length_to_le_bytes, Hl; by_compute]).
Ltac copy_word lem o v :=
  rewrite ?solo_bind, (lem _ o v) by first [assumption|reflexivity|by_compute];
  match goal with Hl : length ?b = 88%nat |- context [copy_from_slice ?b o ?w] => copy_in b o w Hl end.

Lemma solo_control_image {E} lock : solo (E:=E) mem (read_control_image s lock) = Ok (read_image lock).
Proof.
  destruct region_fields as (_ & _ & _ & _ & hd & od & lo & Hat).
  assert (Hid : from_le_bytes (seg region 8 4) = DEFAULT_BUFFER_ID) by (by injection Hat).
  assert (Hbb : from_le_bytes (seg region 12 4) = u32_or_max (ss_capacity s)) by (by injection Hat).
  assert (Hrun : from_le_bytes (seg region 48 8) = 0) by (by injection Hat).
  assert (Hep : from_le_bytes (seg region 56 8) = 0) by (by injection Hat).
  assert (Hfi : from_le_bytes (seg region 64 8) = 0) by (by injection Hat).
  unfold read_control_image, read_image. rewrite solo_bind, solo_control_bytes, ok_bind by by_compute.
  change CONTROL_BLOCK_LEN with 88%nat. set (b0 := control_byte <$> seq 0 88).
  assert (Hl : length b0 = 88%nat) by (unfold b0; by rewrite length_fmap, length_seq).
  rewrite solo_bind. cbn [solo]. copy_in b0 OFF_SEQ_LOCK (to_le_bytes 4 lock) Hl.
  copy_word @solo_u32_bytes OFF_BUFFER_ID DEFAULT_BUFFER_ID.
  copy_word @solo_u32_bytes OFF_BUFFER_BYTES (u32_or_max (ss_capacity s)).
  copy_word @solo_u64_bytes OFF_HEAD_ABS (cur mem LHead).
  copy_word @solo_u64_bytes OFF_OLDEST_ABS (cur mem LOldest).
  copy_word @solo_u64_bytes OFF_LOST_COUNT (cur mem LLost).
  copy_word @solo_u64_bytes OFF_RUN_ID 0.
  copy_word @solo_u64_bytes OFF_EPOCH_ID 0.
  copy_word @solo_u64_bytes OFF_EPOCH_FIRST_ABS 0.
  reflexivity.
Qed.

Ltac all_apart :=
  cbn [drop patches]; unfold patches, patch_ok; rewrite ?Forall_cons, ?Forall_nil; cbn [fst snd];
  rewrite ?length_to_le_bytes; split_and!; off_lia.

Lemma patches_ok lock : Forall patch_ok (patches lock).
Proof. all_apart. Qed.

Lemma length_read_image lock : length (read_image lock) = 88%nat.
Proof.
  apply length_patches; [by rewrite length_fmap, length_seq|]. apply patches_ok.
Qed.

(** A field of the image: patched by the [k]-th word, or constant. *)
Lemma image_word lock k o w n :
  patches lock !! k = Some (o, w) → n = length w →
  Forall (λ p, patch_ok p ∧ (o + n ≤ p.1 ∨ p.1 + length p.2 ≤ o)%nat) (drop (S k) (patches lock)) →
  (o + n ≤ 88)%nat → seg (read_image lock) o n = w.
Proof.
  intros Hk Hn Hd Ho. unfold read_image. rewrite <-(take_drop_middle _ _ _ Hk), foldl_app.
  apply seg_patched; [done| |done|done]. apply length_patches; [by rewrite length_fmap, length_seq|].
  apply Forall_take, patches_ok.
Qed.

Lemma image_constant lock o n :
  (o + n ≤ 88)%nat → (∀ k, (o ≤ k < o + n)%nat → shared_byte k = None) →
  Forall (λ p, patch_ok p ∧ (o + n ≤ p.1 ∨ p.1 + length p.2 ≤ o)%nat) (patches lock) →
  seg (read_image lock) o n = seg region o n.
Proof.
  intros Ho Hk Hp. unfold read_image. rewrite seg_patches; [|by rewrite length_fmap, length_seq|done]. by apply constant_seg.
Qed.

Ltac constant_field :=
  apply image_constant; [lia| |all_apart];
  let k := fresh in let Hk := fresh in intros k Hk; unfold shared_byte; rewrite !decide_False by off_lia; reflexivity.

Ltac word_field lock k o n v :=
  rewrite (image_word lock k o (to_le_bytes n v) n); [|done|by rewrite length_to_le_bytes|all_apart|lia].

Lemma read_image_fields lock :
  words_fit mem → is_u32 lock →
  seg (read_image lock) 0 4 = CONTROL_BLOCK_SYNC ∧ from_le_bytes (seg (read_image lock) 16 4) = lock
  ∧ seg (read_image lock) 6 2 = [0; 0] ∧ seg (read_image lock) 20 4 = [0; 0; 0; 0] ∧ cb_at (read_image lock) = shown s mem.
Proof.
  intros (Hh & Ho & Hc & _) Hlock. destruct region_fields as (F0 & F6 & F20 & _ & hd & od & lo & Hat).
  pose proof (f_equal cb_version Hat) as Fv. pose proof (f_equal cb_caps Hat) as Fc.
  pose proof (f_equal cb_definition_hash Hat) as Fd. pose proof (f_equal cb_prev_definition_hash Hat) as Fp.
  cbn [cb_at header_snapshot cb_version cb_caps cb_definition_hash cb_prev_definition_hash] in Fv, Fc, Fd, Fp.
  assert (Hbb : is_u32 (u32_or_max (ss_capacity s))) by (unfold u32_or_max, fits; case_decide; lia).
  split_and!; [rewrite <-F0; constant_field| |rewrite <-F6; constant_field|rewrite <-F20; constant_field|].
  - word_field lock 0%nat 16%nat 4%nat lock. by apply (from_to_le_bytes 4).
  - unfold cb_at, shown, header_snapshot. f_equal.
    + rewrite <-Fv. f_equal. constant_field.
    + rewrite <-Fc. f_equal. constant_field.
    + word_field lock 2%nat 12%nat 4%nat (u32_or_max (ss_capacity s)). by apply (from_to_le_bytes 4).
    + word_field lock 3%nat 24%nat 8%nat (cur mem LHead). by apply (from_to_le_bytes 8).
    + word_field lock 4%nat 32%nat 8%nat (cur mem LOldest). by apply (from_to_le_bytes 8).
    + word_field lock 5%nat 40%nat 8%nat (cur mem LLost). by apply (from_to_le_bytes 8).
    + rewrite <-Fd. constant_field.
    + rewrite <-Fp. constant_field.
Qed.

(** What the image decodes to under the locks read around it. *)
Lemma decode_read_image first second :
  words_fit mem → is_u32 first → Z.even first = true →
  decode_with_locks (read_image first) first second =
    if decide (first ≠ second) then Err (CbStaleSnapshot first second) else Ok (shown s mem).
Proof.
  intros Hw Hf He. destruct (read_image_fields first Hw Hf) as (F0 & F16 & F6 & F20 & Hat).
  rewrite decode_with_locks_eq by (by rewrite length_read_image). rewrite F0, F16, F6, F20, Hat, He.
  case_decide as H; [done|]. cbn [negb]. case_decide; [done|]. by rewrite !decide_False by tauto.
Qed.

(** Undisturbed, the first try succeeds. *)
Lemma solo_snapshot retries e :
  words_fit mem → Z.even (cur mem LSeq) = true → (0 < retries)%nat →
  solo mem (snapshot_loop retries s e) = Ok (shown s mem).
Proof.
  intros Hw He Hr. destruct retries as [|retries]; [lia|]. cbn [snapshot_loop].
  assert (Hlock : ∀ E, solo (E:=E) mem (load_u32 s Acquire OFF_SEQ_LOCK) = Ok (cur mem LSeq)).
  { intros E. unfold load_u32. by rewrite atomic_u32_ok by (done || by_compute). }
  rewrite solo_bind, Hlock, ok_bind, He. cbn [negb]. rewrite solo_bind, solo_control_image, ok_bind, solo_bind, Hlock, ok_bind.
  rewrite decode_read_image, decide_False by (tauto || apply Hw). done.
Qed.
End image.

#[global] Instance shared_quiet {BP : BuildProfile} : QuietSnapshot SharedConcurrentStore (SQ := shared_sequenced).
Proof.
  intros s mem r Hs Him (Hh & Ho & Hl). cbn [cs_capacity shared_store] in *. destruct (im_lock _ _ _ Him) as [He Hb].
  exists (shown s mem). split_and!; [|done|by rewrite <-(im_head _ _ _ Him)|by rewrite <-(im_oldest _ _ _ Him)].
  apply solo_snapshot; [done| |done|by_compute].
  unfold words_fit. rewrite (im_head _ _ _ Him), (im_oldest _ _ _ Him), (im_lost _ _ _ Him). done.
Qed.
