(* ===== verification/SharedRead.v ===== *)
(** * Shared memory: creation and concurrent snapshots (crates/open-ot-shm/src/lib.rs)

    A created store is in good order; under sequential consistency a snapshot of
    the control block is one moment between two appends, which makes the store
    one the consumer of [ConcurrentRead] can be run against; under
    release/acquire it is not. *)
From stdpp Require Import strings.
From S2P Require Import Prelude Crc Wire Control Layout Ring RingRead Memory Concurrent ConcurrentWriter ConcurrentSolo ConcurrentRead ConcurrentSystem Shared.

#[local] Arguments from_le_bytes : simpl never.
#[local] Arguments to_le_bytes : simpl never.
#[local] Existing Instance shared_sequenced.

(** ** Snapshots while the producer runs, under sequential consistency *)

(** Programs that only load, and return a value [P] holds of whatever they read. *)
Fixpoint yields {E A} (P : A → Prop) (p : io E A) : Prop :=
  match p with
  | Done (Ok a) => P a
  | Ld _ _ k => ∀ v, yields P (k v)
  | Fnc _ k => yields P k
  | Done _ | St _ _ _ _ | FAdd _ _ _ _ => False
  end.

Lemma yields_bind {E A B} (P : A → Prop) (Q : B → Prop) (p : io E A) (f : A → io E B) :
  yields P p → (∀ a, P a → yields Q (f a)) → yields Q (p ≫= f).
Proof.
  intros Hp Hf. induction p as [[| | |]|o l k IH| | |o k IH]; cbn in Hp |- *; try done; [by apply Hf| |by apply IH].
  intros v. apply IH, Hp.
Qed.

Section image_reads.
Context {BP : BuildProfile} (s : SharedConcurrentStore) (Hs : good_store s).
Abbreviation region := (sr_bytes (ss_region s)).

Lemma yields_word {E} o offset width : yields (λ _, True) (load_word (E:=E) s o offset width).
Proof. unfold load_word. by destruct (shared_word offset). Qed.
Lemma yields_u32 {E} o offset : (offset mod 4 = 0)%nat → (offset + 4 ≤ DATA_OFFSET)%nat →
  yields (λ _, True) (load_u32 (E:=E) s o offset).
Proof. intros. unfold load_u32. rewrite atomic_u32_ok by done. apply yields_word. Qed.
Lemma yields_u64 {E} o offset : (offset mod 8 = 0)%nat → (offset + 8 ≤ DATA_OFFSET)%nat →
  yields (λ _, True) (load_u64 (E:=E) s o offset).
Proof. intros. unfold load_u64. rewrite atomic_u64_ok by done. apply yields_word. Qed.

Lemma yields_control_bytes {E} n : ∀ o, (o + n ≤ 88)%nat →
  yields (λ bs, length bs = n ∧ ∀ i, (i < n)%nat → shared_byte (o + i) = None → bs !! i = region !! (o + i)%nat)
    (read_control_bytes (E:=E) s o n).
Proof.
  destruct (region_fields s Hs) as (_ & _ & _ & Hlen & _).
  induction n as [|n IH]; intros o Ho; [split; [done|lia]|]. cbn [read_control_bytes].
  eapply yields_bind with (P := λ b, shared_byte o = None → region !! o = Some b).
  - unfold load_control_u8. rewrite atomic_u8_at_ok by (done || (change DATA_OFFSET with 128%nat; lia)). cbn [mbind io_bind io_match].
    destruct (shared_byte o) as [[l i]|]; [done|]. cbn [yields io_ret]. intros _.
    destruct (lookup_lt_is_Some_2 region o) as [b Hb]; [lia|]. rewrite (seg_S _ _ 0 _ Hb), Hb.
    change (from_le_bytes (b :: seg region (S o) 0)) with (b + 256 * 0). f_equal. lia.
  - intros b Hb. eapply yields_bind; [apply IH; lia|]. intros bs [Hl Hbs]. cbn [yields io_ret length]. split; [by f_equal|].
    intros [|i] Hi; rewrite ?Nat.add_0_r, ?Nat.add_succ_r; cbn [lookup list_lookup]; [intros; symmetry; by apply Hb|]. replace (Datatypes.S (o + i)) with (o + 1 + i)%nat by lia. apply Hbs. lia.
Qed.

(** 88 bytes with the sync word in front. *)
Definition synced (bs : bytes) : Prop := length bs = 88%nat ∧ seg bs 0 4 = CONTROL_BLOCK_SYNC.

Lemma synced_copy {E} bs o w : synced bs → (4 ≤ o)%nat → (o + length w ≤ 88)%nat →
  yields synced (Done (copy_from_slice (E:=E) bs o w)).
Proof.
  intros [Hl Hsy] Ho Hw. rewrite copy_from_slice_ok by lia. cbn [yields].
  split; [by rewrite length_splice by lia|]. rewrite seg_splice_disjoint by lia. done.
Qed.
Lemma synced_u32 {E} bs o : synced bs → (o mod 4 = 0)%nat → (4 ≤ o)%nat → (o + 4 ≤ 88)%nat →
  yields synced (read_u32_bytes (E:=E) s o bs).
Proof.
  intros Hb Hm Ho Hw. eapply yields_bind; [apply yields_u32; [done|change DATA_OFFSET with 128%nat; lia]|].
  intros v _. apply synced_copy; [done|done|by rewrite length_to_le_bytes].
Qed.
Lemma synced_u64 {E} bs o : synced bs → (o mod 8 = 0)%nat → (4 ≤ o)%nat → (o + 8 ≤ 88)%nat →
  yields synced (read_u64_bytes (E:=E) s o bs).
Proof.
  intros Hb Hm Ho Hw. eapply yields_bind; [apply yields_u64; [done|change DATA_OFFSET with 128%nat; lia]|].
  intros v _. apply synced_copy; [done|done|by rewrite length_to_le_bytes].
Qed.

Lemma yields_control_image {E} lock : yields synced (read_control_image (E:=E) s lock).
Proof.
  destruct (region_fields s Hs) as (Hsy & _ & _ & Hlen & _).
  unfold read_control_image. eapply yields_bind; [by apply yields_control_bytes|]. intros bs [Hl Hbs].
  change CONTROL_BLOCK_LEN with 88%nat in Hl.
  assert (Hb : synced bs).
  { split; [done|]. rewrite <-Hsy. apply list_eq. intros i. destruct (decide (i < 4)%nat) as [Hi|Hi].
    - rewrite !lookup_seg by done. apply Hbs; [off_lia|]. unfold shared_byte. by rewrite !decide_False by off_lia.
    - rewrite !lookup_ge_None_2 by (rewrite length_seg; lia). done. }
  clear Hbs Hl. eapply yields_bind; [apply synced_copy; [done|off_lia|rewrite length_to_le_bytes; off_lia]|].
  clear bs Hb. do 2 (intros bs Hb; eapply yields_bind; [apply synced_u32; [done|by_compute|off_lia|off_lia]|clear bs Hb]).
  do 5 (intros bs Hb; eapply yields_bind; [apply synced_u64; [done|by_compute|off_lia|off_lia]|clear bs Hb]).
  intros bs Hb. apply synced_u64; [done|by_compute|off_lia|off_lia].
Qed.
End image_reads.

Section snapshots.
Context {BP : BuildProfile} (cap : nat) (Hcap : (0 < cap)%nat) (Hcap32 : Z.of_nat cap < 2 ^ 32).
Context (RS : list WireRecord) (Hok : rs_ok cap RS) (Hroom : 2 * Z.of_nat (length RS) < 2 ^ 32).
Context (s : SharedConcurrentStore) (Hs : good_store s) (Hscap : ss_capacity s = cap).

(** A program that only loads computes [solo] if memory did not change. *)
Lemma wp_yields {E A} P (p : io E A) : ∀ mem V,
  yields P p → mem `prefix_of` mem_of cap RS →
  wp true (grows cap RS) p mem V (λ mem' V' r, moved true cap RS mem V mem' V'
    ∧ (∃ a, r = Ok a ∧ P a) ∧ (mem' = mem → r = solo mem p)).
Proof.
  assert (Hback : ∀ mem mem1 V1 mem' V', grows cap RS mem mem1 → moved true cap RS mem1 V1 mem' V' → mem' = mem → mem1 = mem).
  { intros mem mem1 V1 mem' V' Hg Hmv ->. apply prefix_length_eq; [apply Hmv|]. apply prefix_length, Hg. }
  induction p as [[a|e| |]|o l k IH| | |o k IH]; intros mem V Hp Hm; cbn [yields wp] in *; try done.
  - split_and!; [apply (moved_refl true); done|by exists a|done].
  - intros mem1 t v Hg Hv Hr. assert (Hm1 : moved true cap RS mem V mem1 (after_load o mem1 V l t)).
    { split; [done|by apply (extends_load true cap Hcap)]. }
    eapply wp_mono; [|apply IH; [apply Hp|apply Hg]]. intros mem' V' r (Hmv & Ha & Heq).
    split_and!; [eapply (moved_trans true cap Hcap RS); [exact Hm1|exact Hmv]|done|]. intros Hback'.
    assert (mem1 = mem) as -> by eauto.
    rewrite Heq by done. cbn [solo]. unfold can_read in Hr. subst t. rewrite latest_now in Hv. by injection Hv as ->.
  - intros mem1 Hg. assert (Hm1 : moved true cap RS mem V mem1 (after_fence o V)).
    { split; [done|apply (extends_fence true cap Hcap)]. }
    eapply wp_mono; [|apply IH; [apply Hp|apply Hg]]. intros mem' V' r (Hmv & Ha & Heq).
    split_and!; [eapply (moved_trans true cap Hcap RS); [exact Hm1|exact Hmv]|done|]. intros Hback'.
    assert (mem1 = mem) as -> by eauto. by rewrite Heq.
Qed.

(** When the lock is even, memory is what whole appends left. *)
Lemma lock_unmoved mem ms : Forall (λ m, m_loc m ≠ LSeq) ms → cur (mem ++ ms) LSeq = cur mem LSeq.
Proof.
  intros Hf. induction ms as [|m ms IH] using rev_ind; [by rewrite app_nil_r|].
  apply Forall_app in Hf as [Hf Hm]. apply Forall_cons_1 in Hm as [Hm _]. rewrite app_assoc, cur_snoc, decide_False by exact Hm. by apply IH.
Qed.

Lemma core_unlocked n rel lost a rec : Forall (λ m, m_loc m ≠ LSeq) (core_msgs n rel lost a rec).
Proof.
  unfold core_msgs, lost_msgs. apply Forall_app. split; [by case_decide; repeat constructor|].
  constructor; [done|]. apply Forall_app. split; [|by repeat constructor].
  apply Forall_fmap, Forall_forall. by intros c _.
Qed.

Lemma lock_even_state rs mem :
  2 * Z.of_nat (length rs) < 2 ^ 32 → mem `prefix_of` mem_of cap rs → Z.even (cur mem LSeq) = true →
  ∃ rs1, rs1 `prefix_of` rs ∧ mem = mem_of cap rs1 ∧ cur mem LSeq = 2 * Z.of_nat (length rs1).
Proof.
  induction rs as [|rec rs IH] using rev_ind; intros Hr Hm He.
  { exists []. destruct mem; [done|]. by apply prefix_nil_not in Hm. }
  rewrite length_app in Hr. cbn [length] in Hr.
  assert (Hrs : rs `prefix_of` rs ++ [rec]) by (by apply prefix_app_r).
  assert (Hpre : mem_of cap rs `prefix_of` mem_of cap (rs ++ [rec])) by (by apply mem_of_prefix).
  destruct (prefix_weak_total _ _ _ Hm Hpre) as [Hm'|[k ->]].
  { destruct (IH ltac:(lia) Hm' He) as (rs1 & Hp & ? & ?). exists rs1. split_and!; [by etrans|done|done]. }
  destruct (mem_of_snoc cap rs rec) as (rel & Hsnoc). pose proof (lock_value cap Hcap rs) as Hlock. cbn [sequenced shared_sequenced] in Hlock.
  rewrite Z.mod_small in Hlock by lia. rewrite Hsnoc in Hm. apply prefix_app_inv in Hm.
  unfold append_msgs in Hm, Hsnoc. cbn [sequenced shared_sequenced] in Hm, Hsnoc. rewrite Hlock in Hm, Hsnoc.
  set (core := core_msgs _ _ _ _ _) in *. destruct k as [|m k].
  { exists rs. rewrite app_nil_r. split_and!; done. }
  pose proof (prefix_cons_inv_1 _ _ _ _ Hm) as ->. apply prefix_cons_inv_2, prefix_snoc_inv in Hm as [->|Hk].
  - exists (rs ++ [rec]). rewrite Hsnoc. split_and!; [done|done|]. rewrite <-Hsnoc, lock_value by done.
    cbn [sequenced shared_sequenced]. rewrite length_app. cbn [length]. rewrite Z.mod_small; lia.
  - exfalso. rewrite cons_middle, app_assoc, lock_unmoved, cur_snoc, decide_True in He.
    + cbn [m_val seq_msg] in He. rewrite Z.mod_small in He by lia. rewrite Z.add_1_r, Z.even_succ in He.
      rewrite <-Z.negb_even, Z.even_mul in He. done.
    + done.
    + destruct Hk as [k2 Hk]. pose proof (core_unlocked (length (mem_of cap rs) + 1) (length (mem_of cap rs) + 1)
        (cur (mem_of cap rs) LLost) (abs_of cap rs) rec) as Hc. fold core in Hc. rewrite Hk in Hc. by apply Forall_app in Hc as [? _].
Qed.
Definition torn_error (e : ControlBlockError) : Prop :=
  (∃ l, e = CbUpdating l) ∨ ∃ first second, e = CbStaleSnapshot first second.

(** One moment between two appends, or the retries are used up. *)
Definition one_moment (mem mem' : list msg) (r : res ControlBlockError ControlBlockSnapshot) : Prop :=
  match r with
  | Ok sn => ∃ rs1, rs1 `prefix_of` RS ∧ mem `prefix_of` mem_of cap rs1 ∧ mem_of cap rs1 `prefix_of` mem'
                    ∧ sn = shown s (mem_of cap rs1)
  | Err e => torn_error e
  | Panic | Diverge => False
  end.

Lemma wp_lock {A} mem V (f : u32 → io ControlBlockError A) Q :
  mem `prefix_of` mem_of cap RS →
  (∀ mem' V', moved true cap RS mem V mem' V' → wp true (grows cap RS) (f (cur mem' LSeq)) mem' V' Q) →
  wp true (grows cap RS) (load_u32 s Acquire OFF_SEQ_LOCK ≫= f) mem V Q.
Proof.
  intros Hm HQ. unfold load_u32. rewrite atomic_u32_ok by (done || by_compute). cbn [mbind io_bind io_match].
  change (load_word (E:=ControlBlockError) s Acquire OFF_SEQ_LOCK 4) with (Ld (E:=ControlBlockError) Acquire LSeq io_ret).
  cbn [io_match io_ret]. apply (wp_load true cap Hcap); [done|]. intros mem' V' t v Hmv Hv Hr HV.
  unfold can_read in Hr. subst t. rewrite latest_now in Hv. injection Hv as <-. by apply HQ.
Qed.

Lemma words_at rs : rs `prefix_of` RS → words_fit (mem_of cap rs) ∧ is_u32 (cur (mem_of cap rs) LSeq).
Proof.
  intros Hp. assert (Hrs : rs_ok cap rs) by (by eapply rs_ok_prefix).
  destruct (history_image cap Hcap rs Hrs) as (r & _ & Hrep & Him).
  destruct (history_words cap rs r Hcap Hrs Hrep) as (Hh & Ho & Hl). pose proof (proj2 (im_lock _ _ _ Him)) as Hlock.
  unfold words_fit. rewrite (im_head _ _ _ Him), (im_oldest _ _ _ Him), (im_lost _ _ _ Him). done.
Qed.

Lemma wp_snapshot_loop retries : ∀ mem V e,
  torn_error e → mem `prefix_of` mem_of cap RS →
  wp true (grows cap RS) (snapshot_loop retries s e) mem V (λ mem' V' r,
    moved true cap RS mem V mem' V' ∧ one_moment mem mem' r).
Proof.
  induction retries as [|retries IH]; intros mem V e He Hm; [split; [by apply (moved_refl true)|done]|].
  assert (Hretry : ∀ mem1 V1 e, torn_error e → moved true cap RS mem V mem1 V1 →
    wp true (grows cap RS) (snapshot_loop retries s e) mem1 V1 (λ mem' V' r,
      moved true cap RS mem V mem' V' ∧ one_moment mem mem' r)).
  { intros mem1 V1 e1 He1 Hmv. eapply wp_mono; [|apply IH; [exact He1|apply Hmv]]. intros mem' V' r [Hmv' Hone].
    split; [by eapply (moved_trans true cap Hcap RS)|]. destruct r as [sn| | |]; try done.
    destruct Hone as (rs1 & ? & ? & ? & ?). exists rs1. split_and!; [done| |done|done]. etrans; [apply Hmv|done]. }
  cbn [snapshot_loop]. apply wp_lock; [done|]. intros mem1 V1 Hmv1.
  destruct (Z.even (cur mem1 LSeq)) eqn:Heven; cbn [negb]; [|apply Hretry; [left; by eexists|done]].
  apply wp_bind. eapply wp_mono; [|apply (wp_yields synced); [by apply yields_control_image|apply Hmv1]].
  intros mem2 V2 r (Hmv2 & (bs & -> & Hlen & Hsync) & Hsolo). cbv beta iota.
  pose proof (moved_trans true cap Hcap RS _ _ _ _ _ _ Hmv1 Hmv2) as Hmv12.
  apply wp_lock; [apply Hmv2|]. intros mem3 V3 Hmv3.
  pose proof (moved_trans true cap Hcap RS _ _ _ _ _ _ Hmv12 Hmv3) as Hmv.
  set (first := cur mem1 LSeq) in *. set (second := cur mem3 LSeq) in *.
  destruct (decide (first = second)) as [Heq|Hne].
  2: { rewrite decode_with_locks_eq, Hsync, Heven, decide_False, decide_True by (lia || tauto). cbn [negb].
       apply Hretry; [right; by do 2 eexists|done]. }
  destruct (lock_even_state RS mem1 Hroom) as (rs1 & Hp1 & Hmem1 & Hv1); [apply Hmv1|done|].
  destruct (lock_even_state RS mem3 Hroom) as (rs3 & Hp3 & Hmem3 & Hv3); [apply Hmv3|by rewrite <-Heven; f_equal|].
  assert (rs3 = rs1) as ->.
  { fold first in Hv1. fold second in Hv3. assert (length rs1 = length rs3) by lia.
    destruct (prefix_weak_total _ _ _ Hp1 Hp3) as [H1|H1]; [symmetry|]; apply prefix_length_eq; (done || lia). }
  assert (mem2 = mem1) as ->.
  { symmetry. apply prefix_length_eq; [apply Hmv2|]. rewrite Hmem1, <-Hmem3. apply prefix_length, Hmv3. }
  specialize (Hsolo eq_refl). rewrite solo_control_image in Hsolo by done. injection Hsolo as ->.
  destruct (words_at rs1 Hp1) as [Hw Hl]. rewrite <-Hmem1 in Hw, Hl.
  rewrite decode_read_image, decide_False by (done || tauto). cbn [wp].
  split; [done|]. exists rs1. rewrite <-Hmem1. split_and!; [done|apply Hmv1|apply Hmv3|done].
Qed.
End snapshots.

#[global] Instance shared_snapshots {BP : BuildProfile} : SnapshotLaws SharedConcurrentStore (SQ := shared_sequenced) true.
Proof.
  split. intros cap RS s Hcap H32 Hok Hroom Hs Hscap mem V Hm. specialize (Hroom eq_refl).
  eapply wp_mono; [|apply (wp_snapshot_loop cap Hcap RS Hok Hroom s Hs Hscap CONTROL_SNAPSHOT_RETRIES mem V); [left; by eexists|done]].
  intros mem' V' r [Hmv Hone]. split; [done|]. destruct r as [sn|e| |]; try done.
  destruct Hone as (rs1 & Hrs1 & Hpre & Hpost & ->).
  assert (Hok1 : rs_ok cap rs1) by (by eapply rs_ok_prefix).
  destruct (history_image cap Hcap rs1 Hok1) as (r & _ & Hrep & Him).
  cbn [shown header_snapshot cb_buffer_bytes cb_head_abs cb_oldest_abs]. pose proof Hscap as Hcs. cbn [cs_capacity shared_store] in Hscap. split; [by rewrite Hscap|].
  rewrite (im_head _ _ _ Him), (im_oldest _ _ _ Him), (rep_head _ _ Hrep), (rep_oldest _ _ Hrep).
  pose proof (latest_now (mem_of cap rs1) LHead) as Hhead. pose proof (latest_now (mem_of cap rs1) LOldest) as Hold.
  rewrite (im_head _ _ _ Him), (rep_head _ _ Hrep) in Hhead. rewrite (im_oldest _ _ _ Him), (rep_oldest _ _ Hrep) in Hold.
  exists rs1. split_and!; [done|done| | | |done|].
  - split_and!; [apply Hmv|by apply prefix_length|by left].
  - eexists. split; [by eapply value_at_grows|by left].
  - intros D HD. eapply (head_read_ge true cap Hcap RS Hok s Hcs (mem_of cap rs1) V).
    + by apply mem_of_prefix.
    + reflexivity.
    + exact Hhead.
    + destruct HD as (t & Ht & _). exists t. split; [by eapply value_at_grows|by left].
  - eexists. by eapply value_at_grows.
Qed.

(** ** Creating a store *)

(** What a program may rely on: a file just created, extended to [n] bytes and
    mapped reads as [n] zeros. *)
Class FileSystemLaws (path file : Type) {FS : FileSystem path file} := {
  law_zeros p mode f n f' bs : fs_create p mode = Ok f → fs_set_len f n = Ok f' → fs_map f' = Ok bs →
    bs = replicate (Z.to_nat n) 0;
}.

Section initialize.
Context {BP : BuildProfile}.

(** A region whose first [DATA_OFFSET] bytes are [hd]. *)
Definition headed (hd tl : bytes) : SharedRegion :=
  {| sr_bytes := hd ++ tl; sr_len := (DATA_OFFSET + length tl)%nat |}.

Lemma copy_headed {E} (hd tl : bytes) o w : (o + length w ≤ length hd)%nat →
  copy_from_slice (E:=E) (hd ++ tl) o w = Ok (splice hd o w ++ tl).
Proof.
  intros H. rewrite copy_from_slice_ok by (rewrite length_app; lia). f_equal. unfold splice.
  rewrite take_app_le, drop_app_le by lia. by rewrite <-!app_assoc.
Qed.

Lemma put_u8_ok o v hd tl : length hd = DATA_OFFSET → (o < DATA_OFFSET)%nat →
  put_u8 o v (headed hd tl) = Ok (headed (splice hd o [v]) tl).
Proof.
  intros Hl Ho. unfold put_u8, atomic_u8_at, in_region. cbn [headed sr_len sr_bytes]. rewrite bool_decide_true, !ok_bind by lia.
  by rewrite copy_headed by (cbn; lia).
Qed.
Lemma put_u32_ok o v hd tl : length hd = DATA_OFFSET → (o mod 4 = 0)%nat → (o + 4 ≤ DATA_OFFSET)%nat →
  put_u32 o v (headed hd tl) = Ok (headed (splice hd o (to_le_bytes 4 v)) tl).
Proof.
  intros Hl Hm Ho. unfold put_u32, atomic_u32, in_region. cbn [headed sr_len sr_bytes]. rewrite !bool_decide_true, !ok_bind by lia.
  by rewrite copy_headed by (rewrite length_to_le_bytes; lia).
Qed.
Lemma put_u64_ok o v hd tl : length hd = DATA_OFFSET → (o mod 8 = 0)%nat → (o + 8 ≤ DATA_OFFSET)%nat →
  put_u64 o v (headed hd tl) = Ok (headed (splice hd o (to_le_bytes 8 v)) tl).
Proof.
  intros Hl Hm Ho. unfold put_u64, atomic_u64, in_region. cbn [headed sr_len sr_bytes]. rewrite !bool_decide_true, !ok_bind by lia.
  by rewrite copy_headed by (rewrite length_to_le_bytes; lia).
Qed.

Lemma put_bytes_ok l hd tl : length hd = DATA_OFFSET → Forall (λ p, (p.1 < DATA_OFFSET)%nat) l →
  for_each (λ '(o, v) r, put_u8 o v r) l (headed hd tl) = Ok (headed (foldl (λ hd p, splice hd p.1 [p.2]) hd l) tl).
Proof.
  revert hd. induction l as [|[o v] l IH]; intros hd Hl Hf; [done|]. apply Forall_cons_1 in Hf as [Ho Hf].
  cbn [for_each foldl fst snd] in *. rewrite put_u8_ok, ok_bind by done. apply IH; [|done].
  rewrite length_splice; [done|cbn; lia].
Qed.

Lemma zero_fill n : ∀ i hd, (i + n)%nat = length hd → take i hd = replicate i 0 →
  foldl (λ hd p, splice hd p.1 [p.2]) hd ((λ o, (o, 0)) <$> seq i n) = replicate (i + n) (0 : u8).
Proof.
  induction n as [|n IH]; intros i hd Hl Ht.
  { cbn. rewrite Nat.add_0_r in *. by rewrite <-Ht, take_ge by lia. }
  cbn [seq]. rewrite fmap_cons. cbn [foldl fst snd]. rewrite IH; [f_equal; lia|rewrite length_splice by (cbn; lia); lia|].
  unfold splice. cbn [length]. rewrite Ht, Nat.add_1_r, replicate_S_end. rewrite take_app_ge by (rewrite length_replicate; lia).
  by rewrite length_replicate, Nat.sub_succ_l, Nat.sub_diag.
Qed.

(** One word put, [DATA_OFFSET] bytes as before. *)
Ltac put_word lem o hd' :=
  lazymatch goal with |- context [headed ?hd ?tl] =>
    rewrite (lem o _ hd tl) by (done || by_compute); rewrite ok_bind;
    lazymatch goal with |- context [headed (splice hd o ?w) tl] =>
      let Hl := fresh "Hl" in let Heq := fresh "Heq" in
      assert (Hl : length (splice hd o w) = DATA_OFFSET)
        by (rewrite length_splice; [done|rewrite ?length_to_le_bytes; cbn [length]; match goal with H : length hd = _ |- _ => rewrite H end; by_compute]);
      remember (splice hd o w) as hd' eqn:Heq
    end
  end.

(** The header every creation writes, over whatever was there. *)
Lemma initialize_headed capacity hd tl : length hd = DATA_OFFSET →
  initialize_counters capacity (headed hd tl)
    = Ok (headed (cb_image (header_snapshot capacity 0 0 0) 0 ++ replicate 40 0) tl).
Proof.
  intros Hl. unfold initialize_counters.
  replace (for_each (λ offset r, put_u8 offset 0 r) (seq 0 DATA_OFFSET) (headed hd tl))
    with (for_each (λ '(o, v) r, put_u8 o v r) ((λ o, (o, 0)) <$> seq 0 DATA_OFFSET) (headed hd tl))
    by (generalize (seq 0 DATA_OFFSET) (headed hd tl); intros l; induction l as [|o l IHl]; intros r; [done|];
        cbn; destruct (put_u8 o 0 r); cbn; auto).
  rewrite put_bytes_ok, ok_bind; [|done|apply Forall_fmap, Forall_forall; intros o Ho%elem_of_seq; cbn; lia].
  rewrite (zero_fill DATA_OFFSET 0 hd), put_bytes_ok, ok_bind by first [exact (eq_sym Hl)|done|by_compute].
  clear hd Hl. set (hd := foldl _ _ _). assert (Hl : length hd = DATA_OFFSET) by by_compute.
  assert (Hhd : hd = CONTROL_BLOCK_SYNC ++ replicate 124 0) by by_compute. clearbody hd.
  put_word put_u8_ok OFF_VERSION hd1. put_word put_u8_ok OFF_CAPS hd2.
  put_word put_u32_ok OFF_BUFFER_ID hd3. put_word put_u32_ok OFF_BUFFER_BYTES hd4. put_word put_u32_ok OFF_SEQ_LOCK hd5.
  put_word put_u64_ok OFF_HEAD_ABS hd6. put_word put_u64_ok OFF_OLDEST_ABS hd7. put_word put_u64_ok OFF_LOST_COUNT hd8.
  put_word put_u64_ok OFF_RUN_ID hd9. put_word put_u64_ok OFF_EPOCH_ID hd10.
  rewrite put_u64_ok by (done || by_compute). do 2 f_equal. subst. unfold header_snapshot. generalize (u32_or_max capacity). intros v. reflexivity.
Qed.
End initialize.

(** What [create] returns. *)
Definition created (capacity : usize) (mode : FenceMode) : SharedConcurrentStore :=
  {| ss_region := headed (cb_image (header_snapshot capacity 0 0 0) 0 ++ replicate 40 0) (replicate capacity 0);
     ss_capacity := capacity; ss_fence_mode := mode; ss_recheck_stall := 0 |}.

Lemma good_created capacity : good_store (created capacity Fenced).
Proof.
  split; [done|cbn; by rewrite length_replicate|]. exists 0, 0, 0, 0. split; [by_compute|].
  cbn [created ss_region headed sr_bytes ss_capacity]. rewrite <-app_assoc. apply take_app_length'.
  by rewrite length_cb_image by (apply header_wf; by_compute).
Qed.

Section creation.
Context {BP : BuildProfile} {path file : Type} {FS : FileSystem path file} {FL : FileSystemLaws path file}.

Lemma create_eq (p : path) capacity mode :
  create_with_mode p capacity mode =
    if decide (capacity = 0)%nat then Err (IoInvalidInput "ring capacity must be non-zero") else
    if decide (2 ^ 64 ≤ Z.of_nat (DATA_OFFSET + capacity)) then Err (IoInvalidInput "mapping length overflow") else
    f ← fs_create p FILE_MODE;
    f ← fs_set_len f (Z.of_nat (DATA_OFFSET + capacity));
    _ ← fs_map f;
    Ok (created capacity mode).
Proof.
  unfold create_with_mode, validate_capacity, mapping_len. destruct (decide (capacity = 0)%nat); [done|]. rewrite ok_bind.
  change validate_layout with (Ok (E:=IoError) tt). rewrite ok_bind.
  case_decide as H1; [rewrite decide_False by lia|by rewrite decide_True by lia].
  destruct (fs_create p FILE_MODE) as [f| | |] eqn:Hf; cbn [mbind res_bind]; try done.
  destruct (fs_set_len f _) as [f'| | |] eqn:Hf'; cbn [mbind res_bind]; try done.
  unfold region_map. rewrite decide_False by (change DATA_OFFSET with 128%nat; lia).
  destruct (fs_map f') as [bs| | |] eqn:Hm; cbn [mbind res_bind]; try done.
  rewrite (law_zeros _ _ _ _ _ _ Hf Hf' Hm), Nat2Z.id, replicate_add.
  pose proof (initialize_headed capacity (replicate DATA_OFFSET 0) (replicate capacity 0)) as Hi. unfold headed in Hi at 1.
  rewrite (length_replicate capacity 0), length_replicate in Hi. rewrite (Hi eq_refl). by rewrite ok_bind.
Qed.
End creation.

(** ** Properties *)

(** Creating a store, on every branch: the capacity and the mapping length
    are checked before the file system is touched, then the file is created,
    extended to the control block and the pool, and mapped; the store it returns
    has the header of an empty ring in front of a zeroed pool and, fenced, is in
    good order. *)
Theorem shared_create {BP : BuildProfile} {path file} {FS : FileSystem path file} {FL : FileSystemLaws path file}
    (p : path) capacity mode :
  create_with_mode p capacity mode =
    (if decide (capacity = 0)%nat then Err (IoInvalidInput "ring capacity must be non-zero") else
     if decide (2 ^ 64 ≤ Z.of_nat (DATA_OFFSET + capacity)) then Err (IoInvalidInput "mapping length overflow") else
     f ← fs_create p FILE_MODE;
     f ← fs_set_len f (Z.of_nat (DATA_OFFSET + capacity));
     _ ← fs_map f;
     Ok (created capacity mode))
  ∧ (mode = Fenced → good_store (created capacity mode))
  ∧ sr_bytes (ss_region (created capacity mode))
    = cb_image (header_snapshot capacity 0 0 0) 0 ++ replicate (DATA_OFFSET - CONTROL_BLOCK_LEN + capacity) 0.
Proof.
  split; [apply create_eq|]. split; [intros ->; apply good_created|].
  cbn [created ss_region headed sr_bytes]. by rewrite <-app_assoc.
Qed.

(** C9: the seqlock works under sequential consistency: however the producer's
    accesses interleave with a snapshot, the snapshot is the control block at one
    moment between two appends, no earlier than when it was asked for; it fails
    only when every retry met an append, with [Updating] or [StaleSnapshot], and
    never panics. *)
Theorem shared_snapshot_moment {BP : BuildProfile} s RS mem V :
  good_store s → (0 < ss_capacity s)%nat → rs_ok (ss_capacity s) RS → 2 * Z.of_nat (length RS) < 2 ^ 32 →
  mem `prefix_of` mem_of (ss_capacity s) RS →
  wp true (grows (ss_capacity s) RS) (read_control_snapshot s) mem V (λ mem' V' r,
    grows (ss_capacity s) RS mem mem' ∧ one_moment (ss_capacity s) RS s mem mem' r).
Proof.
  intros Hs Hcap Hok Hroom Hm.
  eapply wp_mono; [|apply (wp_snapshot_loop (ss_capacity s) Hcap RS Hok Hroom s Hs eq_refl); [left; by eexists|done]].
  intros mem' V' r [[Hg _] Hone]. by split.
Qed.

(** C10: end to end over a created store: whatever the interleaving, atomic
    access by atomic access, of its producer and one consumer under sequential
    consistency, neither panics, the polls deliver records of the log in order,
    without repetition and exactly as written, and a batch that is not marked
    lapped is the whole log between its two cursors. *)
Theorem shared_delivery {BP : BuildProfile} {path file} {FS : FileSystem path file} {FL : FileSystemLaws path file}
    (p : path) capacity store moves s :
  create p capacity = Ok store → schedule_ok capacity moves → run true moves (sys_new store) = Some s →
  sy_panicked s = false ∧
  (∃ es, delivered s = en_read <$> es ∧ es `sublist_of` ab_log (final_ring capacity moves)) ∧
  ∀ polled b, polled ∈ sy_polls s → po_result polled = inl b → rb_lapped b = false →
    rb_records b = en_read <$> filter (λ e, po_from polled ≤ en_start e ∧ en_end e ≤ po_to polled) (ab_log (final_ring capacity moves)).
Proof.
  intros Hc Hsched Hrun. unfold create in Hc. rewrite create_eq in Hc. do 2 (case_decide; [done|]).
  apply bind_Ok in Hc as (f & _ & Hc). apply bind_Ok in Hc as (f' & _ & Hc). apply bind_Ok in Hc as (bs & _ & [= <-]).
  destruct (delivery true (created capacity Fenced) moves s) as (Hp & _ & Hd); [exact (good_created capacity)|exact Hsched|exact Hrun|].
  split_and!; [done|done|]. intros polled b Hin Hres Hl.
  pose proof (completeness true (created capacity Fenced) moves s polled (good_created capacity : lawful _) Hsched Hrun Hin) as Hx.
  rewrite Hres in Hx. by apply Hx.
Qed.

#[local] Abbreviation dev_store := (shared_store (BP:=dev_profile)).

(** One record delivered; the next poll has loaded the lock, and the four lock
    bytes, when a second record is appended; its loads of the counters are
    fresh, its second load of the lock and its load of the record's first byte
    are not. *)
Definition skipping_moves : list move :=
  play (BP:=dev_profile) (CS:=dev_store) (write_all (demo_record 0) ++ [BPoll; BLoads 1000; BPoll; BLoads 5] ++ write_all (demo_record 1)
    ++ [BLoads 27]) (sys_new (created 100 Fenced)) ++ [StepPoll 48; StepPoll 0; StepPoll 50; StepPoll 0].

(** The seqlock does not work under release/acquire: with no acquire fence
    before the second load of the lock, a snapshot can show the head of an append
    it did not synchronise with, between two equal even locks. Here a poll of a
    ring that has never dropped a record reads the first byte of the second
    record as the zero of a wrap marker, moves its cursor past the record, and
    returns an empty batch that is not marked lapped. *)
Example shared_weak_skip :
  schedule_ok 100 skipping_moves ∧
  (λ s, (sy_panicked s, (λ p, (po_from p, po_to p)) <$> sy_polls s, (λ r, rec_seq (rr_record r)) <$> delivered s))
      <$> run (BP:=dev_profile) (CS:=dev_store) false skipping_moves (sys_new (created 100 Fenced))
    = Some (false, [(0, 44); (44, 88)], [0]) ∧
  (λ s, (λ p, match po_result p with inl b => Some (rb_lapped b) | inr _ => None end) <$> sy_polls s)
      <$> run (BP:=dev_profile) (CS:=dev_store) false skipping_moves (sys_new (created 100 Fenced)) = Some [Some false; Some false] ∧
  (λ e, rec_seq (en_rec e)) <$> ab_log (final_ring 100 skipping_moves) = [0; 1] ∧
  ab_dropped (final_ring 100 skipping_moves) = [].
Proof. split; [by_compute|]. vm_compute. split_and!; reflexivity. Qed.

(** A publisher bound to an existing ring does not continue it: whatever
    head and oldest offset the ring had when it was opened, the first record a
    new publisher appends goes to offset 0, and the published head is the
    record's length. *)
Theorem reopened_publisher_rewinds {BP : BuildProfile} s rec w :
  good_store s → fits_ring (ss_capacity s) rec → Z.of_nat (ss_capacity s) < 2 ^ 63 →
  Z.even (cur (w_mem w) LSeq) = true →
  ∃ ops p', emits ops (append_record (with_store s) rec) (Done (Ok p')) ∧ ops_ok w ops
    ∧ cur (w_mem (w_ops ops w)) LHead = Z.of_nat (length (enc_record rec true))
    ∧ cur (w_mem (w_ops ops w)) LOldest = 0.
Proof.
  intros Hs Hfit H63 He. set (cap := ss_capacity s) in *. pose proof Hfit as [Hw Hlen].
  assert (Hcap : (0 < cap)%nat) by (destruct (en_len_bounds {| en_start := 0; en_rec := rec |}) as [? _]; [apply Hw|unfold en_len in *; cbn in *; lia]).
  destruct (ring_new_rep cap Hcap) as (r & _ & Hrep).
  assert (Hp : prod_rep (cp_with_store s) (abs_new cap)) by done.
  assert (Hstart : en_start (placed (abs_new cap) rec) = 0).
  { unfold placed, place. cbn [abs_new ab_cap ab_head en_start]. rewrite decide_True; [done|left]. unfold phys. by rewrite Z.mod_0_l by lia. }
  exists (append_ops (abs_new cap) rec), {| sp_producer := appended (cp_with_store s) (abs_new cap) rec |}. split_and!.
  - unfold append_record, cp_write_record. rewrite encodable_encode by apply Hw. cbn [map_err mbind io_bind io_match].
    change (cs_capacity (cp_store (sp_producer (with_store s)))) with cap. rewrite decide_False by lia.
    apply (emits_bind (append_ops (abs_new cap) rec) (Done (Ok (appended (cp_with_store s) (abs_new cap) rec)))
      (λ producer, io_ret {| sp_producer := producer |})).
    apply (append_bytes_core_emits (cp_with_store s)) with r; try done. cbn [abs_new ab_head ab_cap]. lia.
  - by apply append_ops_ok.
  - rewrite append_ops_msgs.
    destruct (append_msgs_words (w_mem w) (length (w_mem w)) (w_rel w) (cur (w_mem w) LLost) (cur (w_mem w) LSeq) (abs_new cap) rec) as (-> & _).
    by rewrite en_end_placed, Hstart.
  - rewrite append_ops_msgs.
    destruct (append_msgs_words (w_mem w) (length (w_mem w)) (w_rel w) (cur (w_mem w) LLost) (cur (w_mem w) LSeq) (abs_new cap) rec) as (_ & -> & _).
    unfold ab_oldest. cbn [abs_write abs_new ab_live filter list_filter app head hd_error from_option en_start]. exact Hstart.
Qed.

(** ** Witnesses *)

(** A file system in memory. *)
#[local] Instance ram_fs : FileSystem string bytes := {|
  fs_create _ _ := Ok [];
  fs_open _ := Err (IoSystem 2);
  fs_len f := Ok (Z.of_nat (length f));
  fs_set_len f n := Ok (take (Z.to_nat n) f ++ replicate (Z.to_nat n - length f) 0);
  fs_map f := Ok f;
|}.
#[local] Instance ram_laws : FileSystemLaws string bytes.
Proof.
  split. intros p mode f n f' bs [= <-] [= <-] [= <-]. by rewrite take_nil, Nat.sub_0_r.
Qed.

Lemma shared_create_witness :
  create_with_mode "ring"%string 100 Fenced = Ok (created 100 Fenced) ∧ good_store (created 100 Fenced).
Proof.
  destruct (shared_create (BP:=dev_profile) "ring"%string 100 Fenced) as (Hc & Hg & _).
  split; [rewrite Hc; vm_compute; exact eq_refl|exact (Hg eq_refl)].
Defined.

Lemma shared_snapshot_moment_witness :
  wp true (grows 100 [demo_record 0; demo_record 1]) (read_control_snapshot (ConcurrentStore:=dev_store) (created 100 Fenced))
    (mem_of 100 [demo_record 0]) rview_init (λ mem' V' r,
    grows 100 [demo_record 0; demo_record 1] (mem_of 100 [demo_record 0]) mem'
    ∧ one_moment 100 [demo_record 0; demo_record 1] (created 100 Fenced) (mem_of 100 [demo_record 0]) mem' r).
Proof.
  apply (shared_snapshot_moment (BP:=dev_profile) (created 100 Fenced) [demo_record 0; demo_record 1]).
  - exact (good_created 100).
  - by_compute.
  - by_compute.
  - by_compute.
  - apply mem_of_prefix. by exists [demo_record 1].
Defined.

(** Polls under way while records are written, wrapping and evicting. *)
Definition shared_moves : list move :=
  play (BP:=dev_profile) (CS:=dev_store)
    (write_all (demo_record 0) ++ [BPoll; BLoads 20] ++ write_all (demo_record 1) ++ [BLoads 1000]
     ++ [BWrite (demo_record 2); BSteps 9; BPoll; BLoads 30; BSteps 1000; BLoads 1000]) (sys_new (created 100 Fenced)).

Lemma shared_delivery_witness :
  ∃ s, run (BP:=dev_profile) (CS:=dev_store) true shared_moves (sys_new (created 100 Fenced)) = Some s ∧
  sy_panicked s = false ∧
  (∃ es, delivered s = en_read <$> es ∧ es `sublist_of` ab_log (final_ring 100 shared_moves)) ∧
  ∀ polled b, polled ∈ sy_polls s → po_result polled = inl b → rb_lapped b = false →
    rb_records b = en_read <$> filter (λ e, po_from polled ≤ en_start e ∧ en_end e ≤ po_to polled) (ab_log (final_ring 100 shared_moves)).
Proof.
  run_ends s Hrun. exists s. split; [exact eq_refl|].
  apply (shared_delivery (BP:=dev_profile) "ring"%string 100 (created 100 Fenced) shared_moves s);
    [vm_compute; exact eq_refl|by_compute|exact Hrun].
Defined.

Lemma reopened_publisher_rewinds_witness :
  let w := {| w_mem := mem_of 100 [demo_record 0; demo_record 1]; w_rel := 0 |} in
  cur (w_mem w) LHead = 88 ∧
  ∃ ops p', emits ops (append_record (BP:=dev_profile) (with_store (created 100 Fenced)) (demo_record 2)) (Done (Ok p'))
    ∧ ops_ok w ops ∧ cur (w_mem (w_ops ops w)) LHead = 44 ∧ cur (w_mem (w_ops ops w)) LOldest = 0.
Proof.
  intros w. split; [vm_compute; exact eq_refl|].
  destruct (reopened_publisher_rewinds (BP:=dev_profile) (created 100 Fenced) (demo_record 2) w)
    as (ops & p' & He & Ho & Hh & Hold); [exact (good_created 100)|by_compute|by_compute|vm_compute; exact eq_refl|].
  exists ops, p'. split; [exact He|]. split; [exact Ho|]. split; [rewrite Hh; vm_compute; exact eq_refl|exact Hold].
Defined.
