(* ===== verification/Text.v ===== *)
(** * Text

    What the report code uses of the standard library's text functions: decimal
    numbers ([Display] and [FromStr] of the unsigned types), [FromStr] of [bool],
    [str::lines] and [str::split_whitespace]. A string is its UTF-8 bytes. *)
From Stdlib Require Import DecimalString DecimalN Ascii.
From stdpp Require Import strings.
From S2P Require Import Prelude.
#[local] Open Scope Z_scope.

(** ** Numbers *)
Definition dec (n : Z) : string := NilZero.string_of_uint (N.to_uint (Z.to_N n)).

(** A leading plus sign is accepted, a number of more than [bits] bits is not. *)
Definition parse_uint (bits : Z) (s : string) : option Z :=
  let digits := match s with String a s' => if decide (a = "+"%char) then s' else s | EmptyString => s end in
  match NilZero.uint_of_string digits with
  | Some d => if decide (Z.of_N (N.of_uint d) < 2 ^ bits) then Some (Z.of_N (N.of_uint d)) else None
  | None => None
  end.

Definition show_bool (b : bool) : string := if b then "true" else "false".
Definition parse_bool (s : string) : option bool :=
  if decide (s = "true"%string) then Some true else if decide (s = "false"%string) then Some false else None.

(** ** White space *)
Definition byte_at (s : string) (i : nat) : Z :=
  match String.get i s with Some a => Z.of_N (Ascii.N_of_ascii a) | None => -1 end.

(** The length of the white-space character the string starts with, 0 if there
    is none: the code points with the Unicode property White_Space. *)
Definition ws_len (s : string) : nat :=
  let a := byte_at s 0 in let b := byte_at s 1 in let c := byte_at s 2 in
  if decide (9 ≤ a ≤ 13 ∨ a = 32) then 1%nat
  else if decide (a = 0xC2 ∧ (b = 0x85 ∨ b = 0xA0)) then 2%nat
  else if decide (a = 0xE1 ∧ b = 0x9A ∧ c = 0x80
                  ∨ a = 0xE2 ∧ b = 0x80 ∧ (0x80 ≤ c ≤ 0x8A ∨ c = 0xA8 ∨ c = 0xA9 ∨ c = 0xAF)
                  ∨ a = 0xE2 ∧ b = 0x81 ∧ c = 0x9F ∨ a = 0xE3 ∧ b = 0x80 ∧ c = 0x80) then 3%nat
  else 0%nat.

Definition flush (cur : string) : list string := if decide (cur = ""%string) then [] else [cur].

(** [skip] bytes of a white-space character are left, [cur] is the word so far. *)
Fixpoint split_go (s : string) (skip : nat) (cur : string) : list string :=
  match s with
  | EmptyString => flush cur
  | String a s' =>
      match skip with
      | Datatypes.S k => split_go s' k cur
      | O => match ws_len s with
             | O => split_go s' 0 (cur +:+ String a EmptyString)
             | Datatypes.S k => flush cur ++ split_go s' k ""
             end
      end
  end.
Definition split_whitespace (s : string) : list string := split_go s 0 "".

Fixpoint trim_go (s : string) (skip : nat) : string :=
  match s with
  | EmptyString => EmptyString
  | String _ s' =>
      match skip with
      | Datatypes.S k => trim_go s' k
      | O => match ws_len s with O => s | Datatypes.S k => trim_go s' k end
      end
  end.
Definition trim_start (s : string) : string := trim_go s 0.

(** ** Lines *)
Definition newline : Ascii.ascii := "010"%char.
Definition carriage_return : Ascii.ascii := "013"%char.

(** [strip_suffix] of one character. *)
Fixpoint strip_suffix (a : Ascii.ascii) (s : string) : string :=
  match s with
  | EmptyString => EmptyString
  | String b EmptyString => if decide (a = b) then EmptyString else s
  | String b s => String b (strip_suffix a s)
  end.

Fixpoint lines_go (s : string) (cur : string) : list string :=
  match s with
  | EmptyString => flush cur
  | String a s => if decide (a = newline) then strip_suffix carriage_return cur :: lines_go s ""
                  else lines_go s (cur +:+ String a EmptyString)
  end.
Definition lines (s : string) : list string := lines_go s "".

(** A line of words as [format!] writes it. *)
Definition words_line (ws : list string) : string := String.concat " " ws.
Definition push_line (ws : list string) (out : string) : string :=
  (out +:+ words_line ws +:+ String newline EmptyString)%string.

(** ** Words *)
Fixpoint solid (s : string) : bool :=
  match s with
  | EmptyString => true
  | String _ s' => bool_decide (ws_len s = 0%nat) && solid s'
  end.
(** Not empty, without white space. *)
Definition word (s : string) : Prop := s ≠ ""%string ∧ solid s = true.
#[global] Instance word_dec s : Decision (word s).
Proof. unfold word. apply _. Defined.

Lemma string_app_cons a s1 s2 : (String a s1 +:+ s2 = String a (s1 +:+ s2))%string.
Proof. done. Qed.
Lemma string_snoc_app s1 a s2 : ((s1 +:+ String a EmptyString) +:+ s2 = s1 +:+ String a s2)%string.
Proof. induction s1 as [|b s1 IH]; [done|]. by rewrite !string_app_cons, IH. Qed.
Lemma string_app_nil s : (s +:+ "")%string = s.
Proof. induction s as [|a s IH]; [done|]. by rewrite string_app_cons, IH. Qed.

Lemma byte_at_app s1 s2 i : (i < String.length s1)%nat → byte_at (s1 +:+ s2) i = byte_at s1 i.
Proof.
  unfold byte_at. revert i. induction s1 as [|a s1 IH]; intros i Hi; [cbn in Hi; lia|].
  rewrite string_app_cons. destruct i as [|i]; [done|]. cbn [String.get]. apply IH. cbn in Hi. lia.
Qed.
Lemma byte_at_sep s1 a s2 : byte_at (s1 +:+ String a s2) (String.length s1) = Z.of_N (Ascii.N_of_ascii a).
Proof. unfold byte_at. induction s1 as [|b s1 IH]; [done|]. rewrite string_app_cons. exact IH. Qed.
Lemma byte_at_end s i : (String.length s ≤ i)%nat → byte_at s i = -1.
Proof.
  unfold byte_at. revert i. induction s as [|a s IH]; intros i Hi; [by destruct i|].
  destruct i as [|i]; [cbn in Hi; lia|]. cbn [String.get]. apply IH. cbn in Hi. lia.
Qed.

(** A space or a line feed. *)
Definition separates (a : ascii) : Prop := a = " "%char ∨ a = newline.
Lemma separates_code a : separates a → Z.of_N (N_of_ascii a) = 32 ∨ Z.of_N (N_of_ascii a) = 10.
Proof. intros [->| ->]; [by left|by right]. Qed.

(** A separator or the end of the text ends a word alike. *)
Lemma ws_len_sep s a r : separates a → s ≠ ""%string → ws_len (s +:+ String a r) = ws_len s.
Proof.
  intros Ha%separates_code Hs. assert (H0 : (0 < String.length s)%nat) by (destruct s; [done|cbn; lia]).
  unfold ws_len. rewrite (byte_at_app s _ 0) by done.
  destruct (decide (String.length s = 1)%nat) as [H1|H1].
  { assert (Hb : byte_at (s +:+ String a r) 1 = Z.of_N (N_of_ascii a)) by (rewrite <-H1; apply byte_at_sep).
    rewrite (byte_at_end s 1) by lia. generalize dependent (byte_at (s +:+ String a r) 1). intros b ->.
    rewrite !(decide_False (P := _ = 194 ∧ _)) by lia. do 2 (case_decide; [first [done|lia]|]). rewrite !decide_False by lia. done. }
  rewrite (byte_at_app s _ 1) by lia. destruct (decide (String.length s = 2)%nat) as [H2|H2].
  - assert (Hb : byte_at (s +:+ String a r) 2 = Z.of_N (N_of_ascii a)) by (rewrite <-H2; apply byte_at_sep).
    rewrite (byte_at_end s 2) by lia. generalize dependent (byte_at (s +:+ String a r) 2). intros c ->. do 2 (case_decide; [done|]). rewrite !decide_False by lia. done.
  - by rewrite (byte_at_app s _ 2) by lia.
Qed.

Lemma split_sep b r cur : separates b → split_go (String b r) 0 cur = flush cur ++ split_go r 0 "".
Proof. by intros [->| ->]. Qed.
Lemma split_word s b : separates b → ∀ cur r, solid s = true →
  split_go (s +:+ String b r) 0 cur = flush (cur +:+ s) ++ split_go r 0 ""
  ∧ split_go s 0 cur = flush (cur +:+ s).
Proof.
  intros Hb. induction s as [|a s IH]; intros cur r Hs; [rewrite string_app_nil; split; [by apply split_sep|done]|].
  cbn [solid] in Hs. apply andb_prop in Hs as [Hw Hs]. apply bool_decide_eq_true in Hw.
  destruct (IH (cur +:+ String a EmptyString)%string r Hs) as [IH1 IH2]. rewrite string_snoc_app in IH1, IH2. split.
  - rewrite string_app_cons. cbn [split_go]. rewrite <-string_app_cons, ws_len_sep, Hw by done. exact IH1.
  - cbn [split_go]. rewrite Hw. exact IH2.
Qed.

Lemma flush_word s : s ≠ ""%string → flush s = [s].
Proof. intros Hs. unfold flush. by rewrite decide_False. Qed.

(** Splitting undoes joining. *)
Lemma split_words ws : Forall word ws → split_whitespace (words_line ws) = ws.
Proof.
  unfold split_whitespace, words_line. induction ws as [|w ws IH]; intros Hf; [done|].
  apply Forall_cons_1 in Hf as [[Hne Hw] Hf]. destruct ws as [|w' ws].
  - cbn [String.concat]. destruct (split_word w " " (or_introl eq_refl) "" "" Hw) as [_ ->]. by apply flush_word.
  - change (String.concat " " (w :: w' :: ws)) with (w +:+ String " " (String.concat " " (w' :: ws)))%string.
    destruct (split_word w " " (or_introl eq_refl) "" (String.concat " " (w' :: ws)) Hw) as [-> _]. change ("" +:+ w)%string with w.
    rewrite (flush_word w) by done. cbn [app]. by rewrite IH.
Qed.

(** ** Numbers are words and are read back *)
Lemma uint_word d : solid (NilEmpty.string_of_uint d) = true
  ∧ byte_at (NilEmpty.string_of_uint d) 0 ≠ 43.
Proof.
  assert (Hd : ∀ (a : ascii) s, (48 ≤ Z.of_N (N_of_ascii a) ≤ 57) → ws_len (String a s) = 0%nat).
  { intros a s Ha. unfold ws_len. change (byte_at (String a s) 0) with (Z.of_N (N_of_ascii a)).
    rewrite !decide_False by lia. done. }
  induction d as [|d [IH _]|d [IH _]|d [IH _]|d [IH _]|d [IH _]|d [IH _]|d [IH _]|d [IH _]|d [IH _]|d [IH _]]; [done|..];
    cbn [NilEmpty.string_of_uint solid]; (split; [rewrite IH, bool_decide_true; [done|apply Hd; by_compute]|by_compute]).
Qed.

Lemma to_uint_nonnil n : N.to_uint n ≠ Decimal.Nil.
Proof. destruct n as [|p]; [done|]. apply DecimalPos.Unsigned.to_uint_nonnil. Qed.

Lemma dec_word n : word (dec n).
Proof.
  pose proof (to_uint_nonnil (Z.to_N n)) as Hn. unfold dec, NilZero.string_of_uint.
  split; [|destruct (N.to_uint (Z.to_N n)) eqn:Hd; [done|rewrite <-Hd; apply uint_word..]].
  destruct (N.to_uint (Z.to_N n)); done.
Qed.

Lemma parse_dec bits n : 0 ≤ n < 2 ^ bits → parse_uint bits (dec n) = Some n.
Proof.
  intros Hn. pose proof (to_uint_nonnil (Z.to_N n)) as Hne. pose proof (NilZero.usu _ Hne) as Hu.
  assert (Hp : match dec n with String a s' => if decide (a = "+"%char) then s' else dec n | EmptyString => dec n end = dec n).
  { destruct (dec n) as [|a s] eqn:Hd; [done|]. apply decide_False. intros ->.
    destruct (uint_word (N.to_uint (Z.to_N n))) as [_ Hb]. apply Hb. unfold dec, NilZero.string_of_uint in Hd.
    destruct (N.to_uint (Z.to_N n)); [done|by rewrite Hd..]. }
  unfold parse_uint. rewrite Hp. unfold dec. rewrite Hu, DecimalN.Unsigned.of_to, Z2N.id, decide_True by lia. done.
Qed.

Lemma parse_show_bool b : parse_bool (show_bool b) = Some b.
Proof. by destruct b. Qed.
Lemma bool_word b : word (show_bool b).
Proof. by destruct b; by_compute. Qed.

(** ** Lines of words are read back *)
Fixpoint plain (s : string) : bool :=
  match s with
  | EmptyString => true
  | String a s => bool_decide (a ≠ newline) && bool_decide (a ≠ carriage_return) && plain s
  end.

Lemma plain_app s1 s2 : plain (s1 +:+ s2) = plain s1 && plain s2.
Proof. induction s1 as [|a s1 IH]; [done|]. rewrite string_app_cons. cbn [plain]. by rewrite IH, !andb_assoc. Qed.

Lemma solid_plain s : solid s = true → plain s = true.
Proof.
  induction s as [|a s IH]; [done|]. cbn [solid plain]. intros [Hw Hs]%andb_prop. apply bool_decide_eq_true in Hw.
  rewrite IH, !bool_decide_true by (done || by intros ->). done.
Qed.

Lemma words_plain ws : Forall word ws → plain (words_line ws) = true.
Proof.
  unfold words_line. induction ws as [|w ws IH]; intros Hf; [done|]. apply Forall_cons_1 in Hf as [[_ Hw] Hf].
  destruct ws as [|w' ws]; [by apply solid_plain|].
  change (String.concat " " (w :: w' :: ws)) with (w +:+ String " " (String.concat " " (w' :: ws)))%string.
  rewrite plain_app, solid_plain by done. cbn [plain andb]. by rewrite IH.
Qed.

Lemma strip_plain s : plain s = true → strip_suffix carriage_return s = s.
Proof.
  induction s as [|a s IH]; [done|]. cbn [plain]. intros [[_ Ha]%andb_prop Hs]%andb_prop. apply bool_decide_eq_true in Ha.
  cbn [strip_suffix]. destruct s as [|b s]; [by rewrite decide_False|]. by rewrite IH.
Qed.

Lemma lines_plain s r : ∀ cur, plain s = true →
  lines_go (s +:+ String newline r) cur = strip_suffix carriage_return (cur +:+ s) :: lines_go r "".
Proof.
  induction s as [|a s IH]; intros cur Hs.
  - change ("" +:+ String newline r)%string with (String newline r). cbn [lines_go]. by rewrite decide_True, string_app_nil.
  - cbn [plain] in Hs. apply andb_prop in Hs as [[Ha _]%andb_prop Hs]. apply bool_decide_eq_true in Ha.
    rewrite string_app_cons. cbn [lines_go]. rewrite decide_False, IH by done. by rewrite string_snoc_app.
Qed.

Lemma string_app_assoc s1 s2 s3 : (s1 +:+ s2 +:+ s3 = (s1 +:+ s2) +:+ s3)%string.
Proof. induction s1 as [|a s1 IH]; [done|]. by rewrite !string_app_cons, IH. Qed.

(** The lines of a text made of lines of words. *)
Lemma lines_words wss : Forall (Forall word) wss → lines (foldr (λ ws out, words_line ws +:+ String newline out) "" wss)%string = words_line <$> wss.
Proof.
  unfold lines. induction wss as [|ws wss IH]; intros Hf; [done|]. apply Forall_cons_1 in Hf as [Hw Hf].
  cbn [foldr]. rewrite lines_plain by by apply words_plain. change ("" +:+ words_line ws)%string with (words_line ws).
  rewrite strip_plain by by apply words_plain. by rewrite IH.
Qed.

Lemma push_lines wss : ∀ out,
  foldl (λ out ws, push_line ws out) out wss = (out +:+ foldr (λ ws out, words_line ws +:+ String newline out) "" wss)%string.
Proof.
  induction wss as [|ws wss IH]; intros out; [by rewrite string_app_nil|]. cbn [foldl foldr]. rewrite IH. unfold push_line.
  rewrite <-!string_app_assoc. done.
Qed.

(** What is split off a text is a word. *)
Lemma ws_len_grows s r : ws_len s ≠ 0%nat → ws_len (s +:+ r) = ws_len s.
Proof.
  intros Hs. assert (Hb : ∀ i, byte_at s i ≠ -1 → byte_at (s +:+ r) i = byte_at s i).
  { intros i Hi. apply byte_at_app. destruct (decide (i < String.length s)%nat); [done|]. rewrite byte_at_end in Hi; lia. }
  revert Hs. unfold ws_len. pose proof (Hb 0%nat) as H0. pose proof (Hb 1%nat) as H1. pose proof (Hb 2%nat) as H2.
  generalize dependent (byte_at s 0). generalize dependent (byte_at s 1). generalize dependent (byte_at s 2).
  intros c H2 b H1 a H0 Hs. destruct (decide (a = -1)) as [->|Ha]; [revert Hs; by rewrite !decide_False by lia|].
  rewrite H0 by done. case_decide; [done|]. case_decide as Hb2.
  { rewrite H1 by lia. by rewrite decide_True. }
  case_decide as Hc; [|done]. rewrite H1 by lia. rewrite decide_False by lia. rewrite H2 by lia. by rewrite decide_True.
Qed.

Fixpoint clear_before (cur r : string) : Prop :=
  match cur with
  | EmptyString => True
  | String a c => ws_len (cur +:+ r) = 0%nat ∧ clear_before c r
  end.

Lemma clear_solid cur r : clear_before cur r → solid cur = true.
Proof.
  induction cur as [|a cur IH]; [done|]. intros [Hw Hc]. cbn [solid]. rewrite IH, andb_true_r by done. apply bool_decide_true.
  destruct (decide (ws_len (String a cur) = 0%nat)) as [?|Hne]; [done|]. by rewrite (ws_len_grows _ r) in Hw.
Qed.
Lemma clear_snoc cur a r : clear_before cur (String a r) → ws_len (String a r) = 0%nat → clear_before (cur +:+ String a EmptyString) r.
Proof.
  intros Hc Hw. induction cur as [|b cur IH]; [done|]. destruct Hc as [Hb Hc].
  split; [|by apply IH]. change (ws_len ((String b cur +:+ String a EmptyString) +:+ r)%string = 0%nat). by rewrite string_snoc_app.
Qed.

Lemma flush_words cur r : clear_before cur r → Forall word (flush cur).
Proof.
  intros Hc. unfold flush. case_decide; [done|]. repeat constructor; [done|]. by eapply clear_solid.
Qed.

Lemma split_go_words s : ∀ skip cur, (skip = 0%nat ∧ clear_before cur s ∨ cur = ""%string) → Forall word (split_go s skip cur).
Proof.
  induction s as [|a s IH]; intros skip cur Hc.
  { cbn. destruct Hc as [[_ Hc]| ->]; [by eapply flush_words|done]. }
  cbn [split_go]. destruct skip as [|k].
  - assert (Hcl : clear_before cur (String a s)) by (by destruct Hc as [[_ Hc]| ->]).
    destruct (ws_len (String a s)) eqn:Hw.
    + apply IH. left. split; [done|]. by apply clear_snoc.
    + apply Forall_app. split; [by eapply flush_words|]. apply IH. by right.
  - destruct Hc as [[? _]| ->]; [done|]. apply IH. by right.
Qed.
Lemma split_are_words s : Forall word (split_whitespace s).
Proof. apply split_go_words. by left. Qed.
