(* ===== verification/Conformance.v ===== *)
(** * Conformance oracles (crates/conformance/src/lib.rs)

    The oracles that judge what a consumer delivered: the embedded offset slot,
    the sidecar of expected offsets, and the observer that checks sequences. *)
From stdpp Require Import strings.
From S2P Require Import Prelude Crc Wire Control Registry Layout Ring RingRead Memory Concurrent ConcurrentWriter ConcurrentSolo ConcurrentRead ConcurrentSystem Text.
#[local] Open Scope Z_scope.

#[local] Arguments from_le_bytes : simpl never.
#[local] Arguments to_le_bytes : simpl never.

Definition KEY_EXPECTED_RECORD_START_ABS : u16 := 0x8001.

(** An error is its message. *)
Record ConformanceError := ConformanceError_new { ce_message : string }.

(** ** Violations *)
Inductive ViolationKind :=
| ExpectedAbsMismatch
| MissingExpectedAbsSlot
| InvalidExpectedAbsSlot
| UnexpectedRecord
| DuplicateOrBackwardSeq
| EventOrderMismatch.

Definition violation_as_str (k : ViolationKind) : string :=
  match k with
  | ExpectedAbsMismatch => "expected_abs_mismatch"
  | MissingExpectedAbsSlot => "missing_expected_abs_slot"
  | InvalidExpectedAbsSlot => "invalid_expected_abs_slot"
  | UnexpectedRecord => "unexpected_record"
  | DuplicateOrBackwardSeq => "duplicate_or_backward_seq"
  | EventOrderMismatch => "event_order_mismatch"
  end.

Definition violation_parse (value : string) : res ConformanceError ViolationKind :=
  if decide (value = "expected_abs_mismatch"%string) then Ok ExpectedAbsMismatch
  else if decide (value = "missing_expected_abs_slot"%string) then Ok MissingExpectedAbsSlot
  else if decide (value = "invalid_expected_abs_slot"%string) then Ok InvalidExpectedAbsSlot
  else if decide (value = "unexpected_record"%string) then Ok UnexpectedRecord
  else if decide (value = "duplicate_or_backward_seq"%string) then Ok DuplicateOrBackwardSeq
  else if decide (value = "event_order_mismatch"%string) then Ok EventOrderMismatch
  else Err (ConformanceError_new ("invalid violation kind " +:+ value)).

Record StaleViolation := MkStaleViolation {
  sv_kind : ViolationKind;
  sv_source_id : u32;
  sv_seq : u64;
  sv_expected_abs : u64;
  sv_actual_abs : u64;
  sv_crc_passed : bool;
}.

Definition stale_violation_new (kind : ViolationKind) (read : ReadRecord) (expected_abs actual_abs : u64) : StaleViolation :=
  {| sv_kind := kind; sv_source_id := rec_source_id (rr_record read); sv_seq := rec_seq (rr_record read);
     sv_expected_abs := expected_abs; sv_actual_abs := actual_abs; sv_crc_passed := true |}.

(** ** The oracles *)
Class StaleOracle (O : Type) := {
  observe : ReadRecord → O → res ConformanceError (list StaleViolation * O);
}.

(** The unit struct. *)
Inductive EmbeddedAbsOracle := MkEmbeddedAbsOracle.

Definition expected_abs_slot (expected_abs : u64) : Slot :=
  {| slot_key := KEY_EXPECTED_RECORD_START_ABS; slot_ty := TY_ULINT; slot_payload := to_le_bytes 8 expected_abs |}.

(** [Err] of the source is a violation. *)
Definition expected_record_start_abs (read : ReadRecord) : res StaleViolation u64 :=
  match list_find (λ s, slot_key s = KEY_EXPECTED_RECORD_START_ABS) (rec_slots (rr_record read)) with
  | None => Err (stale_violation_new MissingExpectedAbsSlot read 0 (rr_start_abs read))
  | Some (_, slot) =>
      if decide (slot_ty slot ≠ TY_ULINT ∨ length (slot_payload slot) ≠ 8%nat)
      then Err (stale_violation_new InvalidExpectedAbsSlot read 0 (rr_start_abs read))
      else Ok (from_le_bytes (slot_payload slot))
  end.

Definition embedded_observe (read : ReadRecord) (o : EmbeddedAbsOracle)
  : res ConformanceError (list StaleViolation * EmbeddedAbsOracle) :=
  match expected_record_start_abs read with
  | Ok expected_abs =>
      if decide (rr_start_abs read = expected_abs) then Ok ([], o)
      else Ok ([stale_violation_new ExpectedAbsMismatch read expected_abs (rr_start_abs read)], o)
  | Err violation => Ok ([violation], o)
  | Panic => Panic
  | Diverge => Diverge
  end.
#[global] Instance embedded_oracle : StaleOracle EmbeddedAbsOracle := {| observe := embedded_observe |}.

Record ExpectedRecord := MkExpectedRecord {
  er_run_id : u64;
  er_source_id : u32;
  er_seq : u64;
  er_event_type_id : u32;
  er_encoded_len : usize;
}.

Record RecordKey := MkRecordKey { rk_run_id : u64; rk_source_id : u32; rk_seq : u64; rk_event_type_id : u32 }.
#[global] Instance RecordKey_eq_dec : EqDecision RecordKey.
Proof. solve_decision. Defined.
#[global] Instance RecordKey_countable : Countable RecordKey.
Proof.
  refine (inj_countable' (λ k, (rk_run_id k, rk_source_id k, rk_seq k, rk_event_type_id k))
    (λ '(r, s, q, e), MkRecordKey r s q e) _). by intros [].
Defined.

Definition key_of_expected (r : ExpectedRecord) : RecordKey :=
  {| rk_run_id := er_run_id r; rk_source_id := er_source_id r; rk_seq := er_seq r; rk_event_type_id := er_event_type_id r |}.
Definition key_of_record (r : WireRecord) : RecordKey :=
  {| rk_run_id := rec_run_id r; rk_source_id := rec_source_id r; rk_seq := rec_seq r; rk_event_type_id := rec_event_type_id r |}.
Definition key_of_read (read : ReadRecord) : RecordKey := key_of_record (rr_record read).

Record SidecarExpectedAbsOracle := MkSidecarExpectedAbsOracle {
  so_expected_by_key : gmap RecordKey u64;
  so_last_expected_abs : option u64;
}.

Section oracles.
Context {BP : BuildProfile}.

(** [start_phys + encoded_len] is an addition of [usize]. *)
Definition next_start_abs (capacity : usize) (head_abs : u64) (encoded_len : usize) : res ConformanceError u64 :=
  let start_phys := Z.to_nat (head_abs mod Z.of_nat capacity) in
  if decide (start_phys = 0)%nat then Ok head_abs else
  end_phys ← add64 (Z.of_nat start_phys) (Z.of_nat encoded_len);
  if decide (end_phys ≤ Z.of_nat capacity) then Ok head_abs
  else add64 head_abs (Z.of_nat (capacity - start_phys)).

(** One turn of the loop of [new]. *)
Definition expect_record (capacity : usize) (record : ExpectedRecord) (s : gmap RecordKey u64 * u64)
  : res ConformanceError (gmap RecordKey u64 * u64) :=
  let '(expected_by_key, head_abs) := s in
  if decide (er_encoded_len record = 0)%nat
  then Err (ConformanceError_new "expected record length must be non-zero") else
  if decide (capacity < er_encoded_len record)%nat
  then Err (ConformanceError_new ("expected record length " +:+ dec (Z.of_nat (er_encoded_len record))
              +:+ " exceeds capacity " +:+ dec (Z.of_nat capacity))) else
  expected_abs ← next_start_abs capacity head_abs (er_encoded_len record);
  let key := key_of_expected record in
  if decide (is_Some (expected_by_key !! key))
  then Err (ConformanceError_new ("duplicate expected record run=" +:+ dec (er_run_id record) +:+ " source="
              +:+ dec (er_source_id record) +:+ " seq=" +:+ dec (er_seq record) +:+ " event="
              +:+ dec (er_event_type_id record))) else
  head_abs ← add64 expected_abs (Z.of_nat (er_encoded_len record));
  Ok (<[key := expected_abs]> expected_by_key, head_abs).

Definition sidecar_new (capacity : usize) (records : list ExpectedRecord) : res ConformanceError SidecarExpectedAbsOracle :=
  if decide (capacity = 0)%nat then Err (ConformanceError_new "capacity must be non-zero") else
  '(expected_by_key, _) ← for_each (expect_record capacity) records (∅, 0);
  Ok {| so_expected_by_key := expected_by_key; so_last_expected_abs := None |}.

Definition sidecar_observe (read : ReadRecord) (o : SidecarExpectedAbsOracle)
  : res ConformanceError (list StaleViolation * SidecarExpectedAbsOracle) :=
  match so_expected_by_key o !! key_of_read read with
  | None => Ok ([stale_violation_new UnexpectedRecord read 0 (rr_start_abs read)], o)
  | Some expected_abs =>
      let v1 := if decide (rr_start_abs read ≠ expected_abs)
                then [stale_violation_new ExpectedAbsMismatch read expected_abs (rr_start_abs read)] else [] in
      let v2 := match so_last_expected_abs o with
                | Some last => if decide (expected_abs < last)
                               then [stale_violation_new EventOrderMismatch read expected_abs (rr_start_abs read)] else []
                | None => []
                end in
      Ok (v1 ++ v2, {| so_expected_by_key := so_expected_by_key o; so_last_expected_abs := Some expected_abs |})
  end.
#[global] Instance sidecar_oracle : StaleOracle SidecarExpectedAbsOracle := {| observe := sidecar_observe |}.
End oracles.

(** ** The observer *)
Record BatchObserver (O : Type) := MkBatchObserver {
  bo_oracle : O;
  bo_next_seq_by_source : gmap (u64 * u32) u64;
  bo_seen_records : gset RecordKey;
  bo_violations : list StaleViolation;
}.
Arguments MkBatchObserver {O} _ _ _ _.
Arguments bo_oracle {O} _.
Arguments bo_next_seq_by_source {O} _.
Arguments bo_seen_records {O} _.
Arguments bo_violations {O} _.

Section observer.
Context {BP : BuildProfile} {O : Type} {SO : StaleOracle O}.

Definition observer_new (oracle : O) : BatchObserver O :=
  {| bo_oracle := oracle; bo_next_seq_by_source := ∅; bo_seen_records := ∅; bo_violations := [] |}.

Definition push_violations (o : O) (vs : list StaleViolation) (b : BatchObserver O) : BatchObserver O :=
  {| bo_oracle := o; bo_next_seq_by_source := bo_next_seq_by_source b; bo_seen_records := bo_seen_records b;
     bo_violations := bo_violations b ++ vs |}.

Definition observe_sequence (read : ReadRecord) (b : BatchObserver O) : res ConformanceError (BatchObserver O) :=
  let key := key_of_read read in
  let duplicate := [stale_violation_new DuplicateOrBackwardSeq read 0 (rr_start_abs read)] in
  if decide (key ∈ bo_seen_records b) then Ok (push_violations (bo_oracle b) duplicate b) else
  let seen := {[key]} ∪ bo_seen_records b in
  let source_key := (rec_run_id (rr_record read), rec_source_id (rr_record read)) in
  let expected := default 0 (bo_next_seq_by_source b !! source_key) in
  if decide (rec_seq (rr_record read) < expected) then
    Ok {| bo_oracle := bo_oracle b; bo_next_seq_by_source := bo_next_seq_by_source b; bo_seen_records := seen;
          bo_violations := bo_violations b ++ duplicate |}
  else
    next ← add64 (rec_seq (rr_record read)) 1;
    Ok {| bo_oracle := bo_oracle b; bo_next_seq_by_source := <[source_key := next]> (bo_next_seq_by_source b);
          bo_seen_records := seen; bo_violations := bo_violations b |}.

Definition observe_read (read : ReadRecord) (b : BatchObserver O) : res ConformanceError (BatchObserver O) :=
  '(vs, o) ← observe read (bo_oracle b);
  observe_sequence read (push_violations o vs b).

Definition observe_batch (batch : ReadBatch) (b : BatchObserver O) : res ConformanceError (BatchObserver O) :=
  for_each observe_read (rb_records batch) b.

Definition into_violations (b : BatchObserver O) : list StaleViolation := bo_violations b.
End observer.

(** ** What the ring writes is what the sidecar expects *)

(** The sidecar entry of a record written with its CRC. *)
Definition expected_of (rec : WireRecord) : ExpectedRecord :=
  {| er_run_id := rec_run_id rec; er_source_id := rec_source_id rec; er_seq := rec_seq rec;
     er_event_type_id := rec_event_type_id rec; er_encoded_len := length (enc_record rec true) |}.

Definition source_of (rec : WireRecord) : u64 * u32 := (rec_run_id rec, rec_source_id rec).

(** Sequence numbers of a source increase in write order. *)
Definition source_increasing (rs : list WireRecord) : Prop :=
  StronglySorted (λ a b, source_of a = source_of b → rec_seq a < rec_seq b) rs.
#[global] Instance source_increasing_dec rs : Decision (source_increasing rs).
Proof. unfold source_increasing. apply _. Defined.

Abbreviation ekey e := (key_of_record (en_rec e)).
Abbreviation esource e := (source_of (en_rec e)).
Abbreviation eseq e := (rec_seq (en_rec e)).

Definition marks (es : list Entry) : gmap RecordKey u64 := foldl (λ m e, <[ekey e := en_start e]> m) ∅ es.

Lemma marks_lookup es k x : NoDup ((λ e, ekey e) <$> es) →
  marks es !! k = Some x ↔ ∃ e, e ∈ es ∧ ekey e = k ∧ en_start e = x.
Proof.
  unfold marks. induction es as [|e es IH] using rev_ind; intros Hnd.
  { cbn. rewrite lookup_empty. split; [done|]. intros (e & He & _). by apply elem_of_nil in He. }
  rewrite fmap_app in Hnd. apply NoDup_app in Hnd as (Hnd & Hdis & _). rewrite foldl_snoc. split.
  - intros [[Hk <-]|[Hk Hx]]%lookup_insert_Some.
    + exists e. split_and!; [|done|done]. apply elem_of_app. right. by left.
    + apply IH in Hx as (e' & He & ? & ?); [|done]. exists e'. split_and!; [|done|done]. apply elem_of_app. by left.
  - intros (e' & He & Hk & Hx). apply lookup_insert_Some. apply elem_of_app in He as [He|He%list_elem_of_singleton].
    + right. split; [|apply IH; [done|by exists e']]. intros Heq. apply (Hdis (ekey e')).
      * apply list_elem_of_fmap. by exists e'.
      * apply list_elem_of_fmap. exists e. split; [congruence|by left].
    + subst e'. by left.
Qed.

(** Elements of a sorted list, in order, are a sublist of it. *)
Lemma sorted_sublist {A} (R : A → A → Prop) l : (∀ x, ¬ R x x) → Transitive R → StronglySorted R l →
  ∀ k, StronglySorted R k → (∀ x, x ∈ k → x ∈ l) → k `sublist_of` l.
Proof.
  intros Hirr Htr Hl. induction Hl as [|x l Hl IH Hx]; intros k Hk Hin.
  { destruct k as [|y k]; [constructor|]. specialize (Hin y ltac:(by left)). by apply elem_of_nil in Hin. }
  destruct Hk as [|y k Hk Hy]; [apply sublist_nil_l|].
  assert (Hrest : ∀ z, z ∈ k → R y z) by (by apply Forall_forall).
  destruct (proj1 (elem_of_cons _ _ _) (Hin y ltac:(by left))) as [->|Hy'].
  - constructor. apply IH; [done|]. intros z Hz. specialize (Hin z ltac:(by right)). apply elem_of_cons in Hin as [->|?]; [|done].
    by apply Hirr in Hrest; [|].
  - constructor. apply IH; [by constructor|]. intros z Hz. specialize (Hin z Hz). apply elem_of_cons in Hin as [->|?]; [|done].
    exfalso. rewrite Forall_forall in Hx. apply elem_of_cons in Hz as [<-|Hz]; [by apply (Hirr x), Hx|].
    apply (Hirr x). etrans; [by apply Hx|by apply Hrest].
Qed.

Lemma source_keys rs : source_increasing rs → NoDup (key_of_record <$> rs).
Proof.
  induction 1 as [|x l Hl IH Hx]; [constructor|]. rewrite fmap_cons. constructor; [|done].
  intros (y & Hk & Hy)%list_elem_of_fmap. rewrite Forall_forall in Hx. specialize (Hx y Hy).
  unfold key_of_record, source_of in *. injection Hk as H1 H2 H3 _. rewrite H1, H2 in Hx. specialize (Hx eq_refl). lia.
Qed.

Section exact.
Context {BP : BuildProfile} (cap : nat) (Hcap : (0 < cap)%nat).
#[local] Existing Instance owned_sequenced.

Lemma key_next_start head len : (len ≤ cap)%nat → 0 ≤ head → head + Z.of_nat cap < 2 ^ 64 → Z.of_nat cap + Z.of_nat len < 2 ^ 64 →
  next_start_abs cap head len = Ok (place cap head len).
Proof.
  intros Hl H0 Hh Hc. unfold next_start_abs, place. change (Z.to_nat (head mod Z.of_nat cap)) with (phys cap head).
  pose proof (phys_lt cap Hcap head). destruct (decide (phys cap head = 0)%nat) as [Hz|Hz].
  { rewrite decide_True by (by left). done. }
  rewrite (add_w_ok _ (Z.of_nat (phys cap head))), ok_bind by lia. destruct (decide (phys cap head + len ≤ cap)%nat).
  - rewrite decide_True, decide_True by (lia || by right). done.
  - rewrite decide_False, decide_False by lia. apply add_w_ok. lia.
Qed.

Lemma log_recs rs : rs_ok cap rs → en_rec <$> ab_log (abs_of cap rs) = rs.
Proof.
  induction rs as [|rec rs IH] using rev_ind; [done|]. intros Hok.
  assert (Hok' : rs_ok cap rs) by (eapply rs_ok_prefix; [exact Hcap| |exact Hok]; by apply prefix_app_r).
  destruct (history_ring cap Hcap _ Hok') as (r & _ & Hrep & _). by rewrite abs_of_snoc, (log_write r), fmap_app, IH.
Qed.

(** The offsets the sidecar computes are those of the ring's log. *)
Lemma expected_log rs : rs_ok cap rs → NoDup (key_of_record <$> rs) →
  for_each (expect_record cap) (expected_of <$> rs) (∅, 0)
  = Ok (marks (ab_log (abs_of cap rs)), ab_head (abs_of cap rs)).
Proof.
  induction rs as [|rec rs IH] using rev_ind; intros Hok Hnd; [done|].
  assert (Hok' : rs_ok cap rs) by (eapply rs_ok_prefix; [exact Hcap| |exact Hok]; by apply prefix_app_r).
  rewrite fmap_app in Hnd. pose proof (NoDup_app (key_of_record <$> rs) (key_of_record <$> [rec])) as [Hnd' _].
  destruct (Hnd' Hnd) as (Hnd1 & Hdis & _). rewrite fmap_app, for_each_app, IH, ok_bind by done. cbn [fmap list_fmap for_each].
  destruct (history_ring cap Hcap _ Hok') as (r & _ & Hrep & _ & Hh).
  destruct Hok as [Hf Hroom]. rewrite length_app in Hroom. cbn [length] in Hroom. apply Forall_app in Hf as [_ Hf].
  apply Forall_cons_1 in Hf as [[Hw Hlen] _]. pose proof (rep_window _ _ Hrep) as Hwin.
  pose proof (layout_bounds _ _ _ _ (rep_layout _ _ Hrep)) as [Hoh _].
  destruct (en_len_bounds {| en_start := 0; en_rec := rec |}) as [H44 _]; [apply Hw|]. unfold en_len, en_bytes in H44. cbn [en_rec] in H44.
  unfold expect_record. cbn [er_encoded_len expected_of]. rewrite !decide_False by lia.
  rewrite key_next_start, ok_bind by (done || nia).
  change (key_of_expected (expected_of rec)) with (key_of_record rec).
  assert (Hnone : marks (ab_log (abs_of cap rs)) !! key_of_record rec = None).
  { destruct (_ !! _) as [x|] eqn:Hx; [|done]. apply marks_lookup in Hx as (e & He & Hk & _).
    - exfalso. apply (Hdis (key_of_record rec)); [|by left]. rewrite <-(log_recs rs Hok'), <-Hk, <-list_fmap_compose.
      apply list_elem_of_fmap. by exists e.
    - rewrite <-(log_recs rs Hok') in Hnd1. by rewrite <-list_fmap_compose in Hnd1. }
  rewrite decide_False by (rewrite Hnone; by intros []).
  rewrite add_w_ok; [|destruct (place_spec cap Hcap (ab_head (abs_of cap rs)) _ Hlen) as (Hs & _); nia].
  cbn [mbind res_bind]. rewrite abs_of_snoc, (log_write r _ _ Hrep). unfold marks. rewrite foldl_snoc.
  change (ab_head (abs_write ?a rec)) with (en_end (placed a rec)).
  unfold en_end, en_len, en_bytes, placed. rewrite abs_of_cap. done.
Qed.
End exact.

(** ** The observer decides whether the reads are a part of the log *)

(** A read of an entry: its key at its offset. *)
Definition read_of (r : ReadRecord) (e : Entry) : Prop := key_of_read r = ekey e ∧ rr_start_abs r = en_start e.

(** What an observer remembers of the entries it has read. *)
Record tracked {O} (es : list Entry) (b : BatchObserver O) : Prop := {
  tr_seen k : k ∈ bo_seen_records b ↔ k ∈ (λ e, ekey e) <$> es;
  tr_next src q : 0 ≤ q → default 0 (bo_next_seq_by_source b !! src) ≤ q ↔ Forall (λ e, esource e = src → eseq e < q) es;
}.
Arguments tr_seen {O es b} _.
Arguments tr_next {O es b} _.

Lemma tracked_new {O} (o : O) : tracked [] (observer_new o).
Proof.
  split; [intros k; cbn; rewrite elem_of_nil; set_solver|]. intros src q H0. cbn. by rewrite lookup_empty.
Qed.

(** A later entry of its source, not read before, adds no violation. *)
Lemma observe_sequence_next {BP : BuildProfile} {O} es e r (o : O) vs b :
  tracked es b → read_of r e → 0 ≤ eseq e < U64_MAX → ekey e ∉ (λ e, ekey e) <$> es →
  Forall (λ x, esource x = esource e → eseq x < eseq e) es →
  ∃ b', observe_sequence r (push_violations o vs b) = Ok b' ∧ tracked (es ++ [e]) b'
    ∧ bo_violations b' = bo_violations b ++ vs ∧ bo_oracle b' = o.
Proof.
  intros [Hseen Hnext] [Hk Hst] Hq Hnew Hle.
  assert (Hkey : (rec_run_id (rr_record r), rec_source_id (rr_record r)) = esource e ∧ rec_seq (rr_record r) = eseq e).
  { unfold key_of_read, key_of_record in Hk. injection Hk as H1 H2 H3 _. unfold source_of. by rewrite H1, H2. }
  destruct Hkey as [Hsk Hsq]. pose proof (Hnext (esource e) (eseq e) ltac:(lia)) as Hn. apply Hn in Hle.
  unfold observe_sequence. cbn [push_violations bo_seen_records bo_oracle bo_next_seq_by_source bo_violations].
  rewrite Hsk, Hsq, decide_False, decide_False by (lia || by rewrite Hk, Hseen).
  rewrite add_w_ok, ok_bind by (unfold U64_MAX in Hq; lia). eexists. split; [done|]. split; [|done].
  split; cbn [bo_seen_records bo_next_seq_by_source].
  - intros k. rewrite elem_of_union, elem_of_singleton, Hseen, fmap_app, elem_of_app, Hk. cbn. rewrite list_elem_of_singleton. tauto.
  - intros src q H0. rewrite Forall_app, Forall_singleton. destruct (decide (src = esource e)) as [->|Hne].
    + rewrite lookup_insert_eq. rewrite <-(Hnext (esource e) q H0).
      change (default 0 (Some (eseq e + 1))) with (eseq e + 1).
      generalize dependent (default 0 (bo_next_seq_by_source b !! esource e)). intros d Hn Hd.
      split; [intros; split; [lia|intros; lia]|intros [_ Hlt]; specialize (Hlt eq_refl); lia].
    + rewrite lookup_insert_ne by done. rewrite (Hnext src q H0). split; [intros; split; [done|congruence]|by intros [? _]].
Qed.

Section log.
Context {BP : BuildProfile} (L : list Entry).
Context (Hord : ordered L) (Hsrc : StronglySorted (λ x y, esource x = esource y → eseq x < eseq y) L).

Lemma keys_nodup l : StronglySorted (λ x y, esource x = esource y → eseq x < eseq y) l → NoDup ((λ e, ekey e) <$> l).
Proof.
  induction 1 as [|x l Hl IH Hx]; [constructor|]. rewrite fmap_cons. constructor; [|done].
  intros (y & Hk & Hy)%list_elem_of_fmap. rewrite Forall_forall in Hx. specialize (Hx y Hy).
  unfold key_of_record, source_of in *. injection Hk as H1 H2 H3 _. rewrite H1, H2 in Hx. specialize (Hx eq_refl). lia.
Qed.
Lemma log_keys : NoDup ((λ e, ekey e) <$> L).
Proof. by apply keys_nodup. Qed.

Lemma key_entry e e' : e ∈ L → e' ∈ L → ekey e = ekey e' → e = e'.
Proof.
  intros He He' Hk. pose proof log_keys as Hnd. apply list_elem_of_split in He as (l1 & l2 & HL). rewrite HL in Hnd, He'.
  rewrite fmap_app, fmap_cons in Hnd. apply NoDup_app in Hnd as (_ & Hd & Hnd). apply NoDup_cons in Hnd as [Hn _].
  apply elem_of_app in He' as [He'|[->|He']%elem_of_cons]; [|done|].
  - exfalso. apply (Hd (ekey e')); [by apply (list_elem_of_fmap_2 (λ e, ekey e))|rewrite <-Hk; by left].
  - exfalso. apply Hn. rewrite Hk. by apply (list_elem_of_fmap_2 (λ e, ekey e)).
Qed.

Definition before (x y : Entry) : Prop := en_start x < en_start y.
Lemma log_before : StronglySorted before L.
Proof.
  destruct Hord as [Hs Hp]. clear Hsrc. induction Hs as [|x l Hl IH Hx]; [constructor|]. apply Forall_cons_1 in Hp as [Hpx Hp].
  constructor; [apply IH; [by split|done]|]. eapply Forall_impl; [exact Hx|]. unfold before. simpl. lia.
Qed.

Lemma sublist_sorted {A} (R : A → A → Prop) l k : StronglySorted R l → k `sublist_of` l → StronglySorted R k.
Proof.
  intros Hl Hk. induction Hk as [|x k l Hk IH|x k l Hk IH]; [constructor|inversion Hl; subst|inversion Hl; subst; auto].
  constructor; [auto|]. apply Forall_forall. intros y Hy. eapply elem_of_sublist in Hy; [|exact Hk].
  match goal with H : Forall _ l |- _ => rewrite Forall_forall in H; by apply H end.
Qed.

Lemma sorted_last {A} (R : A → A → Prop) k x : StronglySorted R (k ++ [x]) → Forall (λ y, R y x) k.
Proof.
  induction k as [|y k IH]; intros Hs; [constructor|]. inversion Hs as [|? ? Hk Hy]; subst. constructor; [|by apply IH].
  rewrite Forall_forall in Hy. apply Hy. apply elem_of_app. right. by left.
Qed.

Record clean (es : list Entry) (b : BatchObserver SidecarExpectedAbsOracle) : Prop := {
  cl_violations : bo_violations b = [];
  cl_expected : so_expected_by_key (bo_oracle b) = marks L;
  cl_last : so_last_expected_abs (bo_oracle b) = en_start <$> last es;
  cl_tracked : tracked es b;
  cl_sublist : es `sublist_of` L;
}.

(** An entry that may come after [es]. *)
Definition follows (es : list Entry) (r : ReadRecord) : Prop := ∃ e, es ++ [e] `sublist_of` L ∧ read_of r e.

Lemma extend es e : es `sublist_of` L → e ∈ L → (∀ x, last es = Some x → en_start x ≤ en_start e) → e ∉ es → es ++ [e] `sublist_of` L.
Proof.
  intros Hs He Hlast Hnin. pose proof (sublist_sorted _ _ _ log_before Hs) as Hes.
  assert (Hlt : Forall (λ y, before y e) es).
  { apply Forall_forall. intros y Hy. assert (Hle : en_start y ≤ en_start e).
    { destruct (last es) as [x|] eqn:Hx.
      - specialize (Hlast x eq_refl). apply last_Some in Hx as (k & ->). apply elem_of_app in Hy as [Hy|Hy].
        + pose proof (sorted_last _ _ _ Hes) as Hf. rewrite Forall_forall in Hf. specialize (Hf y Hy). unfold before in Hf. lia.
        + apply list_elem_of_singleton in Hy as ->. done.
      - apply last_None in Hx as ->. by apply elem_of_nil in Hy. }
    destruct (decide (en_start y = en_start e)) as [Heq|Hne]; [|unfold before; lia]. exfalso. apply Hnin.
    assert (HyL : y ∈ L) by (by eapply elem_of_sublist). apply list_elem_of_split in HyL as (l1 & l2 & HL).
    pose proof log_before as Hb. rewrite HL in He, Hb. apply elem_of_app in He as [He|[->|He]%elem_of_cons]; [|done|].
    - exfalso. rewrite cons_middle, app_assoc in Hb. eapply sublist_sorted in Hb; [|apply (sublist_inserts_r l2); reflexivity].
      apply sorted_last in Hb. rewrite Forall_forall in Hb. specialize (Hb e He). unfold before in Hb. lia.
    - exfalso. eapply sublist_sorted in Hb; [|apply (sublist_inserts_l l1); reflexivity]. inversion Hb as [|? ? _ Hf]; subst.
      rewrite Forall_forall in Hf. specialize (Hf e He). unfold before in Hf. lia. }
  eapply (sorted_sublist before); [unfold before; lia|intros ???; unfold before; lia|apply log_before| |].
  - clear -Hes Hlt. induction Hes as [|x k Hk IH Hx]; [repeat constructor|]. apply Forall_cons_1 in Hlt as [Hxe Hlt].
    cbn [app]. constructor; [by apply IH|]. apply Forall_app. by repeat constructor.
  - intros x [Hx|Hx%list_elem_of_singleton]%elem_of_app; [by eapply elem_of_sublist|by subst].
Qed.
(** A violation stays. *)
Lemma observe_dirty r b : bo_violations b ≠ [] → rec_seq (rr_record r) < U64_MAX →
  ∃ b', observe_read r b = Ok b' ∧ bo_violations b' ≠ [].
Proof.
  intros Hv Hq. assert (Happ : ∀ vs, bo_violations b ++ vs ≠ []) by (intros vs; by destruct (bo_violations b)).
  assert (Hobs : ∃ vs o, observe r (bo_oracle b) = Ok (vs, o)).
  { cbn [observe sidecar_oracle]. unfold sidecar_observe. destruct (_ !! _); by do 2 eexists. }
  destruct Hobs as (vs & o & Hobs). unfold observe_read. rewrite Hobs, ok_bind. unfold observe_sequence.
  cbn [push_violations bo_seen_records bo_oracle bo_next_seq_by_source bo_violations].
  case_decide; [eexists; split; [done|]; cbn [push_violations bo_violations]; rewrite <-app_assoc; apply Happ|].
  case_decide; [eexists; split; [done|]; cbn [bo_violations]; rewrite <-app_assoc; apply Happ|].
  rewrite add_w_ok, ok_bind by (unfold U64_MAX in Hq; lia). eexists. split; [done|]. apply Happ.
Qed.

(** One read: clean exactly when some entry may come next and is read. *)
Lemma observe_clean es r b : clean es b → 0 ≤ rec_seq (rr_record r) < U64_MAX →
  ∃ b', observe_read r b = Ok b' ∧
    ((∃ e, read_of r e ∧ clean (es ++ [e]) b') ∨ bo_violations b' ≠ [] ∧ ¬ follows es r).
Proof.
  intros [Hv He Hl Htr Hsub] Hq. unfold observe_read. cbn [observe sidecar_oracle]. unfold sidecar_observe. rewrite He.
  assert (Hdirty : ∀ vs o, vs ≠ [] → ¬ follows es r →
    ∃ b', observe_sequence r (push_violations o vs b) = Ok b' ∧
    ((∃ e, read_of r e ∧ clean (es ++ [e]) b') ∨ bo_violations b' ≠ [] ∧ ¬ follows es r)).
  { intros vs o Hvs Hnf. unfold observe_sequence. cbn [push_violations bo_seen_records bo_oracle bo_next_seq_by_source bo_violations].
    assert (Hne : ∀ ws, (bo_violations b ++ vs) ++ ws ≠ []) by (intros ws; rewrite Hv; by destruct vs).
    case_decide; [eexists; split; [done|]; right; split; [apply Hne|done]|].
    case_decide; [eexists; split; [done|]; right; split; [apply Hne|done]|].
    rewrite add_w_ok, ok_bind by (unfold U64_MAX in Hq; lia). eexists. split; [done|]. right.
    split; [cbn [bo_violations]; rewrite <-(app_nil_r (_ ++ vs)); apply Hne|done]. }
  destruct (marks L !! key_of_read r) as [x|] eqn:Hx.
  2: { rewrite ok_bind. apply Hdirty; [done|]. intros (e & Hs & Hk & _). rewrite Hk in Hx.
    assert (Hin : e ∈ L) by (eapply elem_of_sublist; [|exact Hs]; apply elem_of_app; right; by left).
    assert (Hsome : marks L !! ekey e = Some (en_start e)) by (apply marks_lookup; [apply log_keys|by exists e]). congruence. }
  apply marks_lookup in Hx as (e & Hin & Hk & Hst); [|apply log_keys]. symmetry in Hk. rewrite ok_bind.
  assert (Hfol : follows es r → es ++ [e] `sublist_of` L ∧ rr_start_abs r = x).
  { intros (e' & Hs & Hk' & Hst'). assert (e' = e) as ->; [|by rewrite <-Hst].
    apply key_entry; [|done|congruence]. eapply elem_of_sublist; [|exact Hs]. apply elem_of_app. right. by left. }
  destruct (decide (rr_start_abs r = x)) as [Hrx|Hrx].
  2: { apply Hdirty; [by rewrite decide_True|]. intros [_ ?]%Hfol. done. }
  rewrite (decide_False (P := rr_start_abs r ≠ x)) by tauto. cbn [app].
  assert (Hlast : (∀ y, last es = Some y → en_start y ≤ en_start e) ∨ ¬ follows es r ∧
    match so_last_expected_abs (bo_oracle b) with Some last => if decide (x < last) then [stale_violation_new EventOrderMismatch r x (rr_start_abs r)] else [] | None => [] end ≠ []).
  { rewrite Hl. destruct (last es) as [y|] eqn:Hy; [|left; by intros]. cbn [fmap option_fmap option_map].
    destruct (decide (x < en_start y)) as [Hlt|Hge]; [right|left; intros ? [= <-]; lia]. split; [|done].
    intros [Hs _]%Hfol. pose proof (sublist_sorted _ _ _ log_before Hs) as Hb. apply sorted_last in Hb.
    apply last_Some in Hy as (k & ->). apply Forall_app in Hb as [_ Hb]. apply Forall_cons_1 in Hb as [Hb _]. unfold before in Hb. lia. }
  destruct Hlast as [Hlast|[Hnf Hne]]; [|by apply Hdirty].
  assert (Hv2 : match so_last_expected_abs (bo_oracle b) with Some last => if decide (x < last) then [stale_violation_new EventOrderMismatch r x (rr_start_abs r)] else [] | None => [] end = []).
  { rewrite Hl. destruct (last es) as [y|]; [|done]. cbn [fmap option_fmap option_map]. specialize (Hlast y eq_refl). by rewrite decide_False by lia. }
  rewrite Hv2. destruct (decide (key_of_read r ∈ bo_seen_records b)) as [Hd|Hd].
  { unfold observe_sequence. cbn [push_violations bo_seen_records bo_oracle bo_next_seq_by_source bo_violations]. rewrite decide_True by done.
    eexists. split; [done|right]. split; [cbn [push_violations bo_violations]; by rewrite Hv|]. intros [Hs _]%Hfol. apply (tr_seen Htr) in Hd. rewrite Hk in Hd.
    pose proof (sublist_sorted _ _ _ Hsrc Hs) as Hss. apply keys_nodup in Hss. rewrite fmap_app in Hss.
    apply NoDup_app in Hss as (_ & Hdis & _). apply (Hdis _ Hd). by left. }
  assert (Hkey : (rec_run_id (rr_record r), rec_source_id (rr_record r)) = esource e ∧ rec_seq (rr_record r) = eseq e).
  { unfold key_of_read, key_of_record in Hk. injection Hk as H1 H2 H3 _. unfold source_of. by rewrite H1, H2. }
  destruct Hkey as [Hsk Hsq]. rewrite Hsq in Hq. pose proof (tr_next Htr (esource e) (eseq e) ltac:(lia)) as Hn.
  destruct (decide (eseq e < default 0 (bo_next_seq_by_source b !! esource e))) as [Hlt|Hge].
  { unfold observe_sequence. cbn [push_violations bo_seen_records bo_oracle bo_next_seq_by_source bo_violations].
    rewrite Hsk, Hsq, decide_False, decide_True by done. eexists. split; [done|right]. split; [cbn [bo_violations]; by rewrite ?Hv|]. intros [Hs _]%Hfol.
    pose proof (sublist_sorted _ _ _ Hsrc Hs) as Hss. apply sorted_last in Hss. apply Hn in Hss. lia. }
  rewrite (tr_seen Htr), Hk in Hd.
  destruct (observe_sequence_next es e r {| so_expected_by_key := marks L; so_last_expected_abs := Some x |} [] b)
    as (b' & -> & Htr' & Hvs & Ho); [done|by split; [|congruence]|done|done|apply Hn; lia|].
  exists b'. split; [done|left]. exists e. split; [by split; [|congruence]|].
  assert (Hnin : e ∉ es). { intros Hin'. apply Hd. by apply (list_elem_of_fmap_2 (λ e, ekey e)). }
  split; [by rewrite Hvs, Hv|by rewrite Ho|by rewrite Ho, last_snoc, <-Hst|done|by apply extend].
Qed.

(** All the reads. *)
Lemma observe_all reads : ∀ es b, clean es b → Forall (λ r, 0 ≤ rec_seq (rr_record r) < U64_MAX) reads →
  ∃ b', for_each observe_read reads b = Ok b' ∧
    (bo_violations b' = [] ↔ ∃ es', Forall2 read_of reads es' ∧ es ++ es' `sublist_of` L).
Proof.
  induction reads as [|r reads IH]; intros es b Hc Hf.
  { exists b. split; [done|]. rewrite (cl_violations _ _ Hc). split; [|done]. intros _. exists [].
    split; [constructor|]. rewrite app_nil_r. apply Hc. }
  apply Forall_cons_1 in Hf as [Hq Hf]. cbn [for_each].
  destruct (observe_clean es r b Hc Hq) as (b1 & -> & [(e & Hre & Hc1)|[Hd Hnf]]); cbn [mbind res_bind].
  - destruct (IH _ _ Hc1 Hf) as (b' & Hb' & Hiff). exists b'. split; [done|]. rewrite Hiff. split.
    + intros (es' & H2 & Hs). exists (e :: es'). split; [by constructor|]. by rewrite <-app_assoc in Hs.
    + intros (es' & H2 & Hs). inversion H2 as [|? e' ? es2 Hre' H2']; subst. exists es2. split; [done|].
      assert (e' = e) as ->; [|by rewrite <-app_assoc].
      assert (HeL : e ∈ L).
      { eapply elem_of_sublist; [|exact (cl_sublist _ _ Hc1)]. apply elem_of_app. right. by left. }
      apply key_entry; [|done|destruct Hre, Hre'; congruence]. eapply elem_of_sublist; [|exact Hs].
      apply elem_of_app. right. by left.
  - assert (Hdirty : ∀ rs b1, Forall (λ r, 0 ≤ rec_seq (rr_record r) < U64_MAX) rs → bo_violations b1 ≠ [] →
      ∃ b', for_each observe_read rs b1 = Ok b' ∧ bo_violations b' ≠ []).
    { clear. induction rs as [|r rs IH]; intros b1 Hf Hv; [by exists b1|]. apply Forall_cons_1 in Hf as [Hq Hf].
      destruct (observe_dirty r b1 Hv ltac:(lia)) as (b2 & Hb2 & Hv2). cbn [for_each]. rewrite Hb2, ok_bind. by apply IH. }
    destruct (Hdirty reads b1 Hf Hd) as (b' & Hb' & Hv'). exists b'. split; [done|]. split; [done|].
    intros (es' & H2 & Hs). exfalso. inversion H2 as [|? e ? es2 Hre _]; subst. apply Hnf. exists e. split; [|done].
    etrans; [|exact Hs]. replace (es ++ e :: es2) with ((es ++ [e]) ++ es2) by (by rewrite <-app_assoc). by apply sublist_inserts_r.
Qed.
End log.

(** ** Properties *)

Lemma log_increasing {BP : BuildProfile} cap rs : (0 < cap)%nat → rs_ok cap rs → source_increasing rs →
  StronglySorted (λ x y, esource x = esource y → eseq x < eseq y) (ab_log (abs_of cap rs)).
Proof.
  intros Hcap Hok Hs. rewrite <-(log_recs cap Hcap rs Hok) in Hs. revert Hs. generalize (ab_log (abs_of cap rs)). intros l.
  unfold source_increasing. induction l as [|e l IH]; intros Hs; [constructor|]. rewrite fmap_cons in Hs.
  inversion Hs as [|? ? Hl Hx]; subst. constructor; [by apply IH|]. rewrite Forall_fmap in Hx. exact Hx.
Qed.

Lemma for_each_batches {BP : BuildProfile} {O} {SO : StaleOracle O} batches : ∀ b : BatchObserver O,
  for_each observe_batch batches b = for_each observe_read (batches ≫= rb_records) b.
Proof.
  induction batches as [|ba batches IH]; intros b; [done|]. cbn [for_each mbind list_bind]. rewrite for_each_app.
  change (for_each observe_read (rb_records ba) b) with (observe_batch ba b). destruct (observe_batch ba b); cbn [mbind res_bind]; [apply IH|reflexivity..].
Qed.

(** What both properties say of a new sidecar observer. *)
Lemma sidecar_observes {BP : BuildProfile} cap rs batches :
  (0 < cap)%nat → rs_ok cap rs → source_increasing rs →
  Forall (λ r, 0 ≤ rec_seq (rr_record r) < U64_MAX) (batches ≫= rb_records) →
  ∃ o b, sidecar_new cap (expected_of <$> rs) = Ok o ∧ for_each observe_batch batches (observer_new o) = Ok b ∧
    (into_violations b = [] ↔
     ∃ es, Forall2 read_of (batches ≫= rb_records) es ∧ es `sublist_of` ab_log (abs_of cap rs)).
Proof.
  intros Hcap Hok Hs Hf. unfold sidecar_new. rewrite decide_False by lia.
  rewrite (expected_log cap Hcap rs Hok) by by apply source_keys. rewrite ok_bind. eexists. rewrite for_each_batches.
  pose proof (log_ordered (SQ:=owned_sequenced) cap Hcap rs Hok) as Hord.
  pose proof (log_increasing cap rs Hcap Hok Hs) as Hinc.
  destruct (observe_all (ab_log (abs_of cap rs)) Hord Hinc (batches ≫= rb_records) []
    (observer_new {| so_expected_by_key := marks (ab_log (abs_of cap rs)); so_last_expected_abs := None |}))
    as (b & Hb & Hiff); [|done|by exists b].
  split; cbn; [done|done|done|apply tracked_new|apply sublist_nil_l].
Qed.

(** C12: the sidecar observer is exact on what it looks at, the key of a delivered
    record (run, source, sequence number, event type) and the offset it starts
    at; it does not compare times or slots. Given the records a producer wrote,
    in write order and with sequence numbers that increase within each source,
    it predicts where the ring puts each of them, never fails on delivered
    records numbered below [u64::MAX], and reports no violation exactly when the
    keys and offsets delivered are, in order and without repetition, those of
    records of the log. *)
Theorem observer_exact {BP : BuildProfile} cap rs batches :
  (0 < cap)%nat → rs_ok cap rs → source_increasing rs →
  Forall (λ r, 0 ≤ rec_seq (rr_record r) < U64_MAX) (batches ≫= rb_records) →
  ∃ o b, sidecar_new cap (expected_of <$> rs) = Ok o ∧ for_each observe_batch batches (observer_new o) = Ok b ∧
    (into_violations b = [] ↔
     ∃ es, (λ r, (key_of_read r, rr_start_abs r)) <$> (batches ≫= rb_records) = (λ e, (key_of_record (en_rec e), en_start e)) <$> es
           ∧ es `sublist_of` ab_log (abs_of cap rs)).
Proof.
  intros Hcap Hok Hs Hf. destruct (sidecar_observes cap rs batches Hcap Hok Hs Hf) as (o & b & Ho & Hb & Hiff).
  exists o, b. split_and!; [done|done|]. rewrite Hiff. apply exist_proper. intros es.
  assert (H2 : Forall2 read_of (batches ≫= rb_records) es
    ↔ (λ r, (key_of_read r, rr_start_abs r)) <$> (batches ≫= rb_records) = (λ e, (key_of_record (en_rec e), en_start e)) <$> es); [|by rewrite H2].
  generalize (batches ≫= rb_records). clear. intros reads. split.
  - induction 1 as [|r e reads es [Hk Hst] _ IH]; [done|]. rewrite !fmap_cons, IH. by rewrite Hk, Hst.
  - revert es. induction reads as [|r reads IH]; intros [|e es] Heq; try done. rewrite !fmap_cons in Heq.
    pose proof (f_equal (λ l, l !! 0%nat) Heq) as H1. pose proof (f_equal tail Heq) as H2. cbn in H1, H2.
    apply (inj Some), pair_eq in H1. constructor; [exact H1|]. by apply IH.
Qed.

(** The batches of the polls that did not fail. *)
Definition polled_batches {S} (s : sys S) : list ReadBatch :=
  omap (λ p, match po_result p with inl b => Some b | inr _ => None end) (sy_polls s).

Lemma polled_delivered {S} (s : sys S) : polled_batches s ≫= rb_records = delivered s.
Proof.
  unfold polled_batches, delivered. induction (sy_polls s) as [|p ps IH]; [done|]. cbn [omap list_omap mbind list_bind].
  destruct (po_result p); cbn [mbind list_bind]; by rewrite <-IH.
Qed.

(** C11: no false alarms: over any lawful store, whatever the interleaving of
    producer and consumer, and under either memory model the store's snapshots
    allow, the sidecar observer that is given the producer's records, numbered
    increasingly within each source, reports nothing on what the polls
    delivered. *)
Theorem concurrent_run_clean {BP : BuildProfile} {S} {CS : ConcurrentStore S} {SQ : Sequenced} {SL : StoreLaws S}
    strong {SN : SnapshotLaws S strong} (store : S) moves s :
  lawful store → schedule_ok (cs_capacity store) moves → run strong moves (sys_new store) = Some s →
  source_increasing (accepted (cs_capacity store) (calls moves)) →
  ∃ o b, sidecar_new (cs_capacity store) (expected_of <$> accepted (cs_capacity store) (calls moves)) = Ok o
    ∧ for_each observe_batch (polled_batches s) (observer_new o) = Ok b ∧ into_violations b = [].
Proof.
  intros Hlaw Hs Hrun Hinc. destruct (delivery strong store moves s Hlaw Hs Hrun) as (_ & Hlog & es & Hd & Hsub).
  pose proof (sched_rs_ok store moves Hs) as Hok. pose proof Hs as (Hcap & _).
  destruct (sidecar_observes (cs_capacity store) _ (polled_batches s) Hcap Hok Hinc) as (o & b & Ho & Hb & Hiff).
  - rewrite polled_delivered, Hd. apply Forall_fmap, Forall_forall. intros e He. eapply elem_of_sublist in He; [|exact Hsub].
    pose proof (log_recs _ Hcap _ Hok) as Hr. destruct Hok as [Hf _]. rewrite <-Hr in Hf. rewrite Forall_fmap, Forall_forall in Hf.
    specialize (Hf e He) as [[[Hwf _] Hseq] _]. cbn. split; [|exact Hseq]. apply Hwf.
  - exists o, b. split_and!; [done|done|]. apply Hiff. exists es. rewrite polled_delivered, Hd. split; [|exact Hsub].
    clear. induction es as [|e es IH]; [constructor|]. rewrite fmap_cons. by constructor.
Qed.

(** The embedded oracle is exact: it never fails, reports at most one
    violation, and reports none exactly when the first slot with its key is the
    slot the harness writes for the offset at which the record was found. *)
Theorem embedded_exact read (o : EmbeddedAbsOracle) :
  is_u64 (rr_start_abs read) → Forall (λ s, bytes_ok (slot_payload s)) (rec_slots (rr_record read)) →
  ∃ vs, observe read o = Ok (vs, o) ∧ (length vs ≤ 1)%nat ∧
    (vs = [] ↔ ∃ pre post, rec_slots (rr_record read) = pre ++ expected_abs_slot (rr_start_abs read) :: post
                           ∧ Forall (λ s, slot_key s ≠ KEY_EXPECTED_RECORD_START_ABS) pre).
Proof.
  intros Hst Hok. cbn [observe embedded_oracle]. unfold embedded_observe, expected_record_start_abs.
  destruct (list_find (λ s, slot_key s = KEY_EXPECTED_RECORD_START_ABS) (rec_slots (rr_record read))) as [[i slot]|] eqn:Hfind.
  - apply list_find_Some in Hfind as (Hi & Hk & Hpre).
    assert (Hslots : ∀ pre s post, rec_slots (rr_record read) = pre ++ s :: post → slot_key s = KEY_EXPECTED_RECORD_START_ABS →
      Forall (λ s, slot_key s ≠ KEY_EXPECTED_RECORD_START_ABS) pre → s = slot).
    { intros pre s post Heq Hks Hp. rewrite Heq in Hi, Hpre. destruct (decide (i < length pre)%nat) as [Hlt|Hge].
      - rewrite lookup_app_l in Hi by done. exfalso. rewrite Forall_lookup in Hp. by apply (Hp i slot).
      - destruct (decide (i = length pre)) as [->|Hne]; [rewrite list_lookup_middle in Hi by done; by injection Hi|].
        exfalso. apply (Hpre (length pre) s); [by rewrite list_lookup_middle|lia|done]. }
    case_decide as Hbad.
    + eexists. split_and!; [done|cbn; lia|]. split; [done|]. intros (pre & post & Heq & Hp). exfalso.
      assert (Hsl : expected_abs_slot (rr_start_abs read) = slot) by (by eapply Hslots). rewrite <-Hsl in Hbad.
      cbn [slot_ty slot_payload expected_abs_slot] in Hbad. rewrite length_to_le_bytes in Hbad. naive_solver.
    + assert (Hty : slot_ty slot = TY_ULINT) by (destruct (decide (slot_ty slot = TY_ULINT)); [done|tauto]).
      assert (Hlen : length (slot_payload slot) = 8%nat) by (destruct (decide (length (slot_payload slot) = 8%nat)); [done|tauto]).
      case_decide as Heq.
      * eexists. split_and!; [done|cbn; lia|]. split; [intros _|done].
        exists (take i (rec_slots (rr_record read))), (drop (Datatypes.S i) (rec_slots (rr_record read))).
        assert (Hsl : expected_abs_slot (rr_start_abs read) = slot).
        { rewrite Heq. destruct slot as [k ty pl]. cbn in *. subst. unfold expected_abs_slot. f_equal.
          rewrite <-Hlen. apply to_from_le_bytes. rewrite Forall_lookup in Hok. apply (Hok _ _ Hi). }
        rewrite Hsl. split; [symmetry; by apply take_drop_middle|]. apply Forall_lookup. intros j s Hj.
        rewrite lookup_take_Some in Hj. destruct Hj as [Hj ?]. by apply (Hpre j s).
      * eexists. split_and!; [done|cbn; lia|]. split; [done|]. intros (pre & post & Heq' & Hp). exfalso.
        assert (Hsl : expected_abs_slot (rr_start_abs read) = slot) by (by eapply Hslots). apply Heq. rewrite <-Hsl.
        cbn [slot_payload expected_abs_slot]. symmetry. by apply (from_to_le_bytes 8).
  - apply list_find_None in Hfind. eexists. split_and!; [done|cbn; lia|]. split; [done|]. intros (pre & post & Heq & _). exfalso.
    rewrite Heq in Hfind. apply Forall_app in Hfind as [_ Hf]. apply Forall_cons_1 in Hf as [Hf _]. by apply Hf.
Qed.

(** ** Witnesses *)
Definition demo_log : list WireRecord := [demo_record 0; demo_record 1; demo_record 2].
Definition demo_batch (rs : list ReadRecord) : ReadBatch := {| rb_records := rs; rb_next_abs := 144; rb_lapped := false |}.
(** The second and the third record, the third where it wrapped to. *)
Definition demo_batches : list ReadBatch :=
  [demo_batch [{| rr_start_abs := 44; rr_end_abs := 88; rr_record := demo_record 1 |}];
   demo_batch [{| rr_start_abs := 100; rr_end_abs := 144; rr_record := demo_record 2 |}]].

Lemma observer_exact_witness :
  (∃ o b, sidecar_new (BP:=dev_profile) 100 (expected_of <$> demo_log) = Ok o
    ∧ for_each (observe_batch (BP:=dev_profile)) demo_batches (observer_new o) = Ok b ∧
    (into_violations b = [] ↔
     ∃ es, (λ r, (key_of_read r, rr_start_abs r)) <$> (demo_batches ≫= rb_records) = (λ e, (key_of_record (en_rec e), en_start e)) <$> es
           ∧ es `sublist_of` ab_log (abs_of 100 demo_log)))
  ∧ (λ e, en_start e) <$> ab_log (abs_of 100 demo_log) = [0; 44; 100].
Proof.
  split; [apply (observer_exact (BP:=dev_profile) 100 demo_log demo_batches); by_compute|vm_compute; exact eq_refl].
Defined.

#[local] Existing Instance owned_sequenced.
#[local] Abbreviation C100 := (cs_capacity (owned 100)).

Lemma concurrent_run_clean_witness :
  ∃ s, run (BP:=dev_profile) false demo_moves (sys_new (owned 100)) = Some s ∧
  ∃ o b, sidecar_new (BP:=dev_profile) C100 (expected_of <$> accepted C100 (calls demo_moves)) = Ok o
    ∧ for_each (observe_batch (BP:=dev_profile)) (polled_batches s) (observer_new o) = Ok b ∧ into_violations b = [].
Proof.
  run_ends s Hrun. exists s. split; [exact eq_refl|].
  apply (concurrent_run_clean (BP:=dev_profile) false (owned 100) demo_moves s); [exact I|by_compute|exact Hrun|by_compute].
Defined.

Definition embedded_read (x : u64) : ReadRecord :=
  {| rr_start_abs := x; rr_end_abs := x + 56;
     rr_record := {| rec_flags := 0; rec_source_time := 1; rec_run_id := 1; rec_seq := 0; rec_source_id := 10;
       rec_event_type_id := EVENT_MESSAGE; rec_slots := [expected_abs_slot 44] |} |}.

Lemma embedded_exact_witness :
  ∃ vs, observe (embedded_read 44) MkEmbeddedAbsOracle = Ok (vs, MkEmbeddedAbsOracle) ∧ (length vs ≤ 1)%nat ∧
    (vs = [] ↔ ∃ pre post, rec_slots (rr_record (embedded_read 44)) = pre ++ expected_abs_slot 44 :: post
                           ∧ Forall (λ s, slot_key s ≠ KEY_EXPECTED_RECORD_START_ABS) pre).
Proof. apply (embedded_exact (embedded_read 44) MkEmbeddedAbsOracle); by_compute. Defined.
