(* ===== verification/ConformanceReport.v ===== *)
(** * Conformance reports (crates/conformance/src/lib.rs)

    The report built from a consumer's state, its text form, what reads the text
    back, and the checks of a fenced run. Files are read and written by the
    caller: [report_text] is what [write] writes, [read_text] what [read] makes
    of a file's content. *)
From Stdlib Require Import Ascii DecimalString.
From stdpp Require Import strings.
From S2P Require Import Prelude Crc Wire Control Registry Layout Ring RingRead Loss Consumer Memory Concurrent Shared Text Conformance.
#[local] Open Scope Z_scope.

(** ** Data *)
Record ExpectedSource := MkExpectedSource { es_run_id : u64; es_source_id : u32; es_expected_total : u64 }.

Record SourceObserved := MkSourceObserved {
  sob_run_id : u64;
  sob_source_id : u32;
  sob_expected_total : u64;
  sob_delivered : u64;
  sob_lost : u64;
}.

Record ObservationMetadata := MkObservationMetadata {
  om_mode : string;
  om_append_mode : string;
  om_fence_mode : FenceMode;
}.

Record ReportInputs := MkReportInputs {
  ri_metadata : ObservationMetadata;
  ri_expected_sources : list ExpectedSource;
  ri_raw : ConcurrentRawConsumer SharedConcurrentStore;
  ri_accounting : LossAccountingConsumer;
  ri_store : SharedConcurrentStore;
  ri_poll_errors : u64;
  ri_stale_violations : list StaleViolation;
}.

Record ObservedReport := MkObservedReport {
  or_mode : string;
  or_fence_mode : FenceMode;
  or_append_mode : string;
  or_cap : usize;
  or_head_abs : u64;
  or_lost_count : u64;
  or_lapped_batches : u64;
  or_overwritten_retries : u64;
  or_rejected_records : u64;
  or_poll_errors : u64;
  or_delivered_total : u64;
  or_lost_total : u64;
  or_stale_violations : list StaleViolation;
  or_sources : list SourceObserved;
}.

(** ** Building a report *)
Section from_consumer.
Context {BP : BuildProfile}.

(** [Iterator::sum] adds from 0. *)
Definition sum64 {E} (l : list u64) : res E u64 := for_each (λ x acc, add64 acc x) l 0.

Definition observe_source (accounting : LossAccountingConsumer) (expected : ExpectedSource) (acc : list SourceObserved)
  : res RingError (list SourceObserved) :=
  let delivered := lac_delivered_in_run accounting (es_run_id expected) (es_source_id expected) in
  lost ← lac_lost_in_run accounting (es_run_id expected) (es_source_id expected);
  Ok (acc ++ [{| sob_run_id := es_run_id expected; sob_source_id := es_source_id expected;
                 sob_expected_total := es_expected_total expected; sob_delivered := delivered; sob_lost := lost |}]).

Definition from_consumer (inputs : ReportInputs) : io RingError ObservedReport :=
  observed_sources ← Done (for_each (observe_source (ri_accounting inputs)) (ri_expected_sources inputs) []);
  delivered_total ← Done (sum64 (sob_delivered <$> observed_sources));
  lost_total ← Done (sum64 (sob_lost <$> observed_sources));
  head_abs ← load_head_acquire (ri_store inputs);
  lost_count ← load_lost_acquire (ri_store inputs);
  io_ret {|
    or_mode := om_mode (ri_metadata inputs);
    or_fence_mode := om_fence_mode (ri_metadata inputs);
    or_append_mode := om_append_mode (ri_metadata inputs);
    or_cap := cs_capacity (ri_store inputs);
    or_head_abs := head_abs;
    or_lost_count := lost_count;
    or_lapped_batches := cc_lapped_batches (ri_raw inputs);
    or_overwritten_retries := cc_overwritten_retries (ri_raw inputs);
    or_rejected_records := cc_rejected_records (ri_raw inputs);
    or_poll_errors := ri_poll_errors inputs;
    or_delivered_total := delivered_total;
    or_lost_total := lost_total;
    or_stale_violations := ri_stale_violations inputs;
    or_sources := observed_sources;
  |}.
End from_consumer.

(** ** The text form *)
Definition dec_nat (n : nat) : string := dec (Z.of_nat n).

Definition stale_words (stale : StaleViolation) : list string :=
  ["stale"; violation_as_str (sv_kind stale); dec (sv_source_id stale); dec (sv_seq stale); dec (sv_expected_abs stale);
   dec (sv_actual_abs stale); show_bool (sv_crc_passed stale)]%string.
Definition source_words (source : SourceObserved) : list string :=
  ["source"; dec (sob_run_id source); dec (sob_source_id source); dec (sob_expected_total source);
   dec (sob_delivered source); dec (sob_lost source)]%string.

Definition header_words (r : ObservedReport) : list (list string) :=
  [["report_version"; "2"];
   ["mode"; or_mode r];
   ["fence"; fence_mode_as_str (or_fence_mode r)];
   ["append_mode"; or_append_mode r];
   ["cap"; dec_nat (or_cap r)];
   ["head_abs"; dec (or_head_abs r)];
   ["lost_count"; dec (or_lost_count r)];
   ["lapped_batches"; dec (or_lapped_batches r)];
   ["overwritten_retries"; dec (or_overwritten_retries r)];
   ["rejected_records"; dec (or_rejected_records r)];
   ["poll_errors"; dec (or_poll_errors r)];
   ["delivered_total"; dec (or_delivered_total r)];
   ["lost_total"; dec (or_lost_total r)];
   ["stale_violations"; dec_nat (length (or_stale_violations r))]]%string.

(** Every [push_str] of [write] pushes one line. *)
Definition report_text (r : ObservedReport) : string :=
  let out := foldl (λ out ws, push_line ws out) ""%string (header_words r) in
  let out := foldl (λ out stale, push_line (stale_words stale) out) out (or_stale_violations r) in
  foldl (λ out source, push_line (source_words source) out) out (or_sources r).

(** ** Reading it back *)

(** The locals of [read]; the counters by their name. *)
Record Draft := MkDraft {
  dr_mode : option string;
  dr_fence_mode : option FenceMode;
  dr_append_mode : option string;
  dr_cap : option usize;
  dr_counts : gmap string u64;
  dr_stale_count : option usize;
  dr_stale_violations : list StaleViolation;
  dr_sources : list SourceObserved;
}.
Definition draft_new : Draft :=
  {| dr_mode := None; dr_fence_mode := None; dr_append_mode := None; dr_cap := None; dr_counts := {["poll_errors"%string := 0]};
     dr_stale_count := None; dr_stale_violations := []; dr_sources := [] |}.

Definition set_mode (v : string) (d : Draft) : Draft :=
  {| dr_mode := Some v; dr_fence_mode := dr_fence_mode d; dr_append_mode := dr_append_mode d; dr_cap := dr_cap d;
     dr_counts := dr_counts d; dr_stale_count := dr_stale_count d; dr_stale_violations := dr_stale_violations d;
     dr_sources := dr_sources d |}.
Definition set_fence_mode (v : FenceMode) (d : Draft) : Draft :=
  {| dr_mode := dr_mode d; dr_fence_mode := Some v; dr_append_mode := dr_append_mode d; dr_cap := dr_cap d;
     dr_counts := dr_counts d; dr_stale_count := dr_stale_count d; dr_stale_violations := dr_stale_violations d;
     dr_sources := dr_sources d |}.
Definition set_append_mode (v : string) (d : Draft) : Draft :=
  {| dr_mode := dr_mode d; dr_fence_mode := dr_fence_mode d; dr_append_mode := Some v; dr_cap := dr_cap d;
     dr_counts := dr_counts d; dr_stale_count := dr_stale_count d; dr_stale_violations := dr_stale_violations d;
     dr_sources := dr_sources d |}.
Definition set_cap (v : usize) (d : Draft) : Draft :=
  {| dr_mode := dr_mode d; dr_fence_mode := dr_fence_mode d; dr_append_mode := dr_append_mode d; dr_cap := Some v;
     dr_counts := dr_counts d; dr_stale_count := dr_stale_count d; dr_stale_violations := dr_stale_violations d;
     dr_sources := dr_sources d |}.
Definition set_count (name : string) (v : u64) (d : Draft) : Draft :=
  {| dr_mode := dr_mode d; dr_fence_mode := dr_fence_mode d; dr_append_mode := dr_append_mode d; dr_cap := dr_cap d;
     dr_counts := <[name := v]> (dr_counts d); dr_stale_count := dr_stale_count d; dr_stale_violations := dr_stale_violations d;
     dr_sources := dr_sources d |}.
Definition set_stale_count (v : usize) (d : Draft) : Draft :=
  {| dr_mode := dr_mode d; dr_fence_mode := dr_fence_mode d; dr_append_mode := dr_append_mode d; dr_cap := dr_cap d;
     dr_counts := dr_counts d; dr_stale_count := Some v; dr_stale_violations := dr_stale_violations d;
     dr_sources := dr_sources d |}.
Definition push_stale (v : StaleViolation) (d : Draft) : Draft :=
  {| dr_mode := dr_mode d; dr_fence_mode := dr_fence_mode d; dr_append_mode := dr_append_mode d; dr_cap := dr_cap d;
     dr_counts := dr_counts d; dr_stale_count := dr_stale_count d; dr_stale_violations := dr_stale_violations d ++ [v];
     dr_sources := dr_sources d |}.
Definition push_source (v : SourceObserved) (d : Draft) : Draft :=
  {| dr_mode := dr_mode d; dr_fence_mode := dr_fence_mode d; dr_append_mode := dr_append_mode d; dr_cap := dr_cap d;
     dr_counts := dr_counts d; dr_stale_count := dr_stale_count d; dr_stale_violations := dr_stale_violations d;
     dr_sources := dr_sources d ++ [v] |}.

Definition or_invalid {A} (o : option A) (field value : string) : res ConformanceError A :=
  match o with
  | Some a => Ok a
  | None => Err (ConformanceError_new ("invalid value for " +:+ field +:+ ": " +:+ value))
  end.
Definition parse_value (bits : Z) (value field : string) : res ConformanceError Z := or_invalid (parse_uint bits value) field value.
Definition parse_value_bool (value field : string) : res ConformanceError bool := or_invalid (parse_bool value) field value.

(** The lines that set a [u64]. *)
Definition count_fields : list string :=
  ["head_abs"; "lost_count"; "lapped_batches"; "overwritten_retries"; "rejected_records"; "poll_errors";
   "delivered_total"; "lost_total"]%string.

Definition parse_stale (kind : ViolationKind) (source_id seq expected_abs actual_abs crc_passed : string) (d : Draft)
  : res ConformanceError Draft :=
  source_id ← parse_value 32 source_id "stale source_id";
  seq ← parse_value 64 seq "stale seq";
  expected_abs ← parse_value 64 expected_abs "stale expected_abs";
  actual_abs ← parse_value 64 actual_abs "stale actual_abs";
  crc_passed ← parse_value_bool crc_passed "stale crc_passed";
  Ok (push_stale {| sv_kind := kind; sv_source_id := source_id; sv_seq := seq; sv_expected_abs := expected_abs;
                    sv_actual_abs := actual_abs; sv_crc_passed := crc_passed |} d).

Definition parse_source (run_id : u64) (source_id expected_total delivered lost : string) (d : Draft)
  : res ConformanceError Draft :=
  source_id ← parse_value 32 source_id "source source_id";
  expected_total ← parse_value 64 expected_total "source expected_total";
  delivered ← parse_value 64 delivered "source delivered";
  lost ← parse_value 64 lost "source lost";
  Ok (push_source {| sob_run_id := run_id; sob_source_id := source_id; sob_expected_total := expected_total;
                     sob_delivered := delivered; sob_lost := lost |} d).

(** The arms of the [match] on the words of a line; [invalid] is the last one. *)
Definition parse_words (parts : list string) (line : string) (d : Draft) : res ConformanceError Draft :=
  let invalid := Err (ConformanceError_new ("invalid observed line: " +:+ line)) in
  match parts with
  | [key; value] =>
      if decide (key = "report_version"%string) then if decide (value = "2"%string) then Ok d else invalid
      else if decide (key = "mode"%string) then Ok (set_mode value d)
      else if decide (key = "fence"%string) then
        m ← map_err ConformanceError_new (fence_mode_parse value); Ok (set_fence_mode m d)
      else if decide (key = "append_mode"%string) then Ok (set_append_mode value d)
      else if decide (key = "cap"%string) then n ← parse_value 64 value "cap"; Ok (set_cap (Z.to_nat n) d)
      else if decide (key ∈ count_fields) then n ← parse_value 64 value key; Ok (set_count key n d)
      else if decide (key = "stale_violations"%string) then
        n ← parse_value 64 value "stale_violations"; Ok (set_stale_count (Z.to_nat n) d)
      else invalid
  | [key; kind; source_id; seq; expected_abs; actual_abs; crc_passed] =>
      if decide (key = "stale"%string) then
        kind ← violation_parse kind; parse_stale kind source_id seq expected_abs actual_abs crc_passed d
      else invalid
  | [key; a; b; c; e; f] =>
      if decide (key = "stale"%string) then parse_stale ExpectedAbsMismatch a b c e f d
      else if decide (key = "source"%string) then
        run_id ← parse_value 64 a "source run_id"; parse_source run_id b c e f d
      else invalid
  | [key; source_id; expected_total; delivered; lost] =>
      if decide (key = "source"%string) then parse_source 0 source_id expected_total delivered lost d else invalid
  | _ => invalid
  end.
Definition parse_line (line : string) (d : Draft) : res ConformanceError Draft := parse_words (split_whitespace line) line d.

Definition ok_or {A} (o : option A) (message : string) : res ConformanceError A :=
  match o with Some a => Ok a | None => Err (ConformanceError_new message) end.

Definition finish (d : Draft) : res ConformanceError ObservedReport :=
  if decide (dr_stale_count d ≠ Some (length (dr_stale_violations d)))
  then Err (ConformanceError_new "stale_violations count mismatch") else
  mode ← ok_or (dr_mode d) "missing mode";
  fence_mode ← ok_or (dr_fence_mode d) "missing fence";
  append_mode ← ok_or (dr_append_mode d) "missing append_mode";
  cap ← ok_or (dr_cap d) "missing cap";
  head_abs ← ok_or (dr_counts d !! "head_abs"%string) "missing head_abs";
  lost_count ← ok_or (dr_counts d !! "lost_count"%string) "missing lost_count";
  lapped_batches ← ok_or (dr_counts d !! "lapped_batches"%string) "missing lapped_batches";
  overwritten_retries ← ok_or (dr_counts d !! "overwritten_retries"%string) "missing overwritten_retries";
  rejected_records ← ok_or (dr_counts d !! "rejected_records"%string) "missing rejected_records";
  poll_errors ← ok_or (dr_counts d !! "poll_errors"%string) "missing poll_errors";
  delivered_total ← ok_or (dr_counts d !! "delivered_total"%string) "missing delivered_total";
  lost_total ← ok_or (dr_counts d !! "lost_total"%string) "missing lost_total";
  Ok {| or_mode := mode; or_fence_mode := fence_mode; or_append_mode := append_mode; or_cap := cap; or_head_abs := head_abs;
        or_lost_count := lost_count; or_lapped_batches := lapped_batches; or_overwritten_retries := overwritten_retries;
        or_rejected_records := rejected_records; or_poll_errors := poll_errors; or_delivered_total := delivered_total;
        or_lost_total := lost_total; or_stale_violations := dr_stale_violations d; or_sources := dr_sources d |}.

Definition read_text (content : string) : res ConformanceError ObservedReport :=
  d ← for_each parse_line (lines content) draft_new;
  finish d.

(** ** Checks and summaries *)
Section checks.
Context {BP : BuildProfile}.

Definition fail {A} (message : string) : res ConformanceError A := Err (ConformanceError_new message).

Definition check_source (source : SourceObserved) : res ConformanceError unit :=
  total ← add64 (sob_delivered source) (sob_lost source);
  if decide (total ≠ sob_expected_total source)
  then fail ("source " +:+ dec (sob_source_id source) +:+ " run " +:+ dec (sob_run_id source)
             +:+ " reconciliation failed: delivered=" +:+ dec (sob_delivered source) +:+ " lost=" +:+ dec (sob_lost source)
             +:+ " expected_total=" +:+ dec (sob_expected_total source))
  else Ok tt.

Definition assert_fenced (r : ObservedReport) (min_head_abs : option u64) (require_retention_pressure : bool)
  : res ConformanceError unit :=
  if decide (or_delivered_total r = 0) then fail "consumer made no progress" else
  _ ← match min_head_abs with
      | Some min_head_abs =>
          if decide (or_head_abs r ≤ min_head_abs)
          then fail ("insufficient absolute progress: head_abs=" +:+ dec (or_head_abs r) +:+ " min=" +:+ dec min_head_abs)
          else Ok tt
      | None => Ok tt
      end;
  if decide (require_retention_pressure = true ∧ or_lost_count r = 0) then fail "producer did not report ring evictions" else
  if decide (or_rejected_records r ≠ 0) then fail ("fenced run rejected " +:+ dec (or_rejected_records r) +:+ " records") else
  if decide (or_poll_errors r ≠ 0) then fail ("fenced run captured " +:+ dec (or_poll_errors r) +:+ " poll errors") else
  if decide (or_stale_violations r ≠ [])
  then fail ("fenced run accepted stale records: " +:+ dec_nat (length (or_stale_violations r))) else
  for_each (λ source _, check_source source) (or_sources r) tt.
End checks.

Definition summary_line (r : ObservedReport) : string :=
  "summary: mode=" +:+ or_mode r +:+ " fence=" +:+ fence_mode_as_str (or_fence_mode r) +:+ " append_mode=" +:+ or_append_mode r
  +:+ " cap=" +:+ dec_nat (or_cap r) +:+ " head_abs=" +:+ dec (or_head_abs r) +:+ " lost_count=" +:+ dec (or_lost_count r)
  +:+ " delivered=" +:+ dec (or_delivered_total r) +:+ " lost=" +:+ dec (or_lost_total r) +:+ " lapped=" +:+ dec (or_lapped_batches r)
  +:+ " retries=" +:+ dec (or_overwritten_retries r) +:+ " rejected=" +:+ dec (or_rejected_records r) +:+ " poll_errors="
  +:+ dec (or_poll_errors r) +:+ " stale=" +:+ dec_nat (length (or_stale_violations r)).

Record UnfencedEvidence := MkUnfencedEvidence {
  ue_fence_mode : FenceMode;
  ue_hazard_observed : bool;
  ue_stale_violations : usize;
  ue_rejected_records : u64;
  ue_poll_errors : u64;
  ue_overwritten_retries : u64;
  ue_lapped_batches : u64;
  ue_delivered_total : u64;
  ue_lost_total : u64;
  ue_lost_count : u64;
}.

Definition unfenced_evidence (r : ObservedReport) : UnfencedEvidence :=
  let stale_violations := length (or_stale_violations r) in
  let hazard_observed := bool_decide (0 < stale_violations)%nat || bool_decide (0 < or_rejected_records r)
                         || bool_decide (0 < or_poll_errors r) in
  {| ue_fence_mode := or_fence_mode r; ue_hazard_observed := hazard_observed; ue_stale_violations := stale_violations;
     ue_rejected_records := or_rejected_records r; ue_poll_errors := or_poll_errors r;
     ue_overwritten_retries := or_overwritten_retries r; ue_lapped_batches := or_lapped_batches r;
     ue_delivered_total := or_delivered_total r; ue_lost_total := or_lost_total r; ue_lost_count := or_lost_count r |}.

Definition outcome (e : UnfencedEvidence) : string :=
  if ue_hazard_observed e then "hazard-observed" else "non-reproduction".
Definition non_reproduction_note : string := "non-reproduction, NOT proof of safety".
Definition evidence_summary_line (e : UnfencedEvidence) : string :=
  "unfenced_evidence: outcome=" +:+ outcome e +:+ " fence=" +:+ fence_mode_as_str (ue_fence_mode e) +:+ " stale="
  +:+ dec_nat (ue_stale_violations e) +:+ " rejected=" +:+ dec (ue_rejected_records e) +:+ " poll_errors="
  +:+ dec (ue_poll_errors e) +:+ " retries=" +:+ dec (ue_overwritten_retries e) +:+ " lapped=" +:+ dec (ue_lapped_batches e)
  +:+ " delivered=" +:+ dec (ue_delivered_total e) +:+ " lost=" +:+ dec (ue_lost_total e) +:+ " lost_count="
  +:+ dec (ue_lost_count e).

(** ** The text is read back *)
Definition stale_ok (v : StaleViolation) : Prop :=
  is_u32 (sv_source_id v) ∧ is_u64 (sv_seq v) ∧ is_u64 (sv_expected_abs v) ∧ is_u64 (sv_actual_abs v).
Definition source_ok (v : SourceObserved) : Prop :=
  is_u64 (sob_run_id v) ∧ is_u32 (sob_source_id v) ∧ is_u64 (sob_expected_total v) ∧ is_u64 (sob_delivered v) ∧ is_u64 (sob_lost v).
(** Every number has its width. *)
Definition report_ok (r : ObservedReport) : Prop :=
  Z.of_nat (or_cap r) < 2 ^ 64 ∧ is_u64 (or_head_abs r) ∧ is_u64 (or_lost_count r) ∧ is_u64 (or_lapped_batches r)
  ∧ is_u64 (or_overwritten_retries r) ∧ is_u64 (or_rejected_records r) ∧ is_u64 (or_poll_errors r)
  ∧ is_u64 (or_delivered_total r) ∧ is_u64 (or_lost_total r) ∧ Z.of_nat (length (or_stale_violations r)) < 2 ^ 64
  ∧ Forall stale_ok (or_stale_violations r) ∧ Forall source_ok (or_sources r).

Lemma violation_parse_str k : violation_parse (violation_as_str k) = Ok k.
Proof. by destruct k. Qed.
Lemma violation_word k : word (violation_as_str k).
Proof. destruct k; by_compute. Qed.
Lemma fence_word m : word (fence_mode_as_str m).
Proof. destruct m; by_compute. Qed.

Lemma parse_value_dec bits n field : 0 ≤ n < 2 ^ bits → parse_value bits (dec n) field = Ok n.
Proof. intros Hn. unfold parse_value. by rewrite parse_dec. Qed.

(** The lines of a report. *)
Definition report_words (r : ObservedReport) : list (list string) :=
  header_words r ++ (stale_words <$> or_stale_violations r) ++ (source_words <$> or_sources r).

Lemma foldl_push {A} (f : A → list string) l : ∀ out,
  foldl (λ out x, push_line (f x) out) out l = foldl (λ out ws, push_line ws out) out (f <$> l).
Proof. induction l as [|x l IH]; intros out; [done|]. rewrite fmap_cons. cbn [foldl]. apply IH. Qed.

Lemma report_text_words r :
  report_text r = foldr (λ ws out, words_line ws +:+ String newline out)%string ""%string (report_words r).
Proof.
  unfold report_text, report_words. cbv zeta. rewrite (foldl_push stale_words), (foldl_push source_words), <-!foldl_app.
  by rewrite ?app_assoc, push_lines.
Qed.

Ltac words := repeat (apply Forall_cons; split); try apply Forall_nil_2;
  first [apply dec_word|apply violation_word|apply fence_word|apply bool_word|assumption|by_compute].

Lemma report_words_word r : word (or_mode r) → word (or_append_mode r) → Forall (Forall word) (report_words r).
Proof.
  intros Hm Ha. unfold report_words, header_words. repeat apply Forall_app_2.
  - repeat (apply Forall_cons; split); try apply Forall_nil_2; words.
  - apply Forall_fmap, Forall_forall. intros v _. unfold compose, stale_words. words.
  - apply Forall_fmap, Forall_forall. intros v _. unfold compose, source_words. words.
Qed.

Lemma parse_word_lines wss : ∀ d, Forall (Forall word) wss →
  for_each parse_line (words_line <$> wss) d = for_each (λ ws, parse_words ws (words_line ws)) wss d.
Proof.
  induction wss as [|ws wss IH]; intros d Hf; [done|]. apply Forall_cons_1 in Hf as [Hw Hf]. rewrite fmap_cons.
  cbn [for_each]. change (parse_line (words_line ws) d) with (parse_words (split_whitespace (words_line ws)) (words_line ws) d). rewrite split_words by done.
  destruct (parse_words ws _ d); cbn [mbind res_bind]; [by apply IH|done..].
Qed.

Lemma parse_mode v l d : parse_words ["mode"%string; v] l d = Ok (set_mode v d).
Proof. unfold parse_words. by rewrite decide_False, decide_True by done. Qed.
Lemma parse_append_mode v l d : parse_words ["append_mode"%string; v] l d = Ok (set_append_mode v d).
Proof. unfold parse_words. by rewrite !decide_False, decide_True by done. Qed.
Lemma parse_fence m l d : parse_words ["fence"%string; fence_mode_as_str m] l d = Ok (set_fence_mode m d).
Proof. unfold parse_words. rewrite !decide_False, decide_True by done. by destruct m. Qed.
Lemma parse_cap n l d : Z.of_nat n < 2 ^ 64 → parse_words ["cap"%string; dec_nat n] l d = Ok (set_cap n d).
Proof.
  intros Hn. unfold parse_words, dec_nat. rewrite !decide_False, decide_True by done.
  rewrite parse_value_dec, ok_bind by lia. by rewrite Nat2Z.id.
Qed.
Lemma parse_stale_count n l d : Z.of_nat n < 2 ^ 64 →
  parse_words ["stale_violations"%string; dec_nat n] l d = Ok (set_stale_count n d).
Proof.
  intros Hn. unfold parse_words, dec_nat. rewrite !decide_False by (done || by_compute). rewrite decide_True by done.
  rewrite parse_value_dec, ok_bind by lia. by rewrite Nat2Z.id.
Qed.
Lemma parse_count k n l d : k ∈ count_fields → is_u64 n → parse_words [k; dec n] l d = Ok (set_count k n d).
Proof.
  intros Hk Hn. assert (Hd : ∀ s, s ∈ ["report_version"; "mode"; "fence"; "append_mode"; "cap"]%string → k ≠ s).
  { intros s Hs ->. assert (Hall : Forall (λ s, s ∉ count_fields) ["report_version"; "mode"; "fence"; "append_mode"; "cap"]%string) by by_compute.
    rewrite Forall_forall in Hall. by apply (Hall s). }
  unfold parse_words. rewrite !(decide_False (P := k = _)) by (apply Hd; by_compute). rewrite decide_True by done.
  by rewrite parse_value_dec by done.
Qed.

Lemma parse_stales vs : ∀ d, Forall stale_ok vs →
  for_each (λ ws, parse_words ws (words_line ws)) (stale_words <$> vs) d = Ok (foldl (λ d v, push_stale v d) d vs).
Proof.
  induction vs as [|v vs IH]; intros d Hf; [done|]. apply Forall_cons_1 in Hf as [(H1 & H2 & H3 & H4) Hf].
  rewrite fmap_cons. cbn [for_each foldl].
  assert (Hv : ∀ l, parse_words (stale_words v) l d = Ok (push_stale v d)).
  { intros l. unfold stale_words, parse_words. rewrite decide_True, violation_parse_str, ok_bind by done. unfold parse_stale.
    rewrite !parse_value_dec, !ok_bind by done. unfold parse_value_bool. rewrite parse_show_bool. cbn [or_invalid mbind res_bind].
    by destruct v. }
  rewrite Hv, ok_bind. by apply IH.
Qed.
Lemma parse_sources vs : ∀ d, Forall source_ok vs →
  for_each (λ ws, parse_words ws (words_line ws)) (source_words <$> vs) d = Ok (foldl (λ d v, push_source v d) d vs).
Proof.
  induction vs as [|v vs IH]; intros d Hf; [done|]. apply Forall_cons_1 in Hf as [(H1 & H2 & H3 & H4 & H5) Hf].
  rewrite fmap_cons. cbn [for_each foldl].
  assert (Hv : ∀ l, parse_words (source_words v) l d = Ok (push_source v d)).
  { intros l. unfold source_words, parse_words. rewrite decide_False, decide_True by done. rewrite parse_value_dec, ok_bind by done.
    unfold parse_source. rewrite !parse_value_dec, !ok_bind by done. by destruct v. }
  rewrite Hv, ok_bind. by apply IH.
Qed.

(** The header and the lists a draft has collected. *)
Definition headed_draft (r : ObservedReport) : Draft :=
  set_stale_count (length (or_stale_violations r)) (set_count "lost_total" (or_lost_total r)
   (set_count "delivered_total" (or_delivered_total r) (set_count "poll_errors" (or_poll_errors r)
   (set_count "rejected_records" (or_rejected_records r) (set_count "overwritten_retries" (or_overwritten_retries r)
   (set_count "lapped_batches" (or_lapped_batches r) (set_count "lost_count" (or_lost_count r)
   (set_count "head_abs" (or_head_abs r) (set_cap (or_cap r) (set_append_mode (or_append_mode r)
   (set_fence_mode (or_fence_mode r) (set_mode (or_mode r) draft_new)))))))))))).

Lemma parse_header r : report_ok r →
  for_each (λ ws, parse_words ws (words_line ws)) (header_words r) draft_new = Ok (headed_draft r).
Proof.
  intros (H1 & H2 & H3 & H4 & H5 & H6 & H7 & H8 & H9 & H10 & _). unfold header_words. cbn [for_each].
  change (parse_words ["report_version"%string; "2"%string] ?l draft_new) with (Ok (E:=ConformanceError) draft_new). rewrite ok_bind.
  rewrite parse_mode, ok_bind, parse_fence, ok_bind, parse_append_mode, ok_bind, parse_cap, ok_bind by done.
  do 8 (rewrite parse_count, ok_bind by first [assumption|by_compute]).
  by rewrite parse_stale_count by done.
Qed.

Lemma collected r :
  foldl (λ d v, push_source v d) (foldl (λ d v, push_stale v d) (headed_draft r) (or_stale_violations r)) (or_sources r)
  = {| dr_mode := Some (or_mode r); dr_fence_mode := Some (or_fence_mode r); dr_append_mode := Some (or_append_mode r);
       dr_cap := Some (or_cap r); dr_counts := dr_counts (headed_draft r);
       dr_stale_count := Some (length (or_stale_violations r)); dr_stale_violations := or_stale_violations r;
       dr_sources := or_sources r |}.
Proof.
  assert (H1 : ∀ vs d, foldl (λ d v, push_stale v d) d vs
    = {| dr_mode := dr_mode d; dr_fence_mode := dr_fence_mode d; dr_append_mode := dr_append_mode d; dr_cap := dr_cap d;
         dr_counts := dr_counts d; dr_stale_count := dr_stale_count d; dr_stale_violations := dr_stale_violations d ++ vs;
         dr_sources := dr_sources d |}).
  { induction vs as [|v vs IH]; intros d; [by rewrite app_nil_r; destruct d|]. cbn [foldl]. rewrite IH.
    unfold push_stale. cbn. by rewrite <-app_assoc. }
  assert (H2 : ∀ vs d, foldl (λ d v, push_source v d) d vs
    = {| dr_mode := dr_mode d; dr_fence_mode := dr_fence_mode d; dr_append_mode := dr_append_mode d; dr_cap := dr_cap d;
         dr_counts := dr_counts d; dr_stale_count := dr_stale_count d; dr_stale_violations := dr_stale_violations d;
         dr_sources := dr_sources d ++ vs |}).
  { induction vs as [|v vs IH]; intros d; [by rewrite app_nil_r; destruct d|]. cbn [foldl]. rewrite IH.
    unfold push_source. cbn. by rewrite <-app_assoc. }
  rewrite H2, H1. exact eq_refl.
Qed.

Lemma headed_counts r :
  dr_counts (headed_draft r) =
    <["lost_total"%string := or_lost_total r]> (<["delivered_total"%string := or_delivered_total r]>
    (<["poll_errors"%string := or_poll_errors r]> (<["rejected_records"%string := or_rejected_records r]>
    (<["overwritten_retries"%string := or_overwritten_retries r]> (<["lapped_batches"%string := or_lapped_batches r]>
    (<["lost_count"%string := or_lost_count r]> (<["head_abs"%string := or_head_abs r]> (dr_counts draft_new)))))))).
Proof. exact eq_refl. Qed.

Lemma ok_or_some {A} (a : A) m : ok_or (Some a) m = Ok a.
Proof. done. Qed.
Lemma string_ne s t : bool_decide (s = t) = false → (s : string) ≠ t.
Proof. apply bool_decide_eq_false_1. Qed.

Lemma finish_collected r counts :
  counts = dr_counts (headed_draft r) →
  finish {| dr_mode := Some (or_mode r); dr_fence_mode := Some (or_fence_mode r); dr_append_mode := Some (or_append_mode r);
       dr_cap := Some (or_cap r); dr_counts := counts;
       dr_stale_count := Some (length (or_stale_violations r)); dr_stale_violations := or_stale_violations r;
       dr_sources := or_sources r |} = Ok r.
Proof.
  rewrite headed_counts. intros Hc. unfold finish.
  cbn [dr_stale_count dr_stale_violations dr_mode dr_fence_mode dr_append_mode dr_cap dr_counts dr_sources]. rewrite decide_False by tauto.
  rewrite !ok_or_some, !ok_bind.
  assert (Hl : counts !! "head_abs"%string = Some (or_head_abs r) ∧ counts !! "lost_count"%string = Some (or_lost_count r)
    ∧ counts !! "lapped_batches"%string = Some (or_lapped_batches r)
    ∧ counts !! "overwritten_retries"%string = Some (or_overwritten_retries r)
    ∧ counts !! "rejected_records"%string = Some (or_rejected_records r) ∧ counts !! "poll_errors"%string = Some (or_poll_errors r)
    ∧ counts !! "delivered_total"%string = Some (or_delivered_total r) ∧ counts !! "lost_total"%string = Some (or_lost_total r)).
  { rewrite Hc. clear. generalize (dr_counts draft_new). intros m. repeat split.
    all: repeat (rewrite lookup_insert_ne by (apply string_ne; exact eq_refl)); apply lookup_insert_eq. }
  destruct Hl as (-> & -> & -> & -> & -> & -> & -> & ->). rewrite !ok_or_some, !ok_bind. clear. destruct r. exact eq_refl.
Qed.

Lemma read_back r : report_ok r → word (or_mode r) → word (or_append_mode r) → read_text (report_text r) = Ok r.
Proof.
  intros Hok Hm Ha. pose proof (report_words_word r Hm Ha) as Hw. unfold read_text.
  rewrite report_text_words, lines_words, parse_word_lines by done. unfold report_words. rewrite for_each_app, parse_header, ok_bind by done.
  destruct Hok as (_ & _ & _ & _ & _ & _ & _ & _ & _ & _ & Hst & Hso).
  rewrite for_each_app, parse_stales, ok_bind, parse_sources, ok_bind, collected by done. by apply finish_collected.
Qed.

(** ** What a text can hold *)
Definition readable (r : ObservedReport) : Prop := report_ok r ∧ word (or_mode r) ∧ word (or_append_mode r).

Definition draft_ok (d : Draft) : Prop :=
  (∀ v, dr_mode d = Some v → word v) ∧ (∀ v, dr_append_mode d = Some v → word v)
  ∧ (∀ n, dr_cap d = Some n → Z.of_nat n < 2 ^ 64) ∧ (∀ k n, dr_counts d !! k = Some n → is_u64 n)
  ∧ (∀ n, dr_stale_count d = Some n → Z.of_nat n < 2 ^ 64)
  ∧ Forall stale_ok (dr_stale_violations d) ∧ Forall source_ok (dr_sources d).

Lemma parse_value_range bits s field n : parse_value bits s field = Ok n → 0 ≤ n < 2 ^ bits.
Proof.
  unfold parse_value, parse_uint. generalize (match s with String a s' => if decide (a = "+"%char) then s' else s | _ => s end).
  intros t. destruct (NilZero.uint_of_string t); [|done]. case_decide; [|done]. cbn [or_invalid]. intros [= <-]. lia.
Qed.

Lemma draft_new_ok : draft_ok draft_new.
Proof.
  split_and!; try done. cbn [dr_counts draft_new]. intros k n. rewrite lookup_singleton_Some. intros [_ <-]. by_compute.
Qed.

Ltac draft := intros (H1 & H2 & H3 & H4 & H5 & H6 & H7); split_and!; cbn; try assumption.
Lemma set_mode_ok v d : word v → draft_ok d → draft_ok (set_mode v d).
Proof. intros Hv. draft. by intros ? [= <-]. Qed.
Lemma set_append_mode_ok v d : word v → draft_ok d → draft_ok (set_append_mode v d).
Proof. intros Hv. draft. by intros ? [= <-]. Qed.
Lemma set_cap_ok n d : 0 ≤ n < 2 ^ 64 → draft_ok d → draft_ok (set_cap (Z.to_nat n) d).
Proof. intros Hv. draft. intros ? [= <-]. lia. Qed.
Lemma set_stale_count_ok n d : 0 ≤ n < 2 ^ 64 → draft_ok d → draft_ok (set_stale_count (Z.to_nat n) d).
Proof. intros Hv. draft. intros ? [= <-]. lia. Qed.
Lemma set_count_ok k n d : 0 ≤ n < 2 ^ 64 → draft_ok d → draft_ok (set_count k n d).
Proof. intros Hv. draft. intros k' n'. rewrite lookup_insert_Some. intros [[_ <-]|[_ ?]]; [exact Hv|by eapply H4]. Qed.
Lemma push_stale_ok v d : stale_ok v → draft_ok d → draft_ok (push_stale v d).
Proof. intros Hv. draft. apply Forall_app_2; [done|by constructor]. Qed.
Lemma push_source_ok v d : source_ok v → draft_ok d → draft_ok (push_source v d).
Proof. intros Hv. draft. apply Forall_app_2; [done|by constructor]. Qed.

Lemma parse_stale_ok kind a b c e f d d' : parse_stale kind a b c e f d = Ok d' → draft_ok d → draft_ok d'.
Proof.
  unfold parse_stale. intros (? & ?%parse_value_range & (? & ?%parse_value_range & (? & ?%parse_value_range &
    (? & ?%parse_value_range & (? & _ & [= <-])%bind_Ok)%bind_Ok)%bind_Ok)%bind_Ok)%bind_Ok. by apply push_stale_ok.
Qed.
Lemma parse_source_ok run_id a b c e d d' :
  parse_source run_id a b c e d = Ok d' → 0 ≤ run_id < 2 ^ 64 → draft_ok d → draft_ok d'.
Proof.
  unfold parse_source. intros (? & ?%parse_value_range & (? & ?%parse_value_range & (? & ?%parse_value_range &
    (? & ?%parse_value_range & [= <-])%bind_Ok)%bind_Ok)%bind_Ok)%bind_Ok ?. by apply push_source_ok.
Qed.

Lemma parse_pair_ok key value line d d' :
  parse_words [key; value] line d = Ok d' → word value → draft_ok d → draft_ok d'.
Proof.
  unfold parse_words. intros H Hv Hd. repeat case_decide; try discriminate H.
  - by injection H as <-.
  - injection H as <-. by apply set_mode_ok.
  - apply bind_Ok in H as (? & _ & [= <-]). exact Hd.
  - injection H as <-. by apply set_append_mode_ok.
  - apply bind_Ok in H as (? & ?%parse_value_range & [= <-]). by apply set_cap_ok.
  - apply bind_Ok in H as (? & ?%parse_value_range & [= <-]). by apply set_count_ok.
  - apply bind_Ok in H as (? & ?%parse_value_range & [= <-]). by apply set_stale_count_ok.
Qed.
Lemma parse_words_ok parts line d d' :
  parse_words parts line d = Ok d' → Forall word parts → draft_ok d → draft_ok d'.
Proof.
  intros H Hw Hd. destruct parts as [|p1 [|p2 [|p3 [|p4 [|p5 [|p6 [|p7 [|p8 parts]]]]]]]]; try discriminate H.
  - eapply parse_pair_ok; [exact H| |done]. apply Forall_cons_1 in Hw as [_ Hw]. by apply Forall_cons_1 in Hw as [Hw _].
  - unfold parse_words in H. case_decide; [|discriminate H]. by eapply parse_source_ok.
  - unfold parse_words in H. case_decide; [by eapply parse_stale_ok|]. case_decide; [|discriminate H].
    apply bind_Ok in H as (? & ?%parse_value_range & H). by eapply parse_source_ok.
  - unfold parse_words in H. case_decide; [|discriminate H]. apply bind_Ok in H as (? & _ & H). by eapply parse_stale_ok.
Qed.

Lemma parse_lines_ok ls : ∀ d d', for_each parse_line ls d = Ok d' → draft_ok d → draft_ok d'.
Proof.
  induction ls as [|l ls IH]; intros d d'; cbn [for_each]; [by intros [= <-]|].
  intros (d1 & H1 & H2)%bind_Ok Hd. eapply IH; [exact H2|]. eapply parse_words_ok; [exact H1|apply split_are_words|done].
Qed.

Lemma ok_or_Ok {A} (o : option A) m a : ok_or o m = Ok a → o = Some a.
Proof. destruct o; [by intros [= ->]|done]. Qed.

Lemma finish_ok d r : finish d = Ok r → draft_ok d → readable r.
Proof.
  unfold finish. case_decide as Hc; [discriminate|].
  intros H (D1 & D2 & D3 & D4 & D5 & D6 & D7).
  do 12 (apply bind_Ok in H as (? & ?%ok_or_Ok & H)). injection H as <-.
  unfold readable, report_ok. cbn. split_and!; eauto.
Qed.

Lemma read_readable content r : read_text content = Ok r → readable r.
Proof.
  unfold read_text. intros (d & Hd & Hf)%bind_Ok. eapply finish_ok; [exact Hf|].
  eapply parse_lines_ok; [exact Hd|]. apply draft_new_ok.
Qed.

(** C16: a report is read back from the text written for it exactly when its
    numbers have their widths and its two labels are words: not empty and
    without white space. Every report that any text reads as is such a report,
    so what was read once is read again after being written. *)
Theorem report_roundtrip r :
  (read_text (report_text r) = Ok r ↔ readable r) ∧ (∀ content, read_text content = Ok r → readable r).
Proof.
  split; [|intros content; apply read_readable]. split; [apply read_readable|]. intros (Hok & Hm & Ha). by apply read_back.
Qed.

(** ** The check of a fenced run *)
Definition fenced_run (min_head_abs : option u64) (require_retention_pressure : bool) (r : ObservedReport) : Prop :=
  or_delivered_total r ≠ 0 ∧ (∀ m, min_head_abs = Some m → m < or_head_abs r)
  ∧ (require_retention_pressure = true → or_lost_count r ≠ 0)
  ∧ or_rejected_records r = 0 ∧ or_poll_errors r = 0 ∧ or_stale_violations r = []
  ∧ Forall (λ s, sob_delivered s + sob_lost s = sob_expected_total s) (or_sources r).

Section check_lemmas.
Context {BP : BuildProfile}.

Lemma check_source_checks v : is_u64 (sob_delivered v + sob_lost v) →
  checks (check_source v) (sob_delivered v + sob_lost v = sob_expected_total v).
Proof.
  intros Hv. unfold check_source. rewrite add_w_ok, ok_bind by apply Hv. unfold fail. case_decide; cbn; tauto.
Qed.
Lemma check_source_Ok v : overflow_checks = true → source_ok v →
  check_source v = Ok tt ↔ sob_delivered v + sob_lost v = sob_expected_total v.
Proof.
  intros Hp (_ & _ & He & Hd & Hl). destruct (decide (sob_delivered v + sob_lost v < 2 ^ 64)) as [Hlt|Hge].
  - assert (Hu : is_u64 (sob_delivered v + sob_lost v)) by (unfold fits in *; lia).
    pose proof (check_source_checks v Hu) as Hc. split.
    + intros H. by eapply checks_Ok.
    + intros H. destruct (checks_true _ _ Hc H) as ([] & ?). done.
  - unfold check_source, add_w. rewrite bool_decide_false, Hp by done. split; [done|]. unfold fits in *. lia.
Qed.

Lemma each_source_Ok l : overflow_checks = true → Forall source_ok l →
  for_each (λ source _, check_source source) l tt = Ok tt ↔ Forall (λ s, sob_delivered s + sob_lost s = sob_expected_total s) l.
Proof.
  intros Hp. induction l as [|v l IH]; intros Hf; cbn [for_each]; [by rewrite Forall_nil|]. apply Forall_cons_1 in Hf as [Hv Hf].
  rewrite Forall_cons, <-IH, <-check_source_Ok, bind_Ok by done. split; [by intros ([] & ? & ?)|intros []; by exists tt].
Qed.

(** The checks before the per-source ones. *)
Lemma assert_fenced_eq r min_head_abs pressure :
  (∃ e, assert_fenced r min_head_abs pressure = Err e ∧ ¬ fenced_run min_head_abs pressure r)
  ∨ assert_fenced r min_head_abs pressure = for_each (λ source _, check_source source) (or_sources r) tt
    ∧ (fenced_run min_head_abs pressure r ↔ Forall (λ s, sob_delivered s + sob_lost s = sob_expected_total s) (or_sources r)).
Proof.
  unfold assert_fenced, fail, fenced_run.
  destruct (decide (or_delivered_total r = 0)); [left; eexists; split; [done|tauto]|].
  destruct min_head_abs as [m|].
  1: destruct (decide (or_head_abs r ≤ m)); [left; eexists; split; [done|]; intros (_ & Hm & _); specialize (Hm m eq_refl); lia|].
  all: rewrite ok_bind; destruct (decide (pressure = true ∧ or_lost_count r = 0)); [left; eexists; split; [done|tauto]|].
  all: destruct (decide (or_rejected_records r ≠ 0)); [left; eexists; split; [done|tauto]|].
  all: destruct (decide (or_poll_errors r ≠ 0)); [left; eexists; split; [done|tauto]|].
  all: destruct (decide (or_stale_violations r ≠ [])) as [|Hs]; [left; eexists; split; [done|tauto]|].
  all: apply dec_stable in Hs; right; split; [done|]; split; [tauto|]; intros Hf; split_and!; try done; try lia; try tauto.
  intros ? [= <-]. lia.
Qed.
End check_lemmas.

(** C17: the check of a fenced run. With overflow checks it succeeds exactly
    when the run delivered something, passed the asked progress, was under the
    asked pressure, shows no rejected record, poll error or stale record, and
    delivered and lost add up to the expected total of every source. Without
    them the same holds as long as no such sum exceeds a [u64]; then it never
    panics. *)
Theorem fenced_check_exact {BP : BuildProfile} r min_head_abs pressure :
  Forall source_ok (or_sources r) →
  (overflow_checks = true →
   assert_fenced r min_head_abs pressure = Ok tt ↔ fenced_run min_head_abs pressure r)
  ∧ (Forall (λ s, is_u64 (sob_delivered s + sob_lost s)) (or_sources r) →
     checks (assert_fenced r min_head_abs pressure) (fenced_run min_head_abs pressure r)).
Proof.
  intros Hf. destruct (assert_fenced_eq r min_head_abs pressure) as [(e & -> & Hn)|[-> Hiff]]; [by split|]. split.
  - intros Hp. by rewrite each_source_Ok, Hiff.
  - intros Hu. eapply checks_iff; [symmetry; exact Hiff|]. apply checks_for_each. intros v Hv. apply check_source_checks.
    rewrite Forall_forall in Hu. by apply Hu.
Qed.

(** A report of a fenced run of two sources. *)
Definition fenced_report : ObservedReport :=
  {| or_mode := "interleave"; or_fence_mode := Fenced; or_append_mode := "steps"; or_cap := 512; or_head_abs := 90000;
     or_lost_count := 20; or_lapped_batches := 3; or_overwritten_retries := 1; or_rejected_records := 0; or_poll_errors := 0;
     or_delivered_total := 960; or_lost_total := 40; or_stale_violations := [];
     or_sources := [{| sob_run_id := 1; sob_source_id := 1; sob_expected_total := 500; sob_delivered := 470; sob_lost := 30 |};
                    {| sob_run_id := 1; sob_source_id := 7; sob_expected_total := 500; sob_delivered := 490; sob_lost := 10 |}] |}.

Lemma fenced_check_exact_witness :
  @assert_fenced true fenced_report (Some 65536) true = Ok tt
  ∧ @assert_fenced false fenced_report (Some 65536) true = Ok tt.
Proof.
  assert (Hf : Forall source_ok (or_sources fenced_report)).
  { repeat constructor; cbn; unfold fits; cbn; lia. }
  assert (Hr : fenced_run (Some 65536) true fenced_report).
  { unfold fenced_run. split_and!; try done; [by intros ? [= <-]|repeat constructor]. }
  split; [by apply (@fenced_check_exact true)|].
  destruct (@fenced_check_exact false fenced_report (Some 65536) true Hf) as [_ Hc].
  assert (Hu : Forall (λ s, is_u64 (sob_delivered s + sob_lost s)) (or_sources fenced_report)).
  { repeat constructor; cbn; unfold fits; cbn; lia. }
  destruct (checks_true _ _ (Hc Hu) Hr) as ([] & H). exact H.
Defined.

(** The text of a report, and that it is read back. *)
Example fenced_report_text :
  lines (report_text fenced_report) =
  ["report_version 2"; "mode interleave"; "fence fenced"; "append_mode steps"; "cap 512"; "head_abs 90000"; "lost_count 20";
   "lapped_batches 3"; "overwritten_retries 1"; "rejected_records 0"; "poll_errors 0"; "delivered_total 960"; "lost_total 40";
   "stale_violations 0"; "source 1 1 500 470 30"; "source 1 7 500 490 10"]%string
  ∧ read_text (report_text fenced_report) = Ok fenced_report.
Proof. vm_compute. done. Qed.
