(* ===== verification/DefModel.v ===== *)
(** * Definition files (crates/definition/src/model.rs)

    The content model of a definition file and the canonical event schemas. *)
From stdpp Require Import strings.
From S2P Require Import Prelude Registry.
#[local] Open Scope string_scope.
#[local] Open Scope Z_scope.

(** ** The content model *)
Inductive OverflowPolicy := OverwriteOldest | DropNewest | HoldProducer.
Inductive EpochStrategy := Retain | Clear.

(** [Unbounded] keeps the string it was read from. *)
Inductive MaxOccurs := Count (max : u16) | Unbounded (value : string).

Record DefinitionCaps := MkDefinitionCaps {
  dc_crc : bool;
  dc_source_high_water : bool;
}.

Record DefinitionConstraints := MkDefinitionConstraints {
  dk_max_record_size : u16;
  dk_max_slots : u16;
  dk_overflow_policy : OverflowPolicy;
}.

Record DefinitionHeader := MkDefinitionHeader {
  dh_wire_version : u16;
  dh_semantic_version : string;
  dh_profiles : list string;
  dh_conformance_level : string;
  dh_caps : DefinitionCaps;
  dh_constraints : DefinitionConstraints;
  dh_epoch_strategy : EpochStrategy;
  dh_content_hash : string;
}.

Record SlotDefinition := MkSlotDefinition {
  sd_key : u16;
  sd_tlv_type : option u8;
  sd_value_payload : bool;
  sd_min_occurs : u16;
  sd_max_occurs : MaxOccurs;
  sd_order_class : u16;
}.

Record EventTypeDefinition := MkEventTypeDefinition {
  et_id : u32;
  et_name : string;
  et_profile : string;
  et_slots : list SlotDefinition;
}.

Record SourceDefinition := MkSourceDefinition {
  so_source_id : u32;
  so_name : string;
  so_path : list string;
  so_hierarchy : list string;
  so_dynamic : bool;
}.

Record StateMachineDefinition := MkStateMachineDefinition {
  sm_state_machine_id : u32;
  sm_name : string;
  sm_category : u16;
  sm_procedural_model : option string;
  sm_enum_set : string;
}.

Record CauseOperandDefinition := MkCauseOperandDefinition {
  op_operand_id : u32;
  op_name : string;
}.

Record ConditionDefinition := MkConditionDefinition {
  co_condition_id : u32;
  co_name : string;
  co_condition_class : u16;
  co_default_severity : u16;
  co_cause_operands : list CauseOperandDefinition;
}.

Record MessageTemplateDefinition := MkMessageTemplateDefinition {
  mt_message_template_id : u32;
  mt_name : string;
  mt_format : string;
  mt_arg_types : list u8;
}.

Record ScaledInteger := MkScaledInteger {
  si_value : Z;
  si_scale : u32;
}.

Record Deadband := MkDeadband {
  db_decimal : option string;
  db_scaled : option ScaledInteger;
}.

Record ValueDefinition := MkValueDefinition {
  va_value_id : u32;
  va_name : string;
  va_data_type : u8;
  va_semantic_role : u16;
  va_unit : option u16;
  va_deadband : option Deadband;
  va_sampling_policy : option string;
}.

Record UnitDefinition := MkUnitDefinition {
  un_unit_id : u16;
  un_symbol : string;
}.

Record EnumMember := MkEnumMember {
  em_value : u16;
  em_label : string;
}.

Record EnumSetDefinition := MkEnumSetDefinition {
  se_name : string;
  se_members : list EnumMember;
}.

Record RecipeDefinition := MkRecipeDefinition {
  re_recipe_id : u32;
  re_name : string;
  re_version : option string;
}.

Record BatchDefinition := MkBatchDefinition {
  ba_batch_id : u32;
  ba_name : string;
  ba_recipe : option u32;
}.

Record MaterialDefinition := MkMaterialDefinition {
  ma_material_id : u32;
  ma_name : string;
  ma_unit : option u16;
}.

Record OperatorDefinition := MkOperatorDefinition {
  or_actor : string;
  or_name : string;
  or_roles : list string;
}.

Record ESignatureMeaningDefinition := MkESignatureMeaningDefinition {
  es_meaning : u16;
  es_label : string;
}.

Record SeverityBandDefinition := MkSeverityBandDefinition {
  sb_min : u16;
  sb_max : u16;
}.

Record SeverityScale := MkSeverityScale {
  ss_name : string;
  ss_low : SeverityBandDefinition;
  ss_medium : SeverityBandDefinition;
  ss_high : SeverityBandDefinition;
}.

Record DefinitionFile := MkDefinitionFile {
  df_header : DefinitionHeader;
  df_event_types : list EventTypeDefinition;
  df_sources : list SourceDefinition;
  df_state_machines : list StateMachineDefinition;
  df_conditions : list ConditionDefinition;
  df_message_templates : list MessageTemplateDefinition;
  df_values : list ValueDefinition;
  df_units : list UnitDefinition;
  df_enum_sets : list EnumSetDefinition;
  df_recipe_definitions : list RecipeDefinition;
  df_batch_definitions : list BatchDefinition;
  df_material_definitions : list MaterialDefinition;
  df_operator_definitions : list OperatorDefinition;
  df_e_signature_meanings : list ESignatureMeaningDefinition;
  df_severity_scale : SeverityScale;
}.

#[global] Instance MaxOccurs_eq_dec : EqDecision MaxOccurs.
Proof. solve_decision. Defined.
#[global] Instance SlotDefinition_eq_dec : EqDecision SlotDefinition.
Proof. solve_decision. Defined.
#[global] Instance EventTypeDefinition_eq_dec : EqDecision EventTypeDefinition.
Proof. solve_decision. Defined.

(** ** The canonical schemas *)
Definition slot (key : u16) (tlv_type : u8) (min_occurs : u16) (max_occurs : MaxOccurs) (order_class : u16)
  : SlotDefinition :=
  {| sd_key := key; sd_tlv_type := Some tlv_type; sd_value_payload := false; sd_min_occurs := min_occurs;
     sd_max_occurs := max_occurs; sd_order_class := order_class |}.
Definition value_slot (key min_occurs : u16) (max_occurs : MaxOccurs) (order_class : u16) : SlotDefinition :=
  {| sd_key := key; sd_tlv_type := None; sd_value_payload := true; sd_min_occurs := min_occurs;
     sd_max_occurs := max_occurs; sd_order_class := order_class |}.

(** The arms of the [match] of [canonical_event_type], in two halves. *)
Definition canonical_core_slots (id : u32) : option (list SlotDefinition) :=
  if decide (id = EVENT_STATE_TRANSITION) then Some [
      slot KEY_STATE_MACHINE_ID TY_UDINT 1 (Count 1) 1;
      slot KEY_CATEGORY TY_UINT 1 (Count 1) 2;
      slot KEY_PREVIOUS_STATE TY_UINT 1 (Count 1) 3;
      slot KEY_NEW_STATE TY_UINT 1 (Count 1) 4] else
  if decide (id = EVENT_VALUE_CHANGED) then Some [
      slot KEY_VALUE_ID TY_UDINT 1 (Count 1) 1;
      value_slot KEY_NEW_VALUE 1 (Count 1) 2;
      value_slot KEY_PREVIOUS_VALUE 0 (Count 1) 3;
      slot KEY_QUALITY TY_UINT 0 (Count 1) 4;
      slot KEY_SEMANTIC_ROLE TY_UINT 0 (Count 1) 5;
      slot KEY_UNIT TY_UINT 0 (Count 1) 6] else
  if decide (id = EVENT_MESSAGE) then Some [
      slot KEY_MESSAGE_TEMPLATE_ID TY_UDINT 1 (Count 1) 1;
      value_slot KEY_ARG 0 (Unbounded "unbounded") 2;
      slot KEY_SEVERITY TY_UINT 0 (Count 1) 3] else
  if decide (id = EVENT_HEARTBEAT) then Some [
      slot KEY_INTERVAL_MS TY_UDINT 0 (Count 1) 1;
      slot KEY_SEQ_BASE TY_ULINT 0 (Count 1) 2] else
  if decide (id = EVENT_LOGGER_STARTED) then Some [
      slot KEY_COLD_START TY_BOOL 1 (Count 1) 1] else
  if decide (id = EVENT_LOGGER_STOPPED ∨ id = EVENT_BUFFER_CLEARED) then Some [] else
  if decide (id = EVENT_RECORDS_DROPPED) then Some [
      slot KEY_DROPPED_COUNT TY_UDINT 1 (Count 1) 1;
      slot KEY_FIRST_LOST_SEQ TY_ULINT 1 (Count 1) 2;
      slot KEY_LAST_LOST_SEQ TY_ULINT 1 (Count 1) 3;
      slot KEY_WINDOW_START TY_DATE_TIME 0 (Count 1) 4;
      slot KEY_WINDOW_END TY_DATE_TIME 0 (Count 1) 5] else
  if decide (id = EVENT_SOURCE_REGISTERED) then Some [
      slot KEY_REGISTERED_SOURCE_ID TY_UDINT 1 (Count 1) 1;
      slot KEY_SOURCE_PATH TY_STRING 0 (Count 1) 2] else
  if decide (id = EVENT_DEFINITION_CHANGED) then Some [
      slot KEY_DEF_HASH_OLD TY_BYTES 1 (Count 1) 1;
      slot KEY_DEF_HASH_NEW TY_BYTES 1 (Count 1) 2;
      slot KEY_EPOCH_ID TY_ULINT 1 (Count 1) 3] else
  if decide (id = EVENT_TIME_SYNC_CHANGED) then Some [
      slot KEY_CLOCK_QUALITY TY_UINT 1 (Count 1) 1;
      slot KEY_WINDOW_START TY_DATE_TIME 0 (Count 1) 2;
      slot KEY_WINDOW_END TY_DATE_TIME 0 (Count 1) 3] else
  if decide (id = EVENT_SOURCE_HIGH_WATER) then Some [
      slot KEY_SOURCE_HIGH_WATER TY_ULINT 1 (Count 1) 1] else
  if decide (id = EVENT_CONDITION_ACTIVE) then Some [
      slot KEY_CONDITION_ID TY_UDINT 1 (Count 1) 1;
      slot KEY_CONDITION_CLASS TY_UINT 1 (Count 1) 2;
      slot KEY_CORRELATION_ID TY_UDINT 1 (Count 1) 3;
      slot KEY_SEVERITY TY_UINT 0 (Count 1) 4;
      slot KEY_CAUSE_OPERAND TY_UDINT 0 (Unbounded "unbounded") 5;
      slot KEY_GROUP_ID TY_UDINT 0 (Count 1) 6;
      slot KEY_FIRST_IN_GROUP TY_BOOL 0 (Count 1) 7;
      slot KEY_REFRESH_ID TY_UDINT 0 (Count 1) 8] else
  if decide (id = EVENT_CONDITION_CLEARED) then Some [
      slot KEY_CONDITION_ID TY_UDINT 1 (Count 1) 1;
      slot KEY_CONDITION_CLASS TY_UINT 1 (Count 1) 2;
      slot KEY_CORRELATION_ID TY_UDINT 1 (Count 1) 3;
      slot KEY_REFRESH_ID TY_UDINT 0 (Count 1) 4] else
  if decide (id = EVENT_CONDITION_ACKNOWLEDGED ∨ id = EVENT_CONDITION_CONFIRMED) then Some [
      slot KEY_CONDITION_ID TY_UDINT 1 (Count 1) 1;
      slot KEY_CORRELATION_ID TY_UDINT 1 (Count 1) 2;
      slot KEY_ACK_BY TY_STRING 0 (Count 1) 3;
      slot KEY_REFRESH_ID TY_UDINT 0 (Count 1) 4] else
  if decide (id = EVENT_CONDITION_SHELVED) then Some [
      slot KEY_CONDITION_ID TY_UDINT 1 (Count 1) 1;
      slot KEY_CORRELATION_ID TY_UDINT 1 (Count 1) 2;
      slot KEY_ACK_BY TY_STRING 0 (Count 1) 3;
      slot KEY_SHELVE_SECS TY_UDINT 0 (Count 1) 4;
      slot KEY_REFRESH_ID TY_UDINT 0 (Count 1) 5] else
  if decide (id = EVENT_CONDITION_UNSHELVED) then Some [
      slot KEY_CONDITION_ID TY_UDINT 1 (Count 1) 1;
      slot KEY_CORRELATION_ID TY_UDINT 1 (Count 1) 2;
      slot KEY_REFRESH_ID TY_UDINT 0 (Count 1) 3] else
  if decide (id = EVENT_CONDITION_SUPPRESSED) then Some [
      slot KEY_CONDITION_ID TY_UDINT 1 (Count 1) 1;
      slot KEY_REASON TY_STRING 0 (Count 1) 2;
      slot KEY_REFRESH_ID TY_UDINT 0 (Count 1) 3] else
  if decide (id = EVENT_CONDITION_UNSUPPRESSED ∨ id = EVENT_CONDITION_IN_SERVICE) then Some [
      slot KEY_CONDITION_ID TY_UDINT 1 (Count 1) 1;
      slot KEY_REFRESH_ID TY_UDINT 0 (Count 1) 2] else
  None.

Definition canonical_late_slots (id : u32) : option (list SlotDefinition) :=
  if decide (id = EVENT_CONDITION_OUT_OF_SERVICE) then Some [
      slot KEY_CONDITION_ID TY_UDINT 1 (Count 1) 1;
      slot KEY_ACK_BY TY_STRING 0 (Count 1) 2;
      slot KEY_REFRESH_ID TY_UDINT 0 (Count 1) 3] else
  if decide (id = EVENT_CONDITION_COMMENTED) then Some [
      slot KEY_CONDITION_ID TY_UDINT 1 (Count 1) 1;
      slot KEY_CORRELATION_ID TY_UDINT 1 (Count 1) 2;
      slot KEY_COMMENT TY_STRING 1 (Count 1) 3;
      slot KEY_ACK_BY TY_STRING 0 (Count 1) 4;
      slot KEY_REFRESH_ID TY_UDINT 0 (Count 1) 5] else
  if decide (id = EVENT_CONDITION_RESET) then Some [
      slot KEY_CONDITION_ID TY_UDINT 1 (Count 1) 1;
      slot KEY_CORRELATION_ID TY_UDINT 1 (Count 1) 2;
      slot KEY_ACK_BY TY_STRING 0 (Count 1) 3;
      slot KEY_REFRESH_ID TY_UDINT 0 (Count 1) 4] else
  if decide (id = EVENT_CONDITION_PRIORITY_CHANGED) then Some [
      slot KEY_CONDITION_ID TY_UDINT 1 (Count 1) 1;
      slot KEY_PREVIOUS_PRIORITY TY_UINT 1 (Count 1) 2;
      slot KEY_NEW_PRIORITY TY_UINT 1 (Count 1) 3;
      slot KEY_ACK_BY TY_STRING 0 (Count 1) 4;
      slot KEY_REFRESH_ID TY_UDINT 0 (Count 1) 5] else
  if decide (id = EVENT_REFRESH_START ∨ id = EVENT_REFRESH_END) then Some [
      slot KEY_REFRESH_ID TY_UDINT 1 (Count 1) 1] else
  if decide (id = EVENT_RECIPE_LOADED) then Some [
      slot KEY_RECIPE_ID TY_UDINT 1 (Count 1) 1;
      slot KEY_RECIPE_VERSION TY_STRING 1 (Count 1) 2;
      slot KEY_BATCH_ID TY_UDINT 0 (Count 1) 3;
      slot KEY_EFFECTIVE_TIME TY_DATE_TIME 0 (Count 1) 4] else
  if decide (id = EVENT_RECIPE_APPROVED) then Some [
      slot KEY_RECIPE_ID TY_UDINT 1 (Count 1) 1;
      slot KEY_RECIPE_VERSION TY_STRING 1 (Count 1) 2;
      slot KEY_AUTH_RESULT TY_UINT 0 (Count 1) 3;
      slot KEY_ACK_BY TY_STRING 0 (Count 1) 4] else
  if decide (id = EVENT_BATCH_EVENT) then Some [
      slot KEY_BATCH_ID TY_UDINT 1 (Count 1) 1;
      slot KEY_NEW_STATE TY_UINT 1 (Count 1) 2;
      slot KEY_RECIPE_ID TY_UDINT 0 (Count 1) 3] else
  if decide (id = EVENT_MATERIAL_ADDITION) then Some [
      slot KEY_BATCH_ID TY_UDINT 1 (Count 1) 1;
      slot KEY_MATERIAL_ID TY_UDINT 1 (Count 1) 2;
      slot KEY_QUANTITY TY_LREAL 1 (Count 1) 3;
      slot KEY_UNIT TY_UINT 0 (Count 1) 4;
      slot KEY_CORRECTION_OF TY_ULINT 0 (Count 1) 5] else
  if decide (id = EVENT_OPERATOR_ACTION) then Some [
      slot KEY_ACTION_ID TY_UDINT 1 (Count 1) 1;
      slot KEY_ACTOR TY_STRING 1 (Count 1) 2;
      slot KEY_CONTEXT_REF TY_UDINT 0 (Unbounded "unbounded") 3;
      slot KEY_AUTH_RESULT TY_UINT 0 (Count 1) 4;
      slot KEY_WORKSTATION TY_STRING 0 (Count 1) 5] else
  if decide (id = EVENT_OPERATOR_LOGIN) then Some [
      slot KEY_ACTOR TY_STRING 1 (Count 1) 1;
      slot KEY_AUTH_RESULT TY_UINT 1 (Count 1) 2;
      slot KEY_WORKSTATION TY_STRING 0 (Count 1) 3;
      slot KEY_ROLE TY_UINT 0 (Count 1) 4] else
  if decide (id = EVENT_OPERATOR_LOGOUT) then Some [
      slot KEY_ACTOR TY_STRING 1 (Count 1) 1;
      slot KEY_WORKSTATION TY_STRING 0 (Count 1) 2] else
  if decide (id = EVENT_PARAMETER_CHANGE) then Some [
      slot KEY_VALUE_ID TY_UDINT 1 (Count 1) 1;
      value_slot KEY_PREVIOUS_VALUE 1 (Count 1) 2;
      value_slot KEY_NEW_VALUE 1 (Count 1) 3;
      slot KEY_ACTOR TY_STRING 1 (Count 1) 4;
      slot KEY_REASON TY_STRING 1 (Count 1) 5;
      slot KEY_AUTH_RESULT TY_UINT 0 (Count 1) 6] else
  if decide (id = EVENT_ESIGNATURE) then Some [
      slot KEY_ACTION_ID TY_UDINT 1 (Count 1) 1;
      slot KEY_ACTOR TY_STRING 1 (Count 1) 2;
      slot KEY_SIGNATURE_MEANING TY_UINT 1 (Count 1) 3;
      slot KEY_SIGNED_EVENT_SEQ TY_ULINT 1 (Count 1) 4;
      slot KEY_AUTH_RESULT TY_UINT 0 (Count 1) 5] else
  if decide (id = EVENT_SECURITY_ACCESS_FAILURE) then Some [
      slot KEY_ACTOR TY_STRING 1 (Count 1) 1;
      slot KEY_WORKSTATION TY_STRING 0 (Count 1) 2;
      slot KEY_REASON TY_STRING 0 (Count 1) 3] else
  if decide (id = EVENT_PROGRAM_DOWNLOAD) then Some [
      slot KEY_DEF_HASH_NEW TY_BYTES 1 (Count 1) 1;
      slot KEY_PROGRAM_ID TY_UDINT 1 (Count 1) 2;
      slot KEY_ACTOR TY_STRING 1 (Count 1) 3;
      slot KEY_AUTH_RESULT TY_UINT 0 (Count 1) 4] else
  None.

Definition canonical_slots (id : u32) : option (list SlotDefinition) :=
  match canonical_core_slots id with Some slots => Some slots | None => canonical_late_slots id end.

Definition canonical_event_type (id : u32) : option EventTypeDefinition :=
  slots ← canonical_slots id;
  spec ← event_spec id;
  Some {| et_id := id; et_name := es_name spec;
          et_profile := match es_group spec with Base => "Core" | _ => "Full" end; et_slots := slots |}.

(** [expect] panics where a registered event has no schema. *)
Definition canonical_event_types {E} : res E (list EventTypeDefinition) :=
  for_each (λ spec acc,
    match canonical_event_type (es_id spec) with Some e => Ok (acc ++ [e])%list | None => Panic end) EVENT_SPECS [].

Definition PRODUCER_MAX_RECORD_SIZE : u16 := 256.

(** The [values] of [sample_definition]. *)
Definition sample_values : list ValueDefinition := [
  {| va_value_id := 2001; va_name := "Temperature"; va_data_type := TY_REAL; va_semantic_role := 0;
    va_unit := None; va_deadband := (Some {| db_decimal := (Some "0.5"); db_scaled := None |});
    va_sampling_policy := None |};
  {| va_value_id := 2002; va_name := "BatchCount"; va_data_type := TY_DINT; va_semantic_role := 3;
    va_unit := None; va_deadband := None; va_sampling_policy := (Some "on-change") |};
  {| va_value_id := 2003; va_name := "Enabled"; va_data_type := TY_BOOL; va_semantic_role := 0; va_unit
    := None; va_deadband := None; va_sampling_policy := (Some "on-change") |};
  {| va_value_id := 2004; va_name := "SmallSigned"; va_data_type := TY_SINT; va_semantic_role := 0;
    va_unit := None; va_deadband := None; va_sampling_policy := (Some "on-change") |};
  {| va_value_id := 2005; va_name := "SmallUnsigned"; va_data_type := TY_USINT; va_semantic_role := 0;
    va_unit := None; va_deadband := None; va_sampling_policy := (Some "on-change") |};
  {| va_value_id := 2006; va_name := "SignedWord"; va_data_type := TY_INT; va_semantic_role := 0;
    va_unit := None; va_deadband := None; va_sampling_policy := (Some "on-change") |};
  {| va_value_id := 2007; va_name := "UnsignedWord"; va_data_type := TY_UINT; va_semantic_role := 0;
    va_unit := None; va_deadband := None; va_sampling_policy := (Some "on-change") |};
  {| va_value_id := 2008; va_name := "UnsignedDoubleWord"; va_data_type := TY_UDINT; va_semantic_role :=
    0; va_unit := None; va_deadband := None; va_sampling_policy := (Some "on-change") |};
  {| va_value_id := 2009; va_name := "UnsignedLong"; va_data_type := TY_ULINT; va_semantic_role := 0;
    va_unit := None; va_deadband := None; va_sampling_policy := (Some "on-change") |};
  {| va_value_id := 2010; va_name := "SignedLong"; va_data_type := TY_LINT; va_semantic_role := 0;
    va_unit := None; va_deadband := None; va_sampling_policy := (Some "on-change") |};
  {| va_value_id := 2011; va_name := "HighPrecision"; va_data_type := TY_LREAL; va_semantic_role := 0;
    va_unit := None; va_deadband := None; va_sampling_policy := (Some "on-change") |};
  {| va_value_id := 2012; va_name := "StatusText"; va_data_type := TY_STRING; va_semantic_role := 5;
    va_unit := None; va_deadband := None; va_sampling_policy := (Some "on-change") |}].

(** [expect] aside, the schemas are a constant. *)
Definition sample_definition {E} : res E DefinitionFile :=
  event_types ← canonical_event_types;
  Ok
    {| df_header := {| dh_wire_version := 2; dh_semantic_version := "1.0.0"; dh_profiles := ["Core";
      "Full"]; dh_conformance_level := "Producer-Full";
    dh_caps := {| dc_crc := true; dc_source_high_water := true |}; dh_constraints := {| dk_max_record_size
      := PRODUCER_MAX_RECORD_SIZE; dk_max_slots := 16; dk_overflow_policy := OverwriteOldest |};
    dh_epoch_strategy := Retain; dh_content_hash := "" |};
    df_event_types := event_types;
    df_sources := [{| so_source_id := 66; so_name := "UnitA.Phase1"; so_path := ["Area1"; "UnitA";
      "Phase1"]; so_hierarchy := ["area"; "unit"; "phase"]; so_dynamic := false |}];
    df_state_machines := [{| sm_state_machine_id := 7; sm_name := "CoreProcedure"; sm_category := 2;
      sm_procedural_model := (Some "ISA-88"); sm_enum_set := "CoreProcedureStates" |}];
    df_conditions := [{| co_condition_id := 9001; co_name := "HighPhAlarm"; co_condition_class := 0;
      co_default_severity := 900; co_cause_operands := [{| op_operand_id := 1; op_name := "Level" |}] |}];
    df_message_templates := [{| mt_message_template_id := 1001; mt_name := "Status"; mt_format :=
      "Status: {1}"; mt_arg_types := [TY_STRING] |}];
    df_values := sample_values;
    df_units := [];
    df_enum_sets := [{| se_name := "CoreProcedureStates"; se_members := [{| em_value := 3; em_label :=
      "Pausing" |}; {| em_value := 4; em_label := "Paused" |}] |}];
    df_recipe_definitions := [];
    df_batch_definitions := [];
    df_material_definitions := [];
    df_operator_definitions := [];
    df_e_signature_meanings := ((λ meaning, {| es_meaning := (ev_value meaning); es_label := (ev_label
      meaning) |}) <$> SIGNATURE_MEANING_VALUES);
    df_severity_scale := {| ss_name := "baseline"; ss_low := {| sb_min := 1; sb_max := 332 |}; ss_medium
      := {| sb_min := 333; sb_max := 666 |}; ss_high := {| sb_min := 667; sb_max := 1000 |} |} |}.
