(* ===== verification/DefSchema.v ===== *)
(** * Definition schemas (crates/definition/src/schema.rs)

    Validation of definition files and of records against them, with a
    declarative specification that both checks decide. *)
From stdpp Require Import strings.
From S2P Require Import Prelude Wire Registry DefModel.
#[local] Open Scope Z_scope.

Definition VALUE_PAYLOAD_SCHEMA_TYPE : u8 := 0xFF.

(** ** Violations *)
Inductive DefinitionSchemaViolation :=
| DuplicateEventId (id : u32)
| DuplicateSlotKey (event_id : u32) (key : u16)
| OrderClassNotAscending (event_id : u32) (previous current : u16)
| CoreTypeMismatch (event_id : u32) (key : u16) (actual expected : u8)
| DefUnknownTlvType (event_id : u32) (key : u16) (ty : u8)
| DefReservedCoreKey (event_id : u32) (key : u16)
| InvalidMaxOccurs (event_id : u32) (key : u16)
| UnknownProceduralModel (state_machine_id : u32) (model : string)
| MissingEnumSet (state_machine_id : u32) (enum_set : string)
| ProceduralStateMismatch (state_machine_id : u32) (model : string) (value : u16) (label : string).

Inductive SchemaViolation :=
| BadDefinition (v : DefinitionSchemaViolation)
| UnknownEventId (id : u32)
| RecordTooLarge (actual max : usize)
| TooManySlots (actual max : usize)
| UnexpectedCoreKey (key : u16)
| VendorExtensionNotTrailing (key : u16)
| VendorExtensionOutOfOrder (previous key : u16)
| TypeMismatch (key : u16) (actual expected : u8)
| UnknownTlvType (key : u16) (ty : u8)
| ReservedCoreKey (key : u16)
| FixedWidthMismatch (key : u16) (ty : u8) (actual expected : usize)
| MissingRequired (key : u16) (min : u16) (actual : usize)
| TooManyOccurrences (key : u16) (max : u16) (actual : usize)
| RepeatedSlotNotContiguous (key : u16)
| OrderClassViolation (previous current key : u16)
| EncodeFailed (e : WireError).

Record PlaceholderRecord := MkPlaceholderRecord {
  ph_source_id : u32;
  ph_event_type_id : u32;
  ph_run_id : u64;
  ph_seq : u64;
  ph_slots : list Slot;
  ph_reason : SchemaViolation;
}.

Inductive SchemaValidation :=
| Valid (extension_keys : list u16)
| Placeholder (p : PlaceholderRecord).

Definition placeholder (record : WireRecord) (reason : SchemaViolation) : SchemaValidation :=
  Placeholder {| ph_source_id := rec_source_id record; ph_event_type_id := rec_event_type_id record;
                 ph_run_id := rec_run_id record; ph_seq := rec_seq record; ph_slots := rec_slots record;
                 ph_reason := reason |}.

(** ** Definitions *)
Definition validate_max_occurs (event_id : u32) (slot : SlotDefinition) : res DefinitionSchemaViolation unit :=
  match sd_max_occurs slot with
  | Count max =>
      if decide (max < sd_min_occurs slot ∨ max = 0) then Err (InvalidMaxOccurs event_id (sd_key slot)) else Ok tt
  | Unbounded value =>
      if decide (value ≠ "unbounded"%string) then Err (InvalidMaxOccurs event_id (sd_key slot)) else Ok tt
  end.

(** What is left to check of a slot that is not a value payload of the core. *)
Definition validate_plain_type (event_id : u32) (slot : SlotDefinition) : res DefinitionSchemaViolation unit :=
  if sd_value_payload slot
  then Err (CoreTypeMismatch event_id (sd_key slot) VALUE_PAYLOAD_SCHEMA_TYPE
              (default VALUE_PAYLOAD_SCHEMA_TYPE (sd_tlv_type slot))) else
  match sd_tlv_type slot with
  | None => Err (DefUnknownTlvType event_id (sd_key slot) VALUE_PAYLOAD_SCHEMA_TYPE)
  | Some tlv_type =>
      match tlv_type_spec tlv_type with
      | None => Err (DefUnknownTlvType event_id (sd_key slot) tlv_type)
      | Some _ => Ok tt
      end
  end.

Definition validate_slot_definition_type (event_id : u32) (slot : SlotDefinition)
  : res DefinitionSchemaViolation unit :=
  let actual := default VALUE_PAYLOAD_SCHEMA_TYPE (sd_tlv_type slot) in
  match field_spec (sd_key slot) with
  | Some field =>
      match fs_kind field with
      | Fixed expected =>
          if decide (sd_tlv_type slot ≠ Some expected ∨ sd_value_payload slot = true)
          then Err (CoreTypeMismatch event_id (sd_key slot) actual expected)
          else validate_plain_type event_id slot
      | ValuePayload =>
          if decide (sd_value_payload slot = false ∨ is_Some (sd_tlv_type slot))
          then Err (CoreTypeMismatch event_id (sd_key slot) actual VALUE_PAYLOAD_SCHEMA_TYPE) else Ok tt
      | Reserved => Err (DefReservedCoreKey event_id (sd_key slot))
      end
  | None =>
      if is_core_key (sd_key slot) then Err (DefReservedCoreKey event_id (sd_key slot))
      else validate_plain_type event_id slot
  end.

(** The body of the loop of [validate_event_definition]; the state is the
    previous order class and the keys seen. *)
Definition validate_event_slot (event_id : u32) (slot : SlotDefinition) (s : option u16 * gset Z)
  : res DefinitionSchemaViolation (option u16 * gset Z) :=
  let '(previous_order_class, keys) := s in
  if decide (sd_key slot ∈ keys) then Err (DuplicateSlotKey event_id (sd_key slot)) else
  _ ← match previous_order_class with
      | Some previous =>
          if decide (sd_order_class slot ≤ previous)
          then Err (OrderClassNotAscending event_id previous (sd_order_class slot)) else Ok tt
      | None => Ok tt
      end;
  _ ← validate_max_occurs event_id slot;
  _ ← validate_slot_definition_type event_id slot;
  Ok (Some (sd_order_class slot), {[ sd_key slot ]} ∪ keys).

Definition validate_event_definition (event : EventTypeDefinition) : res DefinitionSchemaViolation unit :=
  _ ← for_each (validate_event_slot (et_id event)) (et_slots event) (None, ∅);
  Ok tt.

Definition validate_machine_model (definition : DefinitionFile) (machine : StateMachineDefinition)
  : res DefinitionSchemaViolation unit :=
  match sm_procedural_model machine with
  | None => Ok tt
  | Some model_name =>
      match List.find (λ model, eq_ignore_ascii_case (pm_name model) model_name) PROCEDURAL_MODELS with
      | None => Err (UnknownProceduralModel (sm_state_machine_id machine) model_name)
      | Some model =>
          match List.find (λ enum_set, bool_decide (se_name enum_set = sm_enum_set machine))
                  (df_enum_sets definition) with
          | None => Err (MissingEnumSet (sm_state_machine_id machine) (sm_enum_set machine))
          | Some enum_set =>
              for_each (λ member _,
                if existsb (λ state, bool_decide (ev_value state = em_value member ∧ ev_label state = em_label member))
                     (pm_states model)
                then Ok tt
                else Err (ProceduralStateMismatch (sm_state_machine_id machine) (pm_name model) (em_value member)
                            (em_label member))) (se_members enum_set) tt
          end
      end
  end.

Definition validate_state_machine_models (definition : DefinitionFile) : res DefinitionSchemaViolation unit :=
  for_each (λ machine _, validate_machine_model definition machine) (df_state_machines definition) tt.

(** The body of the loop of [validate_definition]. *)
Definition validate_event (event : EventTypeDefinition) (event_ids : gset Z)
  : res DefinitionSchemaViolation (gset Z) :=
  if decide (et_id event ∈ event_ids) then Err (DuplicateEventId (et_id event)) else
  _ ← validate_event_definition event;
  Ok ({[ et_id event ]} ∪ event_ids).

Definition validate_definition (definition : DefinitionFile) : res DefinitionSchemaViolation unit :=
  _ ← for_each validate_event (df_event_types definition) ∅;
  validate_state_machine_models definition.

(** ** Records *)
Definition encoded_record_len (record : WireRecord) : res WireError usize :=
  let with_crc := has_crc (rec_flags record) in
  encoded ← encode record with_crc;
  Ok (length encoded).

Definition validate_record_slot_type (slot : Slot) (schema : SlotDefinition) : res SchemaViolation unit :=
  match field_spec (slot_key slot) with
  | Some field =>
      match fs_kind field with
      | ValuePayload =>
          match tlv_type_spec (slot_ty slot) with
          | None => Err (UnknownTlvType (slot_key slot) (slot_ty slot))
          | Some _ => Ok tt
          end
      | Fixed expected =>
          if decide (slot_ty slot ≠ expected) then Err (TypeMismatch (slot_key slot) (slot_ty slot) expected)
          else Ok tt
      | Reserved => Err (ReservedCoreKey (slot_key slot))
      end
  | None =>
      if is_core_key (slot_key slot) then Err (ReservedCoreKey (slot_key slot)) else
      if decide (Some (slot_ty slot) ≠ sd_tlv_type schema)
      then Err (TypeMismatch (slot_key slot) (slot_ty slot) (default VALUE_PAYLOAD_SCHEMA_TYPE (sd_tlv_type schema)))
      else Ok tt
  end.

(** The value id of a record: the first slot of that key with four bytes. *)
Definition record_value_id (record : WireRecord) : option u32 :=
  (λ candidate, from_le_bytes (slot_payload candidate)) <$>
    List.find (λ candidate, bool_decide (slot_key candidate = KEY_VALUE_ID ∧ length (slot_payload candidate) = 4%nat))
      (rec_slots record).

Definition validate_value_payload_type (slot : Slot) (record : WireRecord) (definition : DefinitionFile)
  : res SchemaViolation unit :=
  if decide (slot_key slot ≠ KEY_PREVIOUS_VALUE ∧ slot_key slot ≠ KEY_NEW_VALUE) then Ok tt else
  match record_value_id record with
  | None => Ok tt
  | Some value_id =>
      match List.find (λ value_def, bool_decide (va_value_id value_def = value_id)) (df_values definition) with
      | None => Ok tt
      | Some value_def =>
          if decide (slot_ty slot ≠ va_data_type value_def)
          then Err (TypeMismatch (slot_key slot) (slot_ty slot) (va_data_type value_def)) else Ok tt
      end
  end.

Definition validate_payload_width (slot : Slot) : res SchemaViolation unit :=
  match tlv_type_spec (slot_ty slot) with
  | None => Err (UnknownTlvType (slot_key slot) (slot_ty slot))
  | Some spec =>
      _ ← match ts_fixed_width spec with
          | Some expected =>
              if decide (length (slot_payload slot) ≠ expected)
              then Err (FixedWidthMismatch (slot_key slot) (slot_ty slot) (length (slot_payload slot)) expected)
              else Ok tt
          | None => Ok tt
          end;
      if decide (slot_payload slot = [] ∧ slot_ty slot ≠ TY_STRING ∧ slot_ty slot ≠ TY_BYTES)
      then Err (FixedWidthMismatch (slot_key slot) (slot_ty slot) 0 (default 1%nat (ts_fixed_width spec)))
      else Ok tt
  end.

(** [windows(2)] all consecutive. *)
Fixpoint is_contiguous (positions : list nat) : bool :=
  match positions with
  | x :: (y :: _) as rest => bool_decide (y = S x) && is_contiguous rest
  | _ => true
  end.

(** [collect::<BTreeMap>]: a later slot of the same key wins. *)
Definition schema_by_key (slots : list SlotDefinition) : gmap Z SlotDefinition :=
  foldl (λ m s, <[sd_key s := s]> m) ∅ slots.

(** The variables of the first loop of [validate_record_slots]. *)
Record SlotScan := MkSlotScan {
  sc_counts : gmap Z nat;
  sc_positions : gmap Z (list nat);
  sc_known_order : list (u16 * u16);
  sc_extension_keys : list u16;
  sc_previous_vendor_key : option u16;
  sc_saw_vendor_extension : bool;
}.

Definition scan_init : SlotScan :=
  {| sc_counts := ∅; sc_positions := ∅; sc_known_order := []; sc_extension_keys := [];
     sc_previous_vendor_key := None; sc_saw_vendor_extension := false |}.

Definition scan_slot (record : WireRecord) (event : EventTypeDefinition) (definition : DefinitionFile)
    (indexed : nat * Slot) (s : SlotScan) : res SchemaViolation SlotScan :=
  let '(index, slot) := indexed in
  match schema_by_key (et_slots event) !! slot_key slot with
  | Some schema =>
      if sc_saw_vendor_extension s then Err (VendorExtensionNotTrailing (slot_key slot)) else
      _ ← validate_record_slot_type slot schema;
      _ ← validate_value_payload_type slot record definition;
      _ ← validate_payload_width slot;
      Ok {| sc_counts := <[slot_key slot := S (default 0%nat (sc_counts s !! slot_key slot))]> (sc_counts s);
            sc_positions := <[slot_key slot := default [] (sc_positions s !! slot_key slot) ++ [index]]> (sc_positions s);
            sc_known_order := sc_known_order s ++ [(sd_order_class schema, slot_key slot)];
            sc_extension_keys := sc_extension_keys s;
            sc_previous_vendor_key := sc_previous_vendor_key s;
            sc_saw_vendor_extension := sc_saw_vendor_extension s |}
  | None =>
      if is_vendor_key (slot_key slot) then
        _ ← match sc_previous_vendor_key s with
            | Some previous =>
                if decide (slot_key slot ≤ previous) then Err (VendorExtensionOutOfOrder previous (slot_key slot))
                else Ok tt
            | None => Ok tt
            end;
        Ok {| sc_counts := sc_counts s; sc_positions := sc_positions s; sc_known_order := sc_known_order s;
              sc_extension_keys := sc_extension_keys s ++ [slot_key slot];
              sc_previous_vendor_key := Some (slot_key slot); sc_saw_vendor_extension := true |}
      else Err (UnexpectedCoreKey (slot_key slot))
  end.

(** The second loop, over a [BTreeMap], by ascending key. *)
Definition check_contiguous (positions : gmap Z (list nat)) : res SchemaViolation unit :=
  for_each (λ p _, if is_contiguous p.2 then Ok tt else Err (RepeatedSlotNotContiguous p.1))
    (sort_by_key fst (map_to_list positions)) tt.

(** The third loop. *)
Definition check_order (known_order : list (u16 * u16)) : res SchemaViolation (option u16) :=
  for_each (λ '(order_class, key) previous_order_class,
    match previous_order_class with
    | Some previous =>
        if decide (order_class < previous) then Err (OrderClassViolation previous order_class key)
        else Ok (Some order_class)
    | None => Ok (Some order_class)
    end) known_order None.

(** The last loop. *)
Definition check_occurrences (counts : gmap Z nat) (schema : SlotDefinition) : res SchemaViolation unit :=
  let actual := default 0%nat (counts !! sd_key schema) in
  if decide (Z.of_nat actual < sd_min_occurs schema)
  then Err (MissingRequired (sd_key schema) (sd_min_occurs schema) actual) else
  match sd_max_occurs schema with
  | Count max => if decide (max < Z.of_nat actual) then Err (TooManyOccurrences (sd_key schema) max actual) else Ok tt
  | Unbounded _ => Ok tt
  end.

Definition validate_record_slots (record : WireRecord) (event : EventTypeDefinition) (definition : DefinitionFile)
  : res SchemaViolation (list u16) :=
  s ← for_each (scan_slot record event definition) (imap pair (rec_slots record)) scan_init;
  _ ← check_contiguous (sc_positions s);
  _ ← check_order (sc_known_order s);
  _ ← for_each (λ schema _, check_occurrences (sc_counts s) schema) (et_slots event) tt;
  Ok (sc_extension_keys s).

Definition find_event (definition : DefinitionFile) (id : u32) : option EventTypeDefinition :=
  List.find (λ event, bool_decide (et_id event = id)) (df_event_types definition).

(** An error becomes a placeholder; there is no panic to pass on. *)
Definition or_placeholder {A} (record : WireRecord) (m : res SchemaViolation A) (f : A → res unit SchemaValidation)
  : res unit SchemaValidation :=
  match m with
  | Ok a => f a
  | Err reason => Ok (placeholder record reason)
  | Panic => Panic
  | Diverge => Diverge
  end.

Definition schema_validate_record (record : WireRecord) (record_len : usize) (definition : DefinitionFile)
  : res unit SchemaValidation :=
  let constraints := dh_constraints (df_header definition) in
  or_placeholder record (map_err BadDefinition (validate_definition definition)) (λ _,
  if decide (dk_max_record_size constraints < Z.of_nat record_len)
  then Ok (placeholder record (RecordTooLarge record_len (Z.to_nat (dk_max_record_size constraints)))) else
  if decide (dk_max_slots constraints < Z.of_nat (length (rec_slots record)))
  then Ok (placeholder record (TooManySlots (length (rec_slots record)) (Z.to_nat (dk_max_slots constraints)))) else
  match find_event definition (rec_event_type_id record) with
  | None => Ok (placeholder record (UnknownEventId (rec_event_type_id record)))
  | Some event =>
      or_placeholder record (validate_record_slots record event definition) (λ extension_keys,
      Ok (Valid extension_keys))
  end).

(** ** What a well-formed definition is *)
Definition plain_type_ok (s : SlotDefinition) : Prop :=
  sd_value_payload s = false ∧ ∃ ty, sd_tlv_type s = Some ty ∧ is_Some (tlv_type_spec ty).

(** A core key has the type the registry fixes, a private key any known type. *)
Definition slot_type_ok (s : SlotDefinition) : Prop :=
  match field_spec (sd_key s) with
  | Some field =>
      match fs_kind field with
      | Fixed expected => sd_tlv_type s = Some expected ∧ plain_type_ok s
      | ValuePayload => sd_value_payload s = true ∧ sd_tlv_type s = None
      | Reserved => False
      end
  | None => is_core_key (sd_key s) = false ∧ plain_type_ok s
  end.

Definition max_occurs_ok (s : SlotDefinition) : Prop :=
  match sd_max_occurs s with
  | Count max => sd_min_occurs s ≤ max ∧ max ≠ 0
  | Unbounded value => value = "unbounded"%string
  end.

Definition event_ok (event : EventTypeDefinition) : Prop :=
  NoDup (sd_key <$> et_slots event)
  ∧ StronglySorted (λ x y, sd_order_class x < sd_order_class y) (et_slots event)
  ∧ Forall (λ s, max_occurs_ok s ∧ slot_type_ok s) (et_slots event).

(** The states of a procedural machine are states of the model it names. *)
Definition machine_ok (definition : DefinitionFile) (machine : StateMachineDefinition) : Prop :=
  match sm_procedural_model machine with
  | None => True
  | Some name => ∃ model enum_set,
      List.find (λ m, eq_ignore_ascii_case (pm_name m) name) PROCEDURAL_MODELS = Some model
      ∧ List.find (λ e, bool_decide (se_name e = sm_enum_set machine)) (df_enum_sets definition) = Some enum_set
      ∧ Forall (λ m, Exists (λ st, ev_value st = em_value m ∧ ev_label st = em_label m) (pm_states model))
          (se_members enum_set)
  end.

Definition definition_ok (definition : DefinitionFile) : Prop :=
  NoDup (et_id <$> df_event_types definition) ∧ Forall event_ok (df_event_types definition)
  ∧ Forall (machine_ok definition) (df_state_machines definition).

(** ** What a conforming record is *)
Definition width_ok (slot : Slot) : Prop :=
  ∃ spec, tlv_type_spec (slot_ty slot) = Some spec
    ∧ (∀ w, ts_fixed_width spec = Some w → length (slot_payload slot) = w)
    ∧ (slot_payload slot = [] → slot_ty slot = TY_STRING ∨ slot_ty slot = TY_BYTES).

Definition type_ok (schema : SlotDefinition) (slot : Slot) : Prop :=
  match field_spec (slot_key slot) with
  | Some field =>
      match fs_kind field with
      | Fixed expected => slot_ty slot = expected
      | ValuePayload => is_Some (tlv_type_spec (slot_ty slot))
      | Reserved => False
      end
  | None => is_core_key (slot_key slot) = false ∧ Some (slot_ty slot) = sd_tlv_type schema
  end.

(** The old and new value have the type the definition gives the value. *)
Definition value_type_ok (record : WireRecord) (definition : DefinitionFile) (slot : Slot) : Prop :=
  slot_key slot = KEY_PREVIOUS_VALUE ∨ slot_key slot = KEY_NEW_VALUE →
  ∀ value_id value_def, record_value_id record = Some value_id →
    List.find (λ v, bool_decide (va_value_id v = value_id)) (df_values definition) = Some value_def →
    slot_ty slot = va_data_type value_def.

(** The slots of a record that the event declares, with their schemas, and the others. *)
Definition known_slots (event : EventTypeDefinition) (slots : list Slot) : list (Slot * SlotDefinition) :=
  omap (λ s, (s,.) <$> schema_by_key (et_slots event) !! slot_key s) slots.
Definition other_slots (event : EventTypeDefinition) (slots : list Slot) : list Slot :=
  filter (λ s, schema_by_key (et_slots event) !! slot_key s = None) slots.

Definition occurrences (event : EventTypeDefinition) (slots : list Slot) (key : u16) : nat :=
  length (filter (λ p, slot_key p.1 = key) (known_slots event slots)).

(** The declared slots come first, well typed; the rest are private extensions
    in ascending order. *)
Definition slots_split (record : WireRecord) (event : EventTypeDefinition) (definition : DefinitionFile)
    (slots : list Slot) : Prop :=
  slots = (known_slots event slots).*1 ++ other_slots event slots
  ∧ Forall (λ p, type_ok p.2 p.1 ∧ value_type_ok record definition p.1 ∧ width_ok p.1) (known_slots event slots)
  ∧ Forall (λ s, is_vendor_key (slot_key s) = true) (other_slots event slots)
  ∧ StronglySorted (λ x y, slot_key x < slot_key y) (other_slots event slots).

Definition slots_conform (record : WireRecord) (event : EventTypeDefinition) (definition : DefinitionFile) : Prop :=
  slots_split record event definition (rec_slots record)
  ∧ StronglySorted (λ x y, sd_order_class x.2 ≤ sd_order_class y.2) (known_slots event (rec_slots record))
  ∧ Forall (λ schema,
      sd_min_occurs schema ≤ Z.of_nat (occurrences event (rec_slots record) (sd_key schema))
      ∧ match sd_max_occurs schema with
        | Count max => Z.of_nat (occurrences event (rec_slots record) (sd_key schema)) ≤ max
        | Unbounded _ => True
        end) (et_slots event).

Definition conforms (record : WireRecord) (record_len : usize) (definition : DefinitionFile) : Prop :=
  definition_ok definition
  ∧ Z.of_nat record_len ≤ dk_max_record_size (dh_constraints (df_header definition))
  ∧ Z.of_nat (length (rec_slots record)) ≤ dk_max_slots (dh_constraints (df_header definition))
  ∧ ∃ event, find_event definition (rec_event_type_id record) = Some event ∧ slots_conform record event definition.

(** ** Validation of definitions decides [definition_ok] *)
Lemma check_max_occurs id s : checks (validate_max_occurs id s) (max_occurs_ok s).
Proof.
  unfold validate_max_occurs, max_occurs_ok. destruct (sd_max_occurs s) as [max|v].
  - eapply checks_iff; [|apply checks_if]. lia.
  - eapply checks_iff; [|apply checks_if]. destruct (decide (v = "unbounded"%string)); tauto.
Qed.

Lemma check_plain_type id s : checks (validate_plain_type id s) (plain_type_ok s).
Proof.
  unfold validate_plain_type, plain_type_ok. destruct (sd_value_payload s); [by intros [? _]|].
  destruct (sd_tlv_type s) as [ty|]; [|by intros (_ & ty & ? & _)].
  destruct (tlv_type_spec ty) as [spec|] eqn:Hs.
  - split; [done|]. exists ty. by rewrite Hs.
  - intros (_ & ? & [= <-] & [? ?]). congruence.
Qed.

Lemma check_slot_type id s : checks (validate_slot_definition_type id s) (slot_type_ok s).
Proof.
  unfold validate_slot_definition_type, slot_type_ok. destruct (field_spec (sd_key s)) as [f|].
  - destruct (fs_kind f) as [ty| |]; [| |by intros []].
    + case_decide as Hd.
      { intros [H1 [H2 _]]. destruct Hd as [?|?]; congruence. }
      eapply checks_iff; [|apply check_plain_type]. split; [|tauto]. intros Hp. split; [|done].
      destruct (decide (sd_tlv_type s = Some ty)); tauto.
    + case_decide as Hd; cbn.
      * intros [H1 H2]. destruct Hd as [?|[? ?]]; congruence.
      * destruct (sd_value_payload s), (sd_tlv_type s); try done; exfalso; apply Hd; auto; right; by eexists.
  - destruct (is_core_key (sd_key s)); [by intros [? _]|]. eapply checks_iff; [|apply check_plain_type]. tauto.
Qed.

(** What the loop over the slots of an event has accepted. *)
Definition slots_accepted (slots : list SlotDefinition) : Prop :=
  NoDup (sd_key <$> slots) ∧ StronglySorted (λ x y, sd_order_class x < sd_order_class y) slots
  ∧ Forall (λ s, max_occurs_ok s ∧ slot_type_ok s) slots.

Lemma last_below l s :
  StronglySorted (λ x y, sd_order_class x < sd_order_class y) l →
  (∀ x, last l = Some x → sd_order_class x < sd_order_class s) →
  Forall (λ x, sd_order_class x < sd_order_class s) l.
Proof.
  induction l as [|y l _] using rev_ind; [done|]. intros Hs Hl. rewrite last_snoc in Hl. specialize (Hl y eq_refl).
  apply Forall_app. split; [|by constructor]. apply StronglySorted_app in Hs as (Hyl & _ & _).
  apply Forall_forall. intros x Hx. specialize (Hyl x y Hx ltac:(by left)). lia.
Qed.

Lemma slots_accepted_snoc l s :
  slots_accepted (l ++ [s]) ↔
    slots_accepted l ∧ (sd_key s ∉ (sd_key <$> l))
    ∧ (∀ x, last l = Some x → sd_order_class x < sd_order_class s) ∧ max_occurs_ok s ∧ slot_type_ok s.
Proof.
  unfold slots_accepted. rewrite fmap_app, NoDup_app, StronglySorted_app, Forall_app, Forall_singleton. split.
  - intros ((H1 & H2 & _) & (H3 & H4 & _) & H5 & H6 & H7). split_and!; try done.
    + intros Hin. apply (H2 _ Hin). by left.
    + intros x Hx. apply last_Some in Hx as [l' ->]. apply (H3 x s); [|by left]. apply elem_of_app. right. by left.
  - intros ((H1 & H2 & H3) & H4 & H5 & H6 & H7). split_and!; try done.
    + intros x Hx Hx'. apply list_elem_of_singleton in Hx' as ->. done.
    + apply NoDup_singleton.
    + intros x y Hx ->%list_elem_of_singleton. pose proof (last_below l s H2 H5) as Hb. rewrite Forall_forall in Hb. by apply Hb.
    + by repeat constructor.
Qed.

Lemma check_event_slots id l :
  match for_each (validate_event_slot id) l (None, ∅) with
  | Ok (prev, keys) => slots_accepted l ∧ prev = sd_order_class <$> last l ∧ keys = list_to_set (sd_key <$> l)
  | Err _ => ¬ slots_accepted l
  | _ => False
  end.
Proof.
  induction l as [|s l IH] using rev_ind; [cbn; split_and!; [split_and!; constructor|done|done]|].
  rewrite for_each_app. destruct (for_each _ l _) as [[prev keys]|e| |]; cbn [mbind res_bind]; try done.
  2: { intros Ha%slots_accepted_snoc. tauto. }
  destruct IH as (Ha & -> & ->). cbn [for_each]. unfold validate_event_slot.
  case_decide as Hk.
  { intros Ha'%slots_accepted_snoc. rewrite elem_of_list_to_set in Hk. tauto. }
  rewrite elem_of_list_to_set in Hk.
  assert (Hprev : checks (match sd_order_class <$> last l with
      | Some previous => if decide (sd_order_class s ≤ previous)
          then Err (OrderClassNotAscending id previous (sd_order_class s)) else Ok tt
      | None => Ok tt end) (∀ x, last l = Some x → sd_order_class x < sd_order_class s)).
  { destruct (last l) as [x|]; [|done]. eapply checks_iff; [|apply checks_if]. naive_solver lia. }
  pose proof (check_max_occurs id s) as Hm. pose proof (check_slot_type id s) as Ht.
  destruct (match sd_order_class <$> last l with Some _ => _ | None => _ end) as [[]|e| |]; cbn in Hprev |- *; try done.
  2: { intros Ha'%slots_accepted_snoc. tauto. }
  destruct (validate_max_occurs id s) as [[]|e| |]; cbn in Hm |- *; try done.
  2: { intros Ha'%slots_accepted_snoc. tauto. }
  destruct (validate_slot_definition_type id s) as [[]|e| |]; cbn in Ht |- *; try done.
  2: { intros Ha'%slots_accepted_snoc. tauto. }
  split_and!; [by apply slots_accepted_snoc|by rewrite last_snoc|].
  rewrite fmap_app, list_to_set_app_L. cbn. set_solver.
Qed.

Lemma check_event event : checks (validate_event_definition event) (event_ok event).
Proof.
  unfold validate_event_definition. pose proof (check_event_slots (et_id event) (et_slots event)) as H.
  destruct (for_each _ _ _) as [[prev keys]|e| |]; cbn; [by destruct H|done..].
Qed.

Lemma check_events l :
  match for_each validate_event l ∅ with
  | Ok ids => (NoDup (et_id <$> l) ∧ Forall event_ok l) ∧ ids = list_to_set (et_id <$> l)
  | Err _ => ¬ (NoDup (et_id <$> l) ∧ Forall event_ok l)
  | _ => False
  end.
Proof.
  induction l as [|s l IH] using rev_ind; [cbn; split_and!; constructor|].
  rewrite for_each_app. assert (Hs : NoDup (et_id <$> l ++ [s]) ∧ Forall event_ok (l ++ [s]) ↔
    (NoDup (et_id <$> l) ∧ Forall event_ok l) ∧ (et_id s ∉ (et_id <$> l)) ∧ event_ok s).
  { rewrite fmap_app, NoDup_app, Forall_app, Forall_singleton. cbn. split.
    - intros ((H1 & H2 & _) & H3 & H4). split_and!; try done. intros Hin. apply (H2 _ Hin). by left.
    - intros ((H1 & H3) & H2 & H4). split_and!; try done; [|apply NoDup_singleton].
      intros x Hx ->%list_elem_of_singleton. done. }
  destruct (for_each validate_event l ∅) as [ids|e| |]; cbn [mbind res_bind]; try done; [|tauto].
  destruct IH as [Hl ->]. cbn [for_each]. unfold validate_event.
  case_decide as Hin; rewrite elem_of_list_to_set in Hin; [cbn; tauto|].
  pose proof (check_event s) as He. destruct (validate_event_definition s) as [[]|e| |]; cbn in He |- *; try done; [|tauto].
  split; [tauto|]. rewrite fmap_app, list_to_set_app_L. cbn. set_solver.
Qed.

Lemma check_machine definition machine :
  checks (validate_machine_model definition machine) (machine_ok definition machine).
Proof.
  unfold validate_machine_model, machine_ok. destruct (sm_procedural_model machine) as [name|]; [|done].
  destruct (List.find _ PROCEDURAL_MODELS) as [model|]; [|by intros (? & ? & ? & _)].
  destruct (List.find _ (df_enum_sets definition)) as [es|]; [|by intros (? & ? & _ & ? & _)].
  eapply checks_iff; [|apply (checks_for_each _ (λ m, Exists (λ st, ev_value st = em_value m ∧ ev_label st = em_label m)
    (pm_states model)))].
  - split; [intros H; by exists model, es|]. intros (m & e & [= <-] & [= <-] & H). done.
  - intros m _. destruct (existsb _ (pm_states model)) eqn:Hb; cbn.
    + apply existsb_exists in Hb as (st & Hin & Hst). apply bool_decide_eq_true in Hst.
      apply Exists_exists. exists st. split; [by apply list_elem_of_In|done].
    + intros (st & Hin & Hst)%Exists_exists. assert (existsb (λ state, bool_decide (ev_value state = em_value m
        ∧ ev_label state = em_label m)) (pm_states model) = true); [|congruence].
      apply existsb_exists. exists st. split; [by apply list_elem_of_In|]. by apply bool_decide_eq_true.
Qed.

Lemma check_definition definition : checks (validate_definition definition) (definition_ok definition).
Proof.
  unfold validate_definition, definition_ok. pose proof (check_events (df_event_types definition)) as H.
  destruct (for_each validate_event _ _) as [ids|e| |]; cbn [mbind res_bind]; try done; [|cbn; tauto].
  destruct H as [[H1 H2] _]. eapply checks_iff; [|apply checks_for_each; intros m _; apply check_machine]. tauto.
Qed.

(** ** Validation of a record decides [slots_conform] *)
Lemma check_slot schema slot : checks (validate_record_slot_type slot schema) (type_ok schema slot).
Proof.
  unfold validate_record_slot_type, type_ok. destruct (field_spec (slot_key slot)) as [f|].
  - destruct (fs_kind f) as [ty| |].
    + eapply checks_iff; [|apply checks_if]. destruct (decide (slot_ty slot = ty)); tauto.
    + destruct (tlv_type_spec (slot_ty slot)); cbn; [by eexists|by intros [? ?]].
    + by intros [].
  - destruct (is_core_key (slot_key slot)); [by intros [? _]|]. eapply checks_iff; [|apply checks_if].
    destruct (decide (Some (slot_ty slot) = sd_tlv_type schema)); tauto.
Qed.

Lemma check_value_type slot record definition :
  checks (validate_value_payload_type slot record definition) (value_type_ok record definition slot).
Proof.
  unfold validate_value_payload_type, value_type_ok. case_decide as Hk; [cbn; tauto|].
  destruct (record_value_id record) as [id|]; [|by intros _ ? ?].
  destruct (List.find _ (df_values definition)) as [v|] eqn:Hv; [|intros _ ? ? [= <-]; by rewrite Hv].
  eapply checks_iff; [|apply checks_if]. split.
  - intros Hne _ id' v' [= <-]. rewrite Hv. intros [= <-]. destruct (decide (slot_ty slot = va_data_type v)); tauto.
  - intros H Hne. apply Hne. apply (H ltac:(destruct (decide (slot_key slot = KEY_PREVIOUS_VALUE)); [by left|right];
      destruct (decide (slot_key slot = KEY_NEW_VALUE)); tauto) id v eq_refl Hv).
Qed.

Lemma check_width slot : checks (validate_payload_width slot) (width_ok slot).
Proof.
  unfold validate_payload_width, width_ok. destruct (tlv_type_spec (slot_ty slot)) as [spec|]; [|by intros (? & ? & _)].
  eapply checks_iff; [|apply (checks_bind _ _ (∀ w, ts_fixed_width spec = Some w → length (slot_payload slot) = w)
    (slot_payload slot = [] → slot_ty slot = TY_STRING ∨ slot_ty slot = TY_BYTES))].
  - split; [intros [H1 H2]; exists spec; split_and!; [done|exact H1|exact H2]|].
    intros (spec' & [= <-] & H1 & H2). split; [exact H1|exact H2].
  - destruct (ts_fixed_width spec) as [w|]; [|done]. eapply checks_iff; [|apply checks_if].
    split; [intros H ? [= <-]; lia|]. intros H. rewrite (H w) by done. tauto.
  - intros _ _. eapply checks_iff; [|apply checks_if].
    destruct (decide (slot_payload slot = [])), (decide (slot_ty slot = TY_STRING)), (decide (slot_ty slot = TY_BYTES)); tauto.
Qed.

(** *** The first loop *)
Section scan.
Context (record : WireRecord) (event : EventTypeDefinition) (definition : DefinitionFile).
Abbreviation known := (known_slots event).
Abbreviation others := (other_slots event).
Abbreviation schema_of s := (schema_by_key (et_slots event) !! slot_key s).

(** The positions of a key among the declared slots. *)
Definition positions (key : u16) (l : list (Slot * SlotDefinition)) : list nat :=
  (imap pair l) ≫= λ p, if decide (slot_key p.2.1 = key) then [p.1] else [].

Definition scanned (l : list Slot) (s : SlotScan) : Prop :=
  (∀ key, default 0%nat (sc_counts s !! key) = occurrences event l key)
  ∧ (∀ key, sc_positions s !! key = match positions key (known l) with [] => None | ps => Some ps end)
  ∧ sc_known_order s = (λ p, (sd_order_class p.2, slot_key p.1)) <$> known l
  ∧ sc_extension_keys s = slot_key <$> others l
  ∧ sc_previous_vendor_key s = slot_key <$> last (others l)
  ∧ sc_saw_vendor_extension s = bool_decide (others l ≠ []).

Lemma known_snoc l s : known (l ++ [s]) = known l ++ match schema_of s with Some sch => [(s, sch)] | None => [] end.
Proof. unfold known_slots. rewrite omap_app. f_equal. cbn. by destruct (schema_by_key _ !! _). Qed.

Lemma others_snoc l s : others (l ++ [s]) = others l ++ match schema_of s with Some _ => [] | None => [s] end.
Proof.
  unfold other_slots. rewrite filter_app. f_equal. rewrite filter_cons, filter_nil.
  destruct (schema_by_key _ !! _) eqn:Hs; [by rewrite decide_False|by rewrite decide_True].
Qed.

Lemma positions_snoc key l p :
  positions key (l ++ [p]) = positions key l ++ (if decide (slot_key p.1 = key) then [length l] else []).
Proof.
  unfold positions. rewrite imap_app. cbn. rewrite bind_app. cbn. rewrite Nat.add_0_r. by case_decide.
Qed.

(** A slot after a prefix that splits. *)
Lemma split_snoc_known l s sch :
  schema_of s = Some sch →
  slots_split record event definition (l ++ [s]) ↔
    slots_split record event definition l ∧ others l = []
    ∧ type_ok sch s ∧ value_type_ok record definition s ∧ width_ok s.
Proof.
  intros Hs. unfold slots_split. rewrite known_snoc, others_snoc, Hs, app_nil_r, fmap_app, Forall_app, Forall_singleton.
  cbn [fmap list_fmap fst]. split.
  - intros (Heq & (H1 & H2) & H3 & H4).
    assert (Ho : others l = []).
    { destruct (others l) as [|x o _] eqn:Ho using rev_ind; [done|]. exfalso.
      rewrite app_assoc in Heq. apply app_inj_2 in Heq as [_ Heq]; [|done]. injection Heq as ->.
      assert (Hin : x ∈ others l) by (rewrite Ho; apply elem_of_app; right; by left).
      apply list_elem_of_filter in Hin as [Hin _]. congruence. }
    rewrite Ho, app_nil_r in *. apply app_inj_2 in Heq as [Heq _]; [|done]. split_and!; try done; apply H2.
  - intros ((H0 & H1 & H3 & H4) & Ho & H5). rewrite Ho, app_nil_r in *. split_and!; try done; [by rewrite <-H0|apply H5..].
Qed.

Lemma split_snoc_other l s :
  schema_of s = None →
  slots_split record event definition (l ++ [s]) ↔
    slots_split record event definition l ∧ is_vendor_key (slot_key s) = true
    ∧ (∀ x, last (others l) = Some x → slot_key x < slot_key s).
Proof.
  intros Hs. unfold slots_split. rewrite known_snoc, others_snoc, Hs, app_nil_r, app_assoc, Forall_app, Forall_singleton.
  rewrite StronglySorted_app. split.
  - intros (Heq & H1 & (H2 & H3) & H4 & H5 & _). apply app_inj_2 in Heq as [Heq _]; [|done]. split_and!; try done.
    intros x Hx. apply (H4 x s); [|by left]. by apply last_Some_elem_of.
  - intros ((H0 & H1 & H2 & H3) & H4 & H5). split_and!; try done; [by rewrite <-H0| |by repeat constructor].
    intros x y Hx ->%list_elem_of_singleton. clear -H3 H5 Hx.
    destruct (others l) as [|z o _] using rev_ind; [by apply not_elem_of_nil in Hx|]. rewrite last_snoc in H5.
    specialize (H5 z eq_refl). apply elem_of_app in Hx as [Hx| ->%list_elem_of_singleton]; [|done].
    apply StronglySorted_app in H3 as (H3 & _). specialize (H3 x z Hx ltac:(by left)). lia.
Qed.

Lemma scan_spec l :
  match for_each (scan_slot record event definition) (imap pair l) scan_init with
  | Ok s => slots_split record event definition l ∧ scanned l s
  | Err _ => ¬ slots_split record event definition l
  | _ => False
  end.
Proof.
  induction l as [|x l IH] using rev_ind.
  { cbn. split; [split_and!; constructor|]. split_and!; done. }
  rewrite imap_app, for_each_app. cbn [imap]. rewrite Nat.add_0_r.
  assert (Hsub : slots_split record event definition (l ++ [x]) → slots_split record event definition l).
  { destruct (schema_of x) as [sch|] eqn:Hx; [rewrite (split_snoc_known _ _ _ Hx)|rewrite (split_snoc_other _ _ Hx)]; tauto. }
  destruct (for_each _ (imap pair l) _) as [s|e| |]; cbn [mbind res_bind]; [|by intros ?%Hsub|done..].
  destruct IH as (Hl & Hc & Hp & Ho & He & Hv & Hs). cbn [for_each]. unfold scan_slot.
  destruct (schema_of x) as [sch|] eqn:Hx.
  - pose proof (split_snoc_known l _ _ Hx) as Hiff. rewrite Hs. case_bool_decide as Hn; [cbn; intros ?%Hiff; tauto|].
    assert (Hoth : others l = []) by (destruct (others l); [done|by destruct Hn]).
    pose proof (check_slot sch x) as H1. destruct (validate_record_slot_type x sch) as [[]|e| |]; cbn in H1 |- *;
      try done; [|intros ?%Hiff; tauto].
    pose proof (check_value_type x record definition) as H2.
    destruct (validate_value_payload_type x record definition) as [[]|e| |]; cbn in H2 |- *;
      try done; [|intros ?%Hiff; tauto].
    pose proof (check_width x) as H3. destruct (validate_payload_width x) as [[]|e| |]; cbn in H3 |- *;
      try done; [|intros ?%Hiff; tauto].
    split; [apply Hiff; tauto|]. unfold scanned. cbn [sc_counts sc_positions sc_known_order sc_extension_keys sc_previous_vendor_key
      sc_saw_vendor_extension]. rewrite known_snoc, others_snoc, Hx, app_nil_r. split_and!; try done.
    + intros key. unfold occurrences in *. rewrite known_snoc, Hx, filter_app, length_app, filter_cons, filter_nil. cbn [fst].
      case_decide as Hk; [subst key; rewrite lookup_insert_eq; cbn; rewrite Hc; lia|].
      rewrite lookup_insert_ne, Hc by done. cbn. lia.
    + intros key. rewrite positions_snoc. cbn [fst].
      assert (Hlen : length (known l) = length l).
      { destruct Hl as (Hl & _). rewrite Hoth, app_nil_r in Hl. rewrite Hl at 2. by rewrite length_fmap. }
      case_decide as Hk.
      * subst key. rewrite lookup_insert_eq, Hp, Hlen. by destruct (positions (slot_key x) (known l)).
      * rewrite lookup_insert_ne, app_nil_r by done. apply Hp.
    + by rewrite Ho, fmap_app.
    + by rewrite Hoth.
  - pose proof (split_snoc_other l _ Hx) as Hiff.
    destruct (is_vendor_key (slot_key x)) eqn:Hvk; [|cbn; intros ?%Hiff; naive_solver].
    assert (Hprev : checks (match sc_previous_vendor_key s with
        | Some previous => if decide (slot_key x ≤ previous) then Err (VendorExtensionOutOfOrder previous (slot_key x)) else Ok tt
        | None => Ok tt end) (∀ y, last (others l) = Some y → slot_key y < slot_key x)).
    { rewrite Hv. destruct (last (others l)) as [y|]; [|done]. eapply checks_iff; [|apply checks_if]. naive_solver lia. }
    destruct (match sc_previous_vendor_key s with Some _ => _ | None => _ end) as [[]|e| |]; cbn in Hprev |- *;
      try done; [|intros ?%Hiff; tauto].
    split; [apply Hiff; tauto|]. unfold scanned. cbn [sc_counts sc_positions sc_known_order sc_extension_keys sc_previous_vendor_key
      sc_saw_vendor_extension]. unfold occurrences. rewrite known_snoc, others_snoc, Hx, app_nil_r. split_and!; try done.
    + by rewrite He, fmap_app.
    + by rewrite last_snoc.
    + symmetry. apply bool_decide_eq_true. by destruct (others l).
Qed.
End scan.

(** *** The other loops *)
Lemma check_order_spec l :
  match check_order l with
  | Ok prev => StronglySorted (λ x y, x.1 ≤ y.1) l ∧ prev = fst <$> last l
  | Err _ => ¬ StronglySorted (λ x y, x.1 ≤ y.1) l
  | _ => False
  end.
Proof.
  unfold check_order. induction l as [|[c k] l IH] using rev_ind; [by repeat constructor|]. rewrite for_each_app.
  destruct (for_each _ l None) as [prev|e| |]; cbn [mbind res_bind]; try done.
  2: { intros H. apply StronglySorted_app in H as (_ & H & _). done. }
  destruct IH as [Hs ->]. rewrite last_snoc.
  assert (Hiff : StronglySorted (λ x y, x.1 ≤ y.1) (l ++ [(c, k)]) ↔ ∀ x, last l = Some x → x.1 ≤ c).
  { split.
    - intros H x Hx. apply StronglySorted_app in H as (H & _). apply (H x (c, k)); [by apply last_Some_elem_of|by left].
    - intros H. apply StronglySorted_snoc; [done|]. apply Forall_forall. intros x Hx.
      destruct l as [|z l _] using rev_ind; [by apply not_elem_of_nil in Hx|]. rewrite last_snoc in H. specialize (H z eq_refl).
      apply elem_of_app in Hx as [Hx| ->%list_elem_of_singleton]; [|done].
      apply StronglySorted_app in Hs as (Hs & _). specialize (Hs x z Hx ltac:(by left)). cbn in *. lia. }
  cbn [for_each]. destruct (last l) as [[c0 k0]|]; cbn [fmap option_fmap option_map fst].
  - case_decide as Hc; cbn.
    + intros H. pose proof (proj1 Hiff H _ eq_refl) as H0. cbn in H0. lia.
    + split; [|done]. apply Hiff. intros x [= <-]. cbn. lia.
  - cbn. split; [|done]. by apply Hiff.
Qed.

Lemma schema_by_key_elem slots key sch :
  schema_by_key slots !! key = Some sch → sch ∈ slots ∧ sd_key sch = key.
Proof.
  unfold schema_by_key. induction slots as [|s slots IH] using rev_ind; [done|]. rewrite foldl_snoc.
  intros [[<- <-]|[_ H%IH]]%lookup_insert_Some; [split; [apply elem_of_app; right; by left|done]|].
  split; [apply elem_of_app; left; apply H|by apply H].
Qed.

Lemma contiguous_snoc l i : is_contiguous l → last l = Some i → is_contiguous (l ++ [S i]).
Proof.
  induction l as [|x [|y l] IH]; intros Hc Hl; [done| |].
  - injection Hl as ->. cbn. by rewrite bool_decide_true.
  - cbn [app is_contiguous] in *. apply andb_prop_elim in Hc as [Hx Hc]. apply andb_prop_intro. split; [done|]. by apply IH.
Qed.

Section order.
Context (event : EventTypeDefinition) (Hev : event_ok event).

Lemma same_class s1 s2 :
  s1 ∈ et_slots event → s2 ∈ et_slots event → sd_order_class s1 = sd_order_class s2 → s1 = s2.
Proof.
  destruct Hev as (_ & Hs & _). revert Hs. induction 1 as [|x l Hl IH Hx]; intros H1 H2 Heq; [by apply not_elem_of_nil in H1|].
  rewrite Forall_forall in Hx. apply elem_of_cons in H1 as [->|H1], H2 as [->|H2]; try done.
  - specialize (Hx _ H2). lia.
  - specialize (Hx _ H1). lia.
  - by apply IH.
Qed.

(** Sorting by order class leaves the slots of a key together. *)
Lemma sorted_contiguous (L : list (Slot * SlotDefinition)) key :
  Forall (λ p, p.2 ∈ et_slots event ∧ sd_key p.2 = slot_key p.1) L →
  StronglySorted (λ x y, sd_order_class x.2 ≤ sd_order_class y.2) L →
  is_contiguous (positions key L)
  ∧ (positions key L = [] ∨ ∃ i, last (positions key L) = Some i
       ∧ Exists (λ p, slot_key p.1 = key) L
       ∧ (S i = length L ∨ ∃ p, last L = Some p ∧ slot_key p.1 ≠ key)).
Proof.
  induction L as [|p L IH] using rev_ind; intros Hd Hs; [split; [done|by left]|].
  apply Forall_app in Hd as [Hd Hp]. apply Forall_singleton in Hp as [Hp1 Hp2].
  apply StronglySorted_app in Hs as (Hlt & Hs & _). destruct (IH Hd Hs) as [Hc Hl]. rewrite positions_snoc, length_app.
  cbn [length]. case_decide as Hk.
  - split; [|right; exists (length L); split_and!; [by rewrite last_snoc|apply Exists_app; right; by constructor|left; lia]].
    destruct Hl as [->|(i & Hi & Hex & Hi')]; [done|]. assert (S i = length L) as <-; [|by apply contiguous_snoc].
    destruct Hi' as [?|(q & Hq & Hne)]; [done|]. destruct Hne. apply last_Some in Hq as [L' ->].
    apply Exists_exists in Hex as (p' & Hp' & Hk'). rewrite Forall_forall in Hd.
    assert (Hq : q ∈ L' ++ [q]) by (apply elem_of_app; right; by left).
    destruct (Hd _ Hq) as [Hq1 Hq2], (Hd _ Hp') as [Hp1' Hp2'].
    assert (Hsch : p'.2 = p.2).
    { destruct Hev as (Hnd & _). apply list_elem_of_lookup in Hp1' as [j1 H1], Hp1 as [j2 H2].
      assert (j1 = j2) as ->; [|congruence]. eapply NoDup_lookup; [exact Hnd|by rewrite list_lookup_fmap, H1|].
      rewrite list_lookup_fmap, H2. cbn. congruence. }
    pose proof (Hlt q p Hq ltac:(by left)) as Hqp.
    assert (Hpq : p' = q ∨ sd_order_class p'.2 ≤ sd_order_class q.2).
    { apply elem_of_app in Hp' as [Hp'| ->%list_elem_of_singleton]; [right|by left].
      apply StronglySorted_app in Hs as (Hlt' & _). apply Hlt'; [done|by left]. }
    destruct Hpq as [->|Hpq]; [done|]. rewrite <-Hq2, <-(same_class p'.2 q.2) by (done || rewrite Hsch in *; lia). congruence.
  - rewrite app_nil_r. split; [done|]. destruct Hl as [->|(i & Hi & Hex & _)]; [by left|right]. exists i.
    split_and!; [done|apply Exists_app; by left|right]. exists p. by rewrite last_snoc.
Qed.

Lemma known_declared slots :
  Forall (λ p, p.2 ∈ et_slots event ∧ sd_key p.2 = slot_key p.1) (known_slots event slots).
Proof.
  apply Forall_forall. intros [s sch] Hin. apply list_elem_of_omap in Hin as (x & _ & Hx).
  destruct (schema_by_key _ !! _) as [sch'|] eqn:Hs; [|done]. injection Hx as -> ->. by apply schema_by_key_elem.
Qed.

Lemma check_occurrences_spec slots counts :
  (∀ key, default 0%nat (counts !! key) = occurrences event slots key) →
  checks (for_each (λ schema _, check_occurrences counts schema) (et_slots event) tt)
    (Forall (λ schema,
      sd_min_occurs schema ≤ Z.of_nat (occurrences event slots (sd_key schema))
      ∧ match sd_max_occurs schema with
        | Count max => Z.of_nat (occurrences event slots (sd_key schema)) ≤ max
        | Unbounded _ => True
        end) (et_slots event)).
Proof.
  intros Hc. apply checks_for_each. intros s _. unfold check_occurrences. rewrite Hc. case_decide; [cbn; lia|].
  destruct (sd_max_occurs s) as [max|]; [|cbn; split; [lia|done]]. case_decide; cbn; lia.
Qed.

Lemma check_contiguous_spec L m :
  (∀ key, m !! key = match positions key L with [] => None | ps => Some ps end) →
  checks (check_contiguous m) (∀ key, is_contiguous (positions key L)).
Proof.
  intros Hp. eapply checks_iff; [|apply (checks_for_each _ (λ p, is_contiguous p.2))].
  - rewrite sort_by_key_perm, Forall_forall. split.
    + intros H key. specialize (Hp key). destruct (positions key L) as [|i ps] eqn:Hps; [done|].
      apply (H (key, i :: ps)). by apply elem_of_map_to_list.
    + intros H [key ps] Hin%elem_of_map_to_list. specialize (H key). rewrite Hp in Hin.
      destruct (positions key L); [done|]. by injection Hin as <-.
  - intros [key ps] _. cbn. destruct (is_contiguous ps); cbn; [done|tauto].
Qed.

Lemma known_order_sorted (L : list (Slot * SlotDefinition)) :
  StronglySorted (λ x y, x.1 ≤ y.1) ((λ p, (sd_order_class p.2, slot_key p.1)) <$> L)
  ↔ StronglySorted (λ x y, sd_order_class x.2 ≤ sd_order_class y.2) L.
Proof.
  induction L as [|p L IH]; [split; constructor|]. rewrite fmap_cons.
  split; inversion_clear 1; (constructor; [by apply IH|]); [|by rewrite Forall_fmap].
  rewrite Forall_fmap in H1. exact H1.
Qed.

Lemma check_record_slots record definition :
  match validate_record_slots record event definition with
  | Ok extension_keys => slots_conform record event definition
      ∧ extension_keys = slot_key <$> other_slots event (rec_slots record)
  | Err _ => ¬ slots_conform record event definition
  | _ => False
  end.
Proof.
  unfold validate_record_slots, slots_conform. pose proof (scan_spec record event definition (rec_slots record)) as Hscan.
  destruct (for_each (scan_slot _ _ _) _ _) as [s|e| |]; cbn [mbind res_bind]; try done; [|tauto].
  destruct Hscan as (Hsplit & Hc & Hp & Ho & He & _). set (L := known_slots event (rec_slots record)) in *.
  pose proof (check_contiguous_spec L _ Hp) as Hcontig.
  destruct (check_contiguous (sc_positions s)) as [[]|e| |]; cbn in Hcontig |- *; try done.
  2: { intros (_ & Hs & _). apply Hcontig. intros key. by apply (sorted_contiguous L key (known_declared _)). }
  pose proof (check_order_spec (sc_known_order s)) as Hord. pose proof (known_order_sorted L) as Hiff. rewrite <-Ho in Hiff.
  destruct (check_order (sc_known_order s)) as [prev|e| |]; cbn; try done; [|tauto].
  destruct Hord as [Hord _]. pose proof (check_occurrences_spec (rec_slots record) (sc_counts s) Hc) as Hocc.
  destruct (for_each (λ schema _, _) _ tt) as [[]|e| |]; cbn in Hocc |- *; try done; [|tauto].
  split; [|done]. split_and!; [apply Hsplit..|by apply Hiff|done].
Qed.
End order.

(** ** The theorems *)
Lemma check_record record record_len definition :
  match schema_validate_record record record_len definition with
  | Ok (Valid extension_keys) =>
      conforms record record_len definition
      ∧ ∃ event, find_event definition (rec_event_type_id record) = Some event
          ∧ extension_keys = slot_key <$> other_slots event (rec_slots record)
  | Ok (Placeholder p) =>
      ¬ conforms record record_len definition ∧ Placeholder p = placeholder record (ph_reason p)
  | _ => False
  end.
Proof.
  unfold schema_validate_record, conforms. pose proof (check_definition definition) as Hd.
  destruct (validate_definition definition) as [[]|v| |]; cbn in Hd |- *; try done; [|tauto].
  case_decide as H1; [split; [lia|done]|]. case_decide as H2; [split; [lia|done]|].
  destruct (find_event definition (rec_event_type_id record)) as [event|] eqn:Hev.
  2: { split; [|done]. intros (_ & _ & _ & e & ? & _). congruence. }
  assert (He : event_ok event).
  { unfold find_event in Hev. apply List.find_some in Hev as [Hin%list_elem_of_In _].
    destruct Hd as (_ & Hd & _). rewrite Forall_forall in Hd. by apply Hd. }
  pose proof (check_record_slots event He record definition) as Hs.
  destruct (validate_record_slots record event definition) as [ks|v| |]; cbn; try done.
  - destruct Hs as [Hs ->]. split; [|by exists event]. split_and!; [exact Hd|lia|lia|by exists event].
  - split; [|done]. intros (_ & _ & _ & e & [= <-] & ?). done.
Qed.

(** Only the lookup of the event reports an unknown event. *)
Definition not_unknown_event (v : SchemaViolation) : Prop := match v with UnknownEventId _ => False | _ => True end.

Lemma record_slots_raise record event definition :
  raises not_unknown_event (validate_record_slots record event definition).
Proof.
  assert (Ht : ∀ slot schema, raises not_unknown_event (validate_record_slot_type slot schema)).
  { intros slot schema. unfold validate_record_slot_type. raises_tac. }
  assert (Hv : ∀ slot, raises not_unknown_event (validate_value_payload_type slot record definition)).
  { intros slot. unfold validate_value_payload_type. raises_tac. }
  assert (Hw : ∀ slot, raises not_unknown_event (validate_payload_width slot)).
  { intros slot. unfold validate_payload_width. destruct (tlv_type_spec _); [|raises_tac].
    apply raises_bind; [|intros _]; raises_tac. }
  unfold validate_record_slots. apply raises_bind; [|intros s; apply raises_bind; [|intros _; apply raises_bind; [|intros _;
    apply raises_bind; [|intros _ ?; done]]]]; apply raises_for_each.
  - intros [i slot] s. unfold scan_slot. destruct (schema_by_key _ !! _) as [schema|].
    + destruct (sc_saw_vendor_extension s); [raises_tac|].
      repeat (apply raises_bind; [auto|intros _]). by intros ?.
    + destruct (is_vendor_key _); [|raises_tac]. apply raises_bind; [|intros _]; raises_tac.
  - intros p []. raises_tac.
  - intros [c k] p. raises_tac.
  - intros schema []. unfold check_occurrences. raises_tac.
Qed.

Lemma unknown_event_reason record record_len definition p id :
  schema_validate_record record record_len definition = Ok (Placeholder p) → ph_reason p = UnknownEventId id →
  id = rec_event_type_id record ∧ find_event definition (rec_event_type_id record) = None.
Proof.
  unfold schema_validate_record. destruct (validate_definition definition); cbn [map_err or_placeholder]; try done;
    [|by intros [= <-]].
  case_decide; [by intros [= <-]|]. case_decide; [by intros [= <-]|].
  destruct (find_event definition _) as [event|]; [|by intros [= <-] [= ->]].
  pose proof (record_slots_raise record event definition) as Hr.
  destruct (validate_record_slots record event definition) as [ks|e| |]; cbn [or_placeholder]; try done.
  intros [= <-]. cbn. intros ->. by destruct (Hr _ eq_refl).
Qed.

(** C32: validating a definition never panics, and it accepts exactly the
    well-formed definitions: distinct event ids, distinct slot keys and
    strictly ascending order classes in every event, sound occurrence bounds,
    registry types for the core keys, known types for the private ones, and
    procedural machines whose states belong to the model they name. *)
Theorem validate_definition_exact definition :
  match validate_definition definition with
  | Ok _ => definition_ok definition
  | Err _ => ¬ definition_ok definition
  | Panic | Diverge => False
  end.
Proof. exact (check_definition definition). Qed.

(** C29: validating a record never panics. It is valid exactly when it
    conforms to the event of its id (declared slots first, in order-class
    order, each of the declared type, width and number; private extensions
    last with ascending keys), and the keys reported are those of the
    extensions; otherwise the placeholder keeps the envelope and all slots. *)
Theorem validate_record_exact record record_len definition :
  match schema_validate_record record record_len definition with
  | Ok (Valid extension_keys) =>
      conforms record record_len definition
      ∧ ∃ event, find_event definition (rec_event_type_id record) = Some event
          ∧ extension_keys = slot_key <$> other_slots event (rec_slots record)
  | Ok (Placeholder p) =>
      ¬ conforms record record_len definition ∧ Placeholder p = placeholder record (ph_reason p)
  | Err _ | Panic | Diverge => False
  end.
Proof. exact (check_record record record_len definition). Qed.

(** The built-in schemas are well typed: there is one for every
    registered event and for nothing else, so building them never panics, and
    the definition made of them is well formed. *)
Theorem canonical_definition_ok :
  (∃ events, canonical_event_types (E := unit) = Ok events ∧ et_id <$> events = es_id <$> EVENT_SPECS)
  ∧ (∀ id, is_Some (canonical_event_type id) ↔ is_Some (event_spec id))
  ∧ ∃ definition, sample_definition (E := unit) = Ok definition ∧ definition_ok definition.
Proof.
  split_and!.
  - eexists. split; by vm_compute.
  - intros id. unfold canonical_event_type. split.
    + intros [ev Hev]. apply bind_Some in Hev as (? & _ & Hev). apply bind_Some in Hev as (? & -> & _). by eexists.
    + intros [spec Hspec]. pose proof (List.find_some _ _ Hspec) as [Hin%list_elem_of_In <-%bool_decide_eq_true].
      rewrite Hspec. assert (Hall : Forall (λ s, is_Some (canonical_slots (es_id s))) EVENT_SPECS).
      { apply (bool_decide_unpack _). by vm_compute. }
      rewrite Forall_forall in Hall. destruct (Hall _ Hin) as [slots ->]. by eexists.
  - destruct (sample_definition (E := unit)) as [d|e| |] eqn:Hd; [|exfalso; by vm_compute in Hd..].
    exists d. split; [done|]. pose proof (check_definition d) as Hc.
    destruct (validate_definition d) as [u|v| |] eqn:Hv; [exact Hc|exfalso..];
      revert Hv; vm_compute in Hd; injection Hd as <-; by vm_compute.
Qed.
