(* ===== verification/DefHash.v ===== *)
(** * Definition hashing (crates/definition/src/hash.rs)

    The hash preimage, the two forms of the hash, and the guarded JSON reader.
    JSON (de)serialisation and SHA-256 are third-party and stay parameters. *)
From stdpp Require Import strings.
From S2P Require Import Prelude DefModel.
#[local] Open Scope Z_scope.
#[local] Set Warnings "-register-all".

(** ** The data *)
Inductive DefinitionError :=
| Json (message : string)
| Canonical (message : string).

Record DefinitionHash := MkDefinitionHash {
  hs_content_hash : string;
  hs_carriage_hash : bytes;
}.

(** [serde_json::Value]. *)
Inductive Value :=
| VNull
| VBool (b : bool)
| VNumber (n : Z)
| VString (s : string)
| VArray (values : list Value)
| VObject (object : gmap string Value).

(** What a [serde_json] deserializer hands a visitor, in order. Sequences and
    maps end normally or with the error met while reading the next element;
    floats are the bits of an [f64]. *)
Inductive Events :=
| EvNull
| EvBool (b : bool)
| EvI64 (n : Z)
| EvU64 (n : Z)
| EvF64 (bits : u64)
| EvStr (s : string)
| EvSeq (items : list Events) (error : option string)
| EvMap (entries : list (string * Events)) (error : option string)
| EvError (message : string).

(** ** The libraries *)
Class HashLibraries := {
  serde_jcs_file : DefinitionFile → string + bytes;      (** [serde_jcs::to_vec] of a definition file *)
  serde_jcs_value : Value → string + bytes;              (** and of a JSON value *)
  sha256 : bytes → bytes;
  deserializer : string → Events * option string;        (** the events, and the result of [end] *)
}.

(** A SHA-256 digest has 32 bytes. *)
Class HashLaws `{HashLibraries} : Prop := {
  sha256_length bs : length (sha256 bs) = 32%nat;
  sha256_bytes bs : bytes_ok (sha256 bs);
}.

Section hash.
Context `{HashLibraries}.

Definition canonical (result : string + bytes) : res DefinitionError bytes :=
  match result with
  | inl message => Err (Canonical message)
  | inr canonical_bytes => Ok canonical_bytes
  end.

(** ** Hashing *)
Definition set_content_hash (d : DefinitionFile) (content_hash : string) : DefinitionFile :=
  {| df_header := {| dh_wire_version := dh_wire_version (df_header d);
                     dh_semantic_version := dh_semantic_version (df_header d);
                     dh_profiles := dh_profiles (df_header d);
                     dh_conformance_level := dh_conformance_level (df_header d);
                     dh_caps := dh_caps (df_header d); dh_constraints := dh_constraints (df_header d);
                     dh_epoch_strategy := dh_epoch_strategy (df_header d); dh_content_hash := content_hash |};
     df_event_types := df_event_types d; df_sources := df_sources d; df_state_machines := df_state_machines d;
     df_conditions := df_conditions d; df_message_templates := df_message_templates d; df_values := df_values d;
     df_units := df_units d; df_enum_sets := df_enum_sets d; df_recipe_definitions := df_recipe_definitions d;
     df_batch_definitions := df_batch_definitions d; df_material_definitions := df_material_definitions d;
     df_operator_definitions := df_operator_definitions d; df_e_signature_meanings := df_e_signature_meanings d;
     df_severity_scale := df_severity_scale d |}.

Definition canonical_definition_bytes_for_hash (definition : DefinitionFile) : res DefinitionError bytes :=
  canonical (serde_jcs_file (set_content_hash definition "")).

(** [{:02x}]. *)
Definition hex_digit (n : Z) : Ascii.ascii :=
  Ascii.ascii_of_N (Z.to_N (if decide (n < 10) then 48 + n else 87 + n)).
Fixpoint lower_hex (bs : bytes) : string :=
  match bs with
  | [] => EmptyString
  | b :: bs => String (hex_digit (b / 16)) (String (hex_digit (b mod 16)) (lower_hex bs))
  end.

Definition compute_content_hash (definition : DefinitionFile) : res DefinitionError DefinitionHash :=
  canonical ← canonical_definition_bytes_for_hash definition;
  let digest := sha256 canonical in
  head ← slice digest 0 8;
  Ok {| hs_content_hash := lower_hex digest; hs_carriage_hash := head |}.

(** ** The guarded JSON reader *)
(** [f64::fract() == 0.0]: an infinity or a NaN has no fractional part equal to 0. *)
Definition fract_is_zero (bits : u64) : bool :=
  let exponent := Z.land (Z.shiftr bits 52) 0x7FF in
  let fraction := Z.land bits (2 ^ 52 - 1) in
  let mantissa := if decide (exponent = 0) then fraction else fraction + 2 ^ 52 in
  let scale := 1075 - Z.max exponent 1 in      (* the value is mantissa / 2^scale *)
  if decide (exponent = 0x7FF) then false else
  if decide (scale ≤ 0) then true else bool_decide (mantissa mod 2 ^ scale = 0).

(** The [visit_*] methods of [NoDuplicateVisitor]. *)
Fixpoint visit (events : Events) : res string Value :=
  match events with
  | EvNull => Ok VNull
  | EvBool b => Ok (VBool b)
  | EvI64 n | EvU64 n => Ok (VNumber n)
  | EvF64 bits => Err (if fract_is_zero bits then "integer number out of range"
                       else "floating-point numbers are not allowed")%string
  | EvStr s => Ok (VString s)
  | EvSeq items error =>
      (fix visit_seq items values :=
         match items with
         | [] => match error with None => Ok (VArray values) | Some message => Err message end
         | item :: items => v ← visit item; visit_seq items (values ++ [v])
         end) items []
  | EvMap entries error =>
      (fix visit_map entries keys object :=
         match entries with
         | [] => match error with None => Ok (VObject object) | Some message => Err message end
         | (key, value) :: entries =>
             if decide (key ∈ keys) then Err ("duplicate key `" +:+ key +:+ "`")%string else
             v ← visit value;
             visit_map entries ({[ key ]} ∪ keys : gset string) (<[key := v]> object)
         end) entries ∅ ∅
  | EvError message => Err message
  end.

Definition parse_json_value (input : string) : res DefinitionError Value :=
  let '(events, end_) := deserializer input in
  value ← map_err Json (visit events);
  match end_ with None => Ok value | Some message => Err (Json message) end.

Definition canonical_json_bytes_from_str (input : string) : res DefinitionError bytes :=
  value ← parse_json_value input;
  canonical (serde_jcs_value value).
End hash.

(** ** What the guarded reader accepts *)
(** The value of a tree of events. *)
Fixpoint value_of (events : Events) : Value :=
  match events with
  | EvNull | EvError _ | EvF64 _ => VNull
  | EvBool b => VBool b
  | EvI64 n | EvU64 n => VNumber n
  | EvStr s => VString s
  | EvSeq items _ => VArray (value_of <$> items)
  | EvMap entries _ => VObject (list_to_map ((λ p, (p.1, value_of p.2)) <$> entries))
  end.

(** No error, no float, and no key twice in an object, at any depth. *)
Inductive clean : Events → Prop :=
| clean_null : clean EvNull
| clean_bool b : clean (EvBool b)
| clean_i64 n : clean (EvI64 n)
| clean_u64 n : clean (EvU64 n)
| clean_str s : clean (EvStr s)
| clean_seq items : Forall clean items → clean (EvSeq items None)
| clean_map entries : NoDup entries.*1 → Forall (λ p, clean p.2) entries → clean (EvMap entries None).

(** The induction principle that reaches into lists. *)
Lemma events_ind_nested (P : Events → Prop) :
  P EvNull → (∀ b, P (EvBool b)) → (∀ n, P (EvI64 n)) → (∀ n, P (EvU64 n)) → (∀ bits, P (EvF64 bits)) →
  (∀ s, P (EvStr s)) → (∀ items error, Forall P items → P (EvSeq items error)) →
  (∀ entries error, Forall (λ p, P p.2) entries → P (EvMap entries error)) → (∀ m, P (EvError m)) → ∀ e, P e.
Proof.
  intros H1 H2 H3 H4 H5 H6 H7 H8 H9. fix IH 1.
  intros [| | | | | |items error|entries error|]; [exact H1|apply H2|apply H3|apply H4|apply H5|apply H6| | |apply H9].
  - apply H7. induction items; constructor; [apply IH|assumption].
  - apply H8. induction entries as [|[k v] entries IHe]; constructor; [apply IH|assumption].
Qed.

Definition visited (events : Events) : Prop :=
  match visit events with
  | Ok v => clean events ∧ v = value_of events
  | Err _ => ¬ clean events
  | _ => False
  end.

Lemma visit_clean events : visited events.
Proof.
  induction events as [| | | | |s|items error IH|entries error IH|m] using events_ind_nested; unfold visited; cbn [visit];
    try (split; [constructor|done]); try (by inversion 1).
  - match goal with |- context [?F items []] => set (loop := F) end.
    assert (Hloop : ∀ its vs, Forall visited its →
      match loop its vs with
      | Ok v => (error = None ∧ Forall clean its) ∧ v = VArray (vs ++ (value_of <$> its))
      | Err _ => ¬ (error = None ∧ Forall clean its)
      | _ => False
      end).
    { induction its as [|e its IHi]; intros vs Hits; cbn [loop].
      - destruct error; [naive_solver|]. by rewrite app_nil_r.
      - apply Forall_cons in Hits as [He Hits]. unfold visited in He. destruct (visit e) as [v|m| |]; cbn; try done.
        + destruct He as [He ->]. specialize (IHi (vs ++ [value_of e]) Hits). rewrite <-app_assoc in IHi.
          destruct (loop its _) as [v|m| |]; try done; [|rewrite Forall_cons; tauto].
          rewrite Forall_cons. destruct IHi as [? ->]. tauto.
        + rewrite Forall_cons. tauto. }
    specialize (Hloop items [] IH). destruct (loop items []) as [v|m| |]; try done.
    + destruct Hloop as [[-> Hc] ->]. split; [by constructor|done].
    + inversion 1; subst. tauto.
  - match goal with |- context [?F entries ∅ ∅] => set (loop := F) end.
    assert (Hloop : ∀ es (keys : gset string) (object : gmap string Value), Forall (λ p, visited p.2) es →
      match loop es keys object with
      | Ok v => (error = None ∧ (NoDup es.*1 ∧ Forall (.∉ keys) es.*1) ∧ Forall (λ p, clean p.2) es)
          ∧ v = VObject (list_to_map ((λ p, (p.1, value_of p.2)) <$> es) ∪ object)
      | Err _ => ¬ (error = None ∧ (NoDup es.*1 ∧ Forall (.∉ keys) es.*1) ∧ Forall (λ p, clean p.2) es)
      | _ => False
      end).
    { induction es as [|[k e] es IHe]; intros keys object Hes; cbn [loop].
      - destruct error; [naive_solver|]. split; [split_and!; constructor|].
        by rewrite fmap_nil, list_to_map_nil, (left_id_L ∅ (∪)).
      - apply Forall_cons in Hes as [He Hes].
        assert (Hiff : (error = None ∧ (NoDup ((k, e) :: es).*1 ∧ Forall (.∉ keys) ((k, e) :: es).*1)
            ∧ Forall (λ p, clean p.2) ((k, e) :: es))
          ↔ (k ∉ keys) ∧ clean e ∧ error = None ∧ (NoDup es.*1 ∧ Forall (.∉ {[ k ]} ∪ keys) es.*1)
            ∧ Forall (λ p, clean p.2) es).
        { rewrite fmap_cons, NoDup_cons, !Forall_cons, !Forall_forall. set_solver. }
        case_decide as Hk; [rewrite Hiff; tauto|]. unfold visited in He.
        cbn [snd] in He. destruct (visit e) as [v|m| |]; cbn [mbind res_bind]; try done; [|rewrite Hiff; tauto].
        destruct He as [He ->]. specialize (IHe ({[ k ]} ∪ keys) (<[k := value_of e]> object) Hes).
        destruct (loop es _ _) as [v|m| |]; try done; [|rewrite Hiff; tauto]. destruct IHe as [IHe ->].
        rewrite Hiff. split; [tauto|]. cbn. rewrite <-insert_union_l, <-insert_union_r; [done|].
        apply not_elem_of_list_to_map_1. rewrite <-list_fmap_compose. cbn.
        destruct IHe as (_ & [_ Hkeys] & _). rewrite Forall_forall in Hkeys. set_solver. }
    specialize (Hloop entries ∅ ∅ IH). destruct (loop entries ∅ ∅) as [v|m| |]; try done.
    + destruct Hloop as [(-> & [Hnd _] & Hc) ->]. split; [by constructor|]. by rewrite (right_id_L ∅ (∪)).
    + inversion 1; subst. apply Hloop. split_and!; [done..| |done]. apply Forall_forall. set_solver.
Qed.

(** ** Hexadecimal *)
Definition unhex_digit (a : Ascii.ascii) : Z :=
  let n := Z.of_N (Ascii.N_of_ascii a) in if decide (n < 87) then n - 48 else n - 87.
Fixpoint unhex (s : string) : bytes :=
  match s with
  | String a (String b s) => 16 * unhex_digit a + unhex_digit b :: unhex s
  | _ => []
  end.

Lemma unhex_hex_digit n : 0 ≤ n < 16 → unhex_digit (hex_digit n) = n.
Proof.
  intros Hn. assert (Hall : Forall (λ n, unhex_digit (hex_digit n) = n) (seqZ 0 16)).
  { apply (bool_decide_unpack _). by vm_compute. }
  rewrite Forall_forall in Hall. apply Hall. apply elem_of_seqZ. lia.
Qed.

Lemma unhex_lower_hex bs : bytes_ok bs → unhex (lower_hex bs) = bs.
Proof.
  induction 1 as [|b bs Hb _ IH]; [done|]. cbn [lower_hex unhex]. unfold fits in Hb.
  rewrite !unhex_hex_digit by (split; [apply Z.div_pos || apply Z.mod_pos_bound|apply Z.div_lt_upper_bound || apply Z.mod_pos_bound]; lia).
  rewrite IH. f_equal. rewrite <-Z.div_mod by done. done.
Qed.

Lemma length_lower_hex bs : String.length (lower_hex bs) = (2 * length bs)%nat.
Proof. induction bs as [|b bs IH]; [done|]. cbn [lower_hex String.length length]. rewrite IH. lia. Qed.

Lemma lower_hex_prefix bs n : String.substring 0 (2 * n) (lower_hex bs) = lower_hex (take n bs).
Proof.
  revert n. induction bs as [|b bs IH]; intros [|n]; cbn [take lower_hex]; [done..|].
  replace (2 * S n)%nat with (S (S (2 * n))) by lia. cbn [String.substring]. by rewrite IH.
Qed.

(** ** The theorems *)
Section theorems.
Context `{HashLibraries}.

Lemma check_content_hash `{!HashLaws} d :
  match compute_content_hash d with
  | Ok h => ∃ preimage, serde_jcs_file (set_content_hash d "") = inr preimage
      ∧ hs_content_hash h = lower_hex (sha256 preimage) ∧ hs_carriage_hash h = take 8 (sha256 preimage)
  | Err e => ∃ message, serde_jcs_file (set_content_hash d "") = inl message ∧ e = Canonical message
  | _ => False
  end.
Proof.
  unfold compute_content_hash, canonical_definition_bytes_for_hash.
  destruct (serde_jcs_file _) as [m|preimage]; cbn [canonical mbind res_bind]; [by exists m|].
  rewrite slice_ok by (rewrite ?sha256_length; lia). cbn. by exists preimage.
Qed.

(** The definition hash never panics and does not depend on the hash
    recorded in the header; the content hash is the 64 hex digits of the digest
    of the canonical preimage, its first 16 are those of the 8-byte carriage
    hash, and two definitions with one content hash have one digest. *)
Theorem content_hash_binding `{!HashLaws} d :
  (∀ recorded, compute_content_hash (set_content_hash d recorded) = compute_content_hash d)
  ∧ match compute_content_hash d with
    | Ok h =>
        String.length (hs_content_hash h) = 64%nat ∧ length (hs_carriage_hash h) = 8%nat
        ∧ String.substring 0 16 (hs_content_hash h) = lower_hex (hs_carriage_hash h)
        ∧ ∃ preimage, serde_jcs_file (set_content_hash d "") = inr preimage
            ∧ hs_carriage_hash h = take 8 (sha256 preimage)
            ∧ ∀ d' h', compute_content_hash d' = Ok h' → hs_content_hash h' = hs_content_hash h →
                ∃ preimage', serde_jcs_file (set_content_hash d' "") = inr preimage' ∧ sha256 preimage' = sha256 preimage
    | Err e => ∃ message, serde_jcs_file (set_content_hash d "") = inl message ∧ e = Canonical message
    | Panic | Diverge => False
    end.
Proof.
  split; [done|]. pose proof (check_content_hash d) as Hd.
  destruct (compute_content_hash d) as [h|e| |]; try done. destruct Hd as (preimage & Hpre & Hc & Hk).
  rewrite Hk, Hc, length_lower_hex, sha256_length, length_take, sha256_length. split_and!; [done|done| |].
  { apply (lower_hex_prefix _ 8). }
  exists preimage. split_and!; [done..|]. intros d' h' Hd' Heq. pose proof (check_content_hash d') as Hh'.
  rewrite Hd' in Hh'. destruct Hh' as (preimage' & Hpre' & Hc' & _). exists preimage'. split; [done|].
  rewrite <-(unhex_lower_hex (sha256 preimage')), <-(unhex_lower_hex (sha256 preimage)) by apply sha256_bytes. congruence.
Qed.

(** The guarded JSON reader accepts exactly the inputs whose events hold
    no error, no float and no key twice in one object, at any depth, and after
    which the input ends; it then returns the value they spell. Every refusal is
    a [Json] error. *)
Theorem guarded_json_exact input :
  match parse_json_value input with
  | Ok value =>
      clean (deserializer input).1 ∧ (deserializer input).2 = None ∧ value = value_of (deserializer input).1
  | Err e =>
      ¬ (clean (deserializer input).1 ∧ (deserializer input).2 = None) ∧ ∃ message, e = Json message
  | Panic | Diverge => False
  end.
Proof.
  unfold parse_json_value. destruct (deserializer input) as [events end_]. cbn [fst snd].
  pose proof (visit_clean events) as Hv. unfold visited in Hv.
  destruct (visit events) as [v|m| |]; cbn [map_err mbind res_bind]; try done.
  - destruct Hv as [Hc ->]. destruct end_; [|done]. split; [by intros [_ ?]|by eexists].
  - split; [tauto|by eexists].
Qed.
End theorems.

(** Libraries that satisfy the laws. *)
#[local] Instance constant_libraries : HashLibraries := {|
  serde_jcs_file _ := inr []; serde_jcs_value _ := inr []; sha256 _ := replicate 32 171;
  deserializer _ := (EvMap [("a", EvI64 1)] None, None) |}%string.
#[local] Instance constant_laws : HashLaws.
Proof.
  split; [done|]. intros bs. change (bytes_ok (replicate 32 171)).
  apply (bool_decide_unpack _). by vm_compute.
Qed.

(** A definition that declares nothing. *)
Definition empty_definition : DefinitionFile := {|
  df_header := {| dh_wire_version := 2; dh_semantic_version := "1.0.0"; dh_profiles := []; dh_conformance_level := "";
                  dh_caps := {| dc_crc := true; dc_source_high_water := true |};
                  dh_constraints := {| dk_max_record_size := 256; dk_max_slots := 16;
                                       dk_overflow_policy := OverwriteOldest |};
                  dh_epoch_strategy := Retain; dh_content_hash := "" |};
  df_event_types := []; df_sources := []; df_state_machines := []; df_conditions := []; df_message_templates := [];
  df_values := []; df_units := []; df_enum_sets := []; df_recipe_definitions := []; df_batch_definitions := [];
  df_material_definitions := []; df_operator_definitions := []; df_e_signature_meanings := [];
  df_severity_scale := {| ss_name := ""; ss_low := {| sb_min := 1; sb_max := 332 |};
                          ss_medium := {| sb_min := 333; sb_max := 666 |};
                          ss_high := {| sb_min := 667; sb_max := 1000 |} |} |}%string.

Lemma content_hash_binding_witness :
  compute_content_hash (set_content_hash empty_definition "x") = compute_content_hash empty_definition.
Proof. exact (proj1 (content_hash_binding empty_definition) "x"%string). Defined.
