(* ===== verification/DefResolver.v ===== *)
(** * Record resolution (crates/definition/src/resolver.rs)

    The choice of the definition by epoch, and the typed, named fields it gives
    the slots of a record, against a declarative account of both. *)
From stdpp Require Import strings.
From S2P Require Import Prelude Utf8 Wire Control Registry DefModel DefSchema DefHash.
#[local] Open Scope Z_scope.

(** ** The data *)
Record DefinitionSet := MkDefinitionSet {
  ds_current : option DefinitionFile;
  ds_prior : option DefinitionFile;
}.

Definition ds_of_current (current : DefinitionFile) : DefinitionSet :=
  {| ds_current := Some current; ds_prior := None |}.
Definition ds_current_and_prior (current prior : DefinitionFile) : DefinitionSet :=
  {| ds_current := Some current; ds_prior := Some prior |}.

Inductive ResolvedEpoch := Current | Prior.

(** Signed integers by their value, floats by their bits. *)
Inductive ResolvedValue :=
| RBool (b : bool)
| RSInt (v : Z)
| RUSInt (v : u8)
| RUInt (v : u16)
| RInt (v : Z)
| RUDInt (v : u32)
| RDInt (v : Z)
| RULInt (v : u64)
| RLInt (v : Z)
| RReal (bits : u32)
| RLReal (bits : u64)
| RDateTime (v : u64)
| RString (s : string)
| RBytes (bs : bytes).

Record ResolvedSource := MkResolvedSource {
  rc_name : string;
  rc_path : list string;
  rc_hierarchy : list string;
  rc_dynamic : bool;
}.

Record ResolvedField := MkResolvedField {
  rf_key : u16;
  rf_name : string;
  rf_type_name : string;
  rf_value : ResolvedValue;
  rf_unit : option string;
  rf_enum_label : option string;
}.

Record ResolvedExtensionField := MkResolvedExtensionField {
  rx_key : u16;
  rx_type_tag : u8;
  rx_type_name : option string;
  rx_value : option ResolvedValue;
  rx_payload : bytes;
}.

Record ResolvedRecord := MkResolvedRecord {
  rd_event_name : string;
  rd_source : option ResolvedSource;
  rd_source_id : u32;
  rd_event_type_id : u32;
  rd_run_id : u64;
  rd_epoch_id : u64;
  rd_source_time : u64;
  rd_seq : u64;
  rd_epoch : ResolvedEpoch;
  rd_fields : list ResolvedField;
  rd_extension_fields : list ResolvedExtensionField;
}.

Inductive ResolvePlaceholderReason :=
| MissingCurrentDefinition
| StalePriorEpoch
| Drift (epoch : ResolvedEpoch) (expected actual : bytes)
| FullHashDrift (expected actual : string)
| ReasonUnknownEventId (id : u32)
| Schema (v : SchemaViolation)
| InvalidUtf8 (key : u16)
| ReasonUnknownTlvType (key : u16) (ty : u8)
| Hash (message : string).

Record ResolvedPlaceholder := MkResolvedPlaceholder {
  rp_source_id : u32;
  rp_event_type_id : u32;
  rp_run_id : u64;
  rp_epoch_id : u64;
  rp_seq : u64;
  rp_epoch : ResolvedEpoch;
  rp_slots : list Slot;
  rp_reason : ResolvePlaceholderReason;
}.

Inductive Resolution :=
| Resolved (r : ResolvedRecord)
| ResolutionPlaceholder (p : ResolvedPlaceholder).

Definition resolve_placeholder (record : WireRecord) (snapshot : ControlBlockSnapshot) (epoch : ResolvedEpoch)
    (reason : ResolvePlaceholderReason) : Resolution :=
  ResolutionPlaceholder
    {| rp_source_id := rec_source_id record; rp_event_type_id := rec_event_type_id record;
       rp_run_id := rec_run_id record; rp_epoch_id := cb_epoch_id snapshot; rp_seq := rec_seq record;
       rp_epoch := epoch; rp_slots := rec_slots record; rp_reason := reason |}.

(** ** Values *)
(** [as iN]. *)
Definition as_signed (w : Z) (v : Z) : Z := if decide (v < 2 ^ (w - 1)) then v else v - 2 ^ w.

(** [read_u16], [read_u32] and [read_u64]: the conversion to an array panics on
    any other length. *)
Definition read_exact {E} (n : usize) (bs : bytes) : res E Z :=
  if decide (length bs = n) then Ok (from_le_bytes bs) else Panic.

Inductive ValueDecodeError := DecodeInvalidUtf8 | DecodeUnknownTlvType.

Definition decode_value (slot : Slot) : res ValueDecodeError ResolvedValue :=
  let payload := slot_payload slot in
  let ty := slot_ty slot in
  if decide (ty = 0x00) then b ← index payload 0; Ok (RBool (bool_decide (b ≠ 0))) else
  if decide (ty = 0x01) then b ← index payload 0; Ok (RSInt (as_signed 8 b)) else
  if decide (ty = 0x02) then b ← index payload 0; Ok (RUSInt b) else
  if decide (ty = 0x03) then v ← read_exact 2 payload; Ok (RUInt v) else
  if decide (ty = 0x04) then v ← read_exact 2 payload; Ok (RInt (as_signed 16 v)) else
  if decide (ty = 0x05) then v ← read_exact 4 payload; Ok (RUDInt v) else
  if decide (ty = 0x06) then v ← read_exact 4 payload; Ok (RDInt (as_signed 32 v)) else
  if decide (ty = 0x07) then v ← read_exact 8 payload; Ok (RULInt v) else
  if decide (ty = 0x08) then v ← read_exact 8 payload; Ok (RLInt (as_signed 64 v)) else
  if decide (ty = 0x09) then v ← read_exact 4 payload; Ok (RReal v) else
  if decide (ty = 0x0A) then v ← read_exact 8 payload; Ok (RLReal v) else
  if decide (ty = 0x0B) then v ← read_exact 8 payload; Ok (RDateTime v) else
  if decide (ty = 0x0C) then match from_utf8 payload with Some s => Ok (RString s) | None => Err DecodeInvalidUtf8 end else
  if decide (ty = 0x0D) then Ok (RBytes payload) else
  Err DecodeUnknownTlvType.

Definition as_u32 (v : ResolvedValue) : option u32 := match v with RUDInt v => Some v | _ => None end.
Definition as_u16 (v : ResolvedValue) : option u16 := match v with RUInt v => Some v | _ => None end.

(** [ok]. *)
Definition ok_value {E A} (m : res ValueDecodeError A) : res E (option A) :=
  match m with
  | Ok a => Ok (Some a)
  | Err _ => Ok None
  | Panic => Panic
  | Diverge => Diverge
  end.

Definition decode_extension_value {E} (slot : Slot) : res E (option ResolvedValue) :=
  match tlv_type_spec (slot_ty slot) with
  | None => Ok None
  | Some spec =>
      if match ts_fixed_width spec with
         | Some expected => bool_decide (length (slot_payload slot) ≠ expected)
         | None => false
         end then Ok None else
      if decide (slot_payload slot = [] ∧ slot_ty slot ≠ TY_STRING ∧ slot_ty slot ≠ TY_BYTES) then Ok None else
      ok_value (decode_value slot)
  end.

Definition resolve_extension_field {E} (slot : Slot) : res E ResolvedExtensionField :=
  value ← decode_extension_value slot;
  Ok {| rx_key := slot_key slot; rx_type_tag := slot_ty slot; rx_type_name := ts_name <$> tlv_type_spec (slot_ty slot);
        rx_value := value; rx_payload := slot_payload slot |}.

(** ** The context of a record *)
Record FieldContext := MkFieldContext {
  fc_state_machine_id : option u32;
  fc_category : option u16;
  fc_value_id : option u32;
  fc_condition_id : option u32;
  fc_message_template_id : option u32;
}.

Definition default_context : FieldContext :=
  {| fc_state_machine_id := None; fc_category := None; fc_value_id := None; fc_condition_id := None;
     fc_message_template_id := None |}.

(** The [match] of [from_record]: a slot of another width falls through. *)
Definition context_slot {E} (slot : Slot) (c : FieldContext) : res E FieldContext :=
  let key := slot_key slot in
  let payload := slot_payload slot in
  if decide (key = KEY_STATE_MACHINE_ID ∧ length payload = 4%nat) then
    v ← read_exact 4 payload;
    Ok {| fc_state_machine_id := Some v; fc_category := fc_category c; fc_value_id := fc_value_id c;
          fc_condition_id := fc_condition_id c; fc_message_template_id := fc_message_template_id c |} else
  if decide (key = KEY_CATEGORY ∧ length payload = 2%nat) then
    v ← read_exact 2 payload;
    Ok {| fc_state_machine_id := fc_state_machine_id c; fc_category := Some v; fc_value_id := fc_value_id c;
          fc_condition_id := fc_condition_id c; fc_message_template_id := fc_message_template_id c |} else
  if decide (key = KEY_VALUE_ID ∧ length payload = 4%nat) then
    v ← read_exact 4 payload;
    Ok {| fc_state_machine_id := fc_state_machine_id c; fc_category := fc_category c; fc_value_id := Some v;
          fc_condition_id := fc_condition_id c; fc_message_template_id := fc_message_template_id c |} else
  if decide (key = KEY_CONDITION_ID ∧ length payload = 4%nat) then
    v ← read_exact 4 payload;
    Ok {| fc_state_machine_id := fc_state_machine_id c; fc_category := fc_category c; fc_value_id := fc_value_id c;
          fc_condition_id := Some v; fc_message_template_id := fc_message_template_id c |} else
  if decide (key = KEY_MESSAGE_TEMPLATE_ID ∧ length payload = 4%nat) then
    v ← read_exact 4 payload;
    Ok {| fc_state_machine_id := fc_state_machine_id c; fc_category := fc_category c; fc_value_id := fc_value_id c;
          fc_condition_id := fc_condition_id c; fc_message_template_id := Some v |} else
  Ok c.

Definition from_record {E} (record : WireRecord) : res E FieldContext :=
  for_each context_slot (rec_slots record) default_context.

(** ** Names and labels *)
Definition state_machine_name (id : u32) (d : DefinitionFile) : option string :=
  sm_name <$> List.find (λ m, bool_decide (sm_state_machine_id m = id)) (df_state_machines d).
Definition value_name (id : u32) (d : DefinitionFile) : option string :=
  va_name <$> List.find (λ v, bool_decide (va_value_id v = id)) (df_values d).
Definition condition_name (id : u32) (d : DefinitionFile) : option string :=
  co_name <$> List.find (λ c, bool_decide (co_condition_id c = id)) (df_conditions d).
Definition message_template_format (id : u32) (d : DefinitionFile) : option string :=
  mt_format <$> List.find (λ t, bool_decide (mt_message_template_id t = id)) (df_message_templates d).
Definition cause_operand_name (condition_id operand_id : u32) (d : DefinitionFile) : option string :=
  condition ← List.find (λ c, bool_decide (co_condition_id c = condition_id)) (df_conditions d);
  op_name <$> List.find (λ o, bool_decide (op_operand_id o = operand_id)) (co_cause_operands condition).

Definition source_to_resolved (source : SourceDefinition) : ResolvedSource :=
  {| rc_name := so_name source; rc_path := so_path source; rc_hierarchy := so_hierarchy source;
     rc_dynamic := so_dynamic source |}.
Definition resolve_source (source_id : u32) (d : DefinitionFile) : option ResolvedSource :=
  source_to_resolved <$> List.find (λ s, bool_decide (so_source_id s = source_id)) (df_sources d).

Definition enum_value_label (values : list EnumValue) (value : u16) : option string :=
  ev_label <$> List.find (λ entry, bool_decide (ev_value entry = value)) values.
Definition enum_set_member_label (values : list EnumMember) (value : u16) : option string :=
  em_label <$> List.find (λ entry, bool_decide (em_value entry = value)) values.
Definition severity_label (value : u16) : option string :=
  (λ band, match band with Low => "Low" | Medium => "Medium" | High => "High" end)%string <$> severity_band value.

Definition state_label (state_machine_id : u32) (value : u16) (d : DefinitionFile) : option string :=
  machine ← List.find (λ m, bool_decide (sm_state_machine_id m = state_machine_id)) (df_state_machines d);
  enum_set ← List.find (λ e, bool_decide (se_name e = sm_enum_set machine)) (df_enum_sets d);
  enum_set_member_label (se_members enum_set) value.

Definition enum_label (key : u16) (value : ResolvedValue) (context : FieldContext) (d : DefinitionFile) : option string :=
  int_value ← as_u16 value;
  if decide (key = KEY_CATEGORY) then enum_value_label CATEGORY_VALUES int_value else
  if decide (key = KEY_AUTH_RESULT) then enum_value_label AUTH_RESULT_VALUES int_value else
  if decide (key = KEY_SIGNATURE_MEANING) then enum_value_label SIGNATURE_MEANING_VALUES int_value else
  if decide (key = KEY_PREVIOUS_STATE ∨ key = KEY_NEW_STATE) then
    id ← fc_state_machine_id context; state_label id int_value d else
  if decide (key = KEY_SEVERITY) then severity_label int_value else
  None.

Definition unit_symbol (unit_id : u16) (d : DefinitionFile) : option string :=
  un_symbol <$> List.find (λ u, bool_decide (un_unit_id u = unit_id)) (df_units d).

Definition unit_label (key : u16) (value : ResolvedValue) (context : FieldContext) (d : DefinitionFile) : option string :=
  if decide (key = KEY_UNIT) then unit_id ← as_u16 value; unit_symbol unit_id d else
  if decide (key ≠ KEY_PREVIOUS_VALUE ∧ key ≠ KEY_NEW_VALUE) then None else
  value_id ← fc_value_id context;
  entry ← List.find (λ v, bool_decide (va_value_id v = value_id)) (df_values d);
  unit_id ← va_unit entry;
  unit_symbol unit_id d.

(** A reference becomes the name it stands for: the value with the name and the
    type name of its field, which the code updates in place. *)
Definition semantic_value (key : u16) (value : ResolvedValue) (context : FieldContext) (d : DefinitionFile)
    (name type_name : string) (label : option string) : ResolvedValue * string * string :=
  let renamed text name type_name := (RString text, name, type_name) in
  let kept := (value, name, type_name) in
  if decide (key = KEY_STATE_MACHINE_ID) then
    match (id ← as_u32 value; state_machine_name id d) with
    | Some text => renamed text "stateMachine"%string "StateMachineRef"%string | None => kept end else
  if decide (key = KEY_VALUE_ID) then
    match (id ← as_u32 value; value_name id d) with
    | Some text => renamed text "value"%string "ValueRef"%string | None => kept end else
  if decide (key = KEY_CONDITION_ID) then
    match (id ← as_u32 value; condition_name id d) with
    | Some text => renamed text "condition"%string "ConditionRef"%string | None => kept end else
  if decide (key = KEY_MESSAGE_TEMPLATE_ID) then
    match (id ← as_u32 value; message_template_format id d) with
    | Some text => renamed text "messageTemplate"%string "MessageTemplateRef"%string | None => kept end else
  if decide (key = KEY_CAUSE_OPERAND) then
    match (c ← fc_condition_id context; id ← as_u32 value; cause_operand_name c id d) with
    | Some text => renamed text "causeOperand"%string "CauseOperandRef"%string | None => kept end else
  if decide (key = KEY_PREVIOUS_STATE ∨ key = KEY_NEW_STATE) then
    match label with
    | Some text => renamed text name "StateRef"%string | None => kept end else
  kept.

(** ** The slots *)
Record ResolvedSlots := MkResolvedSlots {
  rs_fields : list ResolvedField;
  rs_extension_fields : list ResolvedExtensionField;
}.

(** What [resolve_slots] does with a slot that gives a field. *)
Definition resolve_field (slot : Slot) (field : FieldSpec) (type_spec : TlvTypeSpec) (context : FieldContext)
    (d : DefinitionFile) : res ResolvePlaceholderReason ResolvedField :=
  value ← map_err (λ reason, match reason with
                             | DecodeInvalidUtf8 => InvalidUtf8 (slot_key slot)
                             | DecodeUnknownTlvType => ReasonUnknownTlvType (slot_key slot) (slot_ty slot)
                             end) (decode_value slot);
  let label := enum_label (slot_key slot) value context d in
  let unit := unit_label (slot_key slot) value context d in
  let '(value, name, type_name) :=
    semantic_value (slot_key slot) value context d (fs_name field) (ts_name type_spec) label in
  Ok {| rf_key := slot_key slot; rf_name := name; rf_type_name := type_name; rf_value := value; rf_unit := unit;
        rf_enum_label := label |}.

Definition resolve_slot (event : EventTypeDefinition) (context : FieldContext) (d : DefinitionFile) (slot : Slot)
    (s : ResolvedSlots) : res ResolvePlaceholderReason ResolvedSlots :=
  if decide (0x8000 ≤ slot_key slot) then
    extension ← resolve_extension_field slot;
    Ok {| rs_fields := rs_fields s; rs_extension_fields := rs_extension_fields s ++ [extension] |} else
  match List.find (λ schema, bool_decide (sd_key schema = slot_key slot)) (et_slots event) with
  | None => Ok s
  | Some _ =>
      match field_spec (slot_key slot) with
      | None => Ok s
      | Some field =>
          if match fs_kind field with Reserved => true | _ => false end then Ok s else
          match tlv_type_spec (slot_ty slot) with
          | None => Err (ReasonUnknownTlvType (slot_key slot) (slot_ty slot))
          | Some type_spec =>
              f ← resolve_field slot field type_spec context d;
              Ok {| rs_fields := rs_fields s ++ [f]; rs_extension_fields := rs_extension_fields s |}
          end
      end
  end.

Definition resolve_slots (record : WireRecord) (event : EventTypeDefinition) (d : DefinitionFile)
  : res ResolvePlaceholderReason ResolvedSlots :=
  context ← from_record record;
  for_each (resolve_slot event context d) (rec_slots record) {| rs_fields := []; rs_extension_fields := [] |}.

(** ** The record *)
Definition selected_definition (epoch : ResolvedEpoch) (definitions : DefinitionSet) : option DefinitionFile :=
  match epoch with
  | Current => ds_current definitions
  | Prior => ds_prior definitions
  end.

(** The [Display] of a [DefinitionError]. *)
Definition definition_error_string (err : DefinitionError) : string :=
  match err with
  | Json message => "invalid definition JSON: " +:+ message
  | Canonical message => "canonicalization failed: " +:+ message
  end%string.
Definition hash_error (err : DefinitionError) : ResolvePlaceholderReason := Hash (definition_error_string err).

Section resolve.
Context `{HashLibraries}.

Definition verify_definition_hash (definition : DefinitionFile) (epoch : ResolvedEpoch) (expected : bytes)
  : res ResolvePlaceholderReason unit :=
  hash ← map_err hash_error (compute_content_hash definition);
  if decide (hs_carriage_hash hash ≠ expected) then Err (Drift epoch expected (hs_carriage_hash hash)) else
  let recorded := dh_content_hash (df_header definition) in
  if decide (recorded ≠ ""%string ∧ recorded ≠ hs_content_hash hash)
  then Err (FullHashDrift recorded (hs_content_hash hash)) else
  Ok tt.

(** A failing step gives a placeholder with its reason. *)
Definition or_else {A} (m : res ResolvePlaceholderReason A) (reject : ResolvePlaceholderReason → Resolution)
    (f : A → res unit Resolution) : res unit Resolution :=
  match m with
  | Ok a => f a
  | Err reason => Ok (reject reason)
  | Panic => Panic
  | Diverge => Diverge
  end.

Definition resolve_record (record : WireRecord) (record_abs : u64) (snapshot : ControlBlockSnapshot)
    (definitions : DefinitionSet) : res unit Resolution :=
  let epoch := if decide (cb_epoch_first_abs snapshot ≤ record_abs) then Current else Prior in
  let selected_hash := match epoch with
                       | Current => cb_definition_hash snapshot
                       | Prior => cb_prev_definition_hash snapshot
                       end in
  let reject := resolve_placeholder record snapshot epoch in
  match selected_definition epoch definitions with
  | None => Ok (reject (match epoch with Current => MissingCurrentDefinition | Prior => StalePriorEpoch end))
  | Some definition =>
      or_else (verify_definition_hash definition epoch selected_hash) reject (λ _,
      or_else (map_err (λ err, Schema (EncodeFailed err)) (encoded_record_len record)) reject (λ record_len,
      validation ← schema_validate_record record record_len definition;
      match validation with
      | Placeholder p =>
          Ok (reject (match ph_reason p with UnknownEventId id => ReasonUnknownEventId id | other => Schema other end))
      | Valid _ =>
          match find_event definition (rec_event_type_id record) with
          | None => Ok (reject (ReasonUnknownEventId (rec_event_type_id record)))
          | Some event =>
              or_else (resolve_slots record event definition) reject (λ resolved,
              Ok (Resolved
                {| rd_event_name := et_name event; rd_source := resolve_source (rec_source_id record) definition;
                   rd_source_id := rec_source_id record; rd_event_type_id := rec_event_type_id record;
                   rd_run_id := rec_run_id record; rd_epoch_id := cb_epoch_id snapshot;
                   rd_source_time := rec_source_time record; rd_seq := rec_seq record; rd_epoch := epoch;
                   rd_fields := rs_fields resolved; rd_extension_fields := rs_extension_fields resolved |}))
          end
      end))
  end.
End resolve.

(** ** What a value says of its payload *)
Definition unsigned_bytes (n : nat) (v : Z) (payload : bytes) : Prop :=
  fits (8 * Z.of_nat n) v ∧ payload = to_le_bytes n v.
(** Two's complement. *)
Definition signed_bytes (n : nat) (v : Z) (payload : bytes) : Prop :=
  - 2 ^ (8 * Z.of_nat n - 1) ≤ v < 2 ^ (8 * Z.of_nat n - 1) ∧ payload = to_le_bytes n (v mod 2 ^ (8 * Z.of_nat n)).

Definition represents (v : ResolvedValue) (ty : u8) (payload : bytes) : Prop :=
  match v with
  | RBool b => ty = TY_BOOL ∧ length payload = 1%nat ∧ b = bool_decide (payload ≠ [0])
  | RSInt v => ty = TY_SINT ∧ signed_bytes 1 v payload
  | RUSInt v => ty = TY_USINT ∧ unsigned_bytes 1 v payload
  | RUInt v => ty = TY_UINT ∧ unsigned_bytes 2 v payload
  | RInt v => ty = TY_INT ∧ signed_bytes 2 v payload
  | RUDInt v => ty = TY_UDINT ∧ unsigned_bytes 4 v payload
  | RDInt v => ty = TY_DINT ∧ signed_bytes 4 v payload
  | RULInt v => ty = TY_ULINT ∧ unsigned_bytes 8 v payload
  | RLInt v => ty = TY_LINT ∧ signed_bytes 8 v payload
  | RReal v => ty = TY_REAL ∧ unsigned_bytes 4 v payload
  | RLReal v => ty = TY_LREAL ∧ unsigned_bytes 8 v payload
  | RDateTime v => ty = TY_DATE_TIME ∧ unsigned_bytes 8 v payload
  | RString s => ty = TY_STRING ∧ utf8_valid payload = true ∧ string_bytes s = payload
  | RBytes bs => ty = TY_BYTES ∧ bs = payload
  end.

Lemma unsigned_le n bs : bytes_ok bs → length bs = n → unsigned_bytes n (from_le_bytes bs) bs.
Proof. intros Hok <-. split; [by apply from_le_bytes_fits|by rewrite to_from_le_bytes]. Qed.

Lemma as_signed_spec w v : 0 < w → fits w v → - 2 ^ (w - 1) ≤ as_signed w v < 2 ^ (w - 1) ∧ as_signed w v mod 2 ^ w = v.
Proof.
  intros Hw [Hv Hv']. unfold as_signed. assert (Hpow : 2 ^ w = 2 * 2 ^ (w - 1)).
  { rewrite <-Z.pow_succ_r by lia. f_equal. lia. }
  case_decide; split; [lia|by apply Z.mod_small|lia|]. symmetry. apply (Z.mod_unique_pos _ _ (-1)); lia.
Qed.

Lemma signed_le n w bs :
  w = 8 * Z.of_nat n → (0 < n)%nat → bytes_ok bs → length bs = n → signed_bytes n (as_signed w (from_le_bytes bs)) bs.
Proof.
  intros -> Hn Hok Hlen. destruct (unsigned_le n bs Hok Hlen) as [Hf Hbs].
  destruct (as_signed_spec (8 * Z.of_nat n) (from_le_bytes bs) ltac:(lia) Hf) as [H1 H2].
  split; [done|]. by rewrite H2.
Qed.

(** A payload of the width of its type decodes, a string if it is UTF-8. *)
Lemma decode_value_spec slot :
  width_ok slot →
  match decode_value slot with
  | Ok v => bytes_ok (slot_payload slot) → represents v (slot_ty slot) (slot_payload slot)
  | Err DecodeInvalidUtf8 => slot_ty slot = TY_STRING ∧ utf8_valid (slot_payload slot) = false
  | _ => False
  end.
Proof.
  intros (spec & Hspec & Hw & _). apply List.find_some in Hspec as [Hin Hcode%bool_decide_eq_true].
  unfold decode_value. destruct slot as [key ty payload]. cbn [slot_ty slot_payload slot_key] in *.
  repeat (destruct Hin as [<-|Hin]; [cbn in Hcode, Hw; subst ty; (specialize (Hw _ eq_refl) || clear Hw);
    repeat rewrite decide_False by done; rewrite decide_True by done|]); [..|done].
  14: done.
  13: { unfold from_utf8. destruct (utf8_valid payload) eqn:Hu; [|done]. cbn. intros Hok.
        split_and!; [done|done|by apply string_bytes_of]. }
  1-3: destruct payload as [|b [|]]; try done; cbn; intros Hok; split; try done.
  4-12: unfold read_exact; rewrite decide_True by done; cbn; intros Hok; split; [done|].
  all: try (by apply unsigned_le).
  all: try (by apply signed_le; [| lia | |]).
  - split; [done|]. apply bool_decide_ext. split; congruence.
  - replace b with (from_le_bytes [b]) at 1 by (cbn; lia). by apply signed_le; [| lia | |].
  - replace b with (from_le_bytes [b]) at 1 by (cbn; lia). by apply unsigned_le.
Qed.

(** Only one value represents a payload under a type. *)
Lemma represents_unique v v' ty payload : represents v ty payload → represents v' ty payload → v = v'.
Proof.
  assert (Hu : ∀ n a b, unsigned_bytes n a payload → unsigned_bytes n b payload → a = b).
  { intros n a b [Ha Heq] [Hb Heq']. apply (to_le_bytes_inj n); congruence. }
  assert (Hs : ∀ n a b, (0 < n)%nat → signed_bytes n a payload → signed_bytes n b payload → a = b).
  { intros n a b Hn [Ha Heq] [Hb Heq']. assert (Hp : 2 ^ (8 * Z.of_nat n) = 2 * 2 ^ (8 * Z.of_nat n - 1)).
    { rewrite <-Z.pow_succ_r by lia. f_equal. lia. }
    assert (0 < 2 ^ (8 * Z.of_nat n - 1)) by (apply Z.pow_pos_nonneg; lia).
    assert (Hm : a mod 2 ^ (8 * Z.of_nat n) = b mod 2 ^ (8 * Z.of_nat n)).
    { apply (to_le_bytes_inj n); [apply Z.mod_pos_bound; lia..|congruence]. }
    apply Z.cong_iff_0 in Hm. apply Z.mod_divide in Hm as [k Hk]; [|lia].
    rewrite Hp in Hk. generalize dependent (2 ^ (8 * Z.of_nat n - 1)). intros P. intros. assert (k = 0); nia. }
  intros H1 H2.
  assert (Hty : ty = match v with RBool _ => TY_BOOL | RSInt _ => TY_SINT | RUSInt _ => TY_USINT | RUInt _ => TY_UINT
    | RInt _ => TY_INT | RUDInt _ => TY_UDINT | RDInt _ => TY_DINT | RULInt _ => TY_ULINT | RLInt _ => TY_LINT
    | RReal _ => TY_REAL | RLReal _ => TY_LREAL | RDateTime _ => TY_DATE_TIME | RString _ => TY_STRING
    | RBytes _ => TY_BYTES end) by (destruct v; apply H1).
  destruct v, v'; cbn in H1, H2; destruct H1 as [_ H1], H2 as [Hty' H2]; rewrite Hty in Hty'; try (by vm_compute in Hty');
    f_equal; try (eapply Hu; eassumption); try (eapply Hs; [|eassumption..]; lia).
  - destruct H1 as [_ ->], H2 as [_ ->]. done.
  - destruct H1 as [_ H1], H2 as [_ H2]. rewrite <-(string_of_string_bytes s), <-(string_of_string_bytes s0). congruence.
  - congruence.
Qed.

(** ** The context, as the last slots of each key *)
Definition last_read (slots : list Slot) (key : u16) (n : nat) : option Z :=
  (λ s, from_le_bytes (slot_payload s)) <$> last (filter (λ s, slot_key s = key ∧ length (slot_payload s) = n) slots).

Definition context_of (slots : list Slot) : FieldContext :=
  {| fc_state_machine_id := last_read slots KEY_STATE_MACHINE_ID 4; fc_category := last_read slots KEY_CATEGORY 2;
     fc_value_id := last_read slots KEY_VALUE_ID 4; fc_condition_id := last_read slots KEY_CONDITION_ID 4;
     fc_message_template_id := last_read slots KEY_MESSAGE_TEMPLATE_ID 4 |}.

Lemma last_read_snoc slots s key n :
  last_read (slots ++ [s]) key n =
    if decide (slot_key s = key ∧ length (slot_payload s) = n) then Some (from_le_bytes (slot_payload s))
    else last_read slots key n.
Proof.
  unfold last_read. rewrite filter_app, filter_cons, filter_nil. case_decide; [by rewrite last_snoc|].
  by rewrite app_nil_r.
Qed.

(** Discharges [¬ (key = k ∧ _)] when the key is known to be another one. *)
Ltac other_key := match goal with
  | |- ¬ (slot_key ?s = _ ∧ _) => let H := fresh in intros [H _];
      match goal with Hk : slot_key s = _ ∧ _ |- _ => rewrite (proj1 Hk) in H; vm_compute in H; discriminate H end
  end.

Lemma from_record_spec {E} record : from_record (E:=E) record = Ok (context_of (rec_slots record)).
Proof.
  unfold from_record. induction (rec_slots record) as [|s slots IH] using rev_ind; [done|].
  rewrite for_each_app, IH, ok_bind. cbn [for_each]. unfold context_of at 2. rewrite !last_read_snoc.
  unfold context_slot, read_exact.
  repeat (let Hk := fresh in case_decide as Hk; [rewrite (decide_True _ _ (proj2 Hk)); repeat rewrite decide_False by other_key; done|]).
  done.
Qed.

(** ** What a field says of its slot *)
(** The first entry of a table with an id. *)
Definition first_where {A} (id : A → Z) (table : list A) (i : Z) : option A := head (filter (λ x, id x = i) table).

Lemma find_first {A} (P : A → Prop) `{!∀ x, Decision (P x)} (l : list A) :
  List.find (λ x, bool_decide (P x)) l = head (filter P l).
Proof.
  induction l as [|x l IH]; [done|]. cbn [List.find]. rewrite filter_cons, IH.
  case_decide; [by rewrite bool_decide_true|by rewrite bool_decide_false].
Qed.

(** The name a reference or a state stands for in a record with these slots. *)
Definition reference_text (slots : list Slot) (d : DefinitionFile) (key : u16) (v : ResolvedValue) : option string :=
  match v with
  | RUDInt id =>
      if decide (key = KEY_STATE_MACHINE_ID) then sm_name <$> first_where sm_state_machine_id (df_state_machines d) id else
      if decide (key = KEY_VALUE_ID) then va_name <$> first_where va_value_id (df_values d) id else
      if decide (key = KEY_CONDITION_ID) then co_name <$> first_where co_condition_id (df_conditions d) id else
      if decide (key = KEY_MESSAGE_TEMPLATE_ID) then
        mt_format <$> first_where mt_message_template_id (df_message_templates d) id else
      if decide (key = KEY_CAUSE_OPERAND) then
        c ← last_read slots KEY_CONDITION_ID 4;
        condition ← first_where co_condition_id (df_conditions d) c;
        op_name <$> first_where op_operand_id (co_cause_operands condition) id else
      None
  | RUInt state =>
      if decide (key = KEY_PREVIOUS_STATE ∨ key = KEY_NEW_STATE) then
        m ← last_read slots KEY_STATE_MACHINE_ID 4;
        machine ← first_where sm_state_machine_id (df_state_machines d) m;
        enum_set ← head (filter (λ e, se_name e = sm_enum_set machine) (df_enum_sets d));
        em_label <$> first_where em_value (se_members enum_set) state else
      None
  | _ => None
  end.

(** The field of a slot: its value is the one its payload represents, under the
    names of the registry, or the text it refers to. *)
Definition field_of (slots : list Slot) (d : DefinitionFile) (slot : Slot) (f : ResolvedField) : Prop :=
  ∃ field type_spec v,
    field_spec (slot_key slot) = Some field ∧ tlv_type_spec (slot_ty slot) = Some type_spec
    ∧ represents v (slot_ty slot) (slot_payload slot) ∧ rf_key f = slot_key slot
    ∧ rf_enum_label f = enum_label (slot_key slot) v (context_of slots) d
    ∧ rf_unit f = unit_label (slot_key slot) v (context_of slots) d
    ∧ match reference_text slots d (slot_key slot) v with
      | Some text => rf_value f = RString text
      | None => rf_value f = v ∧ rf_name f = fs_name field ∧ rf_type_name f = ts_name type_spec
      end.

Definition string_ok (slot : Slot) : Prop := slot_ty slot = TY_STRING → utf8_valid (slot_payload slot) = true.

(** An extension keeps its slot verbatim, with a value when it has one. *)
Definition extension_of (slot : Slot) (x : ResolvedExtensionField) : Prop :=
  rx_key x = slot_key slot ∧ rx_type_tag x = slot_ty slot ∧ rx_payload x = slot_payload slot
  ∧ rx_type_name x = ts_name <$> tlv_type_spec (slot_ty slot)
  ∧ match rx_value x with
    | Some v => represents v (slot_ty slot) (slot_payload slot)
    | None => ¬ (width_ok slot ∧ string_ok slot)
    end.

Lemma decode_extension_spec {E} slot :
  match decode_extension_value (E:=E) slot with
  | Ok (Some v) => bytes_ok (slot_payload slot) → represents v (slot_ty slot) (slot_payload slot)
  | Ok None => ¬ (width_ok slot ∧ string_ok slot)
  | _ => False
  end.
Proof.
  unfold decode_extension_value. destruct (tlv_type_spec (slot_ty slot)) as [spec|] eqn:Hspec.
  2: { intros [(spec & ? & _) _]. congruence. }
  destruct (match ts_fixed_width spec with Some _ => _ | None => _ end) eqn:Hw.
  { intros [(spec' & Hs' & Hw' & _) _]. assert (spec' = spec) as -> by congruence.
    destruct (ts_fixed_width spec) as [w|]; [|done]. apply bool_decide_eq_true in Hw. by apply Hw, Hw'. }
  case_decide as He; [intros [(spec' & _ & _ & He') _]; destruct (He' (proj1 He)); tauto|].
  assert (Hok : width_ok slot).
  { exists spec. split_and!; [done| |].
    - intros w Hw'. rewrite Hw' in Hw. apply bool_decide_eq_false in Hw. by apply dec_stable.
    - intros Hp. destruct (decide (slot_ty slot = TY_STRING)), (decide (slot_ty slot = TY_BYTES)); tauto. }
  pose proof (decode_value_spec slot Hok) as Hv. destruct (decode_value slot) as [v|[]| |]; cbn; try done.
  destruct Hv as [Hty Hu]. intros [_ Hs]. unfold string_ok in Hs. rewrite Hs in Hu; done.
Qed.

Lemma semantic_value_spec slots d key v name type_name :
  let '(v', name', type_name') :=
    semantic_value key v (context_of slots) d name type_name (enum_label key v (context_of slots) d) in
  match reference_text slots d key v with
  | Some text => v' = RString text
  | None => v' = v ∧ name' = name ∧ type_name' = type_name
  end.
Proof.
  assert (Hoperand : ∀ c id, cause_operand_name c id d = (condition ← first_where co_condition_id (df_conditions d) c;
      op_name <$> first_where op_operand_id (co_cause_operands condition) id)).
  { intros c id. unfold cause_operand_name, first_where. rewrite find_first.
    destruct (head _); cbn; [by rewrite find_first|done]. }
  assert (Hstate : ∀ m state, state_label m state d = (machine ← first_where sm_state_machine_id (df_state_machines d) m;
      enum_set ← head (filter (λ e, se_name e = sm_enum_set machine) (df_enum_sets d));
      em_label <$> first_where em_value (se_members enum_set) state)).
  { intros m state. unfold state_label, enum_set_member_label, first_where. rewrite find_first.
    destruct (head _); cbn; [|done]. rewrite find_first. destruct (head _); cbn; [by rewrite find_first|done]. }
  unfold semantic_value, reference_text, enum_label, state_machine_name, value_name, condition_name, message_template_format.
  destruct (decide (key = KEY_PREVIOUS_STATE ∨ key = KEY_NEW_STATE)) as [Hkey|Hkey].
  - destruct v as [| | |state| | | | | | | | | |]; cbn [as_u16 as_u32 mbind option_bind context_of fc_state_machine_id];
      repeat rewrite (decide_False (P := key = _)) by (intros ->; destruct Hkey as [Hk|Hk]; vm_compute in Hk; discriminate Hk); try done.
    destruct (last_read slots KEY_STATE_MACHINE_ID 4) as [m|]; cbn [mbind option_bind]; [|done]. rewrite Hstate.
    by destruct (_ ≫= _).
  - destruct v as [| | | | |id| | | | | | | |]; cbn [as_u32 mbind option_bind]; repeat case_decide; try done;
      rewrite ?find_first.
    all: try (unfold first_where; by destruct (head _)).
    all: cbn [context_of fc_condition_id]; destruct (last_read slots KEY_CONDITION_ID 4); cbn [mbind option_bind]; try done.
    rewrite Hoperand. by destruct (_ ≫= _).
Qed.

(** ** The slots of a conforming record *)
Definition field_slots : list Slot → list Slot := filter (λ s, 1 ≤ slot_key s < 0x8000).
Definition vendor_slots : list Slot → list Slot := filter (λ s, 0x8000 ≤ slot_key s).

(** What a conforming record gives of a slot below the private range. *)
Definition slot_ready (event : EventTypeDefinition) (s : Slot) : Prop :=
  0x8000 ≤ slot_key s
  ∨ slot_key s < 0x8000 ∧ width_ok s
    ∧ is_Some (List.find (λ schema, bool_decide (sd_key schema = slot_key s)) (et_slots event))
    ∧ (1 ≤ slot_key s ∧ (∃ field, field_spec (slot_key s) = Some field ∧ fs_kind field ≠ Reserved)
       ∨ slot_key s < 1 ∧ field_spec (slot_key s) = None).

Lemma field_spec_positive key field : field_spec key = Some field → 1 ≤ key.
Proof.
  intros [Hin%list_elem_of_In <-%bool_decide_eq_true]%List.find_some.
  assert (Hall : Forall (λ f, 1 ≤ fs_key f) FIELD_SPECS) by (apply (bool_decide_unpack _); by vm_compute).
  rewrite Forall_forall in Hall. by apply Hall.
Qed.

Lemma conform_ready record event d :
  slots_conform record event d → Forall (slot_ready event) (rec_slots record).
Proof.
  intros ((Heq & Hk & Hv & _) & _). rewrite Heq. apply Forall_app. split.
  2: { eapply Forall_impl; [exact Hv|]. intros s Hs. left. by apply bool_decide_eq_true in Hs. }
  pose proof (known_declared event (rec_slots record)) as Hd. rewrite Forall_forall in Hk. rewrite Forall_forall in Hd. apply Forall_forall.
  intros s (p & -> & Hin)%list_elem_of_fmap. destruct (Hk _ Hin) as (Hty & _ & Hw), (Hd _ Hin) as [Hdecl Hkey].
  destruct (decide (0x8000 ≤ slot_key p.1)); [by left|right]. split_and!; [lia|done| |].
  - rewrite find_first. destruct (filter _ (et_slots event)) as [|x l] eqn:Hf; [|by eexists].
    exfalso. apply (not_elem_of_nil p.2). rewrite <-Hf. by apply list_elem_of_filter.
  - unfold type_ok in Hty. destruct (field_spec (slot_key p.1)) as [field|] eqn:Hf.
    + left. split; [by eapply field_spec_positive|]. exists field. split; [done|]. intros Hr. by rewrite Hr in Hty.
    + right. split; [|done]. destruct Hty as [Hc%bool_decide_eq_false _]. lia.
Qed.

Lemma resolve_field_spec slots d slot field type_spec :
  width_ok slot → field_spec (slot_key slot) = Some field → tlv_type_spec (slot_ty slot) = Some type_spec →
  match resolve_field slot field type_spec (context_of slots) d with
  | Ok f => string_ok slot ∧ (bytes_ok (slot_payload slot) → field_of slots d slot f)
  | Err reason => reason = InvalidUtf8 (slot_key slot) ∧ ¬ string_ok slot
  | _ => False
  end.
Proof.
  intros Hw Hf Ht. unfold resolve_field. pose proof (decode_value_spec slot Hw) as Hv. unfold string_ok.
  destruct (decode_value slot) as [v|[]| |] eqn:Hdec; cbn [map_err mbind res_bind]; try done.
  2: { destruct Hv as [Hty Hu]. split; [done|]. intros Hs. rewrite Hs in Hu; done. }
  pose proof (semantic_value_spec slots d (slot_key slot) v (fs_name field) (ts_name type_spec)) as Hs.
  destruct (semantic_value _ _ _ _ _ _ _) as [[v' name] type_name]. split.
  - intros Hty. unfold decode_value in Hdec. rewrite Hty in Hdec. cbn in Hdec. unfold from_utf8 in Hdec.
    by destruct (utf8_valid _).
  - intros Hok. exists field, type_spec, v. split_and!; [done|done|by apply Hv|done..|exact Hs].
Qed.

(** The slots of a record, one after the other. *)
Lemma resolve_slots_loop all event d l :
  Forall (slot_ready event) l →
  match for_each (resolve_slot event (context_of all) d) l {| rs_fields := []; rs_extension_fields := [] |} with
  | Ok r => Forall string_ok (field_slots l)
      ∧ (Forall (λ s, bytes_ok (slot_payload s)) l →
           Forall2 (field_of all d) (field_slots l) (rs_fields r)
           ∧ Forall2 extension_of (vendor_slots l) (rs_extension_fields r))
  | Err reason => ∃ s, s ∈ field_slots l ∧ reason = InvalidUtf8 (slot_key s) ∧ ¬ string_ok s
  | _ => False
  end.
Proof.
  induction l as [|s l IH] using rev_ind; intros Hr; [by cbn|]. apply Forall_app in Hr as [Hr [Hs _]%Forall_cons].
  specialize (IH Hr). rewrite for_each_app. unfold field_slots, vendor_slots. rewrite !filter_app, !filter_cons, !filter_nil.
  fold (field_slots l) (vendor_slots l).
  destruct (for_each _ l _) as [r|reason| |]; cbn [mbind res_bind]; try done.
  2: { destruct IH as (x & Hx & IH). exists x. split; [apply elem_of_app; by left|done]. }
  destruct IH as [Hstr Hf]. cbn [for_each]. unfold resolve_slot.
  destruct (decide (0x8000 ≤ slot_key s)) as [Hv|Hv].
  { rewrite (decide_False (P := _ ∧ _)) by lia. pose proof (decode_extension_spec (E := ResolvePlaceholderReason) s) as Hx.
    unfold resolve_extension_field. destruct (decode_extension_value s) as [o|e| |]; cbn; try done. rewrite app_nil_r.
    split; [done|]. intros [Hb [Hsb _]%Forall_cons]%Forall_app. destruct (Hf Hb) as [Hf1 Hf2]. split; [done|].
    apply Forall2_app; [done|]. constructor; [|done]. split_and!; [done..|]. cbn. destruct o as [v|]; [by apply Hx|done]. }
  destruct Hs as [?|(_ & Hw & [schema ->] & Hkey)]; [done|]. rewrite app_nil_r.
  destruct Hkey as [(H1 & field & Hfield & Hk)|[H1 Hfield]]; rewrite Hfield.
  2: { rewrite decide_False by lia. rewrite !app_nil_r. cbn. split; [done|]. intros [Hb _]%Forall_app. by apply Hf. }
  rewrite decide_True by lia. destruct (match fs_kind field with Reserved => true | _ => false end) eqn:Hres;
    [by destruct (fs_kind field)|]. destruct Hw as (spec & Hspec & Hw'). rewrite Hspec.
  pose proof (resolve_field_spec all d s field spec (ex_intro _ spec (conj Hspec Hw')) Hfield Hspec) as Hrf.
  destruct (resolve_field s field spec _ d) as [f|reason| |]; cbn [mbind res_bind]; try done.
  - destruct Hrf as [Hso Hfo]. split; [apply Forall_app; by repeat constructor|].
    intros [Hb [Hsb _]%Forall_cons]%Forall_app. destruct (Hf Hb) as [Hf1 Hf2]. split; [|done].
    apply Forall2_app; [done|]. constructor; [by apply Hfo|done].
  - exists s. split; [apply elem_of_app; right; by left|done].
Qed.

(** ** What resolution decides *)
Section spec.
Context `{HashLibraries}.

(** The definition a record at this position belongs to, and its announced hash. *)
Definition in_force (record_abs : u64) (snapshot : ControlBlockSnapshot) (definitions : DefinitionSet)
    (epoch : ResolvedEpoch) (hash : bytes) (definition : DefinitionFile) : Prop :=
  match epoch with
  | Current => cb_epoch_first_abs snapshot ≤ record_abs ∧ hash = cb_definition_hash snapshot
               ∧ ds_current definitions = Some definition
  | Prior => record_abs < cb_epoch_first_abs snapshot ∧ hash = cb_prev_definition_hash snapshot
             ∧ ds_prior definitions = Some definition
  end.

Definition hash_matches (definition : DefinitionFile) (hash : bytes) : Prop :=
  ∃ h, compute_content_hash definition = Ok h ∧ hs_carriage_hash h = hash
    ∧ (dh_content_hash (df_header definition) = ""%string
       ∨ dh_content_hash (df_header definition) = hs_content_hash h).

Definition resolvable (record : WireRecord) (record_abs : u64) (snapshot : ControlBlockSnapshot)
    (definitions : DefinitionSet) (epoch : ResolvedEpoch) (definition : DefinitionFile)
    (event : EventTypeDefinition) : Prop :=
  ∃ hash record_len,
    in_force record_abs snapshot definitions epoch hash definition ∧ hash_matches definition hash
    ∧ encoded_record_len record = Ok record_len ∧ conforms record record_len definition
    ∧ find_event definition (rec_event_type_id record) = Some event
    ∧ Forall string_ok (field_slots (rec_slots record)).

(** What each reason says. *)
Definition reason_holds (record : WireRecord) (definition : DefinitionFile) (epoch : ResolvedEpoch) (hash : bytes)
    (reason : ResolvePlaceholderReason) : Prop :=
  match reason with
  | MissingCurrentDefinition | StalePriorEpoch | ReasonUnknownTlvType _ _ => False
  | Drift e expected actual =>
      e = epoch ∧ expected = hash ∧ actual ≠ hash ∧ ∃ h, compute_content_hash definition = Ok h ∧ actual = hs_carriage_hash h
  | FullHashDrift expected actual =>
      expected = dh_content_hash (df_header definition) ∧ expected ≠ ""%string ∧ expected ≠ actual
      ∧ ∃ h, compute_content_hash definition = Ok h ∧ hs_carriage_hash h = hash ∧ actual = hs_content_hash h
  | Hash message => ∃ e, compute_content_hash definition = Err e ∧ message = definition_error_string e
  | ReasonUnknownEventId id => id = rec_event_type_id record ∧ find_event definition id = None
  | Schema v =>
      (∃ e, encoded_record_len record = Err e ∧ v = EncodeFailed e)
      ∨ ∃ record_len, encoded_record_len record = Ok record_len ∧ ¬ conforms record record_len definition
  | InvalidUtf8 key => ∃ s, s ∈ field_slots (rec_slots record) ∧ key = slot_key s ∧ ¬ string_ok s
  end.

Definition rejection (record : WireRecord) (record_abs : u64) (snapshot : ControlBlockSnapshot)
    (definitions : DefinitionSet) (epoch : ResolvedEpoch) (reason : ResolvePlaceholderReason) : Prop :=
  match reason with
  | MissingCurrentDefinition =>
      epoch = Current ∧ cb_epoch_first_abs snapshot ≤ record_abs ∧ ds_current definitions = None
  | StalePriorEpoch => epoch = Prior ∧ record_abs < cb_epoch_first_abs snapshot ∧ ds_prior definitions = None
  | _ => ∃ hash definition, in_force record_abs snapshot definitions epoch hash definition
      ∧ reason_holds record definition epoch hash reason
  end.
End spec.

Section resolve_lemmas.
Context `{HashLibraries} `{!HashLaws}.

Lemma check_hash definition epoch expected :
  match verify_definition_hash definition epoch expected with
  | Ok _ => hash_matches definition expected
  | Err reason => ¬ hash_matches definition expected ∧ (∀ record, reason_holds record definition epoch expected reason)
      ∧ reason ≠ MissingCurrentDefinition ∧ reason ≠ StalePriorEpoch
  | _ => False
  end.
Proof.
  unfold verify_definition_hash, hash_matches. pose proof (check_content_hash definition) as Hc.
  destruct (compute_content_hash definition) as [h|e| |] eqn:Hh; cbn [map_err mbind res_bind]; try done.
  - case_decide as Hk.
    { split_and!; [by intros (? & [= <-] & ? & _)| |done..]. intros record. cbn. split_and!; eauto. }
    case_decide as Hf.
    + split_and!; [intros (? & [= <-] & _ & ?); tauto| |done..]. intros record. cbn. split_and!; [done|tauto..|eauto].
    + exists h. split_and!; [done|done|].
      destruct (decide (dh_content_hash (df_header definition) = ""%string)); [by left|right]. apply dec_stable. tauto.
  - split_and!; [by intros (? & ? & _)| |done..]. intros record. cbn. eauto.
Qed.

Lemma encoded_len_outcome record :
  match encoded_record_len record with Panic | Diverge => False | _ => True end.
Proof. unfold encoded_record_len. rewrite encode_eq. destruct (long_slot _); [done|]. by case_decide. Qed.
End resolve_lemmas.

Section theorems.
Context `{HashLibraries} `{!HashLaws}.

Lemma in_force_exists record_abs snapshot definitions epoch hash definition :
  epoch = (if decide (cb_epoch_first_abs snapshot ≤ record_abs) then Current else Prior) →
  hash = match epoch with Current => cb_definition_hash snapshot | Prior => cb_prev_definition_hash snapshot end →
  in_force record_abs snapshot definitions epoch hash definition ↔ selected_definition epoch definitions = Some definition.
Proof. intros -> ->. case_decide; cbn; intuition lia. Qed.

Lemma in_force_unique record_abs snapshot definitions e1 h1 d1 e2 h2 d2 :
  in_force record_abs snapshot definitions e1 h1 d1 → in_force record_abs snapshot definitions e2 h2 d2 →
  e1 = e2 ∧ h1 = h2 ∧ d1 = d2.
Proof. destruct e1, e2; cbn; intros (? & -> & ?) (? & -> & ?); split_and!; congruence || lia. Qed.

Lemma resolve_spec record record_abs snapshot definitions :
  match resolve_record record record_abs snapshot definitions with
  | Ok (Resolved r) => ∃ epoch definition event,
      resolvable record record_abs snapshot definitions epoch definition event
      ∧ rd_event_name r = et_name event ∧ rd_source r = resolve_source (rec_source_id record) definition
      ∧ rd_source_id r = rec_source_id record ∧ rd_event_type_id r = rec_event_type_id record
      ∧ rd_run_id r = rec_run_id record ∧ rd_epoch_id r = cb_epoch_id snapshot
      ∧ rd_source_time r = rec_source_time record ∧ rd_seq r = rec_seq record ∧ rd_epoch r = epoch
      ∧ (Forall (λ s, bytes_ok (slot_payload s)) (rec_slots record) →
           Forall2 (field_of (rec_slots record) definition) (field_slots (rec_slots record)) (rd_fields r)
           ∧ Forall2 extension_of (vendor_slots (rec_slots record)) (rd_extension_fields r))
  | Ok (ResolutionPlaceholder p) =>
      (∀ epoch definition event, ¬ resolvable record record_abs snapshot definitions epoch definition event)
      ∧ ResolutionPlaceholder p = resolve_placeholder record snapshot (rp_epoch p) (rp_reason p)
      ∧ rejection record record_abs snapshot definitions (rp_epoch p) (rp_reason p)
  | _ => False
  end.
Proof.
  unfold resolve_record.
  set (epoch := if decide (cb_epoch_first_abs snapshot ≤ record_abs) then Current else Prior).
  set (hash := match epoch with Current => cb_definition_hash snapshot | Prior => _ end).
  assert (Hforce : ∀ d, in_force record_abs snapshot definitions epoch hash d ↔ selected_definition epoch definitions = Some d).
  { intros d. by apply in_force_exists. }
  destruct (selected_definition epoch definitions) as [d|] eqn:Hsel.
  2: { cbn. split_and!; [|done|].
       - intros e d ev (h & len & Hin & _). unfold in_force in Hin. unfold selected_definition, epoch in Hsel.
         clear Hforce. subst epoch hash. destruct e; case_decide; destruct Hin as (? & _ & Hin); (lia || congruence).
       - subst epoch. unfold rejection. case_decide; cbn in Hsel |- *; split_and!; (done || lia). }
  assert (Hd : in_force record_abs snapshot definitions epoch hash d) by by apply Hforce.
  (* a rejection for a reason that holds of [d] *)
  assert (Hreject : ∀ reason, (∀ ev len, ¬ (hash_matches d hash ∧ encoded_record_len record = Ok len ∧ conforms record len d
      ∧ find_event d (rec_event_type_id record) = Some ev ∧ Forall string_ok (field_slots (rec_slots record)))) →
    reason_holds record d epoch hash reason →
    (∀ e d ev, ¬ resolvable record record_abs snapshot definitions e d ev)
    ∧ resolve_placeholder record snapshot epoch reason = resolve_placeholder record snapshot epoch reason
    ∧ rejection record record_abs snapshot definitions epoch reason).
  { intros reason Hno Hholds. split_and!; [|done|destruct reason; try done; by exists hash, d].
    intros e d' ev (h & len & Hin & Hrest). destruct (in_force_unique _ _ _ _ _ _ _ _ _ Hd Hin) as (<- & <- & <-).
    by apply (Hno ev len). }
  pose proof (check_hash d epoch hash) as Hh.
  destruct (verify_definition_hash d epoch hash) as [u|reason| |]; cbn [or_else]; try done.
  2: { apply Hreject; [tauto|]. apply Hh. }
  pose proof (encoded_len_outcome record) as Hlen.
  destruct (encoded_record_len record) as [len|e| |] eqn:Henc; cbn [map_err or_else]; try done.
  2: { apply Hreject; [by intros ? ? (_ & ? & _)|]. left. by exists e. }
  pose proof (check_record record len d) as Hrec.
  destruct (schema_validate_record record len d) as [[ks|p]|e| |] eqn:Hval; cbn [mbind res_bind]; try done.
  2: { destruct Hrec as [Hno _]. apply Hreject; [intros ev len' (_ & [= <-] & ? & _); done|].
       destruct (ph_reason p) eqn:Hr; try (right; by exists len).
       by destruct (unknown_event_reason _ _ _ _ _ Hval Hr) as [-> ?]. }
  destruct Hrec as [Hconf (event & Hev & _)]. rewrite Hev.
  assert (Hready : Forall (slot_ready event) (rec_slots record)).
  { destruct Hconf as (_ & _ & _ & ev & Hev' & Hsc). assert (ev = event) as -> by congruence. by eapply conform_ready. }
  pose proof (resolve_slots_loop (rec_slots record) event d _ Hready) as Hslots.
  unfold resolve_slots. rewrite from_record_spec, ok_bind.
  destruct (for_each _ (rec_slots record) _) as [r|reason| |]; cbn [or_else]; try done.
  - destruct Hslots as [Hstr Hf]. exists epoch, d, event. split_and!; try done. exists hash, len. by split_and!.
  - destruct Hslots as (s & Hs & -> & Hbad). apply Hreject; [|by exists s].
    intros ev len' (_ & _ & _ & _ & Hstr). rewrite Forall_forall in Hstr. by apply Hbad, Hstr.
Qed.

(** C18: resolution never panics. A record is resolved exactly when the set
    holds the definition of its epoch, the announced hash is that definition's
    and so is a full hash recorded in it, the record conforms to it and its core
    strings are UTF-8; the result keeps the envelope. Otherwise the placeholder
    keeps the envelope and all slots, and the condition its reason stands for is
    the one that failed.

    Two things are as the code has them and not as its comments say. The hashes
    of a reason: [Drift] holds the announced hash in [expected] and the one
    computed of the definition in [actual], where resolver.rs:209 has them the
    other way round; [FullHashDrift] holds in [actual] the full hash computed of
    the definition, where resolver.rs:218 has it announced by the epoch. And
    [epoch_id] is always that of the current epoch, also of a record resolved
    under the prior definition ([prior_record_current_epoch_id]), where
    resolver.rs:72 calls it the epoch the record resolved under. *)
Theorem resolve_record_exact record record_abs snapshot definitions :
  match resolve_record record record_abs snapshot definitions with
  | Ok (Resolved r) => ∃ definition event,
      resolvable record record_abs snapshot definitions (rd_epoch r) definition event
      ∧ rd_event_name r = et_name event ∧ rd_source r = resolve_source (rec_source_id record) definition
      ∧ rd_source_id r = rec_source_id record ∧ rd_event_type_id r = rec_event_type_id record
      ∧ rd_run_id r = rec_run_id record ∧ rd_epoch_id r = cb_epoch_id snapshot
      ∧ rd_source_time r = rec_source_time record ∧ rd_seq r = rec_seq record
  | Ok (ResolutionPlaceholder p) =>
      (∀ epoch definition event, ¬ resolvable record record_abs snapshot definitions epoch definition event)
      ∧ ResolutionPlaceholder p = resolve_placeholder record snapshot (rp_epoch p) (rp_reason p)
      ∧ rejection record record_abs snapshot definitions (rp_epoch p) (rp_reason p)
  | Err _ | Panic | Diverge => False
  end.
Proof.
  pose proof (resolve_spec record record_abs snapshot definitions) as Hr.
  destruct (resolve_record _ _ _ _) as [[r|p]|e| |]; try done.
  destruct Hr as (epoch & d & event & Hres & ? & ? & ? & ? & ? & ? & ? & ? & -> & _). by exists d, event.
Qed.

(** C30: a resolved record accounts for every slot with a nonzero key, in order.
    A core slot gives a field whose value is the one its payload represents
    under its type, or the text the definition gives the reference or state; a
    private slot is kept verbatim, with its value when it has a valid one. *)
Theorem resolved_fields_exact record record_abs snapshot definitions r :
  record_wf record → resolve_record record record_abs snapshot definitions = Ok (Resolved r) →
  ∃ hash definition,
    in_force record_abs snapshot definitions (rd_epoch r) hash definition
    ∧ Forall2 (field_of (rec_slots record) definition) (field_slots (rec_slots record)) (rd_fields r)
    ∧ Forall2 extension_of (vendor_slots (rec_slots record)) (rd_extension_fields r)
    ∧ (length (rd_fields r) + length (rd_extension_fields r) =
        length (filter (λ s, slot_key s ≠ 0%Z) (rec_slots record)))%nat.
Proof.
  intros Hwf Heq. pose proof (resolve_spec record record_abs snapshot definitions) as Hr. rewrite Heq in Hr.
  destruct Hr as (epoch & d & event & (hash & len & Hin & _) & _ & _ & _ & _ & _ & _ & _ & _ & -> & Hf).
  destruct Hwf as (_ & _ & _ & _ & _ & _ & Hslots).
  destruct Hf as [Hf1 Hf2]; [eapply Forall_impl; [exact Hslots|]; by intros s (_ & _ & ? & _)|].
  exists hash, d. split_and!; [done..|]. rewrite <-(Forall2_length _ _ _ Hf1), <-(Forall2_length _ _ _ Hf2).
  clear -Hslots. unfold field_slots, vendor_slots. induction Hslots as [|s l [Hk _] _ IH]; [done|].
  unfold fits in Hk. rewrite !filter_cons. repeat case_decide; cbn [length]; lia.
Qed.
End theorems.

(** ** Concrete resolutions *)
#[local] Existing Instance constant_libraries.
#[local] Existing Instance constant_laws.

Definition sample : DefinitionFile :=
  match sample_definition (E := unit) with Ok d => d | _ => empty_definition end.

(** A record at or after offset 100 is of the current epoch, number 7. *)
Definition sample_snapshot : ControlBlockSnapshot :=
  {| cb_version := 2; cb_caps := 0; cb_buffer_id := 1; cb_buffer_bytes := 4096; cb_head_abs := 4096;
     cb_oldest_abs := 0; cb_lost_count := 0; cb_run_id := 1; cb_epoch_id := 7; cb_epoch_first_abs := 100;
     cb_definition_hash := replicate 8 171; cb_prev_definition_hash := replicate 8 171 |}.

Definition transition_record : WireRecord :=
  with_slots (record_new 1000000000 1 1 66 EVENT_STATE_TRANSITION)
    [{| slot_key := KEY_STATE_MACHINE_ID; slot_ty := TY_UDINT; slot_payload := to_le_bytes 4 7 |};
     {| slot_key := KEY_CATEGORY; slot_ty := TY_UINT; slot_payload := to_le_bytes 2 2 |};
     {| slot_key := KEY_PREVIOUS_STATE; slot_ty := TY_UINT; slot_payload := to_le_bytes 2 3 |};
     {| slot_key := KEY_NEW_STATE; slot_ty := TY_UINT; slot_payload := to_le_bytes 2 4 |};
     {| slot_key := 0x8001; slot_ty := TY_SINT; slot_payload := [0xFE] |}].

Definition transition_resolved : ResolvedRecord :=
  {| rd_event_name := "StateTransition"; rd_source := Some {| rc_name := "UnitA.Phase1"; rc_path := ["Area1"; "UnitA";
       "Phase1"]; rc_hierarchy := ["area"; "unit"; "phase"]; rc_dynamic := false |};
     rd_source_id := 66; rd_event_type_id := 1; rd_run_id := 1; rd_epoch_id := 7; rd_source_time := 1000000000;
     rd_seq := 1; rd_epoch := Current;
     rd_fields :=
       [{| rf_key := 1; rf_name := "stateMachine"; rf_type_name := "StateMachineRef"; rf_value := RString "CoreProcedure";
           rf_unit := None; rf_enum_label := None |};
        {| rf_key := 2; rf_name := "category"; rf_type_name := "UInt"; rf_value := RUInt 2; rf_unit := None;
           rf_enum_label := Some "Procedural" |};
        {| rf_key := 3; rf_name := "previousState"; rf_type_name := "StateRef"; rf_value := RString "Pausing";
           rf_unit := None; rf_enum_label := Some "Pausing" |};
        {| rf_key := 4; rf_name := "newState"; rf_type_name := "StateRef"; rf_value := RString "Paused"; rf_unit := None;
           rf_enum_label := Some "Paused" |}];
     rd_extension_fields :=
       [{| rx_key := 0x8001; rx_type_tag := 1; rx_type_name := Some "SInt"; rx_value := Some (RSInt (-2));
           rx_payload := [0xFE] |}] |}%string.

Example transition_record_resolves :
  resolve_record transition_record 100 sample_snapshot (ds_of_current sample) = Ok (Resolved transition_resolved).
Proof. vm_compute. reflexivity. Qed.

(** A record of the prior epoch is given the number of the current one. *)
Example prior_record_current_epoch_id :
  match resolve_record transition_record 99 sample_snapshot (ds_current_and_prior sample sample) with
  | Ok (Resolved r) => rd_epoch r = Prior ∧ rd_epoch_id r = cb_epoch_id sample_snapshot
  | _ => False
  end.
Proof. vm_compute. done. Qed.

Lemma resolve_record_exact_witness :
  ∃ definition event,
    resolvable transition_record 100 sample_snapshot (ds_of_current sample) Current definition event.
Proof.
  pose proof (resolve_record_exact transition_record 100 sample_snapshot (ds_of_current sample)) as Hr.
  rewrite transition_record_resolves in Hr. destruct Hr as (d & event & Hr & _). by exists d, event.
Defined.

Lemma resolved_fields_exact_witness :
  ∃ definition, Forall2 (field_of (rec_slots transition_record) definition) (field_slots (rec_slots transition_record))
    (rd_fields transition_resolved).
Proof.
  destruct (resolved_fields_exact transition_record 100 sample_snapshot (ds_of_current sample) transition_resolved)
    as (hash & d & _ & Hf & _); [by_compute|exact transition_record_resolves|by exists d].
Defined.

(** A definition with a slot of key 0, which is neither a core nor a private key. *)
Definition zero_definition : DefinitionFile :=
  let d := empty_definition in
  {| df_header := df_header d;
     df_event_types := [{| et_id := 1; et_name := "Zero"; et_profile := ""; et_slots := [slot 0 TY_USINT 1 (Count 1) 1] |}];
     df_sources := []; df_state_machines := []; df_conditions := []; df_message_templates := []; df_values := [];
     df_units := []; df_enum_sets := []; df_recipe_definitions := []; df_batch_definitions := [];
     df_material_definitions := []; df_operator_definitions := []; df_e_signature_meanings := [];
     df_severity_scale := df_severity_scale d |}%string.

Definition zero_record : WireRecord :=
  with_slots (record_new 0 1 0 66 1) [{| slot_key := 0; slot_ty := TY_USINT; slot_payload := [5] |}].

(** It resolves to a record with neither the field nor the bytes. *)
Example key_zero_dropped :
  match resolve_record zero_record 100 sample_snapshot (ds_of_current zero_definition) with
  | Ok (Resolved r) => rd_fields r = [] ∧ rd_extension_fields r = []
  | _ => False
  end.
Proof. vm_compute. done. Qed.
