(* ===== verification/DefProducer.v ===== *)
(** * The producer's records against the definitions

    The system records of the epoch producer (epoch.rs) conform to the built-in
    schemas (model.rs, schema.rs), and the snapshot it publishes leads the
    resolver (resolver.rs) to the right definition for each of them. *)
From stdpp Require Import strings.
From S2P Require Import Prelude Utf8 Wire Control Registry Layout Ring Loss Epoch DefModel DefSchema DefHash DefResolver.
#[local] Open Scope Z_scope.

(** The records of a transition, and those that account for a loss range. *)
Inductive system_record : WireRecord → Prop :=
| sys_stopped time run seq :
    system_record (record_new time run seq SYSTEM_SOURCE_ID EVENT_LOGGER_STOPPED)
| sys_high_water time run seq src n :
    system_record (with_slots (record_new time run seq src EVENT_SOURCE_HIGH_WATER) (high_water_slot n))
| sys_changed time run seq t :
    hash_wf (pt_def_hash_old t) → hash_wf (pt_def_hash_new t) →
    system_record (with_slots (record_new time run seq SYSTEM_SOURCE_ID EVENT_DEFINITION_CHANGED) (definition_changed_slots t))
| sys_dropped time run seq src n first last :
    system_record (with_slots (record_new time run seq src EVENT_RECORDS_DROPPED)
      [{| slot_key := KEY_DROPPED_COUNT; slot_ty := TY_UDINT; slot_payload := to_le_bytes 4 n |};
       {| slot_key := KEY_FIRST_LOST_SEQ; slot_ty := TY_ULINT; slot_payload := to_le_bytes 8 first |};
       {| slot_key := KEY_LAST_LOST_SEQ; slot_ty := TY_ULINT; slot_payload := to_le_bytes 8 last |}])
| sys_started time run seq cold :
    system_record (with_slots (record_new time run seq SYSTEM_SOURCE_ID EVENT_LOGGER_STARTED) (cold_start_slot cold)).

Definition SYSTEM_EVENTS : list u32 :=
  [EVENT_LOGGER_STOPPED; EVENT_SOURCE_HIGH_WATER; EVENT_DEFINITION_CHANGED; EVENT_RECORDS_DROPPED; EVENT_LOGGER_STARTED].

(** A well-formed definition that declares an event with its built-in schema. *)
Definition declares (d : DefinitionFile) (ty : u32) : Prop :=
  ∃ event, find_event d ty = Some event ∧ canonical_slots ty = Some (et_slots event).

(** One that leaves room for these records. *)
Definition system_definition (d : DefinitionFile) : Prop :=
  definition_ok d ∧ 80 ≤ dk_max_record_size (dh_constraints (df_header d))
  ∧ 3 ≤ dk_max_slots (dh_constraints (df_header d)) ∧ Forall (declares d) SYSTEM_EVENTS.

Lemma checkpoint_system l : ∀ time run, Forall system_record (checkpoint_records time run l).
Proof. induction l as [|[src n] l IH]; intros time run; constructor; [constructor|apply IH]. Qed.

Lemma script_system p h1 h2 ep cold :
  hash_wf h1 → hash_wf h2 → Forall system_record (transition_script p h1 h2 ep cold).
Proof.
  intros H1 H2. constructor; [constructor|]. apply Forall_app. split; [apply checkpoint_system|].
  constructor; [|constructor; [|constructor]].
  - apply (sys_changed _ _ _ (MkPendingTransition h1 h2 ep false)); done.
  - apply (sys_started _ _ _ (if cold then 1 else 0)).
Qed.

Lemma dropped_system {BP : BuildProfile} {E} seq range rec :
  records_dropped_record (E:=E) seq range = Ok rec → system_record rec.
Proof.
  unfold records_dropped_record. intros (time & _ & Hn)%bind_Ok. apply bind_Ok in Hn as (n & _ & [= <-]).
  apply sys_dropped.
Qed.

Lemma length_4 (bs : bytes) : length bs = 4%nat → ∃ b0 b1 b2 b3, bs = [b0; b1; b2; b3].
Proof. intros H. do 4 (destruct bs as [|? bs]; [done|]). destruct bs; [|done]. repeat eexists. Qed.

Lemma length_8 (bs : bytes) : length bs = 8%nat → ∃ b0 b1 b2 b3 b4 b5 b6 b7, bs = [b0; b1; b2; b3; b4; b5; b6; b7].
Proof.
  intros H. do 8 (destruct bs as [|? bs]; [done|]). destruct bs; [|done]. repeat eexists.
Qed.

(** Case analysis, with every payload as its bytes. *)
Lemma system_cases (P : WireRecord → Prop) :
  (∀ time run seq, P (record_new time run seq SYSTEM_SOURCE_ID EVENT_LOGGER_STOPPED)) →
  (∀ time run seq src b0 b1 b2 b3 b4 b5 b6 b7,
    P (with_slots (record_new time run seq src EVENT_SOURCE_HIGH_WATER)
         [{| slot_key := KEY_SOURCE_HIGH_WATER; slot_ty := TY_ULINT; slot_payload := [b0; b1; b2; b3; b4; b5; b6; b7] |}])) →
  (∀ time run seq b0 b1 b2 b3 b4 b5 b6 b7 c0 c1 c2 c3 c4 c5 c6 c7 d0 d1 d2 d3 d4 d5 d6 d7,
    P (with_slots (record_new time run seq SYSTEM_SOURCE_ID EVENT_DEFINITION_CHANGED)
         [{| slot_key := KEY_DEF_HASH_OLD; slot_ty := TY_BYTES; slot_payload := [b0; b1; b2; b3; b4; b5; b6; b7] |};
          {| slot_key := KEY_DEF_HASH_NEW; slot_ty := TY_BYTES; slot_payload := [c0; c1; c2; c3; c4; c5; c6; c7] |};
          {| slot_key := KEY_EPOCH_ID; slot_ty := TY_ULINT; slot_payload := [d0; d1; d2; d3; d4; d5; d6; d7] |}])) →
  (∀ time run seq src b0 b1 b2 b3 c0 c1 c2 c3 c4 c5 c6 c7 d0 d1 d2 d3 d4 d5 d6 d7,
    P (with_slots (record_new time run seq src EVENT_RECORDS_DROPPED)
         [{| slot_key := KEY_DROPPED_COUNT; slot_ty := TY_UDINT; slot_payload := [b0; b1; b2; b3] |};
          {| slot_key := KEY_FIRST_LOST_SEQ; slot_ty := TY_ULINT; slot_payload := [c0; c1; c2; c3; c4; c5; c6; c7] |};
          {| slot_key := KEY_LAST_LOST_SEQ; slot_ty := TY_ULINT; slot_payload := [d0; d1; d2; d3; d4; d5; d6; d7] |}])) →
  (∀ time run seq cold,
    P (with_slots (record_new time run seq SYSTEM_SOURCE_ID EVENT_LOGGER_STARTED) (cold_start_slot cold))) →
  ∀ rec, system_record rec → P rec.
Proof.
  intros Hp1 Hp2 Hp3 Hp4 Hp5 _
    [time run seq|time run seq src n|time run seq t [_ H1] [_ H2]|time run seq src n first last|time run seq cold];
    [done| | | |done].
  - unfold high_water_slot. destruct (length_8 _ (length_to_le_bytes 8 n)) as (? & ? & ? & ? & ? & ? & ? & ? & ->). apply Hp2.
  - unfold definition_changed_slots.
    destruct (length_8 _ (length_to_le_bytes 8 (pt_epoch_id t))) as (? & ? & ? & ? & ? & ? & ? & ? & ->).
    apply length_8 in H1 as (? & ? & ? & ? & ? & ? & ? & ? & ->), H2 as (? & ? & ? & ? & ? & ? & ? & ? & ->). apply Hp3.
  - destruct (length_4 _ (length_to_le_bytes 4 n)) as (? & ? & ? & ? & ->),
      (length_8 _ (length_to_le_bytes 8 first)) as (? & ? & ? & ? & ? & ? & ? & ? & ->),
      (length_8 _ (length_to_le_bytes 8 last)) as (? & ? & ? & ? & ? & ? & ? & ? & ->). apply Hp4.
Qed.

Ltac by_system :=
  let Hrec := fresh in intros Hrec;
  match type of Hrec with system_record ?rec => pattern rec; apply system_cases; [..|exact Hrec] end;
  clear; intros; cbv beta.

(** The checks of an event, run on its record. *)
Lemma system_slots_ok d event rec :
  system_record rec → canonical_slots (rec_event_type_id rec) = Some (et_slots event) →
  validate_record_slots rec event d = Ok [].
Proof.
  destruct event as [id name profile slots]. by_system; cbn [et_slots] in *;
    match goal with Hs : canonical_slots _ = _ |- _ => vm_compute in Hs; injection Hs as <- end; vm_compute; reflexivity.
Qed.

(** Its encoded length, and that it holds no string. *)
Lemma system_record_len rec :
  system_record rec → (∃ len, encoded_record_len rec = Ok len ∧ (len ≤ 80)%nat) ∧ (length (rec_slots rec) ≤ 3)%nat
    ∧ Forall string_ok (field_slots (rec_slots rec)).
Proof.
  by_system; (split_and!; [|cbn; lia|repeat constructor; intros Hty; vm_compute in Hty; done]).
  all: eexists; split; [vm_compute; reflexivity|cbn; lia].
Qed.

Lemma system_event rec : system_record rec → rec_event_type_id rec ∈ SYSTEM_EVENTS.
Proof. by_system; unfold SYSTEM_EVENTS; cbn; set_solver. Qed.

Lemma system_conforms d rec :
  system_definition d → system_record rec →
  ∃ event len, find_event d (rec_event_type_id rec) = Some event ∧ encoded_record_len rec = Ok len ∧ conforms rec len d
    ∧ Forall string_ok (field_slots (rec_slots rec)) ∧ slot_key <$> other_slots event (rec_slots rec) = [].
Proof.
  intros (Hok & Hmax & Hslots & Hdecl) Hrec. rewrite Forall_forall in Hdecl.
  destruct (Hdecl _ (system_event _ Hrec)) as (event & Hev & Hcan).
  destruct (system_record_len _ Hrec) as ((len & Hlen & Hle) & Hn & Hstr). exists event, len.
  assert (Hevok : event_ok event).
  { destruct Hok as (_ & Hevs & _). rewrite Forall_forall in Hevs. apply Hevs.
    unfold find_event in Hev. apply List.find_some in Hev as [Hin _]. by apply list_elem_of_In. }
  pose proof (check_record_slots event Hevok rec d) as Hc. rewrite (system_slots_ok _ _ _ Hrec Hcan) in Hc.
  destruct Hc as [Hc Hext]. split_and!; [done|done| |done|done]. split_and!; [done|lia|lia|by exists event].
Qed.

Lemma system_valid d rec :
  system_definition d → system_record rec →
  ∃ len, encoded_record_len rec = Ok len ∧ schema_validate_record rec len d = Ok (Valid []).
Proof.
  intros Hd Hrec. destruct (system_conforms d rec Hd Hrec) as (event & len & Hev & Hlen & Hconf & _ & Hext).
  exists len. split; [done|]. pose proof (check_record rec len d) as Hc.
  destruct (schema_validate_record rec len d) as [[ks|p]|e| |]; try done; [|tauto].
  destruct Hc as [_ (event' & Hev' & ->)]. assert (event' = event) as -> by congruence. by rewrite Hext.
Qed.

(** C31: every record the library composes itself is valid against the built-in
    schemas, with no extension slot: the records of any epoch transition and the
    record that accounts for any loss range, under every well-formed definition
    that declares these events as built in and allows records of 80 bytes and
    three slots. *)
Theorem library_records_conform {BP : BuildProfile} d :
  system_definition d →
  let valid rec := ∃ len, encoded_record_len rec = Ok len ∧ schema_validate_record rec len d = Ok (Valid []) in
  (∀ p h1 h2 ep cold, hash_wf h1 → hash_wf h2 → Forall valid (transition_script p h1 h2 ep cold))
  ∧ ∀ seq range rec, records_dropped_record (E:=unit) seq range = Ok rec → valid rec.
Proof.
  intros Hd valid. split.
  - intros p h1 h2 ep cold H1 H2. eapply Forall_impl; [by apply script_system|]. intros rec. by apply system_valid.
  - intros seq range rec Hrec. eapply system_valid; [done|by eapply dropped_system].
Qed.

Section resolution.
Context `{HashLibraries} `{!HashLaws}.

(** What is resolvable is resolved, under its epoch. *)
Lemma resolvable_resolves rec abs snapshot definitions epoch d event :
  resolvable rec abs snapshot definitions epoch d event →
  ∃ r, resolve_record rec abs snapshot definitions = Ok (Resolved r) ∧ rd_epoch r = epoch.
Proof.
  intros Hres. pose proof (resolve_spec rec abs snapshot definitions) as Hr.
  destruct (resolve_record _ _ _ _) as [[r|p]|e| |]; try done; [|by destruct Hr as [Hno _]; destruct (Hno _ _ _ Hres)].
  exists r. split; [done|]. destruct Hr as (epoch' & d' & event' & (h' & len' & Hin' & _) & Hr).
  destruct Hres as (h & len & Hin & _).
  destruct (in_force_unique _ _ _ _ _ _ _ _ _ Hin Hin') as (-> & _). apply Hr.
Qed.

Lemma system_resolves rec abs snapshot definitions epoch hash d :
  system_definition d → system_record rec → in_force abs snapshot definitions epoch hash d → hash_matches d hash →
  ∃ r, resolve_record rec abs snapshot definitions = Ok (Resolved r) ∧ rd_epoch r = epoch.
Proof.
  intros Hd Hrec Hin Hh. destruct (system_conforms d rec Hd Hrec) as (event & len & Hev & Hlen & Hconf & Hstr & _).
  apply (resolvable_resolves _ _ _ _ _ d event). by exists hash, len.
Qed.

Lemma checkpoint_not_started l : ∀ time run,
  Forall (λ rec, rec_event_type_id rec ≠ EVENT_LOGGER_STARTED) (checkpoint_records time run l).
Proof. induction l as [|[src n] l IH]; intros time run; constructor; [done|apply IH]. Qed.

(** [LoggerStarted] comes last, and only there. *)
Lemma script_last p h1 h2 ep cold :
  ∃ before started, transition_script p h1 h2 ep cold = before ++ [started]
    ∧ Forall (λ rec, rec_event_type_id rec ≠ EVENT_LOGGER_STARTED) before
    ∧ rec_event_type_id started = EVENT_LOGGER_STARTED.
Proof.
  eexists (_ :: _ ++ [_]), _. split; [unfold transition_script; by rewrite <-app_comm_cons, <-app_assoc|]. split; [|done].
  constructor; [done|]. apply Forall_app. split; [apply checkpoint_not_started|by constructor].
Qed.

(** C19: the epoch protocol and the resolver agree: after a whole transition of
    a producer (ring of at least 80 bytes, no data under source 0) in any state
    it can reach, the snapshot it publishes leads the
    resolver, given the old and the new definition, to resolve every record the
    transition wrote: those before [LoggerStarted] under the prior definition,
    [LoggerStarted] under the current one. *)
Theorem transition_resolves {BP : BuildProfile} cap run_id epoch_id ops h1 h2 ep (cold : bool) d1 d2 :
  (80 ≤ cap)%nat → is_u64 run_id → is_u64 epoch_id → fits_ops (Z.of_nat cap) run_id (length ops + 3) →
  Forall op_wf ops → hash_wf h1 → hash_wf h2 → is_u64 ep →
  system_definition d1 → system_definition d2 → hash_matches d1 h1 → hash_matches d2 h2 →
  ∃ p0 p, epoch_new cap run_id epoch_id = Ok p0 ∧ run_ops ops p0 = Ok p ∧ (phase p = Idle →
    ∃ a p' a' l, ring_rep (ep_ring p) a ∧ run_transition h1 h2 ep cold p = Ok (p', tt) ∧ ring_rep (ep_ring p') a'
    ∧ ab_log a' = ab_log a ++ l ∧ en_rec <$> l = transition_script p h1 h2 ep cold
    ∧ Forall (λ e, ∃ r,
        resolve_record (en_rec e) (en_start e) (control_snapshot p') (ds_current_and_prior d2 d1) = Ok (Resolved r)
        ∧ rd_epoch r = if decide (rec_event_type_id (en_rec e) = EVENT_LOGGER_STARTED) then Current else Prior) l).
Proof.
  intros Hcap Hr He Hfits Hops Hh1 Hh2 Hep Hd1 Hd2 Hm1 Hm2.
  destruct (runs_reach 1 cap run_id epoch_id ops 3 Hcap Hr He Hfits Hops) as (p0 & p & a & Hnew & Hrun & Hes & Hc).
  exists p0, p. split_and!; [done|done|]. intros Hph. exists a.
  destruct (transition_spec 1 run_id epoch_id _ 0 p a _ h1 h2 ep cold Hes Hph Hh1 Hh2 Hep)
    as (p' & a' & l & Htr & Hrep' & Hlog & Hl & _ & _ & Hdh & Hpdh & _ & Hfirst & _ & _ & Hbefore).
  exists p', a', l. split_and!; try done; [apply (pi_rep _ _ _ (proj1 (es_inv _ _ _ _ _ _ _ _ Hes)))|].
  pose proof (script_system p h1 h2 ep cold Hh1 Hh2) as Hsys. rewrite <-Hl, Forall_fmap in Hsys.
  destruct l as [|e l' _] using rev_ind; [done|]. rewrite last_snoc in Hfirst. injection Hfirst as Hfirst.
  specialize (Hbefore l' e eq_refl). apply Forall_app in Hsys as [Hsys' [Hsys _]%Forall_cons].
  destruct (script_last p h1 h2 ep cold) as (before & started & Hsplit & Hnot & Hstarted).
  rewrite Hsplit, fmap_app in Hl. apply app_inj_2 in Hl as [<- [= <-]]; [|done]. rewrite Forall_fmap in Hnot.
  apply Forall_app. split; [|constructor; [|done]].
  - apply Forall_forall. intros x Hx. rewrite Forall_forall in Hnot, Hsys', Hbefore.
    rewrite decide_False by (by apply Hnot). apply (system_resolves _ _ _ _ Prior h1 d1); [done|by apply Hsys'| |done].
    cbn. rewrite Hfirst, Hpdh. split_and!; [by apply Hbefore|done..].
  - rewrite decide_True by done. apply (system_resolves _ _ _ _ Current h2 d2); [done|done| |done].
    cbn. rewrite Hfirst, Hdh. split_and!; [lia|done..].
Qed.
End resolution.

(** ** The built-in definition *)
Lemma sample_system : system_definition sample.
Proof.
  pose proof (check_definition sample) as Hc.
  assert (Hv : validate_definition sample = Ok tt) by (vm_compute; reflexivity). rewrite Hv in Hc.
  split_and!; [exact Hc|done|done|]. repeat constructor; eexists; split; vm_compute; reflexivity.
Qed.

Definition demo_range : LossRange := MkLossRange 1 7 3 9.

Lemma library_records_conform_witness :
  ∃ rec len, records_dropped_record (BP:=dev_profile) (E:=unit) 5 demo_range = Ok rec
    ∧ encoded_record_len rec = Ok len ∧ schema_validate_record rec len sample = Ok (Valid []).
Proof.
  destruct (library_records_conform (BP:=dev_profile) sample sample_system) as [_ Hdropped].
  destruct (records_dropped_record (BP:=dev_profile) (E:=unit) 5 demo_range) as [rec|e| |] eqn:Hrec;
    [|vm_compute in Hrec; discriminate Hrec..].
  destruct (Hdropped 5 demo_range rec Hrec) as (len & Hlen & Hval).
  exists rec, len. split; [exact eq_refl|split; [exact Hlen|exact Hval]].
Defined.

#[local] Existing Instance constant_libraries.
#[local] Existing Instance constant_laws.

Lemma sample_matches : hash_matches sample (demo_hash 171).
Proof.
  eexists. split; [vm_compute; reflexivity|]. split; [vm_compute; reflexivity|left; vm_compute; reflexivity].
Qed.

Lemma transition_resolves_witness :
  ∃ p0 p, epoch_new 200 1 4 = Ok p0 ∧ run_ops (BP:=dev_profile) (take 3 demo_ops) p0 = Ok p.
Proof.
  destruct (transition_resolves (BP:=dev_profile) 200 1 4 (take 3 demo_ops) (demo_hash 171) (demo_hash 171) 5 true
    sample sample) as (p0 & p & Hnew & Hrun & _);
    [lia|by_compute|by_compute|split; by_compute|by_compute|by_compute|by_compute|by_compute
    |exact sample_system|exact sample_system|exact sample_matches|exact sample_matches|].
  by exists p0, p.
Defined.
