(* ===== verification/Document.v ===== *)
(** * Documents (crates/document/src/lib.rs)

    The projection of resolutions and loss intervals to documents, and what of
    them a document keeps. The JSON values inside documents are those of
    serde_json; turning a whole document into text is its derived code. *)
From stdpp Require Import strings.
From S2P Require Import Prelude Utf8 Wire Control Registry Loss DefModel DefSchema DefHash DefResolver.
#[local] Open Scope Z_scope.
#[local] Set Warnings "-register-all".

(** ** JSON values

    [serde_json::Value] with the conversions [json!] uses; an object is built
    from its entries. Floats are given by their bits. *)
Class JsonLibrary := {
  Json : Type;
  json_null : Json;
  json_bool : bool → Json;
  json_number : Z → Json;
  json_f32 : u32 → Json;
  json_f64 : u64 → Json;
  json_string : string → Json;
  json_object : list (string * Json) → Json;
}.

(** ** The documents *)
Inductive DocumentKind := KindEvent | KindLoss | KindPlaceholder.
Inductive EpochRelation := RelCurrent | RelPrior.
Inductive LossBasis := Authoritative | Inferred.

Inductive PlaceholderReasonKind :=
| KMissingCurrentDefinition
| KStalePriorEpoch
| KDrift
| KFullHashDrift
| KUnknownEventId
| KSchemaViolation
| KInvalidPayload
| KHashError.

Record DocumentSource := MkDocumentSource {
  so_id : u32;
  so_name : option string;
  so_path : list string;
  so_hierarchy : list string;
  so_dynamic : option bool;
}.
Definition unresolved (id : u32) : DocumentSource :=
  {| so_id := id; so_name := None; so_path := []; so_hierarchy := []; so_dynamic := None |}.

Record DocumentEpoch := MkDocumentEpoch {
  de_id : u64;
  de_relation : EpochRelation;
  de_definition_hash : string;
  de_semantic_version : option string;
}.

Record DocumentFlags := MkDocumentFlags {
  dg_time_unsynced : bool;
  dg_synthetic_record : bool;
  dg_partial_payload : bool;
}.
Definition default_flags : DocumentFlags :=
  {| dg_time_unsynced := false; dg_synthetic_record := false; dg_partial_payload := false |}.
Definition from_record_flags (flags : u16) : DocumentFlags :=
  {| dg_time_unsynced := bool_decide (Z.land flags FLAG_TIME_UNSYNCED ≠ 0);
     dg_synthetic_record := bool_decide (Z.land flags FLAG_SYNTHETIC ≠ 0);
     dg_partial_payload := bool_decide (Z.land flags FLAG_PARTIAL_PAYLOAD ≠ 0) |}.

Record Provenance := MkProvenance {
  pv_buffer_id : u32;
  pv_source : DocumentSource;
  pv_run_id : u64;
  pv_epoch : DocumentEpoch;
  pv_source_time_ns : option u64;
  pv_receive_time_ns : u64;
  pv_flags : DocumentFlags;
}.

Record RawSlot := MkRawSlot { rw_key : u16; rw_type_tag : u8; rw_payload_hex : string }.

Record LossDocument := MkLossDocument {
  ld_kind : DocumentKind;
  ld_provenance : Provenance;
  ld_first_seq : u64;
  ld_last_seq : u64;
  ld_count : u64;
  ld_basis : LossBasis;
}.

(** ** The contexts *)
Record RecordDocumentContext := MkRecordDocumentContext {
  rdc_buffer_id : u32;
  rdc_receive_time_ns : u64;
  rdc_definition_hash : bytes;
  rdc_semantic_version : option string;
  rdc_flags : u16;
  rdc_source_time_ns : option u64;
  rdc_source : option DocumentSource;
}.
Definition record_context_new (buffer_id : u32) (receive_time_ns : u64) (definition_hash : bytes) (flags : u16)
  : RecordDocumentContext :=
  {| rdc_buffer_id := buffer_id; rdc_receive_time_ns := receive_time_ns; rdc_definition_hash := definition_hash;
     rdc_semantic_version := None; rdc_flags := flags; rdc_source_time_ns := None; rdc_source := None |}.
Definition with_semantic_version (v : string) (c : RecordDocumentContext) : RecordDocumentContext :=
  {| rdc_buffer_id := rdc_buffer_id c; rdc_receive_time_ns := rdc_receive_time_ns c; rdc_definition_hash := rdc_definition_hash c;
     rdc_semantic_version := Some v; rdc_flags := rdc_flags c; rdc_source_time_ns := rdc_source_time_ns c; rdc_source := rdc_source c |}.
Definition with_source_time (source_time_ns : u64) (c : RecordDocumentContext) : RecordDocumentContext :=
  {| rdc_buffer_id := rdc_buffer_id c; rdc_receive_time_ns := rdc_receive_time_ns c; rdc_definition_hash := rdc_definition_hash c;
     rdc_semantic_version := rdc_semantic_version c; rdc_flags := rdc_flags c; rdc_source_time_ns := Some source_time_ns;
     rdc_source := rdc_source c |}.
Definition with_source (source : DocumentSource) (c : RecordDocumentContext) : RecordDocumentContext :=
  {| rdc_buffer_id := rdc_buffer_id c; rdc_receive_time_ns := rdc_receive_time_ns c; rdc_definition_hash := rdc_definition_hash c;
     rdc_semantic_version := rdc_semantic_version c; rdc_flags := rdc_flags c; rdc_source_time_ns := rdc_source_time_ns c;
     rdc_source := Some source |}.

Record LossDocumentContext := MkLossDocumentContext {
  ldc_receive_time_ns : u64;
  ldc_epoch_id : u64;
  ldc_epoch : EpochRelation;
  ldc_definition_hash : bytes;
  ldc_semantic_version : option string;
  ldc_source : option DocumentSource;
}.
Definition loss_context_new (receive_time_ns epoch_id : u64) (epoch : EpochRelation) (definition_hash : bytes)
  : LossDocumentContext :=
  {| ldc_receive_time_ns := receive_time_ns; ldc_epoch_id := epoch_id; ldc_epoch := epoch; ldc_definition_hash := definition_hash;
     ldc_semantic_version := None; ldc_source := None |}.
Definition loss_with_semantic_version (v : string) (c : LossDocumentContext) : LossDocumentContext :=
  {| ldc_receive_time_ns := ldc_receive_time_ns c; ldc_epoch_id := ldc_epoch_id c; ldc_epoch := ldc_epoch c;
     ldc_definition_hash := ldc_definition_hash c; ldc_semantic_version := Some v; ldc_source := ldc_source c |}.
Definition loss_with_source (source : DocumentSource) (c : LossDocumentContext) : LossDocumentContext :=
  {| ldc_receive_time_ns := ldc_receive_time_ns c; ldc_epoch_id := ldc_epoch_id c; ldc_epoch := ldc_epoch c;
     ldc_definition_hash := ldc_definition_hash c; ldc_semantic_version := ldc_semantic_version c; ldc_source := Some source |}.

(** ** Hexadecimal *)
Definition HEX : string := "0123456789abcdef".
(** An index past the table would panic; half a byte is never past it. *)
Definition hex_char (i : Z) : string := String.substring (Z.to_nat i) 1 HEX.
Fixpoint hex_lower (bs : bytes) : string :=
  match bs with
  | [] => ""
  | byte :: bs => hex_char (Z.shiftr byte 4) +:+ hex_char (Z.land byte 0x0F) +:+ hex_lower bs
  end.

Section documents.
Context {JL : JsonLibrary}.

Record DocumentField := MkDocumentField {
  dcf_key : u16;
  dcf_name : string;
  dcf_type_name : string;
  dcf_value : Json;
  dcf_unit : option string;
  dcf_enum_label : option string;
}.

Record ExtensionField := MkExtensionField {
  xf_key : u16;
  xf_type_tag : u8;
  xf_type_name : option string;
  xf_name : option string;
  xf_value : option Json;
  xf_payload_hex : string;
}.

Record EventDocument := MkEventDocument {
  ev_kind : DocumentKind;
  ev_provenance : Provenance;
  ev_event_name : string;
  ev_event_type_id : u32;
  ev_seq : u64;
  ev_fields : list DocumentField;
  ev_extension_fields : list ExtensionField;
}.

Record PlaceholderReasonDocument := MkPlaceholderReasonDocument {
  pr_kind : PlaceholderReasonKind;
  pr_detail : option Json;
}.

Record PlaceholderDocument := MkPlaceholderDocument {
  pd_kind : DocumentKind;
  pd_provenance : Provenance;
  pd_event_type_id : u32;
  pd_seq : u64;
  pd_reason : PlaceholderReasonDocument;
  pd_raw_slots : list RawSlot;
}.

Inductive Document :=
| DocEvent (d : EventDocument)
| DocLoss (d : LossDocument)
| DocPlaceholder (d : PlaceholderDocument).

(** ** Values and reasons *)
Definition value_document (value : ResolvedValue) : Json :=
  match value with
  | RBool b => json_bool b
  | RSInt v | RUSInt v | RUInt v | RInt v | RUDInt v | RDInt v | RULInt v | RLInt v => json_number v
  | RReal bits => json_f32 bits
  | RLReal bits => json_f64 bits
  | RDateTime v => json_number v
  | RString s => json_string s
  | RBytes bs => json_object [("payloadHex"%string, json_string (hex_lower bs))]
  end.

Definition epoch_relation (epoch : ResolvedEpoch) : EpochRelation :=
  match epoch with Current => RelCurrent | Prior => RelPrior end.
(** [rename_all = "camelCase"]. *)
Definition relation_value (r : EpochRelation) : Json :=
  json_string (match r with RelCurrent => "current" | RelPrior => "prior" end).

Definition json_usize (n : usize) : Json := json_number (Z.of_nat n).
(** An object with one entry that is an object. *)
Definition tagged (tag : string) (fields : list (string * Json)) : Json := json_object [(tag, json_object fields)].

#[local] Open Scope string_scope.
Definition wire_error_document (reason : WireError) : Json :=
  match reason with
  | CrcMismatch expected actual =>
      tagged "crcMismatch" [("expected", json_number expected); ("actual", json_number actual)]
  | InvalidLength total_len available =>
      tagged "invalidLength" [("totalLength", json_usize total_len); ("available", json_usize available)]
  | InvalidPadding offset => tagged "invalidPadding" [("offset", json_usize offset)]
  | InvalidSlot offset => tagged "invalidSlot" [("offset", json_usize offset)]
  | RecordTooLong len => tagged "recordTooLong" [("len", json_usize len)]
  | SlotTooLong key len => tagged "slotTooLong" [("key", json_number key); ("len", json_usize len)]
  | Truncated needed available => tagged "truncated" [("needed", json_usize needed); ("available", json_usize available)]
  | WrongSync => tagged "wrongSync" []
  end.

Definition definition_schema_violation_document (reason : DefinitionSchemaViolation) : Json :=
  match reason with
  | DuplicateEventId id => tagged "duplicateEventId" [("eventTypeId", json_number id)]
  | DuplicateSlotKey event_id key =>
      tagged "duplicateSlotKey" [("eventTypeId", json_number event_id); ("key", json_number key)]
  | OrderClassNotAscending event_id previous current =>
      tagged "orderClassNotAscending"
        [("eventTypeId", json_number event_id); ("previous", json_number previous); ("current", json_number current)]
  | CoreTypeMismatch event_id key actual expected =>
      tagged "coreTypeMismatch"
        [("eventTypeId", json_number event_id); ("key", json_number key); ("actual", json_number actual);
         ("expected", json_number expected)]
  | DefUnknownTlvType event_id key ty =>
      tagged "unknownTlvType" [("eventTypeId", json_number event_id); ("key", json_number key); ("type", json_number ty)]
  | DefReservedCoreKey event_id key =>
      tagged "reservedCoreKey" [("eventTypeId", json_number event_id); ("key", json_number key)]
  | InvalidMaxOccurs event_id key =>
      tagged "invalidMaxOccurs" [("eventTypeId", json_number event_id); ("key", json_number key)]
  | UnknownProceduralModel state_machine_id model =>
      tagged "unknownProceduralModel" [("stateMachineId", json_number state_machine_id); ("model", json_string model)]
  | MissingEnumSet state_machine_id enum_set =>
      tagged "missingEnumSet" [("stateMachineId", json_number state_machine_id); ("enumSet", json_string enum_set)]
  | ProceduralStateMismatch state_machine_id model value label =>
      tagged "proceduralStateMismatch"
        [("stateMachineId", json_number state_machine_id); ("model", json_string model); ("value", json_number value);
         ("label", json_string label)]
  end.

Definition schema_violation_document (reason : SchemaViolation) : Json :=
  match reason with
  | BadDefinition reason => json_object [("definition", definition_schema_violation_document reason)]
  | UnknownEventId id => tagged "unknownEventId" [("eventTypeId", json_number id)]
  | RecordTooLarge actual max => tagged "recordTooLarge" [("actual", json_usize actual); ("max", json_usize max)]
  | TooManySlots actual max => tagged "tooManySlots" [("actual", json_usize actual); ("max", json_usize max)]
  | UnexpectedCoreKey key => tagged "unexpectedCoreKey" [("key", json_number key)]
  | VendorExtensionNotTrailing key => tagged "vendorExtensionNotTrailing" [("key", json_number key)]
  | VendorExtensionOutOfOrder previous key =>
      tagged "vendorExtensionOutOfOrder" [("previous", json_number previous); ("key", json_number key)]
  | TypeMismatch key actual expected =>
      tagged "typeMismatch" [("key", json_number key); ("actual", json_number actual); ("expected", json_number expected)]
  | UnknownTlvType key ty => tagged "unknownTlvType" [("key", json_number key); ("type", json_number ty)]
  | ReservedCoreKey key => tagged "reservedCoreKey" [("key", json_number key)]
  | FixedWidthMismatch key ty actual expected =>
      tagged "fixedWidthMismatch"
        [("key", json_number key); ("type", json_number ty); ("actual", json_usize actual); ("expected", json_usize expected)]
  | MissingRequired key min actual =>
      tagged "missingRequired" [("key", json_number key); ("min", json_number min); ("actual", json_usize actual)]
  | TooManyOccurrences key max actual =>
      tagged "tooManyOccurrences" [("key", json_number key); ("max", json_number max); ("actual", json_usize actual)]
  | RepeatedSlotNotContiguous key => tagged "repeatedSlotNotContiguous" [("key", json_number key)]
  | OrderClassViolation previous current key =>
      tagged "orderClassViolation" [("previous", json_number previous); ("current", json_number current); ("key", json_number key)]
  | EncodeFailed reason => json_object [("encode", wire_error_document reason)]
  end.

Definition reason_document (reason : ResolvePlaceholderReason) : PlaceholderReasonDocument :=
  match reason with
  | MissingCurrentDefinition => {| pr_kind := KMissingCurrentDefinition; pr_detail := None |}
  | StalePriorEpoch => {| pr_kind := KStalePriorEpoch; pr_detail := None |}
  | Drift epoch expected actual =>
      {| pr_kind := KDrift;
         pr_detail := Some (json_object [("epoch", relation_value (epoch_relation epoch));
                                         ("expected", json_string (hex_lower expected));
                                         ("actual", json_string (hex_lower actual))]) |}
  | FullHashDrift expected actual =>
      {| pr_kind := KFullHashDrift;
         pr_detail := Some (json_object [("expected", json_string expected); ("actual", json_string actual)]) |}
  | ReasonUnknownEventId event_type_id =>
      {| pr_kind := KUnknownEventId; pr_detail := Some (json_object [("eventTypeId", json_number event_type_id)]) |}
  | Schema reason => {| pr_kind := KSchemaViolation; pr_detail := Some (schema_violation_document reason) |}
  | InvalidUtf8 key =>
      {| pr_kind := KInvalidPayload;
         pr_detail := Some (json_object [("key", json_number key); ("reason", json_string "invalidUtf8")]) |}
  | ReasonUnknownTlvType key ty =>
      {| pr_kind := KInvalidPayload;
         pr_detail := Some (json_object [("key", json_number key); ("type", json_number ty);
                                         ("reason", json_string "unknownTlvType")]) |}
  | Hash error => {| pr_kind := KHashError; pr_detail := Some (json_object [("message", json_string error)]) |}
  end.

(** ** Documents of resolutions and losses *)
Definition source_document (id : u32) (source : ResolvedSource) : DocumentSource :=
  {| so_id := id; so_name := Some (rc_name source); so_path := rc_path source; so_hierarchy := rc_hierarchy source;
     so_dynamic := Some (rc_dynamic source) |}.

Definition provenance_for_record (context : RecordDocumentContext) (source_id : u32) (run_id epoch_id : u64)
    (epoch : ResolvedEpoch) (source_time_ns : option u64) (resolved_source : option ResolvedSource) : Provenance :=
  {| pv_buffer_id := rdc_buffer_id context;
     pv_source := match resolved_source with
                  | Some source => source_document source_id source
                  | None => default (unresolved source_id) (rdc_source context)
                  end;
     pv_run_id := run_id;
     pv_epoch := {| de_id := epoch_id; de_relation := epoch_relation epoch;
                    de_definition_hash := hex_lower (rdc_definition_hash context);
                    de_semantic_version := rdc_semantic_version context |};
     pv_source_time_ns := source_time_ns;
     pv_receive_time_ns := rdc_receive_time_ns context;
     pv_flags := from_record_flags (rdc_flags context) |}.

Definition field_document (field : ResolvedField) : DocumentField :=
  {| dcf_key := rf_key field; dcf_name := rf_name field; dcf_type_name := rf_type_name field;
     dcf_value := value_document (rf_value field); dcf_unit := rf_unit field; dcf_enum_label := rf_enum_label field |}.

Definition extension_field_document (field : ResolvedExtensionField) : ExtensionField :=
  {| xf_key := rx_key field; xf_type_tag := rx_type_tag field; xf_type_name := rx_type_name field; xf_name := None;
     xf_value := value_document <$> rx_value field; xf_payload_hex := hex_lower (rx_payload field) |}.

Definition raw_slot_document (slot : Slot) : RawSlot :=
  {| rw_key := slot_key slot; rw_type_tag := slot_ty slot; rw_payload_hex := hex_lower (slot_payload slot) |}.

Definition event_document_from_record (record : ResolvedRecord) (context : RecordDocumentContext) : EventDocument :=
  {| ev_kind := KindEvent;
     ev_provenance := provenance_for_record context (rd_source_id record) (rd_run_id record) (rd_epoch_id record)
                        (rd_epoch record) (Some (rd_source_time record)) (rd_source record);
     ev_event_name := rd_event_name record; ev_event_type_id := rd_event_type_id record; ev_seq := rd_seq record;
     ev_fields := field_document <$> rd_fields record;
     ev_extension_fields := extension_field_document <$> rd_extension_fields record |}.

Definition placeholder_document_from_record (placeholder : ResolvedPlaceholder) (context : RecordDocumentContext)
  : PlaceholderDocument :=
  {| pd_kind := KindPlaceholder;
     pd_provenance := provenance_for_record context (rp_source_id placeholder) (rp_run_id placeholder)
                        (rp_epoch_id placeholder) (rp_epoch placeholder) (rdc_source_time_ns context) None;
     pd_event_type_id := rp_event_type_id placeholder; pd_seq := rp_seq placeholder;
     pd_reason := reason_document (rp_reason placeholder); pd_raw_slots := raw_slot_document <$> rp_slots placeholder |}.

Definition document_from_resolution (resolution : Resolution) (context : RecordDocumentContext) : Document :=
  match resolution with
  | Resolved record => DocEvent (event_document_from_record record context)
  | ResolutionPlaceholder placeholder => DocPlaceholder (placeholder_document_from_record placeholder context)
  end.

Definition document_from_loss (event : LossEvent) (context : LossDocumentContext) : Document :=
  DocLoss
    {| ld_kind := KindLoss;
       ld_provenance :=
         {| pv_buffer_id := le_buffer_id event;
            pv_source := default (unresolved (le_source_id event)) (ldc_source context);
            pv_run_id := le_run_id event;
            pv_epoch := {| de_id := ldc_epoch_id context; de_relation := ldc_epoch context;
                           de_definition_hash := hex_lower (ldc_definition_hash context);
                           de_semantic_version := ldc_semantic_version context |};
            pv_source_time_ns := None; pv_receive_time_ns := ldc_receive_time_ns context; pv_flags := default_flags |};
       ld_first_seq := le_first_seq event; ld_last_seq := le_last_seq event; ld_count := le_count event;
       ld_basis := if le_synthetic event then Inferred else Authoritative |}.
End documents.

(** ** What is known of serde_json *)

(** The variants of [Value] in use. *)
Inductive JsonKind := IsNull | IsBool | IsNumber | IsString | IsObject.

(** The exponent of an infinity or a NaN is all ones. *)
Definition finite32 (bits : u32) : Prop := Z.land (Z.shiftr bits 23) 0xFF ≠ 0xFF.
Definition finite64 (bits : u64) : Prop := Z.land (Z.shiftr bits 52) 0x7FF ≠ 0x7FF.

Fixpoint entry {V} (key : string) (entries : list (string * V)) : option V :=
  match entries with
  | [] => None
  | (k, v) :: entries => if decide (key = k) then Some v else entry key entries
  end.

(** Conversions keep what they are given, [Value::get] finds the entries of an
    object, and a float that is not finite becomes null. *)
Class JsonLaws {JL : JsonLibrary} := {
  json_kind : Json → JsonKind;
  json_get : string → Json → option Json;
  kind_null : json_kind json_null = IsNull;
  kind_bool b : json_kind (json_bool b) = IsBool;
  kind_number n : json_kind (json_number n) = IsNumber;
  kind_string s : json_kind (json_string s) = IsString;
  kind_object l : json_kind (json_object l) = IsObject;
  json_bool_inj b1 b2 : json_bool b1 = json_bool b2 → b1 = b2;
  json_number_inj n1 n2 : json_number n1 = json_number n2 → n1 = n2;
  json_string_inj s1 s2 : json_string s1 = json_string s2 → s1 = s2;
  get_object k l : NoDup l.*1 → json_get k (json_object l) = entry k l;
  f32_not_finite bits : ¬ finite32 bits → json_f32 bits = json_null;
  f64_not_finite bits : ¬ finite64 bits → json_f64 bits = json_null;
  f32_finite bits : finite32 bits → json_kind (json_f32 bits) = IsNumber;
  f64_finite bits : finite64 bits → json_kind (json_f64 bits) = IsNumber;
  f32_finite_inj b1 b2 : finite32 b1 → finite32 b2 → json_f32 b1 = json_f32 b2 → b1 = b2;
  f64_finite_inj b1 b2 : finite64 b1 → finite64 b2 → json_f64 b1 = json_f64 b2 → b1 = b2;
}.

(** ** Hexadecimal is faithful *)
Lemma hex_chars n : 0 ≤ n < 16 → hex_char n = String (hex_digit n) "".
Proof.
  intros Hn. assert (Hall : Forall (λ n, hex_char n = String (hex_digit n) "") (seqZ 0 16)) by by_compute.
  rewrite Forall_forall in Hall. apply Hall. apply elem_of_seqZ. lia.
Qed.
Lemma hex_lower_eq bs : bytes_ok bs → hex_lower bs = lower_hex bs.
Proof.
  induction 1 as [|b bs Hb _ IH]; [done|]. cbn [hex_lower lower_hex]. unfold fits in Hb.
  rewrite Z.shiftr_div_pow2 by lia. change (Z.land b 15) with (Z.land b (Z.ones 4)). rewrite Z.land_ones by lia. change (2 ^ 4) with 16.
  rewrite !hex_chars, IH by (split; [apply Z.div_pos || apply Z.mod_pos_bound|apply Z.div_lt_upper_bound || apply Z.mod_pos_bound]; lia).
  done.
Qed.
Lemma unhex_hex_lower bs : bytes_ok bs → unhex (hex_lower bs) = bs.
Proof. intros Hb. rewrite hex_lower_eq by done. by apply unhex_lower_hex. Qed.
Lemma hex_lower_inj bs1 bs2 : bytes_ok bs1 → bytes_ok bs2 → hex_lower bs1 = hex_lower bs2 → bs1 = bs2.
Proof. intros H1 H2 Heq. by rewrite <-(unhex_hex_lower bs1), <-(unhex_hex_lower bs2), Heq. Qed.

(** ** A later pass over placeholders *)
Section replay.
Context {JL : JsonLibrary} `{HashLibraries}.

Definition raw_slot (w : RawSlot) : Slot :=
  {| slot_key := rw_key w; slot_ty := rw_type_tag w; slot_payload := unhex (rw_payload_hex w) |}.
Definition raw_flags (d : DocumentFlags) (crc : bool) : u16 :=
  Z.lor (if dg_time_unsynced d then FLAG_TIME_UNSYNCED else 0)
    (Z.lor (if dg_synthetic_record d then FLAG_SYNTHETIC else 0)
      (Z.lor (if dg_partial_payload d then FLAG_PARTIAL_PAYLOAD else 0) (if crc then FLAG_HAS_CRC else 0))).

(** The record a placeholder document stands for; [crc] says whether it had a
    checksum, which documents do not tell. *)
Definition replay (crc : bool) (d : PlaceholderDocument) : WireRecord :=
  {| rec_flags := raw_flags (pv_flags (pd_provenance d)) crc;
     rec_source_time := default 0 (pv_source_time_ns (pd_provenance d));
     rec_run_id := pv_run_id (pd_provenance d); rec_seq := pd_seq d; rec_source_id := so_id (pv_source (pd_provenance d));
     rec_event_type_id := pd_event_type_id d; rec_slots := raw_slot <$> pd_raw_slots d |}.

Lemma raw_slots_back slots : Forall (λ s, bytes_ok (slot_payload s)) slots → raw_slot <$> (raw_slot_document <$> slots) = slots.
Proof.
  induction 1 as [|s slots Hs _ IH]; [done|]. rewrite !fmap_cons, IH. f_equal. destruct s as [k ty pl].
  unfold raw_slot, raw_slot_document. cbn. cbn in Hs. by rewrite unhex_hex_lower.
Qed.

Lemma raw_flags_crc d crc : has_crc (raw_flags d crc) = crc.
Proof. destruct d as [[] [] []], crc; exact eq_refl. Qed.

(** Of the flags only the checksum bit matters: it counts for the length. *)
Lemma encoded_len_flags r1 r2 : has_crc (rec_flags r1) = has_crc (rec_flags r2) → rec_slots r1 = rec_slots r2 →
  encoded_record_len r1 = encoded_record_len r2.
Proof.
  intros Hf Hs. unfold encoded_record_len. rewrite Hf, !encode_eq, Hs.
  destruct (long_slot _); [done|]. case_decide; [done|]. rewrite !ok_bind, !length_enc_record. by rewrite Hs.
Qed.

Lemma resolve_flags r1 r2 abs snapshot definitions :
  has_crc (rec_flags r1) = has_crc (rec_flags r2) → rec_source_time r1 = rec_source_time r2 → rec_run_id r1 = rec_run_id r2 →
  rec_seq r1 = rec_seq r2 → rec_source_id r1 = rec_source_id r2 → rec_event_type_id r1 = rec_event_type_id r2 →
  rec_slots r1 = rec_slots r2 →
  resolve_record r1 abs snapshot definitions = resolve_record r2 abs snapshot definitions.
Proof.
  intros Hf H1 H2 H3 H4 H5 H6. pose proof (encoded_len_flags r1 r2 Hf H6) as Hl. destruct r1 as [f1 t1 n1 q1 i1 e1 l1], r2 as [f2 t2 n2 q2 i2 e2 l2].
  cbn in H1, H2, H3, H4, H5, H6. subst. unfold resolve_record. rewrite Hl. exact eq_refl.
Qed.

Lemma resolved_placeholder `{!HashLaws} record abs snapshot definitions p :
  resolve_record record abs snapshot definitions = Ok (ResolutionPlaceholder p) →
  rp_source_id p = rec_source_id record ∧ rp_event_type_id p = rec_event_type_id record ∧ rp_run_id p = rec_run_id record
  ∧ rp_seq p = rec_seq record ∧ rp_slots p = rec_slots record.
Proof.
  intros Hr. pose proof (resolve_spec record abs snapshot definitions) as Hs. rewrite Hr in Hs.
  destruct Hs as (_ & Hp & _). injection Hp as ->. done.
Qed.
End replay.

(** C22: what a placeholder document keeps suffices for a later pass: with the
    flags and time of the record in the context and no other source, the record
    rebuilt from the document, given whether it had a checksum, resolves like
    the original at every position, under every snapshot and definitions. *)
Theorem placeholder_replays {JL : JsonLibrary} `{HashLibraries} `{!HashLaws} record abs snapshot definitions p context :
  Forall (λ s, bytes_ok (slot_payload s)) (rec_slots record) →
  resolve_record record abs snapshot definitions = Ok (ResolutionPlaceholder p) →
  rdc_flags context = rec_flags record → rdc_source_time_ns context = Some (rec_source_time record) → rdc_source context = None →
  ∃ d, document_from_resolution (ResolutionPlaceholder p) context = DocPlaceholder d ∧
    ∀ abs' snapshot' definitions',
      resolve_record (replay (has_crc (rec_flags record)) d) abs' snapshot' definitions'
      = resolve_record record abs' snapshot' definitions'.
Proof.
  intros Hb Hr Hf Ht Hs. eexists. split; [exact eq_refl|]. intros abs' snapshot' definitions'.
  destruct (resolved_placeholder _ _ _ _ _ Hr) as (H1 & H2 & H3 & H4 & H5).
  apply resolve_flags; cbn; rewrite ?raw_flags_crc, ?Ht, ?Hs; cbn; try done. rewrite H5. by apply raw_slots_back.
Qed.

(** ** What documents tell apart *)

Section faithful.
#[local] Open Scope string_scope.
Context {JL : JsonLibrary} {JLaws : JsonLaws}.

Lemma single_inj t1 v1 t2 v2 : json_object [(t1, v1)] = json_object [(t2, v2)] → t1 = t2 ∧ v1 = v2.
Proof.
  intros Heq. pose proof (f_equal (json_get t1) Heq) as H1.
  rewrite !get_object in H1 by (cbn; apply NoDup_singleton). cbn [entry] in H1. rewrite decide_True in H1 by done.
  case_decide; [by injection H1|done].
Qed.

Lemma entry_none {V} k (l : list (string * V)) : k ∉ l.*1 → entry k l = None.
Proof.
  induction l as [|[k' v] l IH]; [done|]. rewrite fmap_cons, not_elem_of_cons. intros [Hk Hl]. cbn [entry].
  rewrite decide_False by done. by apply IH.
Qed.
Lemma entries_eq {V} (l1 : list (string * V)) : ∀ l2,
  l1.*1 = l2.*1 → NoDup l1.*1 → (∀ k, entry k l1 = entry k l2) → l1 = l2.
Proof.
  induction l1 as [|[k v1] l1 IH]; intros [|[k2 v2] l2] Hk Hn He; try done. rewrite !fmap_cons in Hk. cbn in Hk.
  injection Hk as <- Hk. rewrite fmap_cons in Hn. apply NoDup_cons in Hn as [Hin Hn]. cbn in Hin.
  pose proof (He k) as Hv. cbn [entry] in Hv. rewrite !decide_True in Hv by done. injection Hv as <-. f_equal.
  apply IH; [done|done|]. intros k'. destruct (decide (k' = k)) as [->|Hne].
  - by rewrite !entry_none by (by rewrite <-?Hk).
  - pose proof (He k') as H. cbn [entry] in H. by rewrite !decide_False in H by done.
Qed.
(** Objects with the same keys. *)
Lemma object_inj l1 l2 : l1.*1 = l2.*1 → NoDup l1.*1 → json_object l1 = json_object l2 → l1 = l2.
Proof.
  intros Hk Hn Heq. apply entries_eq; [done|done|]. intros k. rewrite <-!get_object by (by rewrite <-?Hk). by rewrite Heq.
Qed.
Lemma tagged_inj t1 l1 t2 l2 : tagged t1 l1 = tagged t2 l2 → t1 = t2 ∧ json_object l1 = json_object l2.
Proof. apply single_inj. Qed.
Lemma usize_inj n1 n2 : json_usize n1 = json_usize n2 → n1 = n2.
Proof. intros H%json_number_inj. lia. Qed.

(** Solves [doc a1 .. = doc b1 .. → a = b] for one kind of document. *)
Ltac entries H := apply object_inj in H; [|exact eq_refl|cbn; by_compute];
  repeat match goal with
  | H : _ :: _ = _ :: _ |- _ => injection H as H; intros
  | H : json_number _ = json_number _ |- _ => apply json_number_inj in H
  | H : json_string _ = json_string _ |- _ => apply json_string_inj in H
  | H : json_usize _ = json_usize _ |- _ => apply usize_inj in H
  end; subst; try done.

Lemma wire_error_document_inj e1 e2 : wire_error_document e1 = wire_error_document e2 → e1 = e2.
Proof.
  intros H. destruct e1, e2; apply tagged_inj in H as [Ht H]; try discriminate Ht; clear Ht; entries H.
Qed.
Lemma definition_violation_document_inj e1 e2 :
  definition_schema_violation_document e1 = definition_schema_violation_document e2 → e1 = e2.
Proof.
  intros H. destruct e1, e2; apply tagged_inj in H as [Ht H]; try discriminate Ht; clear Ht; entries H.
Qed.
Lemma schema_violation_document_inj e1 e2 : schema_violation_document e1 = schema_violation_document e2 → e1 = e2.
Proof.
  intros H. destruct e1, e2; apply single_inj in H as [Ht H]; try discriminate Ht; clear Ht;
    first [by apply definition_violation_document_inj in H as ->|by apply wire_error_document_inj in H as ->|entries H].
Qed.
Lemma relation_value_inj r1 r2 : relation_value r1 = relation_value r2 → r1 = r2.
Proof. destruct r1, r2; intros H%json_string_inj; done. Qed.
Lemma epoch_relation_inj e1 e2 : epoch_relation e1 = epoch_relation e2 → e1 = e2.
Proof. by destruct e1, e2. Qed.

(** Hashes are bytes. *)
Definition reason_ok (r : ResolvePlaceholderReason) : Prop :=
  match r with Drift _ expected actual => bytes_ok expected ∧ bytes_ok actual | _ => True end.

Lemma reason_text_differs {key1 key2 ty : Z} :
  json_object [("key", json_number key1); ("reason", json_string "invalidUtf8")]
  = json_object [("key", json_number key2); ("type", json_number ty); ("reason", json_string "unknownTlvType")] → False.
Proof. intros H. apply (f_equal (json_get "type")) in H. rewrite !get_object in H by (cbn; by_compute). discriminate H. Qed.

Lemma reason_document_inj r1 r2 : reason_ok r1 → reason_ok r2 → reason_document r1 = reason_document r2 → r1 = r2.
Proof.
  intros H1 H2 H. pose proof (f_equal pr_kind H) as Hk. pose proof (f_equal pr_detail H) as Hd. clear H.
  destruct r1, r2; try discriminate Hk; try done; cbn in Hd; apply (inj Some) in Hd; clear Hk.
  all: try (apply schema_violation_document_inj in Hd; by subst).
  all: try solve [entries Hd].
  - destruct H1, H2. entries Hd. apply relation_value_inj, epoch_relation_inj in Hd. f_equal; [done|by apply hex_lower_inj..].
  - exfalso. by apply (reason_text_differs Hd).
  - exfalso. symmetry in Hd. by apply (reason_text_differs Hd).
Qed.
(** *** Values

    The document does not say the wire type of a value; values of one type are
    told apart but for floats that are not finite. *)
Definition wire_type (v : ResolvedValue) : u8 :=
  match v with
  | RBool _ => TY_BOOL | RSInt _ => TY_SINT | RUSInt _ => TY_USINT | RUInt _ => TY_UINT | RInt _ => TY_INT
  | RUDInt _ => TY_UDINT | RDInt _ => TY_DINT | RULInt _ => TY_ULINT | RLInt _ => TY_LINT | RReal _ => TY_REAL
  | RLReal _ => TY_LREAL | RDateTime _ => TY_DATE_TIME | RString _ => TY_STRING | RBytes _ => TY_BYTES
  end.
Definition value_ok (v : ResolvedValue) : Prop := match v with RBytes bs => bytes_ok bs | _ => True end.
Definition not_finite (v : ResolvedValue) : Prop :=
  match v with RReal bits => ¬ finite32 bits | RLReal bits => ¬ finite64 bits | _ => False end.
Definition same_value (v1 v2 : ResolvedValue) : Prop := v1 = v2 ∨ (not_finite v1 ∧ not_finite v2).

Lemma f32_document b1 b2 : json_f32 b1 = json_f32 b2 ↔ same_value (RReal b1) (RReal b2).
Proof.
  unfold same_value, not_finite, finite32. split.
  - intros H. pose proof (f_equal json_kind H) as Hk.
    destruct (decide (finite32 b1)) as [H1|H1], (decide (finite32 b2)) as [H2|H2].
    + left. f_equal. by apply f32_finite_inj.
    + by rewrite f32_finite, f32_not_finite, kind_null in Hk.
    + by rewrite f32_not_finite, f32_finite, kind_null in Hk.
    + by right.
  - intros [[= ->]|[H1 H2]]; [done|]. by rewrite !f32_not_finite.
Qed.
Lemma f64_document b1 b2 : json_f64 b1 = json_f64 b2 ↔ same_value (RLReal b1) (RLReal b2).
Proof.
  unfold same_value, not_finite, finite64. split.
  - intros H. pose proof (f_equal json_kind H) as Hk.
    destruct (decide (finite64 b1)) as [H1|H1], (decide (finite64 b2)) as [H2|H2].
    + left. f_equal. by apply f64_finite_inj.
    + by rewrite f64_finite, f64_not_finite, kind_null in Hk.
    + by rewrite f64_not_finite, f64_finite, kind_null in Hk.
    + by right.
  - intros [[= ->]|[H1 H2]]; [done|]. by rewrite !f64_not_finite.
Qed.

Lemma value_document_iff v1 v2 : wire_type v1 = wire_type v2 → value_ok v1 → value_ok v2 →
  value_document v1 = value_document v2 ↔ same_value v1 v2.
Proof.
  intros Ht Hb1 Hb2. destruct v1, v2; try discriminate Ht; try apply f32_document; try apply f64_document;
    (split; [|by intros [->|[[] _]]]); cbn [value_document]; intros Hv; left; f_equal.
  all: try by apply json_number_inj in Hv. all: try by apply json_bool_inj in Hv. all: try by apply json_string_inj in Hv.
  apply single_inj in Hv as [_ Hv]. apply json_string_inj in Hv. by apply hex_lower_inj.
Qed.

(** *** Records *)
Definition field_ok (f : ResolvedField) : Prop := value_ok (rf_value f).
Definition extension_ok (f : ResolvedExtensionField) : Prop :=
  bytes_ok (rx_payload f) ∧ ∀ v, rx_value f = Some v → value_ok v.
Definition record_ok (r : ResolvedRecord) : Prop := Forall field_ok (rd_fields r) ∧ Forall extension_ok (rd_extension_fields r).

(** The wire types of the values. *)
Definition types_of (r : ResolvedRecord) : list u8 * list (option u8) :=
  (wire_type ∘ rf_value <$> rd_fields r, (λ f, wire_type <$> rx_value f) <$> rd_extension_fields r).

Definition same_field (f g : ResolvedField) : Prop :=
  rf_key f = rf_key g ∧ rf_name f = rf_name g ∧ rf_type_name f = rf_type_name g ∧ same_value (rf_value f) (rf_value g)
  ∧ rf_unit f = rf_unit g ∧ rf_enum_label f = rf_enum_label g.
Definition same_extension (f g : ResolvedExtensionField) : Prop :=
  rx_key f = rx_key g ∧ rx_type_tag f = rx_type_tag g ∧ rx_type_name f = rx_type_name g
  ∧ option_Forall2 same_value (rx_value f) (rx_value g) ∧ rx_payload f = rx_payload g.
Definition same_record (r1 r2 : ResolvedRecord) : Prop :=
  rd_event_name r1 = rd_event_name r2 ∧ rd_source r1 = rd_source r2 ∧ rd_source_id r1 = rd_source_id r2
  ∧ rd_event_type_id r1 = rd_event_type_id r2 ∧ rd_run_id r1 = rd_run_id r2 ∧ rd_epoch_id r1 = rd_epoch_id r2
  ∧ rd_source_time r1 = rd_source_time r2 ∧ rd_seq r1 = rd_seq r2 ∧ rd_epoch r1 = rd_epoch r2
  ∧ Forall2 same_field (rd_fields r1) (rd_fields r2)
  ∧ Forall2 same_extension (rd_extension_fields r1) (rd_extension_fields r2).

Lemma fmap_eq_Forall2 {A B} (f : A → B) l1 l2 : f <$> l1 = f <$> l2 ↔ Forall2 (λ x y, f x = f y) l1 l2.
Proof.
  split.
  - revert l2. induction l1 as [|x l1 IH]; intros [|y l2] H; try done. rewrite !fmap_cons in H.
    injection H as Hx H. constructor; [done|by apply IH].
  - induction 1 as [|x y l1 l2 Hx _ IH]; [done|]. by rewrite !fmap_cons, Hx, IH.
Qed.
(** Lists whose documents agree, element by element. *)
Lemma documents_iff {A B T} (doc : A → B) (ty : A → T) (ok : A → Prop) (same : A → A → Prop) l1 l2 :
  (∀ x y, ty x = ty y → ok x → ok y → doc x = doc y ↔ same x y) →
  ty <$> l1 = ty <$> l2 → Forall ok l1 → Forall ok l2 → doc <$> l1 = doc <$> l2 ↔ Forall2 same l1 l2.
Proof.
  intros Hd Ht H1 H2. rewrite fmap_eq_Forall2. apply fmap_eq_Forall2 in Ht.
  induction Ht as [|x y l1 l2 Hxy _ IH]; [by rewrite !Forall2_nil|].
  apply Forall_cons_1 in H1 as [Hx H1]. apply Forall_cons_1 in H2 as [Hy H2]. by rewrite !Forall2_cons, IH, Hd.
Qed.

Lemma field_document_iff f g : wire_type (rf_value f) = wire_type (rf_value g) → field_ok f → field_ok g →
  field_document f = field_document g ↔ same_field f g.
Proof.
  intros Ht Hf Hg. unfold same_field. rewrite <-(value_document_iff _ _ Ht Hf Hg). destruct f, g. unfold field_document. cbn.
  split; [by intros [=]|]. by intros (-> & -> & -> & -> & -> & ->).
Qed.
Lemma extension_document_iff f g : wire_type <$> rx_value f = wire_type <$> rx_value g → extension_ok f → extension_ok g →
  extension_field_document f = extension_field_document g ↔ same_extension f g.
Proof.
  intros Ht [Hf1 Hf2] [Hg1 Hg2]. destruct f as [k1 t1 n1 v1 p1], g as [k2 t2 n2 v2 p2].
  unfold same_extension, extension_field_document. cbn in *.
  assert (Hv : value_document <$> v1 = value_document <$> v2 ↔ option_Forall2 same_value v1 v2).
  { destruct v1 as [v1|], v2 as [v2|]; try discriminate Ht; [|by split; [constructor|]]. injection Ht as Ht.
    pose proof (value_document_iff v1 v2 Ht (Hf2 v1 eq_refl) (Hg2 v2 eq_refl)) as Hv. split.
    - intros [= H]. constructor. by apply Hv.
    - intros H. inversion H. cbn. f_equal. by apply Hv. }
  rewrite <-Hv. split.
  - intros [= -> -> -> Heq Hp]. split_and!; try done. by apply hex_lower_inj.
  - by intros (-> & -> & -> & -> & ->).
Qed.

(** *** Resolutions *)
Definition placeholder_ok (p : ResolvedPlaceholder) : Prop :=
  reason_ok (rp_reason p) ∧ Forall (λ s, bytes_ok (slot_payload s)) (rp_slots p).
Definition resolution_ok (r : Resolution) : Prop :=
  match r with Resolved r => record_ok r | ResolutionPlaceholder p => placeholder_ok p end.
Definition same_types (r1 r2 : Resolution) : Prop :=
  match r1, r2 with Resolved r1, Resolved r2 => types_of r1 = types_of r2 | _, _ => True end.
Definition same_resolution (r1 r2 : Resolution) : Prop :=
  match r1, r2 with
  | Resolved r1, Resolved r2 => same_record r1 r2
  | ResolutionPlaceholder p1, ResolutionPlaceholder p2 => p1 = p2
  | _, _ => False
  end.

Lemma provenance_iff context i1 n1 e1 r1 t1 s1 i2 n2 e2 r2 t2 s2 : rdc_source context = None →
  provenance_for_record context i1 n1 e1 r1 t1 s1 = provenance_for_record context i2 n2 e2 r2 t2 s2
  ↔ i1 = i2 ∧ n1 = n2 ∧ e1 = e2 ∧ r1 = r2 ∧ t1 = t2 ∧ s1 = s2.
Proof.
  intros Hc. split; [|by intros (-> & -> & -> & -> & -> & ->)]. unfold provenance_for_record. rewrite Hc. cbn [default].
  intros Heq. pose proof (f_equal pv_source Heq) as Hs. pose proof (f_equal pv_epoch Heq) as He.
  pose proof (f_equal pv_run_id Heq) as Hr. pose proof (f_equal pv_source_time_ns Heq) as Ht. cbn in Hs, He, Hr, Ht. clear Heq.
  pose proof (f_equal de_id He) as He1. pose proof (f_equal de_relation He) as He2. cbn in He1, He2.
  apply epoch_relation_inj in He2. destruct s1 as [[]|], s2 as [[]|]; try discriminate Hs;
    unfold source_document, unresolved in Hs; cbn in Hs; injection Hs; intros; subst; done.
Qed.

Lemma placeholder_document_iff context p1 p2 : rdc_source context = None → placeholder_ok p1 → placeholder_ok p2 →
  placeholder_document_from_record p1 context = placeholder_document_from_record p2 context ↔ p1 = p2.
Proof.
  intros Hc [Hr1 Hs1] [Hr2 Hs2]. split; [|by intros ->]. intros Heq.
  pose proof (f_equal pd_provenance Heq) as H1. pose proof (f_equal pd_event_type_id Heq) as H2. pose proof (f_equal pd_seq Heq) as H3.
  pose proof (f_equal pd_reason Heq) as H4. pose proof (f_equal pd_raw_slots Heq) as H5. cbn in H1, H2, H3, H4, H5. clear Heq.
  apply provenance_iff in H1 as (? & ? & ? & ? & _ & _); [|done]. apply reason_document_inj in H4; [|done..].
  apply (f_equal (fmap raw_slot)) in H5. rewrite !raw_slots_back in H5 by done. destruct p1, p2. cbn in *. by subst.
Qed.

Lemma event_document_iff context r1 r2 : rdc_source context = None → types_of r1 = types_of r2 → record_ok r1 → record_ok r2 →
  event_document_from_record r1 context = event_document_from_record r2 context ↔ same_record r1 r2.
Proof.
  intros Hc Ht [Hf1 Hx1] [Hf2 Hx2]. unfold types_of in Ht. apply pair_eq in Ht as [Ht1 Ht2]. unfold same_record.
  rewrite <-(documents_iff field_document (wire_type ∘ rf_value) field_ok same_field) by (done || apply field_document_iff).
  rewrite <-(documents_iff extension_field_document (λ f, wire_type <$> rx_value f) extension_ok same_extension)
    by (done || apply extension_document_iff).
  split.
  - intros Heq. pose proof (f_equal ev_provenance Heq) as H1. apply provenance_iff in H1 as (? & ? & ? & ? & [= ?] & ?); [|done].
    split_and!; try done; [exact (f_equal ev_event_name Heq)|exact (f_equal ev_event_type_id Heq)|exact (f_equal ev_seq Heq)
      |exact (f_equal ev_fields Heq)|exact (f_equal ev_extension_fields Heq)].
  - intros (E1 & E2 & E3 & E4 & E5 & E6 & E7 & E8 & E9 & E10 & E11). unfold event_document_from_record.
    by rewrite E1, E2, E3, E4, E5, E6, E7, E8, E9, E10, E11.
Qed.

Lemma resolution_document_iff context r1 r2 :
  rdc_source context = None → same_types r1 r2 → resolution_ok r1 → resolution_ok r2 →
  document_from_resolution r1 context = document_from_resolution r2 context ↔ same_resolution r1 r2.
Proof.
  intros Hc Ht H1 H2. destruct r1 as [r1|p1], r2 as [r2|p2]; cbn in *; try (by split).
  - rewrite <-(event_document_iff context r1 r2) by done. split; [|by intros ->]. intros H.
    exact (f_equal (λ d, match d with DocEvent d => d | _ => event_document_from_record r1 context end) H).
  - rewrite <-(placeholder_document_iff context p1 p2) by done. split; [|by intros ->]. intros H.
    exact (f_equal (λ d, match d with DocPlaceholder d => d | _ => placeholder_document_from_record p1 context end) H).
Qed.

Lemma loss_document_iff context e1 e2 : ldc_source context = None →
  document_from_loss e1 context = document_from_loss e2 context ↔ e1 = e2.
Proof.
  intros Hc. split; [|by intros ->]. unfold document_from_loss. rewrite Hc. cbn [default unresolved]. intros [= H1 H2 H3 H4 H5 H6 H7].
  destruct e1 as [? ? ? ? ? ? s1], e2 as [? ? ? ? ? ? s2]. cbn in *. subst. f_equal. by destruct s1, s2.
Qed.
End faithful.

(** C23: documents keep everything but the payload of floats that are not
    finite: under one context that names no source of its own, two resolutions
    (with values of the same wire types) have the same document exactly when
    they are the same, up to which infinity or NaN a value is; placeholders and
    loss intervals have the same document exactly when they are equal. *)
Theorem documents_faithful {JL : JsonLibrary} {JLaws : JsonLaws} context loss_context :
  rdc_source context = None → ldc_source loss_context = None →
  (∀ r1 r2, same_types r1 r2 → resolution_ok r1 → resolution_ok r2 →
     document_from_resolution r1 context = document_from_resolution r2 context ↔ same_resolution r1 r2)
  ∧ (∀ e1 e2, document_from_loss e1 loss_context = document_from_loss e2 loss_context ↔ e1 = e2).
Proof. intros H1 H2. split; intros; [by apply resolution_document_iff|by apply loss_document_iff]. Qed.

(** ** Concrete documents *)
#[local] Existing Instance constant_libraries.
#[local] Existing Instance constant_laws.

(** JSON values as a tree. *)
Inductive JsonTree :=
| TNull
| TBool (b : bool)
| TNumber (n : Z)
| TF32 (bits : u32)
| TF64 (bits : u64)
| TString (s : string)
| TObject (entries : list (string * JsonTree)).

#[local] Instance tree_library : JsonLibrary := {|
  Json := JsonTree; json_null := TNull; json_bool := TBool; json_number := TNumber;
  json_f32 bits := if decide (Z.land (Z.shiftr bits 23) 0xFF ≠ 0xFF) then TF32 bits else TNull;
  json_f64 bits := if decide (Z.land (Z.shiftr bits 52) 0x7FF ≠ 0x7FF) then TF64 bits else TNull;
  json_string := TString; json_object := TObject |}.

Definition tree_kind (v : JsonTree) : JsonKind :=
  match v with
  | TNull => IsNull | TBool _ => IsBool | TNumber _ | TF32 _ | TF64 _ => IsNumber | TString _ => IsString | TObject _ => IsObject
  end.
Definition tree_get (k : string) (v : JsonTree) : option JsonTree :=
  match v with TObject entries => entry k entries | _ => None end.

#[local] Instance tree_laws : JsonLaws.
Proof.
  refine {| json_kind := (tree_kind : Json → _); json_get := (tree_get : _ → Json → _) |}; cbn; try done; try by intros ? ? [=].
  - intros bits Hf. by rewrite decide_False.
  - intros bits Hf. by rewrite decide_False.
  - intros bits Hf. by rewrite decide_True.
  - intros bits Hf. by rewrite decide_True.
  - intros b1 b2 H1 H2. rewrite !decide_True by done. by intros [=].
  - intros b1 b2 H1 H2. rewrite !decide_True by done. by intros [=].
Defined.

Definition hash8 : bytes := replicate 8 171.

(** A state transition without its required slots. *)
Definition bare_record : WireRecord :=
  {| rec_flags := 1; rec_source_time := 1000; rec_run_id := 1; rec_seq := 2; rec_source_id := 66;
     rec_event_type_id := EVENT_STATE_TRANSITION;
     rec_slots := [{| slot_key := KEY_CATEGORY; slot_ty := TY_UINT; slot_payload := [2; 0] |}] |}.
Definition bare_context : RecordDocumentContext :=
  with_source_time 1000 (with_semantic_version "1.0.0" (record_context_new 9 50001 hash8 1)).
Definition bare_placeholder : ResolvedPlaceholder :=
  {| rp_source_id := 66; rp_event_type_id := 1; rp_run_id := 1; rp_epoch_id := 7; rp_seq := 2; rp_epoch := Current;
     rp_slots := rec_slots bare_record; rp_reason := Schema (MissingRequired KEY_STATE_MACHINE_ID 1 0) |}.

Example bare_record_rejected :
  resolve_record bare_record 100 sample_snapshot (ds_of_current sample) = Ok (ResolutionPlaceholder bare_placeholder).
Proof. vm_compute. reflexivity. Qed.

Lemma placeholder_replays_witness :
  ∃ d, document_from_resolution (ResolutionPlaceholder bare_placeholder) bare_context = DocPlaceholder d ∧
    ∀ abs' snapshot' definitions',
      resolve_record (replay (has_crc 1) d) abs' snapshot' definitions' = resolve_record bare_record abs' snapshot' definitions'.
Proof.
  apply (placeholder_replays bare_record 100 sample_snapshot (ds_of_current sample) bare_placeholder bare_context);
    [by_compute|exact bare_record_rejected|exact eq_refl..].
Defined.

Lemma documents_faithful_witness :
  (document_from_resolution (ResolutionPlaceholder bare_placeholder) bare_context
   = document_from_resolution (Resolved transition_resolved) bare_context ↔ False)
  ∧ (∀ e1 e2, document_from_loss e1 (loss_context_new 5 7 RelPrior hash8) = document_from_loss e2 (loss_context_new 5 7 RelPrior hash8)
              ↔ e1 = e2).
Proof.
  destruct (documents_faithful bare_context (loss_context_new 5 7 RelPrior hash8) eq_refl eq_refl) as [H1 H2]. split; [|exact H2].
  apply (H1 (ResolutionPlaceholder bare_placeholder) (Resolved transition_resolved)); [exact I|by_compute|].
  split; repeat (apply Forall_cons; split); try apply Forall_nil_2; try exact I.
  split; [by_compute|by intros ? [= <-]].
Defined.

(** The document of a resolved record. *)
Example transition_document :
  document_from_resolution (Resolved transition_resolved) (with_semantic_version "1.0.0" (record_context_new 9 50000 hash8 0))
  = DocEvent {|
      ev_kind := KindEvent;
      ev_provenance :=
        {| pv_buffer_id := 9;
           pv_source := {| so_id := 66; so_name := Some "UnitA.Phase1"; so_path := ["Area1"; "UnitA"; "Phase1"];
                           so_hierarchy := ["area"; "unit"; "phase"]; so_dynamic := Some false |};
           pv_run_id := 1;
           pv_epoch := {| de_id := 7; de_relation := RelCurrent; de_definition_hash := "abababababababab";
                          de_semantic_version := Some "1.0.0" |};
           pv_source_time_ns := Some 1000000000; pv_receive_time_ns := 50000; pv_flags := default_flags |};
      ev_event_name := "StateTransition"; ev_event_type_id := 1; ev_seq := 1;
      ev_fields :=
        [{| dcf_key := 1; dcf_name := "stateMachine"; dcf_type_name := "StateMachineRef"; dcf_value := TString "CoreProcedure";
            dcf_unit := None; dcf_enum_label := None |};
         {| dcf_key := 2; dcf_name := "category"; dcf_type_name := "UInt"; dcf_value := TNumber 2; dcf_unit := None;
            dcf_enum_label := Some "Procedural" |};
         {| dcf_key := 3; dcf_name := "previousState"; dcf_type_name := "StateRef"; dcf_value := TString "Pausing";
            dcf_unit := None; dcf_enum_label := Some "Pausing" |};
         {| dcf_key := 4; dcf_name := "newState"; dcf_type_name := "StateRef"; dcf_value := TString "Paused"; dcf_unit := None;
            dcf_enum_label := Some "Paused" |}];
      ev_extension_fields :=
        [{| xf_key := 0x8001; xf_type_tag := 1; xf_type_name := Some "SInt"; xf_name := None; xf_value := Some (TNumber (-2));
            xf_payload_hex := "fe" |}] |}%string.
Proof. exact eq_refl. Qed.

(** A record of 260 bytes with its checksum is over the limit of 256; rebuilt
    from its document without the checksum it is not. *)
Definition long_record : WireRecord :=
  {| rec_flags := FLAG_HAS_CRC; rec_source_time := 1000; rec_run_id := 1; rec_seq := 2; rec_source_id := 66;
     rec_event_type_id := EVENT_STATE_TRANSITION;
     rec_slots := take 4 (rec_slots transition_record)
       ++ [{| slot_key := 0x8001; slot_ty := TY_BYTES; slot_payload := replicate 180 0 |}] |}.

Definition is_resolved (m : res unit Resolution) : bool := match m with Ok (Resolved _) => true | _ => false end.

Example checksum_not_in_document :
  match resolve_record long_record 100 sample_snapshot (ds_of_current sample) with
  | Ok (ResolutionPlaceholder p) =>
      rp_reason p = Schema (RecordTooLarge 260 256) ∧
      match document_from_resolution (ResolutionPlaceholder p) (with_source_time 1000 (record_context_new 9 5 hash8 FLAG_HAS_CRC)) with
      | DocPlaceholder d => is_resolved (resolve_record (replay false d) 100 sample_snapshot (ds_of_current sample)) = true
      | _ => False
      end
  | _ => False
  end.
Proof. vm_compute. done. Qed.

(** An infinity and a NaN have one document value. *)
Example not_finite_values : value_document (RReal 0x7F800000) = value_document (RReal 0x7FC00000).
Proof. exact eq_refl. Qed.
