(* ===== verification/Vectors.v ===== *)
(** * Conformance vectors: building blocks (carriage/src/vectors.rs)

    The records the vectors are made of, the text forms of bytes, and the
    functions that turn a record or an image into its two files. A fixture
    function that asserts something of the library panics where it does not
    hold. In the JSON texts an apostrophe stands for a double quote. *)
From Stdlib Require Import Ascii.
From stdpp Require Import strings.
From S2P Require Import Prelude Utf8 Crc Wire Control Registry Ring RingRead Loss Consumer Text.
#[local] Open Scope Z_scope.

Record VectorFile := MkVectorFile { vf_path : string; vf_contents : string }.

(** ** Text *)
Fixpoint q (s : string) : string :=
  match s with
  | EmptyString => EmptyString
  | String a s => String (if decide (a = "'"%char) then "034"%char else a) (q s)
  end.

Definition upper_digit (n : Z) : ascii := ascii_of_N (Z.to_N (if decide (n < 10) then 48 + n else 55 + n)).
(** [{:0wX}] of a number of at most [w] hexadecimal digits. *)
Fixpoint upper_hex (w : nat) (n : Z) : string :=
  match w with
  | O => ""
  | S w => upper_hex w (n / 16) +:+ String (upper_digit (n mod 16)) ""
  end.

Definition hex_compact (bs : bytes) : string := foldl (λ out byte, out +:+ upper_hex 2 byte) "" bs.

(** What is written before the byte at an index. *)
Definition separator (index : nat) : string :=
  if decide (0 < index)%nat then if decide (index mod 16 = 0)%nat then String newline "" else " " else "".
Definition hex_dump (bs : bytes) : string :=
  foldl (λ out '(index, byte), out +:+ separator index +:+ upper_hex 2 byte) "" (imap pair bs) +:+ String newline "".

Definition indent_json (input : string) (spaces : nat) : string :=
  let prefix := String.concat "" (replicate spaces " "%string) in
  trim_start (String.concat (String newline "") ((λ line, prefix +:+ line) <$> lines input)).

Fixpoint lookup_path (stem : string) (table : list (string * string)) : option string :=
  match table with
  | [] => None
  | (s, p) :: table => if decide (stem = s) then Some p else lookup_path stem table
  end.
(** [unreachable!] is a panic. *)
Definition or_unreachable {E A} (o : option A) : res E A := match o with Some a => Ok a | None => Panic end.

Definition hex_paths : list (string * string) :=
  [("state_transition", "state_transition.hex");
   ("conformant_state_transition", "conformant_state_transition.hex");
   ("conformant_value_changed_real", "conformant_value_changed_real.hex");
   ("conformant_value_changed_dint", "conformant_value_changed_dint.hex");
   ("conformant_value_changed_bool", "conformant_value_changed_bool.hex");
   ("conformant_value_changed_sint", "conformant_value_changed_sint.hex");
   ("conformant_value_changed_usint", "conformant_value_changed_usint.hex");
   ("conformant_value_changed_int", "conformant_value_changed_int.hex");
   ("conformant_value_changed_uint", "conformant_value_changed_uint.hex");
   ("conformant_value_changed_udint", "conformant_value_changed_udint.hex");
   ("conformant_value_changed_ulint", "conformant_value_changed_ulint.hex");
   ("conformant_value_changed_lint", "conformant_value_changed_lint.hex");
   ("conformant_value_changed_lreal", "conformant_value_changed_lreal.hex");
   ("conformant_value_changed_string", "conformant_value_changed_string.hex");
   ("conformant_message", "conformant_message.hex");
   ("conformant_condition_active", "conformant_condition_active.hex");
   ("conformant_condition_cleared", "conformant_condition_cleared.hex");
   ("conformant_condition_acknowledged", "conformant_condition_acknowledged.hex");
   ("conformant_condition_confirmed", "conformant_condition_confirmed.hex");
   ("conformant_condition_shelved", "conformant_condition_shelved.hex");
   ("conformant_condition_unshelved", "conformant_condition_unshelved.hex");
   ("conformant_condition_suppressed", "conformant_condition_suppressed.hex");
   ("conformant_condition_unsuppressed", "conformant_condition_unsuppressed.hex");
   ("conformant_condition_out_of_service", "conformant_condition_out_of_service.hex");
   ("conformant_condition_in_service", "conformant_condition_in_service.hex");
   ("conformant_condition_reset", "conformant_condition_reset.hex");
   ("conformant_condition_commented", "conformant_condition_commented.hex");
   ("conformant_condition_priority_changed", "conformant_condition_priority_changed.hex");
   ("conformant_recipe_loaded", "conformant_recipe_loaded.hex");
   ("conformant_recipe_approved", "conformant_recipe_approved.hex");
   ("conformant_batch_event", "conformant_batch_event.hex");
   ("conformant_material_addition", "conformant_material_addition.hex");
   ("conformant_operator_action", "conformant_operator_action.hex");
   ("conformant_operator_login", "conformant_operator_login.hex");
   ("conformant_operator_logout", "conformant_operator_logout.hex");
   ("conformant_security_access_failure", "conformant_security_access_failure.hex");
   ("conformant_parameter_change_real", "conformant_parameter_change_real.hex");
   ("conformant_parameter_change_dint", "conformant_parameter_change_dint.hex");
   ("conformant_parameter_change_bool", "conformant_parameter_change_bool.hex");
   ("conformant_parameter_change_string", "conformant_parameter_change_string.hex");
   ("conformant_e_signature", "conformant_e_signature.hex");
   ("conformant_records_dropped", "conformant_records_dropped.hex");
   ("conformant_source_high_water", "conformant_source_high_water.hex");
   ("records_dropped", "records_dropped.hex");
   ("source_high_water", "source_high_water.hex");
   ("minimal_message", "minimal_message.hex");
   ("logger_stopped", "logger_stopped.hex");
   ("definition_changed", "definition_changed.hex");
   ("logger_started_warm", "logger_started_warm.hex");
   ("logger_started_cold", "logger_started_cold.hex")]%string.
Definition hex_path {E} (stem : string) : res E string := or_unreachable (lookup_path stem hex_paths).

Definition json_paths : list (string * string) :=
  [("state_transition", "state_transition.json");
   ("conformant_state_transition", "conformant_state_transition.json");
   ("conformant_value_changed_real", "conformant_value_changed_real.json");
   ("conformant_value_changed_dint", "conformant_value_changed_dint.json");
   ("conformant_value_changed_bool", "conformant_value_changed_bool.json");
   ("conformant_value_changed_sint", "conformant_value_changed_sint.json");
   ("conformant_value_changed_usint", "conformant_value_changed_usint.json");
   ("conformant_value_changed_int", "conformant_value_changed_int.json");
   ("conformant_value_changed_uint", "conformant_value_changed_uint.json");
   ("conformant_value_changed_udint", "conformant_value_changed_udint.json");
   ("conformant_value_changed_ulint", "conformant_value_changed_ulint.json");
   ("conformant_value_changed_lint", "conformant_value_changed_lint.json");
   ("conformant_value_changed_lreal", "conformant_value_changed_lreal.json");
   ("conformant_value_changed_string", "conformant_value_changed_string.json");
   ("conformant_message", "conformant_message.json");
   ("conformant_condition_active", "conformant_condition_active.json");
   ("conformant_condition_cleared", "conformant_condition_cleared.json");
   ("conformant_condition_acknowledged", "conformant_condition_acknowledged.json");
   ("conformant_condition_confirmed", "conformant_condition_confirmed.json");
   ("conformant_condition_shelved", "conformant_condition_shelved.json");
   ("conformant_condition_unshelved", "conformant_condition_unshelved.json");
   ("conformant_condition_suppressed", "conformant_condition_suppressed.json");
   ("conformant_condition_unsuppressed", "conformant_condition_unsuppressed.json");
   ("conformant_condition_out_of_service", "conformant_condition_out_of_service.json");
   ("conformant_condition_in_service", "conformant_condition_in_service.json");
   ("conformant_condition_reset", "conformant_condition_reset.json");
   ("conformant_condition_commented", "conformant_condition_commented.json");
   ("conformant_condition_priority_changed", "conformant_condition_priority_changed.json");
   ("conformant_recipe_loaded", "conformant_recipe_loaded.json");
   ("conformant_recipe_approved", "conformant_recipe_approved.json");
   ("conformant_batch_event", "conformant_batch_event.json");
   ("conformant_material_addition", "conformant_material_addition.json");
   ("conformant_operator_action", "conformant_operator_action.json");
   ("conformant_operator_login", "conformant_operator_login.json");
   ("conformant_operator_logout", "conformant_operator_logout.json");
   ("conformant_security_access_failure", "conformant_security_access_failure.json");
   ("conformant_parameter_change_real", "conformant_parameter_change_real.json");
   ("conformant_parameter_change_dint", "conformant_parameter_change_dint.json");
   ("conformant_parameter_change_bool", "conformant_parameter_change_bool.json");
   ("conformant_parameter_change_string", "conformant_parameter_change_string.json");
   ("conformant_e_signature", "conformant_e_signature.json");
   ("conformant_records_dropped", "conformant_records_dropped.json");
   ("conformant_source_high_water", "conformant_source_high_water.json");
   ("records_dropped", "records_dropped.json");
   ("source_high_water", "source_high_water.json");
   ("minimal_message", "minimal_message.json");
   ("logger_stopped", "logger_stopped.json");
   ("definition_changed", "definition_changed.json");
   ("logger_started_warm", "logger_started_warm.json");
   ("logger_started_cold", "logger_started_cold.json")]%string.
Definition json_path {E} (stem : string) : res E string := or_unreachable (lookup_path stem json_paths).

Definition readme : string := "# OpenOT wire-v2 conformance vectors

These files are generated, not hand-written. Regenerate them with:

```sh
cargo run -p open-ot-carriage --bin dump_vectors
```

`cargo test` compares the checked-in files with the generator output, so byte
fixture drift is a test failure. `.hex` files are byte-exact hexadecimal dumps.
The adjacent `.json` files describe the expected interpretation or rejection.

Files named `conformant_*` are definition-layer positive record fixtures. The
older codec fixtures remain valid wire records; where their `.json` marks
`schemaExpected: reject`, they are intended as future schema-violation negatives.
".

(** ** Records *)
Definition slot_new (key : u16) (ty : u8) (payload : bytes) : Slot :=
  {| slot_key := key; slot_ty := ty; slot_payload := payload |}.
(** [record.slots.push] of each slot; floats are given by their bits. *)
Definition pushed (record : WireRecord) (slots : list Slot) : WireRecord :=
  foldl (λ record slot, with_slots record (rec_slots record ++ [slot])) record slots.

#[local] Open Scope string_scope.
Definition state_transition_record : WireRecord :=
  pushed (record_new 0x0102030405060708 1 2 42 EVENT_STATE_TRANSITION) [
    slot_new 0x0001 TY_UINT (to_le_bytes 2 0x1234);
    slot_new 0x0002 TY_UINT (to_le_bytes 2 2)].
Definition conformant_state_transition_record : WireRecord :=
  pushed (record_new 1000000000 1 1 66 EVENT_STATE_TRANSITION) [
    slot_new KEY_STATE_MACHINE_ID TY_UDINT (to_le_bytes 4 7);
    slot_new KEY_CATEGORY TY_UINT (to_le_bytes 2 2);
    slot_new KEY_PREVIOUS_STATE TY_UINT (to_le_bytes 2 3);
    slot_new KEY_NEW_STATE TY_UINT (to_le_bytes 2 4)].
Definition conformant_value_changed_real_record : WireRecord :=
  pushed (record_new 1000000020 1 3 66 EVENT_VALUE_CHANGED) [
    slot_new KEY_VALUE_ID TY_UDINT (to_le_bytes 4 2001);
    slot_new KEY_NEW_VALUE TY_REAL (to_le_bytes 4 0x41480000)].
Definition conformant_value_changed_dint_record : WireRecord :=
  pushed (record_new 1000000030 1 4 66 EVENT_VALUE_CHANGED) [
    slot_new KEY_VALUE_ID TY_UDINT (to_le_bytes 4 2002);
    slot_new KEY_NEW_VALUE TY_DINT (to_le_bytes 4 42);
    slot_new KEY_PREVIOUS_VALUE TY_DINT (to_le_bytes 4 40);
    slot_new KEY_QUALITY TY_UINT (to_le_bytes 2 0)].
Definition conformant_value_changed_bool_record : WireRecord :=
  pushed (record_new 1000000040 1 5 66 EVENT_VALUE_CHANGED) [
    slot_new KEY_VALUE_ID TY_UDINT (to_le_bytes 4 2003);
    slot_new KEY_NEW_VALUE TY_BOOL [1]].
Definition conformant_value_changed_sint_record : WireRecord :=
  pushed (record_new 1000000050 1 6 66 EVENT_VALUE_CHANGED) [
    slot_new KEY_VALUE_ID TY_UDINT (to_le_bytes 4 2004);
    slot_new KEY_NEW_VALUE TY_SINT (to_le_bytes 1 (-5))].
Definition conformant_value_changed_usint_record : WireRecord :=
  pushed (record_new 1000000060 1 7 66 EVENT_VALUE_CHANGED) [
    slot_new KEY_VALUE_ID TY_UDINT (to_le_bytes 4 2005);
    slot_new KEY_NEW_VALUE TY_USINT [250]].
Definition conformant_value_changed_int_record : WireRecord :=
  pushed (record_new 1000000070 1 8 66 EVENT_VALUE_CHANGED) [
    slot_new KEY_VALUE_ID TY_UDINT (to_le_bytes 4 2006);
    slot_new KEY_NEW_VALUE TY_INT (to_le_bytes 2 (-1234))].
Definition conformant_value_changed_uint_record : WireRecord :=
  pushed (record_new 1000000080 1 9 66 EVENT_VALUE_CHANGED) [
    slot_new KEY_VALUE_ID TY_UDINT (to_le_bytes 4 2007);
    slot_new KEY_NEW_VALUE TY_UINT (to_le_bytes 2 1234)].
Definition conformant_value_changed_udint_record : WireRecord :=
  pushed (record_new 1000000090 1 10 66 EVENT_VALUE_CHANGED) [
    slot_new KEY_VALUE_ID TY_UDINT (to_le_bytes 4 2008);
    slot_new KEY_NEW_VALUE TY_UDINT (to_le_bytes 4 123456)].
Definition conformant_value_changed_ulint_record : WireRecord :=
  pushed (record_new 1000000100 1 11 66 EVENT_VALUE_CHANGED) [
    slot_new KEY_VALUE_ID TY_UDINT (to_le_bytes 4 2009);
    slot_new KEY_NEW_VALUE TY_ULINT (to_le_bytes 8 1234567890123)].
Definition conformant_value_changed_lint_record : WireRecord :=
  pushed (record_new 1000000110 1 12 66 EVENT_VALUE_CHANGED) [
    slot_new KEY_VALUE_ID TY_UDINT (to_le_bytes 4 2010);
    slot_new KEY_NEW_VALUE TY_LINT (to_le_bytes 8 (-1234567890123))].
Definition conformant_value_changed_lreal_record : WireRecord :=
  pushed (record_new 1000000120 1 13 66 EVENT_VALUE_CHANGED) [
    slot_new KEY_VALUE_ID TY_UDINT (to_le_bytes 4 2011);
    slot_new KEY_NEW_VALUE TY_LREAL (to_le_bytes 8 0x4028800000000000)].
Definition conformant_value_changed_string_record : WireRecord :=
  pushed (record_new 1000000130 1 14 66 EVENT_VALUE_CHANGED) [
    slot_new KEY_VALUE_ID TY_UDINT (to_le_bytes 4 2012);
    slot_new KEY_NEW_VALUE TY_STRING (string_bytes "ready")].
Definition conformant_message_record : WireRecord :=
  pushed (record_new 1000000010 1 2 66 EVENT_MESSAGE) [
    slot_new KEY_MESSAGE_TEMPLATE_ID TY_UDINT (to_le_bytes 4 1001);
    slot_new KEY_ARG TY_STRING (string_bytes "phase ready");
    slot_new KEY_SEVERITY TY_UINT (to_le_bytes 2 500)].
Definition conformant_condition_active_record : WireRecord :=
  pushed (record_new 1000000140 1 15 66 EVENT_CONDITION_ACTIVE) [
    slot_new KEY_CONDITION_ID TY_UDINT (to_le_bytes 4 9001);
    slot_new KEY_CONDITION_CLASS TY_UINT (to_le_bytes 2 0);
    slot_new KEY_CORRELATION_ID TY_UDINT (to_le_bytes 4 77);
    slot_new KEY_SEVERITY TY_UINT (to_le_bytes 2 900);
    slot_new KEY_CAUSE_OPERAND TY_UDINT (to_le_bytes 4 1)].
Definition conformant_condition_cleared_record : WireRecord :=
  pushed (record_new 1000000150 1 16 66 EVENT_CONDITION_CLEARED) [
    slot_new KEY_CONDITION_ID TY_UDINT (to_le_bytes 4 9001);
    slot_new KEY_CONDITION_CLASS TY_UINT (to_le_bytes 2 0);
    slot_new KEY_CORRELATION_ID TY_UDINT (to_le_bytes 4 77)].
Definition conformant_condition_acknowledged_record : WireRecord :=
  pushed (record_new 1000000160 1 17 66 EVENT_CONDITION_ACKNOWLEDGED) [
    slot_new KEY_CONDITION_ID TY_UDINT (to_le_bytes 4 9001);
    slot_new KEY_CORRELATION_ID TY_UDINT (to_le_bytes 4 77);
    slot_new KEY_ACK_BY TY_STRING (string_bytes "operator-a")].
Definition conformant_condition_confirmed_record : WireRecord :=
  pushed (record_new 1000000200 1 21 66 EVENT_CONDITION_CONFIRMED) [
    slot_new KEY_CONDITION_ID TY_UDINT (to_le_bytes 4 9001);
    slot_new KEY_CORRELATION_ID TY_UDINT (to_le_bytes 4 77);
    slot_new KEY_ACK_BY TY_STRING (string_bytes "operator-a")].
Definition conformant_condition_shelved_record : WireRecord :=
  pushed (record_new 1000000170 1 18 66 EVENT_CONDITION_SHELVED) [
    slot_new KEY_CONDITION_ID TY_UDINT (to_le_bytes 4 9001);
    slot_new KEY_CORRELATION_ID TY_UDINT (to_le_bytes 4 77);
    slot_new KEY_ACK_BY TY_STRING (string_bytes "operator-a");
    slot_new KEY_SHELVE_SECS TY_UDINT (to_le_bytes 4 300)].
Definition conformant_condition_unshelved_record : WireRecord :=
  pushed (record_new 1000000210 1 22 66 EVENT_CONDITION_UNSHELVED) [
    slot_new KEY_CONDITION_ID TY_UDINT (to_le_bytes 4 9001);
    slot_new KEY_CORRELATION_ID TY_UDINT (to_le_bytes 4 77)].
Definition conformant_condition_suppressed_record : WireRecord :=
  pushed (record_new 1000000180 1 19 66 EVENT_CONDITION_SUPPRESSED) [
    slot_new KEY_CONDITION_ID TY_UDINT (to_le_bytes 4 9001);
    slot_new KEY_REASON TY_STRING (string_bytes "maintenance")].
Definition conformant_condition_unsuppressed_record : WireRecord :=
  pushed (record_new 1000000220 1 23 66 EVENT_CONDITION_UNSUPPRESSED) [
    slot_new KEY_CONDITION_ID TY_UDINT (to_le_bytes 4 9001)].
Definition conformant_condition_out_of_service_record : WireRecord :=
  pushed (record_new 1000000190 1 20 66 EVENT_CONDITION_OUT_OF_SERVICE) [
    slot_new KEY_CONDITION_ID TY_UDINT (to_le_bytes 4 9001);
    slot_new KEY_ACK_BY TY_STRING (string_bytes "operator-a")].
Definition conformant_condition_in_service_record : WireRecord :=
  pushed (record_new 1000000230 1 24 66 EVENT_CONDITION_IN_SERVICE) [
    slot_new KEY_CONDITION_ID TY_UDINT (to_le_bytes 4 9001)].
Definition conformant_condition_reset_record : WireRecord :=
  pushed (record_new 1000000240 1 25 66 EVENT_CONDITION_RESET) [
    slot_new KEY_CONDITION_ID TY_UDINT (to_le_bytes 4 9001);
    slot_new KEY_CORRELATION_ID TY_UDINT (to_le_bytes 4 77);
    slot_new KEY_ACK_BY TY_STRING (string_bytes "operator-a")].
Definition conformant_condition_commented_record : WireRecord :=
  pushed (record_new 1000000250 1 26 66 EVENT_CONDITION_COMMENTED) [
    slot_new KEY_CONDITION_ID TY_UDINT (to_le_bytes 4 9001);
    slot_new KEY_CORRELATION_ID TY_UDINT (to_le_bytes 4 77);
    slot_new KEY_COMMENT TY_STRING (string_bytes "operator comment");
    slot_new KEY_ACK_BY TY_STRING (string_bytes "operator-a")].
Definition conformant_condition_priority_changed_record : WireRecord :=
  pushed (record_new 1000000260 1 27 66 EVENT_CONDITION_PRIORITY_CHANGED) [
    slot_new KEY_CONDITION_ID TY_UDINT (to_le_bytes 4 9001);
    slot_new KEY_PREVIOUS_PRIORITY TY_UINT (to_le_bytes 2 600);
    slot_new KEY_NEW_PRIORITY TY_UINT (to_le_bytes 2 900);
    slot_new KEY_ACK_BY TY_STRING (string_bytes "operator-a")].
Definition conformant_recipe_loaded_record : WireRecord :=
  pushed (record_new 1000000270 1 28 66 EVENT_RECIPE_LOADED) [
    slot_new KEY_RECIPE_ID TY_UDINT (to_le_bytes 4 3001);
    slot_new KEY_RECIPE_VERSION TY_STRING (string_bytes "v1.2.3");
    slot_new KEY_BATCH_ID TY_UDINT (to_le_bytes 4 4001)].
Definition conformant_recipe_approved_record : WireRecord :=
  pushed (record_new 1000000280 1 29 66 EVENT_RECIPE_APPROVED) [
    slot_new KEY_RECIPE_ID TY_UDINT (to_le_bytes 4 3001);
    slot_new KEY_RECIPE_VERSION TY_STRING (string_bytes "v1.2.3");
    slot_new KEY_AUTH_RESULT TY_UINT (to_le_bytes 2 1);
    slot_new KEY_ACK_BY TY_STRING (string_bytes "approver-a")].
Definition conformant_batch_event_record : WireRecord :=
  pushed (record_new 1000000290 1 30 66 EVENT_BATCH_EVENT) [
    slot_new KEY_BATCH_ID TY_UDINT (to_le_bytes 4 4001);
    slot_new KEY_NEW_STATE TY_UINT (to_le_bytes 2 2);
    slot_new KEY_RECIPE_ID TY_UDINT (to_le_bytes 4 3001)].
Definition conformant_material_addition_record : WireRecord :=
  pushed (record_new 1000000300 1 31 66 EVENT_MATERIAL_ADDITION) [
    slot_new KEY_BATCH_ID TY_UDINT (to_le_bytes 4 4001);
    slot_new KEY_MATERIAL_ID TY_UDINT (to_le_bytes 4 5001);
    slot_new KEY_QUANTITY TY_LREAL (to_le_bytes 8 0x4028800000000000);
    slot_new KEY_UNIT TY_UINT (to_le_bytes 2 8)].
Definition conformant_operator_action_record : WireRecord :=
  pushed (record_new 1000000310 1 32 66 EVENT_OPERATOR_ACTION) [
    slot_new KEY_ACTION_ID TY_UDINT (to_le_bytes 4 6001);
    slot_new KEY_ACTOR TY_STRING (string_bytes "operator-a");
    slot_new KEY_CONTEXT_REF TY_UDINT (to_le_bytes 4 7001);
    slot_new KEY_CONTEXT_REF TY_UDINT (to_le_bytes 4 7002);
    slot_new KEY_AUTH_RESULT TY_UINT (to_le_bytes 2 0);
    slot_new KEY_WORKSTATION TY_STRING (string_bytes "station-1")].
Definition conformant_operator_login_record : WireRecord :=
  pushed (record_new 1000000320 1 33 66 EVENT_OPERATOR_LOGIN) [
    slot_new KEY_ACTOR TY_STRING (string_bytes "operator-a");
    slot_new KEY_AUTH_RESULT TY_UINT (to_le_bytes 2 0);
    slot_new KEY_WORKSTATION TY_STRING (string_bytes "station-1");
    slot_new KEY_ROLE TY_UINT (to_le_bytes 2 3)].
Definition conformant_operator_logout_record : WireRecord :=
  pushed (record_new 1000000330 1 34 66 EVENT_OPERATOR_LOGOUT) [
    slot_new KEY_ACTOR TY_STRING (string_bytes "operator-a");
    slot_new KEY_WORKSTATION TY_STRING (string_bytes "station-1")].
Definition conformant_security_access_failure_record : WireRecord :=
  pushed (record_new 1000000340 1 35 66 EVENT_SECURITY_ACCESS_FAILURE) [
    slot_new KEY_ACTOR TY_STRING (string_bytes "operator-x");
    slot_new KEY_WORKSTATION TY_STRING (string_bytes "station-2");
    slot_new KEY_REASON TY_STRING (string_bytes "denied")].
Definition conformant_parameter_change_real_record : WireRecord :=
  pushed (record_new 1000000350 1 36 66 EVENT_PARAMETER_CHANGE) [
    slot_new KEY_VALUE_ID TY_UDINT (to_le_bytes 4 2001);
    slot_new KEY_PREVIOUS_VALUE TY_REAL (to_le_bytes 4 0x41480000);
    slot_new KEY_NEW_VALUE TY_REAL (to_le_bytes 4 0x415C0000);
    slot_new KEY_ACTOR TY_STRING (string_bytes "operator-a");
    slot_new KEY_REASON TY_STRING (string_bytes "setpoint change");
    slot_new KEY_AUTH_RESULT TY_UINT (to_le_bytes 2 0)].
Definition conformant_parameter_change_dint_record : WireRecord :=
  pushed (record_new 1000000360 1 37 66 EVENT_PARAMETER_CHANGE) [
    slot_new KEY_VALUE_ID TY_UDINT (to_le_bytes 4 2002);
    slot_new KEY_PREVIOUS_VALUE TY_DINT (to_le_bytes 4 40);
    slot_new KEY_NEW_VALUE TY_DINT (to_le_bytes 4 42);
    slot_new KEY_ACTOR TY_STRING (string_bytes "operator-a");
    slot_new KEY_REASON TY_STRING (string_bytes "count corrected")].
Definition conformant_parameter_change_bool_record : WireRecord :=
  pushed (record_new 1000000370 1 38 66 EVENT_PARAMETER_CHANGE) [
    slot_new KEY_VALUE_ID TY_UDINT (to_le_bytes 4 2003);
    slot_new KEY_PREVIOUS_VALUE TY_BOOL [0];
    slot_new KEY_NEW_VALUE TY_BOOL [1];
    slot_new KEY_ACTOR TY_STRING (string_bytes "operator-b");
    slot_new KEY_REASON TY_STRING (string_bytes "enable audit")].
Definition conformant_parameter_change_string_record : WireRecord :=
  pushed (record_new 1000000380 1 39 66 EVENT_PARAMETER_CHANGE) [
    slot_new KEY_VALUE_ID TY_UDINT (to_le_bytes 4 2012);
    slot_new KEY_PREVIOUS_VALUE TY_STRING (string_bytes "manual");
    slot_new KEY_NEW_VALUE TY_STRING (string_bytes "auto");
    slot_new KEY_ACTOR TY_STRING (string_bytes "operator-c");
    slot_new KEY_REASON TY_STRING (string_bytes "mode note");
    slot_new KEY_AUTH_RESULT TY_UINT (to_le_bytes 2 1)].
Definition conformant_e_signature_record : WireRecord :=
  pushed (record_new 1000000390 1 40 66 EVENT_ESIGNATURE) [
    slot_new KEY_ACTION_ID TY_UDINT (to_le_bytes 4 6002);
    slot_new KEY_ACTOR TY_STRING (string_bytes "signer-a");
    slot_new KEY_SIGNATURE_MEANING TY_UINT (to_le_bytes 2 2);
    slot_new KEY_SIGNED_EVENT_SEQ TY_ULINT (to_le_bytes 8 37);
    slot_new KEY_AUTH_RESULT TY_UINT (to_le_bytes 2 0)].
Definition conformant_records_dropped_record : WireRecord :=
  pushed (record_new 0 9 100 66 EVENT_RECORDS_DROPPED) [
    slot_new KEY_DROPPED_COUNT TY_UDINT (to_le_bytes 4 18);
    slot_new KEY_FIRST_LOST_SEQ TY_ULINT (to_le_bytes 8 40);
    slot_new KEY_LAST_LOST_SEQ TY_ULINT (to_le_bytes 8 57);
    slot_new KEY_WINDOW_START TY_DATE_TIME (to_le_bytes 8 1000000000);
    slot_new KEY_WINDOW_END TY_DATE_TIME (to_le_bytes 8 1000010000)].
Definition records_dropped_vector_record : WireRecord :=
  pushed (record_new 0 9 44 42 EVENT_RECORDS_DROPPED) [
    slot_new KEY_DROPPED_COUNT TY_UDINT (to_le_bytes 4 5);
    slot_new KEY_FIRST_LOST_SEQ TY_ULINT (to_le_bytes 8 100);
    slot_new KEY_LAST_LOST_SEQ TY_ULINT (to_le_bytes 8 104)].
Definition source_high_water_record : WireRecord :=
  pushed (record_new 0 1 5 88 EVENT_SOURCE_HIGH_WATER) [
    slot_new KEY_SOURCE_HIGH_WATER TY_ULINT (to_le_bytes 8 5)].
Definition definition_changed_record : WireRecord :=
  pushed (record_new 0 1 1 SYSTEM_SOURCE_ID EVENT_DEFINITION_CHANGED) [
    slot_new KEY_DEF_HASH_OLD TY_BYTES (string_bytes "oldhash1");
    slot_new KEY_DEF_HASH_NEW TY_BYTES (string_bytes "newhash2");
    slot_new KEY_EPOCH_ID TY_ULINT (to_le_bytes 8 2)].
Definition conformant_source_high_water_record : WireRecord := source_high_water_record.
#[local] Close Scope string_scope.

(** The sums stay far below 2^64 in every call. *)
Definition minimal_record (source_id : u32) (seq : u64) : WireRecord :=
  record_new (1780000000000000000 + seq) 1 seq source_id EVENT_MESSAGE.
Definition minimal_message_record : WireRecord :=
  pushed (minimal_record 7 3) [slot_new KEY_MESSAGE_TEMPLATE_ID TY_UDINT (to_le_bytes 4 1001)].
Definition logger_stopped_record : WireRecord := record_new 0 1 0 SYSTEM_SOURCE_ID EVENT_LOGGER_STOPPED.
Definition logger_started_record (run_id seq : u64) (cold_start : bool) : WireRecord :=
  pushed (record_new 0 run_id seq SYSTEM_SOURCE_ID EVENT_LOGGER_STARTED)
    [slot_new KEY_COLD_START TY_BOOL [if cold_start then 1 else 0]].
Definition logger_started_warm_record : WireRecord := logger_started_record 1 2 false.
Definition logger_started_cold_record : WireRecord := logger_started_record 2 0 true.
Definition record_with_crc (record : WireRecord) : WireRecord :=
  {| rec_flags := Z.lor (rec_flags record) FLAG_HAS_CRC; rec_source_time := rec_source_time record;
     rec_run_id := rec_run_id record; rec_seq := rec_seq record; rec_source_id := rec_source_id record;
     rec_event_type_id := rec_event_type_id record; rec_slots := rec_slots record |}.

Definition control_snapshot : ControlBlockSnapshot :=
  {| cb_version := 2; cb_caps := 3; cb_buffer_id := 7; cb_buffer_bytes := 4096; cb_head_abs := 8192; cb_oldest_abs := 6144;
     cb_lost_count := 12; cb_run_id := 3; cb_epoch_id := 5; cb_epoch_first_abs := 7000;
     cb_definition_hash := string_bytes "defhash1"; cb_prev_definition_hash := string_bytes "oldhash1" |}.

(** ** Files *)
Section push.
Context {BP : BuildProfile} {E : Type}.

(** [expect], and the conversion of calls that cannot fail. *)
Definition expect {F A} (m : res F A) : res E A :=
  match m with Ok a => Ok a | Diverge => Diverge | _ => Panic end.
(** [assert!] and [assert_eq!]. *)
Definition assert (P : Prop) `{Decision P} : res E unit := if decide P then Ok tt else Panic.

Definition read_u16 (bs : bytes) (offset : usize) : res E u16 :=
  b0 ← index bs offset; b1 ← index bs (offset + 1)%nat; Ok (from_le_bytes [b0; b1]).
Definition trailer_crc (bs : bytes) : res E u32 :=
  if decide (length bs < 4)%nat then Panic else
  trailer ← slice bs (length bs - 4)%nat (length bs); Ok (from_le_bytes trailer).

Definition push (path contents : string) (files : list VectorFile) : list VectorFile :=
  files ++ [{| vf_path := path; vf_contents := contents |}].

Record RecordVector := MkRecordVector {
  rv_stem : string;
  rv_description : string;
  rv_record : WireRecord;
  rv_detail_json : string;
}.

Definition push_record_vector (v : RecordVector) (files : list VectorFile) : res E (list VectorFile) :=
  bs ← expect (encode (rv_record v) true);
  decoded ← expect (decode bs);
  _ ← assert (dec_record decoded = record_with_crc (rv_record v));
  crc ← trailer_crc bs;
  path ← hex_path (rv_stem v);
  let files := push path (hex_dump bs) files in
  path ← json_path (rv_stem v);
  total ← read_u16 bs 4;
  flags ← read_u16 bs 6;
  Ok (push path (q "{
  'name': '" +:+ rv_stem v +:+ q "',
  'description': '" +:+ rv_description v +:+ q "',
  'kind': 'record',
  'encoding': 'wire-v2',
  'expected': 'accept',
  'hexFile': '" +:+ rv_stem v +:+ q ".hex',
  'byteCount': " +:+ dec (Z.of_nat (length bs)) +:+ q ",
  'headerLength': " +:+ dec (Z.of_nat HEADER_LEN) +:+ q ",
  'totalRecordLength': " +:+ dec total +:+ q ",
  'flags': '0x" +:+ upper_hex 4 flags +:+ q "',
  'crc32c': '0x" +:+ upper_hex 8 crc +:+ q "',
  'detail': " +:+ indent_json (rv_detail_json v) 2 +:+ "
}
") files).

Definition with_oldest_abs (oldest_abs : u64) (s : ControlBlockSnapshot) : ControlBlockSnapshot :=
  {| cb_version := cb_version s; cb_caps := cb_caps s; cb_buffer_id := cb_buffer_id s; cb_buffer_bytes := cb_buffer_bytes s;
     cb_head_abs := cb_head_abs s; cb_oldest_abs := oldest_abs; cb_lost_count := cb_lost_count s; cb_run_id := cb_run_id s;
     cb_epoch_id := cb_epoch_id s; cb_epoch_first_abs := cb_epoch_first_abs s; cb_definition_hash := cb_definition_hash s;
     cb_prev_definition_hash := cb_prev_definition_hash s |}.

Definition push_control_block_vectors (files : list VectorFile) : res E (list VectorFile) :=
  let snapshot := control_snapshot in
  bs ← expect (cb_encode snapshot 2);
  let files := push "control_block.hex" (hex_dump bs) files in
  let files := push "control_block.json" (q "{
  'name': 'control_block',
  'kind': 'control-block',
  'encoding': 'open-ot-control-v2',
  'expected': 'accept',
  'hexFile': 'control_block.hex',
  'byteCount': " +:+ dec (Z.of_nat CONTROL_BLOCK_LEN) +:+ q ",
  'seqLock': 2,
  'fields': {
    'bufferId': " +:+ dec (cb_buffer_id snapshot) +:+ q ",
    'bufferBytes': " +:+ dec (cb_buffer_bytes snapshot) +:+ q ",
    'headAbs': " +:+ dec (cb_head_abs snapshot) +:+ q ",
    'oldestAbs': " +:+ dec (cb_oldest_abs snapshot) +:+ q ",
    'lostCount': " +:+ dec (cb_lost_count snapshot) +:+ q ",
    'runId': " +:+ dec (cb_run_id snapshot) +:+ q ",
    'epochId': " +:+ dec (cb_epoch_id snapshot) +:+ q ",
    'epochFirstAbs': " +:+ dec (cb_epoch_first_abs snapshot) +:+ q ",
    'definitionHash': '" +:+ hex_compact (cb_definition_hash snapshot) +:+ q "',
    'prevDefinitionHash': '" +:+ hex_compact (cb_prev_definition_hash snapshot) +:+ q "'
  }
}
") files in
  torn ← copy_from_slice bs 16 (to_le_bytes 4 3);
  let files := push "control_block_torn_snapshot.hex" (hex_dump torn) files in
  let files := push "control_block_torn_snapshot.json" (q "{
  'name': 'control_block_torn_snapshot',
  'kind': 'control-block',
  'encoding': 'open-ot-control-v2',
  'expected': 'reject',
  'expectedError': 'Updating',
  'hexFile': 'control_block_torn_snapshot.hex',
  'observedSeqLock': 3
}
") files in
  let files := push "control_block_stale_snapshot.hex" (hex_dump bs) files in
  let files := push "control_block_stale_snapshot.json" (q "{
  'name': 'control_block_stale_snapshot',
  'kind': 'control-block',
  'encoding': 'open-ot-control-v2',
  'expected': 'reject',
  'expectedError': 'StaleSnapshot',
  'hexFile': 'control_block_stale_snapshot.hex',
  'observedSeqLockFirst': 2,
  'observedSeqLockSecond': 4
}
") files in
  overwrite_bytes ← expect (cb_encode (with_oldest_abs 256 snapshot) 4);
  let files := push "control_block_overwrite_snapshot.hex" (hex_dump overwrite_bytes) files in
  Ok (push "control_block_overwrite_snapshot.json" (q "{
  'name': 'control_block_overwrite_snapshot',
  'kind': 'control-block',
  'encoding': 'open-ot-control-v2',
  'expected': 'reject-record',
  'reason': 'OldestAbs > recordAbs',
  'hexFile': 'control_block_overwrite_snapshot.hex',
  'recordAbs': 128,
  'oldestAbs': 256
}
") files).

Definition push_wrap_marker_boundary (files : list VectorFile) : res E (list VectorFile) :=
  ring ← expect (ring_new 128);
  let source := 81 in
  '(ring, (_, first_end)) ← expect (write_record ring (minimal_record source 0));
  '(ring, (_, second_end)) ← expect (write_record ring (minimal_record source 1));
  _ ← assert ((first_end, second_end) = (44, 88));
  let wrapped := pushed (minimal_record source 2) [slot_new 0x1000 TY_UINT (to_le_bytes 2 0x2222)] in
  encoded ← expect (encode wrapped true);
  _ ← assert (length encoded = 52%nat);
  '(ring, (third_start, third_end)) ← expect (write_record ring wrapped);
  _ ← assert ((third_start, third_end) = (128, 180));
  marker ← index (ring_bytes ring) 88;
  _ ← assert (marker = 0);
  sync ← slice (ring_bytes ring) 0 4;
  _ ← assert (sync = SYNC);
  batch ← expect (read_raw_from ring 88);
  _ ← assert (rb_lapped batch = true);
  _ ← assert (length (rb_records batch) = 1%nat);
  read ← index (rb_records batch) 0;
  _ ← assert (rec_seq (rr_record read) = 2);
  let files := push "wrap_marker_boundary.hex" (hex_dump (ring_bytes ring)) files in
  Ok (push "wrap_marker_boundary.json" (q "{
  'name': 'wrap_marker_boundary',
  'kind': 'physical-ring-image',
  'encoding': 'wire-v2-ring',
  'expected': 'accept-after-lap',
  'hexFile': 'wrap_marker_boundary.hex',
  'capacity': " +:+ dec (Z.of_nat (capacity ring)) +:+ q ",
  'headAbs': " +:+ dec (ring_head_abs ring) +:+ q ",
  'oldestAbs': " +:+ dec (ring_oldest_abs ring) +:+ q ",
  'wrapMarker': { 'abs': 88, 'phys': 88, 'value': '0x00' },
  'cursorAbs': 88,
  'expectedLapped': true,
  'expectedDelivered': [
    { 'sourceId': " +:+ dec source +:+ q ", 'seq': 2, 'startAbs': " +:+ dec (rr_start_abs read) +:+ q ", 'endAbs': "
  +:+ dec (rr_end_abs read) +:+ " }
  ]
}
") files).

Definition is_crc_mismatch {A} (m : res WireError A) : Prop := match m with Err (CrcMismatch _ _) => True | _ => False end.
#[local] Instance is_crc_mismatch_dec {A} (m : res WireError A) : Decision (is_crc_mismatch m).
Proof. destruct m as [|[]| |]; cbn; apply _. Defined.

Definition push_torn_record (files : list VectorFile) : res E (list VectorFile) :=
  let record := pushed (minimal_record 73 0) [slot_new 0x1000 TY_UDINT (to_le_bytes 4 123)] in
  complete ← expect (encode record true);
  let copied := (HEADER_LEN + 4)%nat in
  head ← slice complete 0 copied;
  torn ← copy_from_slice (replicate (length complete) 0) 0 head;
  torn ← copy_from_slice torn copied (replicate (length torn - copied) 0xA5);
  sync ← slice torn 0 4;
  _ ← assert (sync = SYNC);
  advertised ← read_u16 torn 4;
  _ ← assert (Z.to_nat advertised = length torn);
  _ ← assert (is_crc_mismatch (decode torn));
  let files := push "torn_record_must_reject.hex" (hex_dump torn) files in
  Ok (push "torn_record_must_reject.json" (q "{
  'name': 'torn_record_must_reject',
  'kind': 'record-fragment',
  'encoding': 'wire-v2',
  'expected': 'reject',
  'expectedError': 'CrcMismatch',
  'hexFile': 'torn_record_must_reject.hex',
  'byteCount': " +:+ dec (Z.of_nat (length torn)) +:+ q ",
  'advertisedTotalRecordLength': " +:+ dec advertised +:+ q ",
  'copiedPrefixBytes': " +:+ dec (Z.of_nat copied) +:+ q ",
  'fault': 'valid sync and length, copied header plus slot header, unwritten tail filled with 0xA5'
}
") files).

Definition push_overflow_records_dropped (files : list VectorFile) : res E (list VectorFile) :=
  let silent_source := 88 in
  let noisy_source := 99 in
  ring ← expect (ring_new 256);
  ring ← for_each (λ seq ring, '(ring, _) ← expect (write_record ring (minimal_record silent_source seq)); Ok ring) (seqZ 0 5) ring;
  ring ← for_each (λ seq ring, '(ring, _) ← expect (write_record ring (minimal_record noisy_source seq)); Ok ring) (seqZ 0 80) ring;
  let '(ring, ranges) := take_producer_loss_ranges ring in
  loss ← or_unreachable (List.find (λ range, bool_decide (lr_source_id range = silent_source)) ranges);
  _ ← assert (loss = {| lr_run_id := 1; lr_source_id := silent_source; lr_first_seq := 0; lr_last_seq := 4 |});
  dropped ← records_dropped_record 5 loss;
  '(ring, _) ← expect (write_record ring dropped);
  '(raw, batch) ← expect (rbc_poll rbc_new ring);
  _ ← assert (rb_lapped batch = true);
  lost ← expect (rbc_lost_in_run raw 1 silent_source);
  _ ← assert (lost = 5);
  _ ← assert (Exists (λ read, rec_event_type_id (rr_record read) = EVENT_RECORDS_DROPPED
                              ∧ rec_source_id (rr_record read) = silent_source) (rb_records batch));
  stream ← for_each (λ read stream, bs ← expect (encode (rr_record read) true); Ok (stream ++ bs)) (rb_records batch) [];
  let files := push "overflow_records_dropped_sequence.hex" (hex_dump stream) files in
  n ← count loss;
  Ok (push "overflow_records_dropped_sequence.json" (q "{
  'name': 'overflow_records_dropped_sequence',
  'kind': 'logical-record-stream',
  'encoding': 'wire-v2',
  'expected': 'accept',
  'hexFile': 'overflow_records_dropped_sequence.hex',
  'ringCapacity': " +:+ dec (Z.of_nat (capacity ring)) +:+ q ",
  'batchLapped': true,
  'recordsInStream': " +:+ dec (Z.of_nat (length (rb_records batch))) +:+ q ",
  'producerLoss': {
    'runId': " +:+ dec (lr_run_id loss) +:+ q ",
    'sourceId': " +:+ dec (lr_source_id loss) +:+ q ",
    'firstSeq': " +:+ dec (lr_first_seq loss) +:+ q ",
    'lastSeq': " +:+ dec (lr_last_seq loss) +:+ q ",
    'count': " +:+ dec n +:+ q "
  },
  'expectedAccounting': {
    'sourceId': " +:+ dec silent_source +:+ q ",
    'lost': 5,
    'deliveredRecordsDroppedRecord': true
  }
}
") files).
End push.
