(* ===== verification/VectorFiles.v ===== *)
(** * Conformance vectors: the files (carriage/src/vectors.rs, [generate_files])

    Every record vector with its manifest, and all files in the order in which
    they are generated; that generating them panics nowhere, and that what the
    manifests say of the records is so. *)
From Stdlib Require Import Ascii.
From stdpp Require Import strings.
From S2P Require Import Prelude Utf8 Crc Wire Control Registry Ring RingRead Loss Consumer Text DefModel DefSchema DefResolver Vectors.
#[local] Open Scope Z_scope.

(** ** The record vectors *)
Definition state_transition_vector : RecordVector :=
  {| rv_stem := "state_transition"; rv_description := "wire-codec StateTransition record; schema-negative because stateMachineId is UInt and required state fields are absent";
     rv_record := state_transition_record;
     rv_detail_json := q "{
  'eventName': 'StateTransition',
  'schemaExpected': 'reject',
  'schemaViolation': 'stateMachineId uses UInt instead of UDInt and previousState/newState are absent',
  'fields': {
    'sourceTime': '0x0102030405060708',
    'runId': 1,
    'seq': 2,
    'sourceId': 42,
    'eventTypeId': '0x0001'
  },
  'slots': [
    { 'key': '0x0001', 'type': 'UInt', 'value': '0x1234' },
    { 'key': '0x0002', 'type': 'UInt', 'value': 2 }
  ]
}" |}.
Definition conformant_state_transition_vector : RecordVector :=
  {| rv_stem := "conformant_state_transition"; rv_description := "definition-layer positive StateTransition record";
     rv_record := conformant_state_transition_record;
     rv_detail_json := q "{
  'eventName': 'StateTransition',
  'schemaExpected': 'accept',
  'fields': {
    'sourceTime': 1000000000,
    'runId': 1,
    'seq': 1,
    'sourceId': 66,
    'eventTypeId': '0x0001'
  },
  'slots': [
    { 'key': '0x0001', 'type': 'UDInt', 'name': 'stateMachineId', 'value': 7 },
    { 'key': '0x0002', 'type': 'UInt', 'name': 'category', 'value': 2 },
    { 'key': '0x0003', 'type': 'UInt', 'name': 'previousState', 'value': 3 },
    { 'key': '0x0004', 'type': 'UInt', 'name': 'newState', 'value': 4 }
  ]
}" |}.
Definition conformant_value_changed_real_vector : RecordVector :=
  {| rv_stem := "conformant_value_changed_real"; rv_description := "definition-layer positive ValueChanged record carrying a REAL newValue";
     rv_record := conformant_value_changed_real_record;
     rv_detail_json := q "{
  'eventName': 'ValueChanged',
  'schemaExpected': 'accept',
  'fields': {
    'sourceTime': 1000000020,
    'runId': 1,
    'seq': 3,
    'sourceId': 66,
    'eventTypeId': '0x0002'
  },
  'slots': [
    { 'key': '0x000D', 'type': 'UDInt', 'name': 'valueId', 'value': 2001 },
    { 'key': '0x0010', 'type': 'Real', 'name': 'newValue', 'value': 12.5 }
  ]
}" |}.
Definition conformant_value_changed_dint_vector : RecordVector :=
  {| rv_stem := "conformant_value_changed_dint"; rv_description := "definition-layer positive ValueChanged record carrying DINT previousValue/newValue plus quality";
     rv_record := conformant_value_changed_dint_record;
     rv_detail_json := q "{
  'eventName': 'ValueChanged',
  'schemaExpected': 'accept',
  'fields': {
    'sourceTime': 1000000030,
    'runId': 1,
    'seq': 4,
    'sourceId': 66,
    'eventTypeId': '0x0002'
  },
  'slots': [
    { 'key': '0x000D', 'type': 'UDInt', 'name': 'valueId', 'value': 2002 },
    { 'key': '0x0010', 'type': 'DInt', 'name': 'newValue', 'value': 42 },
    { 'key': '0x000F', 'type': 'DInt', 'name': 'previousValue', 'value': 40 },
    { 'key': '0x0011', 'type': 'UInt', 'name': 'quality', 'value': 0 }
  ]
}" |}.
Definition conformant_value_changed_bool_vector : RecordVector :=
  {| rv_stem := "conformant_value_changed_bool"; rv_description := "definition-layer positive ValueChanged record carrying a BOOL newValue";
     rv_record := conformant_value_changed_bool_record;
     rv_detail_json := q "{
  'eventName': 'ValueChanged',
  'schemaExpected': 'accept',
  'fields': {
    'sourceTime': 1000000040,
    'runId': 1,
    'seq': 5,
    'sourceId': 66,
    'eventTypeId': '0x0002'
  },
  'slots': [
    { 'key': '0x000D', 'type': 'UDInt', 'name': 'valueId', 'value': 2003 },
    { 'key': '0x0010', 'type': 'Bool', 'name': 'newValue', 'value': true }
  ]
}" |}.
Definition conformant_value_changed_sint_vector : RecordVector :=
  {| rv_stem := "conformant_value_changed_sint"; rv_description := "definition-layer positive ValueChanged record carrying an SINT newValue";
     rv_record := conformant_value_changed_sint_record;
     rv_detail_json := q "{
  'eventName': 'ValueChanged',
  'schemaExpected': 'accept',
  'fields': {
    'sourceTime': 1000000050,
    'runId': 1,
    'seq': 6,
    'sourceId': 66,
    'eventTypeId': '0x0002'
  },
  'slots': [
    { 'key': '0x000D', 'type': 'UDInt', 'name': 'valueId', 'value': 2004 },
    { 'key': '0x0010', 'type': 'SInt', 'name': 'newValue', 'value': -5 }
  ]
}" |}.
Definition conformant_value_changed_usint_vector : RecordVector :=
  {| rv_stem := "conformant_value_changed_usint"; rv_description := "definition-layer positive ValueChanged record carrying a USINT newValue";
     rv_record := conformant_value_changed_usint_record;
     rv_detail_json := q "{
  'eventName': 'ValueChanged',
  'schemaExpected': 'accept',
  'fields': {
    'sourceTime': 1000000060,
    'runId': 1,
    'seq': 7,
    'sourceId': 66,
    'eventTypeId': '0x0002'
  },
  'slots': [
    { 'key': '0x000D', 'type': 'UDInt', 'name': 'valueId', 'value': 2005 },
    { 'key': '0x0010', 'type': 'USInt', 'name': 'newValue', 'value': 250 }
  ]
}" |}.
Definition conformant_value_changed_int_vector : RecordVector :=
  {| rv_stem := "conformant_value_changed_int"; rv_description := "definition-layer positive ValueChanged record carrying an INT newValue";
     rv_record := conformant_value_changed_int_record;
     rv_detail_json := q "{
  'eventName': 'ValueChanged',
  'schemaExpected': 'accept',
  'fields': {
    'sourceTime': 1000000070,
    'runId': 1,
    'seq': 8,
    'sourceId': 66,
    'eventTypeId': '0x0002'
  },
  'slots': [
    { 'key': '0x000D', 'type': 'UDInt', 'name': 'valueId', 'value': 2006 },
    { 'key': '0x0010', 'type': 'Int', 'name': 'newValue', 'value': -1234 }
  ]
}" |}.
Definition conformant_value_changed_uint_vector : RecordVector :=
  {| rv_stem := "conformant_value_changed_uint"; rv_description := "definition-layer positive ValueChanged record carrying a UINT newValue";
     rv_record := conformant_value_changed_uint_record;
     rv_detail_json := q "{
  'eventName': 'ValueChanged',
  'schemaExpected': 'accept',
  'fields': {
    'sourceTime': 1000000080,
    'runId': 1,
    'seq': 9,
    'sourceId': 66,
    'eventTypeId': '0x0002'
  },
  'slots': [
    { 'key': '0x000D', 'type': 'UDInt', 'name': 'valueId', 'value': 2007 },
    { 'key': '0x0010', 'type': 'UInt', 'name': 'newValue', 'value': 1234 }
  ]
}" |}.
Definition conformant_value_changed_udint_vector : RecordVector :=
  {| rv_stem := "conformant_value_changed_udint"; rv_description := "definition-layer positive ValueChanged record carrying a UDINT newValue";
     rv_record := conformant_value_changed_udint_record;
     rv_detail_json := q "{
  'eventName': 'ValueChanged',
  'schemaExpected': 'accept',
  'fields': {
    'sourceTime': 1000000090,
    'runId': 1,
    'seq': 10,
    'sourceId': 66,
    'eventTypeId': '0x0002'
  },
  'slots': [
    { 'key': '0x000D', 'type': 'UDInt', 'name': 'valueId', 'value': 2008 },
    { 'key': '0x0010', 'type': 'UDInt', 'name': 'newValue', 'value': 123456 }
  ]
}" |}.
Definition conformant_value_changed_ulint_vector : RecordVector :=
  {| rv_stem := "conformant_value_changed_ulint"; rv_description := "definition-layer positive ValueChanged record carrying a ULINT newValue";
     rv_record := conformant_value_changed_ulint_record;
     rv_detail_json := q "{
  'eventName': 'ValueChanged',
  'schemaExpected': 'accept',
  'fields': {
    'sourceTime': 1000000100,
    'runId': 1,
    'seq': 11,
    'sourceId': 66,
    'eventTypeId': '0x0002'
  },
  'slots': [
    { 'key': '0x000D', 'type': 'UDInt', 'name': 'valueId', 'value': 2009 },
    { 'key': '0x0010', 'type': 'ULInt', 'name': 'newValue', 'value': 1234567890123 }
  ]
}" |}.
Definition conformant_value_changed_lint_vector : RecordVector :=
  {| rv_stem := "conformant_value_changed_lint"; rv_description := "definition-layer positive ValueChanged record carrying an LINT newValue";
     rv_record := conformant_value_changed_lint_record;
     rv_detail_json := q "{
  'eventName': 'ValueChanged',
  'schemaExpected': 'accept',
  'fields': {
    'sourceTime': 1000000110,
    'runId': 1,
    'seq': 12,
    'sourceId': 66,
    'eventTypeId': '0x0002'
  },
  'slots': [
    { 'key': '0x000D', 'type': 'UDInt', 'name': 'valueId', 'value': 2010 },
    { 'key': '0x0010', 'type': 'LInt', 'name': 'newValue', 'value': -1234567890123 }
  ]
}" |}.
Definition conformant_value_changed_lreal_vector : RecordVector :=
  {| rv_stem := "conformant_value_changed_lreal"; rv_description := "definition-layer positive ValueChanged record carrying an LREAL newValue";
     rv_record := conformant_value_changed_lreal_record;
     rv_detail_json := q "{
  'eventName': 'ValueChanged',
  'schemaExpected': 'accept',
  'fields': {
    'sourceTime': 1000000120,
    'runId': 1,
    'seq': 13,
    'sourceId': 66,
    'eventTypeId': '0x0002'
  },
  'slots': [
    { 'key': '0x000D', 'type': 'UDInt', 'name': 'valueId', 'value': 2011 },
    { 'key': '0x0010', 'type': 'LReal', 'name': 'newValue', 'value': 12.25 }
  ]
}" |}.
Definition conformant_value_changed_string_vector : RecordVector :=
  {| rv_stem := "conformant_value_changed_string"; rv_description := "definition-layer positive ValueChanged record carrying a STRING newValue";
     rv_record := conformant_value_changed_string_record;
     rv_detail_json := q "{
  'eventName': 'ValueChanged',
  'schemaExpected': 'accept',
  'fields': {
    'sourceTime': 1000000130,
    'runId': 1,
    'seq': 14,
    'sourceId': 66,
    'eventTypeId': '0x0002'
  },
  'slots': [
    { 'key': '0x000D', 'type': 'UDInt', 'name': 'valueId', 'value': 2012 },
    { 'key': '0x0010', 'type': 'String', 'name': 'newValue', 'value': 'ready' }
  ]
}" |}.
Definition conformant_message_vector : RecordVector :=
  {| rv_stem := "conformant_message"; rv_description := "definition-layer positive Message record";
     rv_record := conformant_message_record;
     rv_detail_json := q "{
  'eventName': 'Message',
  'schemaExpected': 'accept',
  'fields': {
    'sourceTime': 1000000010,
    'runId': 1,
    'seq': 2,
    'sourceId': 66,
    'eventTypeId': '0x0003'
  },
  'slots': [
    { 'key': '0x0014', 'type': 'UDInt', 'name': 'messageTemplateId', 'value': 1001 },
    { 'key': '0x0015', 'type': 'String', 'name': 'arg', 'value': 'phase ready' },
    { 'key': '0x0008', 'type': 'UInt', 'name': 'severity', 'value': 500 }
  ]
}" |}.
Definition conformant_condition_active_vector : RecordVector :=
  {| rv_stem := "conformant_condition_active"; rv_description := "definition-layer positive ConditionActive record carrying correlation and cause operand";
     rv_record := conformant_condition_active_record;
     rv_detail_json := q "{
  'eventName': 'ConditionActive',
  'schemaExpected': 'accept',
  'fields': {
    'sourceTime': 1000000140,
    'runId': 1,
    'seq': 15,
    'sourceId': 66,
    'eventTypeId': '0x0200'
  },
  'slots': [
    { 'key': '0x0005', 'type': 'UDInt', 'name': 'conditionId', 'value': 9001 },
    { 'key': '0x0006', 'type': 'UInt', 'name': 'conditionClass', 'value': 0 },
    { 'key': '0x0007', 'type': 'UDInt', 'name': 'correlationId', 'value': 77 },
    { 'key': '0x0008', 'type': 'UInt', 'name': 'severity', 'value': 900 },
    { 'key': '0x0009', 'type': 'UDInt', 'name': 'causeOperand', 'value': 1 }
  ]
}" |}.
Definition conformant_condition_cleared_vector : RecordVector :=
  {| rv_stem := "conformant_condition_cleared"; rv_description := "definition-layer positive ConditionCleared record echoing activation correlation";
     rv_record := conformant_condition_cleared_record;
     rv_detail_json := q "{
  'eventName': 'ConditionCleared',
  'schemaExpected': 'accept',
  'fields': {
    'sourceTime': 1000000150,
    'runId': 1,
    'seq': 16,
    'sourceId': 66,
    'eventTypeId': '0x0201'
  },
  'slots': [
    { 'key': '0x0005', 'type': 'UDInt', 'name': 'conditionId', 'value': 9001 },
    { 'key': '0x0006', 'type': 'UInt', 'name': 'conditionClass', 'value': 0 },
    { 'key': '0x0007', 'type': 'UDInt', 'name': 'correlationId', 'value': 77 }
  ]
}" |}.
Definition conformant_condition_acknowledged_vector : RecordVector :=
  {| rv_stem := "conformant_condition_acknowledged"; rv_description := "definition-layer positive ConditionAcknowledged record with ackBy";
     rv_record := conformant_condition_acknowledged_record;
     rv_detail_json := q "{
  'eventName': 'ConditionAcknowledged',
  'schemaExpected': 'accept',
  'fields': {
    'sourceTime': 1000000160,
    'runId': 1,
    'seq': 17,
    'sourceId': 66,
    'eventTypeId': '0x0202'
  },
  'slots': [
    { 'key': '0x0005', 'type': 'UDInt', 'name': 'conditionId', 'value': 9001 },
    { 'key': '0x0007', 'type': 'UDInt', 'name': 'correlationId', 'value': 77 },
    { 'key': '0x001D', 'type': 'String', 'name': 'ackBy', 'value': 'operator-a' }
  ]
}" |}.
Definition conformant_condition_confirmed_vector : RecordVector :=
  {| rv_stem := "conformant_condition_confirmed"; rv_description := "definition-layer positive ConditionConfirmed record with ackBy";
     rv_record := conformant_condition_confirmed_record;
     rv_detail_json := q "{
  'eventName': 'ConditionConfirmed',
  'schemaExpected': 'accept',
  'fields': {
    'sourceTime': 1000000200,
    'runId': 1,
    'seq': 21,
    'sourceId': 66,
    'eventTypeId': '0x0203'
  },
  'slots': [
    { 'key': '0x0005', 'type': 'UDInt', 'name': 'conditionId', 'value': 9001 },
    { 'key': '0x0007', 'type': 'UDInt', 'name': 'correlationId', 'value': 77 },
    { 'key': '0x001D', 'type': 'String', 'name': 'ackBy', 'value': 'operator-a' }
  ]
}" |}.
Definition conformant_condition_shelved_vector : RecordVector :=
  {| rv_stem := "conformant_condition_shelved"; rv_description := "definition-layer positive ConditionShelved record with ackBy and shelveSecs";
     rv_record := conformant_condition_shelved_record;
     rv_detail_json := q "{
  'eventName': 'ConditionShelved',
  'schemaExpected': 'accept',
  'fields': {
    'sourceTime': 1000000170,
    'runId': 1,
    'seq': 18,
    'sourceId': 66,
    'eventTypeId': '0x0204'
  },
  'slots': [
    { 'key': '0x0005', 'type': 'UDInt', 'name': 'conditionId', 'value': 9001 },
    { 'key': '0x0007', 'type': 'UDInt', 'name': 'correlationId', 'value': 77 },
    { 'key': '0x001D', 'type': 'String', 'name': 'ackBy', 'value': 'operator-a' },
    { 'key': '0x001E', 'type': 'UDInt', 'name': 'shelveSecs', 'value': 300 }
  ]
}" |}.
Definition conformant_condition_unshelved_vector : RecordVector :=
  {| rv_stem := "conformant_condition_unshelved"; rv_description := "definition-layer positive ConditionUnshelved record with activation correlation";
     rv_record := conformant_condition_unshelved_record;
     rv_detail_json := q "{
  'eventName': 'ConditionUnshelved',
  'schemaExpected': 'accept',
  'fields': {
    'sourceTime': 1000000210,
    'runId': 1,
    'seq': 22,
    'sourceId': 66,
    'eventTypeId': '0x0205'
  },
  'slots': [
    { 'key': '0x0005', 'type': 'UDInt', 'name': 'conditionId', 'value': 9001 },
    { 'key': '0x0007', 'type': 'UDInt', 'name': 'correlationId', 'value': 77 }
  ]
}" |}.
Definition conformant_condition_suppressed_vector : RecordVector :=
  {| rv_stem := "conformant_condition_suppressed"; rv_description := "definition-layer positive ConditionSuppressed record with reason and no correlation";
     rv_record := conformant_condition_suppressed_record;
     rv_detail_json := q "{
  'eventName': 'ConditionSuppressed',
  'schemaExpected': 'accept',
  'fields': {
    'sourceTime': 1000000180,
    'runId': 1,
    'seq': 19,
    'sourceId': 66,
    'eventTypeId': '0x0206'
  },
  'slots': [
    { 'key': '0x0005', 'type': 'UDInt', 'name': 'conditionId', 'value': 9001 },
    { 'key': '0x001F', 'type': 'String', 'name': 'reason', 'value': 'maintenance' }
  ]
}" |}.
Definition conformant_condition_unsuppressed_vector : RecordVector :=
  {| rv_stem := "conformant_condition_unsuppressed"; rv_description := "definition-layer positive ConditionUnsuppressed record with no correlation";
     rv_record := conformant_condition_unsuppressed_record;
     rv_detail_json := q "{
  'eventName': 'ConditionUnsuppressed',
  'schemaExpected': 'accept',
  'fields': {
    'sourceTime': 1000000220,
    'runId': 1,
    'seq': 23,
    'sourceId': 66,
    'eventTypeId': '0x0207'
  },
  'slots': [
    { 'key': '0x0005', 'type': 'UDInt', 'name': 'conditionId', 'value': 9001 }
  ]
}" |}.
Definition conformant_condition_out_of_service_vector : RecordVector :=
  {| rv_stem := "conformant_condition_out_of_service"; rv_description := "definition-layer positive ConditionOutOfService record with ackBy and no correlation";
     rv_record := conformant_condition_out_of_service_record;
     rv_detail_json := q "{
  'eventName': 'ConditionOutOfService',
  'schemaExpected': 'accept',
  'fields': {
    'sourceTime': 1000000190,
    'runId': 1,
    'seq': 20,
    'sourceId': 66,
    'eventTypeId': '0x0208'
  },
  'slots': [
    { 'key': '0x0005', 'type': 'UDInt', 'name': 'conditionId', 'value': 9001 },
    { 'key': '0x001D', 'type': 'String', 'name': 'ackBy', 'value': 'operator-a' }
  ]
}" |}.
Definition conformant_condition_in_service_vector : RecordVector :=
  {| rv_stem := "conformant_condition_in_service"; rv_description := "definition-layer positive ConditionInService record with no correlation";
     rv_record := conformant_condition_in_service_record;
     rv_detail_json := q "{
  'eventName': 'ConditionInService',
  'schemaExpected': 'accept',
  'fields': {
    'sourceTime': 1000000230,
    'runId': 1,
    'seq': 24,
    'sourceId': 66,
    'eventTypeId': '0x0209'
  },
  'slots': [
    { 'key': '0x0005', 'type': 'UDInt', 'name': 'conditionId', 'value': 9001 }
  ]
}" |}.
Definition conformant_condition_reset_vector : RecordVector :=
  {| rv_stem := "conformant_condition_reset"; rv_description := "definition-layer positive ConditionReset record with ackBy";
     rv_record := conformant_condition_reset_record;
     rv_detail_json := q "{
  'eventName': 'ConditionReset',
  'schemaExpected': 'accept',
  'fields': {
    'sourceTime': 1000000240,
    'runId': 1,
    'seq': 25,
    'sourceId': 66,
    'eventTypeId': '0x020B'
  },
  'slots': [
    { 'key': '0x0005', 'type': 'UDInt', 'name': 'conditionId', 'value': 9001 },
    { 'key': '0x0007', 'type': 'UDInt', 'name': 'correlationId', 'value': 77 },
    { 'key': '0x001D', 'type': 'String', 'name': 'ackBy', 'value': 'operator-a' }
  ]
}" |}.
Definition conformant_condition_commented_vector : RecordVector :=
  {| rv_stem := "conformant_condition_commented"; rv_description := "definition-layer positive ConditionCommented record with required comment before ackBy";
     rv_record := conformant_condition_commented_record;
     rv_detail_json := q "{
  'eventName': 'ConditionCommented',
  'schemaExpected': 'accept',
  'fields': {
    'sourceTime': 1000000250,
    'runId': 1,
    'seq': 26,
    'sourceId': 66,
    'eventTypeId': '0x020A'
  },
  'slots': [
    { 'key': '0x0005', 'type': 'UDInt', 'name': 'conditionId', 'value': 9001 },
    { 'key': '0x0007', 'type': 'UDInt', 'name': 'correlationId', 'value': 77 },
    { 'key': '0x0037', 'type': 'String', 'name': 'comment', 'value': 'operator comment' },
    { 'key': '0x001D', 'type': 'String', 'name': 'ackBy', 'value': 'operator-a' }
  ]
}" |}.
Definition conformant_condition_priority_changed_vector : RecordVector :=
  {| rv_stem := "conformant_condition_priority_changed"; rv_description := "definition-layer positive ConditionPriorityChanged record with required priority fields before ackBy";
     rv_record := conformant_condition_priority_changed_record;
     rv_detail_json := q "{
  'eventName': 'ConditionPriorityChanged',
  'schemaExpected': 'accept',
  'fields': {
    'sourceTime': 1000000260,
    'runId': 1,
    'seq': 27,
    'sourceId': 66,
    'eventTypeId': '0x020C'
  },
  'slots': [
    { 'key': '0x0005', 'type': 'UDInt', 'name': 'conditionId', 'value': 9001 },
    { 'key': '0x002E', 'type': 'UInt', 'name': 'previousPriority', 'value': 600 },
    { 'key': '0x002C', 'type': 'UInt', 'name': 'newPriority', 'value': 900 },
    { 'key': '0x001D', 'type': 'String', 'name': 'ackBy', 'value': 'operator-a' }
  ]
}" |}.
Definition conformant_recipe_loaded_vector : RecordVector :=
  {| rv_stem := "conformant_recipe_loaded"; rv_description := "definition-layer positive RecipeLoaded record";
     rv_record := conformant_recipe_loaded_record;
     rv_detail_json := q "{
  'eventName': 'RecipeLoaded',
  'schemaExpected': 'accept',
  'fields': {
    'sourceTime': 1000000270,
    'runId': 1,
    'seq': 28,
    'sourceId': 66,
    'eventTypeId': '0x0301'
  },
  'slots': [
    { 'key': '0x0023', 'type': 'UDInt', 'name': 'recipeId', 'value': 3001 },
    { 'key': '0x0024', 'type': 'String', 'name': 'recipeVersion', 'value': 'v1.2.3' },
    { 'key': '0x0025', 'type': 'UDInt', 'name': 'batchId', 'value': 4001 }
  ]
}" |}.
Definition conformant_recipe_approved_vector : RecordVector :=
  {| rv_stem := "conformant_recipe_approved"; rv_description := "definition-layer positive RecipeApproved record";
     rv_record := conformant_recipe_approved_record;
     rv_detail_json := q "{
  'eventName': 'RecipeApproved',
  'schemaExpected': 'accept',
  'fields': {
    'sourceTime': 1000000280,
    'runId': 1,
    'seq': 29,
    'sourceId': 66,
    'eventTypeId': '0x0302'
  },
  'slots': [
    { 'key': '0x0023', 'type': 'UDInt', 'name': 'recipeId', 'value': 3001 },
    { 'key': '0x0024', 'type': 'String', 'name': 'recipeVersion', 'value': 'v1.2.3' },
    { 'key': '0x0020', 'type': 'UInt', 'name': 'authResult', 'value': 1 },
    { 'key': '0x001D', 'type': 'String', 'name': 'ackBy', 'value': 'approver-a' }
  ]
}" |}.
Definition conformant_batch_event_vector : RecordVector :=
  {| rv_stem := "conformant_batch_event"; rv_description := "definition-layer positive BatchEvent record";
     rv_record := conformant_batch_event_record;
     rv_detail_json := q "{
  'eventName': 'BatchEvent',
  'schemaExpected': 'accept',
  'fields': {
    'sourceTime': 1000000290,
    'runId': 1,
    'seq': 30,
    'sourceId': 66,
    'eventTypeId': '0x0303'
  },
  'slots': [
    { 'key': '0x0025', 'type': 'UDInt', 'name': 'batchId', 'value': 4001 },
    { 'key': '0x0004', 'type': 'UInt', 'name': 'newState', 'value': 2 },
    { 'key': '0x0023', 'type': 'UDInt', 'name': 'recipeId', 'value': 3001 }
  ]
}" |}.
Definition conformant_material_addition_vector : RecordVector :=
  {| rv_stem := "conformant_material_addition"; rv_description := "definition-layer positive MaterialAddition record";
     rv_record := conformant_material_addition_record;
     rv_detail_json := q "{
  'eventName': 'MaterialAddition',
  'schemaExpected': 'accept',
  'fields': {
    'sourceTime': 1000000300,
    'runId': 1,
    'seq': 31,
    'sourceId': 66,
    'eventTypeId': '0x0304'
  },
  'slots': [
    { 'key': '0x0025', 'type': 'UDInt', 'name': 'batchId', 'value': 4001 },
    { 'key': '0x0026', 'type': 'UDInt', 'name': 'materialId', 'value': 5001 },
    { 'key': '0x0027', 'type': 'LReal', 'name': 'quantity', 'value': 12.25 },
    { 'key': '0x0013', 'type': 'UInt', 'name': 'unit', 'value': 8 }
  ]
}" |}.
Definition conformant_operator_action_vector : RecordVector :=
  {| rv_stem := "conformant_operator_action"; rv_description := "definition-layer positive OperatorAction record";
     rv_record := conformant_operator_action_record;
     rv_detail_json := q "{
  'eventName': 'OperatorAction',
  'schemaExpected': 'accept',
  'fields': {
    'sourceTime': 1000000310,
    'runId': 1,
    'seq': 32,
    'sourceId': 66,
    'eventTypeId': '0x0400'
  },
  'slots': [
    { 'key': '0x000A', 'type': 'UDInt', 'name': 'actionId', 'value': 6001 },
    { 'key': '0x000B', 'type': 'String', 'name': 'actor', 'value': 'operator-a' },
    { 'key': '0x000C', 'type': 'UDInt', 'name': 'contextRef', 'value': 7001 },
    { 'key': '0x000C', 'type': 'UDInt', 'name': 'contextRef', 'value': 7002 },
    { 'key': '0x0020', 'type': 'UInt', 'name': 'authResult', 'value': 0 },
    { 'key': '0x0021', 'type': 'String', 'name': 'workstation', 'value': 'station-1' }
  ]
}" |}.
Definition conformant_operator_login_vector : RecordVector :=
  {| rv_stem := "conformant_operator_login"; rv_description := "definition-layer positive OperatorLogin record";
     rv_record := conformant_operator_login_record;
     rv_detail_json := q "{
  'eventName': 'OperatorLogin',
  'schemaExpected': 'accept',
  'fields': {
    'sourceTime': 1000000320,
    'runId': 1,
    'seq': 33,
    'sourceId': 66,
    'eventTypeId': '0x0401'
  },
  'slots': [
    { 'key': '0x000B', 'type': 'String', 'name': 'actor', 'value': 'operator-a' },
    { 'key': '0x0020', 'type': 'UInt', 'name': 'authResult', 'value': 0 },
    { 'key': '0x0021', 'type': 'String', 'name': 'workstation', 'value': 'station-1' },
    { 'key': '0x0033', 'type': 'UInt', 'name': 'role', 'value': 3 }
  ]
}" |}.
Definition conformant_operator_logout_vector : RecordVector :=
  {| rv_stem := "conformant_operator_logout"; rv_description := "definition-layer positive OperatorLogout record";
     rv_record := conformant_operator_logout_record;
     rv_detail_json := q "{
  'eventName': 'OperatorLogout',
  'schemaExpected': 'accept',
  'fields': {
    'sourceTime': 1000000330,
    'runId': 1,
    'seq': 34,
    'sourceId': 66,
    'eventTypeId': '0x0402'
  },
  'slots': [
    { 'key': '0x000B', 'type': 'String', 'name': 'actor', 'value': 'operator-a' },
    { 'key': '0x0021', 'type': 'String', 'name': 'workstation', 'value': 'station-1' }
  ]
}" |}.
Definition conformant_security_access_failure_vector : RecordVector :=
  {| rv_stem := "conformant_security_access_failure"; rv_description := "definition-layer positive SecurityAccessFailure record";
     rv_record := conformant_security_access_failure_record;
     rv_detail_json := q "{
  'eventName': 'SecurityAccessFailure',
  'schemaExpected': 'accept',
  'fields': {
    'sourceTime': 1000000340,
    'runId': 1,
    'seq': 35,
    'sourceId': 66,
    'eventTypeId': '0x0405'
  },
  'slots': [
    { 'key': '0x000B', 'type': 'String', 'name': 'actor', 'value': 'operator-x' },
    { 'key': '0x0021', 'type': 'String', 'name': 'workstation', 'value': 'station-2' },
    { 'key': '0x001F', 'type': 'String', 'name': 'reason', 'value': 'denied' }
  ]
}" |}.
Definition conformant_parameter_change_real_vector : RecordVector :=
  {| rv_stem := "conformant_parameter_change_real"; rv_description := "definition-layer positive ParameterChange record carrying REAL previous/new values";
     rv_record := conformant_parameter_change_real_record;
     rv_detail_json := q "{
  'eventName': 'ParameterChange',
  'schemaExpected': 'accept',
  'fields': {
    'sourceTime': 1000000350,
    'runId': 1,
    'seq': 36,
    'sourceId': 66,
    'eventTypeId': '0x0403'
  },
  'slots': [
    { 'key': '0x000D', 'type': 'UDInt', 'name': 'valueId', 'value': 2001 },
    { 'key': '0x000F', 'type': 'Real', 'name': 'previousValue', 'value': 12.5 },
    { 'key': '0x0010', 'type': 'Real', 'name': 'newValue', 'value': 13.75 },
    { 'key': '0x000B', 'type': 'String', 'name': 'actor', 'value': 'operator-a' },
    { 'key': '0x001F', 'type': 'String', 'name': 'reason', 'value': 'setpoint change' },
    { 'key': '0x0020', 'type': 'UInt', 'name': 'authResult', 'value': 0 }
  ]
}" |}.
Definition conformant_parameter_change_dint_vector : RecordVector :=
  {| rv_stem := "conformant_parameter_change_dint"; rv_description := "definition-layer positive ParameterChange record carrying DINT previous/new values";
     rv_record := conformant_parameter_change_dint_record;
     rv_detail_json := q "{
  'eventName': 'ParameterChange',
  'schemaExpected': 'accept',
  'fields': {
    'sourceTime': 1000000360,
    'runId': 1,
    'seq': 37,
    'sourceId': 66,
    'eventTypeId': '0x0403'
  },
  'slots': [
    { 'key': '0x000D', 'type': 'UDInt', 'name': 'valueId', 'value': 2002 },
    { 'key': '0x000F', 'type': 'DInt', 'name': 'previousValue', 'value': 40 },
    { 'key': '0x0010', 'type': 'DInt', 'name': 'newValue', 'value': 42 },
    { 'key': '0x000B', 'type': 'String', 'name': 'actor', 'value': 'operator-a' },
    { 'key': '0x001F', 'type': 'String', 'name': 'reason', 'value': 'count corrected' }
  ]
}" |}.
Definition conformant_parameter_change_bool_vector : RecordVector :=
  {| rv_stem := "conformant_parameter_change_bool"; rv_description := "definition-layer positive ParameterChange record carrying BOOL previous/new values through the bits path";
     rv_record := conformant_parameter_change_bool_record;
     rv_detail_json := q "{
  'eventName': 'ParameterChange',
  'schemaExpected': 'accept',
  'fields': {
    'sourceTime': 1000000370,
    'runId': 1,
    'seq': 38,
    'sourceId': 66,
    'eventTypeId': '0x0403'
  },
  'slots': [
    { 'key': '0x000D', 'type': 'UDInt', 'name': 'valueId', 'value': 2003 },
    { 'key': '0x000F', 'type': 'Bool', 'name': 'previousValue', 'value': false },
    { 'key': '0x0010', 'type': 'Bool', 'name': 'newValue', 'value': true },
    { 'key': '0x000B', 'type': 'String', 'name': 'actor', 'value': 'operator-b' },
    { 'key': '0x001F', 'type': 'String', 'name': 'reason', 'value': 'enable audit' }
  ]
}" |}.
Definition conformant_parameter_change_string_vector : RecordVector :=
  {| rv_stem := "conformant_parameter_change_string"; rv_description := "definition-layer positive ParameterChange record carrying STRING previous/new values";
     rv_record := conformant_parameter_change_string_record;
     rv_detail_json := q "{
  'eventName': 'ParameterChange',
  'schemaExpected': 'accept',
  'fields': {
    'sourceTime': 1000000380,
    'runId': 1,
    'seq': 39,
    'sourceId': 66,
    'eventTypeId': '0x0403'
  },
  'slots': [
    { 'key': '0x000D', 'type': 'UDInt', 'name': 'valueId', 'value': 2012 },
    { 'key': '0x000F', 'type': 'String', 'name': 'previousValue', 'value': 'manual' },
    { 'key': '0x0010', 'type': 'String', 'name': 'newValue', 'value': 'auto' },
    { 'key': '0x000B', 'type': 'String', 'name': 'actor', 'value': 'operator-c' },
    { 'key': '0x001F', 'type': 'String', 'name': 'reason', 'value': 'mode note' },
    { 'key': '0x0020', 'type': 'UInt', 'name': 'authResult', 'value': 1 }
  ]
}" |}.
Definition conformant_e_signature_vector : RecordVector :=
  {| rv_stem := "conformant_e_signature"; rv_description := "definition-layer positive ESignature record";
     rv_record := conformant_e_signature_record;
     rv_detail_json := q "{
  'eventName': 'ESignature',
  'schemaExpected': 'accept',
  'fields': {
    'sourceTime': 1000000390,
    'runId': 1,
    'seq': 40,
    'sourceId': 66,
    'eventTypeId': '0x0404'
  },
  'slots': [
    { 'key': '0x000A', 'type': 'UDInt', 'name': 'actionId', 'value': 6002 },
    { 'key': '0x000B', 'type': 'String', 'name': 'actor', 'value': 'signer-a' },
    { 'key': '0x0022', 'type': 'UInt', 'name': 'signatureMeaning', 'value': 2 },
    { 'key': '0x002F', 'type': 'ULInt', 'name': 'signedEventSeq', 'value': 37 },
    { 'key': '0x0020', 'type': 'UInt', 'name': 'authResult', 'value': 0 }
  ]
}" |}.
Definition conformant_records_dropped_vector : RecordVector :=
  {| rv_stem := "conformant_records_dropped"; rv_description := "definition-layer positive RecordsDropped record";
     rv_record := conformant_records_dropped_record;
     rv_detail_json := q "{
  'eventName': 'RecordsDropped',
  'schemaExpected': 'accept',
  'fields': {
    'sourceTime': 0,
    'runId': 9,
    'seq': 100,
    'sourceId': 66,
    'eventTypeId': '0x0104'
  },
  'slots': [
    { 'key': '0x0016', 'type': 'UDInt', 'name': 'count', 'value': 18 },
    { 'key': '0x0017', 'type': 'ULInt', 'name': 'firstLostSeq', 'value': 40 },
    { 'key': '0x0018', 'type': 'ULInt', 'name': 'lastLostSeq', 'value': 57 },
    { 'key': '0x0019', 'type': 'DateTime', 'name': 'windowStart', 'value': 1000000000 },
    { 'key': '0x001A', 'type': 'DateTime', 'name': 'windowEnd', 'value': 1000010000 }
  ]
}" |}.
Definition conformant_source_high_water_vector : RecordVector :=
  {| rv_stem := "conformant_source_high_water"; rv_description := "definition-layer positive SourceHighWater record";
     rv_record := conformant_source_high_water_record;
     rv_detail_json := q "{
  'eventName': 'SourceHighWater',
  'schemaExpected': 'accept',
  'fields': {
    'sourceTime': 0,
    'runId': 1,
    'seq': 5,
    'sourceId': 88,
    'eventTypeId': '0x0108'
  },
  'slots': [
    { 'key': '0x0038', 'type': 'ULInt', 'name': 'producedCount', 'value': 5 }
  ]
}" |}.
Definition records_dropped_vector : RecordVector :=
  {| rv_stem := "records_dropped"; rv_description := "canonical RecordsDropped record";
     rv_record := records_dropped_vector_record;
     rv_detail_json := q "{
  'eventName': 'RecordsDropped',
  'fields': {
    'sourceTime': 0,
    'runId': 9,
    'seq': 44,
    'sourceId': 42,
    'eventTypeId': '0x0104'
  },
  'slots': [
    { 'key': '0x0016', 'type': 'UDInt', 'name': 'droppedCount', 'value': 5 },
    { 'key': '0x0017', 'type': 'ULInt', 'name': 'firstLostSeq', 'value': 100 },
    { 'key': '0x0018', 'type': 'ULInt', 'name': 'lastLostSeq', 'value': 104 }
  ]
}" |}.
Definition source_high_water_vector : RecordVector :=
  {| rv_stem := "source_high_water"; rv_description := "per-source SourceHighWater checkpoint";
     rv_record := source_high_water_record;
     rv_detail_json := q "{
  'eventName': 'SourceHighWater',
  'fields': {
    'sourceTime': 0,
    'runId': 1,
    'seq': 5,
    'sourceId': 88,
    'eventTypeId': '0x0108'
  },
  'slots': [
    { 'key': '0x0038', 'type': 'ULInt', 'name': 'producedCount', 'value': 5 }
  ]
}" |}.
Definition minimal_message_vector : RecordVector :=
  {| rv_stem := "minimal_message"; rv_description := "minimal valid Message record carrying a messageTemplateId";
     rv_record := minimal_message_record;
     rv_detail_json := q "{
  'eventName': 'Message',
  'fields': {
    'sourceTime': 1780000000000000003,
    'runId': 1,
    'seq': 3,
    'sourceId': 7,
    'eventTypeId': '0x0003'
  },
  'slots': [
    { 'key': '0x0014', 'type': 'UDInt', 'name': 'messageTemplateId', 'value': 1001 }
  ]
}" |}.
Definition logger_stopped_vector : RecordVector :=
  {| rv_stem := "logger_stopped"; rv_description := "LoggerStopped lifecycle record";
     rv_record := logger_stopped_record;
     rv_detail_json := q "{
  'eventName': 'LoggerStopped',
  'systemSourceSeq': 0,
  'fields': {
    'sourceTime': 0,
    'runId': 1,
    'seq': 0,
    'sourceId': 0,
    'eventTypeId': '0x0102'
  },
  'slots': []
}" |}.
Definition definition_changed_vector : RecordVector :=
  {| rv_stem := "definition_changed"; rv_description := "DefinitionChanged lifecycle record with epoch.rs emission slot order";
     rv_record := definition_changed_record;
     rv_detail_json := q "{
  'eventName': 'DefinitionChanged',
  'systemSourceSeq': 1,
  'fields': {
    'sourceTime': 0,
    'runId': 1,
    'seq': 1,
    'sourceId': 0,
    'eventTypeId': '0x0106'
  },
  'slots': [
    { 'key': '0x0039', 'type': 'Bytes', 'name': 'defHashOld', 'value': 'oldhash1', 'order': 1 },
    { 'key': '0x001C', 'type': 'Bytes', 'name': 'defHashNew', 'value': 'newhash2', 'order': 2 },
    { 'key': '0x003A', 'type': 'ULInt', 'name': 'epochId', 'value': 2, 'order': 3 }
  ],
  'slotOrderNote': 'Matches epoch.rs emit_definition_changed: old, new, epoch; not numeric key order.'
}" |}.
Definition logger_started_warm_vector : RecordVector :=
  {| rv_stem := "logger_started_warm"; rv_description := "LoggerStarted warm lifecycle record";
     rv_record := logger_started_warm_record;
     rv_detail_json := q "{
  'eventName': 'LoggerStarted',
  'systemSourceSeq': 2,
  'fields': {
    'sourceTime': 0,
    'runId': 1,
    'seq': 2,
    'sourceId': 0,
    'eventTypeId': '0x0101'
  },
  'slots': [
    { 'key': '0x003B', 'type': 'Bool', 'name': 'coldStart', 'value': false }
  ]
}" |}.
Definition logger_started_cold_vector : RecordVector :=
  {| rv_stem := "logger_started_cold"; rv_description := "LoggerStarted cold lifecycle record after system sequence reset";
     rv_record := logger_started_cold_record;
     rv_detail_json := q "{
  'eventName': 'LoggerStarted',
  'systemSourceSeq': 0,
  'fields': {
    'sourceTime': 0,
    'runId': 2,
    'seq': 0,
    'sourceId': 0,
    'eventTypeId': '0x0101'
  },
  'slots': [
    { 'key': '0x003B', 'type': 'Bool', 'name': 'coldStart', 'value': true }
  ],
  'systemSeqNote': 'finish_cold_start resets system_seq before emitting LoggerStarted.'
}" |}.

Definition record_vectors : list RecordVector :=
  [state_transition_vector;
   conformant_state_transition_vector;
   conformant_value_changed_real_vector;
   conformant_value_changed_dint_vector;
   conformant_value_changed_bool_vector;
   conformant_value_changed_sint_vector;
   conformant_value_changed_usint_vector;
   conformant_value_changed_int_vector;
   conformant_value_changed_uint_vector;
   conformant_value_changed_udint_vector;
   conformant_value_changed_ulint_vector;
   conformant_value_changed_lint_vector;
   conformant_value_changed_lreal_vector;
   conformant_value_changed_string_vector;
   conformant_message_vector;
   conformant_condition_active_vector;
   conformant_condition_cleared_vector;
   conformant_condition_acknowledged_vector;
   conformant_condition_confirmed_vector;
   conformant_condition_shelved_vector;
   conformant_condition_unshelved_vector;
   conformant_condition_suppressed_vector;
   conformant_condition_unsuppressed_vector;
   conformant_condition_out_of_service_vector;
   conformant_condition_in_service_vector;
   conformant_condition_reset_vector;
   conformant_condition_commented_vector;
   conformant_condition_priority_changed_vector;
   conformant_recipe_loaded_vector;
   conformant_recipe_approved_vector;
   conformant_batch_event_vector;
   conformant_material_addition_vector;
   conformant_operator_action_vector;
   conformant_operator_login_vector;
   conformant_operator_logout_vector;
   conformant_security_access_failure_vector;
   conformant_parameter_change_real_vector;
   conformant_parameter_change_dint_vector;
   conformant_parameter_change_bool_vector;
   conformant_parameter_change_string_vector;
   conformant_e_signature_vector;
   conformant_records_dropped_vector;
   conformant_source_high_water_vector;
   records_dropped_vector;
   source_high_water_vector;
   minimal_message_vector;
   logger_stopped_vector;
   definition_changed_vector;
   logger_started_warm_vector;
   logger_started_cold_vector].

(** ** All files *)
Definition generate_files {BP : BuildProfile} {E} : res E (list VectorFile) :=
  let files := push "README.md" readme [] in
  files ← for_each push_record_vector record_vectors files;
  files ← push_control_block_vectors files;
  files ← push_wrap_marker_boundary files;
  files ← push_torn_record files;
  push_overflow_records_dropped files.

(** ** Reading a dump *)
Definition hex_value (a : ascii) : Z :=
  let n := Z.of_N (N_of_ascii a) in if decide (n < 65) then n - 48 else n - 55.
(** The byte of a word of two digits, as the tests of the crates read it. *)
Definition from_hex (w : string) : Z :=
  match w with String a (String b EmptyString) => 16 * hex_value a + hex_value b | _ => -1 end.
Definition hex_bytes (text : string) : list Z := from_hex <$> split_whitespace text.

Definition hex_word (b : Z) : Prop := word (upper_hex 2 b) ∧ from_hex (upper_hex 2 b) = b.
Lemma byte_hex_word b : is_u8 b → hex_word b.
Proof.
  intros Hb. assert (Hall : Forall hex_word (seqZ 0 256)) by by_compute. rewrite Forall_forall in Hall.
  apply Hall, elem_of_seqZ. unfold fits in Hb. lia.
Qed.

(** What follows the byte at an index. *)
Fixpoint dump_rest (i : nat) (bs : bytes) : string :=
  match bs with
  | [] => String newline ""
  | b :: bs => separator i +:+ upper_hex 2 b +:+ dump_rest (Datatypes.S i) bs
  end.

Lemma foldl_dump bs : ∀ (i : nat) out,
  foldl (λ out '(index, byte), out +:+ separator index +:+ upper_hex 2 byte) out (imap (λ k b, (i + k, b)%nat) bs) +:+ String newline ""
  = (out +:+ dump_rest i bs)%string.
Proof.
  induction bs as [|b bs IH]; intros i out; [done|]. rewrite imap_cons. cbn [foldl dump_rest]. rewrite Nat.add_0_r.
  rewrite (imap_ext _ (λ k b, (Datatypes.S i + k, b)%nat)) by (intros k x _; cbn; by rewrite Nat.add_succ_r).
  rewrite IH. by rewrite !string_app_assoc.
Qed.

Lemma split_dump bs : ∀ (i : nat) w, (0 < i)%nat → word w → Forall (λ b, word (upper_hex 2 b)) bs →
  split_go (w +:+ dump_rest i bs) 0 "" = w :: (upper_hex 2 <$> bs).
Proof.
  induction bs as [|b bs IH]; intros i w Hi [Hw Hs] Hf; cbn [dump_rest].
  - destruct (split_word w newline (or_intror eq_refl) "" "" Hs) as [-> _]. change ("" +:+ w)%string with w. by rewrite flush_word.
  - apply Forall_cons_1 in Hf as [Hb Hf]. unfold separator. rewrite decide_True by done.
    assert (Hsep : ∀ a r, separates a → split_go (w +:+ (String a "" +:+ r)) 0 "" = w :: split_go r 0 "").
    { intros a r Ha. change (String a "" +:+ r)%string with (String a r).
      destruct (split_word w a Ha "" r Hs) as [-> _]. change ("" +:+ w)%string with w. by rewrite flush_word. }
    rewrite fmap_cons, <-(IH (Datatypes.S i)) by (done || lia). case_decide; apply Hsep; [by right|by left].
Qed.

(** The dump of bytes is read back, whatever they are. *)
Lemma hex_dump_roundtrip bs : bytes_ok bs → hex_bytes (hex_dump bs) = bs.
Proof.
  intros Hb. unfold hex_bytes, hex_dump, split_whitespace. pose proof (foldl_dump bs 0 "") as Hd. cbn [Nat.add] in Hd.
  rewrite (imap_ext pair (λ k b, (k, b))) by done. rewrite Hd. destruct bs as [|b bs]; [done|]. cbn [dump_rest].
  apply Forall_cons_1 in Hb as [Hb Hbs]. change ("" +:+ separator 0 +:+ upper_hex 2 b +:+ dump_rest 1 bs)%string
    with (upper_hex 2 b +:+ dump_rest 1 bs)%string.
  rewrite split_dump; [|lia|by apply byte_hex_word|eapply Forall_impl; [exact Hbs|]; intros x Hx; by apply byte_hex_word].
  rewrite !fmap_cons. f_equal; [by apply byte_hex_word|]. rewrite <-list_fmap_compose. rewrite <-(list_fmap_id bs) at 2.
  apply list_fmap_ext. intros i x Hx. apply byte_hex_word. rewrite Forall_lookup in Hbs. by apply (Hbs i).
Qed.

(** ** What a manifest says of its record *)
Definition type_name (ty : u8) : string := from_option ts_name "?" (tlv_type_spec ty).
Definition field_name (key : u16) : string := from_option fs_name "?" (field_spec key).

(** The value of a slot as a manifest shows it; floats are not shown here. *)
Definition shown_value (s : Slot) : string :=
  let v := from_le_bytes (slot_payload s) in
  let w := 8 * Z.of_nat (length (slot_payload s)) in
  if decide (slot_ty s = TY_BOOL) then show_bool (bool_decide (v ≠ 0))
  else if decide (slot_ty s = TY_STRING ∨ slot_ty s = TY_BYTES) then q "'" +:+ string_of_bytes (slot_payload s) +:+ q "'"
  else if decide (slot_ty s = TY_REAL ∨ slot_ty s = TY_LREAL) then ""
  else if decide ((slot_ty s = TY_SINT ∨ slot_ty s = TY_INT ∨ slot_ty s = TY_DINT ∨ slot_ty s = TY_LINT) ∧ 2 ^ (w - 1) ≤ v)
  then "-" +:+ dec (2 ^ w - v)
  else dec v.

Definition slot_line (s : Slot) : string :=
  q "    { 'key': '0x" +:+ upper_hex 4 (slot_key s) +:+ q "', 'type': '" +:+ type_name (slot_ty s) +:+ q "', 'name': '"
  +:+ field_name (slot_key s) +:+ q "', 'value': " +:+ shown_value s.
Definition record_lines (r : WireRecord) : list string :=
  [q "  'eventName': '" +:+ from_option es_name "?" (event_spec (rec_event_type_id r)) +:+ q "',";
   q "    'sourceTime': " +:+ dec (rec_source_time r) +:+ ",";
   q "    'runId': " +:+ dec (rec_run_id r) +:+ ",";
   q "    'seq': " +:+ dec (rec_seq r) +:+ ",";
   q "    'sourceId': " +:+ dec (rec_source_id r) +:+ ",";
   q "    'eventTypeId': '0x" +:+ upper_hex 4 (rec_event_type_id r) +:+ q "'"].

(** The lines about slots, and the one that names the outcome of a schema check. *)
Definition slot_lines (v : RecordVector) : list string :=
  filter (λ l, String.prefix (q "    { 'key'") l = true) (lines (rv_detail_json v)).
Definition rejecting (v : RecordVector) : Prop := q "  'schemaExpected': 'reject'," ∈ lines (rv_detail_json v).

(** The line of a slot; that of a float is not checked past its name. *)
Definition shows (s : Slot) (l : string) : Prop :=
  if decide (slot_ty s = TY_REAL ∨ slot_ty s = TY_LREAL) then String.prefix (slot_line s) l = true
  else String.prefix (slot_line s +:+ " }") l = true ∨ String.prefix (slot_line s +:+ ",") l = true.
#[local] Instance shows_dec s l : Decision (shows s l).
Proof. unfold shows. case_decide; apply _. Defined.

(** The manifest names the envelope, and every slot in order with its key,
    type, registry name and value. *)
Definition described (v : RecordVector) : Prop :=
  Forall (λ l, l ∈ lines (rv_detail_json v)) (record_lines (rv_record v))
  ∧ Forall2 shows (rec_slots (rv_record v)) (slot_lines v).

(** Against the sample definition, with its checksum. *)
Definition valid (v : RecordVector) : Prop :=
  match encoded_record_len (record_with_crc (rv_record v)) with
  | Ok len => match schema_validate_record (rv_record v) len sample with Ok (Valid _) => True | _ => False end
  | _ => False
  end.
Definition first_slot_mistyped (v : RecordVector) : Prop :=
  match encoded_record_len (record_with_crc (rv_record v)) with
  | Ok len => match schema_validate_record (rv_record v) len sample with
              | Ok (Placeholder p) =>
                  match ph_reason p with
                  | TypeMismatch key actual expected => key = KEY_STATE_MACHINE_ID ∧ actual = TY_UINT ∧ expected = TY_UDINT
                  | _ => False
                  end
              | _ => False
              end
  | _ => False
  end.

(** ** The generated files *)
#[local] Instance VectorFile_eq_dec : EqDecision VectorFile.
Proof. solve_decision. Defined.
#[local] Instance rejecting_dec v : Decision (rejecting v).
Proof. unfold rejecting. apply _. Defined.
#[local] Instance described_dec v : Decision (described v).
Proof. unfold described. apply _. Defined.
#[local] Instance valid_dec v : Decision (valid v).
Proof. unfold valid. destruct (encoded_record_len _); [|apply _..]. destruct (schema_validate_record _ _ _) as [[]| | |]; apply _. Defined.
#[local] Instance mistyped_dec v : Decision (first_slot_mistyped v).
Proof.
  unfold first_slot_mistyped. destruct (encoded_record_len _); [|apply _..].
  destruct (schema_validate_record _ _ _) as [[|p]| | |]; try apply _. destruct (ph_reason p); apply _.
Defined.

(** The two older codec fixtures: one shows no slot names, one gives a slot
    another name than the registry's. *)
Definition codec_stems : list string := ["state_transition"; "records_dropped"]%string.

Definition judged (v : RecordVector) : Prop :=
  (if decide (rejecting v) then first_slot_mistyped v else valid v) ∧ (rv_stem v ∉ codec_stems → described v).
#[local] Instance judged_dec v : Decision (judged v).
Proof. unfold judged. case_decide; apply _. Defined.
Definition hex_file (v : RecordVector) (bs : bytes) : VectorFile :=
  {| vf_path := rv_stem v +:+ ".hex"; vf_contents := hex_dump bs |}.

(** The files are generated, and each hex file holds the encoded record. *)
Definition files_ok (files : list VectorFile) : Prop :=
  length files = 115%nat ∧ NoDup (vf_path <$> files)
  ∧ Forall (λ v, match encode (rv_record v) true with
                 | Ok bs => hex_file v bs ∈ files ∧ bytes_ok bs
                 | _ => False
                 end) record_vectors.
#[local] Instance files_ok_dec files : Decision (files_ok files).
Proof.
  unfold files_ok. assert (∀ v, Decision (match encode (rv_record v) true with Ok bs => hex_file v bs ∈ files ∧ bytes_ok bs | _ => False end)).
  { intros v. destruct (encode _ _); apply _. }
  apply _.
Defined.
Definition checked_files {E} (m : res E (list VectorFile)) : bool :=
  match m with Ok files => @bool_decide (files_ok files) (files_ok_dec files) | _ => false end.
Lemma checked_files_ok {E} (m : res E (list VectorFile)) : checked_files m = true → ∃ files, m = Ok files ∧ files_ok files.
Proof.
  destruct m as [files|e| |]; try discriminate. unfold checked_files. intros H. exists files. split; [done|].
  by apply (@bool_decide_eq_true _ (files_ok_dec files)).
Qed.
Lemma generation_checked {BP : BuildProfile} {E} : checked_files (generate_files (E := E)) = true.
Proof. destruct BP; vm_compute; exact eq_refl. Qed.
Lemma hex_files_read (l : list RecordVector) (files : list VectorFile) :
  Forall (λ v, match encode (rv_record v) true with Ok bs => hex_file v bs ∈ files ∧ bytes_ok bs | _ => False end) l →
  Forall judged l →
  Forall (λ v, judged v ∧ ∃ bs text, encode (rv_record v) true = Ok bs ∧ hex_bytes text = bs
               ∧ {| vf_path := rv_stem v +:+ ".hex"; vf_contents := text |} ∈ files) l.
Proof.
  intros Hf. induction Hf as [|v l Hv _ IH]; intros Hj; [constructor|]. apply Forall_cons_1 in Hj as [Hjv Hj].
  constructor; [|by apply IH]. split; [done|]. destruct (encode (rv_record v) true) as [bs|e| |]; [|done..]. destruct Hv as [Hin Hb].
  exists bs, (hex_dump bs). split_and!; [done|by apply hex_dump_roundtrip|exact Hin].
Qed.
Lemma vectors_judged : Forall judged record_vectors.
Proof. by_compute. Qed.

(** The generator run: it panics nowhere, under either profile, so every
    assertion of it holds, and gives 115 files with different paths. For each of
    the 50 record vectors the hex file, read back, is the encoding of the record;
    the record is valid against the sample definition unless its manifest says it
    is to be rejected, and then it is rejected for the type of its first slot;
    and but for two codec fixtures the manifest names the record's envelope and,
    slot by slot, its keys, types, names and values (the values of floats are
    not looked at). *)
Example generated_vectors {BP : BuildProfile} {E} : ∃ files,
  generate_files (E := E) = Ok files ∧ length files = 115%nat ∧ NoDup (vf_path <$> files)
  ∧ Forall (λ v, judged v ∧ ∃ bs text, encode (rv_record v) true = Ok bs ∧ hex_bytes text = bs
                 ∧ {| vf_path := rv_stem v +:+ ".hex"; vf_contents := text |} ∈ files) record_vectors.
Proof.
  destruct (checked_files_ok _ (generation_checked (E := E))) as (files & Hg & Hl & Hn & Hf). exists files.
  split; [exact Hg|]. split; [exact Hl|]. split; [exact Hn|]. exact (hex_files_read record_vectors files Hf vectors_judged).
Qed.

(** ** Record vectors in general *)

(** What a record of the source is: numbers of their widths and bytes. *)
Definition typed (r : WireRecord) : Prop :=
  is_u16 (rec_flags r) ∧ is_u64 (rec_source_time r) ∧ is_u64 (rec_run_id r) ∧ is_u64 (rec_seq r)
  ∧ is_u32 (rec_source_id r) ∧ is_u32 (rec_event_type_id r)
  ∧ Forall (λ s, is_u16 (slot_key s) ∧ is_u8 (slot_ty s) ∧ bytes_ok (slot_payload s)) (rec_slots r).
#[local] Instance typed_dec r : Decision (typed r).
Proof. unfold typed. apply _. Defined.

(** The stems that have file names, and vectors files can be made for. *)
Definition stems : list string := hex_paths.*1.
Definition encodable (r : WireRecord) : Prop :=
  Forall (λ s, (length (slot_payload s) ≤ 255)%nat) (rec_slots r) ∧ Z.of_nat (record_len (rec_slots r) true) ≤ U16_MAX.
Definition producible (v : RecordVector) : Prop := encodable (rv_record v) ∧ rv_stem v ∈ stems.
#[local] Instance producible_dec v : Decision (producible v).
Proof. unfold producible, encodable. apply _. Defined.

(** The manifest of a vector whose record is encoded as [bs]. *)
Definition manifest (v : RecordVector) (bs : bytes) : string :=
  q "{
  'name': '" +:+ rv_stem v +:+ q "',
  'description': '" +:+ rv_description v +:+ q "',
  'kind': 'record',
  'encoding': 'wire-v2',
  'expected': 'accept',
  'hexFile': '" +:+ rv_stem v +:+ q ".hex',
  'byteCount': " +:+ dec (Z.of_nat (length bs)) +:+ q ",
  'headerLength': 40,
  'totalRecordLength': " +:+ dec (Z.of_nat (length bs)) +:+ q ",
  'flags': '0x" +:+ upper_hex 4 (crc_flags (rec_flags (rv_record v)) true) +:+ q "',
  'crc32c': '0x" +:+ upper_hex 8 (crc32c (take (length bs - 4) bs)) +:+ q "',
  'detail': " +:+ indent_json (rv_detail_json v) 2 +:+ "
}
".

(** The two files of a vector. *)
Definition written (v : RecordVector) (files : list VectorFile) : Prop :=
  ∃ bs hex,
    files = [{| vf_path := rv_stem v +:+ ".hex"; vf_contents := hex |}; {| vf_path := rv_stem v +:+ ".json"; vf_contents := manifest v bs |}]
    ∧ hex_bytes hex = bs ∧ encode (rv_record v) true = Ok bs
    ∧ decode bs = Ok {| dec_record := record_with_crc (rv_record v); dec_consumed := length bs |}.

Lemma stem_paths {E} stem :
  (hex_path (E:=E) stem, json_path (E:=E) stem)
  = if decide (stem ∈ stems) then (Ok (stem +:+ ".hex"), Ok (stem +:+ ".json")) else (Panic, Panic).
Proof.
  assert (Hp : ∀ ext l, lookup_path stem ((λ s, (s, s +:+ ext)) <$> l) = if decide (stem ∈ l) then Some (stem +:+ ext) else None).
  { intros ext l. induction l as [|s l IH]; cbn [fmap list_fmap lookup_path]; [by rewrite decide_False by apply not_elem_of_nil|].
    destruct (decide (stem = s)) as [->|Hs]; [by rewrite decide_True by left|]. rewrite IH.
    destruct (decide (stem ∈ l)) as [Hin|Hin]; [by rewrite decide_True by (by right)|].
    rewrite decide_False; [done|]. by intros [?|?]%elem_of_cons. }
  unfold hex_path, json_path.
  replace hex_paths with ((λ s, (s, (s +:+ ".hex")%string)) <$> stems) by (vm_compute; reflexivity).
  replace json_paths with ((λ s, (s, (s +:+ ".json")%string)) <$> stems) by (vm_compute; reflexivity).
  rewrite !Hp. by case_decide.
Qed.

Lemma typed_encode r : typed r →
  if decide (encodable r) then record_wf r ∧ encode r true = Ok (enc_record r true) else ∃ e, encode r true = Err e.
Proof.
  intros (H1 & H2 & H3 & H4 & H5 & H6 & H7). rewrite encode_eq. unfold encodable.
  destruct (long_slot (rec_slots r)) as [s|] eqn:Hl.
  - rewrite decide_False; [by eexists|]. intros [Hs _]. apply List.find_some in Hl as [Hin%list_elem_of_In Hlen%bool_decide_eq_true].
    rewrite Forall_forall in Hs. specialize (Hs s Hin). lia.
  - assert (Hs : Forall (λ s, (length (slot_payload s) ≤ 255)%nat) (rec_slots r)).
    { apply Forall_forall. intros s Hs%list_elem_of_In. apply (List.find_none _ _ Hl) in Hs. case_bool_decide; [done|lia]. }
    destruct (decide (U16_MAX < Z.of_nat (record_len (rec_slots r) true))); [rewrite decide_False by lia; by eexists|].
    rewrite decide_True by (split; [done|lia]). split; [|done]. unfold record_wf, slot_wf. split_and!; try done.
    rewrite Forall_forall in Hs, H7 |- *. intros s Hin. destruct (H7 s Hin) as (? & ? & ?). split_and!; auto.
Qed.

(** The fields of an encoded record that its manifest shows. *)
Lemma encoded_fields {E} r : record_wf r → Z.of_nat (record_len (rec_slots r) true) ≤ U16_MAX →
  let bs := enc_record r true in
  read_u16 (E:=E) bs 4 = Ok (Z.of_nat (length bs)) ∧ read_u16 (E:=E) bs 6 = Ok (crc_flags (rec_flags r) true)
  ∧ trailer_crc (E:=E) bs = Ok (crc32c (take (length bs - 4) bs)).
Proof.
  intros Hr Hmax bs. pose proof Hr as (Hf & _). pose proof (length_enc_record r true) as Hlen.
  set (body := enc_body r (record_len (rec_slots r) true) (crc_flags (rec_flags r) true)).
  assert (Hbs : bs = body ++ to_le_bytes 4 (crc32c body)) by done.
  assert (Hb : length body = (length bs - 4)%nat) by (rewrite Hbs, length_app, length_to_le_bytes; lia).
  destruct (body_fields r (record_len (rec_slots r) true) (crc_flags (rec_flags r) true) (to_le_bytes 4 (crc32c body))) as (_ & F4 & F6 & _). fold body in F4, F6. rewrite <-Hbs in F4, F6.
  assert (Hmin : (44 ≤ length bs)%nat) by (unfold bs; rewrite Hlen; unfold record_len, HEADER_LEN, CRC_LEN; lia).
  assert (H16 : ∀ o, (o + 2 ≤ length bs)%nat → read_u16 (E:=E) bs o = Ok (from_le_bytes (seg bs o 2))) by apply Wire.read_u16_ok.
  split_and!.
  - rewrite H16 by lia. rewrite F4, from_to_le_bytes; [by rewrite <-Hlen|].
    unfold fits, U16_MAX in *. lia.
  - rewrite H16 by lia. rewrite F6, from_to_le_bytes; [done|]. by apply crc_flags_u16.
  - unfold trailer_crc. rewrite decide_False, slice_ok by lia. cbn [mbind res_bind].
    rewrite Hbs at 1. rewrite seg_app_r by lia. rewrite Hb, Nat.sub_diag, seg_all by (rewrite length_to_le_bytes; lia).
    rewrite from_to_le_bytes by (apply crc32c_fits, enc_body_ok, Hr). rewrite <-Hb, Hbs at 1. by rewrite take_app_length.
Qed.

Lemma push_record_vector_exact {E} v files : typed (rv_record v) →
  if decide (producible v) then ∃ new, push_record_vector (E:=E) v files = Ok (files ++ new) ∧ written v new
  else push_record_vector (E:=E) v files = Panic.
Proof.
  intros Ht. pose proof (typed_encode _ Ht) as He. pose proof (stem_paths (E:=E) (rv_stem v)) as Hp.
  unfold push_record_vector, producible.
  destruct (decide (encodable (rv_record v))) as [Hok|Hno].
  2: { rewrite decide_False by tauto. by destruct He as [e ->]. }
  destruct He as [Hw He]. pose proof Hok as [_ Hmax]. set (bs := enc_record (rv_record v) true) in *.
  destruct (encoded_fields (E:=E) (rv_record v) Hw Hmax) as (H4 & H6 & Htr).
  assert (Hd : decode bs = Ok {| dec_record := record_with_crc (rv_record v); dec_consumed := length bs |}).
  { pose proof (decode_enc_record (rv_record v) true [] Hw Hmax) as Hdec. by rewrite app_nil_r in Hdec. }
  rewrite He. cbn [expect mbind res_bind]. rewrite Hd. cbn [expect mbind res_bind dec_record]. unfold assert. rewrite (decide_True (P := record_with_crc _ = _)) by done. cbn [mbind res_bind].
  fold bs in H4, H6, Htr. rewrite Htr. cbn [mbind res_bind].
  destruct (decide (rv_stem v ∈ stems)) as [Hs|Hs]; injection Hp as -> ->.
  2: { by rewrite decide_False by tauto. }
  rewrite decide_True by done. cbn [mbind res_bind]. rewrite H4, H6. cbn [mbind res_bind]. eexists. split.
  - unfold push. rewrite <-app_assoc. reflexivity.
  - exists bs, (hex_dump bs). split_and!; [|apply hex_dump_roundtrip, enc_record_ok, Hw|done|done]. reflexivity.
Qed.

(** C24: the files of record vectors: for any vectors, whatever their records,
    stems and texts, generation of their files succeeds exactly when every
    record can be encoded (payloads of at most 255 bytes, at most 65535 bytes in
    all) and every stem is one of the table's, and panics otherwise. It then
    appends, vector by vector, two files named after the stem: a hex dump that
    read back is the encoding of the record, which decodes to the record marked
    as having a checksum, and a manifest whose byte count and total length are
    the length of that encoding, whose flags are the record's with the checksum
    bit, and whose checksum is the CRC-32C of all bytes but the last four. *)
Theorem record_files_exact {E} vs files :
  Forall (λ v, typed (rv_record v)) vs →
  if decide (Forall producible vs)
  then ∃ news, for_each (push_record_vector (E:=E)) vs files = Ok (files ++ mjoin news) ∧ Forall2 written vs news
  else for_each (push_record_vector (E:=E)) vs files = Panic.
Proof.
  intros Ht. revert files. induction Ht as [|v vs Hv _ IH]; intros files.
  - rewrite decide_True by done. exists []. cbn. by rewrite app_nil_r.
  - cbn [for_each]. pose proof (push_record_vector_exact (E:=E) v files Hv) as Hpush.
    destruct (decide (producible v)) as [Hp|Hp].
    + destruct Hpush as (new & -> & Hnew). cbn [mbind res_bind]. specialize (IH (files ++ new)).
      destruct (decide (Forall producible vs)) as [Hps|Hps].
      * rewrite decide_True by by constructor. destruct IH as (news & -> & Hnews). exists (new :: news).
        split; [by rewrite <-app_assoc|by constructor].
      * rewrite decide_False by (intros [_ ?]%Forall_cons_1; tauto). exact IH.
    + rewrite Hpush, decide_False by (intros [? _]%Forall_cons_1; tauto). done.
Qed.

(** A vector no file name is known for. *)
Definition stray_vector : RecordVector :=
  {| rv_stem := "stray"; rv_description := ""; rv_record := minimal_message_record; rv_detail_json := "{}" |}.
Lemma record_files_exact_witness :
  (∃ news, for_each (push_record_vector (E:=RingError)) [minimal_message_vector; conformant_state_transition_vector] []
     = Ok (mjoin news) ∧ Forall2 written [minimal_message_vector; conformant_state_transition_vector] news)
  ∧ for_each (push_record_vector (E:=RingError)) [minimal_message_vector; stray_vector] [] = Panic.
Proof.
  pose proof (record_files_exact (E:=RingError) [minimal_message_vector; conformant_state_transition_vector] []) as H1.
  pose proof (record_files_exact (E:=RingError) [minimal_message_vector; stray_vector] []) as H2.
  rewrite decide_True in H1 by by_compute. rewrite decide_False in H2 by by_compute. split; [apply H1; by_compute|apply H2; by_compute].
Defined.

(** The control block images are accepted and refused as their manifests say. *)
Definition control_outcomes : Prop :=
  match cb_encode control_snapshot 2, cb_encode (with_oldest_abs 256 control_snapshot) 4 with
  | Ok bs, Ok overwrite =>
      decode_with_locks bs 2 2 = Ok control_snapshot
      ∧ decode_with_locks (splice bs 16 (to_le_bytes 4 3)) 3 3 = Err (CbUpdating 3)
      ∧ decode_with_locks bs 2 4 = Err (CbStaleSnapshot 2 4)
      ∧ decode_with_locks overwrite 4 4 = Ok (with_oldest_abs 256 control_snapshot)
  | _, _ => False
  end.
Example control_images : control_outcomes.
Proof. vm_compute. done. Qed.
