(* ===== verification/HarnessArgs.v ===== *)
(** * Live harness: arguments (crates/live-harness/src/main.rs)

    The command line of the harness: the argument parser, the three commands
    and the command lines a run gives to its two children. An argument is its
    bytes. *)
From Stdlib Require Import DecimalString.
From stdpp Require Import strings.
From S2P Require Import Prelude Utf8 Shared Text.
#[local] Open Scope Z_scope.

(** ** Arguments as text *)

(** [OsString] and [PathBuf] on Unix: any bytes. *)
Abbreviation OsString := string (only parsing).

(** The next character: whether it is well formed, and its bytes or those of
    the longest part of a character that it is. *)
Definition char_step (bs : bytes) : bool * nat :=
  let at_ i := default 0 (bs !! i) in
  let b0 := at_ 0%nat in
  if in_range 0 0x7F b0 then (true, 1%nat) else
  if in_range 0xC2 0xDF b0 then if continuation (at_ 1%nat) then (true, 2%nat) else (false, 1%nat) else
  if in_range 0xE0 0xEF b0 then
    if in_range (if decide (b0 = 0xE0) then 0xA0 else 0x80) (if decide (b0 = 0xED) then 0x9F else 0xBF) (at_ 1%nat) then
      if continuation (at_ 2%nat) then (true, 3%nat) else (false, 2%nat)
    else (false, 1%nat) else
  if in_range 0xF0 0xF4 b0 then
    if in_range (if decide (b0 = 0xF0) then 0x90 else 0x80) (if decide (b0 = 0xF4) then 0x8F else 0xBF) (at_ 1%nat) then
      if continuation (at_ 2%nat) then if continuation (at_ 3%nat) then (true, 4%nat) else (false, 3%nat) else (false, 2%nat)
    else (false, 1%nat) else
  (false, 1%nat).

(** Each malformed part becomes U+FFFD; [skip] bytes are already done with. *)
Fixpoint lossy_go (bs : bytes) (skip : nat) : bytes :=
  match bs with
  | [] => []
  | _ :: rest =>
      match skip with
      | Datatypes.S k => lossy_go rest k
      | O => let '(ok, n) := char_step bs in
             (if ok then take n bs else [0xEF; 0xBF; 0xBD]) ++ lossy_go rest (n - 1)
      end
  end.
(** [OsStr::to_string_lossy] and [Path::display]. *)
Definition to_string_lossy (s : OsString) : string := string_of_bytes (lossy_go (string_bytes s) 0).

(** The text [{:?}] gives a list of arguments, which the standard library does
    not fix. *)
Class DebugText := debug_args : list OsString → string.

(** ** Modes *)
Definition DEFAULT_CAP : usize := 4096.
Definition DEFAULT_SOURCES : u32 := 4.
Definition DEFAULT_PER_SOURCE : u64 := 5000.
Definition DEFAULT_POLL_SLEEP_US : u64 := 100.
Definition DEFAULT_TIMEOUT_MS : u64 := 30000.
Definition LITMUS_CAP : usize := 512.
Definition LITMUS_SOURCES : u32 := 1.
Definition LITMUS_PER_SOURCE : u64 := 200000.
Definition DEFAULT_STRESS_ITERATIONS : u64 := 1.

Inductive RunMode := Smoke | Litmus.
#[global] Instance RunMode_eq_dec : EqDecision RunMode.
Proof. solve_decision. Defined.

Definition run_mode_parse (value : string) : res string RunMode :=
  if decide (value = "smoke"%string) then Ok Smoke
  else if decide (value = "litmus"%string) then Ok Litmus
  else Err ("invalid --mode " +:+ value +:+ "; expected smoke or litmus").
Definition run_mode_as_str (m : RunMode) : string := match m with Smoke => "smoke" | Litmus => "litmus" end.

Record RunDefaults := MkRunDefaults { rd_cap : usize; rd_sources : u32; rd_per_source : u64 }.
Definition defaults (m : RunMode) : RunDefaults :=
  match m with
  | Smoke => {| rd_cap := DEFAULT_CAP; rd_sources := DEFAULT_SOURCES; rd_per_source := DEFAULT_PER_SOURCE |}
  | Litmus => {| rd_cap := LITMUS_CAP; rd_sources := LITMUS_SOURCES; rd_per_source := LITMUS_PER_SOURCE |}
  end.

Inductive AppendMode := WriteRecord | Encoded.
#[global] Instance AppendMode_eq_dec : EqDecision AppendMode.
Proof. solve_decision. Defined.

Definition append_mode_parse (value : string) : res string AppendMode :=
  if decide (value = "write-record"%string) then Ok WriteRecord
  else if decide (value = "encoded"%string) then Ok Encoded
  else Err ("invalid --append-mode " +:+ value +:+ "; expected write-record or encoded").
Definition append_mode_as_str (m : AppendMode) : string :=
  match m with WriteRecord => "write-record" | Encoded => "encoded" end.

Definition fence_flag (m : FenceMode) : string := match m with Fenced => "--fenced" | Unfenced => "--unfenced" end.

(** ** The argument parser

    A method of [&mut self] also returns the parser it leaves. *)
Record ArgParser := MkArgParser { ap_args : list OsString }.

Definition arg_parser_new (args : list OsString) : ArgParser := {| ap_args := args |}.

Definition take_flag (name : string) (p : ArgParser) : res string (bool * ArgParser) :=
  match list_find (λ arg, arg = name) (ap_args p) with
  | None => Ok (false, p)
  | Some (index, _) => Ok (true, {| ap_args := delete index (ap_args p) |})
  end.

Definition take_arg (name : string) (p : ArgParser) : res string (option OsString * ArgParser) :=
  match list_find (λ arg, arg = name) (ap_args p) with
  | None => Ok (None, p)
  | Some (index, _) =>
      let args := delete index (ap_args p) in
      match args !! index with
      | None => Err ("missing value for " +:+ name)%string
      | Some value => Ok (Some value, {| ap_args := delete index args |})
      end
  end.

Definition required {A} (name : string) (r : option A * ArgParser) : res string (A * ArgParser) :=
  match r with
  | (Some a, p) => Ok (a, p)
  | (None, _) => Err ("missing required argument " +:+ name)%string
  end.

(** [FromStr] of an unsigned type of [bits] bits. *)
Definition parse_optional (bits : Z) (value : option OsString) (name : string) : res string (option Z) :=
  match value with
  | None => Ok None
  | Some value =>
      match parse_uint bits (to_string_lossy value) with
      | Some n => Ok (Some n)
      | None => Err ("invalid value for " +:+ name)%string
      end
  end.

Definition optional_path (name : string) (p : ArgParser) : res string (option OsString * ArgParser) := take_arg name p.
Definition path (name : string) (p : ArgParser) : res string (OsString * ArgParser) :=
  r ← optional_path name p; required name r.

(** [optional_u32] and [optional_u64]. *)
Definition optional_uint (bits : Z) (name : string) (p : ArgParser) : res string (option Z * ArgParser) :=
  '(value, p) ← take_arg name p;
  n ← parse_optional bits value name;
  Ok (n, p).
Definition uint (bits : Z) (name : string) (p : ArgParser) : res string (Z * ArgParser) :=
  r ← optional_uint bits name p; required name r.

Definition optional_usize (name : string) (p : ArgParser) : res string (option usize * ArgParser) :=
  '(n, p) ← optional_uint 64 name p; Ok (fmap (M:=option) Z.to_nat n, p).
Definition usize_arg (name : string) (p : ArgParser) : res string (usize * ArgParser) :=
  r ← optional_usize name p; required name r.

(** [Option::map(parse).transpose()]. *)
Definition parsed {A} (parse : string → res string A) (value : option OsString) : res string (option A) :=
  match value with
  | None => Ok None
  | Some value => a ← parse (to_string_lossy value); Ok (Some a)
  end.

Definition run_mode (p : ArgParser) : res string (option RunMode * ArgParser) :=
  '(value, p) ← take_arg "--mode" p; m ← parsed run_mode_parse value; Ok (m, p).
Definition append_mode (p : ArgParser) : res string (option AppendMode * ArgParser) :=
  '(value, p) ← take_arg "--append-mode" p; m ← parsed append_mode_parse value; Ok (m, p).

Definition fence_mode (p : ArgParser) : res string (FenceMode * ArgParser) :=
  '(fenced, p) ← take_flag "--fenced" p;
  '(unfenced, p) ← take_flag "--unfenced" p;
  match fenced, unfenced with
  | true, true => Err "--fenced and --unfenced are mutually exclusive"%string
  | _, true => Ok (Unfenced, p)
  | _, _ => Ok (Fenced, p)
  end.

Definition finish {DT : DebugText} (p : ArgParser) : res string unit :=
  if decide (ap_args p = []) then Ok tt else Err ("unexpected arguments: " +:+ debug_args (ap_args p))%string.

(** ** Paths *)
Definition done_path (shm : OsString) : OsString := to_string_lossy shm +:+ ".done".
Definition observed_path (status : OsString) : OsString := to_string_lossy status +:+ ".observed".
Definition default_shm_path (pid : u32) : OsString := "/dev/shm/open-ot-live-" +:+ dec pid.

(** ** The three commands *)
Record ProducerArgs := MkProducerArgs {
  pa_shm : OsString;
  pa_cap : usize;
  pa_sources : u32;
  pa_per_source : u64;
  pa_fence_mode : FenceMode;
  pa_append_mode : AppendMode;
}.

Record ConsumerArgs := MkConsumerArgs {
  ca_mode : RunMode;
  ca_shm : OsString;
  ca_done : OsString;
  ca_out : OsString;
  ca_sources : u32;
  ca_per_source : u64;
  ca_poll_sleep_us : u64;
  ca_recheck_stall_us : u64;
  ca_timeout_ms : u64;
  ca_fence_mode : FenceMode;
  ca_append_mode : AppendMode;
}.

Record RunArgs := MkRunArgs {
  ra_mode : RunMode;
  ra_shm : OsString;
  ra_cap : usize;
  ra_sources : u32;
  ra_per_source : u64;
  ra_poll_sleep_us : u64;
  ra_recheck_stall_us : u64;
  ra_timeout_ms : u64;
  ra_fence_mode : FenceMode;
  ra_append_mode : AppendMode;
  ra_iterations : u64;
}.

Inductive Command := ProducerCommand (args : ProducerArgs) | ConsumerCommand (args : ConsumerArgs) | RunCommand (args : RunArgs).

Section commands.
Context {DT : DebugText}.

Definition producer_args_parse (args : list OsString) : res string ProducerArgs :=
  let parser := arg_parser_new args in
  '(shm, parser) ← path "--shm" parser;
  '(cap, parser) ← usize_arg "--cap" parser;
  '(sources, parser) ← uint 32 "--sources" parser;
  '(per_source, parser) ← uint 64 "--per-source" parser;
  '(fence, parser) ← fence_mode parser;
  '(append, parser) ← append_mode parser;
  _ ← finish parser;
  Ok {| pa_shm := shm; pa_cap := cap; pa_sources := sources; pa_per_source := per_source; pa_fence_mode := fence;
        pa_append_mode := default WriteRecord append |}.

Definition consumer_args_parse (args : list OsString) : res string ConsumerArgs :=
  let parser := arg_parser_new args in
  '(mode, parser) ← run_mode parser;
  '(done, parser) ← path "--done" parser;
  '(out, parser) ← optional_path "--out" parser;
  '(shm, parser) ← path "--shm" parser;
  '(sources, parser) ← uint 32 "--sources" parser;
  '(per_source, parser) ← uint 64 "--per-source" parser;
  '(poll_sleep_us, parser) ← optional_uint 64 "--poll-sleep-us" parser;
  '(recheck_stall_us, parser) ← optional_uint 64 "--recheck-stall-us" parser;
  '(timeout_ms, parser) ← optional_uint 64 "--timeout-ms" parser;
  '(fence, parser) ← fence_mode parser;
  '(append, parser) ← append_mode parser;
  _ ← finish parser;
  Ok {| ca_mode := default Smoke mode; ca_shm := shm; ca_done := done; ca_out := default (observed_path done) out;
        ca_sources := sources; ca_per_source := per_source;
        ca_poll_sleep_us := default DEFAULT_POLL_SLEEP_US poll_sleep_us;
        ca_recheck_stall_us := default 0 recheck_stall_us; ca_timeout_ms := default DEFAULT_TIMEOUT_MS timeout_ms;
        ca_fence_mode := fence; ca_append_mode := default WriteRecord append |}.

(** [pid] is the process id. *)
Definition run_args_parse (pid : u32) (args : list OsString) : res string RunArgs :=
  let parser := arg_parser_new args in
  '(mode, parser) ← run_mode parser;
  let mode := default Smoke mode in
  let d := defaults mode in
  '(shm, parser) ← optional_path "--shm" parser;
  '(cap, parser) ← optional_usize "--cap" parser;
  '(sources, parser) ← optional_uint 32 "--sources" parser;
  '(per_source, parser) ← optional_uint 64 "--per-source" parser;
  '(poll_sleep_us, parser) ← optional_uint 64 "--poll-sleep-us" parser;
  '(recheck_stall_us, parser) ← optional_uint 64 "--recheck-stall-us" parser;
  '(timeout_ms, parser) ← optional_uint 64 "--timeout-ms" parser;
  '(fence, parser) ← fence_mode parser;
  '(append, parser) ← append_mode parser;
  '(iterations, parser) ← optional_uint 64 "--iterations" parser;
  _ ← finish parser;
  Ok {| ra_mode := mode; ra_shm := default (default_shm_path pid) shm; ra_cap := default (rd_cap d) cap;
        ra_sources := default (rd_sources d) sources; ra_per_source := default (rd_per_source d) per_source;
        ra_poll_sleep_us := default DEFAULT_POLL_SLEEP_US poll_sleep_us;
        ra_recheck_stall_us := default 0 recheck_stall_us; ra_timeout_ms := default DEFAULT_TIMEOUT_MS timeout_ms;
        ra_fence_mode := fence; ra_append_mode := default WriteRecord append;
        ra_iterations := default DEFAULT_STRESS_ITERATIONS iterations |}.

Definition usage : string :=
  "usage: open-ot-live-harness run [--mode smoke|litmus] [--fenced|--unfenced] [--iterations N] [--shm PATH] [--cap BYTES] [--sources N] [--per-source N]"
  +:+ String newline "or: open-ot-live-harness producer [--fenced|--unfenced] --shm PATH --cap BYTES --sources N --per-source N"
  +:+ String newline "or: open-ot-live-harness consumer [--mode smoke|litmus] [--fenced|--unfenced] --shm PATH --done FILE --sources N --per-source N [--out FILE]".

(** What [real_main] makes of the arguments before it runs the command. *)
Definition command_of (pid : u32) (args : list OsString) : res string Command :=
  match args with
  | _ :: command :: rest =>
      if decide (to_string_lossy command = "producer"%string) then a ← producer_args_parse rest; Ok (ProducerCommand a) else
      if decide (to_string_lossy command = "consumer"%string) then a ← consumer_args_parse rest; Ok (ConsumerCommand a) else
      if decide (to_string_lossy command = "run"%string) then a ← run_args_parse pid rest; Ok (RunCommand a) else
      Err usage
  | _ => Err usage
  end.
End commands.

(** ** The children of a run *)
Definition run_producer_arguments (a : RunArgs) : list OsString :=
  ["producer"; fence_flag (ra_fence_mode a); "--append-mode"; append_mode_as_str (ra_append_mode a);
   "--shm"; ra_shm a; "--cap"; dec (Z.of_nat (ra_cap a)); "--sources"; dec (ra_sources a);
   "--per-source"; dec (ra_per_source a)]%string.

Definition run_consumer_arguments (a : RunArgs) : list OsString :=
  let done := done_path (ra_shm a) in
  ["consumer"; "--mode"; run_mode_as_str (ra_mode a); fence_flag (ra_fence_mode a);
   "--append-mode"; append_mode_as_str (ra_append_mode a); "--shm"; ra_shm a; "--done"; done;
   "--out"; observed_path done; "--sources"; dec (ra_sources a); "--per-source"; dec (ra_per_source a);
   "--poll-sleep-us"; dec (ra_poll_sleep_us a); "--recheck-stall-us"; dec (ra_recheck_stall_us a);
   "--timeout-ms"; dec (ra_timeout_ms a)]%string.

(** ** Well-formed text is left alone *)
Lemma char_step_scalar c rest : scalar c → char_step (encode_scalar c ++ rest) = (true, length (encode_scalar c)).
Proof.
  intros Hc. unfold scalar in Hc. unfold encode_scalar. repeat case_decide; unfold char_step, continuation;
    cbn [app lookup list_lookup default from_option id length]; ranges; repeat case_decide; ranges; done.
Qed.

Lemma lossy_skip bs rest : lossy_go (bs ++ rest) (length bs) = lossy_go rest 0.
Proof. induction bs as [|b bs IH]; [by destruct rest|]. exact IH. Qed.

Lemma to_string_lossy_valid s : utf8_valid (string_bytes s) = true → to_string_lossy s = s.
Proof.
  intros Hv. unfold to_string_lossy. rewrite <-(string_of_string_bytes s) at 2. f_equal.
  apply utf8_valid_iff in Hv as (cs & Hcs & ->). induction Hcs as [|c cs Hc _ IH]; [done|].
  change (utf8_encode (c :: cs)) with (encode_scalar c ++ utf8_encode cs).
  pose proof (char_step_scalar c (utf8_encode cs) Hc) as Hstep.
  destruct (encode_scalar c) as [|b bs] eqn:He; [exfalso; revert He; unfold encode_scalar; repeat case_decide; done|].
  cbn [app lossy_go]. cbn [app] in Hstep. rewrite Hstep. cbn [length]. rewrite Nat.sub_succ, Nat.sub_0_r, lossy_skip, IH.
  cbn [take]. by rewrite (take_app_length bs).
Qed.

(** ** Options in any order *)

(** A command line is a list of options. *)
Inductive Opt := Flag (name : string) | Value (name value : OsString).
Definition opt_name (o : Opt) : string := match o with Flag n | Value n _ => n end.
Definition opt_words (o : Opt) : list OsString := match o with Flag n => [n] | Value n v => [n; v] end.
Definition words (opts : list Opt) : list OsString := opts ≫= opt_words.

Definition FLAGS : list string := ["--fenced"; "--unfenced"]%string.
Definition VALUES : list string :=
  ["--mode"; "--shm"; "--done"; "--out"; "--cap"; "--sources"; "--per-source"; "--poll-sleep-us"; "--recheck-stall-us";
   "--timeout-ms"; "--append-mode"; "--iterations"]%string.
(** Not the name of an option. *)
Definition ordinary (s : OsString) : Prop := s ∉ FLAGS ++ VALUES.
#[global] Instance ordinary_dec s : Decision (ordinary s).
Proof. unfold ordinary. apply _. Defined.

Definition opt_ok (o : Opt) : Prop :=
  match o with Flag n => n ∈ FLAGS | Value n v => n ∈ VALUES ∧ ordinary v end.
(** Each option at most once, and no value that is itself an option's name. *)
Definition opts_ok (opts : list Opt) : Prop := NoDup (opt_name <$> opts) ∧ Forall opt_ok opts.

Definition opt_value (name : string) (opts : list Opt) : option OsString :=
  head (omap (λ o, match o with Value n v => if decide (n = name) then Some v else None | Flag _ => None end) opts).
Definition has_flag (name : string) (opts : list Opt) : bool := bool_decide (name ∈ opt_name <$> opts).
Definition without (name : string) (opts : list Opt) : list Opt := filter (λ o, opt_name o ≠ name) opts.

Lemma take_arg_skip x name args : x ≠ name →
  take_arg name {| ap_args := x :: args |} =
    ('(v, p) ← take_arg name {| ap_args := args |}; Ok (v, {| ap_args := x :: ap_args p |})).
Proof.
  intros Hx. unfold take_arg. cbn [ap_args list_find]. rewrite decide_False by done.
  destruct (list_find (λ arg, arg = name) args) as [[i y]|]; [|done]. cbn [fmap option_fmap option_map prod_map fst snd delete list_delete].
  change (delete (Datatypes.S i) (x :: args)) with (x :: delete i args). cbn [lookup list_lookup].
  by destruct (delete i args !! i).
Qed.

Lemma take_flag_skip x name args : x ≠ name →
  take_flag name {| ap_args := x :: args |} =
    ('(v, p) ← take_flag name {| ap_args := args |}; Ok (v, {| ap_args := x :: ap_args p |})).
Proof.
  intros Hx. unfold take_flag. cbn [ap_args list_find]. rewrite decide_False by done.
  by destruct (list_find (λ arg, arg = name) args) as [[i y]|].
Qed.

Lemma without_absent name opts : name ∉ opt_name <$> opts → without name opts = opts.
Proof.
  intros Hn. apply filter_all, Forall_forall. intros o Ho <-. apply Hn. by apply list_elem_of_fmap_2.
Qed.

Lemma flags_values n : n ∈ FLAGS → n ∉ VALUES.
Proof. revert n. apply Forall_forall. by_compute. Qed.

Lemma take_arg_words name opts : name ∈ VALUES → opts_ok opts →
  take_arg name {| ap_args := words opts |} = Ok (opt_value name opts, {| ap_args := words (without name opts) |}).
Proof.
  intros Hname [Hnd Hok]. induction opts as [|o opts IH]; [done|]. rewrite fmap_cons in Hnd. apply NoDup_cons in Hnd as [Hn Hnd].
  apply Forall_cons_1 in Hok as [Ho Hok]. specialize (IH Hnd Hok). destruct o as [n|n v]; cbn [opt_name opt_ok] in *.
  - assert (Hne : n ≠ name) by (intros ->; by apply flags_values in Ho). unfold words, without in *. cbn [mbind list_bind opt_words app].
    rewrite take_arg_skip, IH, ok_bind by done. rewrite filter_cons, decide_True by done. done.
  - destruct Ho as [_ Hv]. unfold words, without in *. cbn [mbind list_bind opt_words app]. destruct (decide (n = name)) as [->|Hne].
    + unfold take_arg. cbn [ap_args list_find]. rewrite decide_True by done. cbn [delete list_delete lookup list_lookup].
      rewrite filter_cons, decide_False by (cbn; tauto). fold (without name opts). rewrite without_absent by done.
      unfold opt_value. cbn [omap list_omap]. by rewrite decide_True.
    + assert (v ≠ name) by (intros ->; apply Hv, elem_of_app; by right).
      rewrite take_arg_skip, take_arg_skip, IH, !ok_bind by done. rewrite filter_cons, decide_True by done.
      unfold opt_value. cbn [omap list_omap]. by rewrite decide_False.
Qed.

Lemma take_flag_words name opts : name ∈ FLAGS → opts_ok opts →
  take_flag name {| ap_args := words opts |} = Ok (has_flag name opts, {| ap_args := words (without name opts) |}).
Proof.
  intros Hname [Hnd Hok]. induction opts as [|o opts IH]; [done|]. rewrite fmap_cons in Hnd. apply NoDup_cons in Hnd as [Hn Hnd].
  apply Forall_cons_1 in Hok as [Ho Hok]. specialize (IH Hnd Hok). unfold words, without, has_flag in *. destruct o as [n|n v]; cbn [opt_name opt_ok] in *.
  - cbn [mbind list_bind opt_words app]. destruct (decide (n = name)) as [->|Hne].
    + unfold take_flag. cbn [ap_args list_find]. rewrite decide_True by done. cbn [delete list_delete].
      rewrite filter_cons, decide_False by (cbn; tauto). fold (without name opts). rewrite without_absent by done.
      rewrite bool_decide_true; [done|]. cbn. by left.
    + rewrite take_flag_skip, IH, ok_bind by done. rewrite filter_cons, decide_True by done. do 2 f_equal.
      apply bool_decide_ext. cbn. set_solver.
  - destruct Ho as [Hnv Hv]. assert (n ≠ name) by (intros ->; by apply flags_values in Hname).
    assert (v ≠ name) by (intros ->; apply Hv, elem_of_app; by left). cbn [mbind list_bind opt_words app].
    rewrite take_flag_skip, take_flag_skip, IH, !ok_bind by done. rewrite filter_cons, decide_True by done. do 2 f_equal.
    apply bool_decide_ext. cbn. set_solver.
Qed.

Lemma opts_ok_without name opts : opts_ok opts → opts_ok (without name opts).
Proof.
  intros [Hnd Hok]. split; [eapply sublist_NoDup; [exact Hnd|]; apply fmap_sublist, sublist_filter|].
  rewrite Forall_forall in Hok |- *. intros o [_ Ho]%list_elem_of_filter. by apply Hok.
Qed.

Lemma opts_ok_perm opts opts' : opts ≡ₚ opts' → opts_ok opts → opts_ok opts'.
Proof. intros Hp [Hnd Hok]. split; [by rewrite <-Hp|by rewrite <-Hp]. Qed.

Lemma opt_value_Some name opts v : opts_ok opts → opt_value name opts = Some v ↔ Value name v ∈ opts.
Proof.
  intros [Hnd Hok]. unfold opt_value. induction opts as [|o opts IH]; [split; [done|by intros ?%elem_of_nil]|].
  rewrite fmap_cons in Hnd. apply NoDup_cons in Hnd as [Hn Hnd]. apply Forall_cons_1 in Hok as [Ho Hok]. specialize (IH Hnd Hok).
  rewrite elem_of_cons, <-IH. destruct o as [n|n w]; cbn [omap list_omap opt_name] in *.
  - split; [by right|by intros [[=]|?]].
  - case_decide as Hd; [subst n|split; [by right|intros [[= <-]|?]; done]]. cbn [head hd_error]. split; [intros [= <-]; by left|].
    intros [[= ->]|Hin]; [done|]. exfalso. apply Hn. apply IH in Hin. change name with (opt_name (Value name v)). by apply list_elem_of_fmap_2.
Qed.

(** Two parsers that hold the same options. *)
Definition similar (p p' : ArgParser) : Prop :=
  ∃ opts opts', opts ≡ₚ opts' ∧ opts_ok opts ∧ p = {| ap_args := words opts |} ∧ p' = {| ap_args := words opts' |}.

(** The same value or the same error, and similar parsers. *)
Definition alike {A} (r r' : res string (A * ArgParser)) : Prop :=
  match r, r' with
  | Ok (a, p), Ok (a', p') => a = a' ∧ similar p p'
  | Err e, Err e' => e = e'
  | Panic, Panic | Diverge, Diverge => True
  | _, _ => False
  end.

Lemma without_perm name opts opts' : opts ≡ₚ opts' → without name opts ≡ₚ without name opts'.
Proof. intros Hp. unfold without. by rewrite Hp. Qed.

Lemma take_arg_alike name p p' : name ∈ VALUES → similar p p' → alike (take_arg name p) (take_arg name p').
Proof.
  intros Hn (opts & opts' & Hp & Hok & -> & ->). pose proof (opts_ok_perm _ _ Hp Hok) as Hok'.
  rewrite !take_arg_words by done. split.
  - apply option_eq. intros v. by rewrite !opt_value_Some, Hp by done.
  - exists (without name opts), (without name opts'). split_and!; [by apply without_perm|by apply opts_ok_without|done|done].
Qed.

Lemma take_flag_alike name p p' : name ∈ FLAGS → similar p p' → alike (take_flag name p) (take_flag name p').
Proof.
  intros Hn (opts & opts' & Hp & Hok & -> & ->). pose proof (opts_ok_perm _ _ Hp Hok) as Hok'.
  rewrite !take_flag_words by done. split.
  - unfold has_flag. apply bool_decide_ext. by rewrite Hp.
  - exists (without name opts), (without name opts'). split_and!; [by apply without_perm|by apply opts_ok_without|done|done].
Qed.

Lemma alike_bind {A B} (r r' : res string (A * ArgParser)) (f f' : A * ArgParser → res string (B * ArgParser)) :
  alike r r' → (∀ a p p', similar p p' → alike (f (a, p)) (f' (a, p'))) → alike (r ≫= f) (r' ≫= f').
Proof. destruct r as [[a p]|e| |], r' as [[a' p']|e'| |]; try done. intros [-> Hp] Hf. by apply Hf. Qed.

Lemma alike_pure {A B} (m : res string A) (f : A → B) p p' :
  similar p p' → alike (a ← m; Ok (f a, p)) (a ← m; Ok (f a, p')).
Proof. by destruct m. Qed.

Lemma alike_required {A} name (o : option A) p p' : similar p p' → alike (required name (o, p)) (required name (o, p')).
Proof. by destruct o. Qed.

Lemma optional_uint_alike bits name p p' : name ∈ VALUES → similar p p' → alike (optional_uint bits name p) (optional_uint bits name p').
Proof.
  intros Hn Hs. apply alike_bind; [by apply take_arg_alike|]. intros v q q' Hq. by apply (alike_pure _ id).
Qed.

Lemma path_alike name p p' : name ∈ VALUES → similar p p' → alike (path name p) (path name p').
Proof. intros Hn Hs. apply alike_bind; [by apply take_arg_alike|]. intros v q q'. apply alike_required. Qed.
Lemma uint_alike bits name p p' : name ∈ VALUES → similar p p' → alike (uint bits name p) (uint bits name p').
Proof. intros Hn Hs. apply alike_bind; [by apply optional_uint_alike|]. intros v q q'. apply alike_required. Qed.
Lemma optional_usize_alike name p p' : name ∈ VALUES → similar p p' → alike (optional_usize name p) (optional_usize name p').
Proof. intros Hn Hs. apply alike_bind; [by apply optional_uint_alike|]. intros v q q' Hq. by split. Qed.
Lemma usize_alike name p p' : name ∈ VALUES → similar p p' → alike (usize_arg name p) (usize_arg name p').
Proof. intros Hn Hs. apply alike_bind; [by apply optional_usize_alike|]. intros v q q'. apply alike_required. Qed.
Lemma run_mode_alike p p' : similar p p' → alike (run_mode p) (run_mode p').
Proof. intros Hs. apply alike_bind; [by apply take_arg_alike; [by_compute|]|]. intros v q q' Hq. by apply (alike_pure _ id). Qed.
Lemma append_mode_alike p p' : similar p p' → alike (append_mode p) (append_mode p').
Proof. intros Hs. apply alike_bind; [by apply take_arg_alike; [by_compute|]|]. intros v q q' Hq. by apply (alike_pure _ id). Qed.
Lemma fence_mode_alike p p' : similar p p' → alike (fence_mode p) (fence_mode p').
Proof.
  intros Hs. apply alike_bind; [by apply take_flag_alike; [by_compute|]|]. intros f q q' Hq.
  apply alike_bind; [by apply take_flag_alike; [by_compute|]|]. intros u x x' Hx. by destruct f, u.
Qed.

Create HintDb alike.
#[local] Hint Resolve take_arg_alike optional_uint_alike path_alike uint_alike optional_usize_alike usize_alike
  run_mode_alike append_mode_alike fence_mode_alike : alike.
#[local] Hint Extern 0 (_ ∈ VALUES) => by_compute : alike.

(** The same results, errors aside. *)
Definition agree {A} (r r' : res string A) : Prop := ∀ a, r = Ok a ↔ r' = Ok a.

Lemma agree_bind {A B} (r r' : res string (A * ArgParser)) (f f' : A * ArgParser → res string B) :
  alike r r' → (∀ a p p', similar p p' → agree (f (a, p)) (f' (a, p'))) → agree (r ≫= f) (r' ≫= f').
Proof. destruct r as [[a p]|e| |], r' as [[a' p']|e'| |]; try done. intros [-> Hp] Hf. by apply Hf. Qed.

Lemma agree_map {A B} (r r' : res string A) (f : A → B) : agree r r' → agree (a ← r; Ok (f a)) (a ← r'; Ok (f a)).
Proof.
  intros Ha b. split; intros Hb; apply bind_Ok in Hb as (a & Hr & Hb); apply Ha in Hr; by rewrite Hr.
Qed.

Section any_order.
Context {DT : DebugText}.

Lemma finish_agree {A} (a : A) p p' : similar p p' → agree (_ ← finish p; Ok a) (_ ← finish p'; Ok a).
Proof.
  intros (opts & opts' & Hp & _ & -> & ->). assert (Hnil : ∀ l, words l = [] ↔ l = []) by (intros [|[] l]; by split).
  unfold finish, agree. cbn [ap_args]. destruct (decide (opts = [])) as [->|Hne].
  - apply Permutation_nil_l in Hp as ->. done.
  - rewrite !decide_False; [done| |by rewrite Hnil]. rewrite Hnil. intros ->. by apply Permutation_nil_r in Hp.
Qed.

#[local] Ltac same_fields := repeat first
  [apply finish_agree; assumption|apply agree_bind; [eauto with alike|intros ???? ]].

Lemma parsed_alike opts opts' : opts_ok opts → opts ≡ₚ opts' → similar (arg_parser_new (words opts)) (arg_parser_new (words opts')).
Proof. intros. by exists opts, opts'. Qed.

Lemma order_irrelevant pid program command opts opts' c :
  opts_ok opts → opts ≡ₚ opts' →
  command_of pid (program :: command :: words opts) = Ok c ↔ command_of pid (program :: command :: words opts') = Ok c.
Proof.
  intros Hok Hp. pose proof (parsed_alike _ _ Hok Hp) as Hs. revert c. cbn [command_of]. repeat case_decide; [| | |done].
  - apply agree_map. unfold producer_args_parse. same_fields.
  - apply agree_map. unfold consumer_args_parse. same_fields.
  - apply agree_map. unfold run_args_parse. same_fields.
Qed.
End any_order.

(** ** The children of a run *)
Lemma dec_ascii n : utf8_valid (string_bytes (dec n)) = true.
Proof.
  assert (Hd : ∀ d, utf8_valid (string_bytes (NilEmpty.string_of_uint d)) = true) by (induction d as [|d IH|d IH|d IH|d IH|d IH|d IH|d IH|d IH|d IH|d IH]; [done|exact IH..]).
  unfold dec, NilZero.string_of_uint. destruct (N.to_uint (Z.to_N n)) eqn:He; [done|rewrite <-He; apply Hd..].
Qed.

Lemma dec_ordinary n : ordinary (dec n).
Proof.
  intros Hin. assert (Hb : byte_at (dec n) 0 = 45).
  { revert Hin. generalize (dec n). apply Forall_forall. by_compute. }
  revert Hb. unfold dec, NilZero.string_of_uint. destruct (N.to_uint (Z.to_N n)); done.
Qed.

Lemma string_bytes_app s t : string_bytes (s +:+ t) = string_bytes s ++ string_bytes t.
Proof. induction s as [|a s IH]; [done|]. rewrite string_app_cons. cbn. by rewrite IH. Qed.

Lemma suffix_ordinary s t : Forall (λ o, ¬ (string_bytes t `suffix_of` string_bytes o)) (FLAGS ++ VALUES) → ordinary (s +:+ t).
Proof.
  intros Hf Hin. rewrite Forall_forall in Hf. apply (Hf _ Hin). rewrite string_bytes_app. by exists (string_bytes s).
Qed.

(** What the parser guarantees of the numbers of a run. *)
Definition run_args_ok (a : RunArgs) : Prop :=
  Z.of_nat (ra_cap a) < 2 ^ 64 ∧ is_u32 (ra_sources a) ∧ is_u64 (ra_per_source a) ∧ is_u64 (ra_poll_sleep_us a)
  ∧ is_u64 (ra_recheck_stall_us a) ∧ is_u64 (ra_timeout_ms a) ∧ is_u64 (ra_iterations a).

Lemma optional_uint_range bits name p o q d :
  0 ≤ d < 2 ^ bits → optional_uint bits name p = Ok (o, q) → 0 ≤ default d o < 2 ^ bits.
Proof.
  intros Hd H. apply bind_Ok in H as ([v q'] & _ & H). apply bind_Ok in H as (n & Hn & [= <- _]).
  destruct v as [v|]; cbn [parse_optional] in Hn; [|by injection Hn as <-].
  destruct (parse_uint bits (to_string_lossy v)) as [m|] eqn:Hm; [|done]. injection Hn as <-. cbn [default from_option id].
  revert Hm. unfold parse_uint. destruct (NilZero.uint_of_string _) as [u|]; [|done]. case_decide; [|done]. intros [= <-]. cbn. lia.
Qed.

Lemma optional_usize_range name p o q d :
  Z.of_nat d < 2 ^ 64 → optional_usize name p = Ok (o, q) → Z.of_nat (default d o) < 2 ^ 64.
Proof.
  intros Hd H. apply bind_Ok in H as ([v q'] & Hv & [= <- _]). apply (optional_uint_range _ _ _ _ _ 0) in Hv; [|lia].
  destruct v as [n|]; cbn in *; lia.
Qed.

Lemma defaults_ok m : Z.of_nat (rd_cap (defaults m)) < 2 ^ 64 ∧ is_u32 (rd_sources (defaults m)) ∧ is_u64 (rd_per_source (defaults m)).
Proof. destruct m; by_compute. Qed.

Section children.
Context {DT : DebugText}.

Lemma run_args_parsed pid args a : run_args_parse pid args = Ok a → run_args_ok a.
Proof.
  unfold run_args_parse. intros H. repeat (apply bind_Ok in H as ([] & ? & H)). injection H as <-.
  match goal with |- context [default Smoke ?m] => destruct (defaults_ok (default Smoke m)) as (Hc & Hs & Hp) end.
  unfold run_args_ok. cbn [ra_cap ra_sources ra_per_source ra_poll_sleep_us ra_recheck_stall_us ra_timeout_ms ra_iterations].
  split_and!; first [eapply optional_usize_range; eassumption
                    |eapply optional_uint_range; [|eassumption]; first [eassumption|by_compute]].
Qed.

(** The options of a child in the order in which its parser asks for them. *)
Definition producer_options (a : RunArgs) : list Opt :=
  [Value "--shm" (ra_shm a); Value "--cap" (dec (Z.of_nat (ra_cap a))); Value "--sources" (dec (ra_sources a));
   Value "--per-source" (dec (ra_per_source a)); Flag (fence_flag (ra_fence_mode a));
   Value "--append-mode" (append_mode_as_str (ra_append_mode a))].

Definition consumer_options (a : RunArgs) : list Opt :=
  let done := done_path (ra_shm a) in
  [Value "--mode" (run_mode_as_str (ra_mode a)); Value "--done" done; Value "--out" (observed_path done);
   Value "--shm" (ra_shm a); Value "--sources" (dec (ra_sources a)); Value "--per-source" (dec (ra_per_source a));
   Value "--poll-sleep-us" (dec (ra_poll_sleep_us a)); Value "--recheck-stall-us" (dec (ra_recheck_stall_us a));
   Value "--timeout-ms" (dec (ra_timeout_ms a)); Flag (fence_flag (ra_fence_mode a));
   Value "--append-mode" (append_mode_as_str (ra_append_mode a))].

Lemma mode_ordinary m : ordinary (run_mode_as_str m).
Proof. destruct m; by_compute. Qed.
Lemma append_ordinary m : ordinary (append_mode_as_str m).
Proof. destruct m; by_compute. Qed.
Lemma flag_known m : fence_flag m ∈ FLAGS.
Proof. destruct m; by_compute. Qed.

Create HintDb ordinary.
#[local] Hint Resolve dec_ordinary mode_ordinary append_ordinary flag_known : ordinary.

Lemma options_ok a : ordinary (ra_shm a) → opts_ok (producer_options a) ∧ opts_ok (consumer_options a).
Proof.
  intros Hs. assert (Hd : ordinary (done_path (ra_shm a))) by (apply suffix_ordinary; by_compute).
  assert (Ho : ordinary (observed_path (done_path (ra_shm a)))) by (apply suffix_ordinary; by_compute).
  split; (split; [cbn; destruct (ra_fence_mode a); by_compute|]);
    repeat (apply Forall_cons; split; [first [apply flag_known|split; [by_compute|auto with ordinary]]|]); apply Forall_nil_2.
Qed.

(** An option that comes first. *)
Lemma take_arg_here name v rest : take_arg name {| ap_args := name :: v :: rest |} = Ok (Some v, {| ap_args := rest |}).
Proof. unfold take_arg. cbn [ap_args list_find]. by rewrite decide_True. Qed.
Lemma path_here name v rest : path name {| ap_args := name :: v :: rest |} = Ok (v, {| ap_args := rest |}).
Proof. unfold path, optional_path. by rewrite take_arg_here. Qed.
Lemma optional_uint_here bits name n rest : 0 ≤ n < 2 ^ bits →
  optional_uint bits name {| ap_args := name :: dec n :: rest |} = Ok (Some n, {| ap_args := rest |}).
Proof.
  intros Hn. unfold optional_uint. rewrite take_arg_here, ok_bind. cbn [parse_optional].
  by rewrite to_string_lossy_valid, parse_dec by (done || apply dec_ascii).
Qed.
Lemma uint_here bits name n rest : 0 ≤ n < 2 ^ bits →
  uint bits name {| ap_args := name :: dec n :: rest |} = Ok (n, {| ap_args := rest |}).
Proof. intros Hn. unfold uint. by rewrite optional_uint_here. Qed.
Lemma usize_here name n rest : Z.of_nat n < 2 ^ 64 →
  usize_arg name {| ap_args := name :: dec (Z.of_nat n) :: rest |} = Ok (n, {| ap_args := rest |}).
Proof.
  intros Hn. unfold usize_arg, optional_usize. rewrite optional_uint_here, !ok_bind by lia. cbn. by rewrite Nat2Z.id.
Qed.
Lemma run_mode_here m rest : run_mode {| ap_args := "--mode"%string :: run_mode_as_str m :: rest |} = Ok (Some m, {| ap_args := rest |}).
Proof. unfold run_mode. rewrite take_arg_here, ok_bind. by destruct m. Qed.
Lemma tail_here f m :
  ('(fence, p) ← fence_mode {| ap_args := [fence_flag f; "--append-mode"; append_mode_as_str m]%string |};
   '(append, p) ← append_mode p;
   _ ← finish p; Ok (fence, append)) = Ok (f, Some m).
Proof. by destruct f, m. Qed.

Lemma producer_parses a : run_args_ok a →
  producer_args_parse (words (producer_options a))
  = Ok {| pa_shm := ra_shm a; pa_cap := ra_cap a; pa_sources := ra_sources a; pa_per_source := ra_per_source a;
          pa_fence_mode := ra_fence_mode a; pa_append_mode := ra_append_mode a |}.
Proof.
  intros (Hc & Hs & Hp & _). unfold producer_args_parse, arg_parser_new, words, producer_options.
  cbn [mbind list_bind opt_words app].
  rewrite path_here, ok_bind, usize_here, ok_bind, uint_here, ok_bind, uint_here, ok_bind by done.
  by destruct (ra_fence_mode a), (ra_append_mode a).
Qed.

Lemma consumer_parses a : run_args_ok a →
  consumer_args_parse (words (consumer_options a))
  = Ok {| ca_mode := ra_mode a; ca_shm := ra_shm a; ca_done := done_path (ra_shm a); ca_out := observed_path (done_path (ra_shm a));
          ca_sources := ra_sources a; ca_per_source := ra_per_source a; ca_poll_sleep_us := ra_poll_sleep_us a;
          ca_recheck_stall_us := ra_recheck_stall_us a; ca_timeout_ms := ra_timeout_ms a;
          ca_fence_mode := ra_fence_mode a; ca_append_mode := ra_append_mode a |}.
Proof.
  intros (_ & Hs & Hp & H1 & H2 & H3 & _). unfold consumer_args_parse, arg_parser_new, words, consumer_options, optional_path.
  cbn [mbind list_bind opt_words app].
  rewrite run_mode_here, ok_bind, path_here, ok_bind, take_arg_here, ok_bind, path_here, ok_bind by done.
  rewrite uint_here, ok_bind, uint_here, ok_bind, !optional_uint_here, ok_bind, optional_uint_here, ok_bind, optional_uint_here, ok_bind by done.
  by destruct (ra_fence_mode a), (ra_append_mode a).
Qed.

(** C15: a run and its children agree: whatever command line [run] accepts, unless
    the path it is given is itself the name of an option, the command lines it
    builds are accepted by its producer and its consumer and mean the run's own
    arguments, the consumer waits for the file the producer creates when it is
    done, and writes its report where the run looks for it. *)
Theorem children_agree pid program words a :
  command_of pid (program :: "run"%string :: words) = Ok (RunCommand a) → ordinary (ra_shm a) →
  command_of pid (program :: run_producer_arguments a)
  = Ok (ProducerCommand {| pa_shm := ra_shm a; pa_cap := ra_cap a; pa_sources := ra_sources a;
          pa_per_source := ra_per_source a; pa_fence_mode := ra_fence_mode a; pa_append_mode := ra_append_mode a |})
  ∧ command_of pid (program :: run_consumer_arguments a)
  = Ok (ConsumerCommand {| ca_mode := ra_mode a; ca_shm := ra_shm a; ca_done := done_path (ra_shm a);
          ca_out := observed_path (done_path (ra_shm a)); ca_sources := ra_sources a; ca_per_source := ra_per_source a;
          ca_poll_sleep_us := ra_poll_sleep_us a; ca_recheck_stall_us := ra_recheck_stall_us a;
          ca_timeout_ms := ra_timeout_ms a; ca_fence_mode := ra_fence_mode a; ca_append_mode := ra_append_mode a |}).
Proof.
  intros Hrun Hs. assert (Hok : run_args_ok a).
  { change (command_of pid (program :: "run"%string :: words)) with (a ← run_args_parse pid words; Ok (RunCommand a)) in Hrun.
    apply bind_Ok in Hrun as (a' & Ha & [= ->]). by eapply run_args_parsed. }
  destruct (options_ok a Hs) as [Hp Hc].
  assert (Hpp : producer_options a ≡ₚ drop 4 (producer_options a) ++ take 4 (producer_options a)) by (exact (Permutation_app_comm (take 4 (producer_options a)) _)).
  assert (Hcp : consumer_options a ≡ₚ take 1 (consumer_options a) ++ drop 9 (consumer_options a) ++ (drop 3 (take 4 (consumer_options a))
    ++ drop 1 (take 3 (consumer_options a))) ++ drop 4 (take 9 (consumer_options a))).
  { rewrite (Permutation_app_comm (drop 3 _)), (Permutation_app_comm (drop 9 _)). done. }
  split.
  - refine (proj1 (order_irrelevant pid program "producer" _ _ _ Hp Hpp) _).
    change (command_of pid (program :: "producer"%string :: HarnessArgs.words (producer_options a)))
      with (p ← producer_args_parse (HarnessArgs.words (producer_options a)); Ok (ProducerCommand p)). by rewrite producer_parses.
  - assert (Hargs : run_consumer_arguments a = "consumer"%string :: HarnessArgs.words (take 1 (consumer_options a)
      ++ drop 9 (consumer_options a) ++ (drop 3 (take 4 (consumer_options a)) ++ drop 1 (take 3 (consumer_options a)))
      ++ drop 4 (take 9 (consumer_options a)))) by exact eq_refl.
    rewrite Hargs. refine (proj1 (order_irrelevant pid program "consumer" _ _ _ Hc Hcp) _).
    change (command_of pid (program :: "consumer"%string :: HarnessArgs.words (consumer_options a)))
      with (p ← consumer_args_parse (HarnessArgs.words (consumer_options a)); Ok (ConsumerCommand p)). by rewrite consumer_parses.
Qed.
End children.

(** ** Witnesses *)
(** A text for [{:?}]. *)
Definition quoted_args : DebugText := λ args, ("[" +:+ String.concat ", " args +:+ "]")%string.

Definition demo_line : list OsString :=
  ["harness"; "run"; "--unfenced"; "--shm"; "/dev/shm/demo"; "--mode"; "litmus"; "--cap"; "+1024"; "--append-mode"; "encoded"]%string.
Definition demo_run : RunArgs :=
  {| ra_mode := Litmus; ra_shm := "/dev/shm/demo"; ra_cap := 1024; ra_sources := 1; ra_per_source := 200000;
     ra_poll_sleep_us := 100; ra_recheck_stall_us := 0; ra_timeout_ms := 30000; ra_fence_mode := Unfenced;
     ra_append_mode := Encoded; ra_iterations := 1 |}.

Lemma demo_line_means : command_of (DT:=quoted_args) 7 demo_line = Ok (RunCommand demo_run).
Proof. vm_compute. exact eq_refl. Qed.

Lemma children_agree_witness :
  command_of (DT:=quoted_args) 7 ("harness"%string :: run_producer_arguments demo_run)
  = Ok (ProducerCommand {| pa_shm := "/dev/shm/demo"; pa_cap := 1024; pa_sources := 1; pa_per_source := 200000;
          pa_fence_mode := Unfenced; pa_append_mode := Encoded |})
  ∧ command_of (DT:=quoted_args) 7 ("harness"%string :: run_consumer_arguments demo_run)
  = Ok (ConsumerCommand {| ca_mode := Litmus; ca_shm := "/dev/shm/demo"; ca_done := "/dev/shm/demo.done";
          ca_out := "/dev/shm/demo.done.observed"; ca_sources := 1; ca_per_source := 200000;
          ca_poll_sleep_us := 100; ca_recheck_stall_us := 0; ca_timeout_ms := 30000;
          ca_fence_mode := Unfenced; ca_append_mode := Encoded |}).
Proof.
  exact (children_agree (DT:=quoted_args) 7 "harness"%string (drop 2 demo_line) demo_run demo_line_means ltac:(by_compute)).
Defined.

(** A path that is the name of an option is accepted by the run, but its
    consumer takes it for the option and opens another file. *)
Example option_as_path :
  ∃ a b, command_of (DT:=quoted_args) 7 ["harness"; "run"; "--shm"; "--done"]%string = Ok (RunCommand a)
    ∧ command_of (DT:=quoted_args) 7 ("harness"%string :: run_consumer_arguments a) = Ok (ConsumerCommand b)
    ∧ ra_shm a = "--done"%string ∧ ca_shm b = "--done.done"%string ∧ ca_done b = "--done"%string.
Proof. eexists _, _. split; [vm_compute; exact eq_refl|]. split; [vm_compute; exact eq_refl|]. split_and!; exact eq_refl. Qed.
