(* ===== verification/Harness.v ===== *)
(** * Live harness (crates/live-harness/src/main.rs)

    What the producer and the consumer process of a run do with the shared store,
    as programs of its atomic accesses, and what the parent makes of their
    report. Processes, files, sleeping and the clock are the operating system's:
    [Moment] and [ChildRun] hold what a run finds of them. *)
From stdpp Require Import strings.
From S2P Require Import Prelude Crc Wire Control Registry Layout Ring RingRead Loss Consumer Memory Concurrent Shared Text Conformance ConformanceReport Vectors HarnessArgs.
#[local] Open Scope Z_scope.

#[local] Arguments from_le_bytes : simpl never.
#[local] Arguments to_le_bytes : simpl never.

Definition RUN_ID : u64 := 1.

(** An error is its message; one that prints an error of the crates with [{:?}]
    keeps that error. *)
Inductive HarnessError :=
| Message (text : string)
| PlaceholderEncodeFailed (error : WireError)
| PublishFailed (context : string) (error : RingError)
| PublishEncodeFailed (context : string) (error : WireError)
| EncodedAppendFailed (context : string) (error : RingError)
| PollFailed (error : RingError)
| ConformanceFailed (error : ConformanceError)
| StoreFailed (error : IoError).

Section numbers.
Context {BP : BuildProfile} {E : Type}.

(** [a * b] on [u64]. *)
Definition mul64 (a b : Z) : res E Z :=
  if decide (a * b < 2 ^ 64) then Ok (a * b) else if overflow_checks then Panic else Ok ((a * b) mod 2 ^ 64).

(** [1..=count]. *)
Definition source_ids (count : u32) : list u32 := seqZ 1 count.

Definition expected_source (per_source : u64) (source_id : u32) : res E ExpectedSource :=
  total ← add64 per_source 1;
  Ok {| es_run_id := RUN_ID; es_source_id := source_id; es_expected_total := total |}.

Definition expected_sources (count : u32) (per_source : u64) : res E (list ExpectedSource) :=
  for_each (λ id acc, e ← expected_source per_source id; Ok (acc ++ [e])) (source_ids count) [].
End numbers.

(** ** The producer process *)
Section producer.
Context {BP : BuildProfile} {S : Type} {CS : ConcurrentStore S}.

Definition message_record (source_id : u32) (seq : u64) : res HarnessError WireRecord :=
  source_time ← add64 1780000000000000000 seq;
  Ok (record_new source_time RUN_ID seq source_id EVENT_MESSAGE).

(** [slots.last_mut().expect(..)]: the payload of the last slot. *)
Definition set_last_payload (payload : bytes) (record : WireRecord) : res HarnessError WireRecord :=
  match last (rec_slots record) with
  | None => Panic
  | Some slot =>
      Ok {| rec_flags := rec_flags record; rec_source_time := rec_source_time record; rec_run_id := rec_run_id record;
            rec_seq := rec_seq record; rec_source_id := rec_source_id record; rec_event_type_id := rec_event_type_id record;
            rec_slots := removelast (rec_slots record)
              ++ [{| slot_key := slot_key slot; slot_ty := slot_ty slot; slot_payload := payload |}] |}
  end.

Definition record_with_expected_abs (p : ConcurrentProducer S) (record : WireRecord) : res HarnessError WireRecord :=
  let record := pushed record [expected_abs_slot 0] in
  encoded ← map_err PlaceholderEncodeFailed (encode record true);
  expected_abs ← Concurrent.next_start_abs p (length encoded);
  set_last_payload (to_le_bytes 8 expected_abs) record.

Definition message_record_with_expected_abs (p : ConcurrentProducer S) (source_id : u32) (seq : u64) : res HarnessError WireRecord :=
  record ← message_record source_id seq;
  record_with_expected_abs p record.

Definition source_high_water_record_with_expected_abs (p : ConcurrentProducer S) (source_id : u32) (produced_count : u64)
  : res HarnessError WireRecord :=
  source_time ← add64 1780000000000000000 produced_count;
  let record := record_new source_time RUN_ID produced_count source_id EVENT_SOURCE_HIGH_WATER in
  record_with_expected_abs p (pushed record [slot_new KEY_SOURCE_HIGH_WATER TY_ULINT (to_le_bytes 8 produced_count)]).

Definition publish_record (p : ConcurrentProducer S) (mode : AppendMode) (record : WireRecord) (context : string)
  : io HarnessError (ConcurrentProducer S) :=
  match mode with
  | WriteRecord => io_map_err (PublishFailed context) (cp_write_record p record)
  | Encoded =>
      encoded ← Done (map_err (PublishEncodeFailed context) (encode record true));
      io_map_err (EncodedAppendFailed context) (append_encoded p encoded)
  end.

Definition write_message (mode : AppendMode) (seq : u64) (source_id : u32) (p : ConcurrentProducer S)
  : io HarnessError (ConcurrentProducer S) :=
  record ← Done (message_record_with_expected_abs p source_id seq);
  publish_record p mode record "producer write".

Definition write_high_water (mode : AppendMode) (per_source : u64) (source_id : u32) (p : ConcurrentProducer S)
  : io HarnessError (ConcurrentProducer S) :=
  record ← Done (source_high_water_record_with_expected_abs p source_id per_source);
  publish_record p mode record "producer high-water write".

Fixpoint io_for_each {E A T} (body : A → T → io E T) (l : list A) (t : T) : io E T :=
  match l with
  | [] => io_ret t
  | x :: l => t ← body x t; io_for_each body l t
  end.

(** [producer_cmd] from the first record to the last; the done file is created
    when it has returned. *)
Definition producer_run (sources : u32) (per_source : u64) (mode : AppendMode) (p : ConcurrentProducer S)
  : io HarnessError (ConcurrentProducer S) :=
  p ← io_for_each (λ seq p, io_for_each (write_message mode seq) (source_ids sources) p) (seqZ 0 per_source) p;
  io_for_each (write_high_water mode per_source) (source_ids sources) p.

(** The line it prints at the end. *)
Definition producer_summary (a : ProducerArgs) (p : ConcurrentProducer S) : io HarnessError string :=
  data_total ← Done (mul64 (pa_sources a) (pa_per_source a));
  per ← Done (add64 (pa_per_source a) 1);
  stream_total ← Done (mul64 (pa_sources a) per);
  head_abs ← load_head_acquire (cp_store p);
  lost_count ← load_lost_acquire (cp_store p);
  io_ret ("producer: fence=" +:+ fence_mode_as_str (pa_fence_mode a) +:+ " append_mode=" +:+ append_mode_as_str (pa_append_mode a)
    +:+ " sources=" +:+ dec (pa_sources a) +:+ " per_source=" +:+ dec (pa_per_source a) +:+ " data_total=" +:+ dec data_total
    +:+ " stream_total=" +:+ dec stream_total +:+ " head_abs=" +:+ dec head_abs +:+ " lost_count=" +:+ dec lost_count)%string.
End producer.

Section stores.
Context {BP : BuildProfile} {file : Type} {FS : FileSystem OsString file}.

(** The store the producer writes to; [exists_] is what [args.shm.exists()] found. *)
Definition producer_store (exists_ : bool) (a : ProducerArgs) : res HarnessError SharedConcurrentStore :=
  if exists_ then
    store ← map_err StoreFailed (open_existing_with_mode (pa_shm a) (pa_fence_mode a));
    if decide (ss_capacity store ≠ pa_cap a)
    then Err (Message ("existing shared mapping has cap " +:+ dec_nat (ss_capacity store) +:+ ", producer requested "
                       +:+ dec_nat (pa_cap a)))
    else Ok store
  else map_err StoreFailed (create_with_mode (pa_shm a) (pa_cap a) (pa_fence_mode a)).

Definition producer_cmd (exists_ : bool) (a : ProducerArgs) : io HarnessError (ConcurrentProducer SharedConcurrentStore) :=
  store ← Done (producer_store exists_ a);
  producer_run (pa_sources a) (pa_per_source a) (pa_append_mode a) (cp_with_store store).
End stores.

(** ** The consumer process *)
Record ConsumerState := MkConsumerState {
  ls_raw : ConcurrentRawConsumer SharedConcurrentStore;
  ls_accounting : LossAccountingConsumer;
  ls_observer : BatchObserver EmbeddedAbsOracle;
}.

(** What a turn of the loop finds of the done file and of the deadline. *)
Record Moment := MkMoment { mo_done : bool; mo_late : bool }.

Section consumer.
Context {BP : BuildProfile}.

Definition consumer_new (store : SharedConcurrentStore) : ConsumerState :=
  {| ls_raw := cc_with_store store; ls_accounting := lac_new; ls_observer := observer_new MkEmbeddedAbsOracle |}.

(** What is done with a batch. *)
Definition take_batch (batch : ReadBatch) (raw : ConcurrentRawConsumer SharedConcurrentStore) (c : ConsumerState)
  : res HarnessError ConsumerState :=
  observer ← map_err ConformanceFailed (observe_batch batch (ls_observer c));
  accounting ← map_err PollFailed (lac_account_batch (ls_accounting c) batch);
  Ok {| ls_raw := raw; ls_accounting := accounting; ls_observer := observer |}.

Definition consumer_turn (c : ConsumerState) : io HarnessError ConsumerState :=
  '(raw, result) ← io_map_err PollFailed (poll (ls_raw c));
  match result with
  | inl batch => Done (take_batch batch raw c)
  | inr error => Done (Err (PollFailed error))
  end.

(** [raw.cursor_abs() == raw.head_abs()]. *)
Definition caught_up (c : ConsumerState) : io HarnessError bool :=
  head_abs ← cc_head_abs (ls_raw c);
  io_ret (bool_decide (cc_cursor_abs (ls_raw c) = head_abs)).

Definition timed_out : HarnessError := Message "consumer timed out before producer completion".

(** The [loop], a moment per turn; without one left it is still running. *)
Fixpoint consumer_loop (moments : list Moment) (c : ConsumerState) : io HarnessError ConsumerState :=
  match moments with
  | [] => Done Diverge
  | m :: moments =>
      c ← consumer_turn c;
      finished ← (if mo_done m then caught_up c else io_ret false);
      if finished : bool then io_ret c
      else if mo_late m then Done (Err timed_out)
      else consumer_loop moments c
  end.

Definition consumer_report (a : ConsumerArgs) (store : SharedConcurrentStore) (c : ConsumerState) : io HarnessError ObservedReport :=
  sources ← Done (expected_sources (ca_sources a) (ca_per_source a));
  io_map_err PollFailed (from_consumer {|
    ri_metadata := {| om_mode := run_mode_as_str (ca_mode a); om_append_mode := append_mode_as_str (ca_append_mode a);
                      om_fence_mode := ca_fence_mode a |};
    ri_expected_sources := sources;
    ri_raw := ls_raw c;
    ri_accounting := ls_accounting c;
    ri_store := store;
    ri_poll_errors := 0;
    ri_stale_violations := into_violations (ls_observer c);
  |}).

Definition consumer_run (a : ConsumerArgs) (store : SharedConcurrentStore) (moments : list Moment) : io HarnessError ObservedReport :=
  c ← consumer_loop moments (consumer_new store);
  consumer_report a store c.

Context {file : Type} {FS : FileSystem OsString file}.

Definition consumer_store (a : ConsumerArgs) : res HarnessError SharedConcurrentStore :=
  store ← map_err StoreFailed (open_existing_with_mode (ca_shm a) (ca_fence_mode a));
  Ok (with_recheck_stall store (ca_recheck_stall_us a)).

(** The report and the line it prints. *)
Definition consumer_cmd (a : ConsumerArgs) (moments : list Moment) : io HarnessError (ObservedReport * string) :=
  store ← Done (consumer_store a);
  observed ← consumer_run a store moments;
  io_ret (observed, ConformanceReport.summary_line observed).
End consumer.

(** ** What the parent checks *)
Section checks.
Context {BP : BuildProfile}.

Definition harness_fail {A} (text : string) : res HarnessError A := Err (Message text).

(** [collect] into a map: the last source of an id stays. *)
Definition by_source (sources : list SourceObserved) : gmap u32 SourceObserved :=
  foldl (λ m source, <[sob_source_id source := source]> m) ∅ sources.

Definition check_expected (mode : FenceMode) (observed : gmap u32 SourceObserved) (expected : ExpectedSource) : res HarnessError unit :=
  match observed !! es_source_id expected with
  | None => harness_fail ("missing observed source " +:+ dec (es_source_id expected))
  | Some source =>
      if decide (sob_expected_total source ≠ es_expected_total expected)
      then harness_fail ("source " +:+ dec (es_source_id expected) +:+ " expected-total mismatch: run="
             +:+ dec (es_expected_total expected) +:+ " observed=" +:+ dec (sob_expected_total source)) else
      if decide (mode = Fenced) then
        total ← add64 (sob_delivered source) (sob_lost source);
        if decide (total ≠ es_expected_total expected)
        then harness_fail ("source " +:+ dec (es_source_id expected) +:+ " in-band reconciliation failed: delivered="
               +:+ dec (sob_delivered source) +:+ " lost=" +:+ dec (sob_lost source) +:+ " expected_total="
               +:+ dec (es_expected_total expected))
        else Ok tt
      else Ok tt
  end.

Definition assert_run_result (mode : FenceMode) (cap : usize) (sources : u32) (per_source : u64) (observed : ObservedReport)
  : res HarnessError unit :=
  if decide (or_delivered_total observed = 0) then harness_fail "consumer made no progress" else
  limit ← mul64 (Z.of_nat cap) 100;
  if decide (or_head_abs observed ≤ limit)
  then harness_fail ("insufficient absolute progress: head_abs=" +:+ dec (or_head_abs observed) +:+ " cap=" +:+ dec_nat cap) else
  if decide (or_lost_count observed = 0) then harness_fail "producer did not report ring evictions" else
  per ← add64 per_source 1;
  expected_total ← mul64 sources per;
  total ← (if decide (mode = Fenced) then add64 (or_delivered_total observed) (or_lost_total observed) else Ok expected_total);
  if decide (total < expected_total)
  then harness_fail ("consumer did not reconcile the full in-band stream: delivered=" +:+ dec (or_delivered_total observed)
         +:+ " lost=" +:+ dec (or_lost_total observed) +:+ " expected_total=" +:+ dec expected_total) else
  if decide (mode = Fenced ∧ or_stale_violations observed ≠ [])
  then harness_fail ("fenced run accepted stale records: " +:+ dec_nat (length (or_stale_violations observed))) else
  for_each (λ id _, e ← expected_source per_source id; check_expected mode (by_source (or_sources observed)) e)
    (source_ids sources) tt.

(** What the parent finds when both children have ended: the status of one that
    failed, the text of the report, the time taken and the cores used. *)
Record ChildRun := MkChildRun {
  cr_producer_failure : option string;
  cr_consumer_failure : option string;
  cr_report : string;
  cr_elapsed_ms : u64;
  cr_pinned : bool;
}.

Definition source_line (source : SourceObserved) : res HarnessError string :=
  reconciled ← add64 (sob_delivered source) (sob_lost source);
  Ok ("source " +:+ dec (sob_source_id source) +:+ ": expected_total=" +:+ dec (sob_expected_total source) +:+ " delivered="
      +:+ dec (sob_delivered source) +:+ " lost=" +:+ dec (sob_lost source) +:+ " reconciled=" +:+ dec reconciled)%string.

Definition stale_line (stale : StaleViolation) : string :=
  "stale: kind=" +:+ violation_as_str (sv_kind stale) +:+ " source=" +:+ dec (sv_source_id stale) +:+ " seq=" +:+ dec (sv_seq stale)
  +:+ " expected_abs=" +:+ dec (sv_expected_abs stale) +:+ " actual_abs=" +:+ dec (sv_actual_abs stale) +:+ " crc_passed="
  +:+ show_bool (sv_crc_passed stale).

Definition run_line (a : RunArgs) (iteration : option u64) (run : ChildRun) (observed : ObservedReport) : string :=
  "run: " +:+ match iteration with Some i => "iteration=" +:+ dec i +:+ " " | None => "" end
  +:+ "mode=" +:+ run_mode_as_str (ra_mode a) +:+ " fence=" +:+ fence_mode_as_str (ra_fence_mode a) +:+ " append_mode="
  +:+ append_mode_as_str (ra_append_mode a) +:+ " elapsed_ms=" +:+ dec (cr_elapsed_ms run) +:+ " pinned="
  +:+ show_bool (cr_pinned run) +:+ " stale_violations=" +:+ dec_nat (length (or_stale_violations observed)).

(** [run_once] from the end of the children on: the report and the lines printed. *)
Definition run_once (a : RunArgs) (iteration : option u64) (run : ChildRun) : res HarnessError (ObservedReport * list string) :=
  match cr_producer_failure run with
  | Some status => harness_fail ("producer failed with " +:+ status)
  | None =>
      match cr_consumer_failure run with
      | Some status => harness_fail ("consumer failed with " +:+ status)
      | None =>
          observed ← map_err ConformanceFailed (read_text (cr_report run));
          _ ← assert_run_result (ra_fence_mode a) (ra_cap a) (ra_sources a) (ra_per_source a) observed;
          source_lines ← for_each (λ source acc, l ← source_line source; Ok (acc ++ [l])) (or_sources observed) [];
          Ok (observed, [run_line a iteration run observed; ConformanceReport.summary_line observed] ++ source_lines
                        ++ (stale_line <$> or_stale_violations observed))
      end
  end.

Definition non_reproduction_line : string := "unfenced: " +:+ non_reproduction_note.

Definition print_unfenced_non_reproduction_note (a : RunArgs) (observed : ObservedReport) : list string :=
  if decide (ra_fence_mode a = Unfenced ∧ or_stale_violations observed = [])
  then if ue_hazard_observed (unfenced_evidence observed) then [] else [non_reproduction_line]
  else [].

(** ** Stress runs *)
Record UnfencedStressSummary := MkUnfencedStressSummary {
  us_hazard_iterations : u64;
  us_stale_violations : u64;
  us_rejected_records : u64;
  us_poll_errors : u64;
  us_overwritten_retries : u64;
  us_lapped_batches : u64;
  us_delivered_total : u64;
  us_lost_total : u64;
  us_lost_count : u64;
}.

Definition stress_default : UnfencedStressSummary := MkUnfencedStressSummary 0 0 0 0 0 0 0 0 0.

Definition stress_observe (evidence : UnfencedEvidence) (s : UnfencedStressSummary) : res HarnessError UnfencedStressSummary :=
  hazard ← (if ue_hazard_observed evidence then add64 (us_hazard_iterations s) 1 else Ok (us_hazard_iterations s));
  stale ← add64 (us_stale_violations s) (Z.of_nat (ue_stale_violations evidence));
  rejected ← add64 (us_rejected_records s) (ue_rejected_records evidence);
  errors ← add64 (us_poll_errors s) (ue_poll_errors evidence);
  retries ← add64 (us_overwritten_retries s) (ue_overwritten_retries evidence);
  lapped ← add64 (us_lapped_batches s) (ue_lapped_batches evidence);
  delivered ← add64 (us_delivered_total s) (ue_delivered_total evidence);
  lost ← add64 (us_lost_total s) (ue_lost_total evidence);
  count ← add64 (us_lost_count s) (ue_lost_count evidence);
  Ok (MkUnfencedStressSummary hazard stale rejected errors retries lapped delivered lost count).

Definition hazard_observed (s : UnfencedStressSummary) : bool := bool_decide (0 < us_hazard_iterations s).

Definition stress_summary_line (s : UnfencedStressSummary) (iterations : u64) : string :=
  "unfenced_stress: outcome=" +:+ (if hazard_observed s then "hazard-observed" else "non-reproduction") +:+ " iterations="
  +:+ dec iterations +:+ " hazard_iterations=" +:+ dec (us_hazard_iterations s) +:+ " stale=" +:+ dec (us_stale_violations s)
  +:+ " rejected=" +:+ dec (us_rejected_records s) +:+ " poll_errors=" +:+ dec (us_poll_errors s) +:+ " retries="
  +:+ dec (us_overwritten_retries s) +:+ " lapped=" +:+ dec (us_lapped_batches s) +:+ " delivered=" +:+ dec (us_delivered_total s)
  +:+ " lost=" +:+ dec (us_lost_total s) +:+ " lost_count=" +:+ dec (us_lost_count s).

(** One iteration; [runs] gives what each finds of its children. *)
Definition stress_iteration (a : RunArgs) (runs : u64 → ChildRun) (iteration : u64) (s : UnfencedStressSummary * list string)
  : res HarnessError (UnfencedStressSummary * list string) :=
  '(observed, out) ← run_once a (Some iteration) (runs iteration);
  let evidence := unfenced_evidence observed in
  stress ← stress_observe evidence s.1;
  Ok (stress, s.2 ++ out ++ [("stress iteration " +:+ dec iteration +:+ ": " +:+ evidence_summary_line evidence)%string]).

(** The lines printed. *)
Definition run_stress_cmd (a : RunArgs) (runs : u64 → ChildRun) : res HarnessError (list string) :=
  '(stress, out) ← for_each (stress_iteration a runs) (seqZ 1 (ra_iterations a)) (stress_default, []);
  Ok (out ++ stress_summary_line stress (ra_iterations a) :: (if hazard_observed stress then [] else [non_reproduction_line])).

Definition run_cmd (a : RunArgs) (runs : u64 → ChildRun) : res HarnessError (list string) :=
  if decide (ra_iterations a = 0) then harness_fail "--iterations must be greater than zero" else
  if decide (1 < ra_iterations a ∧ ra_fence_mode a ≠ Unfenced)
  then harness_fail "--iterations > 1 is an unfenced diagnostic stress mode; pass --unfenced" else
  if decide (1 < ra_iterations a) then run_stress_cmd a runs else
  '(observed, out) ← run_once a None (runs 1);
  Ok (out ++ print_unfenced_non_reproduction_note a observed).
End checks.
