(* ===== verification/HarnessCheck.v ===== *)
(** * The parent's check of a run (crates/live-harness/src/main.rs)

    What [assert_run_result] accepts, and that [run_once] accepts the report of a
    child exactly then. *)
From stdpp Require Import strings.
From S2P Require Import Prelude Crc Wire Control Registry Layout Ring RingRead Loss Consumer Memory Concurrent Shared Text Conformance ConformanceReport Vectors HarnessArgs Harness.
#[local] Open Scope Z_scope.

(** The source of an id that counts is the last one of it. *)
Definition source_shown (observed : ObservedReport) (id : u32) : option SourceObserved :=
  last (filter (λ o, sob_source_id o = id) (or_sources observed)).

Definition source_accepted (mode : FenceMode) (per_source : u64) (observed : ObservedReport) (id : u32) : Prop :=
  match source_shown observed id with
  | Some o => sob_expected_total o = per_source + 1 ∧ (mode = Fenced → sob_delivered o + sob_lost o = per_source + 1)
  | None => False
  end.

(** A run is accepted when it delivered something, the head went round the ring a
    hundred times, records were evicted, and every source shows its total; with
    the fence on, delivered and lost must also add up and no stale record may
    have been seen. *)
Definition run_accepted (mode : FenceMode) (cap : usize) (sources : u32) (per_source : u64) (observed : ObservedReport) : Prop :=
  or_delivered_total observed ≠ 0 ∧ Z.of_nat cap * 100 < or_head_abs observed ∧ or_lost_count observed ≠ 0
  ∧ (mode = Fenced → sources * (per_source + 1) ≤ or_delivered_total observed + or_lost_total observed)
  ∧ (mode = Fenced → or_stale_violations observed = [])
  ∧ Forall (source_accepted mode per_source observed) (source_ids sources).

(** No sum or product of the check leaves a [u64]. *)
Definition check_fits (cap : usize) (sources : u32) (per_source : u64) (observed : ObservedReport) : Prop :=
  Z.of_nat cap * 100 < 2 ^ 64 ∧ per_source + 1 < 2 ^ 64 ∧ sources * (per_source + 1) < 2 ^ 64
  ∧ or_delivered_total observed + or_lost_total observed < 2 ^ 64
  ∧ Forall (λ o, sob_delivered o + sob_lost o < 2 ^ 64) (or_sources observed).

#[global] Instance check_fits_dec cap sources per_source observed : Decision (check_fits cap sources per_source observed).
Proof. unfold check_fits. apply _. Defined.
#[global] Instance source_accepted_dec mode per_source observed id : Decision (source_accepted mode per_source observed id).
Proof. unfold source_accepted. destruct (source_shown observed id); apply _. Defined.
#[global] Instance run_accepted_dec mode cap sources per_source observed : Decision (run_accepted mode cap sources per_source observed).
Proof. unfold run_accepted. apply _. Defined.

(** ** The check *)
Lemma by_source_shown observed id : by_source (or_sources observed) !! id = source_shown observed id.
Proof.
  unfold by_source, source_shown. induction (or_sources observed) as [|o l IH] using rev_ind; [done|].
  rewrite foldl_app, filter_app, filter_cons, filter_nil. cbn [foldl]. destruct (decide (sob_source_id o = id)) as [<-|Hne].
  - by rewrite lookup_insert_eq, last_snoc.
  - by rewrite lookup_insert_ne, app_nil_r.
Qed.

Lemma shown_in observed id o : source_shown observed id = Some o → o ∈ or_sources observed ∧ sob_source_id o = id.
Proof.
  intros H%last_Some. destruct H as [l Hl]. assert (Hin : o ∈ filter (λ o, sob_source_id o = id) (or_sources observed)).
  { rewrite Hl. apply elem_of_app. right. by left. }
  by apply list_elem_of_filter in Hin as [? ?].
Qed.

Section checked.
Context {BP : BuildProfile}.

Lemma checks_fail {A} text (P : Prop) : ¬ P → checks (harness_fail (A:=A) text) P.
Proof. done. Qed.

(** A test that fails the run, before the others. *)
Lemma checks_test (T : Prop) `{Decision T} text (m : res HarnessError unit) P :
  (¬ T → checks m P) → checks (if decide T then harness_fail text else m) (¬ T ∧ P).
Proof. intros Hm. destruct (decide T); [apply checks_fail; tauto|]. eapply checks_iff; [|by apply Hm]. tauto. Qed.

Lemma mul64_ok {E} x y : x * y < 2 ^ 64 → mul64 (E:=E) x y = Ok (x * y).
Proof. intros H. unfold mul64. by rewrite decide_True. Qed.

Lemma check_expected_checks mode per_source observed id :
  per_source + 1 < 2 ^ 64 → Forall (λ o, sob_delivered o + sob_lost o < 2 ^ 64) (or_sources observed) →
  checks (e ← expected_source per_source id; check_expected mode (by_source (or_sources observed)) e)
    (source_accepted mode per_source observed id).
Proof.
  intros Hp Hf. unfold expected_source. rewrite add_w_ok by done. rewrite !ok_bind. unfold check_expected, source_accepted.
  cbn [es_source_id es_expected_total]. rewrite by_source_shown. destruct (source_shown observed id) as [o|] eqn:Ho; [|apply checks_fail; by intros []].
  rewrite Forall_forall in Hf. specialize (Hf o (proj1 (shown_in _ _ _ Ho))).
  destruct (decide (sob_expected_total o ≠ per_source + 1)) as [Hne|Heq]; [apply checks_fail; tauto|]. apply dec_stable in Heq.
  destruct (decide (mode = Fenced)) as [Hm|Hm]; [|by apply checks_ok].
  rewrite add_w_ok by done. rewrite ok_bind. destruct (decide (_ ≠ per_source + 1)) as [Hs|Hs]; [apply checks_fail; tauto|apply dec_stable in Hs; by apply checks_ok].
Qed.

Lemma assert_run_result_checks mode cap sources per_source observed :
  check_fits cap sources per_source observed →
  checks (assert_run_result mode cap sources per_source observed) (run_accepted mode cap sources per_source observed).
Proof.
  intros (Hc & Hp & Ht & Hs & Hf). unfold assert_run_result, run_accepted. apply checks_test. intros Hd.
  rewrite mul64_ok, ok_bind by done.
  eapply checks_iff with (P := ¬ or_head_abs observed ≤ Z.of_nat cap * 100 ∧ _); [rewrite Z.nle_gt; reflexivity|]. apply checks_test. intros Hh.
  apply checks_test. intros Hl. rewrite (add_w_ok _ per_source), ok_bind, mul64_ok, ok_bind by done.
  assert (Hall : checks (for_each (λ id _, e ← expected_source per_source id; check_expected mode (by_source (or_sources observed)) e)
    (source_ids sources) tt) (Forall (source_accepted mode per_source observed) (source_ids sources))).
  { apply checks_for_each. intros id _. by apply check_expected_checks. }
  destruct (decide (mode = Fenced)) as [->|Hm].
  - rewrite add_w_ok, ok_bind by done.
    eapply checks_iff with (P := ¬ or_delivered_total observed + or_lost_total observed < sources * (per_source + 1)
      ∧ ¬ (Fenced = Fenced ∧ or_stale_violations observed ≠ []) ∧ Forall (source_accepted Fenced per_source observed) (source_ids sources)).
    { rewrite Z.nlt_ge. split; [intros (? & Hn & ?); split_and!; [done| |done]; intros _; apply dec_stable; tauto|].
      intros (H1 & H2 & H3). split_and!; [by apply H1|by intros [_ []]; apply H2|done]. }
    apply checks_test. intros _. apply checks_test. by intros _.
  - rewrite ok_bind, decide_False by lia. rewrite decide_False by tauto. eapply checks_iff; [|exact Hall]. tauto.
Qed.

Lemma source_lines_ok l : ∀ acc, Forall (λ o, sob_delivered o + sob_lost o < 2 ^ 64) l →
  ∃ out, for_each (λ source acc, l ← source_line source; Ok (acc ++ [l])) l acc = Ok out.
Proof.
  induction l as [|o l IH]; intros acc; [by eexists|]. intros [Ho Hl]%Forall_cons_1. cbn [for_each].
  assert (Hline : ∃ x, source_line o = Ok x) by (unfold source_line; rewrite add_w_ok by done; by eexists).
  destruct Hline as [x ->]. rewrite !ok_bind. by apply IH.
Qed.

(** What [run_once] makes of a report that was written by the consumer. *)
Lemma run_once_checks a iteration run observed :
  cr_producer_failure run = None → cr_consumer_failure run = None → cr_report run = report_text observed → readable observed →
  check_fits (ra_cap a) (ra_sources a) (ra_per_source a) observed →
  checks (run_once a iteration run) (run_accepted (ra_fence_mode a) (ra_cap a) (ra_sources a) (ra_per_source a) observed)
  ∧ ∀ x lines, run_once a iteration run = Ok (x, lines) → x = observed.
Proof.
  intros Hp Hc Hr (Hok & Hm & Ha) Hfit. unfold run_once. rewrite Hp, Hc, Hr, read_back by done. cbn [map_err]. rewrite ok_bind.
  pose proof (assert_run_result_checks (ra_fence_mode a) _ _ _ _ Hfit) as Hck.
  destruct (source_lines_ok (or_sources observed) []) as (out & Hout); [apply Hfit|].
  destruct (assert_run_result _ _ _ _ _); try done; rewrite ?ok_bind, ?Hout; cbn [mbind res_bind]; (split; [exact Hck|]).
  by intros x lines [= <- <-].
Qed.

(** C14: the parent's check, whenever its sums fit a [u64]: it never panics, and
    it accepts a report exactly when the run delivered something, the head went
    round the ring a hundred times, records were evicted, every source shows its
    expected total, and, with the fence on, each source's and the whole stream's
    delivered and lost counts cover what was written and no stale record was
    seen. *)
Theorem assert_run_result_exact mode cap sources per_source observed :
  check_fits cap sources per_source observed →
  checks (assert_run_result mode cap sources per_source observed) (run_accepted mode cap sources per_source observed).
Proof. apply assert_run_result_checks. Qed.
End checked.

(** A report of a fenced run of two sources, and one that lost a record unseen. *)
Definition passing_report (delivered : u64) : ObservedReport :=
  {| or_mode := "smoke"; or_fence_mode := Fenced; or_append_mode := "write-record"; or_cap := 512; or_head_abs := 90000;
     or_lost_count := 20; or_lapped_batches := 3; or_overwritten_retries := 1; or_rejected_records := 0; or_poll_errors := 0;
     or_delivered_total := 490 + delivered; or_lost_total := 40; or_stale_violations := [];
     or_sources := [MkSourceObserved 1 1 500 delivered 30; MkSourceObserved 1 2 500 490 10] |}.

Lemma assert_run_result_exact_witness :
  assert_run_result (BP:=dev_profile) Fenced 512 2 499 (passing_report 470) = Ok tt
  ∧ ∃ e, assert_run_result (BP:=dev_profile) Fenced 512 2 499 (passing_report 469) = Err e.
Proof.
  split.
  - destruct (checks_true _ _ (assert_run_result_exact (BP:=dev_profile) Fenced 512 2 499 (passing_report 470) ltac:(by_compute)) ltac:(by_compute)) as ([] & H). exact H.
  - apply (checks_false _ _ (assert_run_result_exact (BP:=dev_profile) Fenced 512 2 499 (passing_report 469) ltac:(by_compute))). by_compute.
Defined.
