(* ===== verification/HarnessStream.v ===== *)
(** * What the producer of a run writes (crates/live-harness/src/main.rs)

    The records of a run in order, each with the offset it is going to be placed
    at, and that the producer's program performs exactly the accesses of writing
    them, in either append mode. *)
From stdpp Require Import strings.
From S2P Require Import Prelude Crc Wire Control Registry Layout Ring RingRead Loss Consumer Memory Concurrent ConcurrentWriter ConcurrentSolo ConcurrentRead ConcurrentSystem Shared Text Conformance ConformanceReport Vectors HarnessArgs Harness.
#[local] Open Scope Z_scope.

#[local] Arguments from_le_bytes : simpl never.
#[local] Arguments to_le_bytes : simpl never.

(** ** The records *)
Definition data_record (seq : u64) (source_id : u32) : WireRecord :=
  record_new (1780000000000000000 + seq) RUN_ID seq source_id EVENT_MESSAGE.
Definition high_water_record (per_source : u64) (source_id : u32) : WireRecord :=
  pushed (record_new (1780000000000000000 + per_source) RUN_ID per_source source_id EVENT_SOURCE_HIGH_WATER)
    [slot_new KEY_SOURCE_HIGH_WATER TY_ULINT (to_le_bytes 8 per_source)].

(** In write order, without their offsets. *)
Definition plan (sources : u32) (per_source : u64) : list WireRecord :=
  (seqZ 0 per_source ≫= λ seq, data_record seq <$> source_ids sources)
  ++ (high_water_record per_source <$> source_ids sources).

Definition with_abs (x : u64) (rec : WireRecord) : WireRecord := pushed rec [expected_abs_slot x].

Section stream.
Context (cap : nat).

(** The record as it is written after [rs]: it holds its own offset. *)
Definition located (rs : list WireRecord) (rec : WireRecord) : WireRecord :=
  with_abs (place cap (ab_head (abs_of cap rs)) (length (enc_record (with_abs 0 rec) true))) rec.

Definition stream_from (rs recs : list WireRecord) : list WireRecord :=
  foldl (λ rs rec, rs ++ [located rs rec]) rs recs.
Definition stream (sources : u32) (per_source : u64) : list WireRecord := stream_from [] (plan sources per_source).

Lemma stream_from_app rs l1 l2 : stream_from rs (l1 ++ l2) = stream_from (stream_from rs l1) l2.
Proof. apply foldl_app. Qed.

Lemma stream_from_prefix recs : ∀ rs, rs `prefix_of` stream_from rs recs.
Proof.
  induction recs as [|rec recs IH]; intros rs; [done|]. unfold stream_from in *. cbn [foldl].
  etrans; [|apply IH]. by apply prefix_app_r.
Qed.

Lemma length_with_abs x rec : length (enc_record (with_abs x rec) true) = length (enc_record (with_abs 0 rec) true).
Proof.
  rewrite !length_enc_record. unfold record_len, with_abs, pushed, with_slots, enc_slots. cbn [foldl rec_slots].
  rewrite !fmap_app, !concat_app, !length_app. by do 3 f_equal.
Qed.

Lemma located_placed rs rec : en_start (placed (abs_of cap rs) (located rs rec))
  = place cap (ab_head (abs_of cap rs)) (length (enc_record (with_abs 0 rec) true)).
Proof. cbn [placed en_start]. unfold located. by rewrite length_with_abs, abs_of_cap. Qed.

(** What a plan must satisfy for a ring of [cap] bytes. *)
Definition plannable (rec : WireRecord) : Prop := fits_ring cap (with_abs 0 rec).

Lemma located_fits rs rec : is_u64 (en_start (placed (abs_of cap rs) (located rs rec))) → plannable rec → fits_ring cap (located rs rec).
Proof.
  rewrite located_placed. unfold located. generalize (place cap (ab_head (abs_of cap rs)) (length (enc_record (with_abs 0 rec) true))).
  intros x Hx [[[Hw Hl] Hs] Hc]. split; [|by rewrite length_with_abs]. split; [|exact Hs]. split.
  - destruct Hw as (H1 & H2 & H3 & H4 & H5 & H6 & H7). split_and!; try done.
    cbn [with_abs pushed with_slots foldl rec_slots] in *. apply Forall_app in H7 as [H7 _]. apply Forall_app. split; [done|].
    constructor; [|done]. by apply slot_le_wf; [by_compute|by_compute|lia].
  - rewrite <-length_enc_record in Hl |- *. by rewrite length_with_abs.
Qed.
End stream.

(** ** The accesses of the producer *)
Lemma emits_map_err {E F A} (f : E → F) ops (a : A) : ∀ p, emits ops p (Done (Ok a)) → emits ops (io_map_err f p) (Done (Ok a)).
Proof.
  induction ops as [|[o l v|o l v expect|o] ops IH]; intros p; cbn [emits]; [by intros ->|..];
    intros (p' & -> & Hp); (eexists; split; [reflexivity|]); intros; apply IH; auto.
Qed.

Section producer.
Context {BP : BuildProfile} {SQ : Sequenced} {S : Type} {CS : ConcurrentStore S} {SL : StoreLaws S}.
Context (cap : nat) (Hcap : (0 < cap)%nat) (RS : list WireRecord) (Hok : rs_ok cap RS).

(** The producer's fields after [rs]. *)
Definition wrote (rs : list WireRecord) (p : ConcurrentProducer S) : Prop :=
  lawful (cp_store p) ∧ prod_rep p (abs_of cap rs).

Lemma publish_record_emits rs rec mode context p :
  rs ++ [rec] `prefix_of` RS → wrote rs p →
  ∃ p', emits (append_ops (abs_of cap rs) rec) (publish_record p mode rec context) (Done (Ok p')) ∧ wrote (rs ++ [rec]) p'.
Proof.
  intros Hpre [Hlaw Hp]. assert (Hok' : rs_ok cap (rs ++ [rec])) by (by eapply rs_ok_prefix).
  assert (Hrs : rs_ok cap rs) by (eapply rs_ok_prefix; [exact Hcap|by apply prefix_app_r|exact Hok']).
  destruct (history_ring cap Hcap rs Hrs) as (r & _ & Hrep & _ & Hh). destruct Hok' as [Hfit Hroom].
  apply Forall_app in Hfit as [_ Hfit]. apply Forall_cons_1 in Hfit as [Hfit _]. pose proof Hfit as [[Henc Hsq] Hlen].
  rewrite length_app in Hroom. cbn [length] in Hroom.
  exists (appended p (abs_of cap rs) rec). split; [|split; [exact Hlaw|rewrite abs_of_snoc; by eapply appended_rep]].
  assert (Hcore : ∀ E, emits (E:=E) (append_ops (abs_of cap rs) rec) (append_bytes_core p (enc_record rec true)) (Done (Ok (appended p (abs_of cap rs) rec)))).
  { intros E. apply (append_bytes_core_emits p Hlaw r); [done|done|by rewrite abs_of_cap|rewrite abs_of_cap; nia]. }
  assert (Hc : cs_capacity (cp_store p) = cap) by (rewrite (pr_cap _ _ Hp); apply abs_of_cap).
  assert (Hwrite : cp_write_record p rec = append_bytes_core p (enc_record rec true)).
  { unfold cp_write_record. rewrite encodable_encode by done. cbn [map_err mbind io_bind io_match]. by rewrite Hc, decide_False by lia. }
  destruct mode; cbn [publish_record].
  - apply emits_map_err. rewrite Hwrite. apply Hcore.
  - rewrite encodable_encode by done. cbn [map_err mbind io_bind io_match]. apply emits_map_err.
    assert (Hb : bytes_ok (enc_record rec true)) by (apply enc_record_ok, Henc).
    destruct (append_encoded_writes p (enc_record rec true) Hb) as (Heq & _ & Hre). rewrite Heq.
    pose proof (encodable_decode rec [] Henc) as Hd. rewrite app_nil_r in Hd. rewrite Hd.
    destruct (validate_decode _ Hb) as [(e & _ & He)|(d & _ & Hd' & Hf)]; [congruence|]. rewrite Hd in Hd'. injection Hd' as <-.
    cbn [dec_record dec_consumed] in *. assert (Hcrc : has_crc (frame_flags (enc_record rec true)) = true).
    { rewrite <-Hf. cbn [stored with_flags rec_flags]. apply has_crc_flags, Henc. }
    specialize (Hre _ Hd Hcrc eq_refl). cbn [dec_record] in Hre.
    rewrite Hcrc, (decide_True (P := length _ = length _)) by done.
    rewrite decide_False; [|destruct (en_len_bounds {| en_start := 0; en_rec := rec |}) as [Hl _]; [apply Henc|unfold en_len, en_bytes, HEADER_LEN in *; cbn [en_rec] in Hl; lia]].
    unfold cp_write_record. rewrite Hre. cbn [map_err mbind io_bind io_match]. rewrite Hc, decide_False by lia. apply Hcore.
Qed.

Lemma record_with_expected_abs_ok rs rec p :
  rs ++ [located cap rs rec] `prefix_of` RS → plannable cap rec → wrote rs p →
  record_with_expected_abs p rec = Ok (located cap rs rec).
Proof.
  intros Hpre Hpl [Hlaw Hp]. assert (Hrs : rs_ok cap rs).
  { eapply rs_ok_prefix; [exact Hcap| |exact Hok]. etrans; [by apply prefix_app_r|exact Hpre]. }
  destruct (history_ring cap Hcap rs Hrs) as (r & _ & Hrep & _ & Hh). pose proof Hok as [_ Hroom].
  pose proof (prefix_length _ _ Hpre) as Hl. rewrite length_app in Hl. cbn [length] in Hl.
  unfold record_with_expected_abs. fold (with_abs 0 rec). pose proof Hpl as [[Henc _] _].
  rewrite encodable_encode by done. cbn [map_err]. rewrite ok_bind, (next_start_abs_ok p r (abs_of cap rs) (with_abs 0 rec)), ok_bind;
    [|done|done|by rewrite abs_of_cap|rewrite abs_of_cap; nia].
  cbn [placed en_start]. rewrite abs_of_cap. unfold set_last_payload, with_abs, located, pushed, with_slots. cbn [foldl rec_slots].
  rewrite last_snoc, removelast_last. done.
Qed.

(** [f], run after [rs], performs the accesses of writing what [rs'] adds to it. *)
Definition produces (f : ConcurrentProducer S → io HarnessError (ConcurrentProducer S)) (rs rs' : list WireRecord) : Prop :=
  rs' `prefix_of` RS → ∀ p, wrote rs p →
  ∃ ops p', emits ops (f p) (Done (Ok p')) ∧ ops_ok (after cap rs).1 ops ∧ w_ops ops (after cap rs).1 = (after cap rs').1 ∧ wrote rs' p'.

Lemma produces_seq f g rs1 rs2 rs3 : rs2 `prefix_of` rs3 →
  produces f rs1 rs2 → produces g rs2 rs3 → produces (λ p, p ← f p; g p) rs1 rs3.
Proof.
  intros H23 Hf Hg Hpre p Hp. destruct (Hf ltac:(by etrans) p Hp) as (ops1 & p1 & He1 & Ho1 & Hw1 & Hp1).
  destruct (Hg Hpre p1 Hp1) as (ops2 & p2 & He2 & Ho2 & Hw2 & Hp2). exists (ops1 ++ ops2), p2. split_and!; [| | |done].
  - eapply emits_app; [apply (emits_bind ops1 (Done (Ok p1)) g _ He1)|exact He2].
  - apply ops_ok_app. split; [done|]. by rewrite Hw1.
  - by rewrite w_ops_app, Hw1.
Qed.

Lemma publish_produces rs rec mode context m :
  m = Ok rec → produces (λ p, record ← Done m; publish_record p mode record context) rs (rs ++ [rec]).
Proof.
  intros -> Hpre p Hp. cbn [mbind io_bind io_match]. destruct (publish_record_emits rs rec mode context p Hpre Hp) as (p' & He & Hp').
  exists (append_ops (abs_of cap rs) rec), p'. split_and!; [done|apply append_ops_ok, (proj1 (lock_even cap Hcap rs))|by rewrite after_append|done].
Qed.

Lemma located_produces mode rs rec context
    (make : ConcurrentProducer S → res HarnessError WireRecord) :
  (∀ p, make p = record_with_expected_abs p rec) → plannable cap rec →
  produces (λ p, record ← Done (make p); publish_record p mode record context) rs (stream_from cap rs [rec]).
Proof.
  intros Hm Hpl Hpre p Hp. apply (publish_produces rs (located cap rs rec) mode context (make p)); [|done|done].
  rewrite Hm. by apply record_with_expected_abs_ok.
Qed.

Lemma write_message_produces mode seq id rs :
  plannable cap (data_record seq id) → produces (write_message mode seq id) rs (stream_from cap rs [data_record seq id]).
Proof.
  intros Hpl. apply (located_produces mode rs (data_record seq id) "producer write" (λ p, message_record_with_expected_abs p id seq)); [|done].
  intros p. unfold message_record_with_expected_abs, message_record. destruct Hpl as [[[(_ & [_ Ht] & _) _] _] _].
  rewrite add_w_ok by exact Ht. done.
Qed.

Lemma write_high_water_produces mode per_source id rs :
  plannable cap (high_water_record per_source id) →
  produces (write_high_water mode per_source id) rs (stream_from cap rs [high_water_record per_source id]).
Proof.
  intros Hpl. apply (located_produces mode rs (high_water_record per_source id) "producer high-water write"
    (λ p, source_high_water_record_with_expected_abs p id per_source)); [|done].
  intros p. unfold source_high_water_record_with_expected_abs. destruct Hpl as [[[(_ & [_ Ht] & _) _] _] _].
  rewrite add_w_ok by exact Ht. done.
Qed.

Lemma for_each_produces {A} (body : A → ConcurrentProducer S → io HarnessError (ConcurrentProducer S)) (recs : A → list WireRecord) l : ∀ rs,
  (∀ x rs, x ∈ l → produces (body x) rs (stream_from cap rs (recs x))) →
  produces (io_for_each body l) rs (stream_from cap rs (l ≫= recs)).
Proof.
  induction l as [|x l IH]; intros rs Hb.
  - intros _ p Hp. by exists [], p.
  - cbn [mbind list_bind]. rewrite stream_from_app. apply (produces_seq (body x) (io_for_each body l) rs (stream_from cap rs (recs x))).
    + apply stream_from_prefix.
    + apply Hb. by left.
    + apply IH. intros y rs' Hy. apply Hb. by right.
Qed.
End producer.

Lemma bind_singletons {A B} (f : A → B) l : l ≫= (λ x, [f x]) = f <$> l.
Proof. induction l as [|x l IH]; [done|]. cbn. by rewrite IH. Qed.

(** ** The stream of a run *)

(** Few enough records for 64-bit offsets and times, and room for one of them. *)
Definition run_sizes (cap : nat) (sources : u32) (per_source : u64) : Prop :=
  (68 ≤ cap)%nat ∧ is_u32 sources ∧ 0 ≤ per_source ∧ 1780000000000000000 + per_source < 2 ^ 64
  ∧ 2 * Z.of_nat cap * (sources * (per_source + 1) + 1) < 2 ^ 64.
#[global] Instance run_sizes_dec cap sources per_source : Decision (run_sizes cap sources per_source).
Proof. unfold run_sizes. apply _. Defined.

Lemma length_data seq id : length (enc_record (with_abs 0 (data_record seq id)) true) = 56%nat.
Proof. by rewrite length_enc_record. Qed.
Lemma length_high_water per_source id : length (enc_record (with_abs 0 (high_water_record per_source id)) true) = 68%nat.
Proof. by rewrite length_enc_record. Qed.

Lemma expected_slot_wf x : slot_wf (expected_abs_slot x).
Proof. apply slot_le_wf; [by_compute|by_compute|lia]. Qed.

Section run.
Context (cap : nat) (sources : u32) (per_source : u64) (Hrun : run_sizes cap sources per_source).

Lemma data_plannable seq id : 0 ≤ seq < per_source → id ∈ source_ids sources → plannable cap (data_record seq id).
Proof.
  destruct Hrun as (Hc & [_ Hs] & _ & Ht & _). intros Hq Hid%elem_of_seqZ. unfold plannable, fits_ring. rewrite length_data. split; [|lia].
  split; [|cbn; unfold U64_MAX; lia]. split; [|rewrite <-length_enc_record, length_data; by_compute].
  split_and!; cbn -[expected_abs_slot]; unfold fits; try lia; [by_compute..|]. constructor; [apply expected_slot_wf|done].
Qed.

Lemma high_water_plannable id : id ∈ source_ids sources → plannable cap (high_water_record per_source id).
Proof.
  destruct Hrun as (Hc & [_ Hs] & Hp & Ht & _). intros Hid%elem_of_seqZ. unfold plannable, fits_ring. rewrite length_high_water. split; [|lia].
  split; [|cbn; unfold U64_MAX; lia]. split; [|rewrite <-length_enc_record, length_high_water; by_compute].
  split_and!; cbn -[expected_abs_slot to_le_bytes]; unfold fits; try lia; [by_compute..|].
  constructor; [apply slot_le_wf; [by_compute|by_compute|lia]|]. constructor; [apply expected_slot_wf|done].
Qed.

(** The plan, record by record. *)
Lemma plan_cases rec : rec ∈ plan sources per_source ↔
  (∃ seq id, 0 ≤ seq < per_source ∧ id ∈ source_ids sources ∧ rec = data_record seq id)
  ∨ ∃ id, id ∈ source_ids sources ∧ rec = high_water_record per_source id.
Proof.
  unfold plan. rewrite elem_of_app. split.
  - intros [(seq & Hin & Hq%elem_of_seqZ)%list_elem_of_bind|(id & -> & Hid)%list_elem_of_fmap]; [left|right; by exists id].
    apply list_elem_of_fmap in Hin as (id & -> & Hid). exists seq, id. split_and!; [lia|lia|done|done].
  - intros [(seq & id & Hq & Hid & ->)|(id & Hid & ->)]; [left|right; by apply list_elem_of_fmap_2].
    apply list_elem_of_bind. exists seq. split; [by apply list_elem_of_fmap_2|]. apply elem_of_seqZ. lia.
Qed.

Lemma plan_plannable : Forall (plannable cap) (plan sources per_source).
Proof.
  apply Forall_forall. intros rec [(seq & id & Hq & Hid & ->)|(id & Hid & ->)]%plan_cases; [by apply data_plannable|by apply high_water_plannable].
Qed.

Lemma length_plan : Z.of_nat (length (plan sources per_source)) = sources * (per_source + 1).
Proof.
  destruct Hrun as (_ & [Hs _] & Hp & _). unfold plan. rewrite length_app, length_fmap. unfold source_ids.
  assert (Hb : ∀ l : list Z, length (l ≫= λ seq, data_record seq <$> seqZ 1 sources) = (length l * Z.to_nat sources)%nat).
  { induction l as [|x l IH]; [done|]. cbn [mbind list_bind]. rewrite length_app, length_fmap, length_seqZ, IH. cbn [length]. lia. }
  rewrite Hb, !length_seqZ. nia.
Qed.
End run.

Section stream_ok.
Context {BP : BuildProfile} {SQ : Sequenced} (cap : nat) (Hcap : (0 < cap)%nat).

Lemma length_stream_from recs : ∀ rs, length (stream_from cap rs recs) = (length rs + length recs)%nat.
Proof.
  clear Hcap. induction recs as [|rec recs IH]; intros rs; [cbn; lia|]. change (stream_from cap rs (rec :: recs)) with (stream_from cap (rs ++ [located cap rs rec]) recs).
  rewrite IH, length_app. cbn [length]. lia.
Qed.

Lemma stream_from_ok recs : ∀ rs, rs_ok cap rs → Forall (plannable cap) recs →
  2 * Z.of_nat cap * (Z.of_nat (length rs + length recs) + 1) < 2 ^ 64 → rs_ok cap (stream_from cap rs recs).
Proof.
  induction recs as [|rec recs IH]; intros rs Hrs Hpl Hroom; [done|]. apply Forall_cons_1 in Hpl as [Hp Hpl].
  change (stream_from cap rs (rec :: recs)) with (stream_from cap (rs ++ [located cap rs rec]) recs).
  cbn [length] in Hroom. apply IH; [|done|rewrite length_app; cbn [length]; lia]. destruct Hrs as [Hf Hr]. split; [|rewrite length_app; cbn [length]; nia].
  apply Forall_app. split; [done|]. constructor; [|done]. apply located_fits; [|done]. rewrite located_placed.
  destruct (history_ring cap Hcap rs (conj Hf Hr)) as (r & _ & Hrep & _ & Hh). destruct Hp as [_ Hlen].
  destruct (place_spec cap Hcap (ab_head (abs_of cap rs)) _ Hlen) as (Hs & _).
  pose proof (rep_window _ _ Hrep). pose proof (layout_bounds _ _ _ _ (rep_layout _ _ Hrep)) as [? _]. split; [lia|nia].
Qed.

(** Every record of the log holds the offset it is at. *)
Lemma located_log recs : ∀ rs all, rs_ok cap (stream_from cap rs recs) →
  Forall2 (λ e rec, en_rec e = with_abs (en_start e) rec) (ab_log (abs_of cap rs)) all →
  Forall2 (λ e rec, en_rec e = with_abs (en_start e) rec) (ab_log (abs_of cap (stream_from cap rs recs))) (all ++ recs).
Proof.
  induction recs as [|rec recs IH]; intros rs all Hok Hrs; [by rewrite app_nil_r|].
  change (stream_from cap rs (rec :: recs)) with (stream_from cap (rs ++ [located cap rs rec]) recs) in *.
  rewrite (cons_middle rec all), (app_assoc all). apply IH; [done|]. assert (Hrs' : rs_ok cap rs).
  { eapply rs_ok_prefix; [exact Hcap| |exact Hok]. etrans; [|apply stream_from_prefix]. by apply prefix_app_r. }
  destruct (history_ring cap Hcap rs Hrs') as (r & _ & Hrep & _). rewrite abs_of_snoc, (log_write r _ _ Hrep).
  apply Forall2_app; [done|]. constructor; [by rewrite located_placed|done].
Qed.

Lemma stream_from_keys {A} (f : WireRecord → A) recs : (∀ x rec, f (with_abs x rec) = f rec) → ∀ rs,
  f <$> stream_from cap rs recs = (f <$> rs) ++ (f <$> recs).
Proof.
  intros Hf. induction recs as [|rec recs IH]; intros rs; [by rewrite app_nil_r|].
  change (stream_from cap rs (rec :: recs)) with (stream_from cap (rs ++ [located cap rs rec]) recs).
  rewrite IH, fmap_app, <-app_assoc. cbn [fmap list_fmap app]. unfold located. by rewrite Hf.
Qed.
End stream_ok.

(** ** The last records of a run are still in the ring *)
Section tail.
Context {BP : BuildProfile} {SQ : Sequenced} (cap : nat) (Hcap : (0 < cap)%nat) (n : Z) (s : Z).

(** The first boundary of the pool after [s]. *)
Abbreviation B := (Z.of_nat cap * (s / Z.of_nat cap + 1)).

(** Where the head is when [j] records of at most [n] bytes were written from [s] on. *)
Definition tail_head (j h : Z) : Prop :=
  s ≤ h ∧ (h ≤ B ∧ h ≤ s + j * n ∨ B ≤ h ∧ h ≤ B + j * n ∧ h ≤ s + (j + 1) * n).

Lemma phys_at q x : q * Z.of_nat cap ≤ x < (q + 1) * Z.of_nat cap → phys cap x = Z.to_nat (x - q * Z.of_nat cap).
Proof. intros Hx. unfold phys. f_equal. symmetry. apply (Z.mod_unique_pos _ _ q); lia. Qed.

Lemma tail_place j h len : tail_head j h → 0 ≤ j → 0 ≤ s → 0 < Z.of_nat len ≤ n → (j + 1) * n ≤ Z.of_nat cap →
  tail_head (j + 1) (place cap h len + Z.of_nat len) ∧ s ≤ place cap h len.
Proof.
  intros [Hs Hh] Hj H0 Hlen Hroom. assert (Hdiv : Z.of_nat cap * (s / Z.of_nat cap) ≤ s < B) by (pose proof (Z.div_mod s (Z.of_nat cap)); pose proof (Z.mod_pos_bound s (Z.of_nat cap)); nia).
  set (q := s / Z.of_nat cap) in *. unfold place, tail_head. fold q.
  destruct Hh as [[Hb Hh]|(Hb & Hh & Hh2)].
  - destruct (decide (h = Z.of_nat cap * (q + 1))) as [->|Hne].
    + rewrite (phys_at (q + 1)) by lia. rewrite decide_True by lia. nia.
    + rewrite (phys_at q) by lia. destruct (decide _) as [Hd|Hd]; nia.
  - rewrite (phys_at (q + 1)) by nia. rewrite decide_True by nia. nia.
Qed.

Lemma tail_kept a rec e : e ∈ ab_live a → s ≤ en_start e → en_end (placed a rec) - Z.of_nat (ab_cap a) ≤ s → 0 ≤ s → e ∈ ab_live (abs_write a rec).
Proof.
  intros He Hs Hf H0. rewrite abs_write_eq. cbn [ab_live]. apply elem_of_app. left. apply list_elem_of_filter. split; [|done].
  unfold write_floor, saturating_sub64. lia.
Qed.

Lemma tail_live recs : ∀ rs j T,
  rs_ok cap (rs ++ recs) → Forall (λ rec, 0 < Z.of_nat (length (enc_record rec true)) ≤ n) recs →
  tail_head j (ab_head (abs_of cap rs)) → 0 ≤ j → 0 ≤ s → (j + Z.of_nat (length recs) + 1) * n ≤ Z.of_nat cap →
  Forall (λ e, e ∈ ab_live (abs_of cap rs) ∧ s ≤ en_start e) T →
  ∃ T', en_rec <$> T' = recs ∧ Forall (λ e, e ∈ ab_live (abs_of cap (rs ++ recs))) (T ++ T').
Proof.
  induction recs as [|rec recs IH]; intros rs j T Hok Hlen Hh Hj H0 Hroom HT.
  { exists []. rewrite !app_nil_r. split; [done|]. eapply Forall_impl; [exact HT|]. by intros e [? _]. }
  apply Forall_cons_1 in Hlen as [Hl Hlen]. cbn [length] in Hroom. rewrite cons_middle, app_assoc in Hok |- *.
  destruct (tail_place j (ab_head (abs_of cap rs)) (length (enc_record rec true)) Hh Hj H0 Hl ltac:(nia)) as [Hh' Hst].
  assert (Hhead : en_end (placed (abs_of cap rs) rec) = place cap (ab_head (abs_of cap rs)) (length (enc_record rec true)) + Z.of_nat (length (enc_record rec true))).
  { unfold en_end, en_len, en_bytes. cbn [placed en_start en_rec]. by rewrite abs_of_cap. }
  assert (Hfl : en_end (placed (abs_of cap rs) rec) - Z.of_nat (ab_cap (abs_of cap rs)) ≤ s).
  { rewrite Hhead, abs_of_cap. destruct Hh' as [_ [[_ ?]|(_ & _ & ?)]]; nia. }
  destruct (IH (rs ++ [rec]) (j + 1) (T ++ [placed (abs_of cap rs) rec]) Hok Hlen) as (T' & HT' & Hall); [|lia|done|lia| |].
  - rewrite abs_of_snoc. change (ab_head (abs_write (abs_of cap rs) rec)) with (en_end (placed (abs_of cap rs) rec)). by rewrite Hhead.
  - rewrite abs_of_snoc. apply Forall_app. split.
    + eapply Forall_impl; [exact HT|]. intros e [He Hs]. split; [by apply tail_kept|done].
    + constructor; [|done]. split; [rewrite abs_write_eq; cbn [ab_live]; apply elem_of_app; right; by left|].
      cbn [placed en_start]. by rewrite abs_of_cap.
  - exists (placed (abs_of cap rs) rec :: T'). split; [by rewrite fmap_cons, HT'|]. by rewrite (cons_middle _ T), (app_assoc T).
Qed.
End tail.

Lemma last_records_live {BP : BuildProfile} {SQ : Sequenced} cap rs recs n :
  (0 < cap)%nat → rs_ok cap (rs ++ recs) → Forall (λ rec, 0 < Z.of_nat (length (enc_record rec true)) ≤ n) recs →
  (Z.of_nat (length recs) + 1) * n ≤ Z.of_nat cap →
  Forall (λ rec, ∃ e, e ∈ ab_live (abs_of cap (rs ++ recs)) ∧ en_rec e = rec) recs.
Proof.
  intros Hcap Hok Hlen Hroom. destruct recs as [|rec recs]; [constructor|]. apply Forall_cons_1 in Hlen as [Hl Hlen].
  cbn [length] in Hroom. set (e := placed (abs_of cap rs) rec).
  assert (Hrs : rs_ok cap rs) by (eapply rs_ok_prefix; [exact Hcap| |exact Hok]; by apply prefix_app_r).
  destruct (history_ring cap Hcap rs Hrs) as (r & _ & Hrep & _). pose proof (rep_window _ _ Hrep).
  pose proof (layout_bounds _ _ _ _ (rep_layout _ _ Hrep)) as [? _].
  assert (Hle : (length (enc_record rec true) ≤ cap)%nat) by nia.
  destruct (place_spec cap Hcap (ab_head (abs_of cap rs)) _ Hle) as (Hs & Hfit & _).
  assert (Hst : en_start e = place cap (ab_head (abs_of cap rs)) (length (enc_record rec true))) by (unfold e; cbn [placed en_start]; by rewrite abs_of_cap).
  assert (Hend : en_end e = en_start e + Z.of_nat (length (enc_record rec true))) by done.
  rewrite cons_middle, app_assoc in Hok.
  rewrite cons_middle, (app_assoc rs).
  destruct (tail_live cap Hcap n (en_start e) recs (rs ++ [rec]) 1 [e] Hok Hlen) as (T & HT & Hall); [|lia|lia|lia| |].
  - rewrite abs_of_snoc. change (ab_head (abs_write (abs_of cap rs) rec)) with (en_end e). unfold tail_head. split; [lia|]. left. split; [|lia].
    rewrite <-Hst in Hfit. pose proof (Z.div_mod (en_start e) (Z.of_nat cap)). pose proof (Z.mod_pos_bound (en_start e) (Z.of_nat cap)).
    unfold phys in Hfit. nia.
  - constructor; [|done]. split; [|lia]. rewrite abs_of_snoc, abs_write_eq. cbn [ab_live]. apply elem_of_app. right. by left.
  - apply Forall_cons_1 in Hall as [He Hall]. constructor; [by exists e|]. apply Forall_forall. intros x Hx.
    rewrite <-HT in Hx. apply list_elem_of_fmap in Hx as (y & -> & Hy). rewrite Forall_forall in Hall. exists y. split; [by apply Hall|done].
Qed.

(** ** What the run of a producer leaves *)
Section facts.
Context {BP : BuildProfile} {SQ : Sequenced} (cap : nat) (sources : u32) (per_source : u64) (Hrun : run_sizes cap sources per_source).
Abbreviation RS := (stream cap sources per_source).

Lemma sizes_pos : (0 < cap)%nat.
Proof. destruct Hrun as (? & _). lia. Qed.

Lemma stream_rs_ok : rs_ok cap RS.
Proof.
  apply stream_from_ok; [apply sizes_pos|split; [apply Forall_nil_2|destruct Hrun as (_ & [Hs _] & Hp & _ & Hr); cbn [length]; pose proof (Z.mul_nonneg_nonneg sources (per_source + 1)); nia]|by apply plan_plannable|].
  cbn [length]. rewrite Nat.add_0_l, (length_plan cap) by done. apply Hrun.
Qed.

Lemma length_stream : Z.of_nat (length RS) = sources * (per_source + 1).
Proof. unfold stream. rewrite length_stream_from. cbn [length]. rewrite Nat.add_0_l. by apply (length_plan cap). Qed.

Lemma stream_log : Forall2 (λ e rec, en_rec e = with_abs (en_start e) rec) (ab_log (abs_of cap RS)) (plan sources per_source).
Proof. apply (located_log cap sizes_pos _ [] []); [apply stream_rs_ok|constructor]. Qed.

(** Sequence numbers increase source by source. *)
Definition mark_of (rec : WireRecord) : (u64 * u32) * u64 := (source_of rec, rec_seq rec).
Definition later (x y : (u64 * u32) * u64) : Prop := x.1 = y.1 → x.2 < y.2.

Lemma rounds_sorted ids qs : StronglySorted Z.lt qs → NoDup ids →
  StronglySorted later (qs ≫= λ q, (λ id, ((RUN_ID, id), q)) <$> ids).
Proof.
  intros Hq Hids. induction Hq as [|q qs Hqs IH Hq]; [constructor|]. cbn [mbind list_bind]. apply StronglySorted_app. split_and!; [| |exact IH].
  - intros x y (id & -> & _)%list_elem_of_fmap (q' & (id' & -> & _)%list_elem_of_fmap & Hin)%list_elem_of_bind _. rewrite Forall_forall in Hq. by apply Hq.
  - clear -Hids. induction Hids as [|id ids Hn _ IH]; [constructor|]. rewrite fmap_cons. constructor; [exact IH|].
    apply Forall_fmap, Forall_forall. intros id' Hin [=]. cbn. congruence.
Qed.

Lemma seqZ_sorted m n : StronglySorted Z.lt (seqZ m n).
Proof.
  destruct (decide (0 ≤ n)); [|by rewrite seqZ_nil by lia; constructor]. rewrite <-(Z2Nat.id n) by done.
  induction (Z.to_nat n) as [|k IH]; [constructor|]. rewrite seqZ_S. apply StronglySorted_snoc; [exact IH|].
  apply Forall_forall. intros x Hx%elem_of_seqZ. lia.
Qed.

Lemma plan_marks : mark_of <$> plan sources per_source = seqZ 0 (per_source + 1) ≫= λ q, (λ id, ((RUN_ID, id), q)) <$> source_ids sources.
Proof.
  destruct Hrun as (_ & _ & Hp & _). rewrite seqZ_snoc by done. rewrite bind_app. unfold plan. rewrite fmap_app. f_equal.
  - generalize (seqZ 0 per_source). induction l as [|q l IH]; [done|]. cbn [mbind list_bind]. rewrite fmap_app. f_equal; [|exact IH].
    by rewrite <-list_fmap_compose.
  - cbn [mbind list_bind]. rewrite app_nil_r. by rewrite <-list_fmap_compose.
Qed.

Lemma stream_increasing : source_increasing RS.
Proof.
  assert (Hm : StronglySorted later (mark_of <$> RS)).
  { unfold stream. rewrite stream_from_keys by done. cbn [fmap list_fmap app]. change (list_fmap ?A ?B ?f) with (@fmap list _ A B f).
    rewrite plan_marks. apply rounds_sorted; [apply seqZ_sorted|apply NoDup_seqZ]. }
  revert Hm. unfold source_increasing. induction RS as [|x l IH]; intros Hm; [constructor|]. rewrite fmap_cons in Hm.
  inversion Hm as [|? ? Hl Hx]; subst. constructor; [by apply IH|]. rewrite Forall_fmap in Hx. exact Hx.
Qed.

(** The high-water records and one more of their size fit the ring: then all of
    them are in it at the end. *)
Lemma high_water_live : 68 * (sources + 1) ≤ Z.of_nat cap →
  ∀ id, id ∈ source_ids sources → ∃ e, e ∈ ab_live (abs_of cap RS) ∧ source_of (en_rec e) = (RUN_ID, id) ∧ rec_seq (en_rec e) = per_source.
Proof.
  intros Hroom id Hid. set (data := stream_from cap [] (seqZ 0 per_source ≫= λ seq, data_record seq <$> source_ids sources)).
  assert (Hsplit : ∀ rs recs, ∃ l, stream_from cap rs recs = rs ++ l ∧ mark_of <$> l = mark_of <$> recs
    ∧ Forall2 (λ x y, length (enc_record x true) = length (enc_record (with_abs 0 y) true)) l recs).
  { intros rs recs. revert rs. induction recs as [|rec recs IH]; intros rs; [exists []; by rewrite app_nil_r|].
    destruct (IH (rs ++ [located cap rs rec])) as (l & Hl & Hm & H2). exists (located cap rs rec :: l). split_and!.
    - change (stream_from cap rs (rec :: recs)) with (stream_from cap (rs ++ [located cap rs rec]) recs). by rewrite Hl, <-app_assoc.
    - by rewrite !fmap_cons, Hm.
    - constructor; [apply length_with_abs|done]. }
  destruct (Hsplit data (high_water_record per_source <$> source_ids sources)) as (l & Hl & Hm & H2).
  assert (HRS : RS = data ++ l) by (rewrite <-Hl; unfold stream, plan; by rewrite stream_from_app).
  assert (Hlen : Forall (λ rec, 0 < Z.of_nat (length (enc_record rec true)) ≤ 68) l).
  { apply Forall_forall. intros x Hx. apply (list_elem_of_lookup_1) in Hx as [i Hi]. destruct (Forall2_lookup_l _ _ _ _ _ H2 Hi) as (y & Hy & Hxy).
    rewrite list_lookup_fmap in Hy. destruct (source_ids sources !! i); [|done]. injection Hy as <-. rewrite Hxy, length_high_water. lia. }
  assert (Hcount : length l = Z.to_nat sources).
  { apply Forall2_length in H2. rewrite length_fmap in H2. unfold source_ids in H2. by rewrite length_seqZ in H2. }
  destruct Hrun as (_ & [Hs0 _] & _). pose proof stream_rs_ok as Hok. rewrite HRS in Hok |- *.
  pose proof (last_records_live cap data l 68 sizes_pos Hok Hlen ltac:(rewrite Hcount; lia)) as Hlive. rewrite Forall_forall in Hlive.
  assert (Hin : ((RUN_ID, id), per_source) ∈ mark_of <$> l).
  { rewrite Hm, <-list_fmap_compose. apply list_elem_of_fmap. by exists id. }
  apply list_elem_of_fmap in Hin as (rec & Hrec & Hin). destruct (Hlive rec Hin) as (e & He & <-). exists e. injection Hrec as H1 H2' H3.
  split_and!; [done|unfold source_of; by rewrite <-H1, <-H2'|done].
Qed.
End facts.

(** ** Properties *)
Lemma producer_run_emits {BP : BuildProfile} {SQ : Sequenced} {S} {CS : ConcurrentStore S} {SL : StoreLaws S}
    (store : S) sources per_source mode :
  lawful store → run_sizes (cs_capacity store) sources per_source →
  ∃ ops p, emits ops (producer_run sources per_source mode (cp_with_store store)) (Done (Ok p))
    ∧ ops_ok writer_init ops
    ∧ w_ops ops writer_init = (after (cs_capacity store) (stream (cs_capacity store) sources per_source)).1
    ∧ prod_rep p (abs_of (cs_capacity store) (stream (cs_capacity store) sources per_source)).
Proof.
  intros Hlaw Hrun. set (cap := cs_capacity store) in *. pose proof (sizes_pos cap sources per_source Hrun) as Hcap.
  pose proof (stream_rs_ok cap sources per_source Hrun) as Hok. set (RS := stream cap sources per_source) in *.
  assert (Hall : produces cap RS (producer_run (S:=S) sources per_source mode) [] RS).
  { unfold producer_run. apply (produces_seq cap RS _ _ [] (stream_from cap [] (seqZ 0 per_source ≫= λ seq, data_record seq <$> source_ids sources))).
    - unfold RS, stream, plan. rewrite stream_from_app. apply stream_from_prefix.
    - apply (for_each_produces cap RS). intros seq rs Hq%elem_of_seqZ.
      rewrite <-bind_singletons. apply (for_each_produces cap RS). intros id rs' Hid.
      apply (write_message_produces cap Hcap RS Hok). apply (data_plannable cap sources per_source Hrun); [lia|done].
    - unfold RS at 2, stream, plan. rewrite stream_from_app, <-(bind_singletons (high_water_record per_source)).
      apply (for_each_produces cap RS). intros id rs' Hid.
      apply (write_high_water_produces cap Hcap RS Hok). by apply (high_water_plannable cap sources per_source Hrun). }
  destruct (Hall ltac:(done) (cp_with_store store)) as (ops & p & He & Ho & Hw & _ & Hp); [|by exists ops, p].
  split; [done|]. by split.
Qed.

(** C13: the producer process writes the planned records: over any lawful store,
    in either append mode, it never fails, and its accesses to the store are
    those of writing, for every round, one message of every source, and at last
    every source's high-water record, in this order; each record holds, in its
    last slot, the offset at which the ring has it. *)
Theorem producer_writes_stream {BP : BuildProfile} {SQ : Sequenced} {S} {CS : ConcurrentStore S} {SL : StoreLaws S}
    (store : S) sources per_source mode :
  lawful store → run_sizes (cs_capacity store) sources per_source →
  ∃ ops p rs, emits ops (producer_run sources per_source mode (cp_with_store store)) (Done (Ok p))
    ∧ ops_ok writer_init ops ∧ w_ops ops writer_init = (after (cs_capacity store) rs).1
    ∧ rs_ok (cs_capacity store) rs ∧ prod_rep p (abs_of (cs_capacity store) rs)
    ∧ en_rec <$> ab_log (abs_of (cs_capacity store) rs) = rs
    ∧ Forall2 (λ e rec, en_rec e = with_abs (en_start e) rec) (ab_log (abs_of (cs_capacity store) rs)) (plan sources per_source).
Proof.
  intros Hlaw Hrun. destruct (producer_run_emits store sources per_source mode Hlaw Hrun) as (ops & p & He & Ho & Hw & Hp).
  pose proof (stream_rs_ok _ _ _ Hrun) as Hok. eexists ops, p, _. split_and!; [done|done|exact Hw|done|done| |].
  - apply log_recs; [by eapply sizes_pos|done].
  - by apply stream_log.
Qed.

Lemma producer_writes_stream_witness :
  ∃ ops p rs, emits ops (producer_run (BP:=dev_profile) 2 3 Encoded (cp_with_store (owned 200))) (Done (Ok p))
    ∧ ops_ok writer_init ops ∧ w_ops ops writer_init = (after (SQ:=owned_sequenced) 200 rs).1
    ∧ rs_ok 200 rs ∧ prod_rep p (abs_of 200 rs) ∧ en_rec <$> ab_log (abs_of 200 rs) = rs
    ∧ Forall2 (λ e rec, en_rec e = with_abs (en_start e) rec) (ab_log (abs_of 200 rs)) (plan 2 3).
Proof. apply (producer_writes_stream (BP:=dev_profile) (SL:=owned_laws) (owned 200) 2 3 Encoded); [exact I|by_compute]. Defined.
