(* ===== verification/HarnessRun.v ===== *)
(** * A live run (crates/live-harness/src/main.rs)

    The two processes of a run side by side, and that under sequential
    consistency a run that ends reconciles: whatever was overwritten, what the
    consumer delivered and what it counted as lost add up, source by source, to
    what the producer wrote, and the parent's check accepts it. *)
From stdpp Require Import strings.
From S2P Require Import Prelude Crc Wire Control Registry Layout Ring RingRead Loss Consumer Memory Concurrent ConcurrentWriter ConcurrentSolo ConcurrentRead ConcurrentSystem Shared SharedRead Text Conformance ConformanceReport Vectors HarnessArgs Harness HarnessStream.
#[local] Open Scope Z_scope.

#[local] Arguments from_le_bytes : simpl never.
#[local] Arguments to_le_bytes : simpl never.
#[local] Existing Instance shared_sequenced.

(** ** The words of the shared store *)
Section words.
Context {BP : BuildProfile} (s : SharedConcurrentStore) (Hs : good_store s).

Lemma shared_load_head {E} : load_head_acquire (E:=E) s = Ld Acquire LHead io_ret.
Proof. cbn [load_head_acquire shared_store]. unfold ss_load_head_acquire, load_u64. by rewrite atomic_u64_ok by (done || by_compute). Qed.
Lemma shared_load_lost {E} : load_lost_acquire (E:=E) s = Ld Acquire LLost io_ret.
Proof. cbn [load_lost_acquire shared_store]. unfold ss_load_lost_acquire, load_u64. by rewrite atomic_u64_ok by (done || by_compute). Qed.
End words.

(** ** The consumer, whatever the producer does meanwhile *)
Section consumer.
Context {BP : BuildProfile} (cap : nat) (Hcap : (0 < cap)%nat) (Hcap32 : Z.of_nat cap < 2 ^ 32).
Context (RS : list WireRecord) (Hok : rs_ok cap RS) (Hroom : lock_room (length RS)).
Abbreviation log := (ab_log (abs_of cap RS)).
Context (Hinc : source_increasing RS).

(** The record holds its offset in the first slot with the oracle's key. *)
Definition marked (e : Entry) : Prop := ∃ rec, en_rec e = with_abs (en_start e) rec
  ∧ Forall (λ s, slot_key s ≠ KEY_EXPECTED_RECORD_START_ABS) (rec_slots rec) ∧ record_wf (en_rec e).
Context (Hmarked : Forall marked log) (Hacc : Forall (λ e, accountable (en_rec e)) log).

(** The state of the consumer after it has read [es], [n] polls at most. *)
Record consumer_inv (n D : Z) (mem : list msg) (V : rview) (c : ConsumerState) (es : list Entry) : Prop := {
  cv_store : good_store (cc_store (ls_raw c)) ∧ ss_capacity (cc_store (ls_raw c)) = cap;
  cv_mark : mark cap RS (cc_cursor_abs (ls_raw c));
  cv_le : D ≤ cc_cursor_abs (ls_raw c);
  cv_seen : seen_head true mem V D;
  cv_counters : counters_ok n (ls_raw c);
  cv_read : es `sublist_of` filter (λ e, en_end e ≤ D) log;
  cv_passed : Forall (passed cap RS (cc_cursor_abs (ls_raw c)) es) log;
  cv_tracked : tracked es (ls_observer c);
  cv_clean : bo_violations (ls_observer c) = [];
  cv_accounted : for_each (account (E:=RingError)) (stored ∘ en_rec <$> es) (tracker_new DEFAULT_BUFFER_ID) = Ok (lac_tracker (ls_accounting c));
}.

Lemma log_later : ordered log ∧ StronglySorted (λ x y, source_of (en_rec x) = source_of (en_rec y) → rec_seq (en_rec x) < rec_seq (en_rec y)) log.
Proof. split; [by apply log_ordered|by apply log_increasing]. Qed.

Lemma read_seq es e : es ++ [e] `sublist_of` log → 0 ≤ rec_seq (en_rec e) < U64_MAX.
Proof.
  intros Hs. assert (He : e ∈ log) by (eapply elem_of_sublist; [|exact Hs]; apply elem_of_app; right; by left).
  pose proof Hacc as Ha. rewrite Forall_forall in Ha. destruct (Ha e He) as ((_ & _ & _ & [? _] & _) & ? & _). done.
Qed.

(** The oracle finds the offset it expects. *)
Lemma oracle_clean e o : e ∈ log → observe (en_read e) (o : EmbeddedAbsOracle) = Ok ([], o).
Proof.
  intros He. pose proof Hmarked as Hm. rewrite Forall_forall in Hm. destruct (Hm e He) as (rec & Hrec & Hkeys & Hwf).
  assert (Hst : is_u64 (en_start e)).
  { pose proof (log_starts cap Hcap RS Hok) as H0. rewrite Forall_forall in H0. pose proof (conc_log_ends cap Hcap RS Hok) as H1.
    rewrite Forall_forall in H1. specialize (H0 e He). specialize (H1 e He). cbn in H0, H1. unfold en_end in H1.
    destruct (history_ring cap Hcap RS Hok) as (r & _ & _ & _ & Hh). destruct Hok as [_ Hr]. split; [lia|nia]. }
  destruct (embedded_exact (en_read e) o) as (vs & Hobs & _ & Hiff); [exact Hst| |].
  { destruct Hwf as (_ & _ & _ & _ & _ & _ & Hs). eapply Forall_impl; [exact Hs|]. by intros s (_ & _ & ? & _). }
  rewrite Hobs. do 3 f_equal. apply Hiff. exists (rec_slots rec), []. split; [|done].
  cbn [en_read rr_record rr_start_abs stored with_flags rec_slots]. by rewrite Hrec.
Qed.

Lemma observe_next es e (b : BatchObserver EmbeddedAbsOracle) : tracked es b → es ++ [e] `sublist_of` log →
  ∃ b', observe_read (en_read e) b = Ok b' ∧ tracked (es ++ [e]) b' ∧ bo_violations b' = bo_violations b.
Proof.
  intros Htr Hs. destruct log_later as [_ Hl]. pose proof (sublist_sorted _ _ _ Hl Hs) as Hss.
  assert (He : e ∈ log) by (eapply elem_of_sublist; [|exact Hs]; apply elem_of_app; right; by left).
  destruct (observe_sequence_next es e (en_read e) (bo_oracle b) [] b) as (b' & Hb & Htr' & Hv & _); [done|done|by eapply read_seq| | |].
  - apply keys_nodup in Hss. rewrite fmap_app in Hss. apply NoDup_app in Hss as (_ & Hd & _). intros Hin. apply (Hd _ Hin). by left.
  - by apply sorted_last in Hss.
  - exists b'. split; [|by rewrite Hv, app_nil_r]. unfold observe_read. by rewrite (oracle_clean e _ He).
Qed.

Lemma observe_more es' : ∀ es (b : BatchObserver EmbeddedAbsOracle), tracked es b → es ++ es' `sublist_of` log →
  ∃ b', for_each observe_read (en_read <$> es') b = Ok b' ∧ tracked (es ++ es') b' ∧ bo_violations b' = bo_violations b.
Proof.
  induction es' as [|e es' IH]; intros es b Htr Hs; [exists b; by rewrite app_nil_r|].
  rewrite cons_middle, app_assoc in Hs. destruct (observe_next es e b Htr) as (b1 & Hb1 & Htr1 & Hv1).
  { etrans; [|exact Hs]. by apply sublist_inserts_r. }
  destruct (IH _ _ Htr1 Hs) as (b' & Hb' & Htr' & Hv'). exists b'. rewrite fmap_cons. cbn [for_each]. rewrite Hb1, ok_bind.
  rewrite <-app_assoc in Htr'. by rewrite Hv', Hv1.
Qed.

(** A batch that goes on in the log is taken without a violation. *)
Lemma take_batch_ok batch raw c es es' :
  tracked es (ls_observer c) → rb_records batch = en_read <$> es' → es ++ es' `sublist_of` log →
  for_each (account (E:=RingError)) (stored ∘ en_rec <$> es) (tracker_new DEFAULT_BUFFER_ID) = Ok (lac_tracker (ls_accounting c)) →
  ∃ c', take_batch batch raw c = Ok c' ∧ ls_raw c' = raw ∧ tracked (es ++ es') (ls_observer c')
    ∧ bo_violations (ls_observer c') = bo_violations (ls_observer c)
    ∧ for_each (account (E:=RingError)) (stored ∘ en_rec <$> es ++ es') (tracker_new DEFAULT_BUFFER_ID) = Ok (lac_tracker (ls_accounting c')).
Proof.
  intros Htr Hr Hs Ht. destruct (observe_more es' es _ Htr Hs) as (b' & Hb & Htr' & Hv).
  destruct (account_all_inv (E:=RingError) DEFAULT_BUFFER_ID (stored ∘ en_rec <$> es ++ es')) as (t & _ & Hacct & _).
  { apply Forall_fmap, Forall_forall. intros e He. apply stored_accountable. pose proof Hacc as Ha. rewrite Forall_forall in Ha.
    apply Ha. by eapply elem_of_sublist. }
  pose proof Hacct as Hmore. rewrite fmap_app, for_each_app, Ht, ok_bind in Hmore.
  unfold take_batch, observe_batch. rewrite Hr, Hb. cbn [map_err]. rewrite ok_bind. unfold lac_account_batch.
  rewrite Hr, account_reads, Hmore. cbn [map_err mbind res_bind]. eexists. split; [done|]. by split_and!.
Qed.

Lemma inv_start store : good_store store → ss_capacity store = cap →
  consumer_inv 0 0 [] rview_init (consumer_new store) [].
Proof.
  intros Hs Hc. split; cbn; try done.
  - exists 0%nat. by left.
  - exists 0%nat. split; [done|by left].
  - apply sublist_nil_l.
  - apply Forall_forall. intros e He Hlt. pose proof (log_starts cap Hcap RS Hok) as H0. rewrite Forall_forall in H0.
    specialize (H0 e He). cbn in H0. lia.
  - apply tracked_new.
Qed.

Lemma inv_grows n D mem mem' V c es : grows cap RS mem mem' → consumer_inv n D mem V c es → consumer_inv n D mem' V c es.
Proof.
  intros [Hg _] []. split; try done. destruct cv_seen0 as (t & Ht & Hs). exists t. split; [by eapply value_at_grows|done].
Qed.

Lemma inv_later n n' D mem V c es : n ≤ n' → consumer_inv n D mem V c es → consumer_inv n' D mem V c es.
Proof. intros Hn []. split; try done. clear -Hn cv_counters0. destruct cv_counters0 as (? & ? & ?). split_and!; lia. Qed.

Lemma inv_view n D mem V V' c es : consumer_inv n D mem V c es → consumer_inv n D mem V' c es.
Proof. intros []. split; try done. destruct cv_seen0 as (t & Ht & _). exists t. split; [done|by left]. Qed.

(** A batch the poll returned is taken. *)
Lemma poll_taken n D mem V c es raw batch : mem `prefix_of` mem_of cap RS → consumer_inv n D mem V c es →
  poll_post true cap RS n D (ls_raw c) mem V (raw, inl batch) →
  ∃ c', take_batch batch raw c = Ok c' ∧ ls_raw c' = raw ∧ ∃ D' es', consumer_inv (n + 1) D' mem V c' es'.
Proof.
  intros Hm [[Hgood Hc] Hmark HD Hseen Hcnt Hread Hpass Htr Hcl Hac] Hpost.
  destruct Hpost as (Hst & Hmark' & Hcnt' & D' & es' & [HD1 HD2] & Hseen' & Hsub & Hfrom & Hrec & _).
  assert (Hall : es ++ es' `sublist_of` filter (λ e, en_end e ≤ D') log).
  { etrans; [by apply sublist_app|]. apply ordered_window; [by apply log_ordered|done]. }
  destruct (take_batch_ok batch raw c es es' Htr Hrec) as (c' & Hc' & Hraw & Htr' & Hcl' & Hac'); [|done|].
  { etrans; [exact Hall|apply sublist_filter]. }
  exists c'. split; [done|]. split; [done|]. exists D', (es ++ es'). split; rewrite ?Hraw, ?Hst; try done; [|by rewrite Hcl'].
  destruct (Hfrom eq_refl) as (lo & Hlo & ->). by eapply (passed_on cap Hcap RS Hok mem).
Qed.

Lemma wp_turn_poll n D mem V c es : mem `prefix_of` mem_of cap RS → consumer_inv n D mem V c es → n + 1 < 2 ^ 64 →
  wp true (grows cap RS) (poll (ls_raw c)) mem V (λ mem' V' r, mem' `prefix_of` mem_of cap RS ∧ consumer_inv n D mem' V' c es
    ∧ match r with Ok x => poll_post true cap RS n D (ls_raw c) mem' V' x | _ => False end).
Proof.
  intros Hm Hinv Hn. pose proof Hinv as [[Hgood Hc] Hmark HD Hseen Hcnt _ _ _ _ _].
  assert (Hlaw : lawful (cc_store (ls_raw c))) by exact Hgood.
  assert (Hsnap : snapshot_law true cap RS (cc_store (ls_raw c))) by (by apply law_snapshot).
  eapply wp_mono; [|eapply (wp_poll true cap Hcap RS Hok Hcap32 (cc_store (ls_raw c)) Hlaw Hc Hsnap n D (ls_raw c)); done].
  intros mem' V' r [Hmv Hpost]. split_and!; [apply Hmv|eapply inv_view, inv_grows; [apply Hmv|exact Hinv]|done].
Qed.

(** A poll fails only when it was overtaken, so when bytes were reclaimed. *)
Definition poll_failed (e : HarnessError) : Prop := (∃ x, e = PollFailed x) ∧ 0 < ab_oldest (abs_of cap RS).

Lemma mark_nonneg x : mark cap RS x → 0 ≤ x.
Proof.
  intros (t & [Hv|Hv]).
  - destruct (fa_head _ _ (facts_hold cap Hcap RS Hok) _ _ Hv) as (rs1 & Hrs1 & -> & _).
    destruct (history_ring cap Hcap rs1 ltac:(by eapply rs_ok_prefix)) as (r & _ & Hrep & _). pose proof (rep_window _ _ Hrep).
    pose proof (layout_bounds _ _ _ _ (rep_layout _ _ Hrep)) as [? _]. lia.
  - destruct (fa_oldest _ _ (facts_hold cap Hcap RS Hok) _ _ Hv) as [[_ ->]|(rs0 & rec & Hrs1 & -> & _)]; [done|].
    destruct (history_ring cap Hcap (rs0 ++ [rec]) ltac:(by eapply rs_ok_prefix)) as (r & _ & Hrep & _). apply (rep_window _ _ Hrep).
Qed.

Lemma poll_overtaken n D mem V (c c' : ConcurrentRawConsumer SharedConcurrentStore) x : mem `prefix_of` mem_of cap RS → mark cap RS (cc_cursor_abs c) →
  poll_post true cap RS n D c mem V (c', inr x) → poll_failed (PollFailed x).
Proof.
  intros Hm Hmark (_ & _ & _ & D' & es & _ & _ & _ & _ & _ & _ & (t & o & Hv & Hlt)). split; [by eexists|].
  apply mark_nonneg in Hmark. pose proof (reclaimed_below cap Hcap RS Hok (cc_cursor_abs c)) as Hr.
  enough (cc_cursor_abs c < ab_oldest (abs_of cap RS)) by lia. apply Hr. exists t, o. split; [by eapply value_in_M|done].
Qed.

(** One turn of the loop. *)
Lemma wp_turn n D mem V c es : mem `prefix_of` mem_of cap RS → consumer_inv n D mem V c es → n + 1 < 2 ^ 64 →
  wp true (grows cap RS) (consumer_turn c) mem V (λ mem' V' r,
    match r with Ok c' => ∃ D' es', consumer_inv (n + 1) D' mem' V' c' es' | Err e => poll_failed e | _ => False end).
Proof.
  intros Hm Hinv Hn. unfold consumer_turn, io_map_err. apply wp_bind, wp_match.
  eapply wp_mono; [|by apply (wp_turn_poll n D mem V c es)]. intros mem' V' r (Hm' & Hinv' & Hpost).
  destruct r as [[raw [batch|e]]|e| |]; [|eapply poll_overtaken; [exact Hm'|apply (cv_mark _ _ _ _ _ _ Hinv')|exact Hpost]|done..].
  destruct (poll_taken n D mem' V' c es raw batch Hm' Hinv' Hpost) as (c' & Ht & _ & Hc'). cbn [wp io_ret]. by rewrite Ht.
Qed.

(** A turn when the producer is done reads on to the head. *)
Lemma quiet_turn n D V c es : consumer_inv n D (mem_of cap RS) V c es → n + 1 < 2 ^ 64 →
  ∃ c', solo (mem_of cap RS) (consumer_turn c) = Ok c' ∧ cc_cursor_abs (ls_raw c') = ab_head (abs_of cap RS)
    ∧ ∃ D' es' V', consumer_inv (n + 1) D' (mem_of cap RS) V' c' es'.
Proof.
  intros Hinv Hn. destruct (history_image cap Hcap RS Hok) as (r & _ & Hrep & Him). pose proof (cv_store _ _ _ _ _ _ Hinv) as [Hgood Hc].
  assert (Hlaw : lawful (cc_store (ls_raw c))) by exact Hgood. destruct (cv_counters _ _ _ _ _ _ Hinv) as ([H0 Hl] & _).
  destruct (solo_poll cap (mem_of cap RS) r Him) with (s := cc_store (ls_raw c)) (c := ls_raw c)
    (b := batch_of (abs_of cap RS) (cc_cursor_abs (ls_raw c))) as (raw & Hsolo & Hcur); try done; [by eapply history_words|lia| |].
  { apply read_raw_from_rep; [done| |by apply (mark_last cap Hcap RS Hok), (cv_mark _ _ _ _ _ _ Hinv)].
    destruct (history_ring cap Hcap RS Hok) as (r' & _ & _ & _ & Hh). destruct Hok as [_ Hr]. nia. }
  pose proof (wp_turn_poll n D _ V c es ltac:(done) Hinv Hn) as Hwp. apply wp_solo in Hwp as (ts & V' & _ & Hm & Hinv' & Hpost); [|by apply grows_refl].
  rewrite Hsolo in Hpost. destruct (poll_taken n D _ V' c es raw _ Hm Hinv' Hpost) as (c' & Ht & Hraw & D' & es' & Hc').
  exists c'. split_and!; [|by rewrite Hraw, Hcur|by exists D', es', V'].
  unfold consumer_turn, io_map_err. rewrite solo_bind, solo_match, Hsolo. cbn [solo io_ret]. rewrite ok_bind. cbn [solo]. by rewrite Ht.
Qed.

(** *** When the producer is done *)
Lemma head_at_end mem V t v : can_read true mem V LHead t → value_at mem LHead t = Some v → mem = mem_of cap RS → v = ab_head (abs_of cap RS).
Proof.
  intros -> Hv ->. destruct (history_image cap Hcap RS Hok) as (r & _ & Hrep & Him).
  pose proof (latest_now (mem_of cap RS) LHead) as Hl. rewrite Hv in Hl. injection Hl as ->.
  by rewrite (im_head _ _ _ Him), (rep_head _ _ Hrep).
Qed.

Lemma lost_at_end mem V t v : can_read true mem V LLost t → value_at mem LLost t = Some v → mem = mem_of cap RS →
  v = Z.of_nat (length (ab_dropped (abs_of cap RS))).
Proof.
  intros -> Hv ->. destruct (history_image cap Hcap RS Hok) as (r & _ & Hrep & Him).
  pose proof (latest_now (mem_of cap RS) LLost) as Hl. rewrite Hv in Hl. injection Hl as ->.
  by rewrite (im_lost _ _ _ Him), (rep_lost _ _ Hrep).
Qed.

Lemma grown mem' : grows cap RS (mem_of cap RS) mem' → mem' = mem_of cap RS.
Proof. intros [H1 H2]. by apply (anti_symm prefix). Qed.

(** The comparison with the head tells whether everything was read. *)
Lemma wp_caught_up n D V c es : consumer_inv n D (mem_of cap RS) V c es →
  wp true (grows cap RS) (caught_up c) (mem_of cap RS) V (λ mem' V' r, mem' = mem_of cap RS
    ∧ ∃ b, r = Ok b ∧ consumer_inv n D mem' V' c es ∧ (b = true → cc_cursor_abs (ls_raw c) = ab_head (abs_of cap RS))).
Proof.
  intros Hinv. unfold caught_up, cc_head_abs. destruct (cv_store _ _ _ _ _ _ Hinv) as [Hgood _]. rewrite shared_load_head by done.
  cbn [mbind io_bind io_match io_ret wp]. intros mem' t v Hg Hv Hr. pose proof (grown _ Hg) as ->. split; [done|].
  eexists. split; [done|]. split; [by eapply inv_view|]. rewrite bool_decide_eq_true. intros ->. by eapply head_at_end.
Qed.

(** The sequence numbers of a source end with a record that is still in the ring. *)
Definition ends_with (run : u64) (src : u32) (n : Z) : Prop :=
  (∃ e, e ∈ ab_live (abs_of cap RS) ∧ source_of (en_rec e) = (run, src) ∧ rec_seq (en_rec e) = n - 1)
  ∧ ∀ e, e ∈ log → source_of (en_rec e) = (run, src) → rec_seq (en_rec e) < n.

Lemma inv_log n D mem V c es : consumer_inv n D mem V c es → ∀ e, e ∈ es → e ∈ log.
Proof. intros Hinv e He. eapply elem_of_sublist; [exact He|]. etrans; [apply (cv_read _ _ _ _ _ _ Hinv)|apply sublist_filter]. Qed.

(** Once the cursor is at the head, delivered and lost add up. *)
Lemma source_reconciles n D mem V c es run src top :
  Forall (λ e, rec_event_type_id (en_rec e) ≠ EVENT_RECORDS_DROPPED) log →
  consumer_inv n D mem V c es → cc_cursor_abs (ls_raw c) = ab_head (abs_of cap RS) → ends_with run src top →
  ∃ l, lac_lost_in_run (ls_accounting c) run src = Ok l ∧ lac_delivered_in_run (ls_accounting c) run src + l = top
    ∧ 0 ≤ l ∧ 0 ≤ lac_delivered_in_run (ls_accounting c) run src.
Proof.
  intros Hnd Hinv Hcur [(e & He & Hk & Hs) Htop]. pose proof (inv_log _ _ _ _ _ _ Hinv) as Hin.
  assert (Hlog : e ∈ log) by (apply elem_of_app; by right). rewrite Forall_forall in Hnd.
  pose proof Hacc as Ha. rewrite Forall_forall in Ha.
  assert (Hes : e ∈ es).
  { apply (passed_live cap Hcap RS Hok _ _ _ (cv_passed _ _ _ _ _ _ Hinv) He). rewrite Hcur.
    destruct (history_ring cap Hcap _ Hok) as (r & _ & Hrep & _).
    pose proof (layout_bounds _ _ _ _ (rep_layout _ _ Hrep)) as [_ Hb]. rewrite Forall_forall in Hb. specialize (Hb e He). cbn in Hb.
    pose proof (proj2 (log_ordered cap Hcap RS Hok)) as Hpos. rewrite Forall_forall in Hpos. specialize (Hpos e Hlog). cbn in Hpos. lia. }
  destruct (account_all_inv (E:=RingError) DEFAULT_BUFFER_ID (stored ∘ en_rec <$> es)) as (t & S & Ht & Hti).
  { apply Forall_fmap, Forall_forall. intros x Hx. apply stored_accountable, Ha. by apply Hin. }
  rewrite (cv_accounted _ _ _ _ _ _ Hinv) in Ht. injection Ht as <-.
  destruct (reconciled (E:=RingError) DEFAULT_BUFFER_ID _ _ S run src Hti) as (l & Hl & Hsum).
  { apply Forall_fmap, Forall_forall. intros x Hx _. apply Hnd. by apply Hin. }
  exists l. unfold lac_lost_in_run, lac_delivered_in_run. split; [done|]. rewrite Hsum.
  pose proof (ti_seen _ _ _ _ Hti (stored (en_rec e))) as Hseen.
  change (source_key (stored (en_rec e))) with (source_of (en_rec e)) in Hseen. rewrite Hk in Hseen.
  change (rec_seq (stored (en_rec e))) with (rec_seq (en_rec e)) in Hseen. rewrite Hs in Hseen.
  specialize (Hseen ltac:(by apply (list_elem_of_fmap_2 (stored ∘ en_rec)))).
  pose proof (lost_size (E:=RingError) _ _ (run, src) (ti_events _ _ _ _ Hti) (ti_same _ _ _ _ Hti)) as Hls. cbn [fst snd] in Hls.
  rewrite Hl in Hls. injection Hls as ->. assert (Hd : Loss.delivered (lac_tracker (ls_accounting c)) run src = Z.of_nat (size (S (run, src)))) by apply (ti_delivered _ _ _ _ Hti).
  split_and!; [|lia|lia].
  destruct (ti_top _ _ _ _ Hti (run, src)) as [Hzero|(x & (y & -> & Hy)%list_elem_of_fmap & Hky & Hny)].
  - destruct (Ha e Hlog) as ((_ & _ & _ & [Hpos _] & _) & _). lia.
  - specialize (Htop y (Hin y Hy) Hky). change (rec_seq ((stored ∘ en_rec) y)) with (rec_seq (en_rec y)) in Hny. lia.
Qed.
End consumer.

(** ** The report of a run *)

(** What a reconciled source shows. *)
Definition reconciles (per_source : u64) (id : u32) (o : SourceObserved) : Prop :=
  sob_run_id o = RUN_ID ∧ sob_source_id o = id ∧ sob_expected_total o = per_source + 1
  ∧ sob_delivered o + sob_lost o = per_source + 1 ∧ 0 ≤ sob_delivered o ∧ 0 ≤ sob_lost o.

Lemma sum64_ok {BP : BuildProfile} {E} l : ∀ acc, 0 ≤ acc → Forall (λ x, 0 ≤ x) l → foldr Z.add acc l < 2 ^ 64 →
  for_each (λ x acc, add_w (E:=E) 64 acc x) l acc = Ok (foldr Z.add acc l).
Proof.
  induction l as [|x l IH]; intros acc H0 Hl Hlt; [done|]. apply Forall_cons_1 in Hl as [Hx Hl]. cbn [for_each foldr] in *.
  assert (Hshift : ∀ l a b, foldr Z.add (a + b) l = b + foldr Z.add a l) by (clear; induction l as [|y l IH]; intros a b; cbn; [lia|rewrite IH; lia]).
  assert (Hge : ∀ l a, Forall (λ x, 0 ≤ x) l → a ≤ foldr Z.add a l).
  { clear. induction l as [|y l IH]; intros a Hf; cbn; [lia|]. apply Forall_cons_1 in Hf as [? Hf]. specialize (IH a Hf). lia. }
  pose proof (Hge l acc Hl). rewrite add_w_ok by lia. rewrite ok_bind, IH, Hshift by (done || rewrite ?Hshift; lia). done.
Qed.

Lemma expected_source_ok {BP : BuildProfile} {E} per_source id : per_source + 1 < 2 ^ 64 →
  expected_source (E:=E) per_source id = Ok (MkExpectedSource RUN_ID id (per_source + 1)).
Proof. intros Hp. unfold expected_source. by rewrite add_w_ok. Qed.

Lemma expected_sources_ok {BP : BuildProfile} {E} per_source sources : per_source + 1 < 2 ^ 64 →
  expected_sources (E:=E) sources per_source = Ok ((λ id, MkExpectedSource RUN_ID id (per_source + 1)) <$> source_ids sources).
Proof.
  intros Hp. unfold expected_sources. generalize (source_ids sources). intros ids.
  enough (H : ∀ acc, for_each (λ id acc, e ← expected_source (E:=E) per_source id; Ok (acc ++ [e])) ids acc
    = Ok (acc ++ ((λ id, MkExpectedSource RUN_ID id (per_source + 1)) <$> ids))) by apply (H []).
  induction ids as [|id ids IH]; intros acc; [by rewrite app_nil_r|]. cbn [for_each].
  by rewrite expected_source_ok, !ok_bind, IH, fmap_cons, <-app_assoc.
Qed.

Lemma observe_sources_ok {BP : BuildProfile} per_source accounting ids : ∀ acc,
  Forall (λ id, ∃ l, lac_lost_in_run accounting RUN_ID id = Ok l ∧ lac_delivered_in_run accounting RUN_ID id + l = per_source + 1
    ∧ 0 ≤ l ∧ 0 ≤ lac_delivered_in_run accounting RUN_ID id) ids →
  ∃ obs, for_each (observe_source accounting) ((λ id, MkExpectedSource RUN_ID id (per_source + 1)) <$> ids) acc = Ok (acc ++ obs)
    ∧ Forall2 (reconciles per_source) ids obs.
Proof.
  induction ids as [|id ids IH]; intros acc Hall; [exists []; rewrite app_nil_r; by split|].
  apply Forall_cons_1 in Hall as [(l & Hl & Hsum & H1 & H2) Hall]. rewrite fmap_cons. cbn [for_each].
  assert (Hst : observe_source accounting (MkExpectedSource RUN_ID id (per_source + 1)) acc
    = Ok (acc ++ [MkSourceObserved RUN_ID id (per_source + 1) (lac_delivered_in_run accounting RUN_ID id) l])).
  { unfold observe_source. cbn [es_run_id es_source_id es_expected_total]. by rewrite Hl. }
  rewrite Hst, ok_bind.
  destruct (IH (acc ++ [MkSourceObserved RUN_ID id (per_source + 1) (lac_delivered_in_run accounting RUN_ID id) l]) Hall) as (obs & Ho & H2').
  eexists. rewrite Ho, <-app_assoc. split; [done|]. constructor; [by split_and!|done].
Qed.

Lemma reconciled_totals per_source ids obs : Forall2 (reconciles per_source) ids obs →
  foldr Z.add 0 (sob_delivered <$> obs) + foldr Z.add 0 (sob_lost <$> obs) = Z.of_nat (length ids) * (per_source + 1)
  ∧ Forall (λ x, 0 ≤ x) (sob_delivered <$> obs) ∧ Forall (λ x, 0 ≤ x) (sob_lost <$> obs)
  ∧ 0 ≤ foldr Z.add 0 (sob_delivered <$> obs) ∧ 0 ≤ foldr Z.add 0 (sob_lost <$> obs).
Proof.
  induction 1 as [|id o ids obs (_ & _ & _ & Hsum & Hd & Hl) _ (IH & IHd & IHl & Id & Il)]; [split_and!; (done || constructor)|].
  rewrite !fmap_cons. cbn [foldr length]. rewrite Nat2Z.inj_succ. split_and!; try lia; by constructor.
Qed.

Section run.
Context {BP : BuildProfile} (cap : nat) (sources : u32) (per_source : u64) (Hrun : run_sizes cap sources per_source).
Context (Hfit : 68 * (sources + 1) ≤ Z.of_nat cap) (Hcap32 : Z.of_nat cap < 2 ^ 32) (Hroom : lock_room (Z.to_nat (sources * (per_source + 1)))).
Abbreviation RS := (stream cap sources per_source).
Abbreviation log := (ab_log (abs_of cap RS)).

Lemma stream_lock : lock_room (length RS).
Proof. intros Hs. specialize (Hroom Hs). pose proof (length_stream cap sources per_source Hrun). lia. Qed.

(** Every record of the log is one of the plan, with its offset. *)
Lemma log_planned e : e ∈ log → ∃ rec, rec ∈ plan sources per_source ∧ en_rec e = with_abs (en_start e) rec ∧ en_rec e ∈ RS.
Proof.
  intros He. assert (Hin : en_rec e ∈ RS).
  { rewrite <-(log_recs cap (sizes_pos _ _ _ Hrun) RS (stream_rs_ok _ _ _ Hrun)). by apply list_elem_of_fmap_2. }
  apply list_elem_of_lookup_1 in He as [i Hi].
  destruct (Forall2_lookup_l _ _ _ _ _ (stream_log _ _ _ Hrun) Hi) as (rec & Hr & Heq). exists rec.
  split; [by eapply list_elem_of_lookup_2|done].
Qed.

Lemma log_wf e : e ∈ log → record_wf (en_rec e) ∧ rec_seq (en_rec e) < U64_MAX.
Proof.
  intros He. destruct (log_planned e He) as (_ & _ & _ & Hin). pose proof (stream_rs_ok _ _ _ Hrun) as [Hf _].
  rewrite Forall_forall in Hf. destruct (Hf _ Hin) as [[[Hw _] Hs] _]. split; [apply Hw|exact Hs].
Qed.

Lemma planned_slots rec : rec ∈ plan sources per_source →
  Forall (λ s, slot_key s ≠ KEY_EXPECTED_RECORD_START_ABS ∧ slot_key s ≠ KEY_LAST_LOST_SEQ) (rec_slots rec)
  ∧ rec_event_type_id rec ≠ EVENT_RECORDS_DROPPED ∧ rec_seq rec ≤ per_source.
Proof.
  destruct Hrun as (_ & _ & Hp & _).
  intros [(seq & id & Hq & _ & ->)|(id & _ & ->)]%plan_cases; cbn; split_and!; try done; try lia.
  by repeat constructor.
Qed.

Lemma stream_marked : Forall marked log.
Proof.
  apply Forall_forall. intros e He. destruct (log_planned e He) as (rec & Hp & Heq & _). exists rec. split_and!; [done| |by apply log_wf].
  eapply Forall_impl; [apply (planned_slots rec Hp)|]. by intros s [? _].
Qed.

Lemma stream_accountable : Forall (λ e, accountable (en_rec e)) log.
Proof.
  apply Forall_forall. intros e He. destruct (log_planned e He) as (rec & Hp & Heq & _). destruct (log_wf e He) as [Hw Hs].
  split_and!; [done|done|]. rewrite Heq. unfold with_abs, pushed, with_slots. cbn [foldl rec_slots]. apply Forall_app. split.
  - eapply Forall_impl; [apply (planned_slots rec Hp)|]. by intros s [_ ?] ?.
  - by constructor.
Qed.

Lemma stream_kept : Forall (λ e, rec_event_type_id (en_rec e) ≠ EVENT_RECORDS_DROPPED) log.
Proof.
  apply Forall_forall. intros e He. destruct (log_planned e He) as (rec & Hp & -> & _). apply (planned_slots rec Hp).
Qed.

Lemma stream_ends id : id ∈ source_ids sources → ends_with cap RS RUN_ID id (per_source + 1).
Proof.
  intros Hid. destruct (high_water_live cap sources per_source Hrun Hfit id Hid) as (e & He & Hk & Hs). split.
  - exists e. split_and!; [done|done|lia].
  - intros x Hx _. destruct (log_planned x Hx) as (rec & Hp & -> & _). destruct (planned_slots rec Hp) as (_ & _ & Hle).
    change (rec_seq (with_abs (en_start x) rec)) with (rec_seq rec). lia.
Qed.

(** What the report of a finished run says. *)
Record reported (a : ConsumerArgs) (rep : ObservedReport) : Prop := {
  rp_labels : or_mode rep = run_mode_as_str (ca_mode a) ∧ or_append_mode rep = append_mode_as_str (ca_append_mode a)
    ∧ or_fence_mode rep = ca_fence_mode a ∧ or_cap rep = cap;
  rp_head : or_head_abs rep = ab_head (abs_of cap RS);
  rp_lost : or_lost_count rep = Z.of_nat (length (ab_dropped (abs_of cap RS)));
  rp_clean : or_stale_violations rep = [] ∧ or_poll_errors rep = 0;
  rp_sources : Forall2 (reconciles per_source) (source_ids sources) (or_sources rep);
  rp_delivered : or_delivered_total rep = foldr Z.add 0 (sob_delivered <$> or_sources rep);
  rp_lost_total : or_lost_total rep = foldr Z.add 0 (sob_lost <$> or_sources rep);
  rp_counters : is_u64 (or_lapped_batches rep) ∧ is_u64 (or_overwritten_retries rep) ∧ is_u64 (or_rejected_records rep);
}.

Lemma wp_report n D V c es a store : n < 2 ^ 64 → good_store store → ss_capacity store = cap →
  ca_sources a = sources → ca_per_source a = per_source →
  consumer_inv cap RS n D (mem_of cap RS) V c es → cc_cursor_abs (ls_raw c) = ab_head (abs_of cap RS) →
  wp true (grows cap RS) (consumer_report a store c) (mem_of cap RS) V (λ mem' V' r, ∃ rep, r = Ok rep ∧ reported a rep).
Proof.
  intros Hn Hgood Hc Hsrc Hper Hinv Hcur. pose proof (sizes_pos _ _ _ Hrun) as Hcap. pose proof (stream_rs_ok _ _ _ Hrun) as Hok.
  pose proof Hrun as (_ & [Hs0 _] & Hp & Ht & Hsz).
  unfold consumer_report. rewrite Hsrc, Hper. rewrite expected_sources_ok by lia. cbn [mbind io_bind io_match]. unfold from_consumer.
  cbn [ri_accounting ri_expected_sources ri_store ri_raw ri_metadata ri_poll_errors ri_stale_violations].
  destruct (observe_sources_ok per_source (ls_accounting c) (source_ids sources) []) as (obs & Hobs & H2).
  { apply Forall_forall. intros id Hid. eapply source_reconciles; [done|done|apply stream_accountable|apply stream_kept|done|done|by apply stream_ends]. }
  rewrite Hobs. cbn [app]. destruct (reconciled_totals _ _ _ H2) as (Hsum & Hd & Hl & Hd0 & Hl0).
  assert (Hlen : Z.of_nat (length (source_ids sources)) = sources) by (unfold source_ids; rewrite length_seqZ; lia).
  rewrite Hlen in Hsum. unfold sum64. cbn [io_map_err io_match mbind io_bind].
  rewrite !sum64_ok by (done || nia). rewrite shared_load_head, shared_load_lost by done.
  cbn [io_map_err io_match mbind io_bind io_ret wp]. intros mem1 t1 v1 Hg1 Hv1 Hr1. pose proof (grown _ _ _ Hg1) as ->.
  intros mem2 t2 v2 Hg2 Hv2 Hr2. pose proof (grown _ _ _ Hg2) as ->.
  eexists. split; [reflexivity|]. destruct (cv_counters _ _ _ _ _ _ _ _ Hinv) as (H3 & H4 & H5).
  split; cbn; try done; [by eapply head_at_end|by eapply lost_at_end|split; [apply (cv_clean _ _ _ _ _ _ _ _ Hinv)|done]|].
  unfold fits. split_and!; lia.
Qed.
End run.
