(* ===== verification/HarnessLive.v ===== *)
(** * Both processes of a live run (crates/live-harness/src/main.rs)

    The producer and the consumer process over one shared store as an executable
    transition system under sequential consistency, what holds of every state of
    it, and that its report passes the parent's check. *)
From stdpp Require Import strings.
From S2P Require Import Prelude Crc Wire Control Registry Layout Ring RingRead Loss Consumer Memory Concurrent ConcurrentWriter ConcurrentSolo ConcurrentRead ConcurrentSystem Shared SharedRead Text Conformance ConformanceReport Vectors HarnessArgs Harness HarnessCheck HarnessStream HarnessRun.
#[local] Open Scope Z_scope.

#[local] Arguments from_le_bytes : simpl never.
#[local] Arguments to_le_bytes : simpl never.
#[local] Existing Instance shared_sequenced.

(** ** The processes *)

(** Where the consumer is: in a turn of its loop, comparing its cursor with the
    head because it has seen the done file, building its report, or at its end. *)
Inductive phase :=
| Turning (q : io HarnessError ConsumerState)
| Testing (c : ConsumerState) (q : io HarnessError bool)
| Reporting (q : io HarnessError ObservedReport)
| Finished (r : res HarnessError ObservedReport).

Record live := MkLive {
  lv_writer : writer;
  lv_producer : io HarnessError (ConcurrentProducer SharedConcurrentStore);
  lv_done : bool;
  lv_view : rview;
  lv_consumer : phase;
}.

(** [Produce] is the next access of the producer, or the creation of the done
    file; [Consume] the next access of the consumer, or the return of what it
    runs, [late] being what the clock says if it looks at it then. *)
Inductive act := Produce | Consume (late : bool).

#[global] Instance act_eq_dec : EqDecision act.
Proof. solve_decision. Defined.

Section live.
Context {BP : BuildProfile} (p : ProducerArgs) (a : ConsumerArgs) (pstore cstore : SharedConcurrentStore).

Definition live_new : live :=
  {| lv_writer := writer_init;
     lv_producer := producer_run (pa_sources p) (pa_per_source p) (pa_append_mode p) (cp_with_store pstore);
     lv_done := false; lv_view := rview_init; lv_consumer := Turning (consumer_turn (consumer_new cstore)) |}.

(** One access of the consumer, which reads the newest message. *)
Definition read_step {A} (mem : list msg) (V : rview) (q : io HarnessError A) : option (rview * io HarnessError A) :=
  r_step true mem V q match q with Ld _ l _ => latest mem (length mem) l | _ => 0%nat end.

(** An error ends the process. *)
Definition on_return {A} (r : res HarnessError A) (k : A → phase) : phase :=
  match r with
  | Ok x => k x
  | Err e => Finished (Err e)
  | Panic => Finished Panic
  | Diverge => Finished Diverge
  end.

(** The rest of the loop's body, when it does not break. *)
Definition turn_over (late : bool) (c : ConsumerState) : phase :=
  if late then Finished (Err timed_out) else Turning (consumer_turn c).

Definition consume (mem : list msg) (V : rview) (done late : bool) (φ : phase) : option (rview * phase) :=
  match φ with
  | Turning (Done r) => Some (V, on_return r (λ c, if done then Testing c (caught_up c) else turn_over late c))
  | Turning q => '(V, q) ← read_step mem V q; Some (V, Turning q)
  | Testing c (Done r) => Some (V, on_return r (λ b : bool, if b then Reporting (consumer_report a cstore c) else turn_over late c))
  | Testing c q => '(V, q) ← read_step mem V q; Some (V, Testing c q)
  | Reporting (Done r) => Some (V, Finished r)
  | Reporting q => '(V, q) ← read_step mem V q; Some (V, Reporting q)
  | Finished _ => None
  end.

Definition produce (s : live) : option live :=
  match lv_producer s with
  | Done (Ok _) =>
      if lv_done s then None
      else Some {| lv_writer := lv_writer s; lv_producer := lv_producer s; lv_done := true; lv_view := lv_view s;
                   lv_consumer := lv_consumer s |}
  | q => '(w, q) ← w_step (lv_writer s) q;
         Some {| lv_writer := w; lv_producer := q; lv_done := lv_done s; lv_view := lv_view s; lv_consumer := lv_consumer s |}
  end.

Definition live_act (t : act) (s : live) : option live :=
  match t with
  | Produce => produce s
  | Consume late =>
      '(V, φ) ← consume (w_mem (lv_writer s)) (lv_view s) (lv_done s) late (lv_consumer s);
      Some {| lv_writer := lv_writer s; lv_producer := lv_producer s; lv_done := lv_done s; lv_view := V; lv_consumer := φ |}
  end.

Fixpoint live_run (ts : list act) (s : live) : option live :=
  match ts with
  | [] => Some s
  | t :: ts => s ← live_act t s; live_run ts s
  end.

(** *** The consumer of the system is [consumer_run] *)

(** What is left of it in a phase, given the moments of the turns to come, that
    of the present turn first. *)
Definition rest_of_turn (ms : list Moment) (m : Moment) (c : ConsumerState) (finished : bool) : io HarnessError ConsumerState :=
  if finished then io_ret c else if mo_late m then Done (Err timed_out) else consumer_loop ms c.

Definition rest (φ : phase) (ms : list Moment) : io HarnessError ObservedReport :=
  match φ, ms with
  | Turning q, m :: ms =>
      c ← (c ← q; finished ← (if mo_done m then caught_up c else io_ret false); rest_of_turn ms m c finished);
      consumer_report a cstore c
  | Testing c q, m :: ms => c ← (finished ← q; rest_of_turn ms m c finished); consumer_report a cstore c
  | Reporting q, _ => q
  | Finished r, _ => Done r
  | _, [] => Done Diverge
  end.

Lemma rest_new m ms : rest (Turning (consumer_turn (consumer_new cstore))) (m :: ms) = consumer_run a cstore (m :: ms).
Proof. unfold rest, consumer_run. cbn [consumer_loop]. unfold rest_of_turn. exact eq_refl. Qed.

Lemma rest_turn_over ms m c late : mo_late m = late →
  rest (turn_over late c) ms = (c ← rest_of_turn ms m c false; consumer_report a cstore c).
Proof.
  intros <-. unfold turn_over, rest_of_turn. destruct (mo_late m); [exact eq_refl|]. destruct ms as [|m' ms]; [exact eq_refl|].
  unfold rest, rest_of_turn. cbn [consumer_loop]. exact eq_refl.
Qed.

Lemma r_step_match {E F A B} mem V (q : io E A) (ok : A → io F B) (err : E → io F B) t V' q' :
  r_step true mem V q t = Some (V', q') → r_step true mem V (io_match q ok err) t = Some (V', io_match q' ok err).
Proof.
  destruct q as [r|o l k|o l v k|o l v k|o k]; cbn [r_step io_match]; try done.
  - destruct (value_at mem l t); [|done]. case_decide; [|done]. by intros [= <- <-].
  - by intros [= <- <-].
Qed.

Lemma read_step_reads {A} mem V (q : io HarnessError A) W : read_step mem V q = Some W → ∃ t, r_step true mem V q t = Some W.
Proof. intros H. by eexists. Qed.

(** A step of the consumer is a read of [consumer_run], or what it does between
    two reads, with the moment it finds. *)
Lemma consume_rest mem V done late φ V' φ' : consume mem V done late φ = Some (V', φ') →
  (∃ t, ∀ m ms, r_step true mem V (rest φ (m :: ms)) t = Some (V', rest φ' (m :: ms)))
  ∨ V' = V ∧ ∃ over : bool, ∀ m ms, mo_done m = done → mo_late m = late →
      rest φ (m :: ms) = rest φ' (if over then ms else m :: ms).
Proof.
  assert (Hgone : ∀ r', ∃ over : bool, ∀ m ms, mo_done m = done → mo_late m = late →
    Done r' = rest (Finished r') (if over then ms else m :: ms)) by (intros r'; by exists false).
  destruct φ as [[[c|e| |]|o l k|o l v k|o l v k|o k]|c [[[]|e| |]|o l k|o l v k|o l v k|o k]|[r|o l k|o l v k|o l v k|o k]|r]; cbn [consume];
    try (intros [= <- <-]; right; split; [done|cbn [on_return]; apply Hgone]);
    try (destruct (read_step mem V _) as [[V1 q1]|] eqn:Hr; [|done]; intros [= <- <-]; apply read_step_reads in Hr as [t Hr]; left; exists t; intros m ms; unfold rest;
         repeat apply r_step_match; exact Hr); try done.
  - intros [= <- <-]. right. split; [done|]. cbn [on_return]. destruct done.
    + exists false. intros m ms Hd Hl. unfold rest. cbn [mbind io_bind io_match]. rewrite Hd. exact eq_refl.
    + exists true. intros m ms Hd Hl. rewrite (rest_turn_over ms m c late Hl). unfold rest. cbn [mbind io_bind io_match]. rewrite Hd. exact eq_refl.
  - intros [= <- <-]. right. split; [done|]. cbn [on_return]. exists false. intros m ms Hd Hl. unfold rest. exact eq_refl.
  - intros [= <- <-]. right. split; [done|]. cbn [on_return]. exists true. intros m ms Hd Hl. rewrite (rest_turn_over ms m c late Hl).
    unfold rest. exact eq_refl.
Qed.
End live.

(** ** The invariant *)

(** The two processes run over the same store, the fence on, and its ring holds
    the high-water records of all sources and one record more. *)
Definition live_sizes (p : ProducerArgs) (a : ConsumerArgs) (pstore cstore : SharedConcurrentStore) : Prop :=
  good_store pstore ∧ good_store cstore ∧ ss_capacity cstore = ss_capacity pstore
  ∧ ca_sources a = pa_sources p ∧ ca_per_source a = pa_per_source p
  ∧ run_sizes (ss_capacity pstore) (pa_sources p) (pa_per_source p)
  ∧ 68 * (pa_sources p + 1) ≤ Z.of_nat (ss_capacity pstore) ∧ Z.of_nat (ss_capacity pstore) < 2 ^ 32
  ∧ 2 * (pa_sources p * (pa_per_source p + 1)) < 2 ^ 32.

Section invariant.
Context {BP : BuildProfile} (p : ProducerArgs) (a : ConsumerArgs) (pstore cstore : SharedConcurrentStore).
Context (Hsizes : live_sizes p a pstore cstore).
Abbreviation cap := (ss_capacity pstore).
Abbreviation RS := (stream cap (pa_sources p) (pa_per_source p)).

Definition read_so_far (n : Z) (mem : list msg) (V : rview) (r : res HarnessError ConsumerState) : Prop :=
  match r with
  | Ok c => ∃ D es, consumer_inv cap RS n D mem V c es
  | Err e => poll_failed cap RS e
  | _ => False
  end.

Definition tested (n : Z) (c : ConsumerState) (mem : list msg) (V : rview) (r : res HarnessError bool) : Prop :=
  mem = mem_of cap RS ∧ ∃ b D es, r = Ok b ∧ consumer_inv cap RS n D mem V c es
    ∧ (b = true → cc_cursor_abs (ls_raw c) = ab_head (abs_of cap RS)).

Definition report_built (r : res HarnessError ObservedReport) : Prop :=
  ∃ rep, r = Ok rep ∧ reported cap (pa_sources p) (pa_per_source p) a rep.

Definition phase_ok (n : Z) (done : bool) (mem : list msg) (V : rview) (φ : phase) : Prop :=
  match φ with
  | Turning q => wp true (grows cap RS) q mem V (read_so_far n)
  | Testing c q => done = true ∧ wp true (grows cap RS) q mem V (tested n c)
  | Reporting q => done = true ∧ wp true (grows cap RS) q mem V (λ _ _, report_built)
  | Finished (Ok rep) => reported cap (pa_sources p) (pa_per_source p) a rep
  | Finished (Err e) => e = timed_out ∨ poll_failed cap RS e
  | Finished _ => False
  end.

Record live_inv (n : Z) (s : live) : Prop := {
  li_producer : ∃ ops p', emits ops (lv_producer s) (Done (Ok p')) ∧ ops_ok (lv_writer s) ops
    ∧ w_ops ops (lv_writer s) = (after cap RS).1;
  li_done : lv_done s = true → ∃ p', lv_producer s = Done (Ok p');
  li_phase : phase_ok n (lv_done s) (w_mem (lv_writer s)) (lv_view s) (lv_consumer s);
}.

Lemma live_rs_ok : rs_ok cap RS.
Proof. destruct Hsizes as (_ & _ & _ & _ & _ & Hrun & _). by apply stream_rs_ok. Qed.

Lemma live_lock : lock_room (length RS).
Proof.
  destruct Hsizes as (_ & _ & _ & _ & _ & Hrun & _ & _ & Hl). apply (stream_lock cap (pa_sources p) (pa_per_source p) Hrun).
  intros _. destruct Hrun as (_ & [? _] & ? & _). lia.
Qed.

Lemma live_mem n s : live_inv n s → w_mem (lv_writer s) `prefix_of` mem_of cap RS.
Proof. intros [(ops & p' & _ & _ & Hw) _ _]. unfold mem_of. rewrite <-Hw. apply w_ops_prefix. Qed.

Lemma live_done_mem n s : live_inv n s → lv_done s = true → w_mem (lv_writer s) = mem_of cap RS.
Proof.
  intros [(ops & p' & He & _ & Hw) Hd _] Hdone. destruct (Hd Hdone) as (p'' & Hp). rewrite Hp in He.
  destruct ops as [|[o l v|o l v x|o] ops]; [|by destruct He as (q & ? & _)..]. unfold mem_of. by rewrite <-Hw.
Qed.

Lemma wp_live_turn n D mem V c es : n + 1 < 2 ^ 64 → mem `prefix_of` mem_of cap RS → consumer_inv cap RS n D mem V c es →
  wp true (grows cap RS) (consumer_turn c) mem V (read_so_far (n + 1)).
Proof.
  intros Hn Hm Hinv. pose proof live_rs_ok as Hok. pose proof live_lock as Hl.
  destruct Hsizes as (_ & _ & _ & _ & _ & Hrun & _ & H32 & _). pose proof (sizes_pos _ _ _ Hrun) as Hcap.
  eapply wp_mono; [|by eapply (wp_turn cap Hcap H32 RS Hok Hl (stream_increasing _ _ _ Hrun) (stream_marked _ _ _ Hrun) (stream_accountable _ _ _ Hrun))].
  intros mem' V' [c'|e| |]; [by intros (D' & es' & ?); exists D', es'|done..].
Qed.

(** What the consumer does once the done file exists. *)
Lemma wp_live_test n D V c es : consumer_inv cap RS n D (mem_of cap RS) V c es →
  wp true (grows cap RS) (caught_up c) (mem_of cap RS) V (tested n c).
Proof.
  intros Hc. pose proof live_rs_ok as Hok. destruct Hsizes as (_ & _ & _ & _ & _ & Hrun & _).
  eapply wp_mono; [|by apply (wp_caught_up cap (sizes_pos _ _ _ Hrun) RS Hok n D V c es)].
  intros mem' V' r (-> & b & -> & Hi & Hb). split; [done|]. by exists b, D, es.
Qed.

Lemma wp_live_report n D V c es : n < 2 ^ 64 → consumer_inv cap RS n D (mem_of cap RS) V c es →
  cc_cursor_abs (ls_raw c) = ab_head (abs_of cap RS) →
  wp true (grows cap RS) (consumer_report a cstore c) (mem_of cap RS) V (λ _ _, report_built).
Proof.
  intros Hn Hc Hcur. destruct Hsizes as (_ & Hg & Hcap & Hs & Hp & Hrun & Hfit & _).
  by eapply (wp_report cap (pa_sources p) (pa_per_source p) Hrun Hfit).
Qed.

Lemma phase_later n n' done mem V φ : n ≤ n' → phase_ok n done mem V φ → phase_ok n' done mem V φ.
Proof.
  intros Hn. destruct φ as [q|c q|q|r]; cbn [phase_ok]; [..|done|done].
  - apply wp_mono. unfold read_so_far. intros mem' V' [c'|e| |]; try done. intros (D & es & ?). exists D, es. eapply inv_later; [exact Hn|eassumption].
  - intros [Hd Hq]. split; [done|]. revert Hq. apply wp_mono. intros mem' V' r (-> & b & D & es & -> & ? & ?). split; [done|].
    exists b, D, es. split_and!; [done|eapply inv_later; [exact Hn|eassumption]|done].
Qed.

Lemma live_new_inv : live_inv 1 (live_new p pstore cstore).
Proof.
  destruct Hsizes as (Hp & Hc & Hcap & _ & _ & Hrun & _). split; cbn [live_new lv_producer lv_writer lv_done lv_view lv_consumer]; [|done|].
  - destruct (producer_run_emits (SL := shared_laws) pstore _ _ (pa_append_mode p) Hp Hrun) as (ops & p' & He & Ho & Hw & _).
    by exists ops, p'.
  - apply (wp_live_turn 0 0 [] _ _ []); [done|apply prefix_nil|]. apply inv_start; [by eapply sizes_pos|apply live_rs_ok|done|done].
Qed.

(** *** The steps keep it *)
Lemma produce_inv n s s' : live_inv n s → produce s = Some s' → live_inv n s'.
Proof.
  intros Hinv. pose proof (live_mem _ _ Hinv) as Hm. destruct Hinv as [(ops & p' & He & Ho & Hw) Hd Hph]. unfold produce.
  destruct ops as [|op ops].
  - cbn in He. rewrite He. destruct (lv_done s) eqn:Hdone; [done|]. intros [= <-]. split; cbn; [by exists [], p'|intros _; by exists p'|].
    destruct (lv_consumer s) as [q|c q|q|r]; cbn in *; [done|by destruct Hph..|done].
  - destruct Ho as [Hop Ho]. destruct (w_step_emits op ops _ _ _ He Hop) as (q & Hst & He').
    assert (Hnd : lv_done s = false).
    { destruct (lv_done s); [|done]. destruct (Hd eq_refl) as (p'' & Hp). by rewrite Hp in Hst. }
    assert (Hs' : ∀ o : option live, match lv_producer s with Done (Ok _) => o | q0 => '(w, q) ← w_step (lv_writer s) q0;
        Some {| lv_writer := w; lv_producer := q; lv_done := lv_done s; lv_view := lv_view s; lv_consumer := lv_consumer s |} end
      = Some {| lv_writer := w_op (lv_writer s) op; lv_producer := q; lv_done := lv_done s; lv_view := lv_view s; lv_consumer := lv_consumer s |}).
    { intros o. destruct (lv_producer s) as [[| | |]|o' l k|o' l v k|o' l v k|o' k]; try done; by rewrite Hst. }
    rewrite Hs'. intros [= <-]. split; cbn; [by exists ops, p'|by rewrite Hnd|]. rewrite Hnd in *.
    assert (Hg : grows cap RS (w_mem (lv_writer s)) (w_mem (w_op (lv_writer s) op))).
    { split; [apply (w_ops_prefix [op])|]. unfold mem_of. rewrite <-Hw. apply (w_ops_prefix ops (w_op (lv_writer s) op)). }
    destruct (lv_consumer s) as [q'|c q'|q'|r]; cbn in *; [|by destruct Hph..|done].
    eapply wp_grows; [apply grows_trans|exact Hg| |exact Hph]. intros [c| | |] _; [|done..].
    intros (D & es & Hi). exists D, es. by eapply inv_grows.
Qed.

Lemma read_keeps {A} n s (mk : io HarnessError A → phase) q Q V' φ' : live_inv n s →
  wp true (grows cap RS) q (w_mem (lv_writer s)) (lv_view s) Q →
  (∀ V q, wp true (grows cap RS) q (w_mem (lv_writer s)) V Q → phase_ok n (lv_done s) (w_mem (lv_writer s)) V (mk q)) →
  ('(V, q) ← read_step (w_mem (lv_writer s)) (lv_view s) q; Some (V, mk q)) = Some (V', φ') →
  phase_ok n (lv_done s) (w_mem (lv_writer s)) V' φ'.
Proof.
  intros Hinv Hq Hmk. destruct (read_step _ _ q) as [[V1 q1]|] eqn:Hr; [|done]. intros [= <- <-]. apply Hmk.
  eapply wp_step; [apply grows_refl; by eapply live_mem|exact Hr|exact Hq].
Qed.

Lemma turn_over_inv n s late c D V es : live_inv n s → n + 1 < 2 ^ 64 →
  consumer_inv cap RS n D (w_mem (lv_writer s)) V c es →
  phase_ok (n + 1) (lv_done s) (w_mem (lv_writer s)) V (turn_over late c).
Proof.
  intros Hinv Hn Hc. unfold turn_over. destruct late; [by left|]. cbn [phase_ok]. eapply wp_live_turn; [done|by eapply live_mem|exact Hc].
Qed.

Lemma consume_inv n s late V' φ' : live_inv n s → n + 1 < 2 ^ 64 →
  consume a cstore (w_mem (lv_writer s)) (lv_view s) (lv_done s) late (lv_consumer s) = Some (V', φ') →
  phase_ok (n + 1) (lv_done s) (w_mem (lv_writer s)) V' φ'.
Proof.
  intros Hinv Hn. pose proof (li_phase _ _ Hinv) as Hph.
  assert (Hkeep : ∀ φ, phase_ok n (lv_done s) (w_mem (lv_writer s)) V' φ → phase_ok (n + 1) (lv_done s) (w_mem (lv_writer s)) V' φ).
  { intros φ. apply phase_later. lia. }
  destruct (lv_consumer s) as [q|c q|q|r]; cbn [phase_ok] in Hph; cbn [consume]; [| | |done].
  - destruct q as [[c|e| |]|o l k|o l v k|o l v k|o k]; try (intros H; apply Hkeep; by eapply (read_keeps n s Turning)); cbn in Hph; try done; intros [= <- <-]; [|by right].
    cbn [on_return]. destruct Hph as (D & es & Hc). destruct (lv_done s) eqn:Hdone; [|rewrite <-Hdone; by eapply turn_over_inv].
    apply Hkeep. split; [done|]. rewrite (live_done_mem _ _ Hinv Hdone) in *. by apply (wp_live_test n D _ c es).
  - destruct Hph as [Hdone Hph].
    destruct q as [r|o l k|o l v k|o l v k|o k]; try (intros H; apply Hkeep; by eapply (read_keeps n s (Testing c))).
    cbn [wp] in Hph. destruct Hph as (Hmem & b & D & es & -> & Hc & Hcur). intros [= <- <-]. cbn [on_return].
    destruct b; [|by eapply turn_over_inv]. apply Hkeep. split; [done|]. rewrite Hmem in *. apply (wp_live_report n D _ c es); [lia|done|by apply Hcur].
  - destruct Hph as [Hdone Hph].
    destruct q as [r|o l k|o l v k|o l v k|o k]; try (intros H; apply Hkeep; by eapply (read_keeps n s Reporting)).
    cbn [wp] in Hph. destruct Hph as (rep & -> & Hrep). by intros [= <- <-].
Qed.

Lemma act_inv n t s s' : live_inv n s → n + 1 < 2 ^ 64 → live_act a cstore t s = Some s' → live_inv (n + 1) s'.
Proof.
  intros Hinv Hn. destruct t as [|late]; cbn [live_act].
  - intros Hs. destruct (produce_inv _ _ _ Hinv Hs) as [H1 H2 H3]. split; [done|done|]. eapply phase_later; [|exact H3]. lia.
  - destruct (consume _ _ _ _ _ _ _) as [[V φ]|] eqn:Hc; [|done]. intros [= <-]. pose proof (consume_inv _ _ _ _ _ Hinv Hn Hc).
    by destruct Hinv.
Qed.

Lemma live_run_inv ts : ∀ n s s', live_inv n s → n + Z.of_nat (length ts) < 2 ^ 64 → live_run a cstore ts s = Some s' →
  live_inv (n + Z.of_nat (length ts)) s'.
Proof.
  induction ts as [|t ts IH]; intros n s s' Hinv Hn; cbn [live_run length] in *.
  - intros [= <-]. by rewrite Z.add_0_r.
  - destruct (live_act a cstore t s) as [s1|] eqn:Ht; [|done]. intros Hs. rewrite Nat2Z.inj_succ in *.
    pose proof (IH (n + 1) s1 s' (act_inv _ _ _ _ Hinv ltac:(lia) Ht) ltac:(lia) Hs) as H. by replace (n + Z.succ (Z.of_nat (length ts))) with (n + 1 + Z.of_nat (length ts)) by lia.
Qed.
End invariant.

(** ** The report of a finished run is accepted *)
Section accepted.
Context {BP : BuildProfile} (cap : nat) (sources : u32) (per_source : u64) (Hrun : run_sizes cap sources per_source).
Context (Hcap32 : Z.of_nat cap < 2 ^ 32) (a : ConsumerArgs) (rep : ObservedReport) (Hrep : reported cap sources per_source a rep).
Abbreviation final := (abs_of cap (stream cap sources per_source)).

Lemma reported_sums :
  or_delivered_total rep + or_lost_total rep = sources * (per_source + 1) ∧ 0 ≤ or_delivered_total rep ∧ 0 ≤ or_lost_total rep.
Proof.
  destruct (reconciled_totals _ _ _ (rp_sources _ _ _ _ _ Hrep)) as (Hsum & _ & _ & Hd & Hl).
  rewrite (rp_delivered _ _ _ _ _ Hrep), (rp_lost_total _ _ _ _ _ Hrep). split_and!; [|done|done].
  destruct Hrun as (_ & [? _] & _). rewrite Hsum. unfold source_ids. rewrite length_seqZ. by rewrite Z2Nat.id.
Qed.

Lemma reported_source o : o ∈ or_sources rep → ∃ id, id ∈ source_ids sources ∧ reconciles per_source id o.
Proof.
  intros Ho. apply list_elem_of_lookup_1 in Ho as [i Hi].
  destruct (Forall2_lookup_r _ _ _ _ _ (rp_sources _ _ _ _ _ Hrep) Hi) as (id & Hid & Hr). exists id.
  split; [by eapply list_elem_of_lookup_2|done].
Qed.

Lemma reported_shown id : id ∈ source_ids sources → ∃ o, source_shown rep id = Some o ∧ reconciles per_source id o.
Proof.
  intros Hid. destruct (source_shown rep id) as [o|] eqn:Ho.
  - exists o. split; [done|]. destruct (shown_in _ _ _ Ho) as [Hin <-]. destruct (reported_source o Hin) as (id' & _ & Hr).
    unfold reconciles in *. destruct Hr as (? & -> & ?). tauto.
  - exfalso. unfold source_shown in Ho. apply last_None in Ho. apply list_elem_of_lookup_1 in Hid as [i Hi].
    destruct (Forall2_lookup_l _ _ _ _ _ (rp_sources _ _ _ _ _ Hrep) Hi) as (o & Hoi & (_ & Hs & _)).
    assert (Hin : o ∈ filter (λ o, sob_source_id o = id) (or_sources rep)) by (apply list_elem_of_filter; split; [done|by eapply list_elem_of_lookup_2]).
    rewrite Ho in Hin. by apply not_elem_of_nil in Hin.
Qed.

Lemma reported_sizes : 0 ≤ ab_head final < 2 ^ 64 ∧ Z.of_nat (length (ab_dropped final)) < 2 ^ 64 ∧ sources * (per_source + 1) < 2 ^ 64.
Proof.
  pose proof (stream_rs_ok _ _ _ Hrun) as Hok. pose proof (sizes_pos _ _ _ Hrun) as Hcap. pose proof (length_stream _ _ _ Hrun) as Hlen.
  destruct (history_ring cap Hcap _ Hok) as (r & _ & Hr & _ & Hh). pose proof (rep_window _ _ Hr).
  pose proof (layout_bounds _ _ _ _ (rep_layout _ _ Hr)) as [? _]. destruct Hrun as (_ & [? _] & ? & _ & Hsz).
  pose proof (f_equal length (log_recs cap Hcap _ Hok)) as Hd. unfold ab_log in Hd. rewrite length_fmap, length_app in Hd. nia.
Qed.

Lemma reported_readable : readable rep.
Proof.
  pose proof reported_sums as (Hsum & Hd & Hl). pose proof reported_sizes as (Hh & Hlost & Hall).
  destruct Hrep as [(Hm & Ha & Hf & Hc) Hhead Hlc (Hcl & Hpe) Hsrc Hdel Hlt (H1 & H2 & H3)].
  split; [|rewrite Hm, Ha; destruct (ca_mode a), (ca_append_mode a); by split; by_compute].
  unfold report_ok. rewrite Hc, Hhead, Hlc, Hcl, Hpe. unfold fits in *. split_and!; try done; try lia.
  apply Forall_forall. intros o Ho. destruct (reported_source o Ho) as (id & Hid%elem_of_seqZ & (Hr & Hs & He & Hdl & H4 & H5)).
  destruct Hrun as (_ & [? ?] & ? & Ht & _). unfold source_ok. rewrite Hr, Hs, He. unfold RUN_ID, fits. split_and!; lia.
Qed.

Lemma reported_fits : check_fits cap sources per_source rep.
Proof.
  pose proof reported_sums as (Hsum & _). pose proof reported_sizes as (_ & _ & Hall). pose proof Hrun as (_ & _ & Hp & Ht & _).
  unfold check_fits. split_and!; try lia. apply Forall_forall. intros o Ho.
  destruct (reported_source o Ho) as (id & _ & (_ & _ & _ & Hs & _)). lia.
Qed.

(** Only the asked progress is left to chance. *)
Definition progressed : Prop :=
  or_delivered_total rep ≠ 0 ∧ Z.of_nat cap * 100 < ab_head final ∧ ab_dropped final ≠ [].

Lemma reported_accepted : run_accepted Fenced cap sources per_source rep ↔ progressed.
Proof.
  pose proof reported_sums as (Hsum & _). unfold run_accepted, progressed. rewrite (rp_head _ _ _ _ _ Hrep), (rp_lost _ _ _ _ _ Hrep).
  assert (Hnil : Z.of_nat (length (ab_dropped final)) ≠ 0 ↔ ab_dropped final ≠ []) by (destruct (ab_dropped final); cbn [length]; split; intros H; (done || lia)).
  rewrite Hnil. split; [tauto|]. intros (? & ? & ?). split_and!; try done; try lia.
  - intros _. apply (rp_clean _ _ _ _ _ Hrep).
  - apply Forall_forall. intros id Hid. destruct (reported_shown id Hid) as (o & Ho & (_ & _ & He & Hs & _)). unfold source_accepted. by rewrite Ho.
Qed.
End accepted.

(** ** A run can be finished *)
Definition set_consumer (V : rview) (φ : phase) (s : live) : live :=
  {| lv_writer := lv_writer s; lv_producer := lv_producer s; lv_done := lv_done s; lv_view := V; lv_consumer := φ |}.

Section finish.
Context {BP : BuildProfile} (p : ProducerArgs) (a : ConsumerArgs) (pstore cstore : SharedConcurrentStore).
Context (Hsizes : live_sizes p a pstore cstore).
Abbreviation cap := (ss_capacity pstore).
Abbreviation RS := (stream cap (pa_sources p) (pa_per_source p)).

Lemma live_run_app ts1 : ∀ ts2 s, live_run a cstore (ts1 ++ ts2) s = (s ← live_run a cstore ts1 s; live_run a cstore ts2 s).
Proof.
  induction ts1 as [|t ts1 IH]; intros ts2 s; [done|]. cbn [app live_run]. destruct (live_act a cstore t s); [|done]. cbn [mbind option_bind]. apply IH.
Qed.

(** The run goes on to [s'] and the clock is never late. *)
Definition goes_on (s s' : live) : Prop := ∃ ts, Forall (λ t, t ≠ Consume true) ts ∧ live_run a cstore ts s = Some s'.

Lemma goes_on_refl s : goes_on s s.
Proof. by exists []. Qed.
Lemma goes_on_trans s1 s2 s3 : goes_on s1 s2 → goes_on s2 s3 → goes_on s1 s3.
Proof.
  intros (ts1 & Hf1 & H1) (ts2 & Hf2 & H2). exists (ts1 ++ ts2). split; [by apply Forall_app|]. by rewrite live_run_app, H1.
Qed.
Lemma goes_on_act t s s1 s2 : t ≠ Consume true → live_act a cstore t s = Some s1 → goes_on s1 s2 → goes_on s s2.
Proof.
  intros Ht Ha. apply goes_on_trans. exists [t]. split; [by constructor|]. cbn [live_run]. by rewrite Ha.
Qed.

(** The producer writes what it has left and creates the done file. *)
Lemma producer_finishes n s : live_inv p a pstore n s →
  ∃ s', goes_on s s' ∧ live_inv p a pstore n s' ∧ lv_done s' = true ∧ lv_consumer s' = lv_consumer s.
Proof.
  intros Hinv. destruct (li_producer _ _ _ _ _ Hinv) as (ops & p' & He & Ho & Hw). revert s Hinv He Ho Hw.
  assert (Hstep : ∀ s s', live_inv p a pstore n s → produce s = Some s' → goes_on s s' ∧ live_inv p a pstore n s').
  { intros s s' Hi Hs. split; [|by apply (produce_inv p a pstore n s)].
    apply (goes_on_act Produce s s' s'); [done|exact Hs|apply goes_on_refl]. }
  induction ops as [|op ops IH]; intros s Hinv He Ho Hw.
  - cbn in He. destruct (lv_done s) eqn:Hd; [exists s; by split_and!; [apply goes_on_refl| | |]|].
    destruct (Hstep s {| lv_writer := lv_writer s; lv_producer := lv_producer s; lv_done := true; lv_view := lv_view s; lv_consumer := lv_consumer s |} Hinv)
      as [Hg Hi]; [unfold produce; by rewrite He, Hd|]. by eexists.
  - destruct Ho as [Hop Ho]. destruct (w_step_emits op ops _ _ _ He Hop) as (q & Hst & He').
    destruct (Hstep s {| lv_writer := w_op (lv_writer s) op; lv_producer := q; lv_done := lv_done s; lv_view := lv_view s; lv_consumer := lv_consumer s |} Hinv)
      as [Hg Hi].
    { unfold produce. destruct (lv_producer s) as [[| | |]|o' l k|o' l v k|o' l v k|o' k]; try done; by rewrite Hst. }
    destruct (IH _ Hi He' Ho Hw) as (s' & Hg' & Hi' & Hd & Hs'). exists s'. split_and!; [by eapply goes_on_trans|done|done|exact Hs'].
Qed.

(** What the consumer runs, run to its return while the producer rests. *)
Definition runs {A} (mk : io HarnessError A → phase) : Prop :=
  ∀ mem V done late q, (∀ r, q ≠ Done r) → consume a cstore mem V done late (mk q) = ('(V, q) ← read_step mem V q; Some (V, mk q)).

Lemma runs_turning : runs Turning.
Proof. intros mem V d late [r|o l k|o l v k|o l v k|o k] Hq; [by destruct (Hq r)|done..]. Qed.
Lemma runs_testing c : runs (Testing c).
Proof. intros mem V d late [r|o l k|o l v k|o l v k|o k] Hq; [by destruct (Hq r)|done..]. Qed.
Lemma runs_reporting : runs Reporting.
Proof. intros mem V d late [r|o l k|o l v k|o l v k|o k] Hq; [by destruct (Hq r)|done..]. Qed.

Lemma runs_alone {A} (mk : io HarnessError A → phase) (grows : list msg → list msg → Prop) Q q : runs mk → ∀ s,
  lv_consumer s = mk q → grows (w_mem (lv_writer s)) (w_mem (lv_writer s)) →
  wp true grows q (w_mem (lv_writer s)) (lv_view s) Q →
  ∃ V', goes_on s (set_consumer V' (mk (Done (solo (w_mem (lv_writer s)) q))) s) ∧ Q (w_mem (lv_writer s)) V' (solo (w_mem (lv_writer s)) q).
Proof.
  intros Hmk. induction q as [r|o l k IH| | |o k IH]; intros s Hs Hg Hp; cbn [wp solo] in *; try done.
  - exists (lv_view s). split; [|done]. rewrite <-Hs. destruct s. apply goes_on_refl.
  - set (mem := w_mem (lv_writer s)) in *. set (V1 := after_load o mem (lv_view s) l (latest mem (length mem) l)).
    destruct (IH (cur mem l) (set_consumer V1 (mk (k (cur mem l))) s)) as (V' & Hgo & HQ); [done|done| |].
    { apply Hp; [done|apply latest_now|done]. }
    exists V'. split; [|exact HQ]. eapply (goes_on_act (Consume false)); [done| |exact Hgo].
    cbn [live_act]. rewrite Hs, Hmk by done. unfold read_step. cbn [r_step]. fold mem. by rewrite latest_now, decide_True by done.
  - destruct (IH (set_consumer (after_fence o (lv_view s)) (mk k) s)) as (V' & Hgo & HQ); [done|done|by apply Hp|].
    exists V'. split; [|exact HQ]. eapply (goes_on_act (Consume false)); [done| |exact Hgo]. cbn [live_act]. by rewrite Hs, Hmk by done.
Qed.

(** From here the producer is done. *)
Definition quiet (s : live) : Prop := lv_done s = true ∧ w_mem (lv_writer s) = mem_of cap RS.

Lemma quiet_grows s : quiet s → grows cap RS (w_mem (lv_writer s)) (w_mem (lv_writer s)).
Proof. intros [_ ->]. by apply grows_refl. Qed.

(** After a turn the consumer compares its cursor with the head. *)
Lemma tests_alone n s c D V es : quiet s → lv_consumer s = Turning (Done (Ok c)) → consumer_inv cap RS n D (mem_of cap RS) V c es →
  ∃ V', goes_on s (set_consumer V' (Testing c (Done (Ok (bool_decide (cc_cursor_abs (ls_raw c) = ab_head (abs_of cap RS)))))) s).
Proof.
  intros Hq Hs Hc. pose proof Hq as [Hd Hm]. destruct Hsizes as (_ & _ & _ & _ & _ & Hrun & _).
  destruct (history_image cap (sizes_pos _ _ _ Hrun) RS (live_rs_ok p a pstore cstore Hsizes)) as (r & _ & Hrep & Him).
  destruct (runs_alone (Testing c) (grows cap RS) (tested p pstore n c) (caught_up c) (runs_testing c)
    (set_consumer (lv_view s) (Testing c (caught_up c)) s)) as (V' & Hgo & _); [done|by apply quiet_grows| |].
  { cbn [set_consumer lv_writer lv_view]. rewrite Hm. eapply (wp_live_test p a pstore cstore Hsizes), inv_view, Hc. }
  exists V'. apply (goes_on_act (Consume false) s (set_consumer (lv_view s) (Testing c (caught_up c)) s)); [done| |].
  { cbn [live_act]. rewrite Hs. cbn [consume on_return mbind option_bind]. unfold set_consumer. by rewrite Hd. }
  cbn [set_consumer lv_writer] in Hgo. rewrite Hm in Hgo.
  assert (Hsolo : solo (mem_of cap RS) (caught_up c) = Ok (bool_decide (cc_cursor_abs (ls_raw c) = ab_head (abs_of cap RS)))).
  { unfold caught_up, cc_head_abs. destruct (cv_store _ _ _ _ _ _ _ _ Hc) as [Hgood _]. rewrite shared_load_head by done.
    cbn [mbind io_bind io_match io_ret solo]. by rewrite (im_head _ _ _ Him), (rep_head _ _ Hrep). }
  by rewrite Hsolo in Hgo.
Qed.

(** The run ends with a report. *)
Definition ends_well (s : live) : Prop := ∃ s' rep, goes_on s s' ∧ lv_consumer s' = Finished (Ok rep).

Lemma goes_ends s s' : goes_on s s' → ends_well s' → ends_well s.
Proof. intros Hgo (s2 & rep & Hgo2 & Hs2). exists s2, rep. split; [by eapply goes_on_trans|done]. Qed.
Lemma act_ends s s' : live_act a cstore (Consume false) s = Some s' → ends_well s' → ends_well s.
Proof. intros Ha. apply goes_ends. by eapply goes_on_act; [|exact Ha|apply goes_on_refl]. Qed.

Lemma report_ends s q : quiet s → lv_consumer s = Reporting q →
  wp true (grows cap RS) q (w_mem (lv_writer s)) (lv_view s) (λ _ _, report_built p a pstore) → ends_well s.
Proof.
  intros Hq Hs Hwp. destruct (runs_alone Reporting (grows cap RS) _ q runs_reporting s Hs (quiet_grows s Hq) Hwp) as (V & Hgo & rep & Hrep & _).
  rewrite Hrep in Hgo. apply (goes_ends _ _ Hgo). exists (set_consumer V (Finished (Ok rep)) s), rep. split; [|done].
  by eapply (goes_on_act (Consume false)); [|reflexivity|apply goes_on_refl].
Qed.

(** With the cursor at the head it reports. *)
Lemma head_ends n s c D V es : quiet s → lv_consumer s = Turning (Done (Ok c)) → n < 2 ^ 64 →
  consumer_inv cap RS n D (mem_of cap RS) V c es → cc_cursor_abs (ls_raw c) = ab_head (abs_of cap RS) → ends_well s.
Proof.
  intros Hq Hs Hn Hc Hcur. destruct (tests_alone n s c D V es Hq Hs Hc) as (V1 & Hgo1). rewrite bool_decide_true in Hgo1 by done.
  apply (goes_ends _ _ Hgo1). eapply act_ends; [reflexivity|]. pose proof Hq as [_ Hm].
  apply (report_ends _ (consumer_report a cstore c)); [exact Hq|done|]. cbn [set_consumer lv_writer lv_view]. rewrite Hm.
  eapply (wp_live_report p a pstore cstore Hsizes n); [done|eapply inv_view, Hc|done].
Qed.

(** A turn that starts now reaches it. *)
Lemma turn_ends n s c D V es : quiet s → lv_consumer s = Turning (consumer_turn c) → n + 1 < 2 ^ 64 →
  consumer_inv cap RS n D (mem_of cap RS) V c es → ends_well s.
Proof.
  intros Hq Hs Hn Hc. pose proof (live_rs_ok p a pstore cstore Hsizes) as Hok. pose proof (live_lock p a pstore cstore Hsizes) as Hl.
  pose proof Hsizes as (_ & _ & _ & _ & _ & Hrun & _ & H32 & _). pose proof (sizes_pos _ _ _ Hrun) as Hcap.
  destruct (quiet_turn cap Hcap H32 RS Hok Hl (stream_increasing _ _ _ Hrun) (stream_marked _ _ _ Hrun) (stream_accountable _ _ _ Hrun) n D V c es Hc Hn)
    as (c' & Hsolo & Hcur' & D' & es' & V' & Hc').
  pose proof Hq as [_ Hm].
  destruct (runs_alone Turning (grows cap RS) (read_so_far p pstore (n + 1)) (consumer_turn c) runs_turning s) as (V2 & Hgo & _);
    [done|exact (quiet_grows s Hq)| |].
  { rewrite Hm. eapply (wp_live_turn p a pstore cstore Hsizes); [done|done|eapply inv_view, Hc]. }
  rewrite Hm, Hsolo in Hgo. apply (goes_ends _ _ Hgo). by eapply (head_ends (n + 1)); [exact Hq|reflexivity|lia|exact Hc'|].
Qed.

(** After the comparison it reports or takes that turn. *)
Lemma test_ends n s c q : quiet s → lv_consumer s = Testing c q → n + 1 < 2 ^ 64 →
  wp true (grows cap RS) q (w_mem (lv_writer s)) (lv_view s) (tested p pstore n c) → ends_well s.
Proof.
  intros Hq Hs Hn Hwp.
  destruct (runs_alone (Testing c) (grows cap RS) _ q (runs_testing c) s Hs (quiet_grows s Hq) Hwp) as (V & Hgo & Hm & b & D & es & Hb & Hc & Hcur).
  rewrite Hb in Hgo. rewrite Hm in Hc. apply (goes_ends _ _ Hgo). destruct b; (eapply act_ends; [reflexivity|]).
  - apply (report_ends _ (consumer_report a cstore c)); [exact Hq|done|]. cbn [set_consumer lv_writer lv_view]. rewrite Hm.
    eapply (wp_live_report p a pstore cstore Hsizes n); [lia|exact Hc|by apply Hcur].
  - by eapply (turn_ends n); [exact Hq|reflexivity|done|exact Hc].
Qed.

(** A run that has not ended ends well unless the turn under way fails. *)
Lemma run_ends_well n s : live_inv p a pstore n s → quiet s → n + 1 < 2 ^ 64 →
  (∀ r, lv_consumer s ≠ Finished r) → ends_well s ∨ ∃ s' x, goes_on s s' ∧ lv_consumer s' = Finished (Err (PollFailed x)).
Proof.
  intros Hinv Hq Hn Hnf. pose proof (li_phase _ _ _ _ _ Hinv) as Hph. destruct (lv_consumer s) as [q|c q|q|r] eqn:Hs; cbn [phase_ok] in Hph.
  - destruct (runs_alone Turning (grows cap RS) _ q runs_turning s Hs (quiet_grows s Hq) Hph) as (V & Hgo & Hr).
    pose proof Hq as [Hd Hm]. destruct (solo (w_mem (lv_writer s)) q) as [c|e| |]; cbn [read_so_far] in Hr; [|destruct Hr as [[x ->] _]|done..].
    + left. destruct Hr as (D & es & Hc). apply (goes_ends _ _ Hgo). rewrite Hm in Hc.
      eapply act_ends; [cbn [live_act set_consumer lv_consumer consume on_return lv_done mbind option_bind]; rewrite Hd; reflexivity|].
      apply (test_ends n _ c (caught_up c)); [split; done|done|done|]. cbn [lv_writer lv_view set_consumer]. rewrite Hm.
      by eapply (wp_live_test p a pstore cstore Hsizes).
    + right. exists (set_consumer V (Finished (Err (PollFailed x))) s), x. split; [|done].
      eapply goes_on_trans; [exact Hgo|]. by eapply (goes_on_act (Consume false)); [|reflexivity|apply goes_on_refl].
  - left. destruct Hph as [_ Hph]. by eapply test_ends.
  - left. destruct Hph as [_ Hph]. by eapply report_ends.
  - by destruct (Hnf r).
Qed.
End finish.

(** ** Properties *)

(** C7: a fenced run reconciles, if the ring has room for the high-water records
    of all sources and one record more, 68 bytes each; no argument check asks for
    that room, and without it a consumer may never see one of these records and
    end with counts that do not add up ([crowded_run]). With it, however the two
    processes interleave under sequential consistency and whatever was
    overwritten meanwhile, when the consumer process ends it has not panicked,
    and unless the time was up or a poll failed, which takes bytes of the ring to
    have been reclaimed, it has a report that shows no stale record, the final
    head and eviction count, and for every source delivered and lost counts that
    add up to exactly the records written. The parent reads this report back from
    its text and accepts the run exactly when something was delivered, the head
    went round the ring a hundred times and records were evicted. Both processes
    are given the same ring, sources and counts, and the sizes keep the offsets,
    times and totals within their words ([live_sizes]). *)
Theorem fenced_run_reconciles {BP : BuildProfile} p a pstore cstore ts s r :
  live_sizes p a pstore cstore → Z.of_nat (length ts) + 2 < 2 ^ 64 →
  live_run a cstore ts (live_new p pstore cstore) = Some s → lv_consumer s = Finished r →
  match r with
  | Ok rep =>
      reported (ss_capacity pstore) (pa_sources p) (pa_per_source p) a rep
      ∧ ∀ args iteration run, ra_fence_mode args = Fenced → ra_cap args = ss_capacity pstore →
          ra_sources args = pa_sources p → ra_per_source args = pa_per_source p →
          cr_producer_failure run = None → cr_consumer_failure run = None → cr_report run = report_text rep →
          checks (run_once args iteration run) (progressed (ss_capacity pstore) (pa_sources p) (pa_per_source p) rep)
  | Err e =>
      e = timed_out ∨ (∃ x, e = PollFailed x)
        ∧ 0 < ab_oldest (abs_of (ss_capacity pstore) (stream (ss_capacity pstore) (pa_sources p) (pa_per_source p)))
  | _ => False
  end.
Proof.
  intros Hs Hn Hrun Hr. pose proof (live_run_inv p a pstore cstore Hs ts 1 _ s (live_new_inv p a pstore cstore Hs) ltac:(lia) Hrun) as Hinv.
  pose proof (li_phase _ _ _ _ _ Hinv) as Hph. rewrite Hr in Hph. destruct r as [rep|e| |]; [|done..]. cbn [phase_ok] in Hph. split; [done|].
  intros args iteration run Hf Hc Hsrc Hper H1 H2 H3. pose proof Hs as (_ & _ & _ & _ & _ & Hsz & _ & H32 & _).
  eapply checks_iff; [exact (reported_accepted _ _ _ Hsz a rep Hph)|]. rewrite <-Hf, <-Hc, <-Hsrc, <-Hper.
  apply run_once_checks; [done|done|done| |].
  - by apply (reported_readable _ _ _ Hsz H32 a).
  - rewrite Hc, Hsrc, Hper. by apply (reported_fits _ _ _ Hsz H32 a).
Qed.

Lemma consumer_waits {BP : BuildProfile} a cstore ts : ∀ s s', Forall (λ t, t = Produce) ts →
  live_run a cstore ts s = Some s' → lv_consumer s' = lv_consumer s.
Proof.
  induction ts as [|t ts IH]; intros s s' Hts; cbn [live_run]; [by intros [= <-]|]. apply Forall_cons_1 in Hts as [-> Hts].
  destruct (live_act a cstore Produce s) as [s1|] eqn:Hs1; [|done]. intros Hrun. rewrite (IH s1 s' Hts Hrun).
  cbn [live_act] in Hs1. unfold produce in Hs1. destruct (lv_producer s) as [[| | |]|o l k|o l v k|o l v k|o k]; cbn in Hs1; repeat case_match; by simplify_eq.
Qed.

(** C8: a run (with the room and sizes of [live_sizes]) can always be finished:
    from every state such a run can be in, there is
    a way on in which the clock is never late and the consumer process ends: with
    a report, or because the poll that was under way fails, and this only if the
    consumer had already begun. *)
Theorem fenced_run_finishes {BP : BuildProfile} p a pstore cstore ts s :
  live_sizes p a pstore cstore → Z.of_nat (length ts) + 3 < 2 ^ 64 →
  live_run a cstore ts (live_new p pstore cstore) = Some s → (∀ r, lv_consumer s ≠ Finished r) →
  ∃ ts' s' r, Forall (λ t, t ≠ Consume true) ts' ∧ live_run a cstore (ts ++ ts') (live_new p pstore cstore) = Some s'
    ∧ lv_consumer s' = Finished r
    ∧ ((∃ rep, r = Ok rep) ∨ (∃ x, r = Err (PollFailed x)) ∧ ∃ late, Consume late ∈ ts).
Proof.
  intros Hs Hn Hrun Hnf. pose proof (live_run_inv p a pstore cstore Hs ts 1 _ s (live_new_inv p a pstore cstore Hs) ltac:(lia) Hrun) as Hinv.
  destruct (producer_finishes p a pstore cstore _ s Hinv) as (s1 & Hgo1 & Hinv1 & Hd & Hsame).
  assert (Hq : quiet p pstore s1) by (split; [done|by eapply live_done_mem]).
  assert (Hend : ∀ s' r, goes_on a cstore s1 s' → lv_consumer s' = Finished r →
    (∃ rep, r = Ok rep) ∨ (∃ x, r = Err (PollFailed x)) ∧ (∃ late, Consume late ∈ ts) →
    ∃ ts' s' r, Forall (λ t, t ≠ Consume true) ts' ∧ live_run a cstore (ts ++ ts') (live_new p pstore cstore) = Some s' ∧ lv_consumer s' = Finished r
    ∧ ((∃ rep, r = Ok rep) ∨ (∃ x, r = Err (PollFailed x)) ∧ ∃ late, Consume late ∈ ts)).
  { intros s' r Hgo Hr HP. destruct (goes_on_trans a cstore _ _ _ Hgo1 Hgo) as (ts' & Hf & Hts'). exists ts', s', r.
    split_and!; [done|by rewrite live_run_app, Hrun|done|done]. }
  assert (Hwell : ends_well a cstore s1 → ∃ ts' s' r, Forall (λ t, t ≠ Consume true) ts'
    ∧ live_run a cstore (ts ++ ts') (live_new p pstore cstore) = Some s' ∧ lv_consumer s' = Finished r
    ∧ ((∃ rep, r = Ok rep) ∨ (∃ x, r = Err (PollFailed x)) ∧ ∃ late, Consume late ∈ ts)).
  { intros (s' & rep & Hgo & Hr). eapply Hend; [exact Hgo|exact Hr|]. left. by eexists. }
  destruct (decide (Forall (λ t, t = Produce) ts)) as [Hts|Hts].
  - apply Hwell. pose proof (consumer_waits a cstore ts _ _ Hts Hrun) as Hst. rewrite Hst in Hsame.
    pose proof Hs as (_ & Hg & Hc & _ & _ & Hsz & _). pose proof Hq as [_ Hm].
    eapply (turn_ends p a pstore cstore Hs 0 s1 (consumer_new cstore) 0 rview_init []); [exact Hq|exact Hsame|done|].
    eapply inv_grows; [|apply (inv_start _ (sizes_pos _ _ _ Hsz) _ (live_rs_ok p a pstore cstore Hs)); done]. split; [apply prefix_nil|done].
  - assert (Hcons : ∃ late, Consume late ∈ ts).
    { apply not_Forall_Exists in Hts; [|apply _]. apply Exists_exists in Hts as ([|late] & Hin & Hne); [by destruct Hne|by exists late]. }
    destruct (run_ends_well p a pstore cstore Hs _ s1 Hinv1 Hq ltac:(lia)) as [Hw|(s' & x & Hgo & Hr)].
    + intros r. rewrite Hsame. apply Hnf.
    + by apply Hwell.
    + eapply Hend; [exact Hgo|exact Hr|]. right. split; [by eexists|done].
Qed.

(** ** Concrete runs *)

(** Bursts of at most so many acts, while they are possible. *)
Fixpoint acts_while {BP : BuildProfile} a cstore (t : act) (n : nat) (s : live) : list act * live :=
  match n with
  | O => ([], s)
  | Datatypes.S n =>
      match live_act a cstore t s with
      | Some s' => let '(l, s'') := acts_while a cstore t n s' in (t :: l, s'')
      | None => ([], s)
      end
  end.
Fixpoint bursts {BP : BuildProfile} a cstore (l : list (act * nat)) (s : live) : list act :=
  match l with
  | [] => []
  | (t, n) :: l => let '(acts, s) := acts_while a cstore t n s in acts ++ bursts a cstore l s
  end.

Definition sender (cap : usize) (sources : u32) (per_source : u64) : ProducerArgs :=
  {| pa_shm := "ring"; pa_cap := cap; pa_sources := sources; pa_per_source := per_source; pa_fence_mode := Fenced; pa_append_mode := WriteRecord |}.
Definition receiver (sources : u32) (per_source : u64) : ConsumerArgs :=
  {| ca_mode := Litmus; ca_shm := "ring"; ca_done := "ring.done"; ca_out := "ring.done.out"; ca_sources := sources; ca_per_source := per_source;
     ca_poll_sleep_us := 0; ca_recheck_stall_us := 0; ca_timeout_ms := 1000; ca_fence_mode := Fenced; ca_append_mode := WriteRecord |}.

(** What a script of bursts leads to, each process over the file as created. *)
Definition outcome (s : live) : option (res HarnessError ObservedReport) :=
  match lv_consumer s with Finished r => Some r | _ => None end.
Section scripts.
Context {BP : BuildProfile} (cap : usize) (sources : u32) (per_source : u64).
Definition start : live := live_new (sender cap sources per_source) (created cap Fenced) (created cap Fenced).
Definition script (l : list (act * nat)) : list act := bursts (receiver sources per_source) (created cap Fenced) l start.
Definition play_live (l : list (act * nat)) : option live :=
  live_run (receiver sources per_source) (created cap Fenced) (script l) start.
End scripts.

(** The defaults of both modes are in the scope of the properties. *)
Example defaults_covered m :
  run_sizes (rd_cap (defaults m)) (rd_sources (defaults m)) (rd_per_source (defaults m))
  ∧ 68 * (rd_sources (defaults m) + 1) ≤ Z.of_nat (rd_cap (defaults m))
  ∧ 2 * (rd_sources (defaults m) * (rd_per_source (defaults m) + 1)) < 2 ^ 32.
Proof. destruct m; by_compute. Qed.

(** The consumer is in its first poll while the first records are overwritten. *)
Definition demo_beats : list (act * nat) := [(Produce, 150%nat); (Consume false, 40%nat); (Produce, 4000%nat); (Consume false, 4000%nat)].

Lemma demo_sizes : live_sizes (sender 136 1 2) (receiver 1 2) (created 136 Fenced) (created 136 Fenced).
Proof. split_and!; [apply good_created|apply good_created|done|done|done|by_compute..]. Qed.

(** The run of a script ends in a state [s] for which [f] gives [v]: computed. *)
Ltac script_ends f v s Hs Ho :=
  match goal with |- context [live_run (BP:=?B) ?a ?st ?ts ?s0] =>
    assert (Ho : f <$> live_run (BP:=B) a st ts s0 = Some v) by (vm_compute; reflexivity);
    destruct (live_run (BP:=B) a st ts s0) as [s|] eqn:Hs; [injection Ho as Ho|discriminate Ho] end.

Lemma fenced_run_reconciles_witness :
  ∃ s rep, live_run (BP:=dev_profile) (receiver 1 2) (created 136 Fenced) (script (BP:=dev_profile) 136 1 2 demo_beats) (start (BP:=dev_profile) 136 1 2) = Some s
  ∧ lv_consumer s = Finished (Ok rep) ∧ reported 136 1 2 (receiver 1 2) rep
  ∧ ∀ args iteration run, ra_fence_mode args = Fenced → ra_cap args = 136%nat → ra_sources args = 1 → ra_per_source args = 2 →
      cr_producer_failure run = None → cr_consumer_failure run = None → cr_report run = report_text rep →
      checks (run_once (BP:=dev_profile) args iteration run) (progressed 136 1 2 rep).
Proof.
  script_ends (λ s, match outcome s with Some (Ok rep) => true | _ => false end) true s Hs Ho. exists s.
  unfold outcome in Ho. destruct (lv_consumer s) as [q|c q|q|[rep|e| |]] eqn:Hr; try discriminate Ho.
  exists rep. split; [exact eq_refl|]. split; [exact eq_refl|].
  apply (fenced_run_reconciles (BP:=dev_profile) (sender 136 1 2) (receiver 1 2) (created 136 Fenced) (created 136 Fenced)
    (script (BP:=dev_profile) 136 1 2 demo_beats) s (Ok rep)); [exact demo_sizes| |exact Hs|exact Hr].
  by_compute.
Defined.

Lemma fenced_run_finishes_witness :
  ∃ s, live_run (BP:=dev_profile) (receiver 1 2) (created 136 Fenced) (script (BP:=dev_profile) 136 1 2 (take 2 demo_beats)) (start (BP:=dev_profile) 136 1 2) = Some s
  ∧ ∃ ts' s' r, Forall (λ t, t ≠ Consume true) ts'
      ∧ live_run (BP:=dev_profile) (receiver 1 2) (created 136 Fenced) (script (BP:=dev_profile) 136 1 2 (take 2 demo_beats) ++ ts') (start (BP:=dev_profile) 136 1 2) = Some s'
      ∧ lv_consumer s' = Finished r
      ∧ ((∃ rep, r = Ok rep) ∨ (∃ x, r = Err (PollFailed x)) ∧ ∃ late, Consume late ∈ script (BP:=dev_profile) 136 1 2 (take 2 demo_beats)).
Proof.
  script_ends outcome (@None (res HarnessError ObservedReport)) s Hs Ho. exists s. split; [exact eq_refl|].
  apply (fenced_run_finishes (BP:=dev_profile) (sender 136 1 2) (receiver 1 2) (created 136 Fenced) (created 136 Fenced)
    (script (BP:=dev_profile) 136 1 2 (take 2 demo_beats)) s); [exact demo_sizes| |exact Hs|].
  - by_compute.
  - intros r Hr. unfold outcome in Ho. rewrite Hr in Ho. discriminate Ho.
Defined.

(** A fenced consumer that is overtaken inside a record counts a rejected record
    although nothing is wrong: its report reconciles, and [assert_fenced] fails it. *)
Example overtaken_rejects :
  (λ s, match outcome s with
        | Some (Ok rep) => Some (or_rejected_records rep, bool_decide (Forall (λ o, sob_delivered o + sob_lost o = sob_expected_total o) (or_sources rep)),
                                 or_stale_violations rep, assert_fenced (BP:=dev_profile) rep None true)
        | _ => None
        end) <$> play_live (BP:=dev_profile) 208 2 2 [(Produce, 250%nat); (Consume false, 100%nat); (Produce, 4000%nat); (Consume false, 4000%nat)]
  = Some (Some (1, true, [], fail "fenced run rejected 1 records")).
Proof. vm_compute. reflexivity. Qed.

(** When the high-water records do not all fit the ring, one may be overwritten
    unread: the consumer then cannot know what it lost, and the parent fails a
    run in which nothing went wrong. *)
Example crowded_run :
  (λ s, match outcome s with
        | Some (Ok rep) => Some (or_stale_violations rep, bool_decide (source_accepted Fenced 1 rep 1), bool_decide (source_accepted Fenced 1 rep 3))
        | _ => None
        end) <$> play_live (BP:=dev_profile) 100 3 1 [(Produce, 4000%nat); (Consume false, 4000%nat)]
  = Some (Some ([], false, true)).
Proof. vm_compute. reflexivity. Qed.
